(* ===== verification/_CoqProject ===== *)
-Q . S2P
Prelude.v
PyStr.v
Pagination.v
Effects.v
Utf8.v
Json.v
Rely.v
Database.v
Config.v
World.v
Db.v
Jobstore.v
Counter.v
Ledger.v
Files.v
Chunker.v
Storage.v
Taskqueue.v
Converter.v
Worker.v
Spec.v
Cache.v
Handler.v
Drain.v
Api.v
Quiet.v
Deployment.v
Service.v
Integrity.v
IntegrityRules.v
IntegrityWorker.v
IntegrityApi.v
Walk.v
System.v
Machine.v
EndToEnd.v
