(* ===== verification/Prelude.v ===== *)
(** * markitdown-server: a verification development

    ** The program

    markitdown-server converts documents to Markdown.  An API process downloads a
    document, hashes it, and either serves the stored result or splits the
    document into page ranges, records a job and publishes one task per range to a
    message broker.  Worker processes consume the tasks: each converts one range,
    stores the text as a part in an object store and decrements the job's counter
    in the database; the worker that brings the counter to zero joins the parts,
    cuts the text into pages, stores pages and manifest and marks the job done.

    ** How the model is built

    Python code that computes is a function; code that can raise is a function
    into [exn + A]; code that talks to the outside is a program ([Effects.prog]),
    a tree of atomic actions on a [World.world].  One definition serves two
    readings: [run] executes a program alone, [pstep] executes one action, so
    that any number of programs interleave and may die between any two actions.
    Every call to the database, the object store or the broker consults a script
    of faults and may fail before or after it took effect ([Effects.serve]).

    Third-party code is a parameter: the object store and the broker are classes of
    operations ([ObjectStore], [Broker]) with their documented laws as separate
    classes ([ObjectStoreLaws]: read-after-write consistency; [BrokerLaws]: direct
    exchanges, idempotent declarations, acknowledgement, dead-lettering on expiry),
    pypdf, markitdown, requests, SHA-256 and the names of temporary files are
    [Externals] (with [TempLaws], [ShaLaws]), non-UTF-8 JSON input is [Codecs].
    Every class has a concrete instance ([map_store], [map_broker],
    [toy_externals], [utf8_only]), on which the witnesses run the whole system.
    [Spec.ContentAddressed] is what content addressing rests on: a document key
    belongs to one document on the web and one mode (SHA-256 has no collision among
    them), and markitdown looks at the extension of a file, not at its name.

    ** Files

    - Prelude: notations, automation and generic lemmas.  PyStr: Python strings.
      Utf8, Json: [str.encode], [bytes.decode], [json.dumps], [json.loads], with
      their round trips.  Effects: programs, faults, runs, traces, guarantees.
      Rely: rely-guarantee reasoning about interleaved programs, and systems of
      processes that start, act, crash and meet a changing environment.
    - Database: the tables of migrations/001_init.sql and the SQL the sources use.
      World: the services, their laws and their instances.
    - Config: config.py.  Pagination: pagination.py.  Chunker: chunker.py.
      Converter: converter.py.  Db: db.py.  Jobstore: jobstore.py.  Storage:
      storage.py.  Taskqueue: taskqueue.py.  Worker: worker.py.  Api: api/index.py.
      Files: the file-system calls and libraries these use.  Definitions keep the
      names of the Python functions (leading underscores dropped; [run_sql] is
      [_run], [publish_with_reconnect] is [_publish], [exists_] is [exists]; the
      statement or transaction behind a jobstore function [f] is [f_sql]).
    - Counter: jobstore statements as a transition system.  Ledger: what the job
      tables promise, as an abstract machine that knows no SQL, and why every
      statement is a step of it.  Cache: the source cache.  Handler: one delivery.  Drain: sequences
      of deliveries, and workers that take turns at the broker's queue.  Service:
      the endpoints.
    - Deployment: the processes of a deployment ([process], [program]).  Quiet: what
      an invariant has to say about itself ([Harmless]) for every reading and
      book-keeping program to be harmless.  Walk: the same for invariants that do
      not look at files and messages ([Everyday]), through all programs.
    - System, Machine, EndToEnd: all processes together.  Spec: the reference
      converter, a sequential program without queue, cache or storage.  Integrity,
      IntegrityRules, IntegrityWorker, IntegrityApi: the invariant that what is
      stored and in transit is what the reference says, and why every action of the
      worker and of the API keeps it.

    ** What the theorems show

    - The deployment against the reference (EndToEnd): workers and API processes
      with the same settings that do not share files, in any interleaving, with any
      faults, crashes, lost and redelivered messages and expired objects: every
      stored page, manifest, part, source and cached file has the content its name
      stands for; every page ever returned by an endpoint is the right page of the
      reference conversion of the right document; and a job that is [done] has all
      of its reference document, except the objects that expired.
    - The tables (Machine): whatever the processes do, the tables refine the ledger;
      rows are well formed in every reachable state, keep their identity and only
      move forward.
    - The whole system (System): under any interleaving of worker and API
      processes with any settings, any faults, crashes and expiry, a job that is
      [done] has its document row and, except for what expired, a manifest and every
      page that row and manifest announce.
    - Refinement (Drain, Service): the specification of a job is a pure function of
      its page ranges: convert each, join, paginate.  Any sequence of deliveries
      that covers the chunks, with duplicates, in any order, on any workers,
      stores exactly that; and POST /convert, while workers take its messages from
      the broker, handle and acknowledge them, answers with its first page.
    - The counter (Counter, Ledger): in every reachable database an active job's
      counter is the number of its unfinished chunks less the number of times a
      recorded chunk was marked failed; if that never happened, exactly one
      completion returns 0, and only when every chunk is done; recording a chunk
      again changes nothing.
    - Error paths (Handler, Taskqueue, Converter, Db): retry and give-up of a chunk,
      dead-lettering and the retry cycle, publication across a broken connection,
      acknowledgement of deliveries, malformed messages, all-or-nothing downloads; a
      transaction, its rollback failing or not, is applied at most once.
    - Storage and cache: keys never collide, documents are read back page by page, a
      manifest is never replaced before its pages are there, a cached source always
      has the hash in its name although downloads arrive in parts, pruning is LRU.
    - Pure components: pagination loses nothing, respects its bounds, keeps
      paragraphs whole and terminates for a positive page size; planned ranges
      partition the pages.
    - Limits of the code, as theorems: [fail_chunk] on a recorded chunk breaks the
      counter; a job whose assembler died stays active for ever; a statement whose
      reply was lost is applied twice; with no retry delays a retry is lost; a page
      size of zero hangs [paginate]; a worker whose settings differ from the API's
      stores wrong pages under the API's key.

    ** Fuel and bounds

    Python integers are unbounded and are [Z].  [paginate] takes the number of turns
    of its inner loop as fuel; the length of the content is enough for a positive
    page size, and the callers use it.  [blocks] (the reads of [hash_file] and the
    parts of a download from the bucket) takes the length of the file.  [parse_value] takes the length of its input.  The loops of
    the processes, which are meant to run for ever, take as fuel the number of turns
    modelled ([run_forever], [consume_loop], [wait_for_job]); theorems hold for
    every fuel, and exhausted fuel is a hang ([Spin]), never a result.

    ** What is not modelled

    Logging, dotenv, [float()] on the two settings that are timings (a parameter of
    [load_config]), the HTTP framework (routing, validation, the text of the OpenAPI document), threads
    inside one process (a host name stands for one thread of one process; in
    EndToEnd workers and conversion requests that run at the same time have
    different host names, that is, each has temporary files of its own, while the
    requests that touch no file share hosts freely), statements left uncommitted
    on a connection (a transaction that was not committed is never visible: the server
    drops it), errors of the local file system other than a missing file (disks are
    never full, directories exist), documents that change behind their URL and conversions that
    give another text for the same input (an LLM's), the checks
    [urlparse] makes on the host part of a URL, and the redelivery of
    unacknowledged messages as an event of its own (the laws name it; the system
    theorem lets the broker's state change arbitrarily).  A task message whose
    fields have the wrong JSON types reaches the handler in Python; what happens
    then is a parameter ([ill_typed]).  Float division in [job_progress] is exact
    rounding half to even, and [int()] accepts ASCII digits only.

    ** Plan

    Next: liveness over the system semantics (an unacknowledged delivery of a dead
    worker is handled by another one, and a job whose tasks are all handled ends),
    and conversion requests that share the temporary directory of one API process. *)
From stdpp Require Export base tactics list gmap sorting numbers strings.

(** Python integers are unbounded: they are [Z] throughout.  A Python [str] is
    the list of its code points and a Python [bytes] the list of its octets. *)
Abbreviation pystr := (list Z).
Abbreviation bytes := (list Z).

Open Scope Z_scope.
Open Scope list_scope.

(** [u "abc"] is the Python literal ["abc"] (ASCII literals only). *)
Definition u (s : string) : pystr :=
  (λ c, Z.of_N (Ascii.N_of_ascii c)) <$> String.list_ascii_of_string s.
Arguments u _%_string_scope : simpl never.

(** The characters that have no convenient literal. *)
Definition nl : Z := 10.


(** ** Shared automation *)
Create HintDb py discriminated.
Create Rewrite HintDb pylen.

Ltac simp := repeat (case_bool_decide || case_decide); simplify_eq/=.
Ltac destruct_if :=
  match goal with
  | |- context [if ?b then _ else _] => destruct b eqn:?
  | H : context [if ?b then _ else _] |- _ => destruct b eqn:?
  end.

(** Boolean integer comparisons as propositions, everywhere. *)
Ltac boolZ :=
  repeat match goal with
  | H : (_ <? _) = true |- _ => apply Z.ltb_lt in H
  | H : (_ <? _) = false |- _ => apply Z.ltb_ge in H
  | H : (_ <=? _) = true |- _ => apply Z.leb_le in H
  | H : (_ <=? _) = false |- _ => apply Z.leb_gt in H
  | H : (_ =? _) = true |- _ => apply Z.eqb_eq in H
  | H : (_ =? _) = false |- _ => apply Z.eqb_neq in H
  end.

(** ** Generic list lemmas *)
Lemma drop_app_exact {A} (l k : list A) : drop (length l) (l ++ k) = k.
Proof. by rewrite drop_app_length. Qed.

Lemma concat_snoc {A} (ls : list (list A)) (l : list A) :
  concat (ls ++ [l]) = concat ls ++ l.
Proof. by rewrite concat_app, concat_cons, concat_nil, app_nil_r. Qed.

Lemma Forall_snoc_iff {A} (P : A → Prop) l x :
  Forall P (l ++ [x]) ↔ Forall P l ∧ P x.
Proof. rewrite Forall_app, Forall_singleton. done. Qed.

(** Splitting at the last occurrence of a separator is unambiguous. *)
Lemma app_last_sep_inj {A} (x : A) (a b c d : list A) :
  x ∉ b → x ∉ d → a ++ x :: b = c ++ x :: d → a = c ∧ b = d.
Proof.
  revert c. induction a as [|y a IH]; intros [|z c] Hb Hd Heq; simplify_eq/=.
  - done.
  - exfalso. apply Hb. set_solver.
  - exfalso. apply Hd. set_solver.
  - destruct (IH c Hb Hd) as [-> ->]; [done|]. done.
Qed.

(** ... and so is splitting at the first one. *)
Lemma app_first_sep_inj {A} (x : A) (a b c d : list A) :
  x ∉ a → x ∉ c → a ++ x :: b = c ++ x :: d → a = c ∧ b = d.
Proof.
  revert c. induction a as [|y a IH]; intros [|z c] Ha Hc Heq; simplify_eq/=.
  - done.
  - exfalso. apply Hc. set_solver.
  - exfalso. apply Ha. set_solver.
  - destruct (IH c) as [-> ->]; [set_solver..|done|]. done.
Qed.

Lemma u_inj s t : u s = u t → s = t.
Proof.
  unfold u. revert t. induction s as [|a s IH]; intros [|b t] Heq; simplify_eq/=; [done|].
  f_equal; [|by apply IH].
  match goal with H : Ascii.N_of_ascii _ = Ascii.N_of_ascii _ |- _ =>
    rewrite <-(Ascii.ascii_N_embedding a), <-(Ascii.ascii_N_embedding b); by rewrite H
  end.
Qed.

Lemma filter_none {A} (P : A → Prop) `{!∀ x, Decision (P x)} (l : list A) :
  (∀ x, x ∈ l → ¬ P x) → filter P l = [].
Proof.
  induction l as [|x l IH]; intros Hl; [done|].
  rewrite filter_cons_False by (apply Hl; set_solver). apply IH. set_solver.
Qed.

Lemma fmap_concat {A B} (f : A → B) (ls : list (list A)) :
  fmap (M:=list) f (concat ls) = concat (fmap (M:=list) (fmap (M:=list) f) ls).
Proof. induction ls as [|l ls IH]; [done|]. simpl. by rewrite fmap_app, IH. Qed.

(** The second components of the keys of a map that share the first one. *)
Lemma NoDup_snd_keys {K1 K2 V} `{Countable K1, Countable K2} (m : gmap (K1 * K2) V) (a : K1) :
  (∀ k v, m !! k = Some v → k.1 = a) → NoDup ((λ kv, kv.1.2) <$> map_to_list m).
Proof.
  intros Hm.
  assert (NoDup (fst <$> map_to_list m)) as Hnd by apply NoDup_fst_map_to_list.
  assert (∀ kv, kv ∈ map_to_list m → kv.1.1 = a) as Hh.
  { intros [k v] Hin%elem_of_map_to_list. simpl. by eapply Hm. }
  clear Hm. induction (map_to_list m) as [|[[h p] f] l IH]; [constructor|].
  simpl in *. apply NoDup_cons in Hnd as [Hnot Hnd]. apply NoDup_cons. split.
  - intros ([[h' p'] f'] & Hp & Hin)%list_elem_of_fmap. simpl in *. subst p'.
    apply Hnot. apply list_elem_of_fmap. exists ((h', p), f'). split; [|done]. simpl.
    pose proof (Hh ((h, p), f) (list_elem_of_here _ _)) as Hh1.
    pose proof (Hh ((h', p), f') (list_elem_of_further _ _ _ Hin)) as Hh2. simpl in *. congruence.
  - apply IH; [done|]. intros kf Hin. apply Hh. by apply list_elem_of_further.
Qed.

Lemma pair_fst_eq {A B} (p : A * B) (a : A) : p.1 = a → p = (a, p.2).
Proof. by destruct p; intros <-. Qed.
