(* ===== verification/PyStr.v ===== *)
(** * Python strings

    The operations of [str] the sources use, on lists of code points: slicing
    with Python's treatment of negative bounds, [str.split] on a separator,
    [str.join], [str.strip], decimal rendering ([str(n)], [f"{n:05d}"]) and
    [int()] on a decimal literal.  The lemmas are the ones the components
    share: splitting and joining are inverse, decimal rendering is injective
    and never produces a separator character. *)
From S2P Require Import Prelude.

Definition len {A} (s : list A) : Z := Z.of_nat (length s).

(** ** Slices: [s[:k]] and [s[k:]].  A negative bound counts from the end; a
    bound out of range is clamped. *)
Definition slice_index {A} (s : list A) (k : Z) : nat :=
  if k <? 0 then Z.to_nat (len s + k) else Z.to_nat k.

Definition slice_to {A} (s : list A) (k : Z) : list A := take (slice_index s k) s.
Definition slice_from {A} (s : list A) (k : Z) : list A := drop (slice_index s k) s.

(** ** [s.startswith(p)], [sep.join(parts)], [s.split(sep)] *)
Definition startswith (p s : pystr) : bool := bool_decide (p `prefix_of` s).

Fixpoint join (sep : pystr) (parts : list pystr) : pystr :=
  match parts with
  | [] => []
  | [p] => p
  | p :: rest => p ++ sep ++ join sep rest
  end.

Definition cons_head (c : Z) (l : list pystr) : list pystr :=
  match l with
  | [] => [[c]]
  | h :: t => (c :: h) :: t
  end.

(** [split_go sep k s]: the fields of [s] after its first [k] characters, which
    belong to a separator already recognised.  Occurrences are found left to
    right and do not overlap, as in Python. *)
Fixpoint split_go (sep : pystr) (skip : nat) (s : pystr) : list pystr :=
  match s with
  | [] => [[]]
  | c :: s' =>
      match skip with
      | S k => split_go sep k s'
      | O => if startswith sep s then [] :: split_go sep (length sep - 1) s'
             else cons_head c (split_go sep 0 s')
      end
  end.

Definition split (sep s : pystr) : list pystr := split_go sep 0 s.

(** ** [s.strip()]: the characters for which [str.isspace] holds. *)
Definition is_space (c : Z) : bool :=
  ((9 <=? c) && (c <=? 13)) || ((28 <=? c) && (c <=? 32)) || (c =? 133) ||
  (c =? 160) || (c =? 5760) || ((8192 <=? c) && (c <=? 8202)) || (c =? 8232) ||
  (c =? 8233) || (c =? 8239) || (c =? 8287) || (c =? 12288).

Fixpoint lstrip (s : pystr) : pystr :=
  match s with
  | [] => []
  | c :: s' => if is_space c then lstrip s' else s
  end.

Definition strip (s : pystr) : pystr := reverse (lstrip (reverse (lstrip s))).

(** ** Decimal rendering *)
Fixpoint digits_go (fuel : nat) (n : Z) (acc : pystr) : pystr :=
  match fuel with
  | O => acc
  | S k => let acc' := (48 + n `mod` 10) :: acc in
           if n <? 10 then acc' else digits_go k (n `div` 10) acc'
  end.

(** A number has no more decimal digits than binary ones. *)
Definition digits (n : Z) : pystr := digits_go (S (Z.to_nat (Z.log2 n))) n [].

(** [str(n)] *)
Definition str_of_Z (n : Z) : pystr :=
  if n <? 0 then u "-" ++ digits (- n) else digits n.

(** [f"{n:05d}"]: zero padding goes between the sign and the digits. *)
Definition fmt05d (n : Z) : pystr :=
  let ds := digits (Z.abs n) in
  if n <? 0 then u "-" ++ replicate (4 - length ds) 48 ++ ds
  else replicate (5 - length ds) 48 ++ ds.

(** The value of a string of decimal digits. *)
Definition digits_value (s : pystr) : Z := fold_left (λ a c, 10 * a + (c - 48)) s 0.

Definition is_digit (c : Z) : bool := (48 <=? c) && (c <=? 57).

(** ** [p in s], [s.endswith(p)], [s <= t], [s.splitlines()], [s.lower()] *)
Fixpoint contains (p s : pystr) : bool :=
  startswith p s || match s with [] => false | _ :: s' => contains p s' end.

Definition endswith (p s : pystr) : bool := bool_decide (p `suffix_of` s).

Fixpoint str_leb (s t : pystr) : bool :=
  match s, t with
  | [], _ => true
  | _ :: _, [] => false
  | c :: s', d :: t' => (c <? d) || ((c =? d) && str_leb s' t')
  end.

Definition is_line_break (c : Z) : bool :=
  ((10 <=? c) && (c <=? 13)) || ((28 <=? c) && (c <=? 30)) || (c =? 133) ||
  (c =? 8232) || (c =? 8233).

(** The line being read is [cur] (reversed); CR LF is one break, and a final
    break starts no line. *)
Fixpoint splitlines_go (cur s : pystr) : list pystr :=
  match s with
  | [] => match cur with [] => [] | _ => [reverse cur] end
  | c :: s' =>
      if is_line_break c then
        reverse cur :: match s' with
                       | d :: s'' => if (c =? 13) && (d =? 10) then splitlines_go [] s''
                                     else splitlines_go [] s'
                       | [] => []
                       end
      else splitlines_go (c :: cur) s'
  end.

Definition splitlines (s : pystr) : list pystr := splitlines_go [] s.

(** On ASCII letters. *)
Definition lower (s : pystr) : pystr :=
  (λ c, if (65 <=? c) && (c <=? 90) then c + 32 else c) <$> s.

(** ** Lemmas: slices *)
Lemma len_nonneg {A} (s : list A) : 0 <= len s.
Proof. unfold len. lia. Qed.

Lemma len_nil {A} : len (@nil A) = 0.
Proof. done. Qed.

Lemma len_cons {A} (x : A) s : len (x :: s) = len s + 1.
Proof. unfold len; simpl; lia. Qed.

Lemma len_app {A} (s t : list A) : len (s ++ t) = len s + len t.
Proof. unfold len. rewrite length_app. lia. Qed.

#[export] Hint Rewrite @len_nil @len_cons @len_app : pylen.

Lemma len_zero_iff {A} (s : list A) : len s = 0 ↔ s = [].
Proof. unfold len. destruct s; simpl; split; intros; (done || lia). Qed.

Lemma slice_split {A} (s : list A) k : slice_to s k ++ slice_from s k = s.
Proof. apply take_drop. Qed.

Lemma len_slice_to {A} (s : list A) k : 0 <= k <= len s → len (slice_to s k) = k.
Proof.
  unfold len, slice_to, slice_index. intros. case (Z.ltb_spec k 0); [lia|intros _].
  rewrite length_take. lia.
Qed.

Lemma len_slice_from {A} (s : list A) k : 0 <= k <= len s → len (slice_from s k) = len s - k.
Proof.
  unfold len, slice_from, slice_index. intros. case (Z.ltb_spec k 0); [lia|intros _].
  rewrite length_drop. lia.
Qed.

Lemma len_slice_to_le {A} (s : list A) k : 0 <= k → len (slice_to s k) <= k.
Proof.
  unfold len, slice_to, slice_index. intros. case (Z.ltb_spec k 0); [lia|intros _].
  rewrite length_take. lia.
Qed.

Lemma slice_to_all {A} (s : list A) k : len s <= k → slice_to s k = s.
Proof.
  unfold len, slice_to, slice_index. intros. case (Z.ltb_spec k 0); [lia|intros _].
  apply take_ge. lia.
Qed.

(** ** Lemmas: split and join *)
Lemma split_go_nonempty sep k s : split_go sep k s ≠ [].
Proof.
  revert k. induction s as [|c s IH]; intros [|k]; simpl; auto.
  destruct (startswith sep (c :: s)); [done|]. by destruct (split_go sep 0 s).
Qed.

Lemma split_nonempty sep s : split sep s ≠ [].
Proof. apply split_go_nonempty. Qed.

Lemma join_cons sep p parts : parts ≠ [] → join sep (p :: parts) = p ++ sep ++ join sep parts.
Proof. by destruct parts. Qed.

Lemma Forall_join (P : Z → Prop) sep parts :
  Forall P sep → Forall (Forall P) parts → Forall P (join sep parts).
Proof.
  intros Hs Hp. induction Hp as [|p parts Hp Hps IH]; [constructor|].
  destruct parts as [|q parts]; [done|]. rewrite join_cons by done.
  by repeat (apply Forall_app; split).
Qed.

Lemma join_cons_head sep c l : l ≠ [] → join sep (cons_head c l) = c :: join sep l.
Proof. destruct l as [|h [|h' t]]; done. Qed.

Lemma join_snoc sep parts p :
  parts ≠ [] → join sep (parts ++ [p]) = join sep parts ++ sep ++ p.
Proof.
  induction parts as [|q parts IH]; [done|intros _].
  destruct parts as [|q' parts]; [done|].
  rewrite <-app_comm_cons, !join_cons, IH by (destruct parts; done).
  by rewrite <-!(assoc_L (++)).
Qed.

Lemma join_split_go sep k s :
  sep ≠ [] → (k <= length s)%nat → join sep (split_go sep k s) = drop k s.
Proof.
  intros Hsep. revert k. induction s as [|c s IH]; intros [|k] Hk; simpl in *; try done.
  - unfold startswith. case_bool_decide as Hp.
    + destruct Hp as [t Ht]. rewrite join_cons by apply split_go_nonempty.
      destruct sep as [|d sep]; [done|]. simplify_eq/=.
      rewrite Nat.sub_0_r, IH by (rewrite length_app; lia).
      by rewrite drop_app_exact.
    + rewrite join_cons_head by apply split_go_nonempty. rewrite IH by lia. by rewrite drop_0.
  - apply IH. lia.
Qed.

(** [sep.join(s.split(sep)) == s] *)
Lemma join_split sep s : sep ≠ [] → join sep (split sep s) = s.
Proof. intros. unfold split. rewrite join_split_go; [apply drop_0|done|lia]. Qed.

Lemma concat_split_subset sep s : Forall (λ b, ∀ c, c ∈ b → c ∈ s) (split sep s).
Proof.
  unfold split. generalize 0%nat as k.
  induction s as [|c s IH]; intros k; simpl.
  - constructor; [set_solver|constructor].
  - destruct k as [|k].
    + destruct (startswith sep (c :: s)).
      * constructor; [set_solver|]. eapply Forall_impl; [apply IH|]. set_solver.
      * specialize (IH 0%nat). destruct (split_go sep 0 s) as [|h t]; simpl.
        { constructor; [set_solver|constructor]. }
        inversion IH; subst. constructor; [set_solver|].
        eapply Forall_impl; [done|]. set_solver.
    + eapply Forall_impl; [apply IH|]. set_solver.
Qed.

(** A string without the separator's first character is one field. *)
Lemma split_go_no_sep c sep s :
  c ∉ s → split_go (c :: sep) 0 s = [s].
Proof.
  induction s as [|d s IH]; intros Hc; [done|]. simpl.
  unfold startswith. rewrite bool_decide_eq_false_2.
  - rewrite IH by set_solver. done.
  - intros [t Ht]. simplify_eq/=. set_solver.
Qed.

(** [(a + ":" + b).split(":")] ends with [b] when [b] has no [":"]. *)
Lemma split_char_last c a b :
  c ∉ b → last (split [c] (a ++ c :: b)) = Some b.
Proof.
  intros Hb. unfold split. induction a as [|d a IH]; simpl.
  - unfold startswith. rewrite bool_decide_eq_true_2 by (by exists b).
    by rewrite split_go_no_sep.
  - destruct (startswith [c] _); [|].
    + destruct (split_go [c] 0 (a ++ c :: b)) eqn:E; [by apply split_go_nonempty in E|].
      done.
    + destruct (split_go [c] 0 (a ++ c :: b)) as [|h t] eqn:E; [done|].
      destruct t; simpl in *; [|done].
      exfalso. assert (join [c] (split_go [c] 0 (a ++ c :: b)) = a ++ c :: b) as Hj.
      { rewrite join_split_go; [apply drop_0|done|lia]. }
      injection IH as ->. rewrite E in Hj. simpl in Hj.
      apply (f_equal length) in Hj. rewrite length_app in Hj. simpl in Hj. lia.
Qed.

(** ** Lemmas: decimal rendering *)
Lemma digits_value_snoc s c : digits_value (s ++ [c]) = 10 * digits_value s + (c - 48).
Proof. unfold digits_value. by rewrite fold_left_app. Qed.

Lemma digits_value_zeros k s : digits_value (replicate k 48 ++ s) = digits_value s.
Proof.
  unfold digits_value. rewrite fold_left_app. f_equal.
  induction k as [|k IH]; [done|]. simpl. apply IH.
Qed.

(** [digits_go] prepends the digits of [n] to the accumulator. *)
Lemma digits_go_spec fuel n acc :
  0 <= n < 2 ^ Z.of_nat fuel → (0 < fuel)%nat →
  ∃ ds, digits_go fuel n acc = ds ++ acc ∧ digits_value ds = n ∧
        Forall (λ c, 48 <= c <= 57) ds ∧ ds ≠ [] ∧
        (1 <= n → ∃ d ds', ds = d :: ds' ∧ 49 <= d).
Proof.
  revert n acc. induction fuel as [|fuel IH]; intros n acc Hn Hf; [lia|]. cbn [digits_go].
  pose proof (Z.mod_pos_bound n 10 ltac:(lia)) as Hm.
  case (Z.ltb_spec n 10); intros Hlt.
  - exists [48 + n `mod` 10]. rewrite Z.mod_small by lia.
    unfold digits_value; simpl.
    split; [done|]. split; [lia|]. split; [by apply Forall_singleton; lia|]. split; [done|].
    intros. exists (48 + n), []. split; [done|lia].
  - rewrite Nat2Z.inj_succ, Z.pow_succ_r in Hn by lia.
    destruct (IH (n `div` 10) ((48 + n `mod` 10) :: acc)) as (ds & -> & Hv & Hd & _ & Hnz).
    + split; [apply Z.div_pos; lia|]. apply Z.div_lt_upper_bound; lia.
    + destruct fuel; [simpl in Hn; lia|lia].
    + exists (ds ++ [48 + n `mod` 10]). rewrite <-(assoc_L (++)). simpl.
      rewrite digits_value_snoc, Forall_snoc_iff.
      split; [done|]. split; [pose proof (Z.div_mod n 10); lia|]. split; [split; [done|lia]|].
      split; [by destruct ds|]. intros _. destruct Hnz as (d & ds' & -> & ?).
      { apply Z.div_le_lower_bound; lia. }
      by exists d, (ds' ++ [48 + n `mod` 10]).
Qed.

Lemma digits_spec n :
  0 <= n → digits_value (digits n) = n ∧ Forall (λ c, 48 <= c <= 57) (digits n) ∧
    digits n ≠ [] ∧ (1 <= n → ∃ d ds', digits n = d :: ds' ∧ 49 <= d).
Proof.
  intros Hn. unfold digits.
  assert (n < 2 ^ Z.of_nat (S (Z.to_nat (Z.log2 n)))) as Hlog.
  { pose proof (Z.log2_nonneg n). rewrite Nat2Z.inj_succ, Z2Nat.id by done.
    destruct (decide (n = 0)) as [->|]; [done|]. apply Z.log2_spec. lia. }
  edestruct digits_go_spec as (ds & Hgo & Hv & Hd & Hne & Hnz); [by split|lia|rewrite Hgo].
  by rewrite app_nil_r.
Qed.

Lemma not_elem_of_bounded (P : Z → Prop) x (s : pystr) : Forall P s → ¬ P x → x ∉ s.
Proof. intros Hs Hx Hin. rewrite Forall_forall in Hs. by apply Hx, Hs. Qed.

Lemma fmt05d_digits n : 0 <= n → Forall (λ c, 48 <= c <= 57) (fmt05d n).
Proof.
  intros Hn. unfold fmt05d. case (Z.ltb_spec n 0); [lia|intros _].
  rewrite Z.abs_eq by done. apply Forall_app_2; [|by apply digits_spec].
  apply Forall_replicate. lia.
Qed.

Lemma fmt05d_nonempty n : fmt05d n ≠ [].
Proof.
  unfold fmt05d. destruct (n <? 0); [done|]. intros Hnil%(f_equal length).
  rewrite length_app, length_replicate in Hnil. simpl in Hnil. lia.
Qed.

Lemma fmt05d_inj n m : 0 <= n → 0 <= m → fmt05d n = fmt05d m → n = m.
Proof.
  intros Hn Hm. unfold fmt05d. case (Z.ltb_spec n 0); [lia|intros _].
  case (Z.ltb_spec m 0); [lia|intros _]. rewrite !Z.abs_eq by done. intros Heq.
  apply (f_equal digits_value) in Heq. rewrite !digits_value_zeros in Heq.
  by rewrite (proj1 (digits_spec n Hn)), (proj1 (digits_spec m Hm)) in Heq.
Qed.

Lemma str_of_Z_digits n : 0 <= n → str_of_Z n = digits n.
Proof. unfold str_of_Z. case (Z.ltb_spec n 0); [lia|done]. Qed.

(** [str] is injective on integers. *)
Lemma str_of_Z_inj n m : str_of_Z n = str_of_Z m → n = m.
Proof.
  assert (∀ k s, 0 <= k → digits k ≠ u "-" ++ s) as Hdash.
  { intros k s Hk Heq. destruct (digits_spec k Hk) as (_ & Hd & _).
    rewrite Heq in Hd. inversion Hd; subst. lia. }
  unfold str_of_Z. case (Z.ltb_spec n 0); case (Z.ltb_spec m 0); intros Hm Hn Heq.
  - apply app_inv_head in Heq. apply (f_equal digits_value) in Heq.
    rewrite (proj1 (digits_spec (- n) ltac:(lia))),
      (proj1 (digits_spec (- m) ltac:(lia))) in Heq. lia.
  - symmetry in Heq. by apply Hdash in Heq.
  - by apply Hdash in Heq.
  - apply (f_equal digits_value) in Heq.
    by rewrite (proj1 (digits_spec n Hn)), (proj1 (digits_spec m Hm)) in Heq.
Qed.

(** The characters of [str n]: digits and possibly a leading minus sign. *)
Lemma str_of_Z_chars n : Forall (λ c, 48 <= c <= 57 ∨ c = 45) (str_of_Z n).
Proof.
  assert (∀ k, 0 <= k → Forall (λ c, 48 <= c <= 57 ∨ c = 45) (digits k)) as Hd.
  { intros k Hk. eapply Forall_impl; [apply (digits_spec k Hk)|]. simpl. lia. }
  unfold str_of_Z. case (Z.ltb_spec n 0); intros Hn; [|by apply Hd].
  apply Forall_app_2; [|apply Hd; lia]. constructor; [by right|constructor].
Qed.
