(* ===== verification/Pagination.v ===== *)
(** * Splitting converted markdown into pages (pagination.py)

    [paginate] is a [while] loop inside a [for] loop.  The [while] loop cuts
    [page_size] characters off a block at a time, so its recursion is bounded
    by fuel and [None] means "still running": the first theorem shows that
    the length of the document is enough fuel whenever [page_size >= 1], and
    the second that no fuel is enough when [page_size] is negative, or zero with a
    non-empty paragraph. *)
From S2P Require Import Prelude PyStr.

(** The paragraph boundary ["\n\n"]. *)
Definition nl2 : pystr := [nl; nl].
Arguments nl2 : simpl never.

(** The loop [while len(block) > page_size]. *)
Fixpoint hard_split (fuel : nat) (page_size : Z) (pages : list pystr)
    (current block : pystr) : option (list pystr * pystr * pystr) :=
  if page_size <? len block then
    match fuel with
    | O => None
    | S fuel =>
        let '(pages, current) :=
          match current with [] => (pages, []) | _ => (pages ++ [current], []) end in
        hard_split fuel page_size (pages ++ [slice_to block page_size]) current
          (slice_from block page_size)
    end
  else Some (pages, current, block).

(** [block if not current else f"{current}\n\n{block}"] *)
Definition candidate (current block : pystr) : pystr :=
  match current with [] => block | _ => current ++ nl2 ++ block end.

(** The body of [for block in content.split("\n\n")]. *)
Definition add_block (fuel : nat) (page_size : Z) (pages : list pystr)
    (current block : pystr) : option (list pystr * pystr) :=
  '(pages, current, block) ← hard_split fuel page_size pages current block;
  if page_size <? len (candidate current block) then Some (pages ++ [current], block)
  else Some (pages, candidate current block).

Fixpoint add_blocks (fuel : nat) (page_size : Z) (pages : list pystr)
    (current : pystr) (blocks : list pystr) : option (list pystr * pystr) :=
  match blocks with
  | [] => Some (pages, current)
  | block :: rest =>
      '(pages, current) ← add_block fuel page_size pages current block;
      add_blocks fuel page_size pages current rest
  end.

(** [if current or not pages: pages.append(current)] *)
Definition flush (pages : list pystr) (current : pystr) : list pystr :=
  match current, pages with
  | [], _ :: _ => pages
  | _, _ => pages ++ [current]
  end.

Definition paginate (fuel : nat) (content : pystr) (page_size : Z) : option (list pystr) :=
  match content with
  | [] => Some [[]]
  | _ => '(pages, current) ← add_blocks fuel page_size [] [] (split nl2 content);
         Some (flush pages current)
  end.

(** The dictionary [build_pagination] returns. *)
Record pagination := Pagination {
  pg_id : pystr;
  pg_page : Z;
  pg_page_size : Z;
  pg_total_pages : Z;
  pg_total_length : Z;
  pg_has_next : bool;
  pg_has_prev : bool;
  pg_next_page : option Z;
  pg_prev_page : option Z;
}.

Definition build_pagination (doc_id : pystr) (page total_pages total_length page_size : Z)
    : pagination :=
  let has_next := page <? total_pages in
  let has_prev := 1 <? page in
  Pagination doc_id page page_size total_pages total_length has_next has_prev
    (if has_next then Some (page + 1) else None)
    (if has_prev then Some (page - 1) else None).

(** ** Specification vocabulary *)

(** [woven pages t]: [t] is the pages in order, with nothing but paragraph
    boundaries before, between and after them. *)
Inductive woven : list pystr → pystr → Prop :=
| woven_nil : woven [] []
| woven_sep pages t : woven pages t → woven pages (t ++ nl2)
| woven_page pages t p : woven pages t → woven (pages ++ [p]) (t ++ p).

(** The paragraphs of a page that starts with [b] did not fit on the page
    before it. *)
Definition greedy (page_size : Z) (groups : list (list pystr)) : Prop :=
  ∀ i g g', groups !! i = Some g → groups !! S i = Some g' →
    ∃ b, head g' = Some b ∧ page_size < len (join nl2 g) + 2 + len b.

Definition nonempty (b : pystr) : Prop := b ≠ [].

(** The pages a client reads by following [next_page] from page [p]. *)
Fixpoint follow_next (fuel : nat) (doc_id : pystr) (p total_pages total_length page_size : Z)
    : list Z :=
  p :: match fuel, pg_next_page (build_pagination doc_id p total_pages total_length page_size) with
       | S fuel, Some q => follow_next fuel doc_id q total_pages total_length page_size
       | _, _ => []
       end.

#[export] Hint Constructors woven : py.

(** ** Termination *)
Lemma len_block_cut (block : pystr) page_size :
  1 <= page_size < len block →
  (length (slice_from block page_size) < length block)%nat.
Proof.
  intros Hps. pose proof (len_slice_from block page_size ltac:(lia)) as Hl.
  unfold len in *. lia.
Qed.

Lemma hard_split_total fuel page_size block :
  1 <= page_size → (length block <= fuel)%nat →
  ∀ pages current, is_Some (hard_split fuel page_size pages current block).
Proof.
  intros Hps. revert block. induction fuel as [|fuel IH]; intros block Hf pages current;
    simpl; case (Z.ltb_spec page_size (len block)); intros Hlt; try by eexists.
  - unfold len in Hlt. lia.
  - pose proof (len_block_cut block page_size ltac:(lia)).
    destruct current; apply IH; lia.
Qed.

Lemma hard_split_mono fuel fuel' page_size pages current block r :
  (fuel <= fuel')%nat → hard_split fuel page_size pages current block = Some r →
  hard_split fuel' page_size pages current block = Some r.
Proof.
  revert fuel' pages current block. induction fuel as [|fuel IH];
    intros [|fuel'] pages current block Hle; simpl; try lia;
    destruct (page_size <? len block); try done.
  destruct current; apply IH; lia.
Qed.

Lemma add_block_mono fuel fuel' page_size pages current block r :
  (fuel <= fuel')%nat → add_block fuel page_size pages current block = Some r →
  add_block fuel' page_size pages current block = Some r.
Proof.
  intros Hle. unfold add_block.
  destruct (hard_split fuel _ _ _ _) as [r'|] eqn:E; [|done].
  by rewrite (hard_split_mono _ fuel' _ _ _ _ _ Hle E).
Qed.

Lemma add_blocks_mono fuel fuel' page_size pages current blocks r :
  (fuel <= fuel')%nat → add_blocks fuel page_size pages current blocks = Some r →
  add_blocks fuel' page_size pages current blocks = Some r.
Proof.
  intros Hle. revert pages current. induction blocks as [|b blocks IH]; intros pages current; [done|].
  simpl. destruct (add_block fuel _ _ _ _) as [[pages' current']|] eqn:E; [|done]. simpl.
  rewrite (add_block_mono _ fuel' _ _ _ _ _ Hle E). simpl. apply IH.
Qed.

Lemma paginate_mono fuel fuel' content page_size r :
  (fuel <= fuel')%nat → paginate fuel content page_size = Some r →
  paginate fuel' content page_size = Some r.
Proof.
  intros Hle. destruct content as [|c content]; [done|]. cbn [paginate].
  destruct (add_blocks fuel _ _ _ _) as [[pages current]|] eqn:E; [|done].
  by rewrite (add_blocks_mono _ fuel' _ _ _ _ _ Hle E).
Qed.

Lemma add_blocks_total fuel page_size blocks :
  1 <= page_size → Forall (λ b, (length b <= fuel)%nat) blocks →
  ∀ pages current, is_Some (add_blocks fuel page_size pages current blocks).
Proof.
  intros Hps Hb. induction Hb as [|b blocks Hlen Hb IH]; intros pages current; [by eexists|].
  simpl. unfold add_block.
  destruct (hard_split_total fuel page_size b Hps Hlen pages current) as [[[? ?] ?] ->].
  simpl. destruct (_ <? _); apply IH.
Qed.

Lemma split_go_lengths sep k s : Forall (λ b, (length b <= length s)%nat) (split_go sep k s).
Proof.
  revert k. induction s as [|c s IH]; intros k; simpl.
  { repeat constructor. }
  assert (∀ k, Forall (λ b, (length b <= S (length s))%nat) (split_go sep k s)) as IH'.
  { intros k'. eapply Forall_impl; [apply IH|]. simpl. lia. }
  destruct k as [|k]; [|apply IH']. destruct (startswith sep (c :: s)).
  { constructor; [simpl; lia|apply IH']. }
  specialize (IH 0%nat). specialize (IH' 0%nat).
  destruct (split_go sep 0 s) as [|h t]; simpl; [apply Forall_singleton; simpl; lia|].
  inversion IH; inversion IH'; subst. constructor; [simpl; lia|done].
Qed.

(** ** The divergent configurations *)
Lemma hard_split_diverges fuel page_size pages current block :
  page_size < 0 ∨ (page_size = 0 ∧ block ≠ []) →
  hard_split fuel page_size pages current block = None.
Proof.
  revert pages current block. induction fuel as [|fuel IH]; intros pages current block Hps;
    simpl; case (Z.ltb_spec page_size (len block)); intros Hle; try done;
    try (destruct Hps as [?|[-> Hne]]; [pose proof (len_nonneg block); lia|];
         apply len_zero_iff in Hne || (pose proof (len_nonneg block);
         exfalso; apply Hne, len_zero_iff; lia)).
  destruct current; apply IH; (destruct Hps as [?|[-> Hne]]; [by left|right]);
    split; done.
Qed.

Lemma add_blocks_diverges fuel page_size pages current blocks :
  page_size < 0 ∧ blocks ≠ [] ∨ page_size = 0 ∧ Exists nonempty blocks →
  add_blocks fuel page_size pages current blocks = None.
Proof.
  revert pages current. induction blocks as [|b blocks IH]; intros pages current Hps.
  { destruct Hps as [[_ ?]|[_ H]]; [done|inversion H]. }
  simpl. unfold add_block. destruct Hps as [[Hps _]|[-> Hex]].
  { by rewrite hard_split_diverges by by left. }
  destruct b as [|c b].
  - destruct (hard_split fuel 0 pages current []) as [[[pages' current'] block']|]; [|done].
    simpl. inversion Hex as [? ? Hne|? ? Hex']; subst; [done|].
    destruct (_ <? _); apply IH; by right.
  - by rewrite hard_split_diverges by by right.
Qed.

(** ** Content *)
Lemma hard_split_woven fuel page_size pages current block pages' current' block' t :
  hard_split fuel page_size pages current block = Some (pages', current', block') →
  woven pages t →
  ∃ t', woven pages' t' ∧ t ++ candidate current block = t' ++ candidate current' block' ∧
        len block' <= page_size ∧ (current' = current ∨ current' = []).
Proof.
  revert pages current block t. induction fuel as [|fuel IH]; intros pages current block t;
    simpl; case (Z.ltb_spec page_size (len block)); intros Hlt; try done.
  1,3: intros [= <- <- <-] Hw; exists t; by eauto.
  intros Hs Hw.
  assert (woven (match current with [] => pages | _ => pages ++ [current] end)
    (match current with [] => t | _ => (t ++ current) ++ nl2 end)) as Hw'.
  { destruct current; eauto with py. }
  apply (woven_page _ _ (slice_to block page_size)) in Hw'.
  destruct current as [|c current]; (eapply IH in Hs; [|exact Hw']);
    destruct Hs as (t' & Hwt & Heq & Hlen & Hcur); exists t';
    (split; [done|]); (split; [|split; [done|naive_solver]]); rewrite <-Heq; simpl;
    rewrite <-!(assoc_L (++)), slice_split; done.
Qed.

Lemma candidate_app current block rest :
  candidate current (block ++ rest) = candidate current block ++ rest.
Proof. destruct current; simpl; by rewrite <-?(assoc_L (++)). Qed.

(** One block: the text consumed so far grows by the block (and, unless it is
    the first, by the boundary before it). *)
Lemma add_block_woven fuel page_size pages current block pages' current' t :
  add_block fuel page_size pages current block = Some (pages', current') →
  woven pages t →
  ∃ t', woven pages' t' ∧ t ++ candidate current block = t' ++ current'.
Proof.
  unfold add_block. intros Ha Hw.
  destruct (hard_split _ _ _ _ _) as [[[p c] b]|] eqn:E; [|done]. simpl in Ha.
  destruct (hard_split_woven _ _ _ _ _ _ _ _ _ E Hw) as (t' & Hw' & -> & Hlen & _).
  case (Z.ltb_spec page_size (len (candidate c b))); intros Hlt.
  - rewrite (proj2 (Z.ltb_lt _ _) Hlt) in Ha. simplify_eq/=.
    destruct c as [|x c]; [simpl in Hlt; lia|].
    exists ((t' ++ x :: c) ++ nl2). split; [by auto with py|].
    simpl. by rewrite <-!(assoc_L (++)).
  - rewrite (proj2 (Z.ltb_ge _ _) Hlt) in Ha. simplify_eq/=. by exists t'.
Qed.

Lemma add_blocks_woven fuel page_size pages current blocks pages' current' t :
  add_blocks fuel page_size pages current blocks = Some (pages', current') →
  woven pages t → blocks ≠ [] →
  ∃ t', woven pages' t' ∧ t ++ candidate current (join nl2 blocks) = t' ++ current'.
Proof.
  revert pages current t. induction blocks as [|b blocks IH]; intros pages current t; [done|].
  cbn [add_blocks]. intros Ha Hw _. destruct (add_block _ _ _ _ _) as [[p c]|] eqn:E; [|done]. simpl in Ha.
  destruct (add_block_woven _ _ _ _ _ _ _ _ E Hw) as (t1 & Hw1 & Heq1).
  destruct blocks as [|b' blocks].
  { simplify_eq/=. by exists t1. }
  rewrite join_cons by done. destruct c as [|x c].
  - destruct (IH p [] (t1 ++ nl2) Ha) as (t2 & Hw2 & Heq2); [by auto with py|done|].
    exists t2. split; [done|]. rewrite <-Heq2. rewrite app_nil_r in Heq1.
    by rewrite candidate_app, (assoc_L (++) t), Heq1, <-(assoc_L (++)).
  - destruct (IH p (x :: c) t1 Ha Hw1) as (t2 & Hw2 & Heq2); [done|].
    exists t2. split; [done|]. rewrite <-Heq2. unfold candidate at 2.
    by rewrite candidate_app, (assoc_L (++) t), Heq1, <-(assoc_L (++)).
Qed.

Lemma flush_woven pages current t : woven pages t → woven (flush pages current) (t ++ current).
Proof.
  intros Hw. unfold flush. destruct current as [|c current]; [|by auto with py].
  destruct pages as [|p pages]; [by apply (woven_page [])|by rewrite app_nil_r].
Qed.

(** ** Page sizes *)
Definition page_ok (page_size : Z) (p : pystr) : Prop := 1 <= len p <= page_size.

Lemma len_pos (p : pystr) : p ≠ [] → 1 <= len p.
Proof. intros Hp. pose proof (len_nonneg p). destruct (len_zero_iff p). assert (len p ≠ 0) by naive_solver. lia. Qed.

Lemma hard_split_bounds fuel page_size pages current block pages' current' block' :
  1 <= page_size → Forall (page_ok page_size) pages → len current <= page_size →
  hard_split fuel page_size pages current block = Some (pages', current', block') →
  Forall (page_ok page_size) pages' ∧ len current' <= page_size ∧ len block' <= page_size.
Proof.
  intros Hps. revert pages current block. induction fuel as [|fuel IH];
    intros pages current block Hp Hc; simpl;
    case (Z.ltb_spec page_size (len block)); intros Hlt Hs; simplify_eq/=; try done.
  assert (page_ok page_size (slice_to block page_size)) as Hpage.
  { unfold page_ok. rewrite len_slice_to; lia. }
  destruct current as [|c current]; eapply IH in Hs; try done;
    rewrite ?Forall_snoc_iff; try done; try (rewrite len_nil; lia).
  split; [split; [done|]|done]. split; [|done]. by apply (len_pos (c :: current)).
Qed.

Lemma add_block_bounds fuel page_size pages current block pages' current' :
  1 <= page_size → Forall (page_ok page_size) pages → len current <= page_size →
  add_block fuel page_size pages current block = Some (pages', current') →
  Forall (page_ok page_size) pages' ∧ len current' <= page_size.
Proof.
  intros Hps Hp Hc. unfold add_block.
  destruct (hard_split _ _ _ _ _) as [[[p c] b]|] eqn:E; [|done]. simpl.
  destruct (hard_split_bounds _ _ _ _ _ _ _ _ Hps Hp Hc E) as (Hp' & Hc' & Hb').
  case (Z.ltb_spec page_size (len (candidate c b))); intros Hlt ?; simplify_eq/=; [|done].
  rewrite Forall_snoc_iff. repeat split; try done. apply len_pos.
  intros ->. simpl in Hlt. lia.
Qed.

Lemma add_blocks_bounds fuel page_size pages current blocks pages' current' :
  1 <= page_size → Forall (page_ok page_size) pages → len current <= page_size →
  add_blocks fuel page_size pages current blocks = Some (pages', current') →
  Forall (page_ok page_size) pages' ∧ len current' <= page_size.
Proof.
  intros Hps. revert pages current. induction blocks as [|b blocks IH]; intros pages current Hp Hc Ha;
    simplify_eq/=; [done|].
  destruct (add_block _ _ _ _ _) as [[p c]|] eqn:E; [|done]. simpl in Ha.
  destruct (add_block_bounds _ _ _ _ _ _ _ Hps Hp Hc E). by eapply IH.
Qed.

(** ** Paragraphs are kept whole *)
Lemma hard_split_fits fuel page_size pages current block :
  len block <= page_size →
  hard_split fuel page_size pages current block = Some (pages, current, block).
Proof. intros Hb. destruct fuel; simpl; by rewrite (proj2 (Z.ltb_ge _ _) Hb). Qed.

Lemma join_empty_fields g : join nl2 g = [] → filter nonempty g = [].
Proof.
  destruct g as [|b [|b' g]]; [done|..].
  - simpl. intros ->. rewrite filter_cons_False; [done|by intros []].
  - rewrite join_cons by done. intros [? [? ?]%app_nil]%app_nil. done.
Qed.

Lemma greedy_snoc page_size groups g b :
  greedy page_size (groups ++ [g]) → page_size < len (join nl2 g) + 2 + len b →
  greedy page_size ((groups ++ [g]) ++ [[b]]).
Proof.
  intros Hg Hlt i g1 g2 H1 H2.
  destruct (decide (S i < length (groups ++ [g]))%nat) as [Hi|Hi].
  - rewrite lookup_app_l in H1, H2 by lia. by eapply Hg.
  - apply lookup_lt_Some in H2 as Hi'. rewrite !length_app in *. simpl in *.
    assert (i = length groups) as -> by lia.
    rewrite lookup_app_r in H2 by (rewrite length_app; simpl; lia).
    rewrite lookup_app_l, list_lookup_middle in H1 by (try rewrite length_app; simpl; lia).
    rewrite length_app in H2. simpl in H2.
    replace (S (length groups) - (length groups + 1))%nat with 0%nat in H2 by lia.
    simplify_eq/=. by exists b.
Qed.

(** The last group may be replaced by one whose first paragraph is as long. *)
Lemma greedy_last page_size groups g g' :
  (∀ b, head g = Some b → ∃ b', head g' = Some b' ∧ len b <= len b') →
  greedy page_size (groups ++ [g]) → greedy page_size (groups ++ [g']).
Proof.
  intros Hhead Hg i g1 g2 H1 H2.
  destruct (decide (S i < length groups)%nat) as [Hi|Hi].
  - apply (Hg i); rewrite lookup_app_l in * by lia; done.
  - apply lookup_lt_Some in H2 as Hi'. rewrite length_app in Hi'. simpl in Hi'.
    rewrite lookup_app_l in H1 by lia. rewrite lookup_app_r in H2 by lia.
    replace (S i - length groups)%nat with 0%nat in H2 by lia. simplify_eq/=.
    destruct (Hg i g1 g) as (b & Hb & Hlt).
    + by rewrite lookup_app_l by lia.
    + rewrite lookup_app_r by lia. by replace (S i - length groups)%nat with 0%nat by lia.
    + destruct (Hhead b Hb) as (b' & ? & ?). exists b'. split; [done|lia].
Qed.

(** The state of the loop when every block fits on a page: [groups] are the
    paragraphs of the finished pages and [g] those of the current one. *)
Definition grouped (page_size : Z) (pages : list pystr) (current : pystr)
    (done_blocks : list pystr) (groups : list (list pystr)) (g : list pystr) : Prop :=
  pages = join nl2 <$> groups ∧ current = join nl2 g ∧ g ≠ [] ∧
  filter nonempty (concat groups ++ g) = filter nonempty done_blocks ∧
  greedy page_size (groups ++ [g]).

Lemma add_block_grouped fuel page_size pages current done_blocks groups g block :
  grouped page_size pages current done_blocks groups g → len block <= page_size →
  ∃ pages' current' groups' g',
    add_block fuel page_size pages current block = Some (pages', current') ∧
    grouped page_size pages' current' (done_blocks ++ [block]) groups' g'.
Proof.
  intros (-> & -> & Hne & Hfil & Hgr) Hb. unfold add_block. rewrite hard_split_fits by done. simpl.
  case (Z.ltb_spec page_size (len (candidate (join nl2 g) block))); intros Hlt.
  - exists ((join nl2 <$> groups) ++ [join nl2 g]), block, (groups ++ [g]), [block].
    split; [done|]. repeat split; [by rewrite fmap_app|done|..].
    + by rewrite concat_snoc, !filter_app, <-Hfil, filter_app.
    + apply greedy_snoc; [done|].
      destruct (join nl2 g); simpl in Hlt; [lia|].
      rewrite len_cons, len_app in *. simpl in *. rewrite len_cons in *.
      rewrite !len_cons, ?len_nil in *. lia.
  - destruct (join nl2 g) as [|c j] eqn:Hj; simpl.
    + apply join_empty_fields in Hj as Hjf.
      exists (join nl2 <$> groups), block, groups, [block]. split; [done|].
      repeat split; [done|..].
      * by rewrite !filter_app, <-Hfil, filter_app, Hjf, app_nil_r.
      * eapply greedy_last; [|done]. intros b0 Hb0. exists block. split; [done|].
        assert (b0 = []) as ->; [|apply len_nonneg].
        destruct g as [|b1 [|b2 g]]; simplify_eq/=; [done|]. by destruct b0.
    + exists (join nl2 <$> groups), (candidate (join nl2 g) block), groups, (g ++ [block]).
      rewrite Hj. split; [done|]. repeat split; [|by destruct g|..].
      * by rewrite join_snoc, Hj by done.
      * by rewrite (assoc_L (++)), !filter_app, <-Hfil, filter_app.
      * eapply greedy_last; [|done]. intros b0 Hb0. exists b0. destruct g; [done|].
        by simplify_eq/=.
Qed.

Lemma add_blocks_grouped fuel page_size pages current done_blocks groups g blocks :
  grouped page_size pages current done_blocks groups g →
  Forall (λ b, len b <= page_size) blocks →
  ∃ pages' current' groups' g',
    add_blocks fuel page_size pages current blocks = Some (pages', current') ∧
    grouped page_size pages' current' (done_blocks ++ blocks) groups' g'.
Proof.
  intros Hg Hb. revert pages current done_blocks groups g Hg.
  induction Hb as [|b blocks Hlen Hb IH]; intros pages current done_blocks groups g Hg.
  - exists pages, current, groups, g. by rewrite app_nil_r.
  - destruct (add_block_grouped fuel _ _ _ _ _ _ b Hg Hlen) as (p1 & c1 & gs1 & g1 & Ha & Hg1).
    destruct (IH _ _ _ _ _ Hg1) as (p2 & c2 & gs2 & g2 & Ha2 & Hg2).
    exists p2, c2, gs2, g2. simpl. rewrite Ha. simpl. split; [done|].
    by rewrite <-(assoc_L (++)) in Hg2.
Qed.

Lemma greedy_prefix page_size groups gs : greedy page_size (groups ++ gs) → greedy page_size groups.
Proof. intros Hg i g1 g2 H1 H2. apply (Hg i); by apply lookup_app_l_Some. Qed.

Lemma follow_next_seq fuel doc_id p total_pages total_length page_size :
  p <= total_pages → (Z.to_nat (total_pages - p) <= fuel)%nat →
  follow_next fuel doc_id p total_pages total_length page_size = seqZ p (total_pages - p + 1).
Proof.
  revert p. induction fuel as [|fuel IH]; intros p Hp Hf; simpl.
  - assert (p = total_pages) as -> by lia.
    by rewrite Z.sub_diag.
  - case (Z.ltb_spec p total_pages); intros Hlt.
    + rewrite IH by lia. rewrite (seqZ_cons p) by lia. do 2 f_equal; lia.
    + assert (p = total_pages) as -> by lia. by rewrite Z.sub_diag.
Qed.

(** ** The theorems *)

Lemma paginate_total (content : pystr) (page_size : Z) :
  1 <= page_size → is_Some (paginate (length content) content page_size).
Proof.
  intros Hps. destruct content as [|c content]; [by eexists|]. cbn [paginate].
  destruct (add_blocks_total (length (c :: content)) page_size (split nl2 (c :: content)) Hps
    (split_go_lengths _ _ _) [] []) as [[pages current] ->]. by eexists.
Qed.

(** C30: [paginate] returns: for every page size of at least one character there
    is a result, and every fuel of at least the length of the document gives
    it, so the [while] loop inside the [for] loop always ends. *)
Theorem paginate_terminates (content : pystr) (page_size : Z) :
  1 <= page_size →
  ∃ pages, ∀ fuel, (length content <= fuel)%nat → paginate fuel content page_size = Some pages.
Proof.
  intros Hps. destruct (paginate_total content page_size Hps) as [pages Hp].
  exists pages. intros fuel Hf. by eapply paginate_mono.
Qed.

Lemma paginate_terminates_witness :
  ∃ pages, ∀ fuel, (7 <= fuel)%nat → paginate fuel (u "abcdefg") 3 = Some pages.
Proof. apply (paginate_terminates (u "abcdefg") 3). lia. Defined.

Lemma paginate_woven (fuel : nat) (content : pystr) (page_size : Z) (pages : list pystr) :
  paginate fuel content page_size = Some pages → woven pages content.
Proof.
  destruct content as [|c content].
  { simpl. intros [= <-]. by apply (woven_page [] []), woven_nil. }
  cbn [paginate]. set (content' := c :: content).
  destruct (add_blocks _ _ _ _ _) as [[p cur]|] eqn:E; [|done]. simpl. intros [= <-].
  destruct (add_blocks_woven _ _ _ _ _ _ _ [] E woven_nil (split_nonempty _ _))
    as (t & Hw & Heq). simpl in Heq. rewrite join_split in Heq by done.
  rewrite Heq. by apply flush_woven.
Qed.

Lemma paginate_nonempty fuel content page_size pages :
  paginate fuel content page_size = Some pages → pages ≠ [].
Proof.
  destruct content as [|c content]; [by intros [= <-]|]. cbn [paginate].
  destruct (add_blocks _ _ _ _ _) as [[ps cur]|]; [|done]. simpl. intros [= <-].
  unfold flush. destruct cur, ps; try done; by destruct ps.
Qed.

(** The characters of the pages are characters of the content. *)
Lemma woven_Forall (P : Z → Prop) pages t : woven pages t → Forall P t → Forall (Forall P) pages.
Proof.
  induction 1 as [|pages t Hw IH|pages t p Hw IH]; intros Ht; [constructor|..];
    apply Forall_app in Ht as [Ht Hp]; [by apply IH|]. apply Forall_app. split; [by apply IH|].
  by constructor.
Qed.

(** A page size below one makes the loop run forever: with a negative size
    on every non-empty document, with size zero on every document that has a
    non-empty paragraph ([block[:0]] is empty and [block[0:]] is the block). *)
Theorem paginate_diverges (content : pystr) (page_size : Z) :
  content ≠ [] →
  page_size < 0 ∨ page_size = 0 ∧ Exists nonempty (split nl2 content) →
  ∀ fuel, paginate fuel content page_size = None.
Proof.
  intros Hc Hps fuel. destruct content as [|c content]; [done|]. cbn [paginate].
  rewrite add_blocks_diverges; [done|].
  destruct Hps as [?|?]; [left|by right]. split; [done|apply split_nonempty].
Qed.

Lemma paginate_diverges_witness : paginate 1000 (u "a") 0 = None.
Proof.
  apply (paginate_diverges (u "a") 0); [done|right; split; [done|]].
  constructor. done.
Defined.

(** C27: No text is lost, duplicated or reordered: the document is exactly the
    pages in order, with nothing but paragraph boundaries before, between and
    after them. *)
Theorem paginate_content (fuel : nat) (content : pystr) (page_size : Z) (pages : list pystr) :
  paginate fuel content page_size = Some pages → woven pages content.
Proof. apply paginate_woven. Qed.

Lemma paginate_content_witness :
  woven [u "ab"; u "cd"; u "ef"; u "g"] (u "ab" ++ nl2 ++ u "cdef" ++ nl2 ++ u "g").
Proof. apply (paginate_content 20 _ 2). vm_compute. reflexivity. Defined.

(** C28: A page holds at most [page_size] characters; there is at least one page,
    and a page is empty only when it is the whole document. *)
Theorem paginate_page_bounds (fuel : nat) (content : pystr) (page_size : Z) (pages : list pystr) :
  1 <= page_size → paginate fuel content page_size = Some pages →
  pages ≠ [] ∧ Forall (λ p, len p <= page_size) pages ∧
  (pages = [[]] ∨ Forall nonempty pages).
Proof.
  intros Hps. destruct content as [|c content].
  { simpl. intros [= <-]. split; [done|]. split; [|by left].
    constructor; [rewrite len_nil; lia|constructor]. }
  cbn [paginate]. destruct (add_blocks _ _ _ _ _) as [[p cur]|] eqn:E; [|done].
  simpl. intros [= <-].
  destruct (add_blocks_bounds _ _ _ _ _ _ _ Hps (Forall_nil_2 _) ltac:(rewrite len_nil; lia) E)
    as [Hp Hc].
  assert (Forall (λ p, len p <= page_size) p ∧ Forall nonempty p) as [Hle Hne].
  { split; (eapply Forall_impl; [exact Hp|]); intros q [? ?]; [done|intros ->]. by vm_compute in H. }
  unfold flush. destruct cur as [|x cur]; [destruct p as [|q p]|].
  - split; [done|]. split; [|by left]. constructor; [done|constructor].
  - split; [done|]. split; [done|by right].
  - split; [by destruct p|]. rewrite !Forall_snoc_iff. split; [done|by right].
Qed.

Lemma paginate_page_bounds_witness :
  Forall (λ p, len p <= 2) [u "ab"; u "cd"; u "e"].
Proof. apply (paginate_page_bounds 9 (u "abcde") 2); [lia|vm_compute; reflexivity]. Defined.

(** C29: Paragraphs are not split: when every paragraph fits on a page, each page
    is a run of whole consecutive paragraphs joined by the paragraph boundary,
    together they are all the non-empty paragraphs in order, and a page is only
    closed because the next paragraph would not have fitted on it. *)
Theorem paginate_paragraphs (fuel : nat) (content : pystr) (page_size : Z) :
  content ≠ [] → Forall (λ b, len b <= page_size) (split nl2 content) →
  ∃ groups,
    paginate fuel content page_size = Some (join nl2 <$> groups) ∧
    filter nonempty (concat groups) = filter nonempty (split nl2 content) ∧
    greedy page_size groups.
Proof.
  intros Hc Hb. destruct content as [|c content]; [done|]. cbn [paginate].
  assert (grouped page_size [] [] [] [] [[]]) as Hinit.
  { by repeat split. }
  destruct (add_blocks_grouped fuel _ _ _ _ _ _ _ Hinit Hb)
    as (p & cur & groups & g & -> & (-> & -> & Hne & Hfil & Hgr)).
  cbn -[flush]. unfold flush. destruct (join nl2 g) as [|x j] eqn:Hj; [destruct groups as [|g0 groups]|].
  - exists [g]. simpl. rewrite Hj, app_nil_r in *. done.
  - exists (g0 :: groups). split; [done|]. split; [|by eapply greedy_prefix].
    by rewrite filter_app, (join_empty_fields _ Hj), app_nil_r in Hfil.
  - exists (groups ++ [g]). rewrite fmap_app, concat_snoc. simpl. rewrite Hj.
    split; [|done]. by destruct (join nl2 <$> groups).
Qed.

Lemma paginate_paragraphs_witness :
  ∃ groups, paginate 20 (u "ab" ++ nl2 ++ u "cd" ++ nl2 ++ u "e") 5 = Some (join nl2 <$> groups) ∧
    filter nonempty (concat groups) =
      filter nonempty (split nl2 (u "ab" ++ nl2 ++ u "cd" ++ nl2 ++ u "e")) ∧
    greedy 5 groups.
Proof.
  apply paginate_paragraphs; [done|]. repeat constructor; vm_compute; congruence.
Defined.

(** A client that starts at page 1 and follows [next_page] reads pages 1 to
    [total_pages], each once and in order, and then stops. *)
Theorem pagination_walk (doc_id : pystr) (total_pages total_length page_size : Z) (fuel : nat) :
  1 <= total_pages → (Z.to_nat total_pages <= fuel)%nat →
  follow_next fuel doc_id 1 total_pages total_length page_size = seqZ 1 total_pages ∧
  pg_next_page (build_pagination doc_id total_pages total_pages total_length page_size) = None ∧
  ∀ p q, pg_next_page (build_pagination doc_id p total_pages total_length page_size) = Some q →
    1 <= p → pg_prev_page (build_pagination doc_id q total_pages total_length page_size) = Some p.
Proof.
  intros Ht Hf. split; [|split].
  - rewrite follow_next_seq by lia. f_equal. lia.
  - simpl. by rewrite Z.ltb_irrefl.
  - simpl. intros p q. case (Z.ltb_spec p total_pages); intros Hlt [=] Hp; subst.
    rewrite (proj2 (Z.ltb_lt 1 (p + 1))) by lia. f_equal. lia.
Qed.

Lemma pagination_walk_witness : follow_next 5 (u "d") 1 3 9000 5000 = seqZ 1 3.
Proof. apply (pagination_walk (u "d") 3 9000 5000 5); lia. Defined.
