(* ===== verification/Effects.v ===== *)
(** * Effects: exceptions, resumable programs, faults

    A Python function that talks to the outside world is a [prog W A]: a tree of
    atomic actions on a world [W] that ends by returning, by raising, or never
    ([Spin]).  The same tree is run to completion by [run] (one process, no
    interference) and stepped one action at a time by [pstep] (any number of
    processes interleaving, or crashing, between actions).

    External services can fail at any call.  A [fault] says how a call fails:
    before it took effect, or after (the reply was lost). *)
From S2P Require Import Prelude PyStr.

(** ** Exceptions *)
Inductive exn :=
| ValueError (msg : pystr)
| RuntimeError (msg : pystr)
| IntegrityError (msg : pystr)          (** a UNIQUE or PRIMARY KEY violation *)
| ClientError (code msg : pystr)        (** botocore *)
| AMQPError (name msg : pystr)          (** pika.exceptions.AMQPError, subclasses *)
| OtherError (name msg : pystr).        (** any other Exception *)

(** [type(exc).__name__] *)
Definition exn_name (e : exn) : pystr :=
  match e with
  | ValueError _ => u "ValueError"
  | RuntimeError _ => u "RuntimeError"
  | IntegrityError _ => u "IntegrityError"
  | ClientError _ _ => u "ClientError"
  | AMQPError n _ => n
  | OtherError n _ => n
  end.

(** [str(exc)] *)
Definition exn_str (e : exn) : pystr :=
  match e with
  | ValueError m | RuntimeError m | IntegrityError m => m
  | ClientError _ m | AMQPError _ m | OtherError _ m => m
  end.

#[export] Instance exn_eq_dec : EqDecision exn.
Proof. solve_decision. Defined.

(** Pure code that may raise is a function into [exn + A]. *)
#[export] Instance sum_mret : MRet (sum exn) := λ A a, inr a.
#[export] Instance sum_mbind : MBind (sum exn) := λ A B f m,
  match m with inl e => inl e | inr a => f a end.

(** ** Programs *)
Inductive prog (W A : Type) : Type :=
| Ret (a : A)
| Raise (e : exn)
| Spin
| Act (R : Type) (f : W → R * W) (k : R → prog W A).
Arguments Ret {W A} a.
Arguments Raise {W A} e.
Arguments Spin {W A}.
Arguments Act {W A R} f k.

Fixpoint prog_bind {W A B} (f : A → prog W B) (p : prog W A) : prog W B :=
  match p with
  | Ret a => f a
  | Raise e => Raise e
  | Spin => Spin
  | Act g k => Act g (λ r, prog_bind f (k r))
  end.

#[export] Instance prog_mret W : MRet (prog W) := λ A a, Ret a.
#[export] Instance prog_mbind W : MBind (prog W) := λ A B f p, prog_bind f p.

(** [try: p] with the exception, if any, as a value. *)
Fixpoint attempt {W A} (p : prog W A) : prog W (exn + A) :=
  match p with
  | Ret a => Ret (inr a)
  | Raise e => Ret (inl e)
  | Spin => Spin
  | Act g k => Act g (λ r, attempt (k r))
  end.

Definition reraise {W A} (r : exn + A) : prog W A :=
  match r with inl e => Raise e | inr a => Ret a end.

(** Pure code that may raise, inside a program. *)
Abbreviation lift := reraise (only parsing).

(** [try: p finally: q] *)
Definition finally {W A} (p : prog W A) (q : prog W unit) : prog W A :=
  r ← attempt p; _ ← q; reraise r.

(** An atomic action that may raise. *)
Definition io {W R} (f : W → (exn + R) * W) : prog W R := Act f reraise.

(** An atomic action that cannot. *)
Definition act {W R} (f : W → R * W) : prog W R := Act f Ret.

Fixpoint for_each {W A} (body : A → prog W unit) (xs : list A) : prog W unit :=
  match xs with
  | [] => Ret tt
  | x :: xs => _ ← body x; for_each body xs
  end.

(** ** Running a program alone *)
Inductive outcome (A : Type) := Val (a : A) | Exc (e : exn) | Hang.
Arguments Val {A} a.
Arguments Exc {A} e.
Arguments Hang {A}.

Fixpoint run {W A} (p : prog W A) (w : W) : outcome A * W :=
  match p with
  | Ret a => (Val a, w)
  | Raise e => (Exc e, w)
  | Spin => (Hang, w)
  | Act f k => let '(r, w') := f w in run (k r) w'
  end.

(** ** One action of a program, for interleaving *)
Inductive pstep {W A} : prog W A → W → prog W A → W → Prop :=
| pstep_act R (f : W → R * W) k w : pstep (Act f k) w (k (f w).1) (f w).2.

(** The worlds a program passes through when it runs alone: a crash leaves one
    of them. *)
Fixpoint trace {W A} (p : prog W A) (w : W) : list W :=
  match p with
  | Ret _ | Raise _ | Spin => []
  | Act f k => (f w).2 :: trace (k (f w).1) (f w).2
  end.

(** Every action of [p], from whatever world it happens to run in, is related
    to the world before it by [G]. *)
Fixpoint guarantee {W A} (G : W → W → Prop) (p : prog W A) : Prop :=
  match p with
  | Ret _ | Raise _ | Spin => True
  | Act f k => (∀ w, G w (f w).2) ∧ ∀ r, guarantee G (k r)
  end.

(** ** Faults of external services *)
Inductive fault := NoFault | Before (e : exn) | After (e : exn).

(** A service consults its script of faults at every call; an exhausted script
    means the service works. *)
Definition pop_fault (script : list fault) : fault * list fault :=
  match script with
  | [] => (NoFault, [])
  | f :: rest => (f, rest)
  end.

(** [serve flt f x]: a call [f] on the state [x] of a service under the fault
    [flt].  A call that raises leaves the service as it was. *)
Definition serve {X R} (flt : fault) (f : X → exn + R * X) (x : X) : (exn + R) * X :=
  match flt, f x with
  | Before e, _ => (inl e, x)
  | NoFault, inr (r, x') => (inr r, x')
  | After e, inr (_, x') => (inl e, x')
  | _, inl e => (inl e, x)
  end.

(** ** Laws *)
Section laws.
Context {W : Type}.

Lemma bind_ret {A B} (a : A) (f : A → prog W B) : (mret a ≫= f) = f a.
Proof. done. Qed.

Lemma run_bind {A B} (p : prog W A) (f : A → prog W B) w :
  run (p ≫= f) w =
  match run p w with
  | (Val a, w') => run (f a) w'
  | (Exc e, w') => (Exc e, w')
  | (Hang, w') => (Hang, w')
  end.
Proof.
  revert w. induction p as [a|e| |R g k IH]; intros w; [done..|].
  simpl. destruct (g w) as [r w']. apply IH.
Qed.

Lemma run_attempt {A} (p : prog W A) w :
  run (attempt p) w =
  match run p w with
  | (Val a, w') => (Val (inr a), w')
  | (Exc e, w') => (Val (inl e), w')
  | (Hang, w') => (Hang, w')
  end.
Proof.
  revert w. induction p as [a|e| |R g k IH]; intros w; [done..|].
  simpl. destruct (g w) as [r w']. apply IH.
Qed.

Lemma run_io {R} (f : W → (exn + R) * W) w :
  run (io f) w = match f w with (inl e, w') => (Exc e, w') | (inr r, w') => (Val r, w') end.
Proof. simpl. by destruct (f w) as [[e|r] w']. Qed.

Lemma run_act {R} (f : W → R * W) w : run (act f) w = (Val (f w).1, (f w).2).
Proof. simpl. by destruct (f w). Qed.

Lemma guarantee_bind {A B} G (p : prog W A) (f : A → prog W B) :
  guarantee G p → (∀ a, guarantee G (f a)) → guarantee G (p ≫= f).
Proof. intros Hp Hf. induction p; simpl in *; naive_solver. Qed.

Lemma guarantee_attempt {A} G (p : prog W A) : guarantee G p → guarantee G (attempt p).
Proof. intros Hp. induction p; simpl in *; naive_solver. Qed.

Lemma guarantee_reraise {A} G (r : exn + A) : guarantee G (@reraise W A r).
Proof. by destruct r. Qed.

Lemma guarantee_lift {A B} G (r : exn + A) (f : A → prog W B) :
  (∀ a, r = inr a → guarantee G (f a)) → guarantee G (reraise r ≫= f).
Proof. destruct r as [e|a]; intros Hf; [done|by apply Hf]. Qed.

Lemma guarantee_finally {A} G (p : prog W A) q :
  guarantee G p → guarantee G q → guarantee G (finally p q).
Proof.
  intros Hp Hq. apply guarantee_bind; [by apply guarantee_attempt|]. intros r.
  apply guarantee_bind; [done|]. intros _. apply guarantee_reraise.
Qed.

Lemma guarantee_io {R} (G : W → W → Prop) (f : W → (exn + R) * W) :
  (∀ w, G w (f w).2) → guarantee G (io f).
Proof. intros Hf. split; [done|]. intros r. apply guarantee_reraise. Qed.

Lemma guarantee_act {R} (G : W → W → Prop) (f : W → R * W) :
  (∀ w, G w (f w).2) → guarantee G (act f).
Proof. by split. Qed.

Lemma guarantee_for_each {A} G (body : A → prog W unit) xs :
  (∀ x, guarantee G (body x)) → guarantee G (for_each body xs).
Proof. intros Hb. induction xs as [|x xs IH]; [done|]. by apply guarantee_bind. Qed.

Lemma guarantee_mono {A} (G G' : W → W → Prop) (p : prog W A) :
  (∀ w w', G w w' → G' w w') → guarantee G p → guarantee G' p.
Proof. intros HG Hp. induction p; simpl in *; naive_solver. Qed.

Lemma guarantee_pstep {A} G (p : prog W A) w p' w' :
  guarantee G p → pstep p w p' w' → G w w' ∧ guarantee G p'.
Proof. intros Hp Hs. destruct Hs. simpl in Hp. naive_solver. Qed.

(** A run is a sequence of actions: a relation that every action guarantees
    holds along it. *)
Lemma run_guarantee {A} (G : W → W → Prop) (p : prog W A) w :
  guarantee G p → rtc G w (run p w).2.
Proof.
  revert w. induction p as [a|e| |R g k IH]; intros w Hp; simpl in *; try reflexivity.
  destruct Hp as [Hg Hk]. specialize (Hg w). destruct (g w) as [r w'] eqn:E. simpl in *.
  eapply rtc_l; [exact Hg|]. by apply IH.
Qed.

Lemma trace_bind {A B} (p : prog W A) (f : A → prog W B) w :
  trace (p ≫= f) w =
  trace p w ++ match run p w with (Val a, w') => trace (f a) w' | _ => [] end.
Proof.
  revert w. induction p as [a|e| |R g k IH]; intros w; [done..|].
  simpl. destruct (g w) as [r w'] eqn:E. simpl. f_equal. apply IH.
Qed.

Lemma run_reraise {A} (r : exn + A) (w : W) :
  run (reraise r) w = match r with inl e => (Exc e, w) | inr a => (Val a, w) end.
Proof. by destruct r. Qed.

(** What no action changes, a run does not change. *)
Lemma run_frame {A X} (proj : W → X) (p : prog W A) w :
  guarantee (λ w w', proj w' = proj w) p → proj (run p w).2 = proj w.
Proof.
  intros Hp. apply (run_guarantee _ _ w) in Hp.
  induction Hp as [|w1 w2 w3 H12 _ IH]; congruence.
Qed.

Lemma trace_attempt {A} (p : prog W A) w : trace (attempt p) w = trace p w.
Proof. revert w. induction p as [a|e| |R g k IH]; intros w; [done..|]. simpl. f_equal. apply IH. Qed.

(** A property that every action preserves holds in every world on the way. *)
Lemma trace_preserves {A} (P : W → Prop) (p : prog W A) w :
  guarantee (λ w w', P w → P w') p → P w → Forall P (trace p w) ∧ P (run p w).2.
Proof.
  revert w. induction p as [a|e| |R g k IH]; intros w Hp Hw; simpl in *; [by split..|].
  destruct Hp as [Hg Hk]. specialize (Hg w Hw).
  destruct (g w) as [r w'] eqn:E. simpl in *.
  destruct (IH r w' (Hk r) Hg) as [IH1 IH2]. split; [by constructor|done].
Qed.

Lemma trace_frame {A X} (proj : W → X) (p : prog W A) w :
  guarantee (λ w w', proj w' = proj w) p → Forall (λ w', proj w' = proj w) (trace p w).
Proof.
  revert w. induction p as [a|e| |R g k IH]; intros w Hp; simpl in *; try constructor.
  - apply Hp.
  - destruct Hp as [Hg Hk]. rewrite <-(Hg w). by apply IH.
Qed.
End laws.

#[export] Hint Resolve guarantee_bind guarantee_attempt guarantee_reraise
  guarantee_finally guarantee_for_each : py.

(** Unfold a run through [bind]s and [attempt]s. *)
Ltac run_simpl := repeat (rewrite run_bind || rewrite run_attempt || rewrite run_io || rewrite run_act).
