(* ===== verification/Utf8.v ===== *)
(** * The UTF-8 codec ([str.encode("utf-8")], [bytes.decode("utf-8")])

    storage.py stores markdown as UTF-8.  Python's codec is strict: encoding
    raises on a lone surrogate, decoding raises on anything that is not the
    shortest encoding of a Unicode scalar value. *)
From S2P Require Import Prelude PyStr Effects.

Definition is_surrogate (c : Z) : bool := (0xD800 <=? c) && (c <=? 0xDFFF).

(** Unicode scalar values: the code points UTF-8 can encode. *)
Definition is_scalar (c : Z) : bool := (0 <=? c) && (c <=? 0x10FFFF) && negb (is_surrogate c).

Definition unicode_encode_error : exn :=
  OtherError (u "UnicodeEncodeError") (u "'utf-8' codec can't encode character: surrogates not allowed").
Definition unicode_decode_error : exn :=
  OtherError (u "UnicodeDecodeError") (u "'utf-8' codec can't decode byte").

Definition encode_char (c : Z) : bytes :=
  if c <? 0x80 then [c]
  else if c <? 0x800 then [0xC0 + c `div` 64; 0x80 + c `mod` 64]
  else if c <? 0x10000 then
    [0xE0 + c `div` 4096; 0x80 + (c `div` 64) `mod` 64; 0x80 + c `mod` 64]
  else
    [0xF0 + c `div` 262144; 0x80 + (c `div` 4096) `mod` 64;
     0x80 + (c `div` 64) `mod` 64; 0x80 + c `mod` 64].

(** [s.encode("utf-8")] *)
Fixpoint encode (s : pystr) : exn + bytes :=
  match s with
  | [] => inr []
  | c :: s => if is_scalar c then bs ← encode s; mret (encode_char c ++ bs)
              else inl unicode_encode_error
  end.

Definition is_cont (b : Z) : bool := (0x80 <=? b) && (b <=? 0xBF).

(** [bs.decode("utf-8")] *)
Fixpoint decode (bs : bytes) : exn + pystr :=
  match bs with
  | [] => inr []
  | b0 :: r0 =>
      if (0 <=? b0) && (b0 <? 0x80) then s ← decode r0; mret (b0 :: s)
      else if (0xC2 <=? b0) && (b0 <=? 0xDF) then
        match r0 with
        | b1 :: r1 =>
            if is_cont b1 then s ← decode r1; mret ((b0 - 0xC0) * 64 + (b1 - 0x80) :: s)
            else inl unicode_decode_error
        | _ => inl unicode_decode_error
        end
      else if (0xE0 <=? b0) && (b0 <=? 0xEF) then
        match r0 with
        | b1 :: b2 :: r2 =>
            let c := (b0 - 0xE0) * 4096 + (b1 - 0x80) * 64 + (b2 - 0x80) in
            if is_cont b1 && is_cont b2 && (0x800 <=? c) && negb (is_surrogate c)
            then s ← decode r2; mret (c :: s)
            else inl unicode_decode_error
        | _ => inl unicode_decode_error
        end
      else if (0xF0 <=? b0) && (b0 <=? 0xF4) then
        match r0 with
        | b1 :: b2 :: b3 :: r3 =>
            let c := (b0 - 0xF0) * 262144 + (b1 - 0x80) * 4096 + (b2 - 0x80) * 64 + (b3 - 0x80) in
            if is_cont b1 && is_cont b2 && is_cont b3 && (0x10000 <=? c) && (c <=? 0x10FFFF)
            then s ← decode r3; mret (c :: s)
            else inl unicode_decode_error
        | _ => inl unicode_decode_error
        end
      else inl unicode_decode_error
  end.

(** ** Lemmas *)
Lemma is_scalar_spec c :
  is_scalar c = true ↔ 0 <= c <= 0x10FFFF ∧ ¬ (0xD800 <= c <= 0xDFFF).
Proof.
  unfold is_scalar, is_surrogate.
  rewrite !andb_true_iff, negb_true_iff, andb_false_iff, !Z.leb_le, !Z.leb_gt. lia.
Qed.

Lemma is_cont_add x : 0 <= x < 64 → is_cont (0x80 + x) = true.
Proof. intros. unfold is_cont. rewrite andb_true_iff, !Z.leb_le. lia. Qed.

(** Decide every comparison in the goal by arithmetic. *)
Ltac decide_cmp :=
  repeat match goal with
  | |- context [?a <=? ?b] =>
      first [rewrite (proj2 (Z.leb_le a b)) by lia | rewrite (proj2 (Z.leb_gt a b)) by lia]
  | |- context [?a <? ?b] =>
      first [rewrite (proj2 (Z.ltb_lt a b)) by lia | rewrite (proj2 (Z.ltb_ge a b)) by lia]
  end.

Lemma decode_char c bs :
  is_scalar c = true → decode (encode_char c ++ bs) = (s ← decode bs; mret (c :: s)).
Proof.
  intros [Hc Hs]%is_scalar_spec. unfold encode_char.
  pose proof (Z.mod_pos_bound c 64 ltac:(lia)) as Hm0.
  pose proof (Z.mod_pos_bound (c `div` 64) 64 ltac:(lia)) as Hm1.
  pose proof (Z.mod_pos_bound (c `div` 4096) 64 ltac:(lia)) as Hm2.
  pose proof (Z.div_mod c 64 ltac:(lia)) as Hd0.
  pose proof (Z.div_mod (c `div` 64) 64 ltac:(lia)) as Hd1.
  pose proof (Z.div_mod (c `div` 4096) 64 ltac:(lia)) as Hd2.
  rewrite Z.div_div in Hd1 by lia. rewrite Z.div_div in Hd2 by lia.
  change (64 * 64) with 4096 in Hd1. change (4096 * 64) with 262144 in Hd2.
  case (Z.ltb_spec c 0x80); intros H1; [|case (Z.ltb_spec c 0x800); intros H2;
    [|case (Z.ltb_spec c 0x10000); intros H3]]; cbn [app decode].
  - decide_cmp. done.
  - decide_cmp. cbn [andb]. rewrite is_cont_add by lia.
    replace ((_ - _) * 64 + _) with c by lia. done.
  - decide_cmp. cbn [andb]. rewrite !is_cont_add by lia.
    replace ((_ - _) * 4096 + _ + _) with c by lia.
    unfold is_surrogate. cbn [andb]. decide_cmp. cbn [andb].
    destruct (Z.leb_spec 0xD800 c), (Z.leb_spec c 0xDFFF); try done. lia.
  - decide_cmp. cbn [andb]. rewrite !is_cont_add by lia.
    replace ((_ - _) * 262144 + _ + _ + _) with c by lia. decide_cmp. done.
Qed.

Lemma utf8_inverse (s : pystr) (bs : bytes) : encode s = inr bs → decode bs = inr s.
Proof.
  revert bs. induction s as [|c s IH]; intros bs; simpl; [by intros [= <-]|].
  destruct (is_scalar c) eqn:Hc; [|done]. destruct (encode s) as [|bs']; [done|].
  simpl. intros [= <-]. rewrite decode_char by done. by rewrite (IH bs').
Qed.

(** Decoding undoes encoding: markdown that could be stored is read back
    unchanged. *)
Theorem utf8_roundtrip (s : pystr) (bs : bytes) : encode s = inr bs → decode bs = inr s.
Proof. apply utf8_inverse. Qed.

Lemma utf8_roundtrip_witness : decode [104; 0xC3; 0xA9; 0xE2; 0x82; 0xAC; 0xF0; 0x9F; 0x98; 0x80]
  = inr [104; 0xE9; 0x20AC; 0x1F600].
Proof. apply utf8_roundtrip. vm_compute. reflexivity. Defined.

(** Encoding succeeds exactly on text made of scalar values. *)
Lemma encode_total s : is_Some (match encode s with inr b => Some b | inl _ => None end) ↔
  Forall (λ c, is_scalar c = true) s.
Proof.
  induction s as [|c s IH]; simpl; [split; [constructor|by eexists]|].
  rewrite Forall_cons. destruct (is_scalar c); simpl.
  - destruct (encode s); simpl in *; rewrite <-IH; split; intros; destruct_and?; try done; by eexists.
  - split; [by intros [? ?]|naive_solver].
Qed.

Lemma encode_ok s : Forall (λ c, is_scalar c = true) s → ∃ bs, encode s = inr bs.
Proof.
  intros [b Hb]%encode_total. destruct (encode s) as [|bs]; [done|]. by exists bs.
Qed.

Lemma encode_error s e : encode s = inl e → e = unicode_encode_error.
Proof.
  induction s as [|c s IH]; simpl; [done|]. destruct (is_scalar c); [|congruence].
  destruct (encode s); simpl; [|done]. intros [= <-]. by apply IH.
Qed.

Lemma u_scalar s : Forall (λ c, is_scalar c = true) (u s).
Proof.
  unfold u. apply Forall_fmap, Forall_forall. intros a _. simpl. apply is_scalar_spec.
  pose proof (Ascii.N_ascii_bounded a). lia.
Qed.

(** ASCII text is its own encoding. *)
Lemma encode_ascii s : Forall (λ c, 0 <= c < 128) s → encode s = inr s.
Proof.
  induction 1 as [|c s Hc Hs IH]; [done|]. simpl.
  assert (is_scalar c = true) as -> by (apply is_scalar_spec; lia).
  rewrite IH. simpl. unfold encode_char. by rewrite (proj2 (Z.ltb_lt _ _)) by lia.
Qed.

Lemma decode_ascii s : Forall (λ c, 0 <= c < 128) s → decode s = inr s.
Proof. intros Hs. by apply utf8_inverse, encode_ascii. Qed.
