(* ===== verification/Json.v ===== *)
(** * JSON (the parts of Python's [json] the sources use)

    [dumps] is applied to flat dictionaries of strings, integers and booleans,
    with the default separators and [ensure_ascii=True].  [loads] is applied to
    bytes from the network, so it is the whole grammar: nested values, escapes
    with surrogate pairs, numbers, [NaN] and the infinities.  Numbers with a
    fraction or an exponent are kept as their literal. *)
From S2P Require Import Prelude PyStr Effects Utf8.

#[warnings="-register-all"]
Inductive json :=
| JNull
| JBool (b : bool)
| JInt (n : Z)
| JFloat (lit : pystr)
| JStr (s : pystr)
| JArr (l : list json)
| JObj (l : list (pystr * json)).

(** ** [json.dumps] *)
Definition hex_digit (n : Z) : Z := if n <? 10 then 48 + n else 87 + n.

(** [f"\\u{n:04x}"] *)
Definition hex4 (n : Z) : pystr :=
  [92; 117; hex_digit (n `div` 4096); hex_digit ((n `div` 256) `mod` 16);
   hex_digit ((n `div` 16) `mod` 16); hex_digit (n `mod` 16)].

Definition escape_char (c : Z) : pystr :=
  if c =? 34 then [92; 34]
  else if c =? 92 then [92; 92]
  else if c =? 10 then u "\n"
  else if c =? 13 then u "\r"
  else if c =? 9 then u "\t"
  else if c =? 12 then u "\f"
  else if c =? 8 then u "\b"
  else if (32 <=? c) && (c <=? 126) then [c]
  else if c <? 0x10000 then hex4 c
  else hex4 (0xD800 + (c - 0x10000) `div` 1024) ++ hex4 (0xDC00 + (c - 0x10000) `mod` 1024).

Definition escape (s : pystr) : pystr := concat (escape_char <$> s).

Definition dumps_str (s : pystr) : pystr := 34 :: escape s ++ [34].

(** A value of a flat dictionary. *)
Inductive scalar := SBool (b : bool) | SInt (n : Z) | SStr (s : pystr).

Definition to_json (v : scalar) : json :=
  match v with SBool b => JBool b | SInt n => JInt n | SStr s => JStr s end.

Definition dumps_scalar (v : scalar) : pystr :=
  match v with
  | SBool b => if b then u "true" else u "false"
  | SInt n => str_of_Z n
  | SStr s => dumps_str s
  end.

Definition dumps_member (kv : pystr * scalar) : pystr :=
  dumps_str kv.1 ++ u ": " ++ dumps_scalar kv.2.

(** [json.dumps(d)] for a dictionary given by its items *)
Definition dumps (d : list (pystr * scalar)) : pystr :=
  u "{" ++ join (u ", ") (dumps_member <$> d) ++ u "}".

(** ** [json.loads] *)
Fixpoint skip_ws (s : pystr) : pystr :=
  match s with
  | c :: r => if (c =? 32) || (c =? 9) || (c =? 10) || (c =? 13) then skip_ws r else s
  | [] => []
  end.

Definition hex_value (c : Z) : option Z :=
  if (48 <=? c) && (c <=? 57) then Some (c - 48)
  else if (97 <=? c) && (c <=? 102) then Some (c - 87)
  else if (65 <=? c) && (c <=? 70) then Some (c - 55)
  else None.

Definition hex4_value (a b c d : Z) : option Z :=
  a ← hex_value a; b ← hex_value b; c ← hex_value c; d ← hex_value d;
  Some (4096 * a + 256 * b + 16 * c + d).

Definition unescape (c : Z) : option Z :=
  if c =? 34 then Some 34 else if c =? 92 then Some 92 else if c =? 47 then Some 47
  else if c =? 98 then Some 8 else if c =? 102 then Some 12 else if c =? 110 then Some 10
  else if c =? 114 then Some 13 else if c =? 116 then Some 9 else None.

Definition cons_fst (c : Z) (r : option (pystr * pystr)) : option (pystr * pystr) :=
  '(s, rest) ← r; Some (c :: s, rest).

(** The characters of a string literal after its opening quote, and the rest.
    A high surrogate escape directly followed by a low one is one character. *)
Fixpoint parse_string (s : pystr) : option (pystr * pystr) :=
  match s with
  | [] => None
  | c :: r =>
      if c =? 34 then Some ([], r)
      else if c =? 92 then
        match r with
        | e :: r1 =>
            if e =? 117 then
              match r1 with
              | h1 :: h2 :: h3 :: h4 :: r2 =>
                  uni ← hex4_value h1 h2 h3 h4;
                  if (0xD800 <=? uni) && (uni <=? 0xDBFF) then
                    match r2 with
                    | b :: e2 :: l1 :: l2 :: l3 :: l4 :: r3 =>
                        if (b =? 92) && (e2 =? 117) then
                          uni2 ← hex4_value l1 l2 l3 l4;
                          if (0xDC00 <=? uni2) && (uni2 <=? 0xDFFF) then
                            cons_fst (0x10000 + (uni - 0xD800) * 1024 + (uni2 - 0xDC00)) (parse_string r3)
                          else cons_fst uni (parse_string r2)
                        else cons_fst uni (parse_string r2)
                    | _ => cons_fst uni (parse_string r2)
                    end
                  else cons_fst uni (parse_string r2)
              | _ => None
              end
            else ch ← unescape e; cons_fst ch (parse_string r1)
        | [] => None
        end
      else if c <? 32 then None
      else cons_fst c (parse_string r)
  end.

Fixpoint span_digits (s : pystr) : pystr * pystr :=
  match s with
  | c :: r => if is_digit c then let '(ds, rest) := span_digits r in (c :: ds, rest) else ([], s)
  | [] => ([], [])
  end.

(** An optional fraction and an optional exponent: what was read and the rest. *)
Definition parse_frac (s : pystr) : pystr * pystr :=
  match s with
  | 46 :: r => match span_digits r with ([], _) => ([], s) | (ds, rest) => (46 :: ds, rest) end
  | _ => ([], s)
  end.

Definition parse_exp (s : pystr) : pystr * pystr :=
  match s with
  | c :: r =>
      if (c =? 101) || (c =? 69) then
        let '(sign, r') := match r with
                           | d :: r' => if (d =? 43) || (d =? 45) then ([d], r') else ([], r)
                           | [] => ([], r)
                           end in
        match span_digits r' with ([], _) => ([], s) | (ds, rest) => (c :: sign ++ ds, rest) end
      else ([], s)
  | [] => ([], s)
  end.

(** json's NUMBER_RE: sign, integer part without leading zeros, fraction,
    exponent. *)
Definition parse_unsigned (neg : bool) (s : pystr) : option (json * pystr) :=
  let '(ds, r) := match s with
                  | c :: r => if c =? 48 then ([48], r) else span_digits s
                  | [] => ([], s)
                  end in
  match ds with
  | [] => None
  | _ =>
      let '(frac, r) := parse_frac r in
      let '(ex, r) := parse_exp r in
      match frac, ex with
      | [], [] => Some (JInt (if neg then - digits_value ds else digits_value ds), r)
      | _, _ => Some (JFloat ((if neg then u "-" else []) ++ ds ++ frac ++ ex), r)
      end
  end.

Definition parse_number (s : pystr) : option (json * pystr) :=
  match s with
  | c :: r => if c =? 45 then parse_unsigned true r else parse_unsigned false s
  | [] => None
  end.

(** The literal words, tried in order. *)
Fixpoint parse_word (words : list (pystr * json)) (s : pystr) : option (json * pystr) :=
  match words with
  | [] => None
  | (w, v) :: words => if startswith w s then Some (v, drop (length w) s) else parse_word words s
  end.

Definition literal_words : list (pystr * json) :=
  [(u "null", JNull); (u "true", JBool true); (u "false", JBool false);
   (u "NaN", JFloat (u "NaN")); (u "Infinity", JFloat (u "Infinity"));
   (u "-Infinity", JFloat (u "-Infinity"))].

(** [fuel] bounds the number of values, members and elements read; the length
    of the input is enough, since each takes at least one character. *)
Fixpoint parse_value (fuel : nat) (s : pystr) {struct fuel} : option (json * pystr) :=
  match fuel with
  | O => None
  | S fuel =>
      match s with
      | [] => None
      | c :: r =>
          if c =? 34 then '(str, rest) ← parse_string r; Some (JStr str, rest)
          else if c =? 123 then
            match skip_ws r with
            | 125 :: rest => Some (JObj [], rest)
            | r' => '(ms, rest) ← parse_members fuel r'; Some (JObj ms, rest)
            end
          else if c =? 91 then
            match skip_ws r with
            | 93 :: rest => Some (JArr [], rest)
            | r' => '(vs, rest) ← parse_elements fuel r'; Some (JArr vs, rest)
            end
          else match parse_word literal_words s with
               | Some x => Some x
               | None => parse_number s
               end
      end
  end
with parse_members (fuel : nat) (s : pystr) {struct fuel} : option (list (pystr * json) * pystr) :=
  match fuel with
  | O => None
  | S fuel =>
      match s with
      | 34 :: r =>
          '(key, r) ← parse_string r;
          match skip_ws r with
          | 58 :: r =>
              '(v, r) ← parse_value fuel (skip_ws r);
              match skip_ws r with
              | 125 :: rest => Some ([(key, v)], rest)
              | 44 :: r => '(ms, rest) ← parse_members fuel (skip_ws r); Some ((key, v) :: ms, rest)
              | _ => None
              end
          | _ => None
          end
      | _ => None
      end
  end
with parse_elements (fuel : nat) (s : pystr) {struct fuel} : option (list json * pystr) :=
  match fuel with
  | O => None
  | S fuel =>
      '(v, r) ← parse_value fuel s;
      match skip_ws r with
      | 93 :: rest => Some ([v], rest)
      | 44 :: r => '(vs, rest) ← parse_elements fuel (skip_ws r); Some (v :: vs, rest)
      | _ => None
      end
  end.

Definition json_decode_error : exn := OtherError (u "JSONDecodeError") (u "Expecting value").

(** [json.loads(s)] for a [str] *)
Definition loads_str (s : pystr) : exn + json :=
  match parse_value (S (length s)) (skip_ws s) with
  | Some (v, rest) => match skip_ws rest with [] => inr v | _ => inl json_decode_error end
  | None => inl json_decode_error
  end.

(** ** Reading back what [dumps] wrote *)
Lemma hex_value_digit n : 0 <= n < 16 → hex_value (hex_digit n) = Some n.
Proof.
  intros Hn. unfold hex_value, hex_digit. case (Z.ltb_spec n 10); intros Hlt; decide_cmp; simpl;
    f_equal; lia.
Qed.

Lemma hex4_spec n :
  0 <= n < 65536 →
  ∃ a b c d, hex4 n = [92; 117; a; b; c; d] ∧ hex4_value a b c d = Some n.
Proof.
  intros Hn. unfold hex4. do 4 eexists. split; [done|]. unfold hex4_value.
  pose proof (Z.mod_pos_bound n 16 ltac:(lia)). pose proof (Z.mod_pos_bound (n `div` 16) 16 ltac:(lia)).
  pose proof (Z.mod_pos_bound (n `div` 256) 16 ltac:(lia)).
  pose proof (Z.div_mod n 16 ltac:(lia)). pose proof (Z.div_mod (n `div` 16) 16 ltac:(lia)).
  pose proof (Z.div_mod (n `div` 256) 16 ltac:(lia)).
  rewrite !Z.div_div in * by lia. change (16 * 16) with 256 in *. change (256 * 16) with 4096 in *.
  rewrite !hex_value_digit by lia. simpl. f_equal. lia.
Qed.

(** A [\u] escape of a code unit that is not a high surrogate. *)
Lemma parse_string_hex4 n rest :
  0 <= n < 65536 → ¬ (0xD800 <= n <= 0xDBFF) →
  parse_string (hex4 n ++ rest) = cons_fst n (parse_string rest).
Proof.
  intros Hn Hs. destruct (hex4_spec n Hn) as (a & b & c & d & -> & Hv). simpl. rewrite Hv. simpl.
  assert ((0xD800 <=? n) && (n <=? 0xDBFF) = false) as ->; [|done].
  rewrite andb_false_iff, !Z.leb_gt. lia.
Qed.

(** Two [\u] escapes that are a surrogate pair. *)
Lemma parse_string_pair h l rest :
  0xD800 <= h <= 0xDBFF → 0xDC00 <= l <= 0xDFFF →
  parse_string (hex4 h ++ hex4 l ++ rest) =
  cons_fst (0x10000 + (h - 0xD800) * 1024 + (l - 0xDC00)) (parse_string rest).
Proof.
  intros Hh Hl. destruct (hex4_spec h) as (a & b & c & d & -> & Hv); [lia|].
  destruct (hex4_spec l) as (a' & b' & c' & d' & -> & Hv'); [lia|]. simpl. rewrite Hv. simpl.
  assert ((0xD800 <=? h) && (h <=? 0xDBFF) = true) as -> by (rewrite andb_true_iff, !Z.leb_le; lia).
  rewrite Hv'. simpl.
  assert ((0xDC00 <=? l) && (l <=? 0xDFFF) = true) as -> by (rewrite andb_true_iff, !Z.leb_le; lia).
  done.
Qed.

Lemma parse_string_escape_char c rest :
  is_scalar c = true → parse_string (escape_char c ++ rest) = cons_fst c (parse_string rest).
Proof.
  intros [Hc Hs]%is_scalar_spec. unfold escape_char.
  repeat match goal with
  | |- context [if ?x =? ?y then _ else _] =>
      destruct (Z.eqb_spec x y) as [->|?]; [done|]
  end.
  destruct ((32 <=? c) && (c <=? 126)) eqn:Hp.
  { apply andb_true_iff in Hp as [H1 H2]. boolZ. simpl.
    rewrite (proj2 (Z.eqb_neq c 34)), (proj2 (Z.eqb_neq c 92)), (proj2 (Z.ltb_ge c 32)) by lia. done. }
  case (Z.ltb_spec c 0x10000); intros Hlt; [apply parse_string_hex4; lia|].
  pose proof (Z.mod_pos_bound (c - 0x10000) 1024 ltac:(lia)).
  pose proof (Z.div_mod (c - 0x10000) 1024 ltac:(lia)).
  assert (0 <= (c - 0x10000) `div` 1024 < 1024).
  { split; [apply Z.div_pos; lia|apply Z.div_lt_upper_bound; lia]. }
  rewrite <-(assoc_L (++)), parse_string_pair by lia. f_equal. lia.
Qed.

Lemma parse_string_escape s rest :
  Forall (λ c, is_scalar c = true) s → parse_string (escape s ++ 34 :: rest) = Some (s, rest).
Proof.
  unfold escape. induction 1 as [|c s Hc Hs IH]; [done|].
  rewrite fmap_cons, concat_cons, <-(assoc_L (++)), parse_string_escape_char by done.
  by rewrite IH.
Qed.

Lemma span_digits_spec ds c rest :
  Forall (λ c, 48 <= c <= 57) ds → is_digit c = false →
  span_digits (ds ++ c :: rest) = (ds, c :: rest).
Proof.
  intros Hds Hc. induction Hds as [|d ds Hd Hds IH]; simpl; [by rewrite Hc|].
  unfold is_digit at 1. decide_cmp. simpl. by rewrite IH.
Qed.

(** The characters that follow a value in a dictionary. *)
Definition ends_value (c : Z) : Prop := c = 44 ∨ c = 125.

Lemma parse_unsigned_digits neg m c rest :
  0 <= m → ends_value c →
  parse_unsigned neg (digits m ++ c :: rest) = Some (JInt (if neg then - m else m), c :: rest).
Proof.
  intros Hm Hc. destruct (digits_spec m Hm) as (Hv & Hd & Hne & Hnz).
  assert (is_digit c = false) as Hcd by (destruct Hc as [->| ->]; done).
  destruct (decide (m = 0)) as [->|Hm0].
  { destruct Hc as [->| ->]; destruct neg; done. }
  destruct Hnz as (d & ds' & Heq & Hd49); [lia|]. rewrite Heq in *. unfold parse_unsigned.
  rewrite <-app_comm_cons, (proj2 (Z.eqb_neq d 48)) by lia.
  rewrite app_comm_cons, span_digits_spec by done.
  destruct Hc as [->| ->]; cbn -[digits_value]; by rewrite Hv.
Qed.

Lemma parse_number_str n c rest :
  ends_value c → parse_number (str_of_Z n ++ c :: rest) = Some (JInt n, c :: rest).
Proof.
  intros Hc. unfold str_of_Z. case (Z.ltb_spec n 0); intros Hn.
  - change (u "-" ++ digits (- n)) with (45 :: digits (- n)).
    rewrite <-app_comm_cons. unfold parse_number. cbn [Z.eqb Pos.eqb].
    rewrite parse_unsigned_digits by (done || lia). do 3 f_equal. lia.
  - destruct (digits_spec n Hn) as (_ & Hd & Hne & _).
    rewrite <-(parse_unsigned_digits false n c rest Hn Hc).
    destruct (digits n) as [|d ds] eqn:Heq; [done|]. assert (48 <= d <= 57) by (by inversion Hd).
    rewrite <-app_comm_cons. unfold parse_number. by rewrite (proj2 (Z.eqb_neq d 45)) by lia.
Qed.

Definition scalar_ok (v : scalar) : Prop :=
  match v with SStr s => Forall (λ c, is_scalar c = true) s | _ => True end.

Lemma startswith_ne p c s : head p ≠ Some c → p ≠ [] → startswith p (c :: s) = false.
Proof.
  intros Hh Hp. unfold startswith. apply bool_decide_eq_false_2. intros [t Ht].
  destruct p; simplify_eq/=.
Qed.

Lemma parse_value_scalar fuel v c rest :
  scalar_ok v → ends_value c →
  parse_value (S fuel) (dumps_scalar v ++ c :: rest) = Some (to_json v, c :: rest).
Proof.
  intros Hv Hc. destruct v as [b|n|s]; simpl in Hv.
  - destruct b; reflexivity.
  - cbn [dumps_scalar to_json].
    pose proof (parse_number_str n c rest Hc) as Hp. pose proof (str_of_Z_chars n) as Hch.
    destruct (str_of_Z n) as [|d ds] eqn:E; [destruct Hc as [->| ->]; done|].
    assert (48 <= d <= 57 ∨ d = 45) as Hd by (by inversion Hch).
    rewrite <-app_comm_cons in *. cbn [parse_value].
    rewrite (proj2 (Z.eqb_neq d 34)), (proj2 (Z.eqb_neq d 123)), (proj2 (Z.eqb_neq d 91)) by lia.
    rewrite Hp. unfold literal_words. cbn [parse_word].
    rewrite !startswith_ne by (try done; simpl; intros [= <-]; lia).
    unfold startswith. rewrite bool_decide_eq_false_2; [done|]. intros [t Ht].
    injection Ht as -> Ht. inversion Hch as [|? ? _ Hds]; subst.
    destruct ds as [|d2 ds]; simpl in Ht; [destruct Hc as [->| ->]; done|].
    assert (48 <= d2 <= 57 ∨ d2 = 45) by (by inversion Hds). by simplify_eq/=.
  - cbn [dumps_scalar to_json]. unfold dumps_str. cbn [app parse_value Z.eqb Pos.eqb].
    rewrite <-(assoc_L (++)). cbn [app]. by rewrite parse_string_escape.
Qed.

Lemma skip_ws_ends c rest : ends_value c → skip_ws (c :: rest) = c :: rest.
Proof. by intros [->| ->]. Qed.

Lemma dumps_scalar_head v : ∃ c r, dumps_scalar v = c :: r ∧ 33 <= c.
Proof.
  destruct v as [[]|n|s].
  { by exists 116, (u "rue"). }
  { by exists 102, (u "alse"). }
  2: { by exists 34, (escape s ++ [34]). }
  cbn [dumps_scalar]. pose proof (str_of_Z_chars n) as Hch. unfold str_of_Z in *.
  case (Z.ltb_spec n 0) in *; intros.
  - by exists 45, (digits (- n)).
  - destruct (digits_spec n) as (_ & _ & Hne & _); [done|].
    destruct (digits n) as [|d ds]; [done|]. exists d, ds. split; [done|].
    inversion Hch; subst. lia.
Qed.

Lemma skip_ws_head c r : 33 <= c → skip_ws (c :: r) = c :: r.
Proof.
  intros Hc. simpl. rewrite (proj2 (Z.eqb_neq c 32)), (proj2 (Z.eqb_neq c 9)),
    (proj2 (Z.eqb_neq c 10)), (proj2 (Z.eqb_neq c 13)) by lia. done.
Qed.

Lemma parse_members_eq fuel r :
  parse_members (S fuel) (34 :: r) =
  ('(key, r) ← parse_string r;
   match skip_ws r with
   | 58 :: r =>
       '(v, r) ← parse_value fuel (skip_ws r);
       match skip_ws r with
       | 125 :: rest => Some ([(key, v)], rest)
       | 44 :: r => '(ms, rest) ← parse_members fuel (skip_ws r); Some ((key, v) :: ms, rest)
       | _ => None
       end
   | _ => None
   end).
Proof. done. Qed.

Definition member_ok (kv : pystr * scalar) : Prop :=
  Forall (λ c, is_scalar c = true) kv.1 ∧ scalar_ok kv.2.

(** A member up to its value, which is followed by a comma or a brace. *)
Lemma parse_member_value fuel kv rest :
  member_ok kv →
  parse_members (S (S fuel)) (dumps_member kv ++ 125 :: rest)
    = Some ([(kv.1, to_json kv.2)], rest) ∧
  parse_members (S (S fuel)) (dumps_member kv ++ 44 :: 32 :: 34 :: rest)
    = ('(ms, rest) ← parse_members (S fuel) (34 :: rest); Some ((kv.1, to_json kv.2) :: ms, rest)).
Proof.
  intros [Hk Hv]. destruct kv as [k v]; simpl in Hk, Hv.
  destruct (dumps_scalar_head v) as (d & r & Hd & Hge).
  assert (∀ t, skip_ws (32 :: dumps_scalar v ++ t) = dumps_scalar v ++ t) as Hws.
  { intros t. change (skip_ws (32 :: dumps_scalar v ++ t)) with (skip_ws (dumps_scalar v ++ t)).
    by rewrite Hd, <-app_comm_cons, skip_ws_head. }
  assert (∀ t, dumps_member (k, v) ++ t = 34 :: escape k ++ 34 :: 58 :: 32 :: dumps_scalar v ++ t) as Hm.
  { intros t. unfold dumps_member, dumps_str. cbn [fst snd app].
    by rewrite <-!(assoc_L (++)). }
  rewrite !Hm, !parse_members_eq, !parse_string_escape by done. cbn [mbind option_bind fst snd].
  rewrite !(skip_ws_head 58) by lia. rewrite !Hws. split.
  - by rewrite parse_value_scalar by (done || by right).
  - by rewrite parse_value_scalar by (done || by left).
Qed.

Lemma parse_members_dumps fuel kvs rest :
  kvs ≠ [] → Forall member_ok kvs → (length kvs < fuel)%nat →
  parse_members fuel (join (u ", ") (dumps_member <$> kvs) ++ 125 :: rest) =
  Some (prod_map id to_json <$> kvs, rest).
Proof.
  intros Hne Hok. revert fuel. induction Hok as [|kv kvs Hkv Hok IH]; intros fuel Hf; [done|].
  destruct fuel as [|[|fuel]]; simpl in Hf; [lia..|].
  destruct kvs as [|kv' kvs]; [apply (parse_member_value fuel kv rest Hkv)|].
  rewrite !fmap_cons, join_cons by done.
  specialize (IH ltac:(done) (S fuel) ltac:(simpl in *; lia)).
  rewrite fmap_cons in IH. rewrite <-!(assoc_L (++)).
  assert (∃ t, join (u ", ") (dumps_member kv' :: (dumps_member <$> kvs)) ++ 125 :: rest = 34 :: t)
    as [t Ht].
  { destruct kvs; simpl; unfold dumps_member, dumps_str; simpl; by eexists. }
  rewrite Ht in *. change (u ", " ++ 34 :: t) with (44 :: 32 :: 34 :: t).
  rewrite (proj2 (parse_member_value fuel kv t Hkv)), IH. done.
Qed.

Lemma loads_str_dumps (d : list (pystr * scalar)) :
  d ≠ [] → Forall member_ok d → loads_str (dumps d) = inr (JObj (prod_map id to_json <$> d)).
Proof.
  intros Hne Hok. unfold loads_str, dumps.
  set (body := join (u ", ") (dumps_member <$> d) ++ u "}").
  assert (∃ t, body = 34 :: t) as [t Ht].
  { unfold body. destruct d as [|kv [|kv' d]]; [done|..]; simpl; unfold dumps_member, dumps_str;
      simpl; by eexists. }
  assert (length d < length body)%nat as Hlen.
  { unfold body. clear. rewrite length_app. simpl.
    assert (length d <= length (join (u ", ") (dumps_member <$> d)))%nat; [|lia].
    induction d as [|kv d IH]; [simpl; lia|]. destruct d as [|kv' d].
    - simpl. unfold dumps_member, dumps_str. rewrite !length_app. simpl. lia.
    - rewrite fmap_cons, join_cons by done. rewrite !length_app. simpl in *. lia. }
  change (u "{" ++ body) with (123 :: body).
  rewrite (skip_ws_head 123) by lia.
  assert (parse_value (S (length (123 :: body))) (123 :: body) =
    ('(ms, rest) ← parse_members (length (123 :: body)) body; Some (JObj ms, rest))) as ->.
  { rewrite Ht. done. }
  unfold body at 2. change (u "}") with (125 :: []).
  rewrite parse_members_dumps; [done..|]. simpl. lia.
Qed.

(** ** [json.loads] of bytes *)

(** Bytes that are not plain UTF-8 (another encoding, or encoded surrogates,
    which [loads] lets pass) are decoded by a parameter. *)
Class Codecs := { decode_other : bytes → exn + pystr }.

(** [json.detect_encoding(b) == "utf-8"] *)
Definition detect_utf8 (b : bytes) : bool :=
  negb (startswith [0; 0; 0xFE; 0xFF] b || startswith [0xFF; 0xFE; 0; 0] b ||
        startswith [0xFE; 0xFF] b || startswith [0xFF; 0xFE] b ||
        startswith [0xEF; 0xBB; 0xBF] b) &&
  match b with
  | [b0; b1] => negb ((b0 =? 0) || (b1 =? 0))
  | b0 :: b1 :: _ :: _ :: _ => negb ((b0 =? 0) || (b1 =? 0))
  | _ => true
  end.

Definition loads `{Codecs} (b : bytes) : exn + json :=
  s ← (if detect_utf8 b then match decode b with inr s => inr s | inl _ => decode_other b end
       else decode_other b);
  loads_str s.

Definition ascii (c : Z) : Prop := 0 <= c < 128.
Definition codepoint (c : Z) : Prop := 0 <= c <= 0x10FFFF.

Lemma hex4_ascii n : 0 <= n < 65536 → Forall ascii (hex4 n).
Proof.
  intros Hn. assert (∀ m, 0 <= m < 16 → ascii (hex_digit m)) as Hd.
  { intros m Hm. unfold ascii, hex_digit. destruct (Z.ltb_spec m 10); lia. }
  unfold hex4.
  assert (0 <= n `div` 4096 < 16).
  { split; [apply Z.div_pos|apply Z.div_lt_upper_bound]; lia. }
  repeat (apply Forall_cons_2; [first [apply Hd; (done || (apply Z.mod_pos_bound; lia))|unfold ascii; lia]|]).
  constructor.
Qed.

Lemma escape_ascii s : Forall codepoint s → Forall ascii (escape s).
Proof.
  intros Hs. unfold escape. apply Forall_concat, Forall_fmap.
  eapply Forall_impl; [exact Hs|]. intros c Hc. unfold codepoint in Hc. simpl.
  unfold escape_char. repeat destruct_if; boolZ.
  all: try by repeat constructor.
  - match goal with H : _ && _ = true |- _ => apply andb_true_iff in H as [? ?] end. boolZ.
    repeat constructor; lia.
  - apply hex4_ascii. lia.
  - apply Forall_app. split; apply hex4_ascii.
    + pose proof (Z.div_pos (c - 0x10000) 1024). pose proof (Z.div_lt_upper_bound (c - 0x10000) 1024 1024).
      lia.
    + pose proof (Z.mod_pos_bound (c - 0x10000) 1024). lia.
Qed.

(** The text of a dictionary item is made of code points. *)
Definition member_text (kv : pystr * scalar) : Prop :=
  Forall codepoint kv.1 ∧ match kv.2 with SStr s => Forall codepoint s | _ => True end.

(** [json.dumps] writes ASCII, so its encoding cannot fail. *)
Lemma dumps_ascii d : Forall member_text d → Forall ascii (dumps d).
Proof.
  intros Hd. unfold dumps. apply Forall_app. split; [by repeat constructor|].
  apply Forall_app. split; [|by repeat constructor].
  apply Forall_join; [by repeat constructor|]. apply Forall_fmap.
  assert (∀ s, Forall codepoint s → Forall ascii (dumps_str s)) as Hstr.
  { intros s Hs. unfold dumps_str. constructor; [done|]. apply Forall_app.
    split; [by apply escape_ascii|by repeat constructor]. }
  eapply Forall_impl; [exact Hd|]. intros [k v] [Hk Hv]. cbn [fst snd] in *.
  unfold dumps_member. apply Forall_app. split; [by apply Hstr|].
  apply Forall_app. split; [by repeat constructor|].
  destruct v as [[]|n|s]; [by repeat constructor..| |by apply Hstr].
  eapply Forall_impl; [apply str_of_Z_chars|]. unfold ascii. simpl. lia.
Qed.

Lemma encode_dumps d : Forall member_text d → encode (dumps d) = inr (dumps d).
Proof. intros Hd. by apply encode_ascii, dumps_ascii. Qed.

Lemma member_ok_text kv : member_ok kv → member_text kv.
Proof.
  assert (∀ s, Forall (λ c, is_scalar c = true) s → Forall codepoint s) as Hs.
  { intros s Hs. eapply Forall_impl; [exact Hs|]. intros c [Hc _]%is_scalar_spec. exact Hc. }
  intros [Hk Hv]. split; [by apply Hs|]. destruct kv as [k [b|n|s]]; try done. by apply Hs.
Qed.

Lemma loads_dumps `{Codecs} d :
  d ≠ [] → Forall member_ok d → loads (dumps d) = inr (JObj (prod_map id to_json <$> d)).
Proof.
  intros Hne Hok. unfold loads.
  assert (detect_utf8 (dumps d) = true) as ->.
  { unfold dumps. destruct d as [|[k v] d]; [done|]. rewrite fmap_cons.
    assert (∃ c r, join (u ", ") (dumps_member (k, v) :: (dumps_member <$> d)) = 34 :: c :: r)
      as (c & r & ->).
    { destruct d as [|kv' d]; simpl; unfold dumps_member, dumps_str; simpl;
        destruct (escape k); by repeat eexists. }
    simpl. destruct (r ++ u "}") as [|x y]; done. }
  rewrite decode_ascii; [by apply loads_str_dumps|].
  apply dumps_ascii. eapply Forall_impl; [exact Hok|]. apply member_ok_text.
Qed.

(** [json.loads] undoes [json.dumps] on the flat dictionaries the program
    sends and stores, at the level of bytes, whatever the strings contain
    (quotes, backslashes, control characters, characters outside the BMP), lone
    surrogates excepted; the encoding of what [dumps] wrote cannot fail. *)
Theorem json_roundtrip `{Codecs} (d : list (pystr * scalar)) :
  d ≠ [] → Forall member_ok d →
  encode (dumps d) = inr (dumps d) ∧ loads (dumps d) = inr (JObj (prod_map id to_json <$> d)).
Proof.
  intros Hne Hok. split; [|by apply loads_dumps]. apply encode_dumps.
  eapply Forall_impl; [exact Hok|]. apply member_ok_text.
Qed.

(** A codec that knows no other encoding. *)
#[export] Instance utf8_only : Codecs := {| decode_other _ := inl unicode_decode_error |}.

Lemma json_roundtrip_witness :
  loads (dumps [(u "job", SStr [34; 10; 0x1F600]); (u "n", SInt (-1)); (u "llm", SBool true)])
  = inr (JObj [(u "job", JStr [34; 10; 0x1F600]); (u "n", JInt (-1)); (u "llm", JBool true)]).
Proof.
  apply (json_roundtrip [(u "job", SStr [34; 10; 0x1F600]); (u "n", SInt (-1)); (u "llm", SBool true)]);
    [done|]. repeat (constructor; [split; repeat constructor|]); constructor.
Defined.
