(* ===== verification/Rely.v ===== *)
(** * Rely-guarantee reasoning for interleaved programs

    Processes are programs that take their actions in any interleaving.  An
    invariant [I] holds between any two actions; every action of the process at
    hand is in its guarantee [G], every action of the others and of the
    environment is in its rely [R].  [safe P p Q]: started in a world where [P]
    holds, whatever the others do within [I] and [R], every action of [p] keeps [I]
    and is in [G], and if [p] returns [a] then [Q a] holds.  The intermediate
    assertions have to survive the others ([stable]). *)
From S2P Require Import Prelude PyStr Effects.

Definition stable {W} (R : W → W → Prop) (P : W → Prop) : Prop := ∀ w w', P w → R w w' → P w'.

Section rely.
Context {W : Type} (I : W → Prop) (G R : W → W → Prop).

Fixpoint safe {A} (P : W → Prop) (p : prog W A) (Q : A → W → Prop) : Prop :=
  match p with
  | Ret a => ∀ w, I w → P w → Q a w
  | Raise _ | Spin => True
  | Act f k => ∀ w, I w → P w →
      I (f w).2 ∧ G w (f w).2 ∧ ∃ P', stable R P' ∧ P' (f w).2 ∧ safe P' (k (f w).1) Q
  end.

(** Facts that neither the process itself nor the others destroy. *)
Definition framed (P : W → Prop) : Prop := stable G P ∧ stable R P.

Lemma framed_and P Q : framed P → framed Q → framed (λ w, P w ∧ Q w).
Proof.
  intros [HP HP'] [HQ HQ']. split; intros w w' [HPw HQw] HR.
  - split; [by eapply HP|by eapply HQ].
  - split; [by eapply HP'|by eapply HQ'].
Qed.

Lemma framed_pure (φ : Prop) : framed (λ _, φ).
Proof. by split; intros w w'. Qed.

Lemma safe_mono {A} (P P' : W → Prop) (p : prog W A) (Q Q' : A → W → Prop) :
  (∀ w, I w → P' w → P w) → (∀ a w, I w → Q a w → Q' a w) → safe P p Q → safe P' p Q'.
Proof.
  revert P P'. induction p as [a|e| |X f k IH]; intros P P' HP HQ Hs; simpl in *; [by eauto|done..|].
  intros w HI HP'. destruct (Hs w HI (HP w HI HP')) as (HI' & HG & P1 & Hst & HP1 & Hk).
  split_and!; [done|done|]. exists P1. split_and!; [done|done|]. by eapply (IH _ P1 P1).
Qed.

Lemma safe_pre {A} (P P' : W → Prop) (p : prog W A) Q :
  (∀ w, I w → P' w → P w) → safe P p Q → safe P' p Q.
Proof. intros HP. by apply safe_mono. Qed.

Lemma safe_post {A} P (p : prog W A) (Q Q' : A → W → Prop) :
  (∀ a w, I w → Q a w → Q' a w) → safe P p Q → safe P p Q'.
Proof. intros HQ. by apply safe_mono. Qed.

(** A precondition that does not mention the world. *)
Lemma safe_pure {A} (φ : Prop) P (p : prog W A) Q :
  (φ → safe P p Q) → safe (λ w, φ ∧ P w) p Q.
Proof.
  destruct p as [a|e| |X f k]; simpl; [|done..|]; intros Hs w HI [Hφ HP]; by apply (Hs Hφ w).
Qed.

Lemma safe_exists {A X} (P : X → W → Prop) (p : prog W A) Q :
  (∀ x, safe (P x) p Q) → safe (λ w, ∃ x, P x w) p Q.
Proof.
  destruct p as [a|e| |Y f k]; simpl; [|done..|]; intros Hs w HI [x HP]; by apply (Hs x w).
Qed.

Lemma safe_bind {A B} (P : W → Prop) (p : prog W A) (f : A → prog W B) (M : A → W → Prop) Q :
  safe P p M → (∀ a, safe (M a) (f a) Q) → safe P (p ≫= f) Q.
Proof.
  revert P. induction p as [a|e| |X g k IH]; intros P Hp Hf; [|done..|].
  - by eapply (safe_mono (M a)); [..|apply Hf].
  - intros w HI HP. destruct (Hp w HI HP) as (HI' & HG & P1 & Hst & HP1 & Hk).
    split_and!; [done|done|]. exists P1. split_and!; [done|done|]. by apply (IH _ P1).
Qed.

(** A result about which something is known that does not mention the world. *)
Lemma safe_bind_pure {A B} P (p : prog W A) (f : A → prog W B) (φ : A → Prop) Q :
  safe P p (λ a _, φ a) → (∀ a, φ a → safe (λ _, True) (f a) Q) → safe P (p ≫= f) Q.
Proof.
  intros Hp Hf. eapply safe_bind; [exact Hp|]. intros a. cbv beta.
  eapply (safe_pre (λ w, φ a ∧ True)); [done|]. by apply safe_pure, Hf.
Qed.

(** A computation that may raise and does not touch the world. *)
Lemma safe_lift {A B} P (r : exn + A) (f : A → prog W B) Q :
  (∀ a, r = inr a → safe P (f a) Q) → safe P (reraise r ≫= f) Q.
Proof. destruct r as [e|a]; intros Hf; [done|by apply Hf]. Qed.

Lemma safe_attempt {A} P (p : prog W A) Q :
  safe P p Q → safe P (attempt p) (λ r w, match r with inr a => Q a w | inl _ => True end).
Proof.
  revert P. induction p as [a|e| |X g k IH]; intros P Hp; [done..|].
  intros w HI HP. destruct (Hp w HI HP) as (HI' & HG & P1 & Hst & HP1 & Hk).
  split_and!; [done|done|]. exists P1. split_and!; [done|done|]. by apply IH.
Qed.

(** Framed facts survive a program, whether it returns or raises. *)
Lemma safe_attempt_frame {A} P P0 (p : prog W A) Q :
  framed P0 → safe P p Q →
  safe (λ w, P w ∧ P0 w) (attempt p) (λ r w, P0 w ∧ match r with inr a => Q a w | inl _ => True end).
Proof.
  intros [HG0 HR0]. revert P. induction p as [a|e| |X g k IH]; intros P Hp.
  - intros w HI [HP HP0w]. split; [done|by apply Hp].
  - by intros w HI [HP HP0w].
  - done.
  - intros w HI [HP HP0w]. destruct (Hp w HI HP) as (HI' & HG & P1 & Hst & HP1 & Hk).
    split_and!; [done|done|]. exists (λ w, P1 w ∧ P0 w).
    split_and!; [|done|by eapply HG0|by apply IH].
    intros w1 w2 [H1 H2] HR. split; [by eapply Hst|by eapply HR0].
Qed.

Lemma safe_frame {A} P P0 (p : prog W A) Q :
  framed P0 → safe P p Q → safe (λ w, P w ∧ P0 w) p (λ a w, Q a w ∧ P0 w).
Proof.
  intros [HG0 HR0]. revert P. induction p as [a|e| |X g k IH]; intros P Hp; [|done..|].
  - intros w HI [HP HP0w]. split; [by apply Hp|done].
  - intros w HI [HP HP0w]. destruct (Hp w HI HP) as (HI' & HG & P1 & Hst & HP1 & Hk).
    split_and!; [done|done|]. exists (λ w, P1 w ∧ P0 w).
    split_and!; [|done|by eapply HG0|by apply IH].
    intros w1 w2 [H1 H2] HR. split; [by eapply Hst|by eapply HR0].
Qed.

(** One action that may raise. *)
Lemma safe_io {X} P (f : W → (exn + X) * W) (Q : X → W → Prop) :
  (∀ x, stable R (Q x)) →
  (∀ w, I w → P w → I (f w).2 ∧ G w (f w).2 ∧ ∀ x, (f w).1 = inr x → Q x (f w).2) →
  safe P (io f) Q.
Proof.
  intros Hst Hf w HI HP. destruct (Hf w HI HP) as (HI' & HG & HQ). split_and!; [done|done|].
  destruct ((f w).1) as [e|x].
  - exists (λ _, True). by split_and!.
  - exists (Q x). split_and!; [done|by apply HQ|]. by intros w'.
Qed.

(** One action that cannot. *)
Lemma safe_act {X} P (f : W → X * W) (Q : X → W → Prop) :
  (∀ x, stable R (Q x)) →
  (∀ w, I w → P w → I (f w).2 ∧ G w (f w).2 ∧ Q (f w).1 (f w).2) →
  safe P (act f) Q.
Proof.
  intros Hst Hf w HI HP. destruct (Hf w HI HP) as (HI' & HG & HQ). split_and!; [done|done|].
  exists (Q (f w).1). split_and!; [done|done|]. by intros w'.
Qed.

(** A program whose actions all keep the invariant, from any world, keeps every
    framed assertion. *)
Definition harmless (w w' : W) : Prop := I w → I w' ∧ G w w'.

Lemma safe_harmless {A} P (p : prog W A) :
  framed P → guarantee harmless p → safe P p (λ _, P).
Proof.
  intros [HG HR]. induction p as [a|e| |X g k IH]; intros Hp; [by intros w|done..|].
  destruct Hp as [Hg Hk]. intros w HI HPw. destruct (Hg w HI) as [HI' HG']. split_and!; [done|done|].
  exists P. split_and!; [done|by eapply HG|]. by apply IH.
Qed.

Lemma safe_then {A B} P (p : prog W A) (f : A → prog W B) Q :
  framed P → guarantee harmless p → (∀ a, safe P (f a) Q) → safe P (p ≫= f) Q.
Proof. intros HP Hp Hf. by eapply safe_bind; [by apply safe_harmless|]. Qed.

(** Whatever an attempt raised, framed facts hold after it. *)
Lemma safe_attempt_then {A B} P (p : prog W A) (f : exn + A → prog W B) M Q :
  framed P → safe P p M →
  (∀ e, safe P (f (inl e)) Q) → (∀ a, safe (λ w, P w ∧ M a w) (f (inr a)) Q) →
  safe P (r ← attempt p; f r) Q.
Proof.
  intros HP Hp He Ha. eapply safe_bind.
  - eapply (safe_mono (λ w, P w ∧ P w)); [by intros w _ H|by intros r w _ H; exact H|].
    by eapply safe_attempt_frame.
  - intros [e|a]; cbv beta.
    + eapply safe_pre; [|apply He]. by intros w _ [? _].
    + apply Ha.
Qed.

(** [try: p finally: q] where [q] is harmless. *)
Lemma safe_finally {A} P (p : prog W A) q (M : A → W → Prop) :
  (∀ a, framed (M a)) → safe P p M → guarantee harmless q → safe P (finally p q) M.
Proof.
  intros HM Hp Hq. unfold finally. eapply safe_bind; [by apply safe_attempt|].
  intros [e|a]; cbv beta iota.
  - apply safe_then; [apply framed_pure|done|done].
  - apply safe_then; [done|done|]. by intros _ w _ ?.
Qed.
End rely.

(** Whoever guarantees more is safe, too. *)
Lemma safe_weaken {W A} (I : W → Prop) (G G' R : W → W → Prop) P (p : prog W A) Q :
  (∀ w w', G w w' → G' w w') → safe I G R P p Q → safe I G' R P p Q.
Proof.
  intros HG. revert P. induction p as [a|e| |X f k IH]; intros P Hs; [done..|].
  intros w HI HP. destruct (Hs w HI HP) as (HI' & HGw & P1 & Hst & HP1 & Hk).
  split_and!; [done|by apply HG|]. exists P1. split_and!; [done|done|]. by apply IH.
Qed.

(** ** Systems of processes *)

(** Every process has an identity, from which its guarantee, its rely and what it
    promises of its result follow.  Processes that run at the same time are
    pairwise [apart]. *)
Section system.
Context {W T : Type} {Id : Type} (I : W → Prop) (G R : Id → W → W → Prop).
Context (post : Id → T → W → Prop) (apart : Id → Id → Prop).
Context (may_start : Id → prog W T → Prop) (env : W → W → Prop).

Abbreviation procs := (list (Id * prog W T)).

Inductive sys_step : W * procs → W * procs → Prop :=
| sys_start w ps t p :
    may_start t p → Forall (λ q, apart t q.1 ∧ apart q.1 t) ps → sys_step (w, ps) (w, (t, p) :: ps)
| sys_act w w' ps1 t p p' ps2 :
    pstep p w p' w' → sys_step (w, ps1 ++ (t, p) :: ps2) (w', ps1 ++ (t, p') :: ps2)
| sys_crash w ps1 p ps2 : sys_step (w, ps1 ++ p :: ps2) (w, ps1 ++ ps2)
| sys_env w w' ps : env w w' → sys_step (w, ps) (w', ps).

Definition proc_ok (w : W) (q : Id * prog W T) : Prop :=
  ∃ P, stable (R q.1) P ∧ P w ∧ safe I (G q.1) (R q.1) P q.2 (post q.1).

Definition all_apart (ps : procs) : Prop :=
  ∀ i j q q', i ≠ j → ps !! i = Some q → ps !! j = Some q' → apart q.1 q'.1.

Definition sys_ok (s : W * procs) : Prop := I s.1 ∧ Forall (proc_ok s.1) s.2 ∧ all_apart s.2.

Lemma proc_ok_rely w w' q : R q.1 w w' → proc_ok w q → proc_ok w' q.
Proof. intros HR (P & Hst & HP & Hs). exists P. split_and!; [done|by eapply Hst|done]. Qed.

Lemma all_apart_middle ps1 t p p' ps2 :
  all_apart (ps1 ++ (t, p) :: ps2) → all_apart (ps1 ++ (t, p') :: ps2).
Proof.
  intros Ha i j q q' Hij Hi Hj.
  assert (∀ k x, (ps1 ++ (t, p') :: ps2) !! k = Some x →
    ∃ y, (ps1 ++ (t, p) :: ps2) !! k = Some y ∧ y.1 = x.1) as Hsame.
  { intros k x. rewrite !lookup_app. destruct (ps1 !! k); [by eauto|].
    destruct (k - length ps1)%nat; simpl; [intros [= <-]|]; by eauto. }
  destruct (Hsame i q Hi) as (y & Hy & <-), (Hsame j q' Hj) as (y' & Hy' & <-). by eapply (Ha i j).
Qed.

Lemma all_apart_remove ps1 q ps2 : all_apart (ps1 ++ q :: ps2) → all_apart (ps1 ++ ps2).
Proof.
  intros Ha i j x y Hij Hi Hj.
  set (shift k := if decide (k < length ps1)%nat then k else Datatypes.S k).
  assert (∀ k z, (ps1 ++ ps2) !! k = Some z → (ps1 ++ q :: ps2) !! shift k = Some z) as Hs.
  { intros k z. unfold shift. case_decide; [by rewrite !lookup_app_l|].
    rewrite !lookup_app_r by lia. by replace (Datatypes.S k - length ps1)%nat
      with (Datatypes.S (k - length ps1)) by lia. }
  eapply (Ha (shift i) (shift j)); [|by apply Hs..]. unfold shift. repeat case_decide; lia.
Qed.

Lemma all_apart_cons t p ps :
  Forall (λ q, apart t q.1 ∧ apart q.1 t) ps → all_apart ps → all_apart ((t, p) :: ps).
Proof.
  intros Hf Ha i j q q' Hij Hi Hj. destruct i as [|i], j as [|j]; simplify_eq/=.
  - eapply Forall_lookup_1 in Hf; [|exact Hj]. apply Hf.
  - eapply Forall_lookup_1 in Hf; [|exact Hi]. apply Hf.
  - eapply (Ha i j); [lia|done..].
Qed.

(** The processes that did not move are still fine. *)
Lemma others_ok w w' t p ps1 ps2 :
  (∀ t t', apart t t' → ∀ w w', G t w w' → R t' w w') →
  G t w w' → all_apart (ps1 ++ (t, p) :: ps2) → Forall (proc_ok w) (ps1 ++ ps2) →
  Forall (proc_ok w') (ps1 ++ ps2).
Proof.
  intros HGR HG Ha Hok. apply Forall_lookup. intros k q Hk.
  eapply Forall_lookup_1 in Hok; [|exact Hk]. eapply proc_ok_rely; [|exact Hok].
  eapply HGR; [|exact HG].
  set (k' := if decide (k < length ps1)%nat then k else Datatypes.S k).
  eapply (Ha (length ps1) k' (t, p) q).
  - unfold k'. case_decide; lia.
  - by rewrite lookup_app_r, Nat.sub_diag.
  - unfold k'. case_decide; [by rewrite lookup_app_l in Hk |- * by done|].
    rewrite lookup_app_r in Hk by lia. rewrite lookup_app_r by lia.
    by replace (Datatypes.S k - length ps1)%nat with (Datatypes.S (k - length ps1)) by lia.
Qed.

Lemma sys_step_ok s s' :
  (∀ t p, may_start t p → safe I (G t) (R t) (λ _, True) p (post t)) →
  (∀ t t', apart t t' → ∀ w w', G t w w' → R t' w w') →
  (∀ w w', env w w' → I w → I w' ∧ ∀ t, R t w w') →
  sys_step s s' → sys_ok s → sys_ok s'.
Proof.
  intros Hstart HGR Henv Hstep (HI & Hps & Ha).
  destruct Hstep as [w ps t p Hp Hap|w w' ps1 t p p' ps2 Hstep|w ps1 p ps2|w w' ps He]; simpl in *.
  - split_and!; [done| |by apply all_apart_cons]. constructor; [|done].
    exists (λ _, True). split_and!; [done|done|by apply Hstart].
  - pose proof Hps as [Hps1 [Hp Hps2]%Forall_cons]%Forall_app.
    destruct Hp as (P & Hst & HP & Hs), Hstep as [X f k w]. simpl in *.
    destruct (Hs w HI HP) as (HI' & HG & P' & Hst' & HP' & Hk).
    split_and!; [done| |by eapply all_apart_middle].
    assert (Forall (proc_ok (f w).2) (ps1 ++ ps2)) as Hothers
      by (eapply others_ok; [done|done|done|by apply Forall_app]).
    apply Forall_app in Hothers as [H1 H2]. apply Forall_app. split; [done|]. constructor; [|done].
    by exists P'.
  - apply Forall_app in Hps as [Hps1 Hps2]. apply Forall_cons in Hps2 as [_ Hps2].
    split_and!; [done|by apply Forall_app|by eapply all_apart_remove].
  - destruct (Henv w w' He HI) as [HI' HR]. split_and!; [done| |done].
    eapply Forall_impl; [exact Hps|]. intros q. by apply proc_ok_rely.
Qed.

(** In every reachable state the invariant holds, and a process that has returned
    keeps its promise. *)
Lemma system_invariant w0 s :
  (∀ t p, may_start t p → safe I (G t) (R t) (λ _, True) p (post t)) →
  (∀ t t', apart t t' → ∀ w w', G t w w' → R t' w w') →
  (∀ w w', env w w' → I w → I w' ∧ ∀ t, R t w w') →
  I w0 → rtc sys_step (w0, []) s →
  I s.1 ∧ ∀ t a, (t, Ret a) ∈ s.2 → post t a s.1.
Proof.
  intros Hstart HGR Henv HI0 Hsteps.
  assert (sys_ok s) as (HI & Hps & _).
  { assert (sys_ok (w0, [])) as H0 by (split_and!; [done|constructor|by intros ???? _ [=]]).
    revert H0. induction Hsteps as [|s1 s2 s3 Hstep _ IH]; [done|]. intros H1. apply IH.
    by eapply sys_step_ok. }
  split; [done|]. intros t a Hin. rewrite Forall_forall in Hps.
  destruct (Hps _ Hin) as (P & _ & HP & Hs). by apply Hs.
Qed.

(** A process that is started next to others and then left alone. *)
Lemma run_steps t p ps w :
  may_start t p → Forall (λ q, apart t q.1 ∧ apart q.1 t) ps →
  ∃ p', rtc sys_step (w, ps) ((run p w).2, (t, p') :: ps) ∧
    ∀ a, (run p w).1 = Val a → p' = Ret a.
Proof.
  intros Hp Hap.
  assert (∃ p', rtc sys_step (w, (t, p) :: ps) ((run p w).2, (t, p') :: ps) ∧
    ∀ a, (run p w).1 = Val a → p' = Ret a) as (p' & Hsteps & Hret).
  { clear Hp. revert w. induction p as [a|e| |X f k IH]; intros w.
    - exists (Ret a). split; [done|]. by intros ? [= ->].
    - by exists (Raise e).
    - by exists Spin.
    - destruct (IH (f w).1 (f w).2) as (p' & Hp' & Hret). exists p'. simpl.
      pose proof (sys_act w (f w).2 [] t (Act f k) (k (f w).1) ps (pstep_act _ f k w)) as Hs.
      destruct (f w) as [r w']. simpl in *. split; [|done]. by eapply rtc_l. }
  exists p'. split; [|done]. eapply rtc_l; [by apply sys_start|exact Hsteps].
Qed.
End system.

(** More processes, fewer constraints, a wilder environment: more steps. *)
Lemma sys_step_mono {W T Id} (apart apart' : Id → Id → Prop) (may_start may_start' : Id → prog W T → Prop)
    (env env' : W → W → Prop) s s' :
  (∀ t t', apart t t' → apart' t t') → (∀ t p, may_start t p → may_start' t p) →
  (∀ w w', env w w' → env' w w') →
  rtc (sys_step apart may_start env) s s' → rtc (sys_step apart' may_start' env') s s'.
Proof.
  intros Ha Hm He. apply rtc_congruence with (f := id). intros s1 s2 Hs. cbv [id].
  destruct Hs as [w ps t p Hp Hap|w w' ps1 t p p' ps2 Hstep|w ps1 p ps2|w w' ps Hw].
  - apply sys_start; [by apply Hm|]. eapply Forall_impl; [exact Hap|]. intros q []. auto.
  - by apply sys_act.
  - apply sys_crash.
  - by apply sys_env, He.
Qed.
