(* ===== verification/Database.v ===== *)
(** * The database: schema and the SQL the sources issue

    The three tables of migrations/001_init.sql, each a finite map from its key
    columns to the record of its other columns, and the effect of the statement
    forms jobstore.py uses: [UPDATE ... SET ... WHERE ...] changes every row the
    condition selects, [changes()] counts them, [RETURNING] and [SELECT] list
    them, [INSERT] refuses a key that is taken. *)
From S2P Require Import Prelude PyStr Effects.

(** ** Schema *)

(** [jobs.status]: queued|running|assembling|done|failed *)
Inductive job_status := JQueued | JRunning | JAssembling | JDone | JFailed.

(** [job_chunks.status]: pending|running|done|failed *)
Inductive chunk_status := CPending | CRunning | CDone | CFailed.

#[export] Instance job_status_eq_dec : EqDecision job_status.
Proof. solve_decision. Defined.
#[export] Instance chunk_status_eq_dec : EqDecision chunk_status.
Proof. solve_decision. Defined.

(** A row of [documents]; the key is [doc_key]. *)
Record document := Document {
  d_file_hash : pystr;
  d_config_fp : pystr;
  d_total_pages : Z;
  d_total_chunks : Z;
  d_total_length : Z;
  d_page_size : Z;
  d_created_at : Z;
  d_expires_at : Z;
}.

(** A row of [jobs]; the key is [job_id]. *)
Record job := Job {
  j_doc_key : pystr;
  j_file_hash : pystr;
  j_url : pystr;
  j_status : job_status;
  j_total_chunks : Z;
  j_remaining_chunks : Z;
  j_use_llm : Z;
  j_error : option pystr;
  j_error_chunk : option Z;
  j_created_at : Z;
  j_updated_at : Z;
}.

(** A row of [job_chunks]; the key is UNIQUE [(job_id, chunk_index)]. *)
Record chunk := Chunk {
  c_id : Z;
  c_start_page : Z;
  c_end_page : Z;
  c_status : chunk_status;
  c_attempts : Z;
  c_available_at : Z;
  c_lease_owner : option pystr;
  c_lease_expires_at : option Z;
  c_s3_key : option pystr;
  c_last_error : option pystr;
  c_updated_at : Z;
}.

(** [db_seq] is the AUTOINCREMENT counter of [job_chunks.id]. *)
Record database := Database {
  db_documents : gmap pystr document;
  db_jobs : gmap pystr job;
  db_chunks : gmap (pystr * Z) chunk;
  db_seq : Z;
}.

Definition empty_db : database := Database ∅ ∅ ∅ 0.

Definition set_documents (f : gmap pystr document → gmap pystr document) (db : database) : database :=
  Database (f (db_documents db)) (db_jobs db) (db_chunks db) (db_seq db).
Definition set_jobs (f : gmap pystr job → gmap pystr job) (db : database) : database :=
  Database (db_documents db) (f (db_jobs db)) (db_chunks db) (db_seq db).
Definition set_chunks (f : gmap (pystr * Z) chunk → gmap (pystr * Z) chunk) (db : database) : database :=
  Database (db_documents db) (db_jobs db) (f (db_chunks db)) (db_seq db).

(** ** SQL statement forms *)
Section sql.
Context {K : Type} `{Countable K} {R : Type}.
Implicit Types (cond : K → R → bool) (m : gmap K R).

(** [UPDATE t SET row := f(row) WHERE cond] *)
Definition sql_update cond (f : R → R) m : gmap K R :=
  map_imap (λ k r, Some (if cond k r then f r else r)) m.

(** The rows [WHERE cond] selects. *)
Definition sql_where cond m : list R :=
  (map_to_list (filter (λ kr, cond kr.1 kr.2 = true) m)).*2.

(** [SELECT changes()] after an [UPDATE ... WHERE cond] *)
Definition changes cond m : nat := length (sql_where cond m).

(** [INSERT INTO t VALUES (k, r)] *)
Definition sql_insert (k : K) (r : R) m : exn + gmap K R :=
  match m !! k with
  | Some _ => inl (IntegrityError (u "UNIQUE constraint failed"))
  | None => inr (<[k := r]> m)
  end.

Lemma lookup_sql_update cond f m k :
  sql_update cond f m !! k = (λ r, if cond k r then f r else r) <$> m !! k.
Proof. unfold sql_update. rewrite map_lookup_imap. by destruct (m !! k). Qed.

(** A condition that fixes the key selects at most that row. *)
Definition at_key (k0 : K) (q : R → bool) : K → R → bool :=
  λ k r, bool_decide (k = k0) && q r.

Lemma lookup_update_at k0 q f m k :
  sql_update (at_key k0 q) f m !! k =
  if decide (k = k0) then (λ r, if q r then f r else r) <$> m !! k else m !! k.
Proof.
  rewrite lookup_sql_update. unfold at_key.
  destruct (decide (k = k0)); [by rewrite bool_decide_true|].
  rewrite bool_decide_false by done. simpl. by destruct (m !! k).
Qed.

Lemma lookup_update_at_eq k0 q f m :
  sql_update (at_key k0 q) f m !! k0 = (λ r, if q r then f r else r) <$> m !! k0.
Proof. rewrite lookup_update_at. by rewrite decide_True. Qed.

Lemma lookup_update_at_ne k0 q f m k :
  k ≠ k0 → sql_update (at_key k0 q) f m !! k = m !! k.
Proof. intros. rewrite lookup_update_at. by rewrite decide_False. Qed.

(** An update that selects its row is an insertion at the key ... *)
Lemma update_at_Some k0 q f m r :
  m !! k0 = Some r → q r = true → sql_update (at_key k0 q) f m = <[k0 := f r]> m.
Proof.
  intros Hr Hq. apply map_eq. intros k. rewrite lookup_update_at, lookup_insert.
  destruct (decide (k = k0)) as [->|Hne].
  - by rewrite Hr, decide_True; simpl; rewrite ?Hq.
  - by rewrite decide_False.
Qed.

(** ... and one that does not changes nothing. *)
Lemma update_at_None k0 q f m :
  (∀ r, m !! k0 = Some r → q r = false) → sql_update (at_key k0 q) f m = m.
Proof.
  intros Hr. apply map_eq. intros k. rewrite lookup_update_at.
  destruct (decide (k = k0)) as [->|Hne]; [|done].
  destruct (m !! k0) as [r|] eqn:E; [|done]. simpl. by rewrite (Hr r).
Qed.

Lemma where_at_Some k0 q m r :
  m !! k0 = Some r → q r = true → sql_where (at_key k0 q) m = [r].
Proof.
  intros Hr Hq. unfold sql_where.
  assert (filter (λ kr : K * R, at_key k0 q kr.1 kr.2 = true) m = {[k0 := r]}) as ->;
    [|by rewrite map_to_list_singleton].
  apply map_eq. intros k. apply option_eq. intros r'.
  rewrite map_lookup_filter_Some, lookup_singleton_Some. unfold at_key; simpl.
  rewrite andb_true_iff, bool_decide_eq_true. naive_solver.
Qed.

Lemma where_at_None k0 q m :
  (∀ r, m !! k0 = Some r → q r = false) → sql_where (at_key k0 q) m = [].
Proof.
  intros Hr. unfold sql_where.
  assert (filter (λ kr : K * R, at_key k0 q kr.1 kr.2 = true) m = ∅) as ->;
    [|by rewrite map_to_list_empty].
  apply map_empty_filter_2. intros k r Hkr. unfold at_key; simpl.
  rewrite andb_true_iff, bool_decide_eq_true. intros [-> Hq].
  by rewrite (Hr r) in Hq.
Qed.

Lemma dom_sql_update cond f m : dom (sql_update cond f m) = dom m.
Proof.
  apply set_eq. intros k. rewrite !elem_of_dom, lookup_sql_update.
  destruct (m !! k); simpl; split; intros [? ?]; try done; eauto.
Qed.
End sql.
