(* ===== verification/World.v ===== *)
(** * The world the program runs in

    Third-party services and libraries are parameters: an object store and a
    message broker are types with the operations the sources call, and the laws
    the sources rely on are separate classes ([ObjectStoreLaws], [BrokerLaws]).
    A [world] is one state of everything outside the Python processes: clock,
    database, object store, broker, the files of each host, and the scripts of
    faults that the three services will suffer. *)
From S2P Require Import Prelude PyStr Effects Database.

(** ** Object storage (S3) *)
Class ObjectStore (S : Type) := {
  s3_get : pystr → S → option bytes;
  s3_put : pystr → bytes → S → S;
  s3_bucket : S → bool;               (** the configured bucket exists *)
  s3_create_bucket : S → S;
}.

(** Strong read-after-write consistency; keys are independent; creating the
    bucket makes it exist and puts nothing in it. *)
Class ObjectStoreLaws (S : Type) `{ObjectStore S} : Prop := {
  s3_get_put : ∀ k d s, s3_get k (s3_put k d s) = Some d;
  s3_get_put_ne : ∀ k k' d s, k ≠ k' → s3_get k' (s3_put k d s) = s3_get k' s;
  s3_bucket_put : ∀ k d s, s3_bucket (s3_put k d s) = s3_bucket s;
  s3_bucket_create : ∀ s, s3_bucket (s3_create_bucket s) = true;
  s3_get_create : ∀ k s, s3_get k (s3_create_bucket s) = s3_get k s;
}.

(** ** Message broker (AMQP) *)

(** The arguments of a queue declaration the sources use. *)
Record queue_args := QueueArgs {
  qa_dead_letter_exchange : option pystr;
  qa_dead_letter_routing_key : option pystr;
  qa_message_ttl : option Z;
}.

(** [mq_messages q] are the messages waiting on queue [q], oldest first;
    [mq_unacked tag] is the message delivered under [tag] and not yet
    acknowledged, with its queue; [mq_bound ex key q] says whether [q] is bound
    to the direct exchange [ex] under [key]; [mq_expire q] is the expiry of the
    TTL of the oldest message; [mq_requeue tag] is what the broker does when the
    consumer's channel closes before the acknowledgement. *)
Class Broker (B : Type) := {
  mq_exchange_declare : pystr → B → B;
  mq_queue_declare : pystr → queue_args → B → B;
  mq_queue_bind : pystr → pystr → pystr → B → B;
  mq_basic_publish : pystr → pystr → bytes → B → B;
  mq_deliver : pystr → B → option (Z * bytes) * B;
  mq_ack : Z → B → B;
  mq_requeue : Z → B → B;
  mq_expire : pystr → B → B;
  mq_unacked : Z → B → option (pystr * bytes);
  mq_messages : pystr → B → list bytes;
  mq_args : pystr → B → option queue_args;
  mq_bound : pystr → pystr → pystr → B → bool;
}.

(** What RabbitMQ documents of direct exchanges, idempotent declaration and
    dead-lettering on TTL expiry. *)
Class BrokerLaws (B : Type) `{Broker B} : Prop := {
  mq_bound_bind : ∀ q ex key ex' key' q' b,
    mq_bound ex' key' q' (mq_queue_bind q ex key b) =
    bool_decide ((ex', key', q') = (ex, key, q)) || mq_bound ex' key' q' b;
  mq_bound_exchange : ∀ x ex key q b, mq_bound ex key q (mq_exchange_declare x b) = mq_bound ex key q b;
  mq_bound_queue : ∀ x a ex key q b, mq_bound ex key q (mq_queue_declare x a b) = mq_bound ex key q b;
  mq_bound_publish : ∀ x y d ex key q b, mq_bound ex key q (mq_basic_publish x y d b) = mq_bound ex key q b;
  mq_args_declare : ∀ q a q' b, mq_args q' (mq_queue_declare q a b) =
    if decide (q' = q) then Some (default a (mq_args q b)) else mq_args q' b;
  mq_args_exchange : ∀ x q b, mq_args q (mq_exchange_declare x b) = mq_args q b;
  mq_args_bind : ∀ x y z q b, mq_args q (mq_queue_bind x y z b) = mq_args q b;
  mq_args_publish : ∀ x y d q b, mq_args q (mq_basic_publish x y d b) = mq_args q b;
  mq_messages_exchange : ∀ x q b, mq_messages q (mq_exchange_declare x b) = mq_messages q b;
  mq_messages_queue : ∀ x a q b, mq_messages q (mq_queue_declare x a b) = mq_messages q b;
  mq_messages_bind : ∀ x y z q b, mq_messages q (mq_queue_bind x y z b) = mq_messages q b;
  mq_messages_publish : ∀ ex key d q b,
    mq_messages q (mq_basic_publish ex key d b) =
    mq_messages q b ++ (if mq_bound ex key q b then [d] else []);
  mq_unacked_publish : ∀ x y d tag b, mq_unacked tag (mq_basic_publish x y d b) = mq_unacked tag b;
  mq_unacked_exchange : ∀ x tag b, mq_unacked tag (mq_exchange_declare x b) = mq_unacked tag b;
  mq_unacked_queue : ∀ x a tag b, mq_unacked tag (mq_queue_declare x a b) = mq_unacked tag b;
  mq_unacked_bind : ∀ x y z tag b, mq_unacked tag (mq_queue_bind x y z b) = mq_unacked tag b;
  mq_deliver_spec : ∀ q b,
    match mq_messages q b with
    | [] => mq_deliver q b = (None, b)
    | d :: rest => ∃ tag b', mq_deliver q b = (Some (tag, d), b') ∧
        mq_unacked tag b = None ∧ mq_unacked tag b' = Some (q, d) ∧
        mq_messages q b' = rest ∧ (∀ q', q' ≠ q → mq_messages q' b' = mq_messages q' b) ∧
        (∀ tag', tag' ≠ tag → mq_unacked tag' b' = mq_unacked tag' b) ∧
        (∀ ex key q', mq_bound ex key q' b' = mq_bound ex key q' b) ∧
        (∀ q', mq_args q' b' = mq_args q' b)
    end;
  mq_bound_ack : ∀ tag ex key q b, mq_bound ex key q (mq_ack tag b) = mq_bound ex key q b;
  mq_messages_ack : ∀ tag q b, mq_messages q (mq_ack tag b) = mq_messages q b;
  mq_unacked_ack : ∀ tag tag' b, mq_unacked tag' (mq_ack tag b) =
    if decide (tag' = tag) then None else mq_unacked tag' b;
  mq_messages_requeue : ∀ tag q d b, mq_unacked tag b = Some (q, d) →
    mq_messages q (mq_requeue tag b) = d :: mq_messages q b;
  mq_expire_spec : ∀ q ex key ttl d rest b,
    mq_args q b = Some (QueueArgs (Some ex) (Some key) (Some ttl)) →
    mq_messages q b = d :: rest → mq_bound ex key q b = false →
    mq_messages q (mq_expire q b) = rest ∧
    ∀ q', q' ≠ q →
      mq_messages q' (mq_expire q b) =
      mq_messages q' b ++ (if mq_bound ex key q' b then [d] else []);
}.

(** ** The world *)
Record file := File { f_data : bytes; f_atime : Z }.

Record world (S B : Type) := World {
  w_clock : Z;
  w_db : database;
  w_s3 : S;
  w_mq : B;
  w_files : gmap (pystr * pystr) file;   (** by host and path *)
  w_db_open : gset pystr;   (** hosts holding a database connection *)
  w_migrated : gset pystr;   (** hosts that have applied the migrations *)
  w_mq_open : gset pystr;   (** hosts holding an open broker connection *)
  w_stop : gset pystr;   (** hosts asked to stop (SIGTERM, SIGINT) *)
  w_db_faults : list fault;
  w_s3_faults : list fault;
  w_mq_faults : list fault;
}.
Arguments World {S B}.
Arguments w_clock {S B}.
Arguments w_db {S B}.
Arguments w_s3 {S B}.
Arguments w_mq {S B}.
Arguments w_files {S B}.
Arguments w_db_open {S B}.
Arguments w_migrated {S B}.
Arguments w_mq_open {S B}.
Arguments w_stop {S B}.
Arguments w_db_faults {S B}.
Arguments w_s3_faults {S B}.
Arguments w_mq_faults {S B}.

Section world.
Context {S B : Type}.
#[local] Abbreviation world := (world S B).

Definition set_db (db : database) (fs : list fault) (w : world) : world :=
  World (w_clock w) db (w_s3 w) (w_mq w) (w_files w) (w_db_open w) (w_migrated w) (w_mq_open w) (w_stop w) fs (w_s3_faults w) (w_mq_faults w).
Definition set_s3 (s : S) (fs : list fault) (w : world) : world :=
  World (w_clock w) (w_db w) s (w_mq w) (w_files w) (w_db_open w) (w_migrated w) (w_mq_open w) (w_stop w) (w_db_faults w) fs (w_mq_faults w).
Definition set_mq (b : B) (fs : list fault) (w : world) : world :=
  World (w_clock w) (w_db w) (w_s3 w) b (w_files w) (w_db_open w) (w_migrated w) (w_mq_open w) (w_stop w) (w_db_faults w) (w_s3_faults w) fs.
Definition set_files (fs : gmap (pystr * pystr) file) (w : world) : world :=
  World (w_clock w) (w_db w) (w_s3 w) (w_mq w) fs (w_db_open w) (w_migrated w) (w_mq_open w) (w_stop w) (w_db_faults w) (w_s3_faults w) (w_mq_faults w).
Definition set_db_open (hs : gset pystr) (w : world) : world :=
  World (w_clock w) (w_db w) (w_s3 w) (w_mq w) (w_files w) hs (w_migrated w) (w_mq_open w) (w_stop w) (w_db_faults w) (w_s3_faults w) (w_mq_faults w).
Definition set_migrated (hs : gset pystr) (w : world) : world :=
  World (w_clock w) (w_db w) (w_s3 w) (w_mq w) (w_files w) (w_db_open w) hs (w_mq_open w) (w_stop w) (w_db_faults w) (w_s3_faults w) (w_mq_faults w).
Definition set_mq_open (hs : gset pystr) (w : world) : world :=
  World (w_clock w) (w_db w) (w_s3 w) (w_mq w) (w_files w) (w_db_open w) (w_migrated w) hs (w_stop w) (w_db_faults w) (w_s3_faults w) (w_mq_faults w).
Definition set_stop (hs : gset pystr) (w : world) : world :=
  World (w_clock w) (w_db w) (w_s3 w) (w_mq w) (w_files w) (w_db_open w) (w_migrated w) (w_mq_open w) hs (w_db_faults w) (w_s3_faults w) (w_mq_faults w).

(** No service is going to fail. *)
Definition healthy (w : world) : Prop :=
  w_db_faults w = [] ∧ w_s3_faults w = [] ∧ w_mq_faults w = [].

(** ** Atomic actions *)

(** [int(time.time())] *)
Definition clock : prog world Z := act (λ w, (w_clock w, w)).

(** One database transaction (or one autocommitted statement).  A statement
    that raises leaves the database as it was: the transaction is rolled back. *)
Definition db_call {R} (f : database → exn + R * database) : prog world R :=
  io (λ w, let '(flt, fs) := pop_fault (w_db_faults w) in
           let '(r, x) := serve flt f (w_db w) in (r, set_db x fs w)).

(** A call to the object store. *)
Definition s3_call {R} (f : S → exn + R * S) : prog world R :=
  io (λ w, let '(flt, fs) := pop_fault (w_s3_faults w) in
           let '(r, x) := serve flt f (w_s3 w) in (r, set_s3 x fs w)).

(** A call to the broker. *)
Definition mq_call {R} (f : B → exn + R * B) : prog world R :=
  io (λ w, let '(flt, fs) := pop_fault (w_mq_faults w) in
           let '(r, x) := serve flt f (w_mq w) in (r, set_mq x fs w)).

(** ** Running a call in a healthy world *)
Lemma run_db_call {R} (f : database → exn + R * database) w :
  w_db_faults w = [] →
  run (db_call f) w = match f (w_db w) with
                      | inl e => (Exc e, w)
                      | inr (r, x) => (Val r, set_db x [] w)
                      end.
Proof.
  intros Hf. unfold db_call. rewrite run_io, Hf. simpl.
  destruct (f (w_db w)) as [e|[r x]]; [|done]. destruct w; simpl in *; by subst.
Qed.

Lemma run_s3_call {R} (f : S → exn + R * S) w :
  w_s3_faults w = [] →
  run (s3_call f) w = match f (w_s3 w) with
                      | inl e => (Exc e, w)
                      | inr (r, x) => (Val r, set_s3 x [] w)
                      end.
Proof.
  intros Hf. unfold s3_call. rewrite run_io, Hf. simpl.
  destruct (f (w_s3 w)) as [e|[r x]]; [|done]. destruct w; simpl in *; by subst.
Qed.

Lemma run_mq_call {R} (f : B → exn + R * B) w :
  w_mq_faults w = [] →
  run (mq_call f) w = match f (w_mq w) with
                      | inl e => (Exc e, w)
                      | inr (r, x) => (Val r, set_mq x [] w)
                      end.
Proof.
  intros Hf. unfold mq_call. rewrite run_io, Hf. simpl.
  destruct (f (w_mq w)) as [e|[r x]]; [|done]. destruct w; simpl in *; by subst.
Qed.

(** ** What a call guarantees, whatever its fault *)
Lemma guarantee_db_call {R} (G : world → world → Prop) (f : database → exn + R * database) :
  (∀ w fs, G w (set_db (w_db w) fs w)) →
  (∀ w fs r db, f (w_db w) = inr (r, db) → G w (set_db db fs w)) → guarantee G (db_call f).
Proof.
  intros Hid Hf. apply guarantee_io. intros w. destruct (pop_fault (w_db_faults w)) as [flt fs].
  unfold serve. destruct flt, (f (w_db w)) as [e'|[r db]] eqn:E; simpl; eauto.
Qed.

Lemma guarantee_s3_call {R} (G : world → world → Prop) (f : S → exn + R * S) :
  (∀ w fs, G w (set_s3 (w_s3 w) fs w)) →
  (∀ w fs r s, f (w_s3 w) = inr (r, s) → G w (set_s3 s fs w)) → guarantee G (s3_call f).
Proof.
  intros Hid Hf. apply guarantee_io. intros w. destruct (pop_fault (w_s3_faults w)) as [flt fs].
  unfold serve. destruct flt, (f (w_s3 w)) as [e'|[r s]] eqn:E; simpl; eauto.
Qed.

Lemma guarantee_mq_call {R} (G : world → world → Prop) (f : B → exn + R * B) :
  (∀ w fs, G w (set_mq (w_mq w) fs w)) →
  (∀ w fs r b, f (w_mq w) = inr (r, b) → G w (set_mq b fs w)) → guarantee G (mq_call f).
Proof.
  intros Hid Hf. apply guarantee_io. intros w. destruct (pop_fault (w_mq_faults w)) as [flt fs].
  unfold serve. destruct flt, (f (w_mq w)) as [e'|[r b]] eqn:E; simpl; eauto.
Qed.

Lemma run_clock w : run clock w = (Val (w_clock w), w).
Proof. done. Qed.
End world.

(** ** Concrete services, for running the model *)

(** An object store whose objects are a map. *)
Record map_store := MapStore { ms_bucket : bool; ms_objects : gmap pystr bytes }.

#[export] Instance map_store_ops : ObjectStore map_store := {
  s3_get k s := ms_objects s !! k;
  s3_put k d s := MapStore (ms_bucket s) (<[k := d]> (ms_objects s));
  s3_bucket := ms_bucket;
  s3_create_bucket s := MapStore true (ms_objects s);
}.

#[export] Instance map_store_laws : ObjectStoreLaws map_store.
Proof.
  split; simpl; try done.
  - intros. apply lookup_insert_eq.
  - intros. by apply lookup_insert_ne.
Qed.

(** A broker that keeps its bindings and queues in maps. *)
Record map_broker := MapBroker {
  mb_bindings : gset (pystr * pystr * pystr);
  mb_args : gmap pystr queue_args;
  mb_queues : pystr → list bytes;
  mb_unacked : gmap Z (pystr * bytes);
}.

Definition mb_route (ex key : pystr) (d : bytes) (b : map_broker) : map_broker :=
  MapBroker (mb_bindings b) (mb_args b)
    (λ q, mb_queues b q ++ (if bool_decide ((ex, key, q) ∈ mb_bindings b) then [d] else []))
    (mb_unacked b).

Definition mb_set_queue (q : pystr) (ms : list bytes) (b : map_broker) : map_broker :=
  MapBroker (mb_bindings b) (mb_args b)
    (λ q', if decide (q' = q) then ms else mb_queues b q') (mb_unacked b).

Definition mb_set_unacked (un : gmap Z (pystr * bytes)) (b : map_broker) : map_broker :=
  MapBroker (mb_bindings b) (mb_args b) (mb_queues b) un.

Definition empty_broker : map_broker := MapBroker ∅ ∅ (λ _, []) ∅.

#[export] Instance map_broker_ops : Broker map_broker := {
  mq_exchange_declare _ b := b;
  mq_queue_declare q a b :=
    MapBroker (mb_bindings b) (<[q := default a (mb_args b !! q)]> (mb_args b)) (mb_queues b)
      (mb_unacked b);
  mq_queue_bind q ex key b :=
    MapBroker ({[(ex, key, q)]} ∪ mb_bindings b) (mb_args b) (mb_queues b) (mb_unacked b);
  mq_basic_publish ex key d b := mb_route ex key d b;
  mq_deliver q b :=
    match mb_queues b q with
    | [] => (None, b)
    | d :: rest =>
        let tag := fresh (dom (mb_unacked b)) in
        (Some (tag, d), mb_set_unacked (<[tag := (q, d)]> (mb_unacked b)) (mb_set_queue q rest b))
    end;
  mq_ack tag b := mb_set_unacked (delete tag (mb_unacked b)) b;
  mq_requeue tag b :=
    match mb_unacked b !! tag with
    | Some (q, d) => mb_set_unacked (delete tag (mb_unacked b)) (mb_set_queue q (d :: mb_queues b q) b)
    | None => b
    end;
  mq_expire q b :=
    match mb_args b !! q, mb_queues b q with
    | Some (QueueArgs (Some ex) (Some key) _), d :: rest =>
        mb_route ex key d (mb_set_queue q rest b)
    | _, _ => b
    end;
  mq_unacked tag b := mb_unacked b !! tag;
  mq_messages q b := mb_queues b q;
  mq_args q b := mb_args b !! q;
  mq_bound ex key q b := bool_decide ((ex, key, q) ∈ mb_bindings b);
}.

#[export] Instance map_broker_laws : BrokerLaws map_broker.
Proof.
  split; simpl; try done.
  - intros. rewrite <-bool_decide_or. apply bool_decide_ext. set_solver.
  - intros. rewrite lookup_insert. repeat case_decide; congruence.
  - intros q b. destruct (mb_queues b q) as [|d rest]; [done|].
    eexists _, _. split; [done|]. simpl. split_and!; try done.
    + apply not_elem_of_dom, is_fresh.
    + apply lookup_insert_eq.
    + by rewrite decide_True.
    + intros q' Hq. by rewrite decide_False.
    + intros tag' Hne. by rewrite lookup_insert_ne.
  - intros. rewrite lookup_delete. repeat case_decide; congruence.
  - intros tag q d b ->. simpl. by rewrite decide_True.
  - intros q ex key ttl d rest b Ha Hm Hb. rewrite Ha, Hm. simpl. split.
    + by rewrite decide_True, Hb, app_nil_r.
    + intros q' Hq. by rewrite decide_False.
Qed.
