(* ===== verification/Db.v ===== *)
(** * Database access (db.py)

    The cached connection of a process, the migrations, and the three ways a
    statement reaches the database: [query] and [execute] run one statement and
    reopen a stale connection once; [transaction] pings first and then runs its
    block exactly as far as the connection allows.  A host stands for one thread
    of one process.  The tables of the model exist from the start: the
    migrations only create what does not exist yet, so executing one changes no
    row. *)
From S2P Require Import Prelude PyStr Effects Database World.

(** ** Result rows *)

(** [d[k] = v] *)
Fixpoint dict_set {V} (k : pystr) (v : V) (d : list (pystr * V)) : list (pystr * V) :=
  match d with
  | [] => [(k, v)]
  | (k', v') :: d => if bool_decide (k' = k) then (k, v) :: d else (k', v') :: dict_set k v d
  end.

(** [dict(pairs)]: a later pair replaces the value of an earlier one. *)
Definition dict_of {V} (pairs : list (pystr * V)) : list (pystr * V) :=
  fold_left (λ d kv, dict_set kv.1 kv.2 d) pairs [].

(** The cursor of a statement: its columns, unless it has no result set, and what
    [fetchall] returns (libsql: [None] when no row matched). *)
Definition rows_to_dicts {V} (description : option (list pystr)) (fetched : option (list (list V)))
    : list (list (pystr * V)) :=
  match description, fetched with
  | Some columns, Some rows => (λ row, dict_of (zip columns row)) <$> rows
  | _, _ => []
  end.

(** ** Choice of driver *)
Inductive driver :=
| Libsql (url : pystr) (auth_token : option pystr)
| SqliteShared                                      (** the shared in-memory database *)
| Sqlite (path : pystr).

#[export] Instance driver_eq_dec : EqDecision driver.
Proof. solve_decision. Defined.

(** [bool(s)] of an optional string *)
Definition truthy (s : option pystr) : bool :=
  match s with Some (_ :: _) => true | _ => false end.

Definition uses_libsql (url : pystr) (token : option pystr) : bool :=
  startswith (u "libsql://") url || startswith (u "http://") url ||
  startswith (u "https://") url || truthy token.

Definition strip_file (url : pystr) : pystr :=
  if startswith (u "file:") url then slice_from url (len (u "file:")) else url.

Definition connect_libsql (url : pystr) (token : option pystr) : driver :=
  Libsql (strip_file url) (if truthy token then token else None).

Definition connect_sqlite (url : pystr) : driver :=
  let url := strip_file url in
  if bool_decide (url = u ":memory:") then SqliteShared else Sqlite url.

Definition connect_driver (url : pystr) (token : option pystr) : driver :=
  if uses_libsql url token then connect_libsql url token else connect_sqlite url.

(** ** Migrations *)
Definition split_statements (sql : pystr) : list pystr :=
  let without_comments :=
    join [nl] ((λ line, default [] (head (split (u "--") line))) <$> splitlines sql) in
  filter (λ s, s ≠ []) (strip <$> split (u ";") without_comments).

(** migrations/001_init.sql, line by line. *)
Definition init_sql : pystr :=
  join [nl] [
    u "-- Documents that have been fully converted, keyed by content hash + config";
    u "-- fingerprint. A hit here means a re-submitted file needs no work at all.";
    u "CREATE TABLE IF NOT EXISTS documents (";
    u "  doc_key      TEXT PRIMARY KEY,";
    u "  file_hash    TEXT NOT NULL,";
    u "  config_fp    TEXT NOT NULL,";
    u "  total_pages  INTEGER NOT NULL,";
    u "  total_chunks INTEGER NOT NULL,";
    u "  total_length INTEGER NOT NULL,";
    u "  page_size    INTEGER NOT NULL,";
    u "  created_at   INTEGER NOT NULL,";
    u "  expires_at   INTEGER NOT NULL";
    u ");";
    u "";
    u "CREATE INDEX IF NOT EXISTS idx_documents_expires ON documents(expires_at);";
    u "";
    u "CREATE TABLE IF NOT EXISTS jobs (";
    u "  job_id           TEXT PRIMARY KEY,";
    u "  doc_key          TEXT NOT NULL,";
    u "  file_hash        TEXT NOT NULL,";
    u "  url              TEXT NOT NULL,";
    u "  status           TEXT NOT NULL,   -- queued|running|assembling|done|failed";
    u "  total_chunks     INTEGER NOT NULL,";
    u "  remaining_chunks INTEGER NOT NULL,";
    u "  use_llm          INTEGER NOT NULL,";
    u "  error            TEXT,";
    u "  error_chunk      INTEGER,";
    u "  created_at       INTEGER NOT NULL,";
    u "  updated_at       INTEGER NOT NULL";
    u ");";
    u "";
    u "CREATE INDEX IF NOT EXISTS idx_jobs_doc_key ON jobs(doc_key);";
    u "";
    u "-- This table is the work queue. Claiming is a single atomic UPDATE, and";
    u "-- because SQLite serialises writers two workers can never claim the same row.";
    u "--";
    u "-- Retry, crash recovery, backoff and dead-lettering all fall out of three";
    u "-- columns: attempts (incremented at claim time so an OOM-killed worker still";
    u "-- burns an attempt), available_at (backoff gate) and lease_expires_at (a lease";
    u "-- that stops being renewed is a worker that died).";
    u "CREATE TABLE IF NOT EXISTS job_chunks (";
    u "  id               INTEGER PRIMARY KEY AUTOINCREMENT,";
    u "  job_id           TEXT NOT NULL,";
    u "  chunk_index      INTEGER NOT NULL,";
    u "  start_page       INTEGER NOT NULL,";
    u "  end_page         INTEGER NOT NULL,  -- exclusive; -1 means " ++ [34] ++ u "the whole file" ++ [34] ++ u "";
    u "  status           TEXT NOT NULL,     -- pending|running|done|failed";
    u "  attempts         INTEGER NOT NULL DEFAULT 0,";
    u "  available_at     INTEGER NOT NULL,";
    u "  lease_owner      TEXT,";
    u "  lease_expires_at INTEGER,";
    u "  s3_key           TEXT,";
    u "  last_error       TEXT,";
    u "  updated_at       INTEGER NOT NULL,";
    u "  UNIQUE (job_id, chunk_index)";
    u ");";
    u "";
    u "CREATE INDEX IF NOT EXISTS idx_chunks_claim";
    u "  ON job_chunks(status, available_at, lease_expires_at);";
    u "";
    u "CREATE INDEX IF NOT EXISTS idx_chunks_job ON job_chunks(job_id, chunk_index);";
    []].

(** The directory migrations/. *)
Definition MIGRATIONS_DIR : list (pystr * pystr) := [(u "001_init.sql", init_sql)].

Definition name_le (f g : pystr * pystr) : Prop := str_leb f.1 g.1 = true.

#[export] Instance name_le_dec f g : Decision (name_le f g).
Proof. unfold name_le. apply _. Defined.

Definition migration_files (dir : list (pystr * pystr)) : list (pystr * pystr) :=
  filter (λ f, endswith (u ".sql") f.1 = true)
    (merge_sort name_le dir).

(** ** Stale connections *)
Definition STALE_CONNECTION_MARKERS : list pystr :=
  [u "stream handle"; u "stream is closed"; u "stream not found";
   u "connection reset"; u "connection closed"; u "broken pipe"].

Definition is_stale_connection (e : exn) : bool :=
  let message := lower (exn_str e) in
  existsb (λ marker, contains marker message) STALE_CONNECTION_MARKERS.

Section db.
Context {S B : Type} (host : pystr).
#[local] Abbreviation world := (world S B).

(** [get_connection]: the cached connection, or a new one. *)
Definition get_connection : prog world unit :=
  cached ← act (λ w, (bool_decide (host ∈ w_db_open w), w));
  if cached : bool then mret tt
  else
    _ ← db_call (λ db, inr (tt, db));
    act (λ w, (tt, set_db_open ({[host]} ∪ w_db_open w) w)).

Definition close_connection : prog world unit :=
  act (λ w, (tt, set_db_open (w_db_open w ∖ {[host]}) w)).

Definition migrate : prog world unit :=
  migrated ← act (λ w, (bool_decide (host ∈ w_migrated w), w));
  if migrated : bool then mret tt
  else
    _ ← get_connection;
    _ ← for_each (λ f, for_each (λ statement, db_call (λ db, inr (tt, db)))
                         (split_statements f.2)) (migration_files MIGRATIONS_DIR);
    _ ← db_call (λ db, inr (tt, db));
    act (λ w, (tt, set_migrated ({[host]} ∪ w_migrated w) w)).

Definition reset : prog world unit :=
  _ ← close_connection;
  act (λ w, (tt, set_migrated (w_migrated w ∖ {[host]}) w)).

Definition ensure_ready : prog world unit :=
  migrated ← act (λ w, (bool_decide (host ∈ w_migrated w), w));
  if migrated : bool then mret tt else migrate.

(** [_run]: the statement, and a second try on a fresh connection when the
    first one fails with a stale-connection error. *)
Definition run_sql {R} (f : database → exn + R * database) : prog world R :=
  _ ← ensure_ready;
  _ ← get_connection;
  r ← attempt (db_call f);
  match r with
  | inr rows => mret rows
  | inl e =>
      if is_stale_connection e then
        _ ← close_connection;
        _ ← get_connection;
        db_call f
      else Raise e
  end.

Definition query {R} (f : database → list R) : prog world (list R) :=
  run_sql (λ db, inr (f db, db)).

Definition query_one {R} (f : database → list R) : prog world (option R) :=
  rows ← query f; mret (head rows).

Definition execute (f : database → database) : prog world unit :=
  run_sql (λ db, inr (tt, f db)).

(** [with transaction() as conn: ...].  The statements of the block are sent over
    the connection, each of which may fail, and [commit] makes their effect visible
    as a whole; on any exception the block is rolled back, a failure of the rollback
    is logged, and the exception goes on.  What was not committed is never visible:
    the server drops it when it is rolled back or when the connection is gone. *)
Definition transaction {R} (f : database → exn + R * database) : prog world R :=
  _ ← ensure_ready;
  _ ← query (λ _, [1]);
  _ ← get_connection;
  r ← attempt (
    _ ← db_call (λ db, match f db with inl e => inl e | inr _ => inr (tt, db) end);
    db_call f);                                       (* commit *)
  match r with
  | inr a => mret a
  | inl e =>
      _ ← attempt (db_call (λ db, inr (tt, db)));     (* rollback *)
      Raise e
  end.

Definition health : prog world bool :=
  r ← attempt (query (λ _, [1]));
  mret (match r with inl _ => false | inr _ => true end).
End db.

(** ** The migrations *)

(** Every statement that [migrate] executes is a [CREATE ... IF NOT EXISTS]:
    the one file of the directory splits into seven statements, and the
    semicolon inside the comment of [end_page] cuts none of them, so applying the
    migrations again from another process changes nothing. *)
Theorem migrations_idempotent :
  length (concat ((λ f, split_statements f.2) <$> migration_files MIGRATIONS_DIR)) = 7%nat ∧
  Forall (λ s, startswith (u "CREATE TABLE IF NOT EXISTS ") s ||
               startswith (u "CREATE INDEX IF NOT EXISTS ") s = true ∧
               contains (u "--") s = false ∧
               endswith (u ")") s = true)
    (concat ((λ f, split_statements f.2) <$> migration_files MIGRATIONS_DIR)).
Proof. split; [vm_compute; reflexivity|]. vm_compute. repeat constructor. Qed.

(** ** Statements under faults *)
Section proofs.
Context {S B : Type} (host : pystr).
#[local] Abbreviation world := (world S B).
Implicit Types (w : world).

(** A process that has booted, talking to a database that works. *)
Definition db_ready w : Prop :=
  w_db_faults w = [] ∧ host ∈ w_db_open w ∧ host ∈ w_migrated w.

Lemma run_get_connection_open w :
  host ∈ w_db_open w → run (get_connection host) w = (Val tt, w).
Proof. intros Ho. unfold get_connection. run_simpl. simpl. by rewrite bool_decide_true. Qed.

Lemma run_ensure_ready_migrated w :
  host ∈ w_migrated w → run (ensure_ready host) w = (Val tt, w).
Proof. intros Ho. unfold ensure_ready. run_simpl. simpl. by rewrite bool_decide_true. Qed.

Lemma run_sql_ready {R} (f : database → exn + R * database) w r db :
  db_ready w → f (w_db w) = inr (r, db) →
  run (run_sql host f) w = (Val r, set_db db [] w).
Proof.
  intros (Hf & Ho & Hm) Hr. unfold run_sql.
  rewrite run_bind, run_ensure_ready_migrated by done.
  rewrite run_bind, run_get_connection_open by done.
  rewrite run_bind, run_attempt, run_db_call by done. by rewrite Hr.
Qed.

Lemma run_query {R} (f : database → list R) w :
  db_ready w → run (query host f) w = (Val (f (w_db w)), set_db (w_db w) [] w).
Proof. intros. by apply run_sql_ready. Qed.

Lemma run_execute f w :
  db_ready w → run (execute host f) w = (Val tt, set_db (f (w_db w)) [] w).
Proof. intros. by apply run_sql_ready. Qed.

Lemma db_ready_set_db db w : db_ready w → db_ready (set_db db [] w).
Proof. by intros (? & ? & ?). Qed.

Lemma run_transaction {R} (f : database → exn + R * database) w :
  db_ready w →
  run (transaction host f) w =
  match f (w_db w) with
  | inl e => (Exc e, set_db (w_db w) [] w)
  | inr (r, db) => (Val r, set_db db [] w)
  end.
Proof.
  intros Hw. unfold transaction.
  rewrite run_bind, run_ensure_ready_migrated by apply Hw.
  rewrite run_bind, run_query by done.
  rewrite run_bind, run_get_connection_open by (simpl; apply Hw).
  rewrite run_bind, run_attempt, run_bind, run_db_call by done. cbn [w_db set_db].
  destruct (f (w_db w)) as [e|[r db]] eqn:Hf; cbv beta iota; [done|].
  rewrite run_db_call by done. cbn [w_db set_db]. by rewrite Hf.
Qed.

(** Bookkeeping that is not the statement itself leaves the tables alone. *)
Lemma db_frame_call {R} (f : database → exn + R * database) :
  (∀ db r db', f db = inr (r, db') → db' = db) →
  guarantee (λ w w' : world, w_db w' = w_db w) (db_call f).
Proof. intros Hf. apply guarantee_db_call; [done|]. intros w fs r db Hr. by apply Hf in Hr. Qed.

Lemma db_frame_get_connection : guarantee (λ w w' : world, w_db w' = w_db w) (get_connection host).
Proof.
  apply guarantee_bind; [by apply guarantee_act|]. intros [|]; [done|].
  apply guarantee_bind; [apply db_frame_call; naive_solver|]. intros _. by apply guarantee_act.
Qed.

Lemma db_frame_ensure_ready : guarantee (λ w w' : world, w_db w' = w_db w) (ensure_ready host).
Proof.
  assert (∀ xs : list pystr, guarantee (λ w w' : world, w_db w' = w_db w)
    (for_each (λ _, db_call (λ db, inr (tt, db))) xs)) as Hstmts.
  { intros xs. apply guarantee_for_each. intros _. apply db_frame_call. naive_solver. }
  apply guarantee_bind; [by apply guarantee_act|]. intros [|]; [done|].
  apply guarantee_bind; [by apply guarantee_act|]. intros [|]; [done|].
  apply guarantee_bind; [apply db_frame_get_connection|]. intros _.
  apply guarantee_bind; [by apply guarantee_for_each|]. intros _.
  apply guarantee_bind; [apply db_frame_call; naive_solver|]. intros _. by apply guarantee_act.
Qed.

Lemma db_frame_run_sql {R} (f : database → exn + R * database) :
  (∀ db r db', f db = inr (r, db') → db' = db) →
  guarantee (λ w w' : world, w_db w' = w_db w) (run_sql host f).
Proof.
  intros Hf.
  apply guarantee_bind; [apply db_frame_ensure_ready|]. intros _.
  apply guarantee_bind; [apply db_frame_get_connection|]. intros _.
  apply guarantee_bind; [by apply guarantee_attempt, db_frame_call|]. intros [e|r]; [|done].
  destruct (is_stale_connection e); [|done].
  apply guarantee_bind; [by apply guarantee_act|]. intros _.
  apply guarantee_bind; [apply db_frame_get_connection|]. intros _. by apply db_frame_call.
Qed.

Lemma db_frame_query {R} (f : database → list R) :
  guarantee (λ w w' : world, w_db w' = w_db w) (query host f).
Proof. apply db_frame_run_sql. naive_solver. Qed.

Lemma run_db_call_cases {R} (f : database → exn + R * database) w :
  w_db (run (db_call f) w).2 = w_db w ∧ (∀ r, (run (db_call f) w).1 ≠ Val r) ∨
  ∃ r, f (w_db w) = inr (r, w_db (run (db_call f) w).2) ∧
       ((run (db_call f) w).1 = Val r ∨ ∃ e, (run (db_call f) w).1 = Exc e).
Proof.
  unfold db_call. rewrite run_io. destruct (pop_fault (w_db_faults w)) as [flt fs].
  unfold serve. destruct flt, (f (w_db w)) as [e'|[r db]] eqn:E; simpl; naive_solver.
Qed.

(** The block, its commit and its rollback: the tables are untouched, or the block was
    committed once. *)
Lemma run_block_cases {R} (f : database → exn + R * database) w :
  let p := r ← attempt (
      _ ← db_call (λ db, match f db with inl e => inl e | inr _ => inr (tt, db) end); db_call f);
    match r with
    | inr a => mret a
    | inl e => _ ← attempt (db_call (λ db, inr (tt, db))); Raise e
    end in
  w_db (run p w).2 = w_db w ∧ (∀ r, (run p w).1 ≠ Val r) ∨
  ∃ r, f (w_db w) = inr (r, w_db (run p w).2) ∧ ((run p w).1 = Val r ∨ ∃ e, (run p w).1 = Exc e).
Proof.
  cbv zeta. rewrite run_bind, run_attempt, run_bind.
  assert (∀ e w', w_db (run (_ ← attempt (db_call (λ db, inr (tt, db))); Raise (A := R) e) w').2 = w_db w' ∧
    (run (_ ← attempt (db_call (λ db, inr (tt, db))); Raise (A := R) e) w').1 = Exc e) as Hroll.
  { intros e w'. rewrite run_bind, run_attempt.
    pose proof (run_frame w_db _ w' (db_frame_call (λ db, inr (tt, db)) ltac:(naive_solver))) as Hfr.
    destruct (run (db_call _) w') as [[[]|e'|] w''] eqn:Hrun; [done|done|]. exfalso.
    unfold db_call in Hrun. rewrite run_io in Hrun. destruct (pop_fault _) as [flt fs].
    unfold serve in Hrun. by destruct flt. }
  assert (∀ db r db', match f db with inl e => inl e | inr _ => inr (tt, db) end = inr (r, db') → db' = db)
    as Hid by (intros db [] db'; destruct (f db); congruence).
  pose proof (run_frame w_db _ w (db_frame_call _ Hid)) as H1.
  destruct (run (db_call _) w) as [[[]|e|] w1] eqn:Hst; cbn [snd] in H1;
    [|destruct (Hroll e w1) as [-> ->]; left; split; [done|done]|by left].
  pose proof (run_db_call_cases f w1) as Hc. rewrite <-H1.
  destruct (run (db_call f) w1) as [[r|e|] w2]; cbn [fst snd] in Hc; cbn [run mret prog_mret fst snd].
  - destruct Hc as [[_ Hno]|(r' & Hf & [[= ->]|[e [=]]])]; [by destruct (Hno r)|]. right. exists r'. auto.
  - destruct (Hroll e w2) as [-> ->]. destruct Hc as [[Hdb _]|(r' & Hf & _)]; [left|right; exists r'; eauto].
    by split.
  - destruct Hc as [[Hdb _]|(r' & Hf & [[=]|[e [=]]])]. by left.
Qed.

(** A transaction is applied at most once, whatever the connection does: under
    every script of faults (stale connections, lost replies, a failing commit or
    rollback, failures of the migrations or of the ping) the tables end up either
    untouched or changed by exactly one execution of the block, and the block's
    result is returned only in the second case. *)
Theorem transaction_at_most_once {R} (f : database → exn + R * database) w :
  w_db (run (transaction host f) w).2 = w_db w ∧ (∀ r, (run (transaction host f) w).1 ≠ Val r) ∨
  ∃ r, f (w_db w) = inr (r, w_db (run (transaction host f) w).2) ∧
       ((run (transaction host f) w).1 = Val r ∨ ∃ e, (run (transaction host f) w).1 = Exc e).
Proof.
  unfold transaction.
  pose proof (run_frame w_db _ w db_frame_ensure_ready) as H1. rewrite run_bind.
  destruct (run (ensure_ready host) w) as [[[]|e|] w1]; simpl in H1; [|left; split; [simpl; congruence|done]..].
  pose proof (run_frame w_db _ w1 (db_frame_query (λ _, [1]))) as H2.
  rewrite run_bind.
  destruct (run (query host (λ _, [1])) w1) as [[rows|e|] w2]; simpl in H2;
    [|left; split; [simpl; congruence|done]..].
  pose proof (run_frame w_db _ w2 db_frame_get_connection) as H3. rewrite run_bind.
  destruct (run (get_connection host) w2) as [[[]|e|] w3]; simpl in H3; [|left; split; [simpl; congruence|done]..].
  rewrite <-H1, <-H2, <-H3. apply run_block_cases.
Qed.

Lemma run_get_connection_closed w :
  host ∉ w_db_open w → w_db_faults w = [] →
  run (get_connection host) w = (Val tt, set_db_open ({[host]} ∪ w_db_open w) w).
Proof.
  intros Ho Hf. unfold get_connection. rewrite run_bind, run_act. cbn [fst snd].
  rewrite bool_decide_false by done. rewrite run_bind, run_db_call by done. simpl.
  destruct w; simpl in *; by subst.
Qed.

(** The second attempt, from the world the first one left. *)
Lemma run_sql_retry {R} (f : database → exn + R * database) w w1 e :
  host ∈ w_db_open w → host ∈ w_migrated w → run (db_call f) w = (Exc e, w1) →
  is_stale_connection e = true → w_db_faults w1 = [] →
  ∃ hs, run (run_sql host f) w = run (db_call f) (set_db_open hs w1).
Proof.
  intros Ho Hm H1 He Hf. eexists. unfold run_sql.
  rewrite run_bind, run_ensure_ready_migrated by done.
  rewrite run_bind, run_get_connection_open by done.
  rewrite run_bind, run_attempt, H1. cbv beta iota. rewrite He.
  rewrite run_bind. unfold close_connection. rewrite run_act. cbn [fst snd].
  rewrite run_bind, run_get_connection_closed by (done || (simpl; set_solver)). reflexivity.
Qed.

(** The retry of [_run] recovers from a connection that went stale while
    idle: when the statement fails before the server received it, with one of
    the stale-connection messages, it is run again on a new connection, its
    result is returned, and its effect is applied exactly once. *)
Theorem run_recovers_stale {R} (f : database → exn + R * database) w e r db :
  host ∈ w_db_open w → host ∈ w_migrated w → w_db_faults w = [Before e] →
  is_stale_connection e = true → f (w_db w) = inr (r, db) →
  (run (run_sql host f) w).1 = Val r ∧ w_db (run (run_sql host f) w).2 = db.
Proof.
  intros Ho Hm Hf He Hr.
  destruct (run_sql_retry f w (set_db (w_db w) [] w) e) as [hs ->]; try done.
  - unfold db_call. by rewrite run_io, Hf.
  - rewrite run_db_call by done. simpl. by rewrite Hr.
Qed.

(** The retry of [_run] also covers errors raised after the server applied
    the statement (a reset connection or a broken pipe while the reply or the
    commit is in flight): the statement is then applied a second time. *)
Theorem run_applies_twice {R} (f : database → exn + R * database) w e r1 r2 db1 db2 :
  host ∈ w_db_open w → host ∈ w_migrated w → w_db_faults w = [After e] →
  is_stale_connection e = true → f (w_db w) = inr (r1, db1) → f db1 = inr (r2, db2) →
  (run (run_sql host f) w).1 = Val r2 ∧ w_db (run (run_sql host f) w).2 = db2.
Proof.
  intros Ho Hm Hf He Hr1 Hr2.
  destruct (run_sql_retry f w (set_db db1 [] w) e) as [hs ->]; try done.
  - unfold db_call. rewrite run_io, Hf. simpl. by rewrite Hr1.
  - rewrite run_db_call by done. simpl. by rewrite Hr2.
Qed.
End proofs.

(** ** Witnesses *)
Definition bump (db : database) : exn + Z * database :=
  inr (db_seq db, Database (db_documents db) (db_jobs db) (db_chunks db) (db_seq db + 1)).

Definition stale_world (flt : fault) : world map_store map_broker :=
  World 0 empty_db (MapStore true ∅) empty_broker ∅ {[u "w"]} {[u "w"]} ∅ ∅ [flt] [] [].

Lemma run_recovers_stale_witness :
  (run (run_sql (u "w") bump) (stale_world (Before (ValueError (u "Stream handle 7 is expired"))))).1
    = Val 0 ∧
  db_seq (w_db (run (run_sql (u "w") bump)
    (stale_world (Before (ValueError (u "Stream handle 7 is expired"))))).2) = 1.
Proof.
  destruct (run_recovers_stale (u "w") bump
    (stale_world (Before (ValueError (u "Stream handle 7 is expired"))))
    (ValueError (u "Stream handle 7 is expired")) 0
    (Database ∅ ∅ ∅ 1)) as [H1 H2]; [apply elem_of_singleton; reflexivity|
    apply elem_of_singleton; reflexivity|reflexivity| |reflexivity|].
  - vm_compute. reflexivity.
  - split; [exact H1|]. rewrite H2. reflexivity.
Defined.

Lemma run_applies_twice_witness :
  (run (run_sql (u "w") bump) (stale_world (After (ValueError (u "Broken pipe"))))).1 = Val 1 ∧
  db_seq (w_db (run (run_sql (u "w") bump)
    (stale_world (After (ValueError (u "Broken pipe"))))).2) = 2.
Proof.
  destruct (run_applies_twice (u "w") bump (stale_world (After (ValueError (u "Broken pipe"))))
    (ValueError (u "Broken pipe")) 0 1 (Database ∅ ∅ ∅ 1) (Database ∅ ∅ ∅ 2)) as [H1 H2];
    [apply elem_of_singleton; reflexivity|apply elem_of_singleton; reflexivity|reflexivity|
     |reflexivity|reflexivity|].
  - vm_compute. reflexivity.
  - split; [exact H1|]. rewrite H2. reflexivity.
Defined.

(** ** Result rows *)
Lemma dict_set_fresh {V} k (v : V) d : k ∉ d.*1 → dict_set k v d = d ++ [(k, v)].
Proof.
  induction d as [|[k' v'] d IH]; simpl; [done|]. rewrite not_elem_of_cons. intros [Hne Hd].
  rewrite bool_decide_false by congruence. by rewrite IH.
Qed.

(** A row of a table with distinct columns becomes the dictionary of its columns. *)
Lemma rows_to_dicts_zip {V} (columns : list pystr) (rows : list (list V)) :
  NoDup columns → rows_to_dicts (Some columns) (Some rows) = zip columns <$> rows.
Proof.
  intros Hnd. simpl. apply list_fmap_ext. intros _ row _.
  assert (∀ pairs d, NoDup (d.*1 ++ pairs.*1) →
    fold_left (λ d kv, dict_set (V := V) kv.1 kv.2 d) pairs d = d ++ pairs) as Hgo.
  { induction pairs as [|[k v] pairs IH]; intros d Hd; simpl; [by rewrite app_nil_r|].
    apply NoDup_app in Hd as Hd'. destruct Hd' as (_ & Hdisj & _). simpl in *.
    rewrite dict_set_fresh, IH; [by rewrite <-(assoc_L (++))| |].
    - by rewrite fmap_app, <-(assoc_L (++)).
    - intros Hin. apply (Hdisj k Hin), list_elem_of_here. }
  unfold dict_of. rewrite Hgo; [done|]. simpl. eapply sublist_NoDup; [exact Hnd|].
  clear. revert row. induction columns as [|c cs IH]; intros [|x row]; simpl; try apply sublist_nil_l.
  by apply sublist_skip.
Qed.
