(* ===== verification/Jobstore.v ===== *)
(** * Job and document state (jobstore.py)

    Every statement or transaction of jobstore.py is a function on the database
    ([..._sql]); the Python functions are the programs that read the clock and
    issue them through db.py.  The last section runs them in a world whose
    database works. *)
From S2P Require Import Prelude PyStr Effects Database Config World Db.

(** [complete_chunk] sentinels. *)
Definition JOB_ALREADY_TERMINAL : Z := -1.
Definition CHUNK_ALREADY_DONE : Z := -2.

(** [status IN ('done', 'failed')] *)
Definition terminal (s : job_status) : bool :=
  match s with JDone | JFailed => true | _ => false end.

Definition chunk_done (s : chunk_status) : bool :=
  match s with CDone => true | _ => false end.

(** ** Job ids *)

Definition hex_digit (d : Z) : Z := if d <? 10 then 48 + d else 87 + d.

(** [uuid.uuid4().hex]: the 128 bits of the UUID as 32 hexadecimal digits. *)
Definition new_job_id (uuid : Z) : pystr :=
  (λ i, hex_digit (Z.land (Z.shiftr uuid (4 * i)) 15)) <$> reverse (seqZ 0 32).

(** ** Statements *)

(** The row [record_document] writes; [doc_key.split(":")[-1]] is the
    fingerprint. *)
Definition record_document_sql (cfg : config) (created : Z) (doc_key file_hash : pystr)
    (total_pages total_chunks total_length page_size : Z) (db : database) : database :=
  set_documents <[doc_key := Document file_hash
    (default [] (last (split (u ":") doc_key))) total_pages total_chunks total_length
    page_size created (created + DOC_TTL_DAYS cfg * 86400)]> db.

Fixpoint insert_chunks (timestamp : Z) (job_id : pystr) (index : Z)
    (ranges : list (Z * Z)) (db : database) : exn + database :=
  match ranges with
  | [] => inr db
  | (start, end_) :: rest =>
      let row := Chunk (db_seq db + 1) start end_ CPending 0 timestamp None None None None timestamp in
      chunks ← sql_insert (job_id, index) row (db_chunks db);
      insert_chunks timestamp job_id (index + 1) rest
        (Database (db_documents db) (db_jobs db) chunks (db_seq db + 1))
  end.

Definition create_job_sql (timestamp : Z) (job_id doc_key file_hash url : pystr)
    (ranges : list (Z * Z)) (use_llm : bool) (db : database) : exn + unit * database :=
  let row := Job doc_key file_hash url JQueued (len ranges) (len ranges)
               (if use_llm then 1 else 0) None None timestamp timestamp in
  jobs ← sql_insert job_id row (db_jobs db);
  db' ← insert_chunks timestamp job_id 0 ranges (set_jobs (λ _, jobs) db);
  mret (tt, db').

Definition finish_job_sql (ts : Z) (job_id : pystr) (db : database) : database :=
  set_jobs (sql_update (at_key job_id (λ _, true))
    (λ j, Job (j_doc_key j) (j_file_hash j) (j_url j) JDone (j_total_chunks j)
            (j_remaining_chunks j) (j_use_llm j) (j_error j) (j_error_chunk j)
            (j_created_at j) ts)) db.

Definition fail_job_sql (ts : Z) (job_id error : pystr) (chunk_index : option Z)
    (db : database) : database :=
  set_jobs (sql_update (at_key job_id (λ j, negb (terminal (j_status j))))
    (λ j, Job (j_doc_key j) (j_file_hash j) (j_url j) JFailed (j_total_chunks j)
            (j_remaining_chunks j) (j_use_llm j) (Some (slice_to error 2000)) chunk_index
            (j_created_at j) ts)) db.

(** The two statements of [start_chunk]. *)
Definition start_chunk_sql (ts : Z) (job_id : pystr) (chunk_index : Z) (owner : pystr)
    (attempt : Z) (db : database) : database :=
  set_chunks (sql_update (at_key (job_id, chunk_index) (λ c, negb (chunk_done (c_status c))))
    (λ c, Chunk (c_id c) (c_start_page c) (c_end_page c) CRunning attempt (c_available_at c)
            (Some owner) (c_lease_expires_at c) (c_s3_key c) (c_last_error c) ts)) db.

Definition start_job_sql (ts : Z) (job_id : pystr) (db : database) : database :=
  set_jobs (sql_update
    (at_key job_id (λ j, bool_decide (j_status j = JQueued)))
    (λ j, Job (j_doc_key j) (j_file_hash j) (j_url j) JRunning (j_total_chunks j)
            (j_remaining_chunks j) (j_use_llm j) (j_error j) (j_error_chunk j)
            (j_created_at j) ts)) db.

Definition fail_chunk_sql (ts : Z) (job_id : pystr) (chunk_index : Z) (error : pystr)
    (db : database) : database :=
  set_chunks (sql_update (at_key (job_id, chunk_index) (λ _, true))
    (λ c, Chunk (c_id c) (c_start_page c) (c_end_page c) CFailed (c_attempts c)
            (c_available_at c) None (c_lease_expires_at c) (c_s3_key c)
            (Some (slice_to error 2000)) ts)) db.

Definition reschedule_chunk_sql (ts : Z) (job_id : pystr) (chunk_index : Z) (error : pystr)
    (db : database) : database :=
  set_chunks (sql_update (at_key (job_id, chunk_index) (λ c, negb (chunk_done (c_status c))))
    (λ c, Chunk (c_id c) (c_start_page c) (c_end_page c) CPending (c_attempts c)
            (c_available_at c) None (c_lease_expires_at c) (c_s3_key c)
            (Some (slice_to error 2000)) ts)) db.

(** The transaction of [complete_chunk].  Both early returns leave the [with]
    block normally, so what was updated before them is committed. *)
Definition complete_chunk_sql (ts : Z) (job_id : pystr) (chunk_index : Z) (s3_key : pystr)
    (db : database) : Z * database :=
  let cond := at_key (job_id, chunk_index) (λ c, negb (chunk_done (c_status c))) in
  let changed := changes cond (db_chunks db) in
  let db := set_chunks (sql_update cond
    (λ c, Chunk (c_id c) (c_start_page c) (c_end_page c) CDone (c_attempts c)
            (c_available_at c) None (c_lease_expires_at c) (Some s3_key) None ts)) db in
  if decide (changed = 0%nat) then (CHUNK_ALREADY_DONE, db)
  else
    let active := at_key job_id (λ j, negb (terminal (j_status j))) in
    let decrement j :=
      Job (j_doc_key j) (j_file_hash j) (j_url j) JRunning (j_total_chunks j)
        (j_remaining_chunks j - 1) (j_use_llm j) (j_error j) (j_error_chunk j)
        (j_created_at j) ts in
    let rows := (λ j, j_remaining_chunks (decrement j)) <$> sql_where active (db_jobs db) in
    let db := set_jobs (sql_update active decrement) db in
    match rows with
    | [] => (JOB_ALREADY_TERMINAL, db)
    | remaining :: _ => (remaining, db)
    end.

(** [SELECT chunk_index ... WHERE job_id = ? ORDER BY chunk_index] *)
Definition chunk_indices_sql (job_id : pystr) (db : database) : list Z :=
  merge_sort Z.le
    ((λ kc, kc.1.2) <$> map_to_list (filter (λ kc, kc.1.1 = job_id) (db_chunks db))).

(** [round(100 * completed / total)]: nearest integer, ties to even. *)
Definition round_div (a b : Z) : Z :=
  let q := a `div` b in
  let r := a `mod` b in
  if 2 * r <? b then q
  else if b <? 2 * r then q + 1
  else if Z.even q then q else q + 1.

Record progress := Progress { pr_completed : Z; pr_total : Z; pr_percent : Z }.

(** ** The functions of the module *)
Section jobstore.
Context {S B : Type} (host : pystr).
#[local] Abbreviation world := (world S B).
Context (cfg : config).

Definition find_cached_document (doc_key : pystr) : prog world (option document) :=
  query_one host (λ db, sql_where (at_key doc_key (λ _, true)) (db_documents db)).

Definition record_document (doc_key file_hash : pystr)
    (total_pages total_chunks total_length page_size : Z) : prog world unit :=
  created ← clock;
  execute host (record_document_sql cfg created doc_key file_hash total_pages
                  total_chunks total_length page_size).

Definition create_job (job_id doc_key file_hash url : pystr) (ranges : list (Z * Z))
    (use_llm : bool) : prog world unit :=
  timestamp ← clock;
  transaction host (create_job_sql timestamp job_id doc_key file_hash url ranges use_llm).

Definition get_job (job_id : pystr) : prog world (option job) :=
  query_one host (λ db, sql_where (at_key job_id (λ _, true)) (db_jobs db)).

Definition job_progress (job_id : pystr) : prog world progress :=
  job ← get_job job_id;
  match job with
  | None => mret (Progress 0 0 0)
  | Some j =>
      let total := j_total_chunks j in
      let completed := total - j_remaining_chunks j in
      mret (Progress completed total
              (if total =? 0 then 0 else round_div (100 * completed) total))
  end.

Definition finish_job (job_id : pystr) : prog world unit :=
  ts ← clock; execute host (finish_job_sql ts job_id).

Definition fail_job (job_id error : pystr) (chunk_index : option Z) : prog world unit :=
  ts ← clock; execute host (fail_job_sql ts job_id error chunk_index).

Definition start_chunk (job_id : pystr) (chunk_index : Z) (owner : pystr) (attempt : Z)
    : prog world unit :=
  timestamp ← clock;
  _ ← execute host (start_chunk_sql timestamp job_id chunk_index owner attempt);
  execute host (start_job_sql timestamp job_id).

Definition fail_chunk (job_id : pystr) (chunk_index : Z) (error : pystr) : prog world unit :=
  ts ← clock; execute host (fail_chunk_sql ts job_id chunk_index error).

Definition reschedule_chunk (job_id : pystr) (chunk_index : Z) (error : pystr) : prog world unit :=
  ts ← clock; execute host (reschedule_chunk_sql ts job_id chunk_index error).

Definition complete_chunk (job_id : pystr) (chunk_index : Z) (s3_key : pystr) : prog world Z :=
  timestamp ← clock;
  transaction host (λ db, inr (complete_chunk_sql timestamp job_id chunk_index s3_key db)).

Definition chunk_indices (job_id : pystr) : prog world (list Z) :=
  query host (chunk_indices_sql job_id).
End jobstore.

(** ** The functions in a world whose database works *)
Section runs.
Context {S B : Type} (host : pystr).
#[local] Abbreviation world := (world S B).
Context (cfg : config).
Implicit Types (w : world).
#[local] Abbreviation ready := (db_ready host).

Lemma head_where_key {K R} `{Countable K} (k : K) (m : gmap K R) :
  head (sql_where (at_key k (λ _, true)) m) = m !! k.
Proof.
  destruct (m !! k) as [r|] eqn:E.
  - by rewrite (where_at_Some _ _ _ r).
  - by rewrite where_at_None by (by rewrite E).
Qed.

Lemma run_query_one_key {K R} `{Countable K} (k : K) (table : database → gmap K R) w :
  ready w →
  run (query_one host (λ db, sql_where (at_key k (λ _, true)) (table db))) w =
  (Val (table (w_db w) !! k), set_db (w_db w) [] w).
Proof.
  intros Hw. unfold query_one. rewrite run_bind, run_query by done. simpl.
  by rewrite head_where_key.
Qed.

Lemma run_get_job jid w :
  ready w → run (get_job host jid) w = (Val (db_jobs (w_db w) !! jid), set_db (w_db w) [] w).
Proof. apply run_query_one_key. Qed.

Lemma run_find_cached_document key w :
  ready w → run (find_cached_document host key) w =
    (Val (db_documents (w_db w) !! key), set_db (w_db w) [] w).
Proof. apply run_query_one_key. Qed.

Lemma run_timed_execute (f : Z → database → database) w :
  ready w →
  run (ts ← clock; execute host (f ts)) w = (Val tt, set_db (f (w_clock w) (w_db w)) [] w).
Proof. intros Hw. by rewrite run_bind, run_clock, run_execute. Qed.

Lemma run_start_chunk jid i owner attempt w :
  ready w →
  run (start_chunk host jid i owner attempt) w =
  (Val tt, set_db (start_job_sql (w_clock w) jid
                     (start_chunk_sql (w_clock w) jid i owner attempt (w_db w))) [] w).
Proof.
  intros Hw. unfold start_chunk. rewrite run_bind, run_clock, run_bind, run_execute by done.
  by rewrite run_execute by (by apply db_ready_set_db).
Qed.

Lemma run_complete_chunk jid i key w :
  ready w →
  run (complete_chunk host jid i key) w =
  (Val (complete_chunk_sql (w_clock w) jid i key (w_db w)).1,
   set_db (complete_chunk_sql (w_clock w) jid i key (w_db w)).2 [] w).
Proof.
  intros Hw. unfold complete_chunk. rewrite run_bind, run_clock, run_transaction by done.
  by destruct (complete_chunk_sql _ _ _ _ _).
Qed.

Lemma run_create_job jid doc_key file_hash url ranges use_llm w :
  ready w →
  run (create_job host jid doc_key file_hash url ranges use_llm) w =
  match create_job_sql (w_clock w) jid doc_key file_hash url ranges use_llm (w_db w) with
  | inl e => (Exc e, set_db (w_db w) [] w)
  | inr (r, db) => (Val r, set_db db [] w)
  end.
Proof. intros Hw. unfold create_job. by rewrite run_bind, run_clock, run_transaction. Qed.
End runs.

(** ** Job ids *)
Lemma hex_digit_inj a b : 0 <= a < 16 → 0 <= b < 16 → hex_digit a = hex_digit b → a = b.
Proof. unfold hex_digit. intros Ha Hb. destruct (Z.ltb_spec a 10), (Z.ltb_spec b 10); lia. Qed.

Lemma nibble_range n i : 0 <= Z.land (Z.shiftr n i) 15 < 16.
Proof. change 15 with (Z.ones 4). rewrite Z.land_ones by lia. apply Z.mod_pos_bound. lia. Qed.

(** Different UUIDs give different job ids. *)
Lemma new_job_id_inj n n' :
  0 <= n < 2 ^ 128 → 0 <= n' < 2 ^ 128 → new_job_id n = new_job_id n' → n = n'.
Proof.
  intros Hn Hn' Heq. apply Z.bits_inj'. intros k Hk. destruct (decide (k < 128)) as [Hlt|Hge].
  - set (i := k `div` 4). assert (0 <= i < 32) as Hi.
    { subst i. split; [apply Z.div_pos; lia|]. apply Z.div_lt_upper_bound; lia. }
    assert (Z.land (Z.shiftr n (4 * i)) 15 = Z.land (Z.shiftr n' (4 * i)) 15) as Hd.
    { apply hex_digit_inj; [apply nibble_range..|]. unfold new_job_id in Heq.
      rewrite !fmap_reverse in Heq. apply (inj reverse) in Heq.
      apply (f_equal (lookup (Z.to_nat i))) in Heq. rewrite !list_lookup_fmap in Heq.
      assert (seqZ 0 32 !! Z.to_nat i = Some i) as Hs by (apply lookup_seqZ; lia).
      rewrite Hs in Heq. by injection Heq. }
    apply (f_equal (λ z, Z.testbit z (k - 4 * i))) in Hd.
    assert (0 <= k - 4 * i < 4) by (subst i; pose proof (Z.div_mod k 4); pose proof (Z.mod_pos_bound k 4); lia).
    change 15 with (Z.ones 4) in Hd. rewrite !Z.land_spec, Z.ones_spec_low, !andb_true_r in Hd by lia.
    rewrite !Z.shiftr_spec in Hd by lia. by replace (k - 4 * i + 4 * i) with k in Hd by lia.
  - assert (∀ m, 0 <= m < 2 ^ 128 → Z.testbit m k = false) as Hz; [|by rewrite !Hz].
    intros m Hm. destruct (decide (m = 0)) as [->|]; [apply Z.testbit_0_l|].
    apply Z.bits_above_log2; [lia|]. apply Z.log2_lt_pow2; [lia|].
    apply Z.lt_le_trans with (2 ^ 128); [lia|]. apply Z.pow_le_mono_r; lia.
Qed.

Lemma new_job_id_hex n : Forall (λ c, 48 <= c <= 57 ∨ 97 <= c <= 102) (new_job_id n).
Proof.
  apply Forall_fmap, Forall_forall. intros i _. simpl. pose proof (nibble_range n (4 * i)).
  unfold hex_digit. destruct (Z.ltb_spec (Z.land (Z.shiftr n (4 * i)) 15) 10); lia.
Qed.
