(* ===== verification/Counter.v ===== *)
(** * The remaining-chunk counter

    jobstore.py decides who assembles a document by counting down
    [remaining_chunks].  Here the statements of jobstore.py are the steps of a
    transition system on the database ([db_step]); since each is one
    transaction, any interleaving of any number of workers is a path of this
    system.  [db_inv] relates the counter to the chunk rows and is preserved by
    every statement but [fail_chunk], which can reopen a recorded chunk; what
    holds along every path, reopened chunks included, is in Ledger.v. *)
From S2P Require Import Prelude PyStr Effects Database Config World Jobstore.

Implicit Types (db : database) (jid : pystr) (i : Z) (j : job) (c : chunk).

(** ** The invariant *)

(** The chunk rows of a job that are not [done]. *)
Definition pending_rows jid (m : gmap (pystr * Z) chunk) : gmap (pystr * Z) chunk :=
  filter (λ kc, kc.1.1 = jid ∧ c_status kc.2 ≠ CDone) m.

Definition not_done db jid : Z := Z.of_nat (size (pending_rows jid (db_chunks db))).

(** A job row agrees with its chunk rows: they are numbered from 0 to
    [total_chunks - 1], and while the job is active the counter is the number
    of chunks not yet recorded as done. *)
Definition job_inv db jid j : Prop :=
  (∀ i, is_Some (db_chunks db !! (jid, i)) ↔ 0 <= i < j_total_chunks j) ∧
  (terminal (j_status j) = false → j_remaining_chunks j = not_done db jid).

(** Chunk rows belong to a job, and a [done] row names its stored part. *)
Definition chunk_inv db jid c : Prop :=
  is_Some (db_jobs db !! jid) ∧ (c_status c = CDone → is_Some (c_s3_key c)).

Definition db_inv db : Prop :=
  (∀ jid j, db_jobs db !! jid = Some j → job_inv db jid j) ∧
  (∀ jid i c, db_chunks db !! (jid, i) = Some c → chunk_inv db jid c).

(** ** The transition system *)

(** What a step reports: the value [complete_chunk] returned for a job, or that
    [fail_chunk] put a recorded chunk of the job back among the unfinished. *)
Inductive label := Tau | Completed (jid : pystr) (remaining : Z) | Reopened (jid : pystr).

#[export] Instance label_eq_dec : EqDecision label.
Proof. solve_decision. Defined.

(** Whether the chunk row exists and is [done]. *)
Definition chunk_recorded db jid i : bool :=
  match db_chunks db !! (jid, i) with Some c => chunk_done (c_status c) | None => false end.

Inductive db_step : label → database → database → Prop :=
| step_create ts jid doc_key file_hash url ranges use_llm db db' :
    create_job_sql ts jid doc_key file_hash url ranges use_llm db = inr (tt, db') →
    db_step Tau db db'
| step_start_chunk ts jid i owner attempt db :
    db_step Tau db (start_chunk_sql ts jid i owner attempt db)
| step_start_job ts jid db : db_step Tau db (start_job_sql ts jid db)
| step_fail_chunk ts jid i error db :
    db_step (if chunk_recorded db jid i then Reopened jid else Tau) db
      (fail_chunk_sql ts jid i error db)
| step_reschedule ts jid i error db :
    db_step Tau db (reschedule_chunk_sql ts jid i error db)
| step_complete ts jid i key db :
    db_step (Completed jid (complete_chunk_sql ts jid i key db).1) db
      (complete_chunk_sql ts jid i key db).2
| step_fail_job ts jid error idx db : db_step Tau db (fail_job_sql ts jid error idx db)
| step_finish ts jid db : db_step Tau db (finish_job_sql ts jid db)
| step_record cfg ts doc_key file_hash tp tc tl ps db :
    db_step Tau db (record_document_sql cfg ts doc_key file_hash tp tc tl ps db)
| step_read db : db_step Tau db db.

(** Any interleaving of any number of workers and API processes. *)
Inductive db_trace : list label → database → database → Prop :=
| trace_nil db : db_trace [] db db
| trace_cons l ls db1 db2 db3 :
    db_step l db1 db2 → db_trace ls db2 db3 → db_trace (l :: ls) db1 db3.

Lemma step_complete_eq ts jid i key db r db' :
  complete_chunk_sql ts jid i key db = (r, db') → db_step (Completed jid r) db db'.
Proof. intros Heq. pose proof (step_complete ts jid i key db) as Hs. by rewrite Heq in Hs. Qed.

Lemma step_fail_eq ts jid i error db l db' :
  (if chunk_recorded db jid i then Reopened jid else Tau) = l → fail_chunk_sql ts jid i error db = db' →
  db_step l db db'.
Proof. intros <- <-. constructor. Qed.

(** ** Counting pending rows *)
Lemma not_done_nonneg db jid : 0 <= not_done db jid.
Proof. unfold not_done. lia. Qed.

Lemma pending_rows_insert jid m k c c' :
  m !! k = Some c →
  c_status c = CDone ↔ c_status c' = CDone →
  size (pending_rows jid (<[k := c']> m)) = size (pending_rows jid m).
Proof.
  intros Hk Hst. unfold pending_rows.
  destruct (decide (k.1 = jid ∧ c_status c' ≠ CDone)) as [Hp|Hp].
  - rewrite map_filter_insert_True by done.
    rewrite map_size_insert_Some; [done|]. exists c.
    apply map_lookup_filter_Some. simpl. naive_solver.
  - rewrite map_filter_insert_not'; [done|done|]. intros c0. simpl. naive_solver.
Qed.

(** Recording a chunk as done removes one pending row of its job ... *)
Lemma pending_rows_complete jid i m c c' :
  m !! (jid, i) = Some c → c_status c ≠ CDone → c_status c' = CDone →
  Z.of_nat (size (pending_rows jid (<[(jid, i) := c']> m))) =
  Z.of_nat (size (pending_rows jid m)) - 1.
Proof.
  intros Hk Hc Hc'. unfold pending_rows.
  rewrite map_filter_insert_False by naive_solver.
  rewrite map_filter_delete, map_size_delete_Some.
  - assert (0 < size (filter (λ kc, kc.1.1 = jid ∧ c_status kc.2 ≠ CDone) m))%nat; [|lia].
    apply Nat.neq_0_lt_0, map_size_ne_0_lookup_2 with (i := (jid, i)). exists c.
    by apply map_lookup_filter_Some.
  - exists c. by apply map_lookup_filter_Some.
Qed.

(** ... and none of any other. *)
Lemma pending_rows_other jid k m c' :
  k.1 ≠ jid → pending_rows jid (<[k := c']> m) = pending_rows jid m.
Proof.
  intros Hne. unfold pending_rows.
  rewrite map_filter_insert_not; [done|]. simpl. naive_solver.
Qed.

Lemma not_done_zero_iff db jid :
  not_done db jid = 0 ↔ ∀ i c, db_chunks db !! (jid, i) = Some c → c_status c = CDone.
Proof.
  unfold not_done. rewrite <-Nat2Z.inj_0, Nat2Z.inj_iff, map_size_empty_iff.
  unfold pending_rows. rewrite map_empty_filter. split.
  - intros Hall i c Hc. apply Hall in Hc. simpl in Hc.
    destruct (decide (c_status c = CDone)); [done|]. naive_solver.
  - intros Hall [jid' i] c Hc [Hj Hs]. simpl in *. subst. naive_solver.
Qed.

(** ** Updates of a single row *)
Lemma update_chunk_cases db k q f :
  (set_chunks (sql_update (at_key k q) f) db = db ∧
   ∀ c, db_chunks db !! k = Some c → q c = false) ∨
  ∃ c, db_chunks db !! k = Some c ∧ q c = true ∧
       set_chunks (sql_update (at_key k q) f) db = set_chunks <[k := f c]> db.
Proof.
  destruct (db_chunks db !! k) as [c|] eqn:Hc; [destruct (q c) eqn:Hq|].
  - right. exists c. repeat split; try done. unfold set_chunks. by rewrite (update_at_Some _ _ _ _ c).
  - left. assert (∀ c', Some c = Some c' → q c' = false) as Hnone by naive_solver.
    split; [|done]. unfold set_chunks. rewrite update_at_None by (by rewrite Hc). by destruct db.
  - left. split; [|done]. unfold set_chunks. rewrite update_at_None by (by rewrite Hc).
    by destruct db.
Qed.

Lemma update_job_cases db jid q f :
  (set_jobs (sql_update (at_key jid q) f) db = db ∧
   ∀ j, db_jobs db !! jid = Some j → q j = false) ∨
  ∃ j, db_jobs db !! jid = Some j ∧ q j = true ∧
       set_jobs (sql_update (at_key jid q) f) db = set_jobs <[jid := f j]> db.
Proof.
  destruct (db_jobs db !! jid) as [j|] eqn:Hj; [destruct (q j) eqn:Hq|].
  - right. exists j. repeat split; try done. unfold set_jobs. by rewrite (update_at_Some _ _ _ _ j).
  - left. assert (∀ j', Some j = Some j' → q j' = false) as Hnone by naive_solver.
    split; [|done]. unfold set_jobs. rewrite update_at_None by (by rewrite Hj). by destruct db.
  - left. split; [|done]. unfold set_jobs. rewrite update_at_None by (by rewrite Hj).
    by destruct db.
Qed.

Lemma lookup_insert_chunk_is_Some (m : gmap (pystr * Z) chunk) k c c' k' :
  m !! k = Some c → is_Some (<[k := c']> m !! k') ↔ is_Some (m !! k').
Proof.
  intros Hk. rewrite lookup_insert. destruct (decide (k = k')) as [<-|]; [|done].
  rewrite Hk. split; intros; eauto.
Qed.

(** Rewriting a chunk row keeps the invariant when the row is done before iff
    it is done after, or when its job is over. *)
Lemma db_inv_set_chunk db jid i c c' :
  db_inv db → db_chunks db !! (jid, i) = Some c →
  (c_status c' = CDone → is_Some (c_s3_key c')) →
  ((c_status c = CDone ↔ c_status c' = CDone) ∨
   ∀ j, db_jobs db !! jid = Some j → terminal (j_status j) = true) →
  db_inv (set_chunks <[(jid, i) := c']> db).
Proof.
  intros [Hjobs Hchunks] Hc Hkey Hor. split.
  - intros jid' j Hj. destruct (Hjobs jid' j Hj) as [Hdom Hcnt]. split.
    + intros i'. simpl. rewrite <-Hdom. by eapply lookup_insert_chunk_is_Some.
    + simpl in Hj. intros Hact. rewrite Hcnt by done. unfold not_done; simpl. f_equal.
      destruct (decide (jid = jid')) as [->|Hne].
      * destruct Hor as [Hst|Hterm]; [by erewrite pending_rows_insert|].
        by rewrite (Hterm j Hj) in Hact.
      * by rewrite pending_rows_other.
  - intros jid' i' c0. simpl. rewrite lookup_insert_Some.
    intros [[[= <- <-] <-]|[_ Hc0]]; [|by eapply Hchunks].
    split; [|done]. by eapply (Hchunks jid i).
Qed.

(** Rewriting a job row keeps it when the row's counter and size stay and the
    job is not reopened. *)
Lemma db_inv_set_job db jid j j' :
  db_inv db → db_jobs db !! jid = Some j → j_total_chunks j' = j_total_chunks j →
  (terminal (j_status j') = false →
     terminal (j_status j) = false ∧ j_remaining_chunks j' = j_remaining_chunks j) →
  db_inv (set_jobs <[jid := j']> db).
Proof.
  intros [Hjobs Hchunks] Hj Htot Hact. split.
  - intros jid' j0. simpl. rewrite lookup_insert_Some. intros [[<- <-]|[_ Hj0]]; [|by apply Hjobs].
    destruct (Hjobs jid j Hj) as [Hdom Hcnt]. split; [by rewrite Htot|].
    intros [Ha Hr]%Hact. rewrite Hr. by apply Hcnt.
  - intros jid' i c Hc. destruct (Hchunks jid' i c Hc) as [Hsome Hk]. split; [|done].
    simpl. rewrite lookup_insert. case_decide; eauto.
Qed.

#[local] Hint Resolve db_inv_set_chunk db_inv_set_job : core.

(** ** Each statement preserves the invariant *)
Lemma start_chunk_inv ts jid i owner attempt db :
  db_inv db → db_inv (start_chunk_sql ts jid i owner attempt db).
Proof.
  intros Hinv. unfold start_chunk_sql.
  edestruct update_chunk_cases as [[-> _]|(c & Hc & Hq & ->)]; [done|].
  eapply db_inv_set_chunk; simpl; eauto; [done|]. left.
  destruct (c_status c); naive_solver.
Qed.

Lemma start_job_inv ts jid db : db_inv db → db_inv (start_job_sql ts jid db).
Proof.
  intros Hinv. unfold start_job_sql.
  edestruct update_job_cases as [[-> _]|(j & Hj & Hq & ->)]; [done|].
  eapply db_inv_set_job; simpl; eauto. apply bool_decide_eq_true in Hq. by rewrite Hq.
Qed.

Lemma reschedule_chunk_inv ts jid i error db :
  db_inv db → db_inv (reschedule_chunk_sql ts jid i error db).
Proof.
  intros Hinv. unfold reschedule_chunk_sql.
  edestruct update_chunk_cases as [[-> _]|(c & Hc & Hq & ->)]; [done|].
  eapply db_inv_set_chunk; simpl; eauto; [done|]. left.
  destruct (c_status c); naive_solver.
Qed.

Lemma fail_job_inv ts jid error idx db : db_inv db → db_inv (fail_job_sql ts jid error idx db).
Proof.
  intros Hinv. unfold fail_job_sql.
  edestruct update_job_cases as [[-> _]|(j & Hj & Hq & ->)]; [done|].
  eapply db_inv_set_job; simpl; eauto. done.
Qed.

Lemma finish_job_inv ts jid db : db_inv db → db_inv (finish_job_sql ts jid db).
Proof.
  intros Hinv. unfold finish_job_sql.
  edestruct update_job_cases as [[-> _]|(j & Hj & Hq & ->)]; [done|].
  eapply db_inv_set_job; simpl; eauto. done.
Qed.

Lemma record_document_inv cfg ts doc_key file_hash tp tc tl ps db :
  db_inv db → db_inv (record_document_sql cfg ts doc_key file_hash tp tc tl ps db).
Proof. done. Qed.

(** ** [complete_chunk], branch by branch *)
Definition done_row (ts : Z) (key : pystr) c : chunk :=
  Chunk (c_id c) (c_start_page c) (c_end_page c) CDone (c_attempts c)
    (c_available_at c) None (c_lease_expires_at c) (Some key) None ts.

Definition decremented (ts : Z) j : job :=
  Job (j_doc_key j) (j_file_hash j) (j_url j) JRunning (j_total_chunks j)
    (j_remaining_chunks j - 1) (j_use_llm j) (j_error j) (j_error_chunk j) (j_created_at j) ts.

Lemma complete_chunk_stale ts jid i key db :
  (∀ c, db_chunks db !! (jid, i) = Some c → c_status c = CDone) →
  complete_chunk_sql ts jid i key db = (CHUNK_ALREADY_DONE, db).
Proof.
  intros Hd. unfold complete_chunk_sql, changes.
  assert (∀ c, db_chunks db !! (jid, i) = Some c → negb (chunk_done (c_status c)) = false) as Hq.
  { intros c ->%Hd. done. }
  rewrite where_at_None by done. simpl. unfold set_chunks. rewrite update_at_None by done.
  by destruct db.
Qed.

Lemma complete_chunk_dead ts jid i key db c :
  db_chunks db !! (jid, i) = Some c → c_status c ≠ CDone →
  (∀ j, db_jobs db !! jid = Some j → terminal (j_status j) = true) →
  complete_chunk_sql ts jid i key db =
    (JOB_ALREADY_TERMINAL, set_chunks <[(jid, i) := done_row ts key c]> db).
Proof.
  intros Hc Hnd Hterm. unfold complete_chunk_sql, changes.
  assert (negb (chunk_done (c_status c)) = true) as Hq by (by destruct (c_status c)).
  erewrite where_at_Some by done. simpl.
  assert (∀ j, db_jobs db !! jid = Some j → negb (terminal (j_status j)) = false) as Hj.
  { intros j ->%Hterm. done. }
  rewrite where_at_None by done. simpl. unfold set_jobs, set_chunks; simpl.
  rewrite update_at_None by done. by erewrite update_at_Some.
Qed.

Lemma complete_chunk_live ts jid i key db c j :
  db_chunks db !! (jid, i) = Some c → c_status c ≠ CDone →
  db_jobs db !! jid = Some j → terminal (j_status j) = false →
  complete_chunk_sql ts jid i key db =
    (j_remaining_chunks j - 1,
     set_jobs <[jid := decremented ts j]> (set_chunks <[(jid, i) := done_row ts key c]> db)).
Proof.
  intros Hc Hnd Hj Hact. unfold complete_chunk_sql, changes.
  assert (negb (chunk_done (c_status c)) = true) as Hq by (by destruct (c_status c)).
  assert (negb (terminal (j_status j)) = true) as Hq' by (by rewrite Hact).
  erewrite where_at_Some by done. simpl. erewrite where_at_Some by done. simpl.
  unfold set_jobs, set_chunks; simpl.
  erewrite !update_at_Some; done.
Qed.

Lemma complete_chunk_cases ts jid i key db :
  (complete_chunk_sql ts jid i key db = (CHUNK_ALREADY_DONE, db) ∧
   ∀ c, db_chunks db !! (jid, i) = Some c → c_status c = CDone) ∨
  (∃ c, db_chunks db !! (jid, i) = Some c ∧ c_status c ≠ CDone ∧
     (∀ j, db_jobs db !! jid = Some j → terminal (j_status j) = true) ∧
     complete_chunk_sql ts jid i key db =
       (JOB_ALREADY_TERMINAL, set_chunks <[(jid, i) := done_row ts key c]> db)) ∨
  (∃ c j, db_chunks db !! (jid, i) = Some c ∧ c_status c ≠ CDone ∧
     db_jobs db !! jid = Some j ∧ terminal (j_status j) = false ∧
     complete_chunk_sql ts jid i key db =
       (j_remaining_chunks j - 1,
        set_jobs <[jid := decremented ts j]> (set_chunks <[(jid, i) := done_row ts key c]> db))).
Proof.
  destruct (db_chunks db !! (jid, i)) as [c|] eqn:Hc.
  2: { left. split; [|done]. apply complete_chunk_stale. naive_solver. }
  destruct (decide (c_status c = CDone)) as [Hd|Hnd].
  { left. split; [apply complete_chunk_stale|]; naive_solver. }
  right. destruct (db_jobs db !! jid) as [j|] eqn:Hj; [destruct (terminal (j_status j)) eqn:Ht|].
  - left. exists c. split; [done|]. split; [done|]. split; [naive_solver|].
    apply complete_chunk_dead; naive_solver.
  - right. exists c, j. repeat split; try done. by apply complete_chunk_live.
  - left. exists c. split; [done|]. split; [done|]. split; [done|].
    apply complete_chunk_dead; naive_solver.
Qed.

Lemma complete_chunk_inv ts jid i key db :
  db_inv db → db_inv (complete_chunk_sql ts jid i key db).2.
Proof.
  intros Hinv.
  destruct (complete_chunk_cases ts jid i key db)
    as [[-> _]|[(c & Hc & Hnd & Hterm & ->)|(c & j & Hc & Hnd & Hj & Ht & ->)]]; simpl.
  - done.
  - eapply db_inv_set_chunk; eauto.
  - destruct Hinv as [Hjobs Hchunks]. split; simpl.
    + intros jid' j0. rewrite lookup_insert_Some. intros [[<- <-]|[Hne Hj0]].
      * destruct (Hjobs jid j Hj) as [Hdom Hcnt]. split; simpl.
        { intros i'. rewrite <-Hdom. by eapply lookup_insert_chunk_is_Some. }
        intros _. rewrite Hcnt by done. unfold not_done; simpl.
        by erewrite pending_rows_complete.
      * destruct (Hjobs jid' j0 Hj0) as [Hdom Hcnt]. split; simpl.
        { intros i'. rewrite <-Hdom. by eapply lookup_insert_chunk_is_Some. }
        intros Hact. rewrite Hcnt by done. unfold not_done; simpl.
        by rewrite pending_rows_other.
    + intros jid' i' c0 Hc0.
      assert (is_Some (db_jobs db !! jid') ∧ (c_status c0 = CDone → is_Some (c_s3_key c0)))
        as [Hs Hk].
      { apply lookup_insert_Some in Hc0 as [[[= <- <-] <-]|[_ Hc0]].
        - split; [by exists j|]. by eexists.
        - by apply (Hchunks jid' i'). }
      split; [|done]. simpl. rewrite lookup_insert. case_decide; eauto.
Qed.

(** ** [create_job] *)
Lemma insert_chunks_spec ts jid index ranges db db' :
  insert_chunks ts jid index ranges db = inr db' →
  db_jobs db' = db_jobs db ∧ db_documents db' = db_documents db ∧
  (∀ jid' i, jid' ≠ jid → db_chunks db' !! (jid', i) = db_chunks db !! (jid', i)) ∧
  (∀ jid', jid' ≠ jid → pending_rows jid' (db_chunks db') = pending_rows jid' (db_chunks db)) ∧
  (∀ i, db_chunks db' !! (jid, i) =
     if decide (index <= i < index + len ranges) then
       (λ r, Chunk (db_seq db + 1 + (i - index)) r.1 r.2 CPending 0 ts None None None None ts)
         <$> ranges !! Z.to_nat (i - index)
     else db_chunks db !! (jid, i)) ∧
  not_done db' jid = not_done db jid + len ranges.
Proof.
  revert index db. induction ranges as [|[start end_] ranges IH]; intros index db; simpl.
  { intros [= <-]. rewrite len_nil. repeat split; try done; [|lia].
    intros i. rewrite decide_False by lia. done. }
  unfold sql_insert. destruct (db_chunks db !! (jid, index)) eqn:Hfresh; [done|]. simpl.
  intros (Hj & Hd & Hoth & Hpoth & Hrows & Hcnt)%IH. simpl in *. rewrite len_cons.
  repeat split; try done.
  - intros jid' i Hne. rewrite Hoth by done. apply lookup_insert_ne. congruence.
  - intros jid' Hne. rewrite Hpoth by done. by rewrite pending_rows_other.
  - intros i. rewrite Hrows. destruct (decide (i = index)) as [->|Hi].
    + rewrite decide_False by lia. rewrite lookup_insert_eq, decide_True by (pose proof (len_nonneg ranges); lia).
      rewrite Z.sub_diag. simpl. do 2 f_equal. lia.
    + rewrite lookup_insert_ne by congruence.
      destruct (decide (index + 1 <= i < index + 1 + len ranges)); [|by rewrite decide_False by lia].
      rewrite decide_True by lia.
      replace (Z.to_nat (i - index)) with (S (Z.to_nat (i - (index + 1)))) by lia. simpl.
      destruct (ranges !! _); [|done]. simpl. do 2 f_equal. lia.
  - rewrite Hcnt. unfold not_done at 1; simpl. unfold pending_rows.
    rewrite map_filter_insert_True by done. rewrite map_size_insert_None.
    + unfold not_done, pending_rows. lia.
    + apply map_lookup_filter_None. by left.
Qed.

Lemma create_job_inv ts jid doc_key file_hash url ranges use_llm db db' :
  create_job_sql ts jid doc_key file_hash url ranges use_llm db = inr (tt, db') →
  db_inv db → db_inv db'.
Proof.
  unfold create_job_sql, sql_insert. destruct (db_jobs db !! jid) eqn:Hj; [done|]. simpl.
  destruct (insert_chunks _ _ _ _ _) as [|db1] eqn:Hins; [done|]. intros [= <-] [Hjobs Hchunks].
  apply insert_chunks_spec in Hins as (Hjs & _ & Hoth & Hpoth & Hrows & Hcnt). simpl in *.
  assert (∀ i, db_chunks db !! (jid, i) = None) as Hnone.
  { intros i. destruct (db_chunks db !! (jid, i)) eqn:E; [|done].
    destruct (Hchunks _ _ _ E) as [[? ?] _]. congruence. }
  assert (not_done db jid = 0) as Hz by (apply not_done_zero_iff; intros i c; by rewrite Hnone).
  split.
  - intros jid' j0. rewrite Hjs, lookup_insert_Some. intros [[<- <-]|[Hne Hj0]].
    + split; simpl.
      * intros i. rewrite Hrows, Hnone, Z.add_0_l, Z.sub_0_r.
        destruct (decide (0 <= i < len ranges)); [|split; [by intros [? ?]|lia]].
        split; [done|]. intros _. rewrite fmap_is_Some. apply lookup_lt_is_Some. unfold len in *. lia.
      * intros _. rewrite Hcnt. unfold not_done in *. simpl in *. lia.
    + destruct (Hjobs jid' j0 Hj0) as [Hdom Hc]. split.
      * intros i. rewrite Hoth by done. apply Hdom.
      * intros Hact. rewrite Hc by done. unfold not_done. by rewrite Hpoth.
  - intros jid' i c Hc. unfold chunk_inv. rewrite Hjs.
    destruct (decide (jid' = jid)) as [->|Hne].
    + split; [rewrite lookup_insert_eq; by eexists|].
      rewrite Hrows, Hnone in Hc. destruct (decide _); [|done].
      apply fmap_Some in Hc as (r & _ & ->). done.
    + rewrite lookup_insert_ne by done. rewrite Hoth in Hc by done. by apply (Hchunks jid' i).
Qed.

(** ** Consequences *)
Lemma db_inv_empty : db_inv empty_db.
Proof. split; intros * Hl; simpl in Hl; by rewrite lookup_empty in Hl. Qed.

(** ** The theorems *)

(** A two-chunk job, for the concrete instances below. *)
Definition two_chunks : database :=
  match create_job_sql 100 (u "j") (u "d:f") (u "d") (u "http://x") [(0, 20); (20, 40)] false empty_db with
  | inr (_, db) => db
  | inl _ => empty_db
  end.

Lemma two_chunks_inv : db_inv two_chunks.
Proof.
  apply (create_job_inv 100 (u "j") (u "d:f") (u "d") (u "http://x") [(0, 20); (20, 40)] false
    empty_db); [vm_compute; reflexivity|apply db_inv_empty].
Qed.

(** The worker that records the last chunk is told so, and only it: on an
    active job, recording an unrecorded chunk returns the number of chunks that
    are still unrecorded afterwards, hence 0 exactly when none is left. *)
Theorem complete_chunk_counts (ts : Z) (jid : pystr) (i : Z) (key : pystr) (db : database)
    (c : chunk) (j : job) :
  db_inv db → db_chunks db !! (jid, i) = Some c → c_status c ≠ CDone →
  db_jobs db !! jid = Some j → terminal (j_status j) = false →
  let res := complete_chunk_sql ts jid i key db in
  res.1 = not_done res.2 jid ∧ 0 <= res.1 ∧
  (res.1 = 0 ↔ ∀ i' c', db_chunks res.2 !! (jid, i') = Some c' → c_status c' = CDone).
Proof.
  intros Hinv Hc Hnd Hj Hact res.
  pose proof (complete_chunk_inv ts jid i key db Hinv) as [Hjobs _]. subst res.
  rewrite (complete_chunk_live _ _ _ _ _ c j) in * by done. simpl in *.
  destruct (Hjobs jid (decremented ts j)) as [_ Hcnt]; [by rewrite lookup_insert_eq|].
  simpl in Hcnt. specialize (Hcnt eq_refl). rewrite Hcnt.
  split; [done|]. split; [apply not_done_nonneg|]. apply not_done_zero_iff.
Qed.

Lemma complete_chunk_counts_witness :
  (complete_chunk_sql 101 (u "j") 1 (u "k") two_chunks).1 =
  not_done (complete_chunk_sql 101 (u "j") 1 (u "k") two_chunks).2 (u "j").
Proof.
  apply (complete_chunk_counts 101 (u "j") 1 (u "k") two_chunks
    (Chunk 2 20 40 CPending 0 100 None None None None 100)
    (Job (u "d:f") (u "d") (u "http://x") JQueued 2 2 0 None None 100 100)).
  - exact two_chunks_inv.
  - vm_compute. reflexivity.
  - discriminate.
  - vm_compute. reflexivity.
  - reflexivity.
Defined.

(** C12: Redelivery is harmless: recording the same chunk again, at any time and
    with any key, returns [CHUNK_ALREADY_DONE] and leaves every table as it was. *)
Theorem complete_chunk_idempotent (ts ts' : Z) (jid : pystr) (i : Z) (key key' : pystr)
    (db : database) :
  let db' := (complete_chunk_sql ts jid i key db).2 in
  complete_chunk_sql ts' jid i key' db' = (CHUNK_ALREADY_DONE, db').
Proof.
  cbv zeta. apply complete_chunk_stale. intros c'.
  destruct (complete_chunk_cases ts jid i key db)
    as [[-> Hd]|[(c & Hc & _ & _ & ->)|(c & j & Hc & _ & _ & _ & ->)]]; simpl; [apply Hd|..];
    rewrite lookup_insert_eq; by intros [= <-].
Qed.

(** A chunk recorded while its job is over is refused: the call returns
    [JOB_ALREADY_TERMINAL] and the job row is untouched. *)
Theorem complete_chunk_terminal (ts : Z) (jid : pystr) (i : Z) (key : pystr) (db : database)
    (c : chunk) (j : job) :
  db_chunks db !! (jid, i) = Some c → c_status c ≠ CDone →
  db_jobs db !! jid = Some j → terminal (j_status j) = true →
  (complete_chunk_sql ts jid i key db).1 = JOB_ALREADY_TERMINAL ∧
  db_jobs (complete_chunk_sql ts jid i key db).2 = db_jobs db.
Proof.
  intros Hc Hnd Hj Ht. rewrite (complete_chunk_dead _ _ _ _ _ c) by naive_solver. done.
Qed.

Lemma complete_chunk_terminal_witness :
  (complete_chunk_sql 102 (u "j") 0 (u "k") (fail_job_sql 101 (u "j") (u "boom") None two_chunks)).1
  = JOB_ALREADY_TERMINAL.
Proof.
  eapply (complete_chunk_terminal 102 (u "j") 0 (u "k")).
  - vm_compute. reflexivity.
  - vm_compute. discriminate.
  - vm_compute. reflexivity.
  - reflexivity.
Defined.
