(* ===== verification/Ledger.v ===== *)
(** * The ledger: what the job tables promise

    An abstract machine for what jobstore.py keeps: for each job its status, its
    number of chunks, the counter, and the set of chunk indices recorded as done.
    Its steps are the moves the service is meant to make ([spec_step]); nothing
    in them mentions SQL or rows.  [ledger_of] reads the ledger off the tables,
    and every statement of jobstore.py is one step of the machine with the same
    label ([statement_simulates]).  The counter theorems are proved on the machine and
    carried to the tables. *)
From S2P Require Import Prelude PyStr Effects Database Config World Jobstore Counter.

Implicit Types (db : database) (jid : pystr) (i : Z) (j : job) (c : chunk).

(** ** The abstract machine *)
Record account := Account {
  a_status : job_status;
  a_total : Z;
  a_left : Z;
  a_done : gset Z;
}.

Abbreviation ledger := (gmap pystr account).
Implicit Types (L : ledger) (e : account).

(** The job has neither finished nor failed. *)
Definition unfinished (s : job_status) : Prop := s ≠ JDone ∧ s ≠ JFailed.

Inductive spec_step : label → ledger → ledger → Prop :=
(** A new job, with nothing recorded and everything left to do. *)
| spec_submit jid n L :
    L !! jid = None → 0 <= n → spec_step Tau L (<[jid := Account JQueued n n ∅]> L)
| spec_begin jid n l D L :
    L !! jid = Some (Account JQueued n l D) →
    spec_step Tau L (<[jid := Account JRunning n l D]> L)
(** A chunk is recorded for the first time: one less is left, and the caller is
    told how many. *)
| spec_record jid i s n l D L :
    L !! jid = Some (Account s n l D) → unfinished s → 0 <= i < n → i ∉ D →
    spec_step (Completed jid (l - 1)) L (<[jid := Account JRunning n (l - 1) ({[i]} ∪ D)]> L)
(** The job is over: the chunk is noted, the job stays as it is. *)
| spec_record_late jid i s n l D L :
    L !! jid = Some (Account s n l D) → ¬ unfinished s → 0 <= i < n → i ∉ D →
    spec_step (Completed jid (-1)) L (<[jid := Account s n l ({[i]} ∪ D)]> L)
(** A chunk that is recorded already, or that is none of the job's. *)
| spec_record_again jid i L :
    (∀ e, L !! jid = Some e → 0 <= i < a_total e → i ∈ a_done e) →
    spec_step (Completed jid (-2)) L L
(** A recorded chunk is marked failed: it is no longer recorded, and the counter
    does not know. *)
| spec_reopen jid i s n l D L :
    L !! jid = Some (Account s n l D) → i ∈ D →
    spec_step (Reopened jid) L (<[jid := Account s n l (D ∖ {[i]})]> L)
| spec_fail jid s n l D L :
    L !! jid = Some (Account s n l D) → unfinished s →
    spec_step Tau L (<[jid := Account JFailed n l D]> L)
| spec_finish jid s n l D L :
    L !! jid = Some (Account s n l D) → spec_step Tau L (<[jid := Account JDone n l D]> L)
| spec_idle L : spec_step Tau L L.

Inductive spec_trace : list label → ledger → ledger → Prop :=
| spec_nil L : spec_trace [] L L
| spec_cons l ls L1 L2 L3 :
    spec_step l L1 L2 → spec_trace ls L2 L3 → spec_trace (l :: ls) L1 L3.

(** ** Reading the ledger off the tables *)
Definition done_set db jid (n : Z) : gset Z :=
  list_to_set (filter (λ i, chunk_recorded db jid i = true) (seqZ 0 n)).

Definition account_of db jid j : account :=
  Account (j_status j) (j_total_chunks j) (j_remaining_chunks j) (done_set db jid (j_total_chunks j)).

Definition ledger_of db : ledger := map_imap (λ jid j, Some (account_of db jid j)) (db_jobs db).

Lemma lookup_ledger db jid : ledger_of db !! jid = account_of db jid <$> db_jobs db !! jid.
Proof. unfold ledger_of. rewrite map_lookup_imap. by destruct (db_jobs db !! jid). Qed.

Lemma elem_of_done_set db jid n i :
  i ∈ done_set db jid n ↔ 0 <= i < n ∧ chunk_recorded db jid i = true.
Proof.
  unfold done_set. rewrite elem_of_list_to_set, list_elem_of_filter, elem_of_seqZ.
  rewrite Z.add_0_l. naive_solver.
Qed.

Lemma recorded_iff db jid i :
  chunk_recorded db jid i = true ↔ ∃ c, db_chunks db !! (jid, i) = Some c ∧ c_status c = CDone.
Proof.
  unfold chunk_recorded. destruct (db_chunks db !! (jid, i)) as [c|]; [|naive_solver].
  split; [intros Hd; exists c; split; [done|by destruct (c_status c)]|by intros (? & [= <-] & ->)].
Qed.

Lemma unfinished_iff s : terminal s = false ↔ unfinished s.
Proof. unfold unfinished. destruct s; simpl; naive_solver. Qed.

(** ** The shape of the tables *)

(** A job's chunk rows are numbered from 0 to [total_chunks - 1], and a chunk
    row belongs to a job. *)
Definition shape db : Prop :=
  (∀ jid j, db_jobs db !! jid = Some j →
     0 <= j_total_chunks j ∧ ∀ i, is_Some (db_chunks db !! (jid, i)) ↔ 0 <= i < j_total_chunks j) ∧
  (∀ jid i, is_Some (db_chunks db !! (jid, i)) → is_Some (db_jobs db !! jid)).

Lemma shape_empty : shape empty_db.
Proof.
  split; [intros jid j Hj; simpl in Hj; by rewrite lookup_empty in Hj|].
  intros jid i [c Hc]. simpl in Hc. by rewrite lookup_empty in Hc.
Qed.

(** ** Updates, seen from the ledger *)
Lemma recorded_insert db jid i c' jid' i' :
  chunk_recorded (set_chunks <[(jid, i) := c']> db) jid' i' =
  if decide (jid' = jid ∧ i' = i) then chunk_done (c_status c') else chunk_recorded db jid' i'.
Proof.
  unfold chunk_recorded; simpl. case_decide as Heq.
  - destruct Heq as [-> ->]. by rewrite lookup_insert_eq.
  - rewrite lookup_insert_ne by naive_solver. done.
Qed.

Lemma shape_set_chunk db jid i c c' :
  db_chunks db !! (jid, i) = Some c → shape db → shape (set_chunks <[(jid, i) := c']> db).
Proof.
  intros Hc [Hj Hb]. split.
  - intros jid' j Hj'. destruct (Hj jid' j Hj') as [? Hi]. split; [done|]. intros i'. simpl.
    by rewrite (lookup_insert_chunk_is_Some _ _ c).
  - intros jid' i'. simpl. rewrite (lookup_insert_chunk_is_Some _ _ c) by done. apply Hb.
Qed.

Lemma shape_set_job db jid j j' :
  db_jobs db !! jid = Some j → j_total_chunks j' = j_total_chunks j → shape db →
  shape (set_jobs <[jid := j']> db).
Proof.
  intros Hj Ht [Hs Hb]. split.
  - intros jid' j0. simpl. rewrite lookup_insert_Some. intros [[<- <-]|[_ Hj0]]; [|by apply Hs].
    rewrite Ht. by apply Hs.
  - intros jid' i' Hi. simpl. rewrite lookup_insert. case_decide; [by eexists|by eapply Hb].
Qed.

Lemma ledger_set_job db jid j' :
  ledger_of (set_jobs <[jid := j']> db) = <[jid := account_of db jid j']> (ledger_of db).
Proof.
  apply map_eq. intros jid'. rewrite lookup_ledger. simpl. rewrite !lookup_insert, lookup_ledger.
  case_decide; [by subst|done].
Qed.

(** Rewriting a chunk row changes the account of its job only, and only in whether
    the chunk is recorded. *)
Lemma ledger_set_chunk db jid i c c' :
  db_chunks db !! (jid, i) = Some c → chunk_done (c_status c') = chunk_done (c_status c) →
  ledger_of (set_chunks <[(jid, i) := c']> db) = ledger_of db.
Proof.
  intros Hc Hd. apply map_eq. intros jid'. rewrite !lookup_ledger. simpl.
  destruct (db_jobs db !! jid') as [j|]; [|done]. simpl. unfold account_of. do 2 f_equal.
  apply set_eq. intros i'. rewrite !elem_of_done_set, recorded_insert.
  case_decide as Heq; [|done]. destruct Heq as [-> ->]. unfold chunk_recorded. by rewrite Hc, Hd.
Qed.

Lemma ledger_flip_chunk db jid j i c' D' :
  db_jobs db !! jid = Some j →
  (∀ i', i' ∈ D' ↔ 0 <= i' < j_total_chunks j ∧
     chunk_recorded (set_chunks <[(jid, i) := c']> db) jid i' = true) →
  ledger_of (set_chunks <[(jid, i) := c']> db) =
  <[jid := Account (j_status j) (j_total_chunks j) (j_remaining_chunks j) D']> (ledger_of db).
Proof.
  intros Hj HD. apply map_eq. intros jid'. rewrite lookup_insert, lookup_ledger. simpl.
  case_decide as Hjid.
  - subst jid'. rewrite Hj. simpl. unfold account_of. do 2 f_equal. apply set_eq. intros i'.
    by rewrite elem_of_done_set, HD.
  - rewrite lookup_ledger. destruct (db_jobs db !! jid') as [j'|]; [|done]. simpl.
    unfold account_of. do 2 f_equal. apply set_eq. intros i'.
    rewrite !elem_of_done_set, recorded_insert. rewrite decide_False by naive_solver. done.
Qed.

(** ** Each statement is one step *)
Definition simulated l db db' : Prop :=
  shape db' ∧ spec_step l (ledger_of db) (ledger_of db').

Lemma simulated_idle db : shape db → simulated Tau db db.
Proof. split; [done|constructor]. Qed.

(** A statement on one chunk row that neither records nor reopens it. *)
Lemma simulated_chunk db k q f :
  shape db → (∀ c, q c = true → chunk_done (c_status (f c)) = chunk_done (c_status c)) →
  simulated Tau db (set_chunks (sql_update (at_key k q) f) db).
Proof.
  intros Hs Hf. destruct k as [jid i].
  edestruct update_chunk_cases as [[-> _]|(c & Hc & Hq & ->)]; [by apply simulated_idle|].
  split; [by eapply shape_set_chunk|]. rewrite (ledger_set_chunk _ _ _ c) by auto. constructor.
Qed.

(** A statement on one job row that only changes its status. *)
Lemma simulated_job db jid q f :
  shape db →
  (∀ j, j_total_chunks (f j) = j_total_chunks j ∧ j_remaining_chunks (f j) = j_remaining_chunks j) →
  (∀ j, ledger_of db !! jid = Some (account_of db jid j) → q j = true →
     spec_step Tau (ledger_of db)
       (<[jid := Account (j_status (f j)) (j_total_chunks j) (j_remaining_chunks j)
                   (done_set db jid (j_total_chunks j))]> (ledger_of db))) →
  simulated Tau db (set_jobs (sql_update (at_key jid q) f) db).
Proof.
  intros Hs Hf Hstep.
  edestruct update_job_cases as [[-> _]|(j & Hj & Hq & ->)]; [by apply simulated_idle|].
  destruct (Hf j) as [Ht Hr]. split; [by eapply shape_set_job|].
  rewrite ledger_set_job. unfold account_of. rewrite Ht, Hr. apply Hstep; [|done].
  by rewrite lookup_ledger, Hj.
Qed.

Lemma simulated_fail_chunk ts jid i error db :
  shape db →
  simulated (if chunk_recorded db jid i then Reopened jid else Tau) db (fail_chunk_sql ts jid i error db).
Proof.
  intros Hs. unfold fail_chunk_sql.
  edestruct update_chunk_cases as [[-> Hnone]|(c & Hc & _ & ->)].
  { unfold chunk_recorded. destruct (db_chunks db !! (jid, i)) as [c|]; [by specialize (Hnone c eq_refl)|].
    by apply simulated_idle. }
  split; [by eapply shape_set_chunk|]. unfold chunk_recorded. rewrite Hc.
  destruct (chunk_done (c_status c)) eqn:Hd; [|by rewrite (ledger_set_chunk _ _ _ c); [constructor|..]].
  destruct Hs as [Hs Hb]. destruct (Hb jid i) as [j Hj]; [by eexists|].
  destruct (Hs jid j Hj) as [_ Hdom].
  rewrite (ledger_flip_chunk _ _ j _ _ (done_set db jid (j_total_chunks j) ∖ {[i]})); [|done|].
  - eapply spec_reopen with (i := i); [by rewrite lookup_ledger, Hj|].
    apply elem_of_done_set. split; [apply Hdom; by eexists|]. unfold chunk_recorded. by rewrite Hc.
  - intros i'. rewrite elem_of_difference, elem_of_singleton, elem_of_done_set, recorded_insert.
    case_decide as Heq; simpl; naive_solver.
Qed.

Lemma simulated_complete ts jid i key db :
  shape db →
  simulated (Completed jid (complete_chunk_sql ts jid i key db).1) db
    (complete_chunk_sql ts jid i key db).2.
Proof.
  intros Hs. destruct (complete_chunk_cases ts jid i key db)
    as [[-> Hd]|[(c & Hc & Hnd & Hterm & ->)|(c & j & Hc & Hnd & Hj & Ht & ->)]]; simpl.
  { split; [done|]. apply (spec_record_again jid i). intros e. rewrite lookup_ledger.
    intros (j & Hj & ->)%fmap_Some Hi. simpl in *. apply elem_of_done_set. split; [done|].
    apply recorded_iff. destruct Hs as [Hs _]. destruct (Hs jid j Hj) as [_ Hdom].
    destruct (proj2 (Hdom i) Hi) as [c Hc]. eauto. }
  all: assert (chunk_recorded db jid i ≠ true) as Hnr
    by (intros (c' & Hc' & Hd)%recorded_iff; congruence).
  all: assert (∀ j, db_jobs db !! jid = Some j → 0 <= i < j_total_chunks j ∧
    i ∉ done_set db jid (j_total_chunks j)) as Hi
    by (intros j' Hj'; destruct (proj1 Hs jid j' Hj') as [_ Hdom]; split; [apply Hdom; by eexists|];
        rewrite elem_of_done_set; naive_solver).
  all: assert (∀ j i', i' ∈ {[i]} ∪ done_set db jid (j_total_chunks j) ↔
    (i' = i ∨ 0 <= i' < j_total_chunks j ∧ chunk_recorded db jid i' = true)) as Hset
    by (intros; rewrite elem_of_union, elem_of_singleton, elem_of_done_set; done).
  - split; [by eapply shape_set_chunk|]. destruct (proj2 Hs jid i) as [j Hj]; [by eexists|].
    destruct (Hi j Hj) as [Hr Hni].
    rewrite (ledger_flip_chunk _ _ j _ _ ({[i]} ∪ done_set db jid (j_total_chunks j))); [|done|].
    + apply (spec_record_late _ i); [by rewrite lookup_ledger, Hj| |done..].
      rewrite <-unfinished_iff. rewrite (Hterm j Hj). done.
    + intros i'. rewrite Hset, recorded_insert. case_decide; naive_solver.
  - destruct (Hi j Hj) as [Hr Hni].
    split; [eapply shape_set_job; [exact Hj|done|]; by eapply shape_set_chunk|].
    rewrite ledger_set_job.
    rewrite (ledger_flip_chunk _ _ j _ _ ({[i]} ∪ done_set db jid (j_total_chunks j))), insert_insert_eq;
      [|done|].
    + unfold account_of; simpl.
      assert (done_set (set_chunks <[(jid, i) := done_row ts key c]> db) jid (j_total_chunks j) =
        {[i]} ∪ done_set db jid (j_total_chunks j)) as ->.
      { apply set_eq. intros i'. rewrite Hset, elem_of_done_set, recorded_insert.
        case_decide; naive_solver. }
      eapply spec_record; [by rewrite lookup_ledger, Hj|by apply unfinished_iff|done..].
    + intros i'. rewrite Hset, recorded_insert. case_decide; naive_solver.
Qed.

Lemma simulated_create ts jid doc_key file_hash url ranges use_llm db db' :
  shape db → create_job_sql ts jid doc_key file_hash url ranges use_llm db = inr (tt, db') →
  simulated Tau db db'.
Proof.
  intros [Hs Hb]. unfold create_job_sql, sql_insert.
  destruct (db_jobs db !! jid) eqn:Hj; [done|]. simpl.
  destruct (insert_chunks _ _ _ _ _) as [|db1] eqn:Hins; [done|]. intros [= <-].
  apply insert_chunks_spec in Hins as (Hjs & _ & Hoth & _ & Hrows & _). simpl in *.
  assert (∀ i, db_chunks db !! (jid, i) = None) as Hnone.
  { intros i. destruct (db_chunks db !! (jid, i)) eqn:E; [|done].
    destruct (Hb jid i) as [? ?]; [by eexists|]. congruence. }
  assert (∀ i, is_Some (db_chunks db1 !! (jid, i)) ↔ 0 <= i < len ranges) as Hdom.
  { intros i. rewrite Hrows, Hnone, Z.add_0_l, Z.sub_0_r.
    destruct (decide (0 <= i < len ranges)); [|split; [by intros [? ?]|lia]].
    split; [done|]. intros _. rewrite fmap_is_Some. apply lookup_lt_is_Some. unfold len in *. lia. }
  split.
  - split.
    + intros jid' j0. rewrite Hjs, lookup_insert_Some. intros [[<- <-]|[Hne Hj0]].
      * simpl. split; [apply len_nonneg|done].
      * destruct (Hs jid' j0 Hj0) as [? Hd]. split; [done|]. intros i. by rewrite Hoth.
    + intros jid' i Hi. rewrite Hjs, lookup_insert. case_decide; [by eexists|].
      apply (Hb jid' i). by rewrite <-Hoth.
  - assert (ledger_of db1 = <[jid := Account JQueued (len ranges) (len ranges) ∅]> (ledger_of db)) as ->.
    { apply map_eq. intros jid'. rewrite lookup_insert, !lookup_ledger, Hjs, lookup_insert.
      case_decide as Heq.
      - subst jid'. simpl. unfold account_of; simpl. do 2 f_equal. apply set_eq. intros i.
        rewrite elem_of_done_set. split; [|set_solver]. intros [_ (c & Hc & Hd)%recorded_iff].
        rewrite Hrows, Hnone in Hc. destruct (decide _); [|done].
        apply fmap_Some in Hc as (r & _ & ->). done.
      - destruct (db_jobs db !! jid') as [j'|]; [|done]. simpl. unfold account_of. do 2 f_equal.
        apply set_eq. intros i. rewrite !elem_of_done_set. unfold chunk_recorded. by rewrite Hoth by done. }
    constructor; [by rewrite lookup_ledger, Hj|apply len_nonneg].
Qed.

(** The simulation: one statement, one step, the same label. *)
Lemma statement_simulates l db db' : db_step l db db' → shape db → simulated l db db'.
Proof.
  destruct 1; intros Hs.
  - by eapply simulated_create.
  - apply simulated_chunk; [done|]. intros c Hq. simpl. by destruct (c_status c).
  - apply simulated_job; [done|done|]. intros j Hl Hq%bool_decide_eq_true. simpl.
    apply spec_begin. by rewrite Hl; unfold account_of; rewrite Hq.
  - by apply simulated_fail_chunk.
  - apply simulated_chunk; [done|]. intros c Hq. simpl. by destruct (c_status c).
  - by apply simulated_complete.
  - apply simulated_job; [done|done|]. intros j Hl Hq. eapply spec_fail; [exact Hl|].
    apply unfinished_iff. by destruct (terminal (j_status j)).
  - apply simulated_job; [done|done|]. intros j Hl _. by eapply spec_finish.
  - split; [done|constructor].
  - by apply simulated_idle.
Qed.

Lemma trace_simulates ls db db' :
  db_trace ls db db' → shape db → shape db' ∧ spec_trace ls (ledger_of db) (ledger_of db').
Proof.
  induction 1 as [|l ls db1 db2 db3 Hstep _ IH]; intros Hs; [by split; [|constructor]|].
  destruct (statement_simulates _ _ _ Hstep Hs) as [Hs2 Hsp]. destruct (IH Hs2) as [? ?].
  split; [done|]. by econstructor.
Qed.

Lemma ledger_empty : ledger_of empty_db = ∅.
Proof. apply map_eq. intros jid. by rewrite lookup_ledger, !lookup_empty. Qed.

Lemma trace_ledger ls db :
  db_trace ls empty_db db → shape db ∧ spec_trace ls ∅ (ledger_of db).
Proof. rewrite <-ledger_empty. intros Htr. exact (trace_simulates _ _ _ Htr shape_empty). Qed.

(** ** The counter, on the abstract machine *)
Definition indices (n : Z) : gset Z := list_to_set (seqZ 0 n).

Lemma elem_of_indices n i : i ∈ indices n ↔ 0 <= i < n.
Proof. unfold indices. rewrite elem_of_list_to_set, elem_of_seqZ. lia. Qed.

Lemma size_indices n : 0 <= n → Z.of_nat (size (indices n)) = n.
Proof.
  intros Hn. unfold indices. rewrite size_list_to_set by apply NoDup_seqZ.
  rewrite length_seqZ. lia.
Qed.

(** How often a recorded chunk of the job was marked failed. *)
Definition reopened jid (ls : list label) : Z := len (filter (Reopened jid =.) ls).

Lemma reopened_cons jid l ls : reopened jid (l :: ls) = reopened jid [l] + reopened jid ls.
Proof.
  unfold reopened. rewrite !filter_cons. destruct (decide (Reopened jid = l));
    rewrite ?filter_nil, ?len_cons; unfold len; simpl length; lia.
Qed.

Lemma reopened_nonneg jid ls : 0 <= reopened jid ls.
Proof. apply len_nonneg. Qed.

(** The recorded chunks are chunks of the job, and while it is unfinished the
    counter is what is left of them, less the chunks that were reopened. *)
Definition accounts (k : pystr → Z) L : Prop :=
  ∀ jid, match L !! jid with
         | None => k jid = 0
         | Some (Account s n l D) =>
             0 <= n ∧ D ⊆ indices n ∧ (unfinished s → l = n - Z.of_nat (size D) - k jid)
         end.

Lemma accounts_ext k k' L : (∀ jid, k' jid = k jid) → accounts k L → accounts k' L.
Proof. intros Hk Ha jid. rewrite Hk. apply Ha. Qed.

Lemma accounts_insert k k' L jid s n l D s' n' l' D' :
  accounts k L → L !! jid = Some (Account s n l D) → (∀ jid', jid' ≠ jid → k' jid' = k jid') →
  (0 <= n → D ⊆ indices n → (unfinished s → l = n - Z.of_nat (size D) - k jid) →
   0 <= n' ∧ D' ⊆ indices n' ∧ (unfinished s' → l' = n' - Z.of_nat (size D') - k' jid)) →
  accounts k' (<[jid := Account s' n' l' D']> L).
Proof.
  intros Ha Hl Hk He jid'. rewrite lookup_insert. case_decide as Heq.
  - subst jid'. specialize (Ha jid). rewrite Hl in Ha. destruct Ha as (? & ? & ?). by apply He.
  - specialize (Ha jid'). by rewrite Hk.
Qed.

Lemma reopened_other jid l : l ≠ Reopened jid → reopened jid [l] = 0.
Proof. intros Hne. unfold reopened. rewrite filter_cons_False by congruence. done. Qed.

Lemma reopened_here jid : reopened jid [Reopened jid] = 1.
Proof. unfold reopened. by rewrite filter_cons_True. Qed.

Lemma accounts_step k l L L' :
  spec_step l L L' → accounts k L → accounts (λ jid, k jid + reopened jid [l]) L'.
Proof.
  intros Hstep Ha.
  assert ((∃ jid, l = Reopened jid) ∨ ∀ jid, l ≠ Reopened jid) as [Hre|Hq]
    by (destruct l; [by right|by right|left; by eexists]).
  { destruct Hstep as [| | | | |jid i s n lf D L Hl Hi| | |]; try (exfalso; naive_solver).
    eapply accounts_insert; [done..| |].
    - intros jid' Hne. rewrite reopened_other, Z.add_0_r by congruence. done.
    - intros Hn Hsub Hc. rewrite reopened_here. split; [done|]. split; [set_solver|]. intros Hu.
      rewrite size_difference by set_solver. rewrite size_singleton.
      assert (size D ≠ 0%nat) by (apply size_non_empty_iff; set_solver). specialize (Hc Hu). lia. }
  apply (accounts_ext k).
  { intros jid. rewrite reopened_other, Z.add_0_r; [done|]. apply Hq. }
  assert (∀ i n D, 0 <= i < n → D ⊆ indices n → {[i]} ∪ D ⊆ indices n) as Hadd.
  { intros i n D Hi HD. apply union_subseteq. split; [|done].
    apply singleton_subseteq_l. by apply elem_of_indices. }
  destruct Hstep as [jid n L Hl Hn|jid n lf D L Hl|jid i s n lf D L Hl Hu Hi Hni
    |jid i s n lf D L Hl Hu Hi Hni|jid i L Hd|jid i s n lf D L Hl Hi|jid s n lf D L Hl Hu
    |jid s n lf D L Hl|L]; try done; try (eapply accounts_insert; [done..|]; intros Hn Hsub Hc).
  - intros jid'. rewrite lookup_insert. specialize (Ha jid').
    case_decide; [subst jid'|done]. rewrite Hl in Ha. rewrite size_empty.
    split; [done|]. split; [set_solver|lia].
  - repeat split; try done. intros _. by apply Hc.
  - repeat split; [done|by apply Hadd|]. intros _. rewrite size_union by set_solver.
    rewrite size_singleton. specialize (Hc Hu). lia.
  - repeat split; [done|by apply Hadd|done].
  - by destruct (Hq jid).
  - repeat split; try done. by intros [_ ?].
  - repeat split; try done. by intros [? _].
Qed.

Lemma accounts_trace k ls L L' :
  spec_trace ls L L' → accounts k L → accounts (λ jid, k jid + reopened jid ls) L'.
Proof.
  intros Htr. revert k. induction Htr as [L|l ls L1 L2 L3 Hstep _ IH]; intros k Ha.
  - eapply accounts_ext; [|exact Ha]. intros jid. change (reopened jid []) with 0. lia.
  - eapply accounts_ext; [|exact (IH _ (accounts_step _ _ _ _ Hstep Ha))]. intros jid. simpl.
    rewrite (reopened_cons _ l ls). lia.
Qed.

Lemma accounts_empty : accounts (λ _, 0) ∅.
Proof. intros jid. by rewrite lookup_empty. Qed.

(** ** One assembler *)

(** How often a caller was told that it recorded the job's last chunk. *)
Definition zeros jid (ls : list label) : Z := len (filter (Completed jid 0 =.) ls).

Lemma zeros_cons jid l ls : zeros jid (l :: ls) = zeros jid [l] + zeros jid ls.
Proof.
  unfold zeros. rewrite !filter_cons. destruct (decide (Completed jid 0 = l));
    rewrite ?filter_nil, ?len_cons; unfold len; simpl length; lia.
Qed.

Lemma zeros_other jid l : l ≠ Completed jid 0 → zeros jid [l] = 0.
Proof. intros Hne. unfold zeros. rewrite filter_cons_False by congruence. done. Qed.

Lemma zeros_here jid : zeros jid [Completed jid 0] = 1.
Proof. unfold zeros. by rewrite filter_cons_True. Qed.

(** With [z] calls told so: none as long as a chunk is missing, and one as soon
    as an unfinished job has them all. *)
Definition sole jid (z : Z) L : Prop :=
  match L !! jid with
  | None => z = 0
  | Some (Account s n _ D) =>
      (z = 0 ∨ z = 1) ∧ (z = 1 → D = indices n) ∧
      (unfinished s → 0 < n → D = indices n → z = 1)
  end.

Lemma sole_other jid jid' z L e : jid ≠ jid' → sole jid z L → sole jid z (<[jid' := e]> L).
Proof. intros Hne. unfold sole. by rewrite lookup_insert_ne. Qed.

Lemma sole_status jid z L s s' n l l' D :
  L !! jid = Some (Account s n l D) → (unfinished s' → unfinished s) → sole jid z L →
  sole jid z (<[jid := Account s' n l' D]> L).
Proof. intros Hl Hs. unfold sole. rewrite Hl, lookup_insert_eq. naive_solver. Qed.

Lemma full_size n (D : gset Z) : 0 <= n → D ⊆ indices n → D = indices n ↔ Z.of_nat (size D) = n.
Proof.
  intros Hn Hsub. split; [intros ->; by apply size_indices|]. intros Hsz.
  pose proof (size_indices n Hn). apply leibniz_equiv. apply set_subseteq_size_equiv; [done|lia].
Qed.

(** Recording a missing chunk: the number reported says whether it was the last. *)
Lemma sole_record k jid z L i s n l D :
  accounts k L → k jid = 0 → L !! jid = Some (Account s n l D) → unfinished s → 0 <= i < n → i ∉ D →
  sole jid z L →
  sole jid (z + zeros jid [Completed jid (l - 1)]) (<[jid := Account JRunning n (l - 1) ({[i]} ∪ D)]> L).
Proof.
  intros Ha Hk Hl Hu Hi Hni. unfold sole. rewrite Hl, lookup_insert_eq. intros (Hz & Hfull & _).
  pose proof (Ha jid) as Hacc. rewrite Hl, Hk in Hacc. destruct Hacc as (Hn & Hsub & Hc).
  specialize (Hc Hu).
  assert (z = 0) as ->.
  { destruct Hz as [|Hz]; [done|]. exfalso. apply Hni. rewrite (Hfull Hz). by apply elem_of_indices. }
  assert ({[i]} ∪ D ⊆ indices n) as Hsub'.
  { apply union_subseteq. split; [|done]. apply singleton_subseteq_l. by apply elem_of_indices. }
  pose proof (full_size n _ Hn Hsub') as Hiff.
  rewrite size_union in Hiff by set_solver. rewrite size_singleton in Hiff.
  destruct (decide (l - 1 = 0)) as [Heq|Hne].
  - rewrite Heq, zeros_here. split; [by right|]. split; [|done]. intros _. apply Hiff. lia.
  - rewrite zeros_other by congruence. split; [by left|]. split; [lia|].
    intros _ _ Hall%Hiff. lia.
Qed.

Lemma sole_step k jid z l L L' :
  spec_step l L L' → l ≠ Reopened jid → accounts k L → k jid = 0 → sole jid z L →
  sole jid (z + zeros jid [l]) L'.
Proof.
  intros Hstep Hnr Ha Hk Hs.
  destruct Hstep as [jid' n L Hl Hn|jid' n lf D L Hl|jid' i s n lf D L Hl Hu Hi Hni
    |jid' i s n lf D L Hl Hu Hi Hni|jid' i L Hd|jid' i s n lf D L Hl Hi|jid' s n lf D L Hl Hu
    |jid' s n lf D L Hl|L];
    try (destruct (decide (jid = jid')) as [<-|Hne];
         [|rewrite zeros_other, Z.add_0_r by congruence; by try apply sole_other]);
    try (by eapply sole_record); rewrite zeros_other, ?Z.add_0_r by done; try done.
  - unfold sole in *. rewrite Hl in Hs. rewrite lookup_insert_eq. subst z.
    split; [by left|]. split; [done|]. intros _ Hpos Hall.
    assert (0 ∈ (∅ : gset Z)) by (rewrite Hall; apply elem_of_indices; lia). set_solver.
  - by eapply sole_status.
  - unfold sole in *. rewrite Hl in Hs. rewrite lookup_insert_eq. destruct Hs as (Hz & Hf & _).
    split; [done|]. split; [|by intros ?]. intros Hz1. rewrite (Hf Hz1) in Hni.
    exfalso. apply Hni. by apply elem_of_indices.
  - by eapply sole_status.
  - eapply sole_status; [done| |done]. by intros [? _].
Qed.

Lemma reopened_none_cons jid l ls :
  reopened jid (l :: ls) = 0 → l ≠ Reopened jid ∧ reopened jid [l] = 0 ∧ reopened jid ls = 0.
Proof.
  rewrite reopened_cons. pose proof (reopened_nonneg jid [l]). pose proof (reopened_nonneg jid ls).
  intros Hz. split; [|lia]. intros ->. rewrite reopened_here in *. lia.
Qed.

Lemma sole_trace k jid z ls L L' :
  spec_trace ls L L' → reopened jid ls = 0 → accounts k L → k jid = 0 → sole jid z L →
  sole jid (z + zeros jid ls) L'.
Proof.
  intros Htr. revert k z. induction Htr as [L|l ls L1 L2 L3 Hstep _ IH]; intros k z Hr Ha Hk Hs.
  - change (zeros jid []) with 0. by rewrite Z.add_0_r.
  - apply reopened_none_cons in Hr as (Hne & Hr1 & Hr). rewrite zeros_cons, Z.add_assoc.
    eapply IH; [done|by eapply accounts_step|lia|by eapply sole_step].
Qed.

(** ** Back to the tables *)
Lemma length_filter_negb {A} (p : A → bool) (xs : list A) :
  (length (filter (λ x, p x = true) xs) + length (filter (λ x, p x ≠ true) xs) = length xs)%nat.
Proof.
  induction xs as [|x xs IH]; [done|]. rewrite !filter_cons.
  destruct (decide (p x = true)); rewrite ?decide_True, ?decide_False by naive_solver; simpl; lia.
Qed.

(** The chunk rows that are not done are those that are not recorded. *)
Lemma not_done_done_set db jid j :
  shape db → db_jobs db !! jid = Some j →
  not_done db jid = j_total_chunks j - Z.of_nat (size (done_set db jid (j_total_chunks j))).
Proof.
  intros [Hs _] Hj. destruct (Hs jid j Hj) as [Hn Hdom].
  set (n := j_total_chunks j) in *.
  assert (dom (pending_rows jid (db_chunks db)) =
    list_to_set ((jid,.) <$> filter (λ i, chunk_recorded db jid i ≠ true) (seqZ 0 n))) as Heq.
  { apply set_eq. intros [jid' i]. rewrite elem_of_dom, elem_of_list_to_set, list_elem_of_fmap.
    unfold pending_rows. setoid_rewrite list_elem_of_filter. setoid_rewrite elem_of_seqZ. split.
    - intros [c [Hc [Hjid Hst]]%map_lookup_filter_Some]. simpl in *. subst jid'. exists i.
      split; [done|]. split; [|rewrite Z.add_0_l; apply Hdom; by eexists].
      intros (c' & Hc' & Hd)%recorded_iff. congruence.
    - intros (i' & [= -> ->] & Hnr & Hi). destruct (proj2 (Hdom i') Hi) as [c Hc]. exists c.
      apply map_lookup_filter_Some. repeat split; [done|]. simpl. intros Hd. apply Hnr, recorded_iff.
      eauto. }
  unfold not_done, done_set. rewrite <-size_dom, Heq.
  rewrite !size_list_to_set;
    [|apply NoDup_filter, NoDup_seqZ|apply NoDup_fmap_2, NoDup_filter, NoDup_seqZ; by intros ?? [=]].
  rewrite length_fmap. pose proof (length_filter_negb (chunk_recorded db jid) (seqZ 0 n)) as Hlen.
  rewrite length_seqZ in Hlen. lia.
Qed.

Lemma not_done_recorded db jid j :
  shape db → db_jobs db !! jid = Some j →
  not_done db jid =
    j_total_chunks j - len (filter (λ i, chunk_recorded db jid i = true) (seqZ 0 (j_total_chunks j))).
Proof.
  intros Hs Hj. rewrite (not_done_done_set _ _ _ Hs Hj). unfold done_set, len.
  by rewrite size_list_to_set by apply NoDup_filter, NoDup_seqZ.
Qed.

Lemma trace_counts ls db jid j :
  db_trace ls empty_db db → db_jobs db !! jid = Some j → terminal (j_status j) = false →
  j_remaining_chunks j = not_done db jid - reopened jid ls ∧ not_done db jid <= j_total_chunks j.
Proof.
  intros [Hs Hsp]%trace_ledger Hj Hact%unfinished_iff.
  pose proof (accounts_trace _ _ _ _ Hsp accounts_empty jid) as Ha.
  rewrite lookup_ledger, Hj in Ha. simpl in Ha. destruct Ha as (_ & _ & Hc). specialize (Hc Hact).
  pose proof (not_done_done_set _ _ _ Hs Hj). lia.
Qed.

Lemma not_reopened jid ls : Reopened jid ∉ ls → reopened jid ls = 0.
Proof. intros Hno. unfold reopened. rewrite filter_none; [done|]. intros l Hl <-. done. Qed.

Lemma trace_exact ls db jid j :
  db_trace ls empty_db db → Reopened jid ∉ ls → db_jobs db !! jid = Some j →
  terminal (j_status j) = false → j_remaining_chunks j = not_done db jid.
Proof.
  intros Htr Hno%not_reopened Hj Hact. destruct (trace_counts _ _ _ _ Htr Hj Hact). lia.
Qed.

Lemma not_done_pos db jid :
  0 < not_done db jid → ∃ i c, db_chunks db !! (jid, i) = Some c ∧ c_status c ≠ CDone.
Proof.
  intros Hpos. unfold not_done in Hpos.
  destruct (map_choose (pending_rows jid (db_chunks db))) as ([jid' i] & c & Hc).
  { intros He. rewrite He, map_size_empty in Hpos. lia. }
  apply map_lookup_filter_Some in Hc as [Hc [Hjid Hst]]. simpl in *. subst jid'. eauto.
Qed.

Lemma full_iff db jid n :
  (∀ i, is_Some (db_chunks db !! (jid, i)) ↔ 0 <= i < n) →
  done_set db jid n = indices n ↔ ∀ i c, db_chunks db !! (jid, i) = Some c → c_status c = CDone.
Proof.
  intros Hdom. split.
  - intros Heq i c Hc. assert (i ∈ indices n) as Hi by (apply elem_of_indices, Hdom; by eexists).
    rewrite <-Heq in Hi. apply elem_of_done_set in Hi as [_ (c' & Hc' & Hd)%recorded_iff]. congruence.
  - intros Hall. apply set_eq. intros i. rewrite elem_of_done_set, elem_of_indices.
    split; [by intros [? _]|]. intros Hi. split; [done|]. apply recorded_iff.
    destruct (proj2 (Hdom i) Hi) as [c Hc]. eauto.
Qed.

(** ** The theorems *)

(** C10: What the counter is worth, along every interleaving of jobstore
    statements from the empty database, with no assumption on when [fail_chunk]
    is called: an active job's [remaining_chunks] is the number of its chunk rows that
    are not [done], less one for each time [fail_chunk] hit a recorded chunk of
    the job.  So it never exceeds [total_chunks], and as long as no recorded chunk
    was marked failed it is exact and never negative. *)
Theorem counter_invariant (ls : list label) (db : database) (jid : pystr) (j : job) :
  db_trace ls empty_db db → db_jobs db !! jid = Some j → terminal (j_status j) = false →
  j_remaining_chunks j = not_done db jid - len (filter (Reopened jid =.) ls) ∧
  j_remaining_chunks j <= j_total_chunks j ∧
  (Reopened jid ∉ ls → j_remaining_chunks j = not_done db jid ∧ 0 <= j_remaining_chunks j).
Proof.
  intros Htr Hj Hact. destruct (trace_counts _ _ _ _ Htr Hj Hact) as [Hc Hle].
  pose proof (reopened_nonneg jid ls). pose proof (not_done_nonneg db jid).
  split; [done|]. split; [lia|]. intros Hno%not_reopened. lia.
Qed.

(** The states of the two-chunk job after chunk 1, then chunk 0, are recorded. *)
Definition one_left : database := (complete_chunk_sql 101 (u "j") 1 (u "k1") two_chunks).2.
Definition none_left : database := (complete_chunk_sql 102 (u "j") 0 (u "k0") one_left).2.
Definition two_chunks_job : job := Job (u "d:f") (u "d") (u "http://x") JQueued 2 2 0 None None 100 100.

Lemma two_chunks_step : db_step Tau empty_db two_chunks.
Proof.
  apply (step_create 100 (u "j") (u "d:f") (u "d") (u "http://x") [(0, 20); (20, 40)] false).
  vm_compute. reflexivity.
Qed.

Lemma one_left_step : db_step (Completed (u "j") 1) two_chunks one_left.
Proof. apply (step_complete_eq 101 _ 1 (u "k1")). vm_compute. reflexivity. Qed.

Lemma none_left_step : db_step (Completed (u "j") 0) one_left none_left.
Proof. apply (step_complete_eq 102 _ 0 (u "k0")). vm_compute. reflexivity. Qed.

Lemma one_left_trace : db_trace [Tau; Completed (u "j") 1] empty_db one_left.
Proof.
  eapply trace_cons; [exact two_chunks_step|]. eapply trace_cons; [exact one_left_step|constructor].
Qed.

(** Chunk 1, recorded, is marked failed: two rows are not done and the counter says 1. *)
Lemma counter_invariant_witness :
  not_done (fail_chunk_sql 102 (u "j") 1 (u "late") one_left) (u "j") = 2 ∧
  1 = not_done (fail_chunk_sql 102 (u "j") 1 (u "late") one_left) (u "j") - 1.
Proof.
  split; [vm_compute; reflexivity|].
  destruct (counter_invariant [Tau; Completed (u "j") 1; Reopened (u "j")]
    (fail_chunk_sql 102 (u "j") 1 (u "late") one_left) (u "j") (decremented 101 two_chunks_job))
    as [Hc _].
  - eapply trace_cons; [exact two_chunks_step|]. eapply trace_cons; [exact one_left_step|].
    eapply trace_cons; [|constructor].
    apply (step_fail_eq 102 (u "j") 1 (u "late")); [vm_compute|]; reflexivity.
  - vm_compute. reflexivity.
  - reflexivity.
  - exact Hc.
Defined.

(** C11: Exactly one worker assembles.  Along every interleaving of jobstore
    statements from the empty database in which no recorded chunk of the job is
    marked failed: [complete_chunk] answers 0 for the job at most once; when it has
    answered 0, all the chunk rows are done; and when all the chunk rows of an
    active job are done, it has answered 0 exactly once.  So whatever the number
    of workers, redeliveries and retries, one caller and only one is told to
    assemble, and not before every part is there. *)
Theorem assembler_unique (ls : list label) (db : database) (jid : pystr) (j : job) :
  db_trace ls empty_db db → Reopened jid ∉ ls → db_jobs db !! jid = Some j → 0 < j_total_chunks j →
  let told := length (filter (Completed jid 0 =.) ls) in
  let all_done := ∀ i c, db_chunks db !! (jid, i) = Some c → c_status c = CDone in
  (told <= 1)%nat ∧ (told = 1%nat → all_done) ∧
  (terminal (j_status j) = false → all_done → told = 1%nat).
Proof.
  intros Htr Hno Hj Hpos. apply trace_ledger in Htr as [Hs Hsp].
  apply not_reopened in Hno as Hr.
  assert (sole jid 0 ∅) as H0 by (unfold sole; by rewrite lookup_empty).
  pose proof (sole_trace (λ _, 0) jid 0 ls _ _ Hsp Hr accounts_empty eq_refl H0) as Hsole.
  unfold sole in Hsole. rewrite lookup_ledger, Hj in Hsole. simpl in Hsole.
  destruct Hsole as (Hz & Hall & Hone). unfold zeros, len in *.
  destruct (proj1 Hs jid j Hj) as [_ Hdom]. pose proof (full_iff db jid _ Hdom) as Hfull.
  split; [lia|]. split; [intros Ht; apply Hfull, Hall; lia|].
  intros Hact%unfinished_iff Had%Hfull. specialize (Hone Hact Hpos Had). lia.
Qed.

Lemma assembler_unique_witness :
  let ls := [Tau; Completed (u "j") 1; Completed (u "j") 0; Completed (u "j") CHUNK_ALREADY_DONE] in
  length (filter (Completed (u "j") 0 =.) ls) = 1%nat.
Proof.
  cbv zeta. destruct (assembler_unique [Tau; Completed (u "j") 1; Completed (u "j") 0;
    Completed (u "j") CHUNK_ALREADY_DONE] none_left (u "j")
    (decremented 102 (decremented 101 two_chunks_job))) as (_ & _ & Hone).
  - eapply trace_cons; [exact two_chunks_step|]. eapply trace_cons; [exact one_left_step|].
    eapply trace_cons; [exact none_left_step|].
    eapply (trace_cons _ _ _ none_left); [|constructor].
    apply (step_complete_eq 103 _ 0 (u "k0")). vm_compute. reflexivity.
  - set_solver.
  - vm_compute. reflexivity.
  - reflexivity.
  - apply Hone; [reflexivity|]. apply not_done_zero_iff. vm_compute. reflexivity.
Defined.

(** C26: The guard [fail_chunk] lacks.  In every state reached without it, let an
    active job have a recorded chunk [i].  Marking [i] failed and recording it
    again (a late failure, then a redelivery) counts it twice: the completion
    answers one less than the number of chunks that are still missing afterwards.
    In particular, with one chunk missing it answers 0, "you are the last", and
    that chunk has not been converted. *)
Theorem fail_chunk_breaks_the_counter (ls : list label) (db : database) (jid : pystr) (j : job)
    (i : Z) (c : chunk) (ts ts' : Z) (error key : pystr) :
  db_trace ls empty_db db → Reopened jid ∉ ls →
  db_jobs db !! jid = Some j → terminal (j_status j) = false →
  db_chunks db !! (jid, i) = Some c → c_status c = CDone →
  let res := complete_chunk_sql ts' jid i key (fail_chunk_sql ts jid i error db) in
  res.1 = not_done res.2 jid - 1 ∧ not_done res.2 jid = not_done db jid ∧
  (not_done db jid = 1 → res.1 = 0 ∧
     ∃ i' c', db_chunks res.2 !! (jid, i') = Some c' ∧ c_status c' ≠ CDone).
Proof.
  intros Htr Hno Hj Hact Hc Hd. cbv zeta.
  pose proof (trace_exact _ _ _ _ Htr Hno Hj Hact) as Hrem.
  unfold fail_chunk_sql.
  edestruct update_chunk_cases as [[_ Hnone]|(c0 & Hc0 & _ & ->)]; [by specialize (Hnone _ Hc)|].
  rewrite Hc in Hc0. injection Hc0 as <-.
  erewrite complete_chunk_live; [|simpl; by rewrite lookup_insert_eq|done|exact Hj|done]. cbn [fst snd].
  match goal with |- context [not_done ?db' jid] => assert (not_done db' jid = not_done db jid) as Hnd end.
  { unfold not_done; simpl. rewrite insert_insert_eq. f_equal. by erewrite pending_rows_insert. }
  rewrite Hnd, Hrem. split; [done|]. split; [done|]. intros Hone. split; [lia|]. apply not_done_pos. rewrite Hnd. lia.
Qed.

Lemma fail_chunk_breaks_the_counter_witness :
  (complete_chunk_sql 103 (u "j") 1 (u "k1") (fail_chunk_sql 102 (u "j") 1 (u "late") one_left)).1 = 0 ∧
  chunk_recorded (complete_chunk_sql 103 (u "j") 1 (u "k1")
    (fail_chunk_sql 102 (u "j") 1 (u "late") one_left)).2 (u "j") 0 = false.
Proof.
  destruct (fail_chunk_breaks_the_counter [Tau; Completed (u "j") 1] one_left (u "j")
    (decremented 101 two_chunks_job) 1
    (done_row 101 (u "k1") (Chunk 2 20 40 CPending 0 100 None None None None 100))
    102 103 (u "late") (u "k1")) as (_ & _ & Hzero).
  - exact one_left_trace.
  - set_solver.
  - vm_compute. reflexivity.
  - reflexivity.
  - vm_compute. reflexivity.
  - reflexivity.
  - split; [|vm_compute; reflexivity]. apply Hzero. vm_compute. reflexivity.
Defined.
