(* ===== verification/Files.v ===== *)
(** * Local files and third-party libraries

    The file-system calls of the Python processes, as actions on the files of
    one host, and the libraries the sources call (pypdf, markitdown, hashlib,
    tempfile's choice of names) as the parameters of a class. *)
From S2P Require Import Prelude PyStr Effects Database World.

(** ** Third-party code *)
Class Externals := {
  pdf_page : Type;
  (** [PdfReader(path).pages], from the file's bytes *)
  pdf_pages : bytes → exn + list pdf_page;
  (** a [PdfWriter] with these pages, written out *)
  pdf_write : list pdf_page → exn + bytes;
  (** [MarkItDown(...).convert(path).markdown]: the LLM model if one is used,
      the path (its extension guides markitdown) and the file's bytes *)
  md_convert : option pystr → pystr → bytes → exn + pystr;
  (** [requests.get(url, stream=True)]: the status code and the blocks of the
      body, the stream breaking with an exception where one is given *)
  http_get : pystr → exn + Z * list (exn + bytes);
  (** [importlib.metadata.version("markitdown")], if it is installed *)
  md_version : option pystr;
  (** [hashlib.sha256(data).hexdigest()] *)
  sha256_hex : bytes → pystr;
  (** the name [tempfile.mkstemp(dir, suffix)] picks, given the names in use *)
  temp_name : gset pystr → pystr → pystr → pystr;
}.

(** [os.path.join(a, b)] *)
Definition path_join (a b : pystr) : pystr :=
  if startswith (u "/") b then b
  else match last a with
       | None => b
       | Some c => if c =? 47 then a ++ b else a ++ u "/" ++ b
       end.

(** [mkstemp] opens with [O_EXCL], so the name it returns was not in use, and
    names the file after the prefix [tmp] and random letters. *)
Class TempLaws `{Externals} : Prop := {
  temp_name_fresh : ∀ used dir suffix, temp_name used dir suffix ∉ used;
  temp_name_shape : ∀ used dir suffix, ∃ r, (47 ∉ r) ∧
    temp_name used dir suffix = path_join dir (u "tmp" ++ r ++ suffix);
}.

(** SHA-256 digests are lower-case hexadecimal numbers. *)
Definition is_hex (c : Z) : bool := ((48 <=? c) && (c <=? 57)) || ((97 <=? c) && (c <=? 102)).

Class ShaLaws `{Externals} : Prop := {
  sha256_hex_chars : ∀ d, Forall (λ c, is_hex c = true) (sha256_hex d);
  sha256_hex_nonempty : ∀ d, sha256_hex d ≠ [];
}.

Definition file_not_found (path : pystr) : exn := OtherError (u "FileNotFoundError") path.

(** [except OSError] *)
Definition is_os_error (e : exn) : bool :=
  match e with
  | OtherError name _ =>
      bool_decide (name ∈ [u "OSError"; u "FileNotFoundError"; u "FileExistsError"; u "PermissionError";
                           u "IsADirectoryError"; u "NotADirectoryError"; u "BlockingIOError";
                           u "InterruptedError"; u "TimeoutError"])
  | _ => false
  end.

(** [try: p  except OSError: log] *)
Definition ignore_os_error {W} (p : prog W unit) : prog W unit :=
  r ← attempt p;
  match r with
  | inr _ => mret tt
  | inl e => if is_os_error e then mret tt else Raise e
  end.

Lemma guarantee_ignore_os_error {W} (G : W → W → Prop) (p : prog W unit) :
  guarantee G p → guarantee G (ignore_os_error p).
Proof.
  intros Hp. apply guarantee_bind; [by apply guarantee_attempt|]. intros [e|[]]; [|done].
  by destruct (is_os_error e).
Qed.

(** Whether [path] is a file directly in [dir], as [os.listdir] lists them. *)
Definition in_dir (dir path : pystr) : bool :=
  let prefix := path_join dir [] in
  startswith prefix path &&
  let name := drop (length prefix) path in
  bool_decide (name ≠ []) && negb (bool_decide (47 ∈ name)).

Section files.
Context {S B : Type} (host : pystr).
#[local] Abbreviation world := (world S B).

Definition used_paths (w : world) : gset pystr :=
  set_map snd (filter (λ hp : pystr * pystr, hp.1 = host) (dom (w_files w))).

(** [open(path, "rb").read()] *)
Definition read_file (path : pystr) : prog world bytes :=
  io (λ w, (match w_files w !! (host, path) with
            | Some f => inr (f_data f)
            | None => inl (file_not_found path)
            end, w)).

(** [open(path, "wb").write(data)] *)
Definition write_file (path : pystr) (data : bytes) : prog world unit :=
  act (λ w, (tt, set_files (<[(host, path) := File data (w_clock w)]> (w_files w)) w)).

(** [fh.write(data)] on a file opened for writing *)
Definition append_file (path : pystr) (data : bytes) : prog world unit :=
  act (λ w, let old := match w_files w !! (host, path) with Some f => f_data f | None => [] end in
            (tt, set_files (<[(host, path) := File (old ++ data) (w_clock w)]> (w_files w)) w)).

(** [os.listdir(dir)]: the names of the files directly in [dir] *)
Definition names_in (dir : pystr) (w : world) : list pystr :=
  (λ kf, drop (length (path_join dir [])) kf.1.2) <$>
  map_to_list (filter (λ kf, kf.1.1 = host ∧ in_dir dir kf.1.2 = true) (w_files w)).

Definition listdir (dir : pystr) : prog world (list pystr) := act (λ w, (names_in dir w, w)).

(** [os.stat(path)]: [(st_atime, st_size)] *)
Definition stat (path : pystr) : prog world (Z * Z) :=
  io (λ w, (match w_files w !! (host, path) with
            | Some f => inr (f_atime f, len (f_data f))
            | None => inl (file_not_found path)
            end, w)).

(** [os.path.exists(path)]; all paths of the model are files, so [os.path.isfile]
    is the same *)
Definition path_exists (path : pystr) : prog world bool :=
  act (λ w, (bool_decide (is_Some (w_files w !! (host, path))), w)).

(** [os.remove(path)] *)
Definition remove_file (path : pystr) : prog world unit :=
  io (λ w, match w_files w !! (host, path) with
           | Some _ => (inr tt, set_files (delete (host, path) (w_files w)) w)
           | None => (inl (file_not_found path), w)
           end).

(** [if os.path.exists(path): os.remove(path)] *)
Definition remove_if_exists (path : pystr) : prog world unit :=
  ex ← path_exists path; if ex : bool then remove_file path else mret tt.

(** [os.utime(path, None)] *)
Definition utime (path : pystr) : prog world unit :=
  io (λ w, match w_files w !! (host, path) with
           | Some f => (inr tt, set_files (<[(host, path) := File (f_data f) (w_clock w)]> (w_files w)) w)
           | None => (inl (file_not_found path), w)
           end).

(** [os.replace(src, dst)] *)
Definition rename (src dst : pystr) : prog world unit :=
  io (λ w, match w_files w !! (host, src) with
           | Some f => (inr tt, set_files (<[(host, dst) := f]> (delete (host, src) (w_files w))) w)
           | None => (inl (file_not_found src), w)
           end).

(** [fd, path = tempfile.mkstemp(...); os.close(fd)] *)
Definition mkstemp `{Externals} (dir suffix : pystr) : prog world pystr :=
  act (λ w, let path := temp_name (used_paths w) dir suffix in
            (path, set_files (<[(host, path) := File [] (w_clock w)]> (w_files w)) w)).

Lemma elem_of_used_paths path w : path ∈ used_paths w ↔ is_Some (w_files w !! (host, path)).
Proof.
  unfold used_paths. rewrite elem_of_map. split.
  - intros ([h p] & -> & [Hh Hd]%elem_of_filter). simpl in *. subst. by apply elem_of_dom.
  - intros Hs. exists (host, path). split; [done|]. apply elem_of_filter. split; [done|].
    by apply elem_of_dom.
Qed.

Lemma temp_name_unused `{TempLaws} w dir suffix :
  w_files w !! (host, temp_name (used_paths w) dir suffix) = None.
Proof.
  apply eq_None_not_Some. intros Hs%elem_of_used_paths. by eapply temp_name_fresh.
Qed.
End files.

Lemma length_path_join a b : (length b <= length (path_join a b))%nat.
Proof.
  unfold path_join. destruct (startswith _ _); [done|]. destruct (last a) as [c|]; [|done].
  destruct (c =? 47); rewrite !length_app; lia.
Qed.

(** The length of the longest path of a set. *)
Definition longest (used : gset pystr) : nat := max_list (length <$> elements used).

(** ** A concrete choice of libraries, for running the model: a "PDF" is a
    [%] followed by its pages, one character each; conversion renders the bytes
    between brackets and fails on an exclamation mark. *)
#[export] Instance toy_externals : Externals := {
  pdf_page := Z;
  pdf_pages d := match d with
                 | c :: ps => if c =? 37 then inr ps else inl (ValueError (u "not a PDF"))
                 | [] => inl (ValueError (u "empty"))
                 end;
  pdf_write ps := inr (37 :: ps);
  md_convert _ _ d := if bool_decide (33 ∈ d) then inl (ValueError (u "bad page"))
                      else inr (u "[" ++ d ++ u "]");
  http_get url := if bool_decide (url = u "http://h/a.pdf") then inr (200, [inr (u "%a"); inr (u "bc")])
                  else inr (404, []);
  md_version := Some (u "0.1.0");
  sha256_hex d := fmt05d (Z.abs (fold_left Z.add d 0));
  temp_name used dir suffix :=
    path_join dir (u "tmp" ++ replicate (longest used) 97 ++ suffix);
}.

#[export] Instance toy_temp_laws : TempLaws.
Proof.
  split; [|intros used dir suffix; eexists; split; [|done]; rewrite elem_of_replicate; lia]. intros used dir suffix Hin. cbn [temp_name toy_externals] in Hin.
  set (name := u "tmp" ++ replicate (longest used) 97 ++ suffix) in *.
  assert (length (path_join dir name) ≤ longest used)%nat as Hle.
  { apply max_list_elem_of_le, list_elem_of_fmap. eexists. split; [done|]. by apply elem_of_elements. }
  pose proof (length_path_join dir name) as Hj. unfold name in Hj at 1.
  rewrite !length_app, length_replicate in Hj. simpl in Hj. lia.
Qed.

#[export] Instance toy_sha_laws : ShaLaws.
Proof.
  split; intros d; simpl.
  - eapply Forall_impl; [apply fmt05d_digits; lia|].
    intros c Hc. simpl in Hc. unfold is_hex. rewrite orb_true_iff, !andb_true_iff, !Z.leb_le. lia.
  - apply fmt05d_nonempty.
Qed.
