(* ===== verification/Chunker.v ===== *)
(** * Planning and extracting page ranges (chunker.py) *)
From S2P Require Import Prelude PyStr Effects Database World Files.

(** A chunk covering the whole file. *)
Definition WHOLE_FILE : Z * Z := (0, -1).

(** [range(0, stop, step)] for a positive [step]. *)
Definition range_step (stop step : Z) : list Z :=
  (λ i, i * step) <$> seqZ 0 ((stop + step - 1) `div` step).

Definition plan_chunks (pages : option Z) (pages_per_chunk min_pages : Z) : exn + list (Z * Z) :=
  if pages_per_chunk <? 1 then inl (ValueError (u "pages_per_chunk must be >= 1"))
  else match pages with
       | None => inr [WHOLE_FILE]
       | Some n =>
           if n <? min_pages then inr [WHOLE_FILE]
           else inr ((λ start, (start, Z.min (start + pages_per_chunk) n))
                       <$> range_step n pages_per_chunk)
       end.

(** [xs[start:end]] for a sequence. *)
Definition slice {A} (xs : list A) (start end_ : Z) : list A :=
  take (slice_index xs end_ - slice_index xs start) (drop (slice_index xs start) xs).

Section chunker.
Context {S B : Type} `{Externals}.
#[local] Abbreviation world := (world S B).

(** [page_count(path)]: [None] on any exception. *)
Definition page_count (host path : pystr) : prog world (option Z) :=
  r ← attempt (data ← read_file host path; reraise (pdf_pages data));
  mret (match r with inr ps => Some (len ps) | inl _ => None end).

(** The bytes [extract_pages] writes for the pages [start, end) of [data]. *)
Definition extract_range (data : bytes) (start end_ : Z) : exn + bytes :=
  ps ← pdf_pages data; pdf_write (slice ps start end_).

Definition extract_pages (host src_path : pystr) (start end_ : Z) (out_path : pystr)
    : prog world pystr :=
  if end_ =? -1 then mret src_path
  else
    data ← read_file host src_path;
    out ← reraise (extract_range data start end_);
    _ ← write_file host out_path out;
    mret out_path.
End chunker.

(** ** The planned ranges *)

(** The ranges [plan_chunks] computes for [n] pages. *)
Definition page_ranges (n k : Z) : list (Z * Z) :=
  (λ start, (start, Z.min (start + k) n)) <$> range_step n k.

(** The page numbers of a range. *)
Definition range_pages (r : Z * Z) : list Z := seqZ r.1 (r.2 - r.1).

(** How many chunks [n] pages make. *)
Definition ceil_div (n k : Z) : Z := (n + k - 1) `div` k.

Lemma seqZ_app m n1 n2 :
  0 <= n1 → 0 <= n2 → seqZ m (n1 + n2) = seqZ m n1 ++ seqZ (m + n1) n2.
Proof.
  intros. apply list_eq. intros i. apply option_eq. intros x.
  rewrite lookup_app_Some, !lookup_seqZ, length_seqZ. lia.
Qed.

Lemma ceil_div_spec n k : 1 <= k → (ceil_div n k - 1) * k < n <= ceil_div n k * k.
Proof.
  intros Hk. unfold ceil_div. pose proof (Z.div_mod (n + k - 1) k ltac:(lia)).
  pose proof (Z.mod_pos_bound (n + k - 1) k ltac:(lia)). nia.
Qed.

Lemma ceil_div_nonneg n k : 1 <= k → 0 <= n → 0 <= ceil_div n k.
Proof. intros Hk Hn. pose proof (ceil_div_spec n k Hk). nia. Qed.

Lemma page_ranges_eq n k :
  page_ranges n k = (λ i, (i * k, Z.min (i * k + k) n)) <$> seqZ 0 (ceil_div n k).
Proof. unfold page_ranges, range_step. by rewrite <-list_fmap_compose. Qed.

Lemma page_ranges_length n k : 1 <= k → 0 <= n → len (page_ranges n k) = ceil_div n k.
Proof.
  intros Hk Hn. rewrite page_ranges_eq. unfold len. rewrite length_fmap, length_seqZ.
  pose proof (ceil_div_nonneg n k Hk Hn). lia.
Qed.

(** The first [m] ranges cover the first [m * k] pages. *)
Lemma page_ranges_prefix n k (m : nat) :
  1 <= k → 0 <= n → Z.of_nat m <= ceil_div n k →
  concat (range_pages <$> ((λ i, (i * k, Z.min (i * k + k) n)) <$> seqZ 0 (Z.of_nat m))) =
  seqZ 0 (Z.min (Z.of_nat m * k) n).
Proof.
  intros Hk Hn. pose proof (ceil_div_spec n k Hk) as Hq. induction m as [|m IH]; intros Hm.
  { simpl. by rewrite Z.min_l by lia. }
  assert (Z.of_nat m * k < n) as Hlt by nia.
  replace (Z.of_nat (S m)) with (Z.of_nat m + 1) in * by lia.
  rewrite seqZ_app, !fmap_app, concat_app, IH, Z.min_l by lia. simpl. rewrite app_nil_r.
  unfold range_pages; simpl.
  rewrite <-seqZ_app by lia. f_equal. lia.
Qed.

Lemma page_ranges_lookup n k i r :
  1 <= k → 0 <= n → page_ranges n k !! i = Some r ↔
  Z.of_nat i < ceil_div n k ∧ r = (Z.of_nat i * k, Z.min (Z.of_nat i * k + k) n).
Proof.
  intros Hk Hn. rewrite page_ranges_eq, list_lookup_fmap, fmap_Some.
  setoid_rewrite lookup_seqZ. split.
  - intros (y & [-> Hlt] & ->). simpl. split; [lia|]. by rewrite Z.add_0_l.
  - intros [Hlt ->]. exists (Z.of_nat i). simpl. split; [lia|done].
Qed.

Lemma plan_chunks_pages n k min_pages :
  1 <= k → min_pages <= n → plan_chunks (Some n) k min_pages = inr (page_ranges n k).
Proof.
  intros Hk Hn. unfold plan_chunks. rewrite (proj2 (Z.ltb_ge k 1)), (proj2 (Z.ltb_ge n min_pages)) by lia.
  done.
Qed.

(** ** The theorems *)

(** A split document loses no page: the planned ranges, in order, are the
    page numbers [0 .. pages-1], each exactly once. *)
Theorem plan_chunks_partition (n k min_pages : Z) :
  1 <= k → 0 <= n → min_pages <= n →
  ∃ ranges, plan_chunks (Some n) k min_pages = inr ranges ∧
    concat (range_pages <$> ranges) = seqZ 0 n.
Proof.
  intros Hk Hn Hmin. exists (page_ranges n k). split; [by apply plan_chunks_pages|].
  pose proof (ceil_div_nonneg n k Hk Hn). pose proof (ceil_div_spec n k Hk).
  rewrite page_ranges_eq. pose proof (page_ranges_prefix n k (Z.to_nat (ceil_div n k)) Hk Hn) as Hp.
  rewrite Z2Nat.id in Hp by done. rewrite Hp by lia. f_equal. lia.
Qed.

Lemma plan_chunks_partition_witness :
  ∃ ranges, plan_chunks (Some 45) 20 40 = inr ranges ∧ concat (range_pages <$> ranges) = seqZ 0 45.
Proof. apply (plan_chunks_partition 45 20 40); lia. Defined.

(** No chunk is empty or larger than asked: every planned range of a split
    document has between 1 and [pages_per_chunk] pages, every one but the last
    exactly [pages_per_chunk], and there are [ceil(pages / pages_per_chunk)]. *)
Theorem plan_chunks_sizes (n k min_pages : Z) (ranges : list (Z * Z)) :
  1 <= k → 0 <= n → min_pages <= n → plan_chunks (Some n) k min_pages = inr ranges →
  len ranges = ceil_div n k ∧
  (∀ i s e, ranges !! i = Some (s, e) → 1 <= e - s <= k) ∧
  (∀ i s e, ranges !! i = Some (s, e) → Z.of_nat i + 1 < len ranges → e - s = k).
Proof.
  intros Hk Hn Hmin. rewrite plan_chunks_pages by done. intros [= <-].
  pose proof (ceil_div_spec n k Hk) as Hq.
  split; [by apply page_ranges_length|]. split.
  - intros i s e [Hi [= -> ->]]%page_ranges_lookup; [|done..]. nia.
  - intros i s e [Hi [= -> ->]]%page_ranges_lookup; [|done..].
    rewrite page_ranges_length by done. nia.
Qed.

Lemma plan_chunks_sizes_witness :
  len [(0, 20); (20, 40); (40, 45)] = ceil_div 45 20.
Proof. apply (plan_chunks_sizes 45 20 40); [lia..|vm_compute; reflexivity]. Defined.

(** Everything else is one whole-file chunk: a document that is not a PDF,
    or that has fewer pages than [min_pages], is planned as the single range
    [WHOLE_FILE]; a chunk size below one is the [ValueError] of the source. *)
Theorem plan_chunks_whole_file (pages : option Z) (k min_pages : Z) :
  (1 <= k → pages = None ∨ (∃ n, pages = Some n ∧ n < min_pages) →
   plan_chunks pages k min_pages = inr [WHOLE_FILE]) ∧
  (k < 1 → plan_chunks pages k min_pages = inl (ValueError (u "pages_per_chunk must be >= 1"))).
Proof.
  unfold plan_chunks. split.
  - intros Hk Hor. rewrite (proj2 (Z.ltb_ge k 1)) by lia.
    destruct Hor as [->|(n & -> & Hn)]; [done|]. by rewrite (proj2 (Z.ltb_lt n min_pages)).
  - intros Hk. by rewrite (proj2 (Z.ltb_lt k 1)).
Qed.

Lemma plan_chunks_whole_file_witness : plan_chunks (Some 3) 20 40 = inr [WHOLE_FILE].
Proof. apply (plan_chunks_whole_file (Some 3) 20 40); [lia|right]. exists 3. split; [reflexivity|lia]. Defined.

(** The slices of a sequence along the planned ranges are the sequence. *)
Lemma slice_seqZ {A} (xs : list A) s e :
  0 <= s → s <= e → e <= len xs →
  Some <$> slice xs s e = (λ i, xs !! Z.to_nat i) <$> seqZ s (e - s).
Proof.
  intros Hs Hse He. apply list_eq. intros i. rewrite !list_lookup_fmap.
  unfold slice, slice_index. rewrite (proj2 (Z.ltb_ge s 0)), (proj2 (Z.ltb_ge e 0)) by lia.
  unfold len in He. destruct (decide (Z.of_nat i < e - s)) as [Hi|Hi].
  - rewrite lookup_take_lt by lia. rewrite lookup_drop.
    destruct (lookup_lt_is_Some_2 xs (Z.to_nat s + i)) as [x Hx]; [lia|].
    rewrite Hx. simpl. rewrite lookup_seqZ_lt by lia. simpl.
    replace (Z.to_nat (s + Z.of_nat i)) with (Z.to_nat s + i)%nat by lia. by rewrite Hx.
  - rewrite lookup_take_ge by lia. by rewrite lookup_seqZ_ge by lia.
Qed.

(** C31: Planning and extraction fit together: cutting a document's pages along
    the planned ranges, chunk by chunk, and putting the pieces end to end gives
    back the document's pages. *)
Theorem chunks_cover_document {A} (ps : list A) (k min_pages : Z) (ranges : list (Z * Z)) :
  1 <= k → min_pages <= len ps → plan_chunks (Some (len ps)) k min_pages = inr ranges →
  concat ((λ r, slice ps r.1 r.2) <$> ranges) = ps.
Proof.
  intros Hk Hmin Hplan. pose proof (len_nonneg ps) as Hn.
  destruct (plan_chunks_partition (len ps) k min_pages Hk Hn Hmin) as (ranges' & Hplan' & Hcat).
  rewrite Hplan in Hplan'. injection Hplan' as <-.
  rewrite plan_chunks_pages in Hplan by done. injection Hplan as <-.
  apply (inj (fmap Some)). rewrite fmap_concat, <-list_fmap_compose.
  assert (Some <$> ps = (λ i, ps !! Z.to_nat i) <$> seqZ 0 (len ps)) as ->.
  { rewrite <-(Z.sub_0_r (len ps)) at 1. rewrite <-slice_seqZ by lia. f_equal.
    unfold slice, slice_index. simpl. rewrite (proj2 (Z.ltb_ge _ _) Hn).
    unfold len. rewrite Nat2Z.id, Nat.sub_0_r, drop_0. by rewrite take_ge. }
  rewrite <-Hcat.
  rewrite fmap_concat, <-list_fmap_compose. f_equal. apply list_fmap_ext. intros i [s e] Hr.
  apply page_ranges_lookup in Hr as [Hi [= -> ->]]; [|done..]. simpl. unfold range_pages; simpl.
  pose proof (ceil_div_spec (len ps) k Hk). apply slice_seqZ; nia.
Qed.

Lemma chunks_cover_document_witness :
  concat ((λ r, slice (u "abcde") r.1 r.2) <$> [(0, 2); (2, 4); (4, 5)]) = u "abcde".
Proof. apply (chunks_cover_document (u "abcde") 2 3); [lia|vm_compute; congruence|vm_compute; reflexivity]. Defined.
