(* ===== verification/Storage.v ===== *)
(** * Object storage (storage.py)

    Keys derived from content hashes and settings, and the operations on the
    objects under them.  The theorems: no two objects share a key, a document
    that was stored is read back page by page, and its manifest is visible only
    when all its pages are. *)
From S2P Require Import Prelude PyStr Effects Utf8 Json Database Config World Files.

Definition CHUNK_SIZE : Z := 1024 * 1024.

(** [iter(lambda: fh.read(n), b"")]: the blocks of a file ([fuel] bounds their
    number; the length of the file is enough). *)
Fixpoint blocks (fuel : nat) (n : Z) (data : bytes) : list bytes :=
  match fuel, data with
  | O, _ | _, [] => []
  | S fuel, _ => slice_to data n :: blocks fuel n (slice_from data n)
  end.

(** ** Key derivation *)

(** What the fingerprint covers. *)
Definition fingerprint_parts (version : pystr) (cfg : config) (use_llm : bool) : pystr :=
  join (u "|") [
    version;
    if use_llm then u "llm" else u "nollm";
    if use_llm then OPENAI_MODEL cfg else u "-";
    str_of_Z (PAGE_SIZE cfg);
    str_of_Z (PAGES_PER_CHUNK cfg);
    str_of_Z (MIN_PAGES_FOR_PARALLEL cfg)].

Definition config_fingerprint `{Externals} (cfg : config) (use_llm : bool) : exn + pystr :=
  let markitdown_version := default (u "unknown") md_version in
  b ← encode (fingerprint_parts markitdown_version cfg use_llm);
  mret (slice_to (sha256_hex b) 16).

Definition make_doc_key `{Externals} (cfg : config) (file_hash : pystr) (use_llm : bool)
    : exn + pystr :=
  fp ← config_fingerprint cfg use_llm; mret (file_hash ++ u ":" ++ fp).

Definition source_key (file_hash : pystr) : pystr := u "src/" ++ file_hash.

Definition part_key (doc_key : pystr) (chunk_index : Z) : pystr :=
  u "parts/" ++ doc_key ++ u "/" ++ fmt05d chunk_index ++ u ".md".

Definition manifest_key (doc_key : pystr) : pystr := u "docs/" ++ doc_key ++ u "/manifest.json".

Definition page_key (doc_key : pystr) (page : Z) : pystr :=
  u "docs/" ++ doc_key ++ u "/pages/" ++ str_of_Z page ++ u ".md".

(** ** Operations *)
Record manifest := Manifest {
  m_doc_key : pystr; m_total_pages : Z; m_total_length : Z; m_page_size : Z;
}.

Definition manifest_dict (m : manifest) : list (pystr * scalar) :=
  [(u "doc_key", SStr (m_doc_key m)); (u "total_pages", SInt (m_total_pages m));
   (u "total_length", SInt (m_total_length m)); (u "page_size", SInt (m_page_size m))].

Definition no_such_bucket : exn := ClientError (u "NoSuchBucket") (u "The specified bucket does not exist").

(** The S3 client of a thread: built once, and dropped by [reset]. *)
Definition get_client {C} (build : exn + C) (cached : option C) : exn + C * option C :=
  match cached with
  | Some client => inr (client, cached)
  | None => client ← build; mret (client, Some client)
  end.

Definition reset_client {C} (cached : option C) : option C := None.

Section storage.
Context {S B : Type} `{ObjectStore S} `{Externals} `{Codecs} (host : pystr) (cfg : config).
#[local] Abbreviation world := (world S B).

Definition hash_file (path : pystr) : prog world pystr :=
  data ← read_file host path;
  mret (sha256_hex (concat (blocks (Datatypes.S (length data)) CHUNK_SIZE data))).

(** [get_object] *)
Definition get_object (key : pystr) : prog world bytes :=
  s3_call (λ s, if s3_bucket s then
                  match s3_get key s with
                  | Some d => inr (d, s)
                  | None => inl (ClientError (u "NoSuchKey") (u "The specified key does not exist."))
                  end
                else inl no_such_bucket).

(** [put_object] *)
Definition put_object (key : pystr) (data : bytes) : prog world unit :=
  s3_call (λ s, if s3_bucket s then inr (tt, s3_put key data s) else inl no_such_bucket).

Definition get_bytes (key : pystr) : prog world (option bytes) :=
  r ← attempt (get_object key);
  match r with
  | inr d => mret (Some d)
  | inl (ClientError code msg) =>
      if bool_decide (code ∈ [u "NoSuchKey"; u "404"]) then mret None
      else Raise (ClientError code msg)
  | inl e => Raise e
  end.

Definition put_bytes (key : pystr) (data : bytes) : prog world unit := put_object key data.

(** [head_bucket]: 404 when the bucket does not exist *)
Definition head_bucket : prog world unit :=
  s3_call (λ s, if s3_bucket s then inr (tt, s) else inl (ClientError (u "404") (u "Not Found"))).

Definition create_bucket : prog world unit :=
  s3_call (λ s, if s3_bucket s then inl (ClientError (u "BucketAlreadyOwnedByYou") [])
                else inr (tt, s3_create_bucket s)).

Definition ensure_bucket : prog world unit :=
  r ← attempt head_bucket;
  match r with
  | inr _ => mret tt
  | inl (ClientError _ _) =>
      r ← attempt create_bucket;
      match r with
      | inr _ => mret tt
      | inl (ClientError code msg) =>
          if bool_decide (code ∈ [u "BucketAlreadyOwnedByYou"; u "BucketAlreadyExists"])
          then mret tt else Raise (ClientError code msg)
      | inl e => Raise e
      end
  | inl e => Raise e
  end.

Definition exists_ (key : pystr) : prog world bool :=
  r ← attempt (s3_call (λ s, if s3_bucket s && bool_decide (is_Some (s3_get key s)) then inr (tt, s)
                             else inl (ClientError (u "404") (u "Not Found"))));
  match r with
  | inr _ => mret true
  | inl (ClientError _ _) => mret false
  | inl e => Raise e
  end.

Definition put_source (file_hash path : pystr) : prog world pystr :=
  let key := source_key file_hash in
  stored ← exists_ key;
  if stored : bool then mret key
  else
    data ← read_file host path;
    _ ← put_object key data;
    mret key.

(** [download_file]: the object is read in parts, each of which may fail, and each
    part is appended to the destination as it arrives. *)
Definition TRANSFER_PART : Z := 8 * 1024 * 1024.

Fixpoint receive_parts (dest_path : pystr) (parts : list bytes) : prog world unit :=
  match parts with
  | [] => mret tt
  | part :: rest =>
      _ ← s3_call (λ s, inr (tt, s));
      _ ← append_file host dest_path part;
      receive_parts dest_path rest
  end.

Definition get_source (file_hash dest_path : pystr) : prog world pystr :=
  data ← s3_call (λ s, match (if s3_bucket s then s3_get (source_key file_hash) s else None) with
                       | Some d => inr (d, s)
                       | None => inl (ClientError (u "404") (u "Not Found"))
                       end);
  _ ← write_file host dest_path [];
  _ ← receive_parts dest_path (blocks (Datatypes.S (length data)) TRANSFER_PART data);
  mret dest_path.

Definition put_part (doc_key : pystr) (chunk_index : Z) (markdown : pystr) : prog world pystr :=
  let key := part_key doc_key chunk_index in
  b ← lift (encode markdown);
  _ ← put_bytes key b;
  mret key.

Definition decode_opt (data : option bytes) : prog world (option pystr) :=
  match data with
  | Some d => s ← lift (decode d); mret (Some s)
  | None => mret None
  end.

Definition get_part (doc_key : pystr) (chunk_index : Z) : prog world (option pystr) :=
  data ← get_bytes (part_key doc_key chunk_index); decode_opt data.

Fixpoint put_pages (doc_key : pystr) (index : Z) (pages : list pystr) : prog world unit :=
  match pages with
  | [] => mret tt
  | content :: rest =>
      b ← lift (encode content);
      _ ← put_bytes (page_key doc_key index) b;
      put_pages doc_key (index + 1) rest
  end.

Definition put_document (doc_key : pystr) (pages : list pystr) (total_length : Z)
    : prog world manifest :=
  _ ← put_pages doc_key 1 pages;
  let m := Manifest doc_key (len pages) total_length (PAGE_SIZE cfg) in
  b ← lift (encode (dumps (manifest_dict m)));
  _ ← put_bytes (manifest_key doc_key) b;
  mret m.

Definition get_manifest (doc_key : pystr) : prog world (option json) :=
  data ← get_bytes (manifest_key doc_key);
  match data with
  | Some d => j ← lift (loads d); mret (Some j)
  | None => mret None
  end.

Definition get_page (doc_key : pystr) (page : Z) : prog world (option pystr) :=
  data ← get_bytes (page_key doc_key page); decode_opt data.

Definition health : prog world bool :=
  r ← attempt head_bucket;
  mret (match r with inl _ => false | inr _ => true end).
End storage.

(** ** Keys *)
Inductive object :=
| Source (file_hash : pystr)
| Part (doc_key : pystr) (chunk_index : Z)
| ManifestOf (doc_key : pystr)
| Page (doc_key : pystr) (page : Z).

Definition object_key (o : object) : pystr :=
  match o with
  | Source h => source_key h
  | Part d i => part_key d i
  | ManifestOf d => manifest_key d
  | Page d p => page_key d p
  end.

(** Chunk indices are never negative. *)
Definition object_ok (o : object) : Prop :=
  match o with Part _ i => 0 <= i | _ => True end.

(** The last component of a path. *)
Lemma last_component_inj (a b c d : pystr) :
  47 ∉ b → 47 ∉ d → a ++ u "/" ++ b = c ++ u "/" ++ d → a = c ∧ b = d.
Proof. intros Hb Hd Heq. by apply (app_last_sep_inj 47). Qed.

Lemma slash_fmt05d i : 0 <= i → 47 ∉ fmt05d i ++ u ".md".
Proof.
  intros Hi. rewrite elem_of_app. intros [H|H].
  - eapply not_elem_of_bounded in H; [done|by apply fmt05d_digits|simpl; lia].
  - vm_compute in H. set_solver.
Qed.

Lemma slash_str_of_Z n : 47 ∉ str_of_Z n ++ u ".md".
Proof.
  rewrite elem_of_app. intros [H|H].
  - eapply not_elem_of_bounded in H; [done|apply str_of_Z_chars|simpl; lia].
  - vm_compute in H. set_solver.
Qed.

Lemma part_key_inj d d' i i' :
  0 <= i → 0 <= i' → part_key d i = part_key d' i' → d = d' ∧ i = i'.
Proof.
  intros Hi Hi' Heq. unfold part_key in Heq. apply app_inv_head in Heq.
  apply last_component_inj in Heq as [-> Heq]; [|by apply slash_fmt05d..].
  apply app_inv_tail in Heq. split; [done|]. by apply fmt05d_inj.
Qed.

Lemma page_key_inj d d' p p' : page_key d p = page_key d' p' → d = d' ∧ p = p'.
Proof.
  intros Heq. unfold page_key in Heq. apply app_inv_head in Heq.
  change (u "/pages/") with (u "/pages" ++ u "/") in Heq.
  rewrite <-!(assoc_L (++) (u "/pages")), !(assoc_L (++) _ (u "/pages")) in Heq.
  apply last_component_inj in Heq as [Hd Heq]; [|by apply slash_str_of_Z..].
  apply app_inv_tail in Heq. apply app_inv_tail in Hd. split; [done|]. by apply str_of_Z_inj.
Qed.

Lemma manifest_key_inj D D' : manifest_key D = manifest_key D' → D = D'.
Proof. intros Heq. by apply app_inv_head, app_inv_tail in Heq. Qed.

Lemma manifest_page_ne d d' p : manifest_key d ≠ page_key d' p.
Proof.
  intros Heq. apply (f_equal last) in Heq. unfold manifest_key, page_key in Heq.
  change (u "/manifest.json") with (u "/manifest.jso" ++ [110]) in Heq.
  change (u ".md") with (u ".m" ++ [100]) in Heq.
  rewrite !(assoc_L (++)) in Heq. by rewrite !last_snoc in Heq.
Qed.

(** C39: Objects of the bucket never collide: the keys of sources, parts,
    manifests and pages are distinct for distinct objects, whatever characters
    the document keys contain. *)
Theorem object_key_inj (o o' : object) :
  object_ok o → object_ok o' → object_key o = object_key o' → o = o'.
Proof.
  destruct o as [h|d i|d|d p], o' as [h'|d' i'|d'|d' p']; simpl; intros Ho Ho' Heq; try done.
  - by apply app_inv_head in Heq as ->.
  - by apply part_key_inj in Heq as [-> ->].
  - unfold manifest_key in Heq. apply app_inv_head, app_inv_tail in Heq. by subst.
  - by apply manifest_page_ne in Heq.
  - by apply symmetry, manifest_page_ne in Heq.
  - by apply page_key_inj in Heq as [-> ->].
Qed.

Lemma object_key_inj_witness :
  object_key (Part (u "a:b") 7) = object_key (Part (u "a:b") (3 + 4)) ∧
  Part (u "a:b") 7 = Part (u "a:b") (3 + 4).
Proof.
  split; [reflexivity|]. apply object_key_inj; [simpl; lia|simpl; lia|reflexivity].
Defined.

(** Three fields without separator behind one that may contain it. *)
Lemma last_fields_inj (x : Z) (a b c d a' b' c' d' : pystr) :
  x ∉ b → x ∉ c → x ∉ d → x ∉ b' → x ∉ c' → x ∉ d' →
  a ++ x :: b ++ x :: c ++ x :: d = a' ++ x :: b' ++ x :: c' ++ x :: d' →
  a = a' ∧ b = b' ∧ c = c' ∧ d = d'.
Proof.
  intros Hb Hc Hd Hb' Hc' Hd' Heq.
  assert (∀ a b c d : pystr, a ++ x :: b ++ x :: c ++ x :: d = ((a ++ x :: b) ++ x :: c) ++ x :: d)
    as Hassoc by (intros; by rewrite <-!(assoc_L (++))).
  rewrite !Hassoc in Heq.
  apply app_last_sep_inj in Heq as [Heq ->]; [|done..].
  apply app_last_sep_inj in Heq as [Heq ->]; [|done..].
  by apply app_last_sep_inj in Heq as [-> ->].
Qed.

(** The fingerprint text separates settings: two processes compute the same
    text only if they agree on markitdown's version, on whether the LLM is used,
    on its model when it is, and on the three sizes that decide the chunking and
    the pages.  (A version number contains no vertical bar; the model may.) *)
Theorem fingerprint_parts_inj (v v' : pystr) (cfg cfg' : config) (l l' : bool) :
  124 ∉ v → 124 ∉ v' →
  fingerprint_parts v cfg l = fingerprint_parts v' cfg' l' →
  v = v' ∧ l = l' ∧ (l = true → OPENAI_MODEL cfg = OPENAI_MODEL cfg') ∧
  PAGE_SIZE cfg = PAGE_SIZE cfg' ∧ PAGES_PER_CHUNK cfg = PAGES_PER_CHUNK cfg' ∧
  MIN_PAGES_FOR_PARALLEL cfg = MIN_PAGES_FOR_PARALLEL cfg'.
Proof.
  intros Hv Hv' Heq. unfold fingerprint_parts in Heq. cbn [join] in Heq.
  change (u "|") with [124] in Heq. cbn [app] in Heq.
  assert (∀ n, 124 ∉ str_of_Z n) as Hn.
  { intros n H. eapply not_elem_of_bounded in H; [done|apply str_of_Z_chars|simpl; lia]. }
  apply app_first_sep_inj in Heq as [-> Heq]; [|done..].
  apply app_first_sep_inj in Heq as [Hl Heq];
    [|by destruct l; apply (bool_decide_unpack _); vm_compute
     |by destruct l'; apply (bool_decide_unpack _); vm_compute].
  assert (l = l') as <- by (by destruct l, l').
  apply last_fields_inj in Heq as (Hm & H1 & H2 & H3); [|done..].
  split_and!; try done; try by apply str_of_Z_inj.
  intros ->. done.
Qed.

Lemma fingerprint_parts_inj_witness :
  fingerprint_parts (u "0.1.0") default_config true ≠ fingerprint_parts (u "0.1.0") default_config false.
Proof.
  intros Heq. destruct (fingerprint_parts_inj (u "0.1.0") (u "0.1.0") default_config default_config
    true false) as (_ & Hl & _); [| |exact Heq|discriminate Hl];
    apply (bool_decide_unpack _); vm_compute; exact I.
Defined.

(** The last colon-separated field of a document key, which
    [record_document] stores as the row's [config_fp], is the fingerprint. *)
Theorem doc_key_fingerprint `{ShaLaws} (cfg : config) (file_hash : pystr) (use_llm : bool) (fp : pystr) :
  config_fingerprint cfg use_llm = inr fp →
  ∃ k, make_doc_key cfg file_hash use_llm = inr k ∧ last (split (u ":") k) = Some fp.
Proof.
  intros Hfp. unfold make_doc_key. rewrite Hfp. simpl. eexists. split; [done|].
  change (file_hash ++ 58 :: fp) with (file_hash ++ [58] ++ fp).
  apply split_char_last. unfold config_fingerprint in Hfp.
  destruct (encode _) as [|b]; simpl in Hfp; [done|]. injection Hfp as <-.
  intros Hin. apply (not_elem_of_bounded (λ c, is_hex c = true) 58 (sha256_hex b)); [apply sha256_hex_chars|done|].
  unfold slice_to in Hin. by apply elem_of_take in Hin as (i & ?%list_elem_of_lookup_2 & _).
Qed.

Lemma doc_key_fingerprint_witness :
  ∃ k, make_doc_key default_config (u "0a") false = inr k ∧ last (split (u ":") k) =
    Some (default [] (match config_fingerprint default_config false with inr f => Some f | _ => None end)).
Proof.
  apply doc_key_fingerprint. vm_compute. reflexivity.
Defined.

(** ** Reading and writing objects *)
Lemma concat_blocks fuel n data : (length data < fuel)%nat → 0 < n → concat (blocks fuel n data) = data.
Proof.
  revert data. induction fuel as [|fuel IH]; intros data Hf Hn; [lia|].
  destruct data as [|c data]; [done|]. cbn [blocks]. rewrite concat_cons, IH; [apply slice_split| |done].
  unfold slice_from. rewrite length_drop. unfold slice_index.
  rewrite (proj2 (Z.ltb_ge n 0)) by lia. simpl in *. lia.
Qed.

Section proofs.
Context {S B : Type} `{ObjectStoreLaws S} `{Externals} `{Codecs} (host : pystr) (cfg : config).
#[local] Abbreviation world := (world S B).
Implicit Types (w : world) (k d : pystr).

Definition s3_ready w : Prop := w_s3_faults w = [] ∧ s3_bucket (w_s3 w) = true.

Lemma set_s3_id w : w_s3_faults w = [] → set_s3 (w_s3 w) [] w = w.
Proof. destruct w; simpl. by intros ->. Qed.

Lemma s3_ready_put k b w : s3_ready w → s3_ready (set_s3 (s3_put k b (w_s3 w)) [] w).
Proof. intros [Hf Hb]. split; [done|]. simpl. by rewrite s3_bucket_put. Qed.

Lemma run_put_bytes k b w :
  s3_ready w → run (put_bytes k b) w = (Val tt, set_s3 (s3_put k b (w_s3 w)) [] w).
Proof.
  intros [Hf Hb]. unfold put_bytes, put_object. rewrite run_s3_call by done. by rewrite Hb.
Qed.

Lemma run_get_bytes k w : s3_ready w → run (get_bytes k) w = (Val (s3_get k (w_s3 w)), w).
Proof.
  intros [Hf Hb]. unfold get_bytes. rewrite run_bind, run_attempt. unfold get_object.
  rewrite run_s3_call by done. rewrite Hb. destruct (s3_get k (w_s3 w)) as [b|]; simpl.
  - by rewrite set_s3_id.
  - done.
Qed.

Lemma run_get_text k w (s : pystr) b :
  s3_ready w → encode s = inr b → s3_get k (w_s3 w) = Some b →
  run (data ← get_bytes k; decode_opt data) w = (Val (Some s), w).
Proof.
  intros Hw Hs Hk. rewrite run_bind, run_get_bytes, Hk by done. simpl.
  by rewrite (utf8_inverse s b Hs).
Qed.

(** The parts of a download end up in the file, one after the other. *)
Lemma run_receive_Val dest parts w acc t r w' :
  w_files w !! (host, dest) = Some (File acc t) → run (receive_parts host dest parts) w = (Val r, w') →
  ∃ fs t', w' = set_files (<[(host, dest) := File (acc ++ concat parts) t']> (w_files w))
                  (set_s3 (w_s3 w) fs w).
Proof.
  revert w acc t. induction parts as [|part parts IH]; intros w acc t Hf; cbn [receive_parts].
  { intros [= _ <-]. exists (w_s3_faults w), t. rewrite app_nil_r, insert_id by done. by destruct w. }
  rewrite run_bind. unfold s3_call at 1. rewrite run_io. destruct (pop_fault (w_s3_faults w)) as [flt fs].
  unfold serve. destruct flt; [|done..]. cbv beta iota zeta. rewrite run_bind. unfold append_file at 1.
  rewrite run_act. cbn [fst snd w_files set_s3]. rewrite Hf. cbn [f_data]. intros Hrun.
  eapply IH in Hrun as (fs' & t' & ->); [|cbn [w_files set_files]; apply lookup_insert_eq].
  exists fs', t'. cbn [w_files set_files]. by rewrite insert_insert_eq, <-(assoc_L (++)).
Qed.

Lemma run_receive dest parts w acc :
  w_s3_faults w = [] → w_files w !! (host, dest) = Some (File acc (w_clock w)) →
  run (receive_parts host dest parts) w =
  (Val tt, set_files (<[(host, dest) := File (acc ++ concat parts) (w_clock w)]> (w_files w)) w).
Proof.
  revert w acc. induction parts as [|part parts IH]; intros w acc Hs Hf; cbn [receive_parts].
  { rewrite app_nil_r, insert_id by done. by destruct w. }
  rewrite run_bind, run_s3_call by done. cbv beta iota. rewrite set_s3_id by done.
  rewrite run_bind. unfold append_file at 1. rewrite run_act. cbn [fst snd]. rewrite Hf. cbn [f_data].
  rewrite (IH _ (acc ++ part)); [|done|cbn [w_files set_files]; apply lookup_insert_eq].
  cbn [w_files set_files]. by rewrite insert_insert_eq, <-(assoc_L (++)).
Qed.

Lemma concat_transfer data : concat (blocks (Datatypes.S (length data)) TRANSFER_PART data) = data.
Proof. apply concat_blocks; [lia|done]. Qed.

(** What a download that returned did, and a download when nothing fails. *)
Lemma run_get_source_Val h dest w r w' :
  run (get_source host h dest) w = (Val r, w') →
  ∃ d fs t, s3_get (source_key h) (w_s3 w) = Some d ∧
    w' = set_files (<[(host, dest) := File d t]> (w_files w)) (set_s3 (w_s3 w) fs w).
Proof.
  unfold get_source. rewrite run_bind. unfold s3_call at 1. rewrite run_io.
  destruct (pop_fault (w_s3_faults w)) as [flt fs]. unfold serve.
  destruct (s3_bucket (w_s3 w)), (s3_get (source_key h) (w_s3 w)) as [d|], flt; try done.
  cbv beta iota zeta. rewrite run_bind. unfold write_file. rewrite run_act. cbn [fst snd]. rewrite run_bind.
  destruct (run (receive_parts host dest _) _) as [[[]|e|] w1] eqn:Hrun; [|done..].
  intros [= _ <-]. eapply run_receive_Val in Hrun as (fs' & t & ->); [|apply lookup_insert_eq].
  rewrite concat_transfer. exists d, fs', t. split; [done|]. cbn [w_files set_files set_s3].
  by rewrite insert_insert_eq.
Qed.

Lemma run_get_source h dest d w :
  s3_ready w → s3_get (source_key h) (w_s3 w) = Some d →
  run (get_source host h dest) w =
  (Val dest, set_files (<[(host, dest) := File d (w_clock w)]> (w_files w)) w).
Proof.
  intros [Hs Hb] Hd. unfold get_source. rewrite run_bind, run_s3_call by done. rewrite Hb, Hd.
  cbv beta iota. rewrite set_s3_id by done. rewrite run_bind. unfold write_file. rewrite run_act. cbn [fst snd].
  rewrite run_bind, (run_receive _ _ _ []); [|done|apply lookup_insert_eq]. cbn [w_files set_files w_clock].
  by rewrite insert_insert_eq, concat_transfer.
Qed.

(** All that a download changes, whatever fails, is the destination. *)
Lemma guarantee_get_source (G : world → world → Prop) h dest :
  (∀ w fs, G w (set_s3 (w_s3 w) fs w)) → (∀ data, guarantee G (write_file host dest data)) →
  (∀ data, guarantee G (append_file host dest data)) → guarantee G (get_source host h dest).
Proof.
  intros Hid Hw Ha. apply guarantee_bind.
  { apply guarantee_s3_call; [done|]. intros w fs r s Hr.
    assert (s = w_s3 w) as ->; [|done]. destruct (s3_bucket (w_s3 w)); [|done]. destruct (s3_get _ _); naive_solver. }
  intros d. apply guarantee_bind; [done|]. intros _. apply guarantee_bind; [|done].
  induction (blocks (Datatypes.S (length d)) TRANSFER_PART d) as [|part parts IH]; [done|]. cbn [receive_parts].
  apply guarantee_bind; [apply guarantee_s3_call; [done|]; by intros w fs r s [= _ <-]|].
  intros _. by apply guarantee_bind.
Qed.

(** A write that returned is visible, and touches one key, whatever fails. *)
Lemma put_bytes_frame k k' b :
  k ≠ k' → guarantee (λ w w' : world, s3_get k' (w_s3 w') = s3_get k' (w_s3 w)) (put_bytes k b).
Proof.
  intros Hne. apply guarantee_s3_call; [done|]. intros w fs r s. destruct (s3_bucket (w_s3 w)); [|done].
  intros [= _ <-]. simpl. by rewrite s3_get_put_ne.
Qed.

Lemma put_bytes_stored k b w w' : run (put_bytes k b) w = (Val tt, w') → s3_get k (w_s3 w') = Some b.
Proof.
  unfold put_bytes, put_object, s3_call. rewrite run_io.
  destruct (pop_fault (w_s3_faults w)) as [flt fs]. unfold serve.
  destruct flt, (s3_bucket (w_s3 w)); simpl; intros [=]; subst; simpl; apply s3_get_put.
Qed.

Lemma put_pages_frame d index pages k :
  (∀ i, k ≠ page_key d (index + Z.of_nat i)) →
  guarantee (λ w w' : world, s3_get k (w_s3 w') = s3_get k (w_s3 w)) (put_pages d index pages).
Proof.
  revert index. induction pages as [|p pages IH]; intros index Hk; [done|]. cbn [put_pages].
  apply guarantee_bind; [apply guarantee_reraise|]. intros b.
  apply guarantee_bind.
  - apply put_bytes_frame. specialize (Hk O). rewrite Z.add_0_r in Hk. done.
  - intros _. apply IH. intros i. specialize (Hk (Datatypes.S i)).
    by replace (index + 1 + Z.of_nat i) with (index + Z.of_nat (Datatypes.S i)) by lia.
Qed.

(** When the loop over the pages returned, every page is stored. *)
Lemma put_pages_stored d index pages w w' :
  run (put_pages d index pages) w = (Val tt, w') →
  ∀ i p, pages !! i = Some p →
    ∃ b, encode p = inr b ∧ s3_get (page_key d (index + Z.of_nat i)) (w_s3 w') = Some b.
Proof.
  revert index w. induction pages as [|p pages IH]; intros index w Hrun i q Hq; [done|].
  cbn [put_pages] in Hrun. rewrite run_bind, run_reraise in Hrun.
  destruct (encode p) as [|b] eqn:Hb; [done|]. rewrite run_bind in Hrun.
  destruct (run (put_bytes (page_key d index) b) w) as [[[]|e|] w1] eqn:Hput; [|done..].
  destruct i as [|i]; simplify_eq/=.
  - exists b. split; [done|]. rewrite Z.add_0_r.
    replace w' with (run (put_pages d (index + 1) pages) w1).2 by (by rewrite Hrun).
    rewrite (run_frame (λ w : world, s3_get (page_key d index) (w_s3 w))).
    + by apply put_bytes_stored in Hput.
    + apply put_pages_frame. intros i [_ Hi]%page_key_inj. lia.
  - replace (index + Z.of_nat (Datatypes.S i)) with (index + 1 + Z.of_nat i) by lia. by eapply IH.
Qed.

(** C16: The manifest is written last.  From any bucket, whatever calls fail and
    wherever the process dies inside [put_document]: the document's manifest is the
    one that was there before the call (if any), or it is the new one and then every
    page of the document is in the bucket, with its content. *)
Theorem manifest_after_pages d pages total_length w :
  Forall (λ w',
    s3_get (manifest_key d) (w_s3 w') = s3_get (manifest_key d) (w_s3 w) ∨
    (∃ b, encode (dumps (manifest_dict (Manifest d (len pages) total_length (PAGE_SIZE cfg)))) = inr b ∧
       s3_get (manifest_key d) (w_s3 w') = Some b) ∧
    ∀ i p, pages !! i = Some p →
      ∃ b, encode p = inr b ∧ s3_get (page_key d (1 + Z.of_nat i)) (w_s3 w') = Some b)
    (trace (put_document cfg d pages total_length) w).
Proof.
  assert (guarantee (λ w w' : world, s3_get (manifest_key d) (w_s3 w') = s3_get (manifest_key d) (w_s3 w))
    (put_pages d 1 pages)) as Hkeep by (apply put_pages_frame; intros i; apply manifest_page_ne).
  unfold put_document. rewrite trace_bind, Forall_app. split.
  { eapply Forall_impl; [by apply (trace_frame (λ w : world, s3_get (manifest_key d) (w_s3 w)))|].
    intros w' Hw'. by left. }
  pose proof (run_frame (λ w : world, s3_get (manifest_key d) (w_s3 w)) _ w Hkeep) as Hsame.
  destruct (run (put_pages d 1 pages) w) as [[[]|e|] w1] eqn:Hpages; [|constructor..]. simpl in Hsame.
  pose proof (put_pages_stored _ _ _ _ _ Hpages) as Hstored.
  rewrite trace_bind. destruct (encode (dumps _)) as [|b] eqn:Hb; [constructor|]. simpl.
  constructor; [|by destruct (_ : (exn + unit) * _).1].
  destruct (pop_fault (w_s3_faults w1)) as [flt fs]. unfold serve. rewrite <-Hsame.
  assert (∀ i p, pages !! i = Some p → ∃ pb, encode p = inr pb ∧
    s3_get (page_key d (1 + Z.of_nat i)) (s3_put (manifest_key d) b (w_s3 w1)) = Some pb) as Hall.
  { intros i p Hp. destruct (Hstored i p Hp) as (pb & Hpb & Hget). exists pb. split; [done|].
    by rewrite s3_get_put_ne by apply manifest_page_ne. }
  destruct flt, (s3_bucket (w_s3 w1)); simpl; try (by left); right;
    (split; [exists b; split; [done|apply s3_get_put]|done]).
Qed.

(** ** [put_document] when the store works *)
Fixpoint stored_pages d index (pages : list pystr) (s : S) : S :=
  match pages with
  | [] => s
  | p :: rest => stored_pages d (index + 1) rest
                   (s3_put (page_key d index) (match encode p with inr b => b | inl _ => [] end) s)
  end.

Definition encodable (s : pystr) : Prop := Forall (λ c, is_scalar c = true) s.

Lemma run_put_pages d index pages w :
  s3_ready w → Forall encodable pages →
  run (put_pages d index pages) w = (Val tt, set_s3 (stored_pages d index pages (w_s3 w)) [] w).
Proof.
  intros Hw Hp. revert index w Hw. induction Hp as [|p pages Hp Hps IH]; intros index w Hw.
  { simpl. by rewrite set_s3_id by apply Hw. }
  cbn [put_pages stored_pages]. rewrite run_bind, run_reraise.
  destruct (encode_ok p Hp) as [b ->]. rewrite run_bind, run_put_bytes by done.
  by rewrite IH by (by apply s3_ready_put).
Qed.

Lemma manifest_dict_ok m : encodable (m_doc_key m) → Forall member_ok (manifest_dict m).
Proof.
  intros Hm. unfold manifest_dict. rewrite !Forall_cons. unfold member_ok. simpl.
  split_and!; try done; apply u_scalar.
Qed.

Lemma bucket_stored_pages d index pages s : s3_bucket (stored_pages d index pages s) = s3_bucket s.
Proof.
  revert index s. induction pages as [|p pages IH]; intros index s; [done|]. simpl.
  by rewrite IH, s3_bucket_put.
Qed.

(** The object store after [put_document]. *)
Definition stored_document d pages total_length (s : S) : S :=
  s3_put (manifest_key d)
    (dumps (manifest_dict (Manifest d (len pages) total_length (PAGE_SIZE cfg))))
    (stored_pages d 1 pages s).

Lemma run_put_document d pages total_length w :
  s3_ready w → Forall encodable pages → encodable d →
  run (put_document cfg d pages total_length) w =
  (Val (Manifest d (len pages) total_length (PAGE_SIZE cfg)),
   set_s3 (stored_document d pages total_length (w_s3 w)) [] w).
Proof.
  intros Hw Hp Hd. unfold put_document. rewrite run_bind, run_put_pages by done.
  rewrite run_bind, encode_dumps.
  - cbn [run reraise]. rewrite run_bind, run_put_bytes; [done|]. split; [done|]. simpl.
    rewrite bucket_stored_pages. apply Hw.
  - eapply Forall_impl; [by apply manifest_dict_ok|]. apply member_ok_text.
Qed.

Lemma get_stored_pages_other d index pages s k :
  (∀ i, k ≠ page_key d (index + Z.of_nat i)) → s3_get k (stored_pages d index pages s) = s3_get k s.
Proof.
  revert index s. induction pages as [|p pages IH]; intros index s Hk; [done|]. simpl.
  rewrite IH.
  - apply s3_get_put_ne. specialize (Hk O). rewrite Z.add_0_r in Hk. done.
  - intros i. specialize (Hk (Datatypes.S i)).
    by replace (index + 1 + Z.of_nat i) with (index + Z.of_nat (Datatypes.S i)) by lia.
Qed.

Lemma get_stored_page d index pages s i p b :
  pages !! i = Some p → encode p = inr b →
  s3_get (page_key d (index + Z.of_nat i)) (stored_pages d index pages s) = Some b.
Proof.
  revert index s i. induction pages as [|q pages IH]; intros index s [|i] Hp Hb; simplify_eq/=.
  - rewrite Z.add_0_r, get_stored_pages_other.
    + by rewrite Hb, s3_get_put.
    + intros i [_ Hi]%page_key_inj. lia.
  - rewrite <-(IH (index + 1) (s3_put (page_key d index) (match encode q with inr b => b | inl _ => [] end) s) i)
      by done. do 2 f_equal. lia.
Qed.

(** A stored document: its manifest and its pages can be read. *)
Definition document_stored d (pages : list pystr) (total_length : Z) (s : S) : Prop :=
  s3_get (manifest_key d) s =
    Some (dumps (manifest_dict (Manifest d (len pages) total_length (PAGE_SIZE cfg)))) ∧
  ∀ i p, pages !! i = Some p →
    ∃ b, encode p = inr b ∧ s3_get (page_key d (1 + Z.of_nat i)) s = Some b.

Lemma stored_document_spec d pages total_length s :
  Forall encodable pages → document_stored d pages total_length (stored_document d pages total_length s).
Proof.
  intros Hp. split; [apply s3_get_put|]. intros i p Hi.
  destruct (encode_ok p) as [b Hb]; [by eapply Forall_lookup_1 in Hp|]. exists b. split; [done|].
  unfold stored_document. rewrite s3_get_put_ne by apply manifest_page_ne. by eapply get_stored_page.
Qed.

Lemma stored_document_other d pages total_length s k :
  k ≠ manifest_key d → (∀ i, k ≠ page_key d (1 + Z.of_nat i)) →
  s3_get k (stored_document d pages total_length s) = s3_get k s.
Proof.
  intros Hm Hp. unfold stored_document. by rewrite s3_get_put_ne, get_stored_pages_other.
Qed.

Definition manifest_json d (pages : list pystr) (total_length : Z) : json :=
  JObj [(u "doc_key", JStr d); (u "total_pages", JInt (len pages));
        (u "total_length", JInt total_length); (u "page_size", JInt (PAGE_SIZE cfg))].

Lemma run_get_manifest d pages total_length w :
  s3_ready w → encodable d → document_stored d pages total_length (w_s3 w) →
  run (get_manifest d) w = (Val (Some (manifest_json d pages total_length)), w).
Proof.
  intros Hw Hd [Hm _]. unfold get_manifest. rewrite run_bind, run_get_bytes, Hm by done.
  rewrite run_bind, run_reraise, loads_dumps by (done || by apply manifest_dict_ok). done.
Qed.

Lemma run_get_page d pages total_length w i p :
  s3_ready w → document_stored d pages total_length (w_s3 w) → pages !! i = Some p →
  run (get_page d (1 + Z.of_nat i)) w = (Val (Some p), w).
Proof.
  intros Hw [_ Hp] Hi. destruct (Hp i p Hi) as (b & Hb & Hget). by apply (run_get_text _ _ _ b).
Qed.

(** C15: A stored document is read back as it was: after [put_document],
    [get_manifest] returns the manifest with the document's page count, length
    and page size, [get_page] returns each page, and no object of another
    document, part or source has changed. *)
Theorem document_roundtrip d pages total_length w :
  s3_ready w → Forall encodable pages → encodable d →
  ∃ w', run (put_document cfg d pages total_length) w =
          (Val (Manifest d (len pages) total_length (PAGE_SIZE cfg)), w') ∧
    run (get_manifest d) w' = (Val (Some (manifest_json d pages total_length)), w') ∧
    (∀ i p, pages !! i = Some p → run (get_page d (1 + Z.of_nat i)) w' = (Val (Some p), w')) ∧
    (∀ k, k ≠ manifest_key d → (∀ i, k ≠ page_key d (1 + Z.of_nat i)) →
      s3_get k (w_s3 w') = s3_get k (w_s3 w)).
Proof.
  intros Hw Hp Hd. eexists. split; [by apply run_put_document|].
  pose proof (stored_document_spec d pages total_length (w_s3 w) Hp) as Hst.
  assert (s3_ready (set_s3 (stored_document d pages total_length (w_s3 w)) [] w)) as Hw'.
  { split; [done|]. simpl. unfold stored_document. rewrite s3_bucket_put, bucket_stored_pages. apply Hw. }
  split_and!.
  - by apply run_get_manifest.
  - intros i p Hi. by eapply run_get_page.
  - intros k Hm Hk. by apply stored_document_other.
Qed.

(** A part is read back as it was stored, and storing it again (a redelivered
    chunk) leaves the store as one store does, key by key. *)
Theorem part_roundtrip d i markdown w :
  s3_ready w → encodable markdown →
  ∃ w', run (put_part d i markdown) w = (Val (part_key d i), w') ∧
    run (get_part d i) w' = (Val (Some markdown), w') ∧
    ∀ k, s3_get k (w_s3 (run (put_part d i markdown) w').2) = s3_get k (w_s3 w').
Proof.
  intros Hw Hm. destruct (encode_ok markdown Hm) as [b Hb].
  assert (∀ w, s3_ready w → run (put_part d i markdown) w =
    (Val (part_key d i), set_s3 (s3_put (part_key d i) b (w_s3 w)) [] w)) as Hput.
  { intros w0 Hw0. unfold put_part. rewrite run_bind, Hb. cbn [run reraise].
    by rewrite run_bind, run_put_bytes. }
  eexists. split; [by apply Hput|]. split.
  - apply (run_get_text _ _ _ b); [by apply s3_ready_put|done|apply s3_get_put].
  - intros k. rewrite Hput by (by apply s3_ready_put). simpl.
    destruct (decide (part_key d i = k)) as [<-|Hne]; [by rewrite !s3_get_put|].
    by rewrite !s3_get_put_ne.
Qed.

(** [ensure_bucket] leaves the bucket in place whether or not it existed,
    and keeps every object; losing the race to create it is not an error. *)
Theorem ensure_bucket_ready w :
  w_s3_faults w = [] ∨ (∃ code msg, w_s3_faults w = [NoFault; After (ClientError code msg)] ∧
                          (code = u "BucketAlreadyOwnedByYou" ∨ code = u "BucketAlreadyExists")) →
  (run ensure_bucket w).1 = Val tt ∧ s3_bucket (w_s3 (run ensure_bucket w).2) = true ∧
  ∀ k, s3_get k (w_s3 (run ensure_bucket w).2) = s3_get k (w_s3 w).
Proof.
  intros Hf. unfold ensure_bucket. rewrite run_bind, run_attempt. unfold head_bucket, s3_call.
  rewrite run_io. destruct Hf as [->|(code & msg & -> & Hcode)]; simpl;
    (destruct (s3_bucket (w_s3 w)) eqn:Hb; [done|]); simpl; rewrite ?Hb; simpl.
  - split_and!; [done|apply s3_bucket_create|intros; apply s3_get_create].
  - rewrite bool_decide_true by (destruct Hcode as [->| ->]; set_solver).
    split_and!; [done|apply s3_bucket_create|intros; apply s3_get_create].
Qed.
End proofs.

(** ** Witnesses *)
Definition store_world : world map_store map_broker :=
  World 0 empty_db (MapStore true ∅) empty_broker ∅ ∅ ∅ ∅ ∅ [] [] [].

Lemma encodable_u s : encodable (u s).
Proof. apply u_scalar. Qed.

(** Over a stale manifest, the second page failing to arrive: wherever that stops,
    the stale manifest is there, or both pages are. *)
Lemma manifest_after_pages_witness :
  let w := set_s3 (s3_put (manifest_key (u "d")) [] (w_s3 store_world))
             [NoFault; Before (ValueError (u "timed out"))] store_world in
  Forall (λ w', s3_get (manifest_key (u "d")) (w_s3 w') = Some [] ∨
                is_Some (s3_get (page_key (u "d") 1) (w_s3 w')) ∧
                is_Some (s3_get (page_key (u "d") 2) (w_s3 w')))
    (trace (put_document default_config (u "d") [u "x"; u "y"] 4) w).
Proof.
  cbv zeta. eapply Forall_impl; [apply manifest_after_pages|].
  intros w' [Hold|[_ Hpages]]; [left; rewrite Hold; reflexivity|right].
  destruct (Hpages 0%nat (u "x") eq_refl) as (b1 & _ & H1).
  destruct (Hpages 1%nat (u "y") eq_refl) as (b2 & _ & H2).
  split; [exists b1; exact H1|exists b2; exact H2].
Defined.

Lemma document_roundtrip_witness :
  ∃ w', run (put_document default_config (u "d") [u "x"; u "y"] 4) store_world =
          (Val (Manifest (u "d") 2 4 5000), w') ∧
    run (get_page (u "d") 2) w' = (Val (Some (u "y")), w').
Proof.
  destruct (document_roundtrip default_config (u "d") [u "x"; u "y"] 4 store_world)
    as (w' & Hrun & _ & Hpage & _).
  - split; reflexivity.
  - repeat constructor; apply encodable_u.
  - apply encodable_u.
  - exists w'. split; [exact Hrun|]. apply (Hpage 1%nat). reflexivity.
Defined.

Lemma part_roundtrip_witness :
  ∃ w', run (put_part (u "d") 3 (u "text")) store_world = (Val (u "parts/d/00003.md"), w') ∧
    run (get_part (u "d") 3) w' = (Val (Some (u "text")), w').
Proof.
  destruct (part_roundtrip (u "d") 3 (u "text") store_world) as (w' & Hrun & Hget & _).
  - split; reflexivity.
  - apply encodable_u.
  - exists w'. split; [exact Hrun|exact Hget].
Defined.

Lemma ensure_bucket_ready_witness :
  s3_bucket (w_s3 (run ensure_bucket (set_s3 (MapStore false ∅) [] store_world)).2) = true.
Proof.
  apply (ensure_bucket_ready (set_s3 (MapStore false ∅) [] store_world)). left. reflexivity.
Defined.
