(* ===== verification/Taskqueue.v ===== *)
(** * Job distribution (taskqueue.py)

    Chunk tasks as messages, the topology of exchanges and queues, publishing
    with one reconnection, and the consumer loop.  The theorems: the topology
    routes every publication to exactly one queue, a retried task comes back to
    the work queue with its attempt incremented, publishing through a broken
    connection delivers every body at least once, and a delivery is
    acknowledged only after its handler ended. *)
From S2P Require Import Prelude PyStr Effects Utf8 Json Database Config World.

(** ** Messages *)
Record ChunkTask := {
  t_job_id : pystr;
  t_chunk_index : Z;
  t_doc_key : pystr;
  t_file_hash : pystr;
  t_start_page : Z;
  t_end_page : Z;                (** exclusive; -1 means the whole file *)
  t_total_chunks : Z;
  t_use_llm : bool;
  t_attempt : Z;
}.

#[export] Instance ChunkTask_eq_dec : EqDecision ChunkTask.
Proof. solve_decision. Defined.

Definition asdict (t : ChunkTask) : list (pystr * scalar) :=
  [(u "job_id", SStr (t_job_id t)); (u "chunk_index", SInt (t_chunk_index t));
   (u "doc_key", SStr (t_doc_key t)); (u "file_hash", SStr (t_file_hash t));
   (u "start_page", SInt (t_start_page t)); (u "end_page", SInt (t_end_page t));
   (u "total_chunks", SInt (t_total_chunks t)); (u "use_llm", SBool (t_use_llm t));
   (u "attempt", SInt (t_attempt t))].

Definition to_bytes (t : ChunkTask) : exn + bytes := encode (dumps (asdict t)).

Definition next_attempt (t : ChunkTask) : ChunkTask :=
  Build_ChunkTask (t_job_id t) (t_chunk_index t) (t_doc_key t) (t_file_hash t)
    (t_start_page t) (t_end_page t) (t_total_chunks t) (t_use_llm t) (t_attempt t + 1).

(** The value of a key of a parsed object: of equal keys the last one wins. *)
Fixpoint dict_get (k : pystr) (l : list (pystr * json)) : option json :=
  match l with
  | [] => None
  | (k', v) :: l =>
      match dict_get k l with
      | Some v' => Some v'
      | None => if decide (k = k') then Some v else None
      end
  end.

(** What [ChunkTask.from_bytes] makes of a message.  The dataclass does not
    check types: an object with the right keys and other types is built too
    ([IllTyped]). *)
Inductive parsed :=
| Parsed (t : ChunkTask)
| IllTyped (l : list (pystr * json))
| Malformed (e : exn).

Definition type_error (msg : string) : exn := OtherError (u "TypeError") (u msg).

Definition task_fields : list pystr :=
  [u "job_id"; u "chunk_index"; u "doc_key"; u "file_hash"; u "start_page"; u "end_page";
   u "total_chunks"; u "use_llm"].

Definition build_task (l : list (pystr * json)) : parsed :=
  let get k := dict_get (u k) l in
  match get "job_id", get "chunk_index", get "doc_key", get "file_hash", get "start_page",
        get "end_page", get "total_chunks", get "use_llm",
        default (JInt 1) (get "attempt") with
  | Some (JStr job_id), Some (JInt index), Some (JStr doc_key), Some (JStr file_hash),
    Some (JInt start), Some (JInt end_), Some (JInt total), Some (JBool use_llm), JInt attempt =>
      Parsed (Build_ChunkTask job_id index doc_key file_hash start end_ total use_llm attempt)
  | _, _, _, _, _, _, _, _, _ => IllTyped l
  end.

Definition from_bytes `{Codecs} (raw : bytes) : parsed :=
  match loads raw with
  | inl e => Malformed e
  | inr (JObj l) =>
      if negb (forallb (λ kv, bool_decide (kv.1 ∈ task_fields ++ [u "attempt"])) l) then
        Malformed (type_error "unexpected keyword argument")
      else if negb (forallb (λ k, bool_decide (is_Some (dict_get k l))) task_fields) then
        Malformed (type_error "missing required argument")
      else build_task l
  | inr _ => Malformed (type_error "argument after ** must be a mapping")
  end.

(** ** Topology *)
Definition RETRY_EXCHANGE (cfg : config) : pystr := RABBITMQ_EXCHANGE cfg ++ u ".retry".
Definition DLX_EXCHANGE (cfg : config) : pystr := RABBITMQ_EXCHANGE cfg ++ u ".dlx".
Definition FAILED_QUEUE (cfg : config) : pystr := RABBITMQ_QUEUE cfg ++ u ".failed".

Definition retry_tier (cfg : config) (tier : Z) : pystr :=
  RABBITMQ_QUEUE cfg ++ u ".retry." ++ str_of_Z tier.

Definition retry_queue_name (cfg : config) (attempt : Z) : pystr :=
  let tier := Z.min attempt (len (RETRY_DELAYS cfg)) in
  retry_tier cfg tier.

(** The declarations [declare] sends, in order. *)
Inductive declaration :=
| DExchange (x : pystr)
| DQueue (q : pystr) (a : queue_args)
| DBind (q ex key : pystr).

Fixpoint retry_declarations (cfg : config) (tier : Z) (delays : list Z) : list declaration :=
  match delays with
  | [] => []
  | delay :: rest =>
      let name := retry_tier cfg tier in
      DQueue name (QueueArgs (Some (RABBITMQ_EXCHANGE cfg)) (Some (RABBITMQ_QUEUE cfg))
                     (Some (delay * 1000)))
      :: DBind name (RETRY_EXCHANGE cfg) name
      :: retry_declarations cfg (tier + 1) rest
  end.

Definition declarations (cfg : config) : list declaration :=
  [DExchange (RABBITMQ_EXCHANGE cfg); DExchange (RETRY_EXCHANGE cfg); DExchange (DLX_EXCHANGE cfg);
   DQueue (RABBITMQ_QUEUE cfg) (QueueArgs (Some (DLX_EXCHANGE cfg)) None None);
   DBind (RABBITMQ_QUEUE cfg) (RABBITMQ_EXCHANGE cfg) (RABBITMQ_QUEUE cfg)]
  ++ retry_declarations cfg 1 (RETRY_DELAYS cfg) ++
  [DQueue (FAILED_QUEUE cfg) (QueueArgs None None None);
   DBind (FAILED_QUEUE cfg) (DLX_EXCHANGE cfg) (RABBITMQ_QUEUE cfg)].

#[export] Instance queue_args_eq_dec : EqDecision queue_args.
Proof. solve_decision. Defined.

Definition precondition_failed : exn :=
  AMQPError (u "ChannelClosedByBroker") (u "PRECONDITION_FAILED - inequivalent arg").
Definition queue_not_found : exn :=
  AMQPError (u "ChannelClosedByBroker") (u "NOT_FOUND - no queue").

Section taskqueue.
Context {S B : Type} `{Broker B} `{Codecs} (host : pystr) (cfg : config).
#[local] Abbreviation world := (world S B).

(** Declaring an existing queue is accepted only with the same arguments. *)
Definition declare_one (d : declaration) (b : B) : exn + unit * B :=
  match d with
  | DExchange x => inr (tt, mq_exchange_declare x b)
  | DQueue q a =>
      match mq_args q b with
      | Some a' => if decide (a' = a) then inr (tt, mq_queue_declare q a b) else inl precondition_failed
      | None => inr (tt, mq_queue_declare q a b)
      end
  | DBind q ex key => inr (tt, mq_queue_bind q ex key b)
  end.

Definition declare : prog world unit := for_each (λ d, mq_call (declare_one d)) (declarations cfg).

Definition connect : prog world unit :=
  opened ← act (λ w, (bool_decide (host ∈ w_mq_open w), w));
  if opened : bool then mret tt
  else
    _ ← mq_call (λ b, inr (tt, b));
    _ ← act (λ w, (tt, set_mq_open ({[host]} ∪ w_mq_open w) w));
    declare.

Definition channel : prog world unit := connect.

Definition close : prog world unit :=
  act (λ w, (tt, set_mq_open (w_mq_open w ∖ {[host]}) w)).

Definition basic_publish (exchange routing_key : pystr) (body : bytes) : prog world unit :=
  mq_call (λ b, inr (tt, mq_basic_publish exchange routing_key body b)).

Definition publish_bodies (exchange routing_key : pystr) (bodies : list bytes) : prog world unit :=
  _ ← channel; for_each (basic_publish exchange routing_key) bodies.

(** [_publish] *)
Definition publish_with_reconnect (exchange routing_key : pystr) (bodies : list bytes)
    : prog world unit :=
  r ← attempt (publish_bodies exchange routing_key bodies);
  match r with
  | inr _ => mret tt
  | inl (AMQPError _ _) => _ ← close; publish_bodies exchange routing_key bodies
  | inl e => Raise e
  end.

Fixpoint all_bytes (tasks : list ChunkTask) : exn + list bytes :=
  match tasks with
  | [] => inr []
  | t :: rest => b ← to_bytes t; bs ← all_bytes rest; mret (b :: bs)
  end.

Definition publish (tasks : list ChunkTask) : prog world unit :=
  bodies ← lift (all_bytes tasks);
  publish_with_reconnect (RABBITMQ_EXCHANGE cfg) (RABBITMQ_QUEUE cfg) bodies.

Definition publish_retry (task : ChunkTask) : prog world unit :=
  let queue := retry_queue_name cfg (t_attempt task) in
  body ← lift (to_bytes (next_attempt task));
  publish_with_reconnect (RETRY_EXCHANGE cfg) queue [body].

Definition publish_failed (task : ChunkTask) (error : pystr) : prog world unit :=
  body ← lift (encode (dumps (asdict task ++ [(u "error", SStr (slice_to error 2000))])));
  publish_with_reconnect (DLX_EXCHANGE cfg) (RABBITMQ_QUEUE cfg) [body].

(** ** The consumer *)
Definition should_stop : prog world bool := act (λ w, (bool_decide (host ∈ w_stop w), w)).

Definition basic_ack (tag : Z) : prog world unit := mq_call (λ b, inr (tt, mq_ack tag b)).

(** One turn of the loop over [ch.consume]; the result says whether to go on.
    [handler] gets well-typed tasks, [ill_typed] the others. *)
Definition consume_step (handler : ChunkTask → prog world unit)
    (ill_typed : list (pystr * json) → prog world unit) : prog world bool :=
  m ← mq_call (λ b, inr (mq_deliver (RABBITMQ_QUEUE cfg) b));
  stop ← should_stop;
  if stop : bool then mret false
  else
    match m with
    | None => mret true
    | Some (tag, body) =>
        match from_bytes body with
        | Malformed _ =>
            _ ← basic_publish (DLX_EXCHANGE cfg) (RABBITMQ_QUEUE cfg) body;
            _ ← basic_ack tag;
            mret true
        | Parsed task => _ ← finally (handler task) (basic_ack tag); mret true
        | IllTyped l => _ ← finally (ill_typed l) (basic_ack tag); mret true
        end
    end.

(** The loop runs until it is stopped; [fuel] turns of it are modelled. *)
Fixpoint consume_loop (fuel : nat) (handler : ChunkTask → prog world unit)
    (ill_typed : list (pystr * json) → prog world unit) : prog world unit :=
  match fuel with
  | O => Spin
  | Datatypes.S fuel =>
      go ← consume_step handler ill_typed;
      if go : bool then consume_loop fuel handler ill_typed else mret tt
  end.

Definition consume (fuel : nat) (handler : ChunkTask → prog world unit)
    (ill_typed : list (pystr * json) → prog world unit) : prog world unit :=
  _ ← channel;
  _ ← mq_call (λ b, inr (tt, b));                     (* basic_qos *)
  _ ← consume_loop fuel handler ill_typed;
  _ ← attempt (mq_call (λ b, inr (tt, b)));           (* cancel *)
  mret tt.

Definition queue_depth : prog world (option Z) :=
  r ← attempt (
    _ ← channel;
    mq_call (λ b, match mq_args (RABBITMQ_QUEUE cfg) b with
                  | Some _ => inr (len (mq_messages (RABBITMQ_QUEUE cfg) b), b)
                  | None => inl queue_not_found
                  end));
  mret (match r with inr n => Some n | inl _ => None end).

Definition health : prog world bool :=
  r ← attempt connect;
  mret (match r with inl _ => false | inr _ => true end).
End taskqueue.

(** ** Messages survive the wire *)
Definition task_text (t : ChunkTask) : Prop :=
  Forall (λ c, is_scalar c = true) (t_job_id t) ∧ Forall (λ c, is_scalar c = true) (t_doc_key t) ∧
  Forall (λ c, is_scalar c = true) (t_file_hash t).

Lemma asdict_ok t : task_text t → Forall member_ok (asdict t).
Proof.
  intros (H1 & H2 & H3). unfold asdict. rewrite !Forall_cons. unfold member_ok. simpl.
  split_and!; try done; apply u_scalar.
Qed.

Lemma to_bytes_ok t : task_text t → to_bytes t = inr (dumps (asdict t)).
Proof.
  intros Ht. apply encode_dumps. eapply Forall_impl; [by apply asdict_ok|]. apply member_ok_text.
Qed.

Lemma from_to_bytes `{Codecs} t : task_text t → from_bytes (dumps (asdict t)) = Parsed t.
Proof.
  intros Ht. unfold from_bytes. rewrite loads_dumps by (done || by apply asdict_ok).
  destruct t as [a b c d e f g h i]. vm_compute. reflexivity.
Qed.

(** C24: A task published by one process is the task another one consumes:
    [from_bytes] undoes [to_bytes]. *)
Theorem task_roundtrip `{Codecs} (t : ChunkTask) :
  task_text t → ∃ b, to_bytes t = inr b ∧ from_bytes b = Parsed t.
Proof.
  intros Ht. eexists. split; [by apply to_bytes_ok|by apply from_to_bytes].
Qed.

Definition sample_task : ChunkTask :=
  Build_ChunkTask (u "job") 2 (u "h:f") (u "h") 40 60 5 false 1.

Lemma sample_task_text : task_text sample_task.
Proof. split_and!; apply u_scalar. Qed.

Lemma task_roundtrip_witness :
  ∃ b, to_bytes sample_task = inr b ∧ from_bytes b = Parsed sample_task.
Proof. apply task_roundtrip. apply sample_task_text. Defined.

(** ** The topology *)

(** Where each exchange sends each key, and the arguments of the queues. *)
Definition topology {B} `{Broker B} (cfg : config) (b : B) : Prop :=
  (∀ key q, mq_bound (RABBITMQ_EXCHANGE cfg) key q b =
     bool_decide (key = RABBITMQ_QUEUE cfg ∧ q = RABBITMQ_QUEUE cfg)) ∧
  (∀ key q, mq_bound (RETRY_EXCHANGE cfg) key q b = true ↔
     key = q ∧ ∃ i, 1 <= i <= len (RETRY_DELAYS cfg) ∧ q = retry_tier cfg i) ∧
  (∀ key q, mq_bound (DLX_EXCHANGE cfg) key q b =
     bool_decide (key = RABBITMQ_QUEUE cfg ∧ q = FAILED_QUEUE cfg)) ∧
  (∀ q a, DQueue q a ∈ declarations cfg → mq_args q b = Some a).

(** No queue exists with other arguments. *)
Definition compatible {B} `{Broker B} (ds : list declaration) (b : B) : Prop :=
  ∀ q a, DQueue q a ∈ ds → ∀ a', mq_args q b = Some a' → a' = a.

(** One queue is not declared twice with different arguments. *)
Definition consistent (ds : list declaration) : Prop :=
  ∀ q a a', DQueue q a ∈ ds → DQueue q a' ∈ ds → a = a'.

Lemma elem_of_retry_queue cfg tier delays q a :
  DQueue q a ∈ retry_declarations cfg tier delays ↔
  ∃ i delay, delays !! i = Some delay ∧ q = retry_tier cfg (tier + Z.of_nat i) ∧
    a = QueueArgs (Some (RABBITMQ_EXCHANGE cfg)) (Some (RABBITMQ_QUEUE cfg)) (Some (delay * 1000)).
Proof.
  revert tier. induction delays as [|delay delays IH]; intros tier; simpl.
  { split; [set_solver|]. by intros (i & d & ? & _). }
  rewrite !elem_of_cons, IH. split.
  - intros [[= -> ->]|[[=]|(i & d & Hi & -> & ->)]].
    + exists O, delay. split_and!; try done. f_equal. lia.
    + exists (Datatypes.S i), d. split_and!; try done. f_equal. lia.
  - intros ([|i] & d & Hi & -> & ->); simplify_eq/=.
    + left. do 2 f_equal. lia.
    + right. right. exists i, d. split_and!; try done. f_equal. lia.
Qed.

Lemma elem_of_retry_bind cfg tier delays q ex key :
  DBind q ex key ∈ retry_declarations cfg tier delays ↔
  ex = RETRY_EXCHANGE cfg ∧ key = q ∧ ∃ i, 0 <= i < len delays ∧ q = retry_tier cfg (tier + i).
Proof.
  revert tier. induction delays as [|delay delays IH]; intros tier; simpl.
  { split; [set_solver|]. intros (_ & _ & i & Hi & _). unfold len in Hi. simpl in Hi. lia. }
  rewrite !elem_of_cons, IH, len_cons. split.
  - intros [[=]|[[= -> -> ->]|(-> & -> & i & Hi & ->)]].
    + split_and!; try done. exists 0. rewrite Z.add_0_r. pose proof (len_nonneg delays). split; [lia|done].
    + split_and!; try done. exists (i + 1). split; [lia|]. f_equal. lia.
  - intros (-> & -> & i & Hi & ->). destruct (decide (i = 0)) as [->|].
    + right. left. by rewrite Z.add_0_r.
    + right. right. split_and!; try done. exists (i - 1). split; [lia|]. f_equal. lia.
Qed.

Lemma retry_tier_inj cfg i j : retry_tier cfg i = retry_tier cfg j → i = j.
Proof. unfold retry_tier. intros Heq. by do 2 apply app_inv_head in Heq; apply str_of_Z_inj. Qed.

Lemma retry_tier_ne cfg i : retry_tier cfg i ≠ RABBITMQ_QUEUE cfg.
Proof.
  intros Heq%(f_equal length). unfold retry_tier in Heq. rewrite length_app in Heq. simpl in Heq. lia.
Qed.

Lemma retry_tier_failed_ne cfg i : retry_tier cfg i ≠ FAILED_QUEUE cfg.
Proof. intros Heq%app_inv_head. discriminate Heq. Qed.

Lemma failed_queue_ne cfg : FAILED_QUEUE cfg ≠ RABBITMQ_QUEUE cfg.
Proof. intros Heq%(f_equal length). unfold FAILED_QUEUE in Heq. rewrite length_app in Heq. simpl in Heq. lia. Qed.

Lemma exchanges_ne cfg :
  RETRY_EXCHANGE cfg ≠ RABBITMQ_EXCHANGE cfg ∧ DLX_EXCHANGE cfg ≠ RABBITMQ_EXCHANGE cfg ∧
  RETRY_EXCHANGE cfg ≠ DLX_EXCHANGE cfg.
Proof.
  split_and!; intros Heq.
  1,2: apply (f_equal length) in Heq; unfold RETRY_EXCHANGE, DLX_EXCHANGE in Heq;
    rewrite length_app in Heq; simpl in Heq; lia.
  apply app_inv_head in Heq. discriminate Heq.
Qed.

Lemma elem_of_declared_queue cfg q a :
  DQueue q a ∈ declarations cfg ↔
  (q = RABBITMQ_QUEUE cfg ∧ a = QueueArgs (Some (DLX_EXCHANGE cfg)) None None) ∨
  (∃ i delay, RETRY_DELAYS cfg !! i = Some delay ∧ q = retry_tier cfg (1 + Z.of_nat i) ∧
    a = QueueArgs (Some (RABBITMQ_EXCHANGE cfg)) (Some (RABBITMQ_QUEUE cfg)) (Some (delay * 1000))) ∨
  (q = FAILED_QUEUE cfg ∧ a = QueueArgs None None None).
Proof.
  unfold declarations. rewrite !elem_of_app, elem_of_retry_queue, !elem_of_cons, !elem_of_nil. naive_solver.
Qed.

Lemma elem_of_declared_bind cfg q ex key :
  DBind q ex key ∈ declarations cfg ↔
  (ex = RABBITMQ_EXCHANGE cfg ∧ key = RABBITMQ_QUEUE cfg ∧ q = RABBITMQ_QUEUE cfg) ∨
  (ex = RETRY_EXCHANGE cfg ∧ key = q ∧ ∃ i, 1 <= i <= len (RETRY_DELAYS cfg) ∧ q = retry_tier cfg i) ∨
  (ex = DLX_EXCHANGE cfg ∧ key = RABBITMQ_QUEUE cfg ∧ q = FAILED_QUEUE cfg).
Proof.
  unfold declarations. rewrite !elem_of_app, elem_of_retry_bind, !elem_of_cons, !elem_of_nil.
  assert ((∃ i, 0 <= i < len (RETRY_DELAYS cfg) ∧ q = retry_tier cfg (1 + i)) ↔
          ∃ i, 1 <= i <= len (RETRY_DELAYS cfg) ∧ q = retry_tier cfg i) as ->; [|naive_solver].
  split; intros (i & Hi & ->); [exists (1 + i)|exists (i - 1)]; (split; [lia|f_equal; lia]).
Qed.

Lemma declarations_consistent cfg : consistent (declarations cfg).
Proof.
  intros q a a'. rewrite !elem_of_declared_queue.
  intros [[-> ->]|[(i & d & Hi & -> & ->)|[-> ->]]] [[Hq ->]|[(j & d' & Hj & Hq & ->)|[Hq ->]]];
    try done.
  - by apply symmetry, retry_tier_ne in Hq.
  - by apply symmetry, failed_queue_ne in Hq.
  - by apply retry_tier_ne in Hq.
  - apply retry_tier_inj in Hq. assert (i = j) as -> by lia. by simplify_eq.
  - by apply retry_tier_failed_ne in Hq.
  - by apply failed_queue_ne in Hq.
  - by apply symmetry, retry_tier_failed_ne in Hq.
Qed.

Section proofs.
Context {S B : Type} `{BrokerLaws B} `{Codecs} (host : pystr) (cfg : config).
#[local] Abbreviation world := (world S B).
Implicit Types (w : world) (b : B) (ex key q : pystr).

Definition declaration_effect (d : declaration) b : B :=
  match d with
  | DExchange x => mq_exchange_declare x b
  | DQueue q a => mq_queue_declare q a b
  | DBind q ex key => mq_queue_bind q ex key b
  end.

Definition declared (ds : list declaration) b : B := fold_left (flip declaration_effect) ds b.

Lemma declared_cons d ds b : declared (d :: ds) b = declared ds (declaration_effect d b).
Proof. done. Qed.

Lemma bound_declared ds b ex key q :
  mq_bound ex key q (declared ds b) = true ↔ DBind q ex key ∈ ds ∨ mq_bound ex key q b = true.
Proof.
  revert b. induction ds as [|d ds IH]; intros b; simpl; [rewrite elem_of_nil; naive_solver|].
  unfold declared in IH. rewrite IH, elem_of_cons. unfold flip. destruct d as [x|q' a|q' ex' key']; simpl.
  - rewrite mq_bound_exchange. naive_solver.
  - rewrite mq_bound_queue. naive_solver.
  - rewrite mq_bound_bind, orb_true_iff, bool_decide_eq_true. naive_solver.
Qed.

Lemma messages_declared ds b q : mq_messages q (declared ds b) = mq_messages q b.
Proof.
  revert b. induction ds as [|d ds IH]; intros b; [done|]. simpl. unfold declared in IH. rewrite IH.
  destruct d; simpl; auto using mq_messages_exchange, mq_messages_queue, mq_messages_bind.
Qed.

Lemma unacked_declared ds b tag : mq_unacked tag (declared ds b) = mq_unacked tag b.
Proof.
  revert b. induction ds as [|d ds IH]; intros b; [done|]. simpl. unfold declared in IH. rewrite IH.
  destruct d; simpl; auto using mq_unacked_exchange, mq_unacked_queue, mq_unacked_bind.
Qed.

Lemma args_effect d b q :
  mq_args q (declaration_effect d b) =
  match d with
  | DQueue q' a => if decide (q = q') then Some (default a (mq_args q b)) else mq_args q b
  | _ => mq_args q b
  end.
Proof.
  destruct d as [x|q' a|q' ex' key']; simpl; [apply mq_args_exchange| |apply mq_args_bind].
  rewrite mq_args_declare. by case_decide; simplify_eq.
Qed.

Lemma compatible_effect d ds b :
  consistent (d :: ds) → compatible (d :: ds) b → compatible ds (declaration_effect d b).
Proof.
  intros Hc Hb q a Hq a'. rewrite args_effect.
  destruct d as [x|q' a0|q' ex' key']; try (intros Ha; eapply Hb; [by apply list_elem_of_further|done]).
  case_decide as Hqq; [subst q'|intros Ha; eapply Hb; [by apply list_elem_of_further|done]].
  intros [= <-]. destruct (mq_args q b) as [a1|] eqn:Ha1; simpl.
  - eapply Hb; [by apply list_elem_of_further|done].
  - eapply Hc; [apply list_elem_of_here|by apply list_elem_of_further].
Qed.

Lemma consistent_cons d ds : consistent (d :: ds) → consistent ds.
Proof. intros Hc q a a' ? ?. eapply (Hc q); by apply list_elem_of_further. Qed.

Lemma args_declared_keep ds b q a :
  mq_args q b = Some a → mq_args q (declared ds b) = Some a.
Proof.
  revert b. induction ds as [|d ds IH]; intros b Ha; [done|]. rewrite declared_cons. apply IH.
  rewrite args_effect, Ha. by destruct d; [| case_decide|].
Qed.

Lemma args_declared ds b q a :
  consistent ds → compatible ds b → DQueue q a ∈ ds → mq_args q (declared ds b) = Some a.
Proof.
  revert b. induction ds as [|d ds IH]; intros b Hc Hb Hq; [by apply elem_of_nil in Hq|].
  rewrite declared_cons. apply elem_of_cons in Hq as [<-|Hq].
  - apply args_declared_keep. rewrite args_effect, decide_True by done.
    destruct (mq_args q b) as [a'|] eqn:Ha; [|done]. simpl.
    by rewrite (Hb q a (list_elem_of_here _ _) a').
  - apply IH; [by eapply consistent_cons|by apply compatible_effect|done].
Qed.

Lemma run_declarations ds w :
  w_mq_faults w = [] → consistent ds → compatible ds (w_mq w) →
  run (for_each (λ d, mq_call (declare_one d)) ds) w =
  (Val tt, set_mq (declared ds (w_mq w)) [] w).
Proof.
  revert w. induction ds as [|d ds IH]; intros w Hf Hc Hb.
  { simpl. destruct w; simpl in *; by subst. }
  cbn [for_each]. rewrite run_bind, run_mq_call by done.
  assert (declare_one d (w_mq w) = inr (tt, declaration_effect d (w_mq w))) as ->.
  { destruct d as [x|q a|q ex key]; simpl; [done| |done].
    destruct (mq_args q (w_mq w)) as [a'|] eqn:Ha; [|done].
    by rewrite decide_True by (eapply Hb; [apply list_elem_of_here|done]). }
  rewrite IH; [done|done|by eapply consistent_cons|by apply compatible_effect].
Qed.

(** Nothing else is bound to the three exchanges. *)
Definition no_foreign_bindings b : Prop :=
  ∀ ex key q, ex ∈ [RABBITMQ_EXCHANGE cfg; RETRY_EXCHANGE cfg; DLX_EXCHANGE cfg] →
    mq_bound ex key q b = true → DBind q ex key ∈ declarations cfg.

Lemma topology_declared b :
  no_foreign_bindings b → compatible (declarations cfg) b →
  topology cfg (declared (declarations cfg) b).
Proof.
  intros Hno Hcomp. destruct (exchanges_ne cfg) as (Hr & Hd & Hrd).
  assert (∀ ex key q, ex ∈ [RABBITMQ_EXCHANGE cfg; RETRY_EXCHANGE cfg; DLX_EXCHANGE cfg] →
    mq_bound ex key q (declared (declarations cfg) b) = true ↔ DBind q ex key ∈ declarations cfg) as Hb.
  { intros ex key q Hex. rewrite bound_declared. naive_solver. }
  split_and!.
  - intros key q. apply eq_bool_prop_intro. rewrite !Is_true_true, bool_decide_eq_true, Hb by set_solver.
    rewrite elem_of_declared_bind. naive_solver.
  - intros key q. rewrite Hb by set_solver. rewrite elem_of_declared_bind. naive_solver.
  - intros key q. apply eq_bool_prop_intro. rewrite !Is_true_true, bool_decide_eq_true, Hb by set_solver.
    rewrite elem_of_declared_bind. naive_solver.
  - intros q a Hq. apply args_declared; [apply declarations_consistent|done|done].
Qed.

Lemma topology_no_foreign b : topology cfg b → no_foreign_bindings b.
Proof.
  intros (Ht1 & Ht2 & Ht3 & _) ex key q. rewrite !elem_of_cons, elem_of_nil, elem_of_declared_bind.
  intros [-> |[-> |[-> |[]]]].
  - rewrite Ht1, bool_decide_eq_true. naive_solver.
  - rewrite Ht2. naive_solver.
  - rewrite Ht3, bool_decide_eq_true. naive_solver.
Qed.

Lemma topology_compatible b : topology cfg b → compatible (declarations cfg) b.
Proof. intros (_ & _ & _ & Ht4) q a Hq a' Ha. apply Ht4 in Hq. congruence. Qed.

(** A process that is connected to a broker that works and has the topology. *)
Definition mq_ready w : Prop :=
  w_mq_faults w = [] ∧ host ∈ w_mq_open w ∧ topology cfg (w_mq w).

Lemma run_connect_open w : host ∈ w_mq_open w → run (connect host cfg) w = (Val tt, w).
Proof. intros Ho. unfold connect. rewrite run_bind, run_act. cbn [fst snd]. by rewrite bool_decide_true. Qed.

Lemma run_connect_closed w :
  host ∉ w_mq_open w → w_mq_faults w = [] → compatible (declarations cfg) (w_mq w) →
  run (connect host cfg) w =
  (Val tt, set_mq (declared (declarations cfg) (w_mq w)) [] (set_mq_open ({[host]} ∪ w_mq_open w) w)).
Proof.
  intros Ho Hf Hc. unfold connect. rewrite run_bind, run_act. cbn [fst snd].
  rewrite bool_decide_false by done. rewrite run_bind, run_mq_call by done. cbv beta iota.
  rewrite run_bind, run_act. unfold declare.
  rewrite run_declarations; [done|done|apply declarations_consistent|done].
Qed.

(** C23: Connecting to a broker declares the whole topology and loses nothing:
    from any broker that has no conflicting queue and no foreign binding on the
    three exchanges (a fresh one, or one where other processes declared the
    topology before), [connect] succeeds, the topology is in place, and every
    waiting message is still where it was. *)
Theorem connect_declares w :
  host ∉ w_mq_open w → w_mq_faults w = [] →
  no_foreign_bindings (w_mq w) → compatible (declarations cfg) (w_mq w) →
  (run (connect host cfg) w).1 = Val tt ∧ mq_ready (run (connect host cfg) w).2 ∧
  ∀ q, mq_messages q (w_mq (run (connect host cfg) w).2) = mq_messages q (w_mq w).
Proof.
  intros Ho Hf Hno Hc. rewrite run_connect_closed by done. cbn [fst snd]. split_and!; [done| |].
  - split_and!; [done|simpl; set_solver|by apply topology_declared].
  - intros q. apply (messages_declared (declarations cfg)).
Qed.

(** ** Publishing *)
Definition published ex key (bodies : list bytes) b : B :=
  fold_left (λ b d, mq_basic_publish ex key d b) bodies b.

Lemma published_cons ex key d bodies b :
  published ex key (d :: bodies) b = published ex key bodies (mq_basic_publish ex key d b).
Proof. done. Qed.

Lemma bound_published ex key bodies b ex' key' q :
  mq_bound ex' key' q (published ex key bodies b) = mq_bound ex' key' q b.
Proof.
  revert b. induction bodies as [|d bodies IH]; intros b; [done|].
  by rewrite published_cons, IH, mq_bound_publish.
Qed.

Lemma args_published ex key bodies b q : mq_args q (published ex key bodies b) = mq_args q b.
Proof.
  revert b. induction bodies as [|d bodies IH]; intros b; [done|].
  by rewrite published_cons, IH, mq_args_publish.
Qed.

Lemma messages_published ex key bodies b q :
  mq_messages q (published ex key bodies b) =
  mq_messages q b ++ (if mq_bound ex key q b then bodies else []).
Proof.
  revert b. induction bodies as [|d bodies IH]; intros b.
  { simpl. destruct (mq_bound ex key q b); by rewrite app_nil_r. }
  rewrite published_cons, IH, mq_messages_publish, mq_bound_publish.
  destruct (mq_bound ex key q b); by rewrite <-(assoc_L (++)).
Qed.

Lemma topology_published ex key bodies b : topology cfg b → topology cfg (published ex key bodies b).
Proof.
  intros (Ht1 & Ht2 & Ht3 & Ht4). split_and!; intros; rewrite ?bound_published, ?args_published; auto.
Qed.

Lemma run_publish_each ex key bodies w :
  w_mq_faults w = [] →
  run (for_each (basic_publish ex key) bodies) w =
  (Val tt, set_mq (published ex key bodies (w_mq w)) [] w).
Proof.
  revert w. induction bodies as [|d bodies IH]; intros w Hf.
  { simpl. destruct w; simpl in *; by subst. }
  cbn [for_each]. rewrite run_bind. unfold basic_publish at 1. rewrite run_mq_call by done.
  by rewrite IH.
Qed.

Lemma run_publish_bodies ex key bodies w :
  w_mq_faults w = [] → host ∈ w_mq_open w →
  run (publish_bodies host cfg ex key bodies) w =
  (Val tt, set_mq (published ex key bodies (w_mq w)) [] w).
Proof.
  intros Hf Ho. unfold publish_bodies, channel.
  by rewrite run_bind, run_connect_open, run_publish_each.
Qed.

Lemma run_publish_ready ex key bodies w :
  w_mq_faults w = [] → host ∈ w_mq_open w →
  run (publish_with_reconnect host cfg ex key bodies) w =
  (Val tt, set_mq (published ex key bodies (w_mq w)) [] w).
Proof.
  intros Hf Ho. unfold publish_with_reconnect.
  by rewrite run_bind, run_attempt, run_publish_bodies.
Qed.

Lemma all_bytes_ok tasks :
  Forall task_text tasks → all_bytes tasks = inr ((λ t, dumps (asdict t)) <$> tasks).
Proof.
  induction 1 as [|t tasks Ht Hts IH]; [done|]. cbn [all_bytes]. by rewrite to_bytes_ok, IH.
Qed.

Lemma run_publish tasks w :
  w_mq_faults w = [] → host ∈ w_mq_open w → Forall task_text tasks →
  run (publish host cfg tasks) w =
  (Val tt, set_mq (published (RABBITMQ_EXCHANGE cfg) (RABBITMQ_QUEUE cfg)
                     ((λ t, dumps (asdict t)) <$> tasks) (w_mq w)) [] w).
Proof.
  intros Hf Ho Ht. unfold publish. rewrite run_bind, run_reraise, all_bytes_ok by done.
  by rewrite run_publish_ready.
Qed.

Lemma bound_work_queue b q :
  topology cfg b →
  mq_bound (RABBITMQ_EXCHANGE cfg) (RABBITMQ_QUEUE cfg) q b = bool_decide (q = RABBITMQ_QUEUE cfg).
Proof. intros (Ht & _). rewrite Ht. apply bool_decide_ext. naive_solver. Qed.

(** [publish] puts every task on the work queue, in order and once, behind
    what was waiting there, and nothing on any other queue. *)
Theorem publish_routes tasks w :
  mq_ready w → Forall task_text tasks →
  ∃ w', run (publish host cfg tasks) w = (Val tt, w') ∧ mq_ready w' ∧
    from_bytes <$> mq_messages (RABBITMQ_QUEUE cfg) (w_mq w') =
      (from_bytes <$> mq_messages (RABBITMQ_QUEUE cfg) (w_mq w)) ++ (Parsed <$> tasks) ∧
    ∀ q, q ≠ RABBITMQ_QUEUE cfg → mq_messages q (w_mq w') = mq_messages q (w_mq w).
Proof.
  intros (Hf & Ho & Ht) Htext. eexists. split; [by apply run_publish|]. split_and!.
  - split_and!; [done|done|by apply topology_published].
  - simpl. rewrite messages_published, bound_work_queue, bool_decide_true by done.
    rewrite fmap_app, <-list_fmap_compose. f_equal.
    apply list_fmap_ext. intros i t Hi. simpl. eapply Forall_lookup_1 in Htext; [|done].
    by apply from_to_bytes.
  - intros q Hq. simpl. rewrite messages_published, bound_work_queue, bool_decide_false by done.
    apply app_nil_r.
Qed.

(** C19: The retry cycle: a failed chunk is published to the retry queue of its
    attempt (the last tier once the tiers run out), and when its delay expires the
    broker puts it back on the work queue as the same task with the next
    attempt. *)
Theorem retry_cycle task w :
  mq_ready w → task_text task → 1 <= t_attempt task → RETRY_DELAYS cfg ≠ [] →
  mq_messages (retry_queue_name cfg (t_attempt task)) (w_mq w) = [] →
  ∃ w', run (publish_retry host cfg task) w = (Val tt, w') ∧
    from_bytes <$> mq_messages (retry_queue_name cfg (t_attempt task)) (w_mq w') =
      [Parsed (next_attempt task)] ∧
    mq_messages (RABBITMQ_QUEUE cfg) (w_mq w') = mq_messages (RABBITMQ_QUEUE cfg) (w_mq w) ∧
    from_bytes <$> mq_messages (RABBITMQ_QUEUE cfg)
        (mq_expire (retry_queue_name cfg (t_attempt task)) (w_mq w')) =
      (from_bytes <$> mq_messages (RABBITMQ_QUEUE cfg) (w_mq w)) ++ [Parsed (next_attempt task)].
Proof.
  intros (Hf & Ho & Ht) Htext Hatt Hne Hempty. pose proof Ht as (Ht1 & Ht2 & Ht3 & Ht4).
  assert (task_text (next_attempt task)) as Htext' by done.
  set (tier := Z.min (t_attempt task) (len (RETRY_DELAYS cfg))).
  set (q := retry_queue_name cfg (t_attempt task)) in *.
  assert (q = retry_tier cfg tier) as Hq by done.
  assert (1 <= tier <= len (RETRY_DELAYS cfg)) as Htier.
  { assert (len (RETRY_DELAYS cfg) ≠ 0) by (by rewrite len_zero_iff).
    pose proof (len_nonneg (RETRY_DELAYS cfg)). lia. }
  assert (mq_bound (RETRY_EXCHANGE cfg) q q (w_mq w) = true) as Hbq.
  { apply Ht2. split; [done|]. by exists tier. }
  assert (mq_bound (RETRY_EXCHANGE cfg) q (RABBITMQ_QUEUE cfg) (w_mq w) = false) as HbQ.
  { apply not_true_iff_false. rewrite Ht2. intros [Heq _]. rewrite Hq in Heq. by apply retry_tier_ne in Heq. }
  eexists. split.
  { unfold publish_retry. rewrite run_bind, run_reraise, to_bytes_ok by done. by apply run_publish_ready. }
  cbn [w_mq set_mq]. fold q. rewrite !messages_published, Hbq, HbQ, Hempty, app_nil_r. split_and!; [|done|].
  { simpl. by rewrite from_to_bytes. }
  destruct (lookup_lt_is_Some_2 (RETRY_DELAYS cfg) (Z.to_nat (tier - 1))) as [delay Hdelay].
  { unfold len in Htier. lia. }
  assert (DQueue q (QueueArgs (Some (RABBITMQ_EXCHANGE cfg)) (Some (RABBITMQ_QUEUE cfg))
    (Some (delay * 1000))) ∈ declarations cfg) as Hdecl.
  { apply elem_of_declared_queue. right. left. exists (Z.to_nat (tier - 1)), delay. split_and!; [done| |done].
    rewrite Hq. f_equal. lia. }
  edestruct (mq_expire_spec q (RABBITMQ_EXCHANGE cfg) (RABBITMQ_QUEUE cfg) (delay * 1000)) as [_ Hexp].
  - rewrite args_published. by apply Ht4.
  - by rewrite messages_published, Hbq, Hempty.
  - rewrite bound_published, bound_work_queue, bool_decide_false; [done| |done]. rewrite Hq. apply retry_tier_ne.
  - rewrite Hexp by (rewrite Hq; apply not_eq_sym, retry_tier_ne).
    rewrite bound_published, bound_work_queue, bool_decide_true by done.
    rewrite messages_published, HbQ, app_nil_r, fmap_app. simpl. by rewrite from_to_bytes.
Qed.

(** C36: With an empty RETRY_DELAYS a retry is lost: it is published under the
    name of a queue that does not exist ([....retry.0]), the call returns
    normally, and the message is on no queue at all. *)
Theorem retry_lost task w :
  mq_ready w → task_text task → 1 <= t_attempt task → RETRY_DELAYS cfg = [] →
  ∃ w', run (publish_retry host cfg task) w = (Val tt, w') ∧
    ∀ q, mq_messages q (w_mq w') = mq_messages q (w_mq w).
Proof.
  intros (Hf & Ho & Ht) Htext Hatt Hnil. eexists. split.
  { unfold publish_retry. rewrite run_bind, run_reraise, to_bytes_ok by done. by apply run_publish_ready. }
  intros q. cbn [w_mq set_mq]. rewrite messages_published. destruct Ht as (_ & Ht2 & _).
  destruct (mq_bound (RETRY_EXCHANGE cfg) _ q (w_mq w)) eqn:Hb; [|apply app_nil_r].
  apply Ht2 in Hb as (_ & i & Hi & _). rewrite Hnil in Hi. unfold len in Hi. simpl in Hi. lia.
Qed.

(** ** Publishing through a connection that breaks *)
Definition broken (flt : fault) : Prop :=
  ∃ name msg, flt = Before (AMQPError name msg) ∨ flt = After (AMQPError name msg).

(** What had reached the broker when call number [k] failed with [flt]. *)
Definition reached (k : nat) (flt : fault) : nat :=
  match flt with After _ => Datatypes.S k | _ => k end.

Lemma run_publish_broken ex key bodies k flt w :
  (k < length bodies)%nat → broken flt → w_mq_faults w = replicate k NoFault ++ [flt] →
  ∃ name msg, run (for_each (basic_publish ex key) bodies) w =
    (Exc (AMQPError name msg),
     set_mq (published ex key (take (reached k flt) bodies) (w_mq w)) [] w).
Proof.
  intros Hk (name & msg & Hflt) Hf. exists name, msg. revert k w Hk Hf.
  induction bodies as [|d bodies IH]; intros k w Hk Hf; [simpl in Hk; lia|].
  cbn [for_each]. rewrite run_bind. unfold basic_publish at 1, mq_call. rewrite run_io, Hf.
  destruct k as [|k]; simpl.
  - by destruct Hflt as [-> | ->].
  - fold (@for_each world bytes). rewrite (IH k); [|simpl in Hk; lia|done].
    by destruct flt.
Qed.

(** C20: Publishing is at-least-once: when the connection breaks at any point of
    a publication (before or after the broker took the message in flight),
    [_publish] reconnects and publishes everything again.  The work queue receives
    the messages that had got through and then all of them in order, so no task
    is lost and duplicates are the ones that had already arrived. *)
Theorem publish_at_least_once tasks k flt w :
  host ∈ w_mq_open w → topology cfg (w_mq w) → Forall task_text tasks →
  (k < length tasks)%nat → broken flt → w_mq_faults w = replicate k NoFault ++ [flt] →
  (run (publish host cfg tasks) w).1 = Val tt ∧ mq_ready (run (publish host cfg tasks) w).2 ∧
  from_bytes <$> mq_messages (RABBITMQ_QUEUE cfg) (w_mq (run (publish host cfg tasks) w).2) =
    (from_bytes <$> mq_messages (RABBITMQ_QUEUE cfg) (w_mq w)) ++
    (Parsed <$> take (reached k flt) tasks) ++ (Parsed <$> tasks) ∧
  ∀ q, q ≠ RABBITMQ_QUEUE cfg →
    mq_messages q (w_mq (run (publish host cfg tasks) w).2) = mq_messages q (w_mq w).
Proof.
  intros Ho Ht Htext Hk Hflt Hf.
  set (bodies := (λ t, dumps (asdict t)) <$> tasks).
  set (ex := RABBITMQ_EXCHANGE cfg). set (Q := RABBITMQ_QUEUE cfg).
  set (b1 := published ex Q (take (reached k flt) bodies) (w_mq w)).
  set (b2 := declared (declarations cfg) b1).
  assert (topology cfg b1) as Ht1 by (by apply topology_published).
  assert (topology cfg b2) as Ht2
    by (apply topology_declared; [by apply topology_no_foreign|by apply topology_compatible]).
  assert (∃ hs, host ∈ hs ∧ run (publish host cfg tasks) w =
    (Val tt, set_mq (published ex Q bodies b2) [] (set_mq_open hs w))) as (hs & Hhs & Hrun).
  { exists ({[host]} ∪ w_mq_open w ∖ {[host]}). split; [set_solver|].
    unfold publish. rewrite run_bind, run_reraise, all_bytes_ok by done.
    unfold publish_with_reconnect. rewrite run_bind, run_attempt. unfold publish_bodies at 1, channel.
    rewrite run_bind, run_connect_open by done.
    destruct (run_publish_broken ex Q bodies k flt w) as (name & msg & Hb);
      [by unfold bodies; rewrite length_fmap|done|done|].
    fold ex Q bodies. rewrite Hb. cbv beta iota. rewrite run_bind. unfold close. rewrite run_act.
    cbn [fst snd]. unfold publish_bodies, channel.
    rewrite run_bind, run_connect_closed; [|simpl; set_solver|done|by apply topology_compatible].
    by rewrite run_publish_each. }
  rewrite Hrun. cbn [fst snd w_mq set_mq]. split_and!; [done| | |].
  - split_and!; [done|done|by apply topology_published].
  - rewrite messages_published, bound_work_queue, bool_decide_true by done.
    unfold b2. rewrite messages_declared. unfold b1.
    rewrite messages_published, bound_work_queue, bool_decide_true by done.
    rewrite !fmap_app, <-(assoc_L (++)). f_equal.
    assert (∀ ts, Forall task_text ts → from_bytes <$> ((λ t, dumps (asdict t)) <$> ts) = Parsed <$> ts)
      as Hparse.
    { intros ts Hts. rewrite <-list_fmap_compose. apply list_fmap_ext. intros i t Hi.
      eapply Forall_lookup_1 in Hts; [|done]. by apply from_to_bytes. }
    unfold bodies. rewrite <-fmap_take, !Hparse by (done || by apply Forall_take). done.
  - intros q Hq. rewrite messages_published, bound_work_queue, bool_decide_false, app_nil_r by done.
    unfold b2. rewrite messages_declared. unfold b1.
    by rewrite messages_published, bound_work_queue, bool_decide_false, app_nil_r by done.
Qed.

(** ** Consuming *)
Lemma run_deliver body rest w :
  w_mq_faults w = [] → mq_messages (RABBITMQ_QUEUE cfg) (w_mq w) = body :: rest →
  ∃ tag b', run (mq_call (λ b, inr (mq_deliver (RABBITMQ_QUEUE cfg) b))) w =
      (Val (Some (tag, body)), set_mq b' [] w) ∧
    mq_unacked tag b' = Some (RABBITMQ_QUEUE cfg, body) ∧
    mq_messages (RABBITMQ_QUEUE cfg) b' = rest ∧
    (∀ q', q' ≠ RABBITMQ_QUEUE cfg → mq_messages q' b' = mq_messages q' (w_mq w)) ∧
    (∀ ex key q', mq_bound ex key q' b' = mq_bound ex key q' (w_mq w)).
Proof.
  intros Hf Hm. pose proof (mq_deliver_spec (RABBITMQ_QUEUE cfg) (w_mq w)) as Hd. rewrite Hm in Hd.
  destruct Hd as (tag & b' & Hd & _ & Hun & Hq & Hq' & _ & Hb & _). exists tag, b'.
  rewrite run_mq_call by done. rewrite Hd. done.
Qed.

Lemma run_should_stop w : host ∉ w_stop w → run (should_stop host) w = (Val false, w).
Proof. intros Hs. unfold should_stop. rewrite run_act. simpl. by rewrite bool_decide_false. Qed.

Lemma run_ack tag w :
  w_mq_faults w = [] → run (basic_ack tag) w = (Val tt, set_mq (mq_ack tag (w_mq w)) [] w).
Proof. intros Hf. unfold basic_ack. by rewrite run_mq_call. Qed.

(** C21: A delivery is acknowledged after its handler ended, and then in every
    case: while the handler runs the message is unacknowledged (so the broker
    would redeliver it if the worker died), and when the handler returned or
    raised, the message is acknowledged and not on the queue.  An exception of the
    handler leaves the loop only after that. *)
Theorem consume_acks handler ill_typed body rest t w :
  w_mq_faults w = [] → host ∉ w_stop w →
  mq_messages (RABBITMQ_QUEUE cfg) (w_mq w) = body :: rest → from_bytes body = Parsed t →
  ∃ tag w1, mq_unacked tag (w_mq w1) = Some (RABBITMQ_QUEUE cfg, body) ∧ w_mq_faults w1 = [] ∧
    mq_messages (RABBITMQ_QUEUE cfg) (w_mq w1) = rest ∧
    ∀ r w2, run (handler t) w1 = (r, w2) → r ≠ Hang → w_mq_faults w2 = [] →
      ∃ w3, run (consume_step host cfg handler ill_typed) w =
              (match r with Val _ => Val true | Exc e => Exc e | Hang => Hang end, w3) ∧
        mq_unacked tag (w_mq w3) = None ∧ ∀ q, mq_messages q (w_mq w3) = mq_messages q (w_mq w2).
Proof.
  intros Hf Hs Hm Ht. destruct (run_deliver body rest w Hf Hm) as (tag & b' & Hrun & Hun & Hq & _).
  exists tag, (set_mq b' [] w). split_and!; [done..|]. intros r w2 Hr Hne Hf2.
  exists (set_mq (mq_ack tag (w_mq w2)) [] w2). split_and!.
  - unfold consume_step. rewrite run_bind, Hrun. cbv beta iota.
    rewrite run_bind, run_should_stop by done. cbv beta iota. rewrite Ht. unfold finally.
    rewrite run_bind, run_bind, run_attempt, Hr.
    destruct r as [[]|e|]; [| |done]; cbv beta iota; rewrite run_bind, run_ack by done; done.
  - simpl. by rewrite mq_unacked_ack, decide_True.
  - intros q. simpl. apply mq_messages_ack.
Qed.

(** C22: A message that is not a task is not redelivered for ever and not lost.  Let
    the broker deliver [body] under [tag], unacknowledged, and let [body] not be a task:
    then, whatever the handler, the loop goes on with that delivery acknowledged, a
    copy of [body] at the end of the failed queue, the rest of the work queue in
    place, and database and bucket untouched. *)
Theorem consume_malformed handler ill_typed tag body b e w :
  mq_ready w → host ∉ w_stop w →
  mq_deliver (RABBITMQ_QUEUE cfg) (w_mq w) = (Some (tag, body), b) → from_bytes body = Malformed e →
  mq_unacked tag b = Some (RABBITMQ_QUEUE cfg, body) ∧
  ∃ w', run (consume_step host cfg handler ill_typed) w = (Val true, w') ∧
    mq_unacked tag (w_mq w') = None ∧
    body :: mq_messages (RABBITMQ_QUEUE cfg) (w_mq w') = mq_messages (RABBITMQ_QUEUE cfg) (w_mq w) ∧
    mq_messages (FAILED_QUEUE cfg) (w_mq w') = mq_messages (FAILED_QUEUE cfg) (w_mq w) ++ [body] ∧
    w_db w' = w_db w ∧ w_s3 w' = w_s3 w.
Proof.
  intros (Hf & Ho & Htop) Hs Hd Ht. destruct Htop as (_ & _ & Ht3 & _).
  pose proof (mq_deliver_spec (RABBITMQ_QUEUE cfg) (w_mq w)) as Hspec.
  destruct (mq_messages (RABBITMQ_QUEUE cfg) (w_mq w)) as [|d rest] eqn:Hm; [congruence|].
  destruct Hspec as (tag' & b' & Hd' & _ & Hun & Hq & Hq' & _ & Hb & _).
  rewrite Hd in Hd'. injection Hd' as <- <- <-. split; [done|].
  eexists. split.
  { unfold consume_step. rewrite run_bind, run_mq_call by done. rewrite Hd. cbv beta iota.
    rewrite run_bind, run_should_stop by done. cbv beta iota. rewrite Ht.
    rewrite run_bind. unfold basic_publish. rewrite run_mq_call by done. cbv beta iota.
    rewrite run_bind, run_ack by done. reflexivity. }
  cbn [w_mq w_db w_s3 set_mq]. rewrite mq_unacked_ack, decide_True by done.
  rewrite !mq_messages_ack, !mq_messages_publish, !Hb, !Ht3, Hq, Hq' by apply failed_queue_ne.
  rewrite (bool_decide_false (_ ∧ RABBITMQ_QUEUE cfg = _)) by (intros [_ Heq]; by apply (failed_queue_ne cfg)).
  rewrite (bool_decide_true (_ ∧ FAILED_QUEUE cfg = _)) by done. by rewrite app_nil_r.
Qed.
End proofs.

(** ** Witnesses *)
Definition topology_broker (cfg : config) : map_broker := declared (declarations cfg) empty_broker.

Lemma empty_broker_fresh cfg :
  no_foreign_bindings cfg empty_broker ∧ compatible (declarations cfg) empty_broker.
Proof.
  split.
  - intros ex key q _. simpl. rewrite bool_decide_eq_true. set_solver.
  - intros q a _ a'. simpl. by rewrite lookup_empty.
Qed.

Lemma topology_broker_ok cfg : topology cfg (topology_broker cfg).
Proof. apply topology_declared; apply empty_broker_fresh. Qed.

Definition mq_world (cfg : config) (bodies : list bytes) (fs : list fault)
    : world map_store map_broker :=
  World 0 empty_db (MapStore true ∅)
    (published (RABBITMQ_EXCHANGE cfg) (RABBITMQ_QUEUE cfg) bodies (topology_broker cfg))
    ∅ ∅ ∅ {[u "w"]} ∅ [] [] fs.

Lemma mq_world_topology cfg bodies fs : topology cfg (w_mq (mq_world cfg bodies fs)).
Proof. apply topology_published, topology_broker_ok. Qed.

Lemma mq_world_ready cfg bodies : mq_ready (u "w") cfg (mq_world cfg bodies []).
Proof.
  split_and!; [done|by apply elem_of_singleton|apply mq_world_topology].
Qed.

Lemma mq_world_messages cfg bodies fs :
  mq_messages (RABBITMQ_QUEUE cfg) (w_mq (mq_world cfg bodies fs)) = bodies.
Proof.
  cbn [w_mq mq_world]. rewrite messages_published, bound_work_queue, bool_decide_true
    by (done || apply topology_broker_ok). unfold topology_broker. by rewrite messages_declared.
Qed.

Definition no_delays : config :=
  Config None 7 (u "m") false 20 40 5000 104857600 (u "x") (u "q") [] 3 (u "/c") 1.

Lemma connect_declares_witness :
  (run (connect (u "w2") default_config)
    (set_mq_open ∅ (set_mq empty_broker [] (mq_world default_config [] [])))).1 = Val tt.
Proof.
  apply (connect_declares (u "w2") default_config
    (set_mq_open ∅ (set_mq empty_broker [] (mq_world default_config [] [])))).
  - apply not_elem_of_empty.
  - reflexivity.
  - apply empty_broker_fresh.
  - apply empty_broker_fresh.
Defined.

Lemma publish_routes_witness :
  ∃ w', run (publish (u "w") default_config [sample_task]) (mq_world default_config [] []) = (Val tt, w') ∧
    from_bytes <$> mq_messages (u "markitdown.chunks") (w_mq w') = [Parsed sample_task].
Proof.
  destruct (publish_routes (u "w") default_config [sample_task] (mq_world default_config [] []))
    as (w' & Hrun & _ & Hq & _).
  - apply mq_world_ready.
  - constructor; [apply sample_task_text|constructor].
  - exists w'. split; [exact Hrun|]. rewrite mq_world_messages in Hq. exact Hq.
Defined.

Lemma retry_cycle_witness :
  ∃ w', run (publish_retry (u "w") default_config sample_task) (mq_world default_config [] [])
          = (Val tt, w') ∧
    from_bytes <$> mq_messages (u "markitdown.chunks")
        (mq_expire (u "markitdown.chunks.retry.1") (w_mq w')) = [Parsed (next_attempt sample_task)].
Proof.
  destruct (retry_cycle (u "w") default_config sample_task (mq_world default_config [] []))
    as (w' & Hrun & _ & _ & Hq).
  - apply mq_world_ready.
  - apply sample_task_text.
  - cbn; lia.
  - discriminate.
  - vm_compute. reflexivity.
  - exists w'. split; [exact Hrun|]. rewrite mq_world_messages in Hq. exact Hq.
Defined.

Lemma retry_lost_witness :
  ∃ w', run (publish_retry (u "w") no_delays sample_task) (mq_world no_delays [] []) = (Val tt, w') ∧
    ∀ q, mq_messages q (w_mq w') = mq_messages q (w_mq (mq_world no_delays [] [])).
Proof.
  apply retry_lost.
  - apply mq_world_ready.
  - apply sample_task_text.
  - cbn; lia.
  - reflexivity.
Defined.

Definition lost_reply : fault := After (AMQPError (u "StreamLostError") (u "reset")).

Lemma publish_at_least_once_witness :
  from_bytes <$> mq_messages (u "markitdown.chunks")
    (w_mq (run (publish (u "w") default_config [sample_task])
             (mq_world default_config [] [lost_reply])).2) =
  [Parsed sample_task; Parsed sample_task].
Proof.
  destruct (publish_at_least_once (u "w") default_config [sample_task] 0 lost_reply
    (mq_world default_config [] [lost_reply])) as (_ & _ & Hq & _).
  - apply elem_of_singleton. reflexivity.
  - apply mq_world_topology.
  - constructor; [apply sample_task_text|constructor].
  - cbn. lia.
  - exists (u "StreamLostError"), (u "reset"). right. reflexivity.
  - reflexivity.
  - rewrite mq_world_messages in Hq. exact Hq.
Defined.

Lemma consume_acks_witness :
  ∃ w3, run (consume_step (u "w") default_config
               (λ t, if bool_decide (t = sample_task) then Raise (ValueError (u "escaped")) else Ret tt)
               (λ _, Ret tt)) (mq_world default_config [dumps (asdict sample_task)] []) =
          (Exc (ValueError (u "escaped")), w3) ∧
    mq_messages (u "markitdown.chunks") (w_mq w3) = [].
Proof.
  destruct (consume_acks (u "w") default_config
    (λ t, if bool_decide (t = sample_task) then Raise (ValueError (u "escaped")) else Ret tt) (λ _, Ret tt)
    (dumps (asdict sample_task)) [] sample_task (mq_world default_config [dumps (asdict sample_task)] []))
    as (tag & w1 & _ & Hf & Hq & Hend).
  - reflexivity.
  - apply not_elem_of_empty.
  - apply mq_world_messages.
  - apply from_to_bytes, sample_task_text.
  - destruct (Hend (Exc (ValueError (u "escaped"))) w1) as (w3 & Hrun & _ & Hm).
    + rewrite bool_decide_true by reflexivity. reflexivity.
    + discriminate.
    + exact Hf.
    + exists w3. split; [exact Hrun|]. rewrite <-Hq. apply Hm.
Defined.

Lemma consume_malformed_witness :
  ∃ tag w', run (consume_step (u "w") default_config (λ _, Ret tt) (λ _, Ret tt))
      (mq_world default_config [u "junk"] []) = (Val true, w') ∧
    mq_unacked tag (w_mq w') = None ∧
    mq_messages (u "markitdown.chunks.failed") (w_mq w') = [u "junk"].
Proof.
  pose proof (mq_deliver_spec (RABBITMQ_QUEUE default_config)
    (w_mq (mq_world default_config [u "junk"] []))) as Hspec.
  rewrite mq_world_messages in Hspec. destruct Hspec as (tag & b & Hd & _).
  destruct (consume_malformed (u "w") default_config (λ _, Ret tt) (λ _, Ret tt) tag (u "junk") b
    json_decode_error (mq_world default_config [u "junk"] [])) as (_ & w' & Hrun & Hun & _ & Hfail & _).
  - apply mq_world_ready.
  - apply not_elem_of_empty.
  - exact Hd.
  - vm_compute. reflexivity.
  - exists tag, w'. split; [exact Hrun|]. split; [exact Hun|].
    etransitivity; [exact Hfail|]. vm_compute. reflexivity.
Defined.
