(* ===== verification/Converter.v ===== *)
(** * Downloading and converting (converter.py)

    [download] streams a URL into a temporary file under a size cap;
    [convert_file] is the one conversion primitive.  The theorem: a download
    either leaves exactly one new file with the whole body, within the cap, or
    leaves no file behind. *)
From S2P Require Import Prelude PyStr Effects Database Config World Files.

(** ** [urlparse(url).path] *)

(** [s[:i]] and [s[i:]] at the first character that satisfies [p]. *)
Fixpoint break_at (p : Z → bool) (s : pystr) : pystr * pystr :=
  match s with
  | [] => ([], [])
  | c :: r => if p c then ([], s) else let '(a, b) := break_at p r in (c :: a, b)
  end.

Definition is_alpha (c : Z) : bool := ((65 <=? c) && (c <=? 90)) || ((97 <=? c) && (c <=? 122)).
Definition scheme_char (c : Z) : bool :=
  is_alpha c || is_digit c || (c =? 43) || (c =? 45) || (c =? 46).

Fixpoint drop_leading (p : Z → bool) (s : pystr) : pystr :=
  match s with
  | c :: r => if p c then drop_leading p r else s
  | [] => []
  end.

(** The scheme, if there is one, and the rest. *)
Definition split_scheme (url : pystr) : pystr * pystr :=
  match break_at (λ c, c =? 58) url with
  | (c :: a, _ :: rest) =>
      if is_alpha c && forallb scheme_char (c :: a) then (lower (c :: a), rest) else ([], url)
  | _ => ([], url)
  end.

Definition uses_params : list pystr :=
  [[]; u "ftp"; u "hdl"; u "prospero"; u "http"; u "https"; u "shttp"; u "rtsp"; u "rtsps";
   u "rtspu"; u "sip"; u "sips"; u "mms"; u "sftp"; u "tel"].

(** Everything after the last slash, and everything up to it. *)
Definition basename (p : pystr) : pystr := default [] (last (split (u "/") p)).

(** For a URL that [requests] accepted (a malformed authority raises there). *)
Definition url_path (url : pystr) : pystr :=
  let url := filter (λ c, ¬ (c = 9 ∨ c = 10 ∨ c = 13)) (drop_leading (λ c, (0 <=? c) && (c <=? 32)) url) in
  let '(scheme, url) := split_scheme url in
  let url := if startswith (u "//") url
             then (break_at (λ c, (c =? 47) || (c =? 63) || (c =? 35)) (slice_from url 2)).2
             else url in
  let url := (break_at (λ c, c =? 35) url).1 in
  let url := (break_at (λ c, c =? 63) url).1 in
  if bool_decide (scheme ∈ uses_params) then
    let name := basename url in
    slice_to url (len url - len name) ++ (break_at (λ c, c =? 59) name).1
  else url.

Example url_path_plain :
  url_path (u "https://example.com/docs/a%20b.pdf;v=1?x=/y#z") = u "/docs/a%20b.pdf".
Proof. vm_compute. reflexivity. Qed.

Example url_path_empty : basename (url_path (u "http://example.com")) = [].
Proof. vm_compute. reflexivity. Qed.

Section converter.
Context {S B : Type} `{Externals} (host : pystr) (cfg : config).
#[local] Abbreviation world := (world S B).

(** [os.environ.get("OPENAI_API_KEY")] *)
Context (openai_api_key : option pystr).

Definition get_llm_client : exn + unit :=
  match openai_api_key with
  | Some (_ :: _) => inr tt
  | _ => inl (RuntimeError
      (u "OPENAI_API_KEY is not set, but LLM-assisted conversion was requested"))
  end.

Definition download_failed (url : pystr) (status : Z) : exn :=
  OtherError (u "Exception")
    (u "Failed to download file from " ++ url ++ u ", status code: " ++ str_of_Z status).

Definition too_large (url : pystr) : exn :=
  OtherError (u "Exception")
    (u "File from " ++ url ++ u " exceeds the maximum size of " ++
     str_of_Z (MAX_DOWNLOAD_BYTES cfg) ++ u " bytes").

(** The loop over [response.iter_content]. *)
Fixpoint write_blocks (url path : pystr) (written : Z) (blocks : list (exn + bytes))
    : prog world unit :=
  match blocks with
  | [] => mret tt
  | inl e :: _ => Raise e
  | inr [] :: rest => write_blocks url path written rest
  | inr chunk :: rest =>
      let written := written + len chunk in
      if MAX_DOWNLOAD_BYTES cfg <? written then Raise (too_large url)
      else
        _ ← append_file host path chunk;
        write_blocks url path written rest
  end.

Definition temp_dir : pystr := u "/tmp".

Definition download (url : pystr) : prog world pystr :=
  response ← lift (http_get url);
  if negb (response.1 =? 200) then Raise (download_failed url response.1)
  else
    let filename := match basename (url_path url) with [] => u "downloaded_file" | f => f end in
    temp_path ← mkstemp host temp_dir (u "_" ++ filename);
    r ← attempt (_ ← write_file host temp_path []; write_blocks url temp_path 0 response.2);
    match r with
    | inr _ => mret temp_path
    | inl e => _ ← remove_if_exists host temp_path; Raise e
    end.

Definition convert_file (path : pystr) (use_llm : bool) : prog world pystr :=
  _ ← lift (if use_llm then get_llm_client else inr tt);
  data ← read_file host path;
  lift (md_convert (if use_llm then Some (OPENAI_MODEL cfg) else None) path data).
End converter.

(** ** Downloads *)
Section proofs.
Context {S B : Type} `{TempLaws} (host : pystr) (cfg : config).
#[local] Abbreviation world := (world S B).
Implicit Types (w : world).

(** One write loop: the file at [path] grows by the blocks written. *)
Lemma run_write_blocks url path written blocks w d t :
  w_files w !! (host, path) = Some (File d t) →
  ∃ r d' t', run (write_blocks host cfg url path written blocks) w =
      (r, set_files (<[(host, path) := File d' t']> (w_files w)) w) ∧
    match r with
    | Val _ => ∃ bs, blocks = inr <$> bs ∧ d' = d ++ concat bs ∧
                 (written <= MAX_DOWNLOAD_BYTES cfg → written + len (concat bs) <= MAX_DOWNLOAD_BYTES cfg)
    | Exc _ => True
    | Hang => False
    end.
Proof.
  revert written w d t. induction blocks as [|[e|chunk] rest IH]; intros written w d t Hd.
  - exists (Val tt), d, t. rewrite insert_id by done. split; [by destruct w|].
    exists []. rewrite app_nil_r. unfold len. simpl. split_and!; [done|done|lia].
  - exists (Exc e), d, t. rewrite insert_id by done. split; [by destruct w|done].
  - destruct chunk as [|c chunk].
    { destruct (IH written w d t Hd) as (r & d' & t' & Hrun & Hr). exists r, d', t'. split; [done|].
      destruct r as [[]|e|]; [|done..]. destruct Hr as (bs & -> & -> & Hle). by exists ([] :: bs). }
    cbn [write_blocks]. destruct (Z.ltb_spec (MAX_DOWNLOAD_BYTES cfg) (written + len (c :: chunk))) as [Hlt|Hge].
    { exists (Exc (too_large cfg url)), d, t. rewrite insert_id by done. split; [by destruct w|done]. }
    rewrite run_bind. unfold append_file. rewrite run_act, Hd. cbn [fst snd f_data].
    destruct (IH (written + len (c :: chunk))
      (set_files (<[(host, path) := File (d ++ c :: chunk) (w_clock w)]> (w_files w)) w)
      (d ++ c :: chunk) (w_clock w)) as (r & d' & t' & Hrun & Hr); [apply lookup_insert_eq|].
    exists r, d', t'. rewrite Hrun. simpl. rewrite insert_insert_eq. split; [done|].
    destruct r as [[]|e|]; [|done..]. destruct Hr as (bs & -> & -> & Hle). exists ((c :: chunk) :: bs).
    split_and!; [done|by rewrite concat_cons, (assoc_L (++))|].
    rewrite concat_cons, len_app. lia.
Qed.

(** C34: A download is all or nothing: it returns the path of one new temporary
    file that holds the whole body, no larger than MAX_DOWNLOAD_BYTES, or it
    raises (the server's status, a broken stream, the size cap) and leaves the
    files of the host exactly as they were. *)
Theorem download_all_or_nothing (url : pystr) w :
  0 <= MAX_DOWNLOAD_BYTES cfg →
  match run (download host cfg url) w with
  | (Val path, w') =>
      ∃ bs t, http_get url = inr (200, inr <$> bs) ∧
        w_files w !! (host, path) = None ∧
        w' = set_files (<[(host, path) := File (concat bs) t]> (w_files w)) w ∧
        len (concat bs) <= MAX_DOWNLOAD_BYTES cfg
  | (Exc _, w') => w' = w
  | (Hang, _) => False
  end.
Proof.
  intros Hmax. unfold download. rewrite run_bind, run_reraise.
  destruct (http_get url) as [e|[status blocks]] eqn:Hget; [done|]. cbn [fst snd].
  destruct (Z.eqb_spec status 200) as [->|]; [|done]. cbn [negb].
  set (suffix := _ ++ _). rewrite run_bind. unfold mkstemp. rewrite run_act. cbn [fst snd].
  set (path := temp_name (used_paths host w) temp_dir suffix).
  pose proof (temp_name_unused host w temp_dir suffix) as Hfresh. fold path in Hfresh.
  rewrite run_bind, run_attempt, run_bind. unfold write_file. rewrite run_act. cbn [fst snd].
  match goal with |- context [run (write_blocks _ _ _ _ _ _) ?w1] =>
    destruct (run_write_blocks url path 0 blocks w1 [] (w_clock w)) as (r & d' & t' & Hrun & Hr)
  end; [cbn [w_files set_files]; apply lookup_insert_eq|].
  rewrite Hrun. clear Hrun. cbn [w_files set_files]. rewrite !insert_insert_eq.
  destruct r as [[]|e|]; [| |done].
  - cbv beta iota. destruct Hr as (bs & -> & -> & Hle). simpl in *. exists bs, t'.
    split_and!; [done|done|by destruct w|]. specialize (Hle Hmax). lia.
  - cbv beta iota. unfold remove_if_exists, path_exists, remove_file. run_simpl. simpl.
    rewrite bool_decide_true by (rewrite lookup_insert_eq; by eexists). simpl.
    rewrite lookup_insert_eq. simpl. rewrite delete_insert_id by done. by destruct w.
Qed.

(** A body within the cap is downloaded. *)
Lemma run_write_blocks_ok url path written bs w d t :
  w_files w !! (host, path) = Some (File d t) → written + len (concat bs) <= MAX_DOWNLOAD_BYTES cfg →
  ∃ t', run (write_blocks host cfg url path written (inr <$> bs)) w =
    (Val tt, set_files (<[(host, path) := File (d ++ concat bs) t']> (w_files w)) w).
Proof.
  revert written w d t. induction bs as [|chunk bs IH]; intros written w d t Hd Hle.
  { exists t. rewrite app_nil_r, insert_id by done. by destruct w. }
  rewrite concat_cons in Hle |- *. rewrite len_app in Hle.
  destruct chunk as [|c chunk]; [by apply (IH written w d t)|].
  cbn [fmap list_fmap write_blocks]. pose proof (len_nonneg (concat bs)).
  rewrite (proj2 (Z.ltb_ge _ _)) by lia.
  rewrite run_bind. unfold append_file. rewrite run_act, Hd. cbn [fst snd f_data].
  destruct (IH (written + len (c :: chunk))
    (set_files (<[(host, path) := File (d ++ c :: chunk) (w_clock w)]> (w_files w)) w)
    (d ++ c :: chunk) (w_clock w)) as [t' Hrun]; [apply lookup_insert_eq|lia|].
  exists t'. rewrite Hrun. simpl. by rewrite insert_insert_eq, <-(assoc_L (++)).
Qed.

Lemma run_download url bs w :
  http_get url = inr (200, inr <$> bs) → len (concat bs) <= MAX_DOWNLOAD_BYTES cfg →
  ∃ path t, w_files w !! (host, path) = None ∧
    run (download host cfg url) w =
    (Val path, set_files (<[(host, path) := File (concat bs) t]> (w_files w)) w).
Proof.
  intros Hget Hle. unfold download. rewrite run_bind, run_reraise, Hget. cbn [fst snd].
  rewrite Z.eqb_refl. cbn [negb].
  set (suffix := _ ++ _). rewrite run_bind. unfold mkstemp. rewrite run_act. cbn [fst snd].
  set (path := temp_name (used_paths host w) temp_dir suffix).
  pose proof (temp_name_unused host w temp_dir suffix) as Hfresh. fold path in Hfresh.
  rewrite run_bind, run_attempt, run_bind. unfold write_file. rewrite run_act. cbn [fst snd].
  match goal with |- context [run (write_blocks _ _ _ _ _ _) ?w1] =>
    destruct (run_write_blocks_ok url path 0 bs w1 [] (w_clock w)) as (t' & Hrun)
  end; [cbn [w_files set_files]; apply lookup_insert_eq|lia|].
  exists path, t'. split; [done|]. rewrite Hrun. cbn [w_files set_files]. rewrite !insert_insert_eq.
  by destruct w.
Qed.
End proofs.

Definition web_world : world map_store map_broker :=
  World 0 empty_db (MapStore true ∅) empty_broker ∅ ∅ ∅ ∅ ∅ [] [] [].

Definition capped_config : config :=
  Config None 7 (u "m") false 20 40 5000 3 (u "x") (u "q") [] 3 (u "/c") 1.

Lemma download_all_or_nothing_witness :
  (run (download (u "h") capped_config (u "http://h/a.pdf")) web_world).2 = web_world ∧
  0 <= MAX_DOWNLOAD_BYTES capped_config.
Proof.
  pose proof (download_all_or_nothing (u "h") capped_config (u "http://h/a.pdf") web_world) as H.
  split; [|cbn; lia].
  assert ((run (download (u "h") capped_config (u "http://h/a.pdf")) web_world).1
    = Exc (too_large capped_config (u "http://h/a.pdf"))) as Hr by (vm_compute; reflexivity).
  destruct (run _ _) as [r w']. cbn [fst snd] in *. rewrite Hr in H. apply H. cbn. lia.
Defined.
