(* ===== verification/Spec.v ===== *)
(** * What the service is to compute

    The reference converter: one process, no queue, no cache, no storage.  It plans
    the page ranges of a document, converts them one after the other, joins the
    texts and cuts the result into pages.  The distributed system is measured
    against it.  The rest of the file is what identifies a document: its key. *)
From S2P Require Import Prelude PyStr Effects Utf8 Json Database Config World Db Jobstore Files.
From S2P Require Import Chunker Storage Taskqueue Converter Pagination Worker.

Section spec.
Context `{Externals} (cfg : config).

(** The page count of a file, and the ranges planned for it. *)
Definition pages_of (d : bytes) : option Z :=
  match pdf_pages d with inr ps => Some (len ps) | inl _ => None end.

Definition planned (d : bytes) : exn + list (Z * Z) :=
  plan_chunks (pages_of d) (PAGES_PER_CHUNK cfg) (MIN_PAGES_FOR_PARALLEL cfg).

Definition llm_model (use_llm : bool) : option pystr :=
  if use_llm then Some (OPENAI_MODEL cfg) else None.

(** The text of one range: the whole file under its name in the source cache, or
    the extracted pages as a PDF. *)
Definition chunk_text (use_llm : bool) (d : bytes) (r : Z * Z) : exn + pystr :=
  if r.2 =? -1 then md_convert (llm_model use_llm) (cache_path cfg (sha256_hex d)) d
  else out ← extract_range d r.1 r.2; md_convert (llm_model use_llm) (u "chunk.pdf") out.

Fixpoint chunk_texts (use_llm : bool) (d : bytes) (ranges : list (Z * Z)) : exn + list pystr :=
  match ranges with
  | [] => inr []
  | r :: rest => t ← chunk_text use_llm d r; ts ← chunk_texts use_llm d rest; mret (t :: ts)
  end.

Definition reference_markdown (use_llm : bool) (d : bytes) : exn + pystr :=
  ranges ← planned d; texts ← chunk_texts use_llm d ranges; mret (join_parts texts).

Definition reference_pages (use_llm : bool) (d : bytes) : exn + list pystr :=
  md ← reference_markdown use_llm d;
  match paginate (length md) md (PAGE_SIZE cfg) with
  | Some pages => inr pages
  | None => inl (RuntimeError (u "does not terminate"))
  end.

(** ** Documents and their keys *)

(** The server behind [url] delivers the document [d]. *)
Definition serves (url : pystr) (d : bytes) : Prop :=
  ∃ bs, http_get url = inr (200, inr <$> bs) ∧ d = concat bs.

Definition served (d : bytes) : Prop := ∃ url, serves url d.

Definition has_key (D : pystr) (d : bytes) (use_llm : bool) : Prop :=
  served d ∧ make_doc_key cfg (sha256_hex d) use_llm = inr D.

(** SHA-256 has no collision that matters: a document key belongs to one of the
    documents on the web, in one mode.  markitdown looks at the extension of a
    file, not at its name, and gives the same text for the same input. *)
Class ContentAddressed : Prop := {
  key_identifies : ∀ D d d' l l', has_key D d l → has_key D d' l' → d = d' ∧ l = l';
  md_by_extension : ∀ m p p' d, endswith (u ".pdf") p = true → endswith (u ".pdf") p' = true →
    md_convert m p d = md_convert m p' d;
}.

Lemma chunk_texts_lookup l d ranges texts i r :
  chunk_texts l d ranges = inr texts → ranges !! i = Some r →
  ∃ t, texts !! i = Some t ∧ chunk_text l d r = inr t.
Proof.
  revert texts i. induction ranges as [|r0 ranges IH]; intros texts i; simpl; [done|].
  destruct (chunk_text l d r0) as [|t] eqn:Ht; [done|]. simpl.
  destruct (chunk_texts l d ranges) as [|ts]; [done|]. simpl. intros [= <-].
  destruct i as [|i]; simpl; [intros [= <-]; by eauto|]. by apply IH.
Qed.

Lemma chunk_texts_intro l d ranges texts :
  Forall2 (λ r t, chunk_text l d r = inr t) ranges texts → chunk_texts l d ranges = inr texts.
Proof. induction 1 as [|r t ranges texts Ht _ IH]; simpl; [done|]. by rewrite Ht, IH. Qed.

Lemma reference_intro l d ranges texts pages :
  planned d = inr ranges → chunk_texts l d ranges = inr texts →
  paginate (length (join_parts texts)) (join_parts texts) (PAGE_SIZE cfg) = Some pages →
  reference_markdown l d = inr (join_parts texts) ∧ reference_pages l d = inr pages.
Proof.
  intros Hp Ht Hpages. assert (reference_markdown l d = inr (join_parts texts)) as Hmd.
  { unfold reference_markdown. rewrite Hp. simpl. by rewrite Ht. }
  split; [done|]. unfold reference_pages. rewrite Hmd. simpl. by rewrite Hpages.
Qed.

(** ** The characters of hashes and keys *)
Context `{!ShaLaws}.

Lemma hex_scalar c : is_hex c = true → is_scalar c = true.
Proof.
  unfold is_hex. rewrite orb_true_iff, !andb_true_iff, !Z.leb_le, is_scalar_spec. lia.
Qed.

Lemma sha_scalar d : encodable (sha256_hex d).
Proof. eapply Forall_impl; [apply sha256_hex_chars|]. apply hex_scalar. Qed.

Lemma make_doc_key_shape h l D :
  make_doc_key cfg h l = inr D → ∃ fp, D = h ++ u ":" ++ fp ∧ Forall (λ c, is_hex c = true) fp.
Proof.
  unfold make_doc_key, config_fingerprint. destruct (encode _) as [|b]; [done|]. simpl.
  intros [= <-]. eexists. split; [done|]. apply Forall_take, sha256_hex_chars.
Qed.

Lemma key_scalar D d l : has_key D d l → encodable D.
Proof.
  intros [_ (fp & -> & Hfp)%make_doc_key_shape]. apply Forall_app_2; [apply sha_scalar|].
  apply Forall_app_2; [by repeat constructor|]. eapply Forall_impl; [exact Hfp|]. apply hex_scalar.
Qed.
End spec.
