(* ===== verification/Cache.v ===== *)
(** * The source cache of a worker (worker.py: fetch_source, prune_source_cache)

    Eviction is least-recently-used and stops at the budget; a file under a
    hash's name always has that hash, whatever fails and wherever the process
    dies. *)
From S2P Require Import Prelude PyStr Effects Utf8 Json Database Config World Db Jobstore Files.
From S2P Require Import Chunker Storage Taskqueue Converter Pagination Worker.

(** ** The order of entries *)
Lemma str_leb_total s t : str_leb s t = true ∨ str_leb t s = true.
Proof.
  revert t. induction s as [|c s IH]; intros [|d t]; simpl; auto.
  destruct (Z.ltb_spec c d), (Z.ltb_spec d c); simpl; auto.
  assert (c = d) as -> by lia. rewrite Z.eqb_refl. simpl. auto.
Qed.

Lemma str_leb_trans s t v : str_leb s t = true → str_leb t v = true → str_leb s v = true.
Proof.
  revert t v. induction s as [|c s IH]; intros [|d t] [|e v]; simpl; try done.
  rewrite !orb_true_iff, !andb_true_iff, !Z.ltb_lt, !Z.eqb_eq. intuition (eauto with lia).
Qed.

Lemma entry_leb_spec t1 s1 p1 t2 s2 p2 :
  entry_le (t1, s1, p1) (t2, s2, p2) ↔
  t1 < t2 ∨ (t1 = t2 ∧ (s1 < s2 ∨ (s1 = s2 ∧ str_leb p1 p2 = true))).
Proof.
  unfold entry_le, entry_leb. by rewrite !orb_true_iff, !andb_true_iff, !orb_true_iff, !andb_true_iff,
    !Z.ltb_lt, !Z.eqb_eq.
Qed.

#[export] Instance entry_le_total : Total entry_le.
Proof.
  intros [[t1 s1] p1] [[t2 s2] p2]. rewrite !entry_leb_spec.
  destruct (Z.lt_trichotomy t1 t2) as [|[->|]], (Z.lt_trichotomy s1 s2) as [|[->|]]; try tauto.
  destruct (str_leb_total p1 p2); tauto.
Qed.

#[export] Instance entry_le_trans : Transitive entry_le.
Proof.
  intros [[t1 s1] p1] [[t2 s2] p2] [[t3 s3] p3]. rewrite !entry_leb_spec.
  pose proof (str_leb_trans p1 p2 p3). intuition lia.
Qed.

(** ** Eviction *)

(** How many entries [evict] removes. *)
Fixpoint evict_count (total max_bytes : Z) (es : list entry) : nat :=
  match es with
  | [] => 0
  | e :: rest => if total <=? max_bytes then 0
                 else Datatypes.S (evict_count (total - entry_size e) max_bytes rest)
  end.

Lemma sum_sizes_cons e es : sum_sizes (e :: es) = entry_size e + sum_sizes es.
Proof. done. Qed.

Lemma sum_sizes_perm es es' : es ≡ₚ es' → sum_sizes es = sum_sizes es'.
Proof. induction 1; rewrite ?sum_sizes_cons; lia. Qed.

Lemma evict_count_spec es max_bytes :
  0 <= max_bytes →
  sum_sizes (drop (evict_count (sum_sizes es) max_bytes es) es) <= max_bytes ∧
  ∀ k, (k < evict_count (sum_sizes es) max_bytes es)%nat → max_bytes < sum_sizes (drop k es).
Proof.
  intros Hmax. induction es as [|e es IH]; simpl; [split; [done|lia]|].
  destruct (Z.leb_spec (sum_sizes (e :: es)) max_bytes) as [Hle|Hgt].
  - rewrite drop_0. split; [done|lia].
  - assert (sum_sizes (e :: es) - entry_size e = sum_sizes es) as ->
      by (rewrite sum_sizes_cons; lia).
    destruct IH as [IH1 IH2]. split; [done|]. intros [|k] Hk; [done|]. apply IH2. lia.
Qed.

Section proofs.
Context {S B : Type} `{ObjectStore S} `{Broker B} `{TempLaws} `{Codecs}.
Context (host : pystr) (cfg : config).
#[local] Abbreviation world := (world S B).
Implicit Types (w : world).

(** The files left when those at [paths] are removed. *)
Definition without (paths : list pystr) (files : gmap (pystr * pystr) file) : gmap (pystr * pystr) file :=
  foldl (λ fs p, delete (host, p) fs) files paths.

Lemma lookup_without paths files k :
  without paths files !! k = if bool_decide (k.1 = host ∧ k.2 ∈ paths) then None else files !! k.
Proof.
  revert files. induction paths as [|p paths IH]; intros files; simpl.
  { rewrite bool_decide_false; [done|]. intros [_ Hin]. by apply elem_of_nil in Hin. }
  rewrite IH. destruct k as [h q]. simpl.
  assert ((h = host ∧ q ∈ p :: paths) ↔ (h, q) = (host, p) ∨ (h = host ∧ q ∈ paths)) as Hiff.
  { rewrite elem_of_cons. naive_solver. }
  rewrite (bool_decide_ext _ _ Hiff), bool_decide_or.
  destruct (decide ((h, q) = (host, p))) as [[= -> ->]|Hne].
  - rewrite (bool_decide_true (_ = (_, _))), lookup_delete_eq by done. simpl. by destruct (bool_decide _).
  - by rewrite (bool_decide_false (_ = (_, _))), lookup_delete_ne by congruence.
Qed.

(** The cached files, and what [prune_source_cache] finds out about them. *)
Definition cached w : gmap (pystr * pystr) file :=
  filter (λ kf, kf.1.1 = host ∧ in_dir (SOURCE_CACHE_DIR cfg) kf.1.2 = true) (w_files w).

Definition entry_of (kf : pystr * pystr * file) : entry := (f_atime kf.2, len (f_data kf.2), kf.1.2).

Definition listed w : list entry := entry_of <$> map_to_list (cached w).

Lemma elem_of_listed w e :
  e ∈ listed w ↔
  ∃ p f, w_files w !! (host, p) = Some f ∧ in_dir (SOURCE_CACHE_DIR cfg) p = true ∧
    e = (f_atime f, len (f_data f), p).
Proof.
  unfold listed. rewrite list_elem_of_fmap. split.
  - intros ([[h p] f] & -> & Hin%elem_of_map_to_list). simpl in *.
    apply map_lookup_filter_Some in Hin as [Hf [Hh Hd]]. simpl in *. subst. eauto.
  - intros (p & f & Hf & Hd & ->). exists ((host, p), f). split; [done|].
    apply elem_of_map_to_list. by apply map_lookup_filter_Some.
Qed.

Lemma listed_nodup w : NoDup (listed w).*2.
Proof.
  unfold listed. rewrite <-list_fmap_compose. apply (NoDup_snd_keys _ host).
  intros k f Hk. by apply map_lookup_filter_Some in Hk as [_ [? _]].
Qed.

(** A file directly in the directory is the directory joined with a plain name. *)
Lemma in_dir_join dir p :
  in_dir dir p = true → path_join dir (drop (length (path_join dir [])) p) = p.
Proof.
  unfold in_dir. rewrite !andb_true_iff, negb_true_iff, !bool_decide_eq_true, bool_decide_eq_false.
  unfold startswith. rewrite bool_decide_eq_true. intros ([name ->] & Hne & Hslash).
  rewrite drop_app_length in *.
  assert (startswith (u "/") name = false) as Hst.
  { unfold startswith. apply bool_decide_false. intros [k ->]. apply Hslash, elem_of_app. left.
    apply list_elem_of_here. }
  unfold path_join at 1. rewrite Hst. unfold path_join. cbn [startswith].
  change (startswith (u "/") []) with false. destruct (last dir) as [c|] eqn:Hl.
  - destruct (c =? 47); by rewrite ?app_nil_r, <-?(assoc_L (++)).
  - apply last_None in Hl as ->. done.
Qed.

Lemma run_cache_entries w kfs :
  (∀ kf, kf ∈ kfs → w_files w !! kf.1 = Some kf.2 ∧ kf.1.1 = host ∧
     in_dir (SOURCE_CACHE_DIR cfg) kf.1.2 = true) →
  run (cache_entries host cfg ((λ kf, drop (length (path_join (SOURCE_CACHE_DIR cfg) [])) kf.1.2) <$> kfs)) w =
  (Val (entry_of <$> kfs), w).
Proof.
  induction kfs as [|[[h p] f] kfs IH]; intros Hin; [done|].
  destruct (Hin ((h, p), f) (list_elem_of_here _ _)) as (Hf & Hh & Hd). simpl in Hf, Hh, Hd. subst h.
  rewrite fmap_cons. cbn [cache_entries fst snd]. rewrite in_dir_join by done.
  rewrite run_bind. unfold path_exists. rewrite run_act. cbn [fst snd].
  rewrite bool_decide_true by (by eexists). rewrite run_bind. unfold stat. rewrite run_io, Hf. cbv beta iota.
  rewrite run_bind.
  assert (∀ kf, kf ∈ kfs → w_files w !! kf.1 = Some kf.2 ∧ kf.1.1 = host ∧
    in_dir (SOURCE_CACHE_DIR cfg) kf.1.2 = true) as Hrest by (intros; apply Hin; by apply list_elem_of_further).
  specialize (IH Hrest). unfold entry in *. rewrite IH. done.
Qed.

Lemma run_listing w :
  run (names ← listdir host (SOURCE_CACHE_DIR cfg); cache_entries host cfg names) w = (Val (listed w), w).
Proof.
  rewrite run_bind. unfold listdir. rewrite run_act. cbn [fst snd]. apply run_cache_entries.
  intros [k f] Hin%elem_of_map_to_list. by apply map_lookup_filter_Some in Hin as [? [? ?]].
Qed.

Lemma run_evict total max_bytes es w :
  NoDup es.*2 → (∀ e, e ∈ es → is_Some (w_files w !! (host, e.2))) →
  run (evict host total max_bytes es) w =
  (Val tt, set_files (without (take (evict_count total max_bytes es) es).*2 (w_files w)) w).
Proof.
  revert total w. induction es as [|[[t size] p] es IH]; intros total w Hnd Hex; simpl; [by destruct w|].
  destruct (total <=? max_bytes); [by destruct w|].
  apply NoDup_cons in Hnd as [Hnot Hnd]. simpl in Hnot.
  destruct (Hex (t, size, p) (list_elem_of_here _ _)) as [f Hf]. simpl in Hf.
  change (entry_size (t, size, p)) with size.
  change (run (remove_file host p ≫= λ _, evict host (total - size) max_bytes es) w = (Val tt,
    set_files (without (take (evict_count (total - size) max_bytes es) es).*2
      (delete (host, p) (w_files w))) w)).
  rewrite run_bind. unfold remove_file. rewrite run_io, Hf. rewrite IH; [done|done|].
  intros e Hin. simpl. rewrite lookup_delete_ne; [by apply Hex, list_elem_of_further|].
  intros [= ->]. apply Hnot. apply list_elem_of_fmap. by exists e.
Qed.

Definition lru (w : world) : list entry := merge_sort entry_le (listed w).

Lemma lru_perm w : lru w ≡ₚ listed w.
Proof. apply merge_sort_Permutation. Qed.

Lemma lru_nodup w : NoDup (lru w).*2.
Proof. rewrite lru_perm. apply listed_nodup. Qed.

Definition evicted max_bytes w : nat := evict_count (sum_sizes (lru w)) max_bytes (lru w).

Lemma run_prune w max_bytes :
  run (prune_source_cache host cfg max_bytes) w =
  (Val tt, set_files (without (take (evicted (default (SOURCE_CACHE_MAX_BYTES cfg) max_bytes) w) (lru w)).*2
     (w_files w)) w).
Proof.
  unfold prune_source_cache, ignore_os_error. rewrite run_bind, run_attempt.
  pose proof (run_listing w) as Hl. rewrite run_bind in Hl. rewrite run_bind. unfold listdir in *.
  rewrite run_act in *. cbn [fst snd] in *. rewrite run_bind, Hl. cbv beta iota. fold (lru w).
  rewrite <-(sum_sizes_perm _ _ (lru_perm w)).
  rewrite run_evict; [done|apply lru_nodup|].
  intros e. rewrite lru_perm, elem_of_listed. intros (p & f & Hf & _ & ->). by exists f.
Qed.

(** The number of bytes in a set of files. *)
Definition total_bytes (files : gmap (pystr * pystr) file) : Z :=
  foldr Z.add 0 ((λ kf, len (f_data kf.2)) <$> map_to_list files).

Lemma total_bytes_listed w : total_bytes (cached w) = sum_sizes (listed w).
Proof. unfold total_bytes, sum_sizes, listed. by rewrite <-list_fmap_compose. Qed.

(** What is left after the first [k] entries were removed. *)
Lemma kept_listed w k :
  listed (set_files (without (take k (lru w)).*2 (w_files w)) w) ≡ₚ drop k (lru w).
Proof.
  pose proof (lru_nodup w) as Hnd. rewrite <-(take_drop k (lru w)), fmap_app in Hnd.
  apply NoDup_app in Hnd as (_ & Hdisj & Hnd2).
  apply NoDup_Permutation.
  - eapply NoDup_fmap_1, listed_nodup.
  - by eapply NoDup_fmap_1.
  - intros e. rewrite elem_of_listed. cbn [w_files set_files]. setoid_rewrite lookup_without. simpl. split.
    + intros (p & f & Hf & Hd & ->). case_bool_decide as Hin; [done|].
      assert ((f_atime f, len (f_data f), p) ∈ lru w) as He by (rewrite lru_perm, elem_of_listed; eauto).
      rewrite <-(take_drop k (lru w)), elem_of_app in He. destruct He as [He|]; [|done].
      destruct Hin. split; [done|]. apply list_elem_of_fmap. by exists (f_atime f, len (f_data f), p).
    + intros He. assert (e ∈ lru w) as Hl by (rewrite <-(take_drop k (lru w)), elem_of_app; by right).
      rewrite lru_perm, elem_of_listed in Hl. destruct Hl as (p & f & Hf & Hd & ->). exists p, f.
      rewrite bool_decide_false; [by split_and!|]. intros [_ Hin]. apply (Hdisj p Hin).
      apply list_elem_of_fmap. by exists (f_atime f, len (f_data f), p).
Qed.

Lemma elem_of_evicted w k h p f :
  w_files w !! (h, p) = Some f → without (take k (lru w)).*2 (w_files w) !! (h, p) = None →
  h = host ∧ in_dir (SOURCE_CACHE_DIR cfg) p = true ∧ (f_atime f, len (f_data f), p) ∈ take k (lru w).
Proof.
  intros Hf. rewrite lookup_without. simpl. case_bool_decide as Hin; [intros _|congruence].
  destruct Hin as [-> (e & -> & He)%list_elem_of_fmap].
  assert (e ∈ lru w) as Hl by (rewrite <-(take_drop k (lru w)), elem_of_app; by left).
  rewrite lru_perm, elem_of_listed in Hl. destruct Hl as (p' & f' & Hf' & Hd & ->).
  simpl in *. rewrite Hf in Hf'. by injection Hf' as <-.
Qed.

(** The last entry that was evicted. *)
Lemma last_evicted w k e0 :
  e0 ∈ take k (lru w) → (k <= length (lru w))%nat →
  ∃ k' e, k = Datatypes.S k' ∧ e ∈ take k (lru w) ∧ drop k' (lru w) = e :: drop k (lru w) ∧
    ∀ e', e' ∈ take k (lru w) → e' = e ∨ entry_le e' e.
Proof.
  intros He0 Hk. destruct k as [|k']; [by apply elem_of_nil in He0|].
  destruct (lookup_lt_is_Some_2 (lru w) k') as [e He]; [lia|].
  assert (StronglySorted entry_le (lru w)) as Hsort by (apply StronglySorted_merge_sort; apply _).
  rewrite <-(take_drop k' (lru w)), (drop_S _ _ _ He) in Hsort.
  exists k', e. rewrite (take_S_r _ _ _ He). split_and!; [done|set_solver|by apply drop_S|].
  intros e' [He'|He'%list_elem_of_singleton]%elem_of_app; [right|by left].
  eapply StronglySorted_app_1_elem_of; [exact Hsort|exact He'|apply list_elem_of_here].
Qed.

Lemma evicted_le w max_bytes : (evicted max_bytes w <= length (lru w))%nat.
Proof.
  unfold evicted. generalize (sum_sizes (lru w)) as total. induction (lru w) as [|e es IH]; intros total; [done|].
  cbn [evict_count length]. destruct (_ <=? _); [lia|]. specialize (IH (total - entry_size e)). lia.
Qed.

(** C33: Pruning evicts least-recently-used sources until the cache fits, and no
    more.  Files only disappear, and only files of this worker that are directly in
    the cache directory; a cached file that was evicted was last used no later than
    any cached file that was kept; what is kept has at most [max_bytes] bytes; and if
    anything was evicted, then one of the evicted files, last used no earlier than
    the other evicted ones, could not have been kept: with it the cache would have been
    over the budget. *)
Theorem prune_lru (w : world) (max_bytes : Z) :
  0 <= max_bytes →
  let r := run (prune_source_cache host cfg (Some max_bytes)) w in
  let w' := r.2 in
  let gone h p f := w_files w !! (h, p) = Some f ∧ w_files w' !! (h, p) = None in
  r.1 = Val tt ∧ w' = set_files (w_files w') w ∧
  (∀ h p f, w_files w' !! (h, p) = Some f → w_files w !! (h, p) = Some f) ∧
  (∀ h p f, gone h p f → h = host ∧ in_dir (SOURCE_CACHE_DIR cfg) p = true) ∧
  (∀ h p f p' f', gone h p f → w_files w' !! (host, p') = Some f' →
     in_dir (SOURCE_CACHE_DIR cfg) p' = true → f_atime f <= f_atime f') ∧
  total_bytes (cached w') <= max_bytes ∧
  ((∃ h p f, gone h p f) → ∃ p f, gone host p f ∧ max_bytes < total_bytes (cached w') + len (f_data f) ∧
     ∀ h' p' f', gone h' p' f' → f_atime f' <= f_atime f).
Proof.
  intros Hmax. cbv zeta. rewrite run_prune. cbn [default id fst snd]. set (k := evicted max_bytes w).
  set (w' := set_files _ w).
  destruct (evict_count_spec (lru w) max_bytes Hmax) as [Hfit Hmin]. fold (evicted max_bytes w) k in Hfit, Hmin.
  assert (StronglySorted entry_le (lru w)) as Hsort by (apply StronglySorted_merge_sort; apply _).
  assert (∀ e e', entry_le e e' → e.1.1 <= e'.1.1) as Hle
    by (intros [[t s] p] [[t' s'] p'] Hl%entry_leb_spec; simpl; lia).
  assert (∀ h p f, w_files w !! (h, p) = Some f ∧ w_files w' !! (h, p) = None → h = host ∧
    in_dir (SOURCE_CACHE_DIR cfg) p = true ∧ (f_atime f, len (f_data f), p) ∈ take k (lru w)) as Hgone
    by (intros h p f [Hf Hn]; by apply elem_of_evicted).
  pose proof (kept_listed w k) as Hkept. fold w' in Hkept.
  assert (total_bytes (cached w') = sum_sizes (drop k (lru w))) as Htot
    by (rewrite total_bytes_listed; by apply sum_sizes_perm).
  split_and!; [done|done| | | |by rewrite Htot|].
  - intros h p f. cbn [w' w_files set_files]. rewrite lookup_without. by case_bool_decide.
  - intros h p f Hg. by destruct (Hgone h p f Hg) as (? & ? & _).
  - intros h p f p' f' Hg Hf' Hd'. destruct (Hgone h p f Hg) as (_ & _ & He).
    rewrite <-(take_drop k (lru w)) in Hsort.
    apply (Hle (f_atime f, len (f_data f), p) (f_atime f', len (f_data f'), p')).
    eapply StronglySorted_app_1_elem_of; [exact Hsort|exact He|]. rewrite <-Hkept, elem_of_listed. eauto.
  - intros (h0 & p0 & f0 & Hg0). destruct (Hgone _ _ _ Hg0) as (_ & _ & He0).
    destruct (last_evicted w k _ He0 (evicted_le w max_bytes)) as (k' & e & Hk & He & Hdrop & Hlast).
    destruct (proj1 (elem_of_listed w e)) as (p & f & Hf & Hd & ->).
    { rewrite <-lru_perm, <-(take_drop k (lru w)), elem_of_app. by left. }
    exists p, f. split_and!; [done| | |].
    + cbn [w' w_files set_files]. rewrite lookup_without. cbn [fst snd].
      rewrite bool_decide_true; [done|]. split; [done|]. apply list_elem_of_fmap. by exists (f_atime f, len (f_data f), p).
    + specialize (Hmin k' ltac:(lia)). rewrite Hdrop, sum_sizes_cons in Hmin. rewrite Htot.
      unfold entry_size in Hmin. simpl in Hmin. lia.
    + intros h' p' f' Hg. destruct (Hgone _ _ _ Hg) as (_ & _ & He'). 
      destruct (Hlast _ He') as [[= -> _ _]|Hl%Hle]; [done|exact Hl].
Qed.

(** ** What the cache holds *)
Definition hash_name (h : pystr) : Prop := h ≠ [] ∧ Forall (λ c, is_hex c = true) h.

(** A cached file has the hash it is named after ... *)
Definition cache_coherent w : Prop :=
  ∀ h f, hash_name h → w_files w !! (host, cache_path cfg h) = Some f → sha256_hex (f_data f) = h.

(** ... because a stored source has. *)
Definition sources_coherent (s : S) : Prop :=
  ∀ h d, s3_get (source_key h) s = Some d → sha256_hex d = h.

Lemma path_join_inj a b b' :
  startswith (u "/") b = false → startswith (u "/") b' = false → path_join a b = path_join a b' → b = b'.
Proof.
  unfold path_join. intros -> ->. destruct (last a) as [c|]; [|done].
  destruct (c =? 47); intros Heq; [by apply app_inv_head in Heq|]. by do 2 apply app_inv_head in Heq.
Qed.

Lemma hash_no_slash h : hash_name h → startswith (u "/") h = false.
Proof.
  intros [Hne Hh]. destruct h as [|c h]; [done|]. apply Forall_cons in Hh as [Hc _].
  unfold startswith. apply bool_decide_false. intros [k Hk]. injection Hk as -> _. done.
Qed.

Lemma cache_path_inj h h' : hash_name h → hash_name h' → cache_path cfg h = cache_path cfg h' → h = h'.
Proof. intros Hh Hh'. apply path_join_inj; by apply hash_no_slash. Qed.

Lemma cache_path_not_temp h used suffix :
  hash_name h → cache_path cfg h ≠ temp_name used (SOURCE_CACHE_DIR cfg) suffix.
Proof.
  intros Hh. destruct (temp_name_shape used (SOURCE_CACHE_DIR cfg) suffix) as (r & _ & ->). intros Heq.
  apply path_join_inj in Heq; [|by apply hash_no_slash|done].
  destruct Hh as [_ Hh]. rewrite Heq in Hh. simpl in Hh. by apply Forall_cons in Hh as [? _].
Qed.

(** Fewer files, or changes elsewhere, keep the cache coherent. *)
Lemma cache_coherent_sub w w' :
  (∀ h f, hash_name h → w_files w' !! (host, cache_path cfg h) = Some f →
     ∃ f0, w_files w !! (host, cache_path cfg h) = Some f0 ∧ f_data f = f_data f0) →
  cache_coherent w → cache_coherent w'.
Proof. intros Hsub Hw h f Hh Hf. destruct (Hsub h f Hh Hf) as (f0 & Hf0 & ->). by apply Hw. Qed.

Lemma coherent_insert_temp used suffix file' w :
  cache_coherent w → cache_coherent (set_files
    (<[(host, temp_name used (SOURCE_CACHE_DIR cfg) suffix) := file']> (w_files w)) w).
Proof.
  apply cache_coherent_sub. intros h f Hh. simpl.
  rewrite lookup_insert_ne by (intros [= Heq]; by apply (cache_path_not_temp h used suffix)). eauto.
Qed.

Lemma coherent_remove_file path :
  guarantee (λ w w', cache_coherent w → cache_coherent w') (remove_file host path).
Proof.
  apply guarantee_io. intros w. destruct (w_files w !! (host, path)) as [f0|]; [|done].
  apply cache_coherent_sub. intros h f Hh. simpl. rewrite lookup_delete_Some. naive_solver.
Qed.

Lemma coherent_remove_if_exists path :
  guarantee (λ w w', cache_coherent w → cache_coherent w') (remove_if_exists host path).
Proof.
  apply guarantee_bind; [by apply guarantee_act|]. intros [|]; [|done]. apply coherent_remove_file.
Qed.

Lemma coherent_prune max_bytes :
  guarantee (λ w w', cache_coherent w → cache_coherent w') (prune_source_cache host cfg max_bytes).
Proof. apply guarantee_prune; [done|]. apply coherent_remove_file. Qed.

Lemma coherent_get_source h used suffix :
  guarantee (λ w w', cache_coherent w → cache_coherent w')
    (get_source host h (temp_name used (SOURCE_CACHE_DIR cfg) suffix)).
Proof.
  apply guarantee_get_source; [done|intros data; apply guarantee_act; intros w; apply coherent_insert_temp..].
Qed.

(** C32: The cache never serves a wrong file.  If the sources in the bucket have the
    hash in their key and the cached files have the hash in their name, then whatever
    calls fail and wherever the process dies inside [fetch_source], in every state it
    passes through the cached files still have the hash in their name.  In
    particular the download, which arrives in parts, is not visible under that name
    before it is complete. *)
Theorem fetch_source_coherent (h : pystr) (w : world) :
  hash_name h → sources_coherent (w_s3 w) → cache_coherent w →
  Forall cache_coherent (trace (fetch_source host cfg h) w) ∧
  cache_coherent (run (fetch_source host cfg h) w).2.
Proof.
  intros Hh Hsrc Hw. unfold fetch_source. rewrite trace_bind, run_bind. unfold path_exists.
  rewrite run_act. cbn [fst snd trace act]. case_bool_decide as Hex.
  { assert (guarantee (λ w w', cache_coherent w → cache_coherent w')
      (_ ← utime host (cache_path cfg h); Ret (cache_path cfg h))) as Hg.
    { apply guarantee_bind; [|done]. apply guarantee_io. intros w0.
      destruct (w_files w0 !! (host, cache_path cfg h)) as [f0|] eqn:Hf0; [|done].
      apply cache_coherent_sub. intros h' f' Hh'. simpl. rewrite lookup_insert_Some.
      intros [[[= <-] <-]|[_ ?]]; eauto. }
    destruct (trace_preserves _ _ _ Hg Hw) as [H1' H2']. split; [|done]. by constructor. }
  rewrite trace_bind, run_bind. unfold mkstemp. rewrite run_act. cbn [fst snd trace act].
  set (temp := temp_name (used_paths host w) (SOURCE_CACHE_DIR cfg) []).
  set (w1 := set_files _ w).
  assert (cache_coherent w1) as Hw1 by (by apply coherent_insert_temp).
  rewrite trace_bind, run_bind, trace_attempt, run_attempt, trace_bind, run_bind.
  destruct (trace_preserves _ _ w1 (coherent_get_source h (used_paths host w) []) Hw1) as [Htr2 Hw2].
  fold temp in Htr2, Hw2.
  assert (∀ e w', cache_coherent w' →
    Forall cache_coherent (trace (_ ← remove_if_exists host temp; (Raise e : prog world pystr)) w') ∧
    cache_coherent (run (_ ← remove_if_exists host temp; (Raise e : prog world pystr)) w').2) as Hfail.
  { intros e w' Hw'. apply trace_preserves; [|done].
    apply guarantee_bind; [apply coherent_remove_if_exists|done]. }
  destruct (run (get_source host h temp) w1) as [[r|e|] w2] eqn:Hget; cbn [snd] in Hw2.
  2: { specialize (Hfail e w2 Hw2) as [? ?]. rewrite app_nil_r, !Forall_app.
       split_and!; auto; by repeat constructor. }
  2: { rewrite !app_nil_r, !Forall_app. split_and!; auto; by repeat constructor. }
  apply run_get_source_Val in Hget as (d & fs & t & Hd & ->).
  unfold rename. rewrite run_io. cbn [trace io]. cbn [w_files set_files set_s3].
  rewrite lookup_insert_eq. cbn [fst snd reraise trace].
  set (w3 := set_files (<[(host, cache_path cfg h) := _]> _) _).
  assert (cache_coherent w3) as Hw3.
  { intros h' f' Hh'. unfold w3. cbn [w_files set_files]. rewrite lookup_insert_Some.
    intros [[[= Heq] <-]|[Hne Hf']].
    - apply cache_path_inj in Heq as <-; [|done..]. simpl. by apply Hsrc.
    - apply (Hw2 h' f' Hh'). apply lookup_delete_Some in Hf' as [_ Hf']. exact Hf'. }
  assert (guarantee (λ w w', cache_coherent w → cache_coherent w')
    (_ ← prune_source_cache host cfg None; Ret (cache_path cfg h))) as Hg.
  { apply guarantee_bind; [apply coherent_prune|done]. }
  destruct (trace_preserves _ _ w3 Hg Hw3) as [Htr4 Hw4].
  rewrite !Forall_app. split_and!; auto; by repeat constructor.
Qed.

(** ** A worker whose cache holds one document's source at most *)
Definition cache_only (h : pystr) (d : bytes) w : Prop :=
  (∀ p f, w_files w !! (host, p) = Some f → in_dir (SOURCE_CACHE_DIR cfg) p = true → p = cache_path cfg h) ∧
  (∀ f, w_files w !! (host, cache_path cfg h) = Some f → f_data f = d).

Lemma cache_only_insert h d t w :
  cache_only h d w → cache_only h d (set_files (<[(host, cache_path cfg h) := File d t]> (w_files w)) w).
Proof.
  intros [Hp Hd]. split; simpl.
  - intros p f. rewrite lookup_insert_Some. intros [[[= <-] <-]|[_ Hf]]; [done|]. by eapply Hp.
  - intros f. rewrite lookup_insert_eq. by intros [= <-].
Qed.

Lemma lru_small h d w :
  cache_only h d w → sum_sizes (lru w) <= len d.
Proof.
  intros [Hp Hd]. pose proof (merge_sort_Permutation entry_le (listed w)) as Hperm.
  fold (lru w) in Hperm.
  assert (NoDup (lru w).*2) as Hnd by (rewrite Hperm; apply listed_nodup).
  assert (∀ e, e ∈ lru w → e.2 = cache_path cfg h ∧ entry_size e = len d) as He.
  { intros e. rewrite Hperm, elem_of_listed. intros (p & f & Hf & Hin & ->). simpl.
    pose proof (Hp p f Hf Hin) as ->. by rewrite (Hd f Hf). }
  pose proof (len_nonneg d). clear Hperm. destruct (lru w) as [|e es]; [done|].
  destruct (He e (list_elem_of_here _ _)) as [He1 He2]. rewrite sum_sizes_cons, He2.
  destruct es as [|e' es]; [unfold sum_sizes; simpl; lia|].
  destruct (He e') as [He1' _]; [apply list_elem_of_further, list_elem_of_here|].
  simpl in Hnd. apply NoDup_cons in Hnd as [Hnot _]. exfalso. apply Hnot. rewrite He1, <-He1'.
  apply list_elem_of_here.
Qed.

Lemma run_prune_fits w :
  sum_sizes (lru w) <= SOURCE_CACHE_MAX_BYTES cfg → run (prune_source_cache host cfg None) w = (Val tt, w).
Proof.
  intros Hfit. rewrite run_prune. cbn [default].
  assert (evicted (SOURCE_CACHE_MAX_BYTES cfg) w = 0%nat) as ->; [|by destruct w].
  unfold evicted. destruct (lru w); [done|]. cbn [evict_count]. by rewrite (proj2 (Z.leb_le _ _)).
Qed.

Lemma run_fetch_source h d w :
  s3_ready w → s3_get (source_key h) (w_s3 w) = Some d → cache_only h d w →
  len d <= SOURCE_CACHE_MAX_BYTES cfg →
  ∃ t, run (fetch_source host cfg h) w =
    (Val (cache_path cfg h), set_files (<[(host, cache_path cfg h) := File d t]> (w_files w)) w).
Proof.
  intros [Hsf Hsb] Hd Hc Hmax. unfold fetch_source. rewrite run_bind. unfold path_exists. rewrite run_act.
  cbn [fst snd]. case_bool_decide as Hex.
  { destruct Hex as [f Hf]. exists (w_clock w). rewrite run_bind. unfold utime. rewrite run_io, Hf.
    simpl. by rewrite (proj2 Hc f Hf). }
  apply eq_None_not_Some in Hex.
  rewrite run_bind. unfold mkstemp. rewrite run_act. cbn [fst snd].
  set (temp := temp_name (used_paths host w) (SOURCE_CACHE_DIR cfg) []).
  assert (w_files w !! (host, temp) = None) as Htemp by exact (temp_name_unused host w _ _).
  rewrite run_bind, run_attempt, run_bind, (run_get_source _ _ _ d); [|by split|exact Hd]. cbv beta iota.
  unfold rename. rewrite run_io.
  cbn [w_files set_files set_s3 w_clock]. rewrite lookup_insert_eq. cbv beta iota.
  rewrite run_bind. exists (w_clock w).
  rewrite !insert_insert_eq, delete_insert_id by done.
  set (w3 := set_files _ _).
  assert (w3 = set_files (<[(host, cache_path cfg h) := File d (w_clock w)]> (w_files w)) w) as ->.
  { unfold w3. destruct w. simpl in *. by subst. }
  rewrite run_prune_fits; [done|].
  etransitivity; [apply (lru_small h d)|done]. by apply cache_only_insert.
Qed.
End proofs.

(** ** Witnesses *)
Definition cache_config : config :=
  Config None 7 (u "m") false 20 40 5000 100 (u "x") (u "q") [5] 3 (u "/c") 4.

Definition cache_world (files : gmap (pystr * pystr) file) (fs : list fault) : world map_store map_broker :=
  World 9 empty_db (MapStore true {[u "src/00097" := u "a"]}) empty_broker files ∅ ∅ ∅ ∅ [] fs [].

Definition three_files : gmap (pystr * pystr) file :=
  {[(u "w", u "/c/00001") := File (u "abc") 5; (u "w", u "/c/00002") := File (u "de") 3;
    (u "w", u "/etc/x") := File (u "zzzzzzzz") 0]}.

Lemma prune_lru_witness :
  total_bytes (cached (u "w") cache_config
    (run (prune_source_cache (u "w") cache_config (Some 4)) (cache_world three_files [])).2) <= 4 ∧
  ∃ p f, three_files !! (u "w", p) = Some f ∧
    w_files (run (prune_source_cache (u "w") cache_config (Some 4)) (cache_world three_files [])).2
      !! (u "w", p) = None ∧ p = u "/c/00002".
Proof.
  destruct (prune_lru (u "w") cache_config (cache_world three_files []) 4)
    as (_ & _ & _ & _ & _ & Hfit & Hmin); [lia|]. split; [exact Hfit|].
  destruct Hmin as (p & f & [Hf Hn] & _).
  { exists (u "w"), (u "/c/00002"), (File (u "de") 3). split; vm_compute; reflexivity. }
  exists (u "/c/00002"), (File (u "de") 3). split; [vm_compute; reflexivity|].
  split; [vm_compute; reflexivity|reflexivity].
Defined.

Lemma fetch_source_coherent_witness :
  cache_coherent (u "w") cache_config
    (run (fetch_source (u "w") cache_config (u "00097")) (cache_world ∅ [After (ValueError (u "reset"))])).2.
Proof.
  apply (fetch_source_coherent (u "w") cache_config (u "00097") (cache_world ∅ [After (ValueError (u "reset"))])).
  - split; [discriminate|]. repeat constructor.
  - intros h d. cbn [cache_world w_s3 s3_get map_store_ops ms_objects]. rewrite lookup_singleton_Some.
    intros [Heq <-]. change (u "src/00097") with (u "src/" ++ u "00097") in Heq. apply app_inv_head in Heq as <-.
    vm_compute. reflexivity.
  - intros h f _. cbn. rewrite lookup_empty. discriminate.
Defined.
