(* ===== verification/Handler.v ===== *)
(** * The handler of one delivery (worker.py: handle, _handle_failure)

    What one run of [handle] does to the database, the broker and the object
    store, branch by branch: deliveries for finished jobs are dropped, a failed
    conversion is retried or fails the job, a chunk that is not the last is
    recorded. *)
From S2P Require Import Prelude PyStr Effects Utf8 Json Database Config World Db Jobstore Counter.
From S2P Require Import Files Chunker Storage Taskqueue Converter Pagination Worker Cache.

Section handler.
Context {S B : Type} `{ObjectStoreLaws S} `{BrokerLaws B} `{TempLaws} `{Codecs}.
Context (host : pystr) (cfg : config) (api_key : option pystr).
#[local] Abbreviation world := (world S B).
Implicit Types (w : world) (task : ChunkTask).

(** ** What converting a range leaves alone *)
Definition services w :=
  (w_clock w, w_db w, w_db_faults w, w_mq w, w_mq_faults w, w_db_open w, w_migrated w, w_mq_open w, w_stop w).

Definition convert_and_store task : prog world pystr :=
  markdown ← convert_range host cfg api_key (t_file_hash task) (t_start_page task) (t_end_page task)
               (t_use_llm task);
  put_part (t_doc_key task) (t_chunk_index task) markdown.

Lemma services_file {R} (f : world → R * gmap (pystr * pystr) file) :
  guarantee (λ w w' : world, services w' = services w) (act (λ w, ((f w).1, set_files (f w).2 w))).
Proof. by apply guarantee_act. Qed.

Lemma services_remove path :
  guarantee (λ w w' : world, services w' = services w) (remove_if_exists host path).
Proof.
  apply guarantee_bind; [by apply guarantee_act|]. intros [|]; [|done].
  apply guarantee_io. intros w. by destruct (w_files w !! (host, path)).
Qed.

Lemma services_s3 {R} (f : S → exn + R * S) :
  guarantee (λ w w' : world, services w' = services w) (s3_call f).
Proof. by apply guarantee_s3_call. Qed.

Lemma services_prune max_bytes :
  guarantee (λ w w' : world, services w' = services w) (prune_source_cache host cfg max_bytes).
Proof.
  apply guarantee_prune; [done|]. intros path. apply guarantee_io. intros w.
  by destruct (w_files w !! (host, path)).
Qed.

Lemma services_fetch h : guarantee (λ w w' : world, services w' = services w) (fetch_source host cfg h).
Proof.
  apply guarantee_bind; [by apply guarantee_act|]. intros [|].
  { apply guarantee_bind; [|done]. apply guarantee_io. intros w.
    by destruct (w_files w !! (host, cache_path cfg h)). }
  apply guarantee_bind; [by apply guarantee_act|]. intros temp.
  apply guarantee_bind.
  - apply guarantee_attempt, guarantee_bind.
    + apply guarantee_get_source; [done|intros; by apply guarantee_act..].
    + intros _. apply guarantee_io. intros w. by destruct (w_files w !! (host, temp)).
  - intros [e|_].
    + apply guarantee_bind; [apply services_remove|done].
    + apply guarantee_bind; [apply services_prune|done].
Qed.

Lemma services_convert_file path use_llm :
  guarantee (λ w w' : world, services w' = services w) (convert_file host cfg api_key path use_llm).
Proof.
  apply guarantee_bind; [apply guarantee_reraise|]. intros _.
  apply guarantee_bind; [|intros; apply guarantee_reraise]. by apply guarantee_io.
Qed.

Lemma services_convert_range h start end_ use_llm :
  guarantee (λ w w' : world, services w' = services w) (convert_range host cfg api_key h start end_ use_llm).
Proof.
  apply guarantee_bind; [apply services_fetch|]. intros path.
  destruct (end_ =? -1); [apply services_convert_file|].
  apply guarantee_bind; [by apply guarantee_act|]. intros chunk_path.
  apply guarantee_finally; [|apply services_remove].
  apply guarantee_bind; [|intros; apply services_convert_file].
  unfold extract_pages. destruct (end_ =? -1); [done|].
  apply guarantee_bind; [by apply guarantee_io|]. intros d.
  apply guarantee_bind; [apply guarantee_reraise|]. intros out.
  apply guarantee_bind; [by apply guarantee_act|done].
Qed.

Lemma services_convert_and_store task :
  guarantee (λ w w' : world, services w' = services w) (convert_and_store task).
Proof.
  apply guarantee_bind; [apply services_convert_range|]. intros md.
  apply guarantee_bind; [apply guarantee_reraise|]. intros b.
  apply guarantee_bind; [apply services_s3|done].
Qed.

Lemma services_eq w w' :
  services w' = services w →
  w_clock w' = w_clock w ∧ w_db w' = w_db w ∧ w_mq w' = w_mq w ∧
  (db_ready host w → db_ready host w') ∧ (mq_ready host cfg w → mq_ready host cfg w').
Proof.
  unfold services, db_ready, mq_ready. intros [=].
  repeat match goal with E : _ w' = _ w |- _ => rewrite E; clear E end. tauto.
Qed.

(** ** The start of a delivery *)
Definition started task w : world :=
  set_db (start_job_sql (w_clock w) (t_job_id task)
            (start_chunk_sql (w_clock w) (t_job_id task) (t_chunk_index task) host (t_attempt task) (w_db w)))
    [] w.

Definition finish_delivery task (r : exn + pystr) : prog world unit :=
  match r with
  | inl exc => handle_failure host cfg task exc
  | inr key =>
      remaining ← complete_chunk host (t_job_id task) (t_chunk_index task) key;
      if remaining =? 0 then
        r ← attempt (
          job ← get_job host (t_job_id task);
          assemble host cfg (t_job_id task) job);
        match r with
        | inr _ => mret tt
        | inl exc => fail_job host (t_job_id task) (u "assembly failed: " ++ exn_str exc) None
        end
      else mret tt
  end.

Lemma set_db_same w : w_db_faults w = [] → set_db (w_db w) [] w = w.
Proof. destruct w; simpl. by intros ->. Qed.

Lemma started_ready task w : db_ready host w → db_ready host (started task w).
Proof. apply db_ready_set_db. Qed.

Lemma run_handle_active task w j :
  db_ready host w → db_jobs (w_db w) !! t_job_id task = Some j → terminal (j_status j) = false →
  run (handle host cfg api_key task) w =
  run (r ← attempt (convert_and_store task); finish_delivery task r) (started task w).
Proof.
  intros Hw Hj Ht. unfold handle. rewrite run_bind, run_get_job by done. cbv beta iota.
  rewrite set_db_same by apply Hw. rewrite Hj. cbn [active]. rewrite Ht. cbn [negb].
  rewrite run_bind. unfold consumer_name. by rewrite run_start_chunk.
Qed.

(** [start_chunk] changes no count and no other field that matters here. *)
Lemma started_job task w j :
  db_jobs (w_db w) !! t_job_id task = Some j →
  ∃ j', db_jobs (w_db (started task w)) !! t_job_id task = Some j' ∧
    terminal (j_status j') = terminal (j_status j) ∧ j_remaining_chunks j' = j_remaining_chunks j ∧
    j_total_chunks j' = j_total_chunks j ∧ j_doc_key j' = j_doc_key j ∧ j_file_hash j' = j_file_hash j.
Proof.
  intros Hj. unfold started. cbn [w_db set_db]. unfold start_job_sql, set_jobs. cbn [db_jobs].
  rewrite lookup_update_at_eq. cbn. rewrite Hj. simpl. case_bool_decide as Hq; eexists; (split; [done|]).
  - by rewrite Hq.
  - done.
Qed.

Lemma started_chunk task w k :
  (λ c, (c_status c, c_s3_key c)) <$> db_chunks (w_db w) !! k =
  (λ c, (c_status c, c_s3_key c)) <$> db_chunks (w_db (started task w)) !! k ∨
  (k = (t_job_id task, t_chunk_index task) ∧ ∃ c c', db_chunks (w_db w) !! k = Some c ∧ c_status c ≠ CDone ∧
     db_chunks (w_db (started task w)) !! k = Some c' ∧ c_status c' = CRunning).
Proof.
  unfold started. cbn. rewrite lookup_update_at.
  case_decide as Hk; [|by left]. destruct (db_chunks (w_db w) !! k) as [c|]; [|by left]. simpl.
  destruct (chunk_done (c_status c)) eqn:E; [by left|right].
  split; [done|]. eexists _, _. split_and!; [done| |done|done]. intros Heq. by rewrite Heq in E.
Qed.

Lemma run_handle_dropped task w :
  db_ready host w →
  (∀ j, db_jobs (w_db w) !! t_job_id task = Some j → terminal (j_status j) = true) →
  run (handle host cfg api_key task) w = (Val tt, w).
Proof.
  intros Hw Hj. unfold handle. rewrite run_bind, run_get_job by done. cbv beta iota.
  rewrite set_db_same by apply Hw. destruct (db_jobs (w_db w) !! t_job_id task) as [j|]; [|done].
  cbn [active]. by rewrite (Hj j).
Qed.

(** A delivery for a job that does not exist, is done or has failed is
    dropped: nothing in the database, the bucket, the broker or the files
    changes. *)
Theorem handle_drops task w :
  db_ready host w →
  (∀ j, db_jobs (w_db w) !! t_job_id task = Some j → terminal (j_status j) = true) →
  run (handle host cfg api_key task) w = (Val tt, w).
Proof. apply run_handle_dropped. Qed.

(** The world in which the conversion ended. *)
Lemma converted task w r w2 :
  db_ready host w → run (convert_and_store task) (started task w) = (r, w2) →
  db_ready host w2 ∧ w_db w2 = w_db (started task w) ∧ w_clock w2 = w_clock w ∧ w_mq w2 = w_mq w ∧
  (mq_ready host cfg w → mq_ready host cfg w2).
Proof.
  intros Hw Hrun.
  pose proof (run_frame services _ (started task w) (services_convert_and_store task)) as Hs.
  rewrite Hrun in Hs. apply services_eq in Hs as (Hc & Hd & Hm & Hdr & Hmr). cbn [snd] in *.
  split_and!; [by apply Hdr, started_ready|done|done|done|]. intros Hmw. apply Hmr. exact Hmw.
Qed.

Lemma run_reschedule_chunk jid i error w :
  db_ready host w →
  run (reschedule_chunk host jid i error) w =
  (Val tt, set_db (reschedule_chunk_sql (w_clock w) jid i error (w_db w)) [] w).
Proof. intros Hw. by apply (run_timed_execute host (λ ts, reschedule_chunk_sql ts jid i error)). Qed.

Lemma run_fail_chunk jid i error w :
  db_ready host w →
  run (fail_chunk host jid i error) w =
  (Val tt, set_db (fail_chunk_sql (w_clock w) jid i error (w_db w)) [] w).
Proof. intros Hw. by apply (run_timed_execute host (λ ts, fail_chunk_sql ts jid i error)). Qed.

Lemma run_fail_job jid error idx w :
  db_ready host w →
  run (fail_job host jid error idx) w =
  (Val tt, set_db (fail_job_sql (w_clock w) jid error idx (w_db w)) [] w).
Proof. intros Hw. by apply (run_timed_execute host (λ ts, fail_job_sql ts jid error idx)). Qed.

Lemma run_finish_job jid w :
  db_ready host w →
  run (finish_job host jid) w = (Val tt, set_db (finish_job_sql (w_clock w) jid (w_db w)) [] w).
Proof. intros Hw. by apply (run_timed_execute host (λ ts, finish_job_sql ts jid)). Qed.

Definition error_text (e : exn) : pystr := exn_name e ++ u ": " ++ exn_str e.

(** The rows after a chunk was started and put back. *)
Lemma rescheduled_rows task err w j :
  db_jobs (w_db w) !! t_job_id task = Some j → terminal (j_status j) = false →
  let k := (t_job_id task, t_chunk_index task) in
  let db' := reschedule_chunk_sql (w_clock w) (t_job_id task) (t_chunk_index task) err (w_db (started task w)) in
  (∀ c, db_chunks (w_db w) !! k = Some c → c_status c ≠ CDone →
     db_chunks db' !! k = Some (Chunk (c_id c) (c_start_page c) (c_end_page c) CPending (t_attempt task)
       (c_available_at c) None (c_lease_expires_at c) (c_s3_key c) (Some (slice_to err 2000)) (w_clock w))) ∧
  (∀ c, db_chunks (w_db w) !! k = Some c → c_status c = CDone → db_chunks db' !! k = Some c) ∧
  (∀ k', k' ≠ k → db_chunks db' !! k' = db_chunks (w_db w) !! k') ∧
  (∃ j', db_jobs db' !! t_job_id task = Some j' ∧
     j_status j' = (if bool_decide (j_status j = JQueued) then JRunning else j_status j) ∧
     j_total_chunks j' = j_total_chunks j ∧ j_remaining_chunks j' = j_remaining_chunks j ∧ j_error j' = j_error j) ∧
  (∀ jid, jid ≠ t_job_id task → db_jobs db' !! jid = db_jobs (w_db w) !! jid) ∧
  db_documents db' = db_documents (w_db w).
Proof.
  intros Hj Hact. cbv zeta. unfold reschedule_chunk_sql, started, start_job_sql, start_chunk_sql.
  cbn [w_db set_db db_chunks db_jobs db_documents set_chunks set_jobs]. split_and!.
  - intros c Hc Hnd. rewrite !lookup_update_at_eq, Hc. cbn [fmap option_fmap option_map].
    destruct (c_status c) eqn:Hst; done.
  - intros c Hc Hd. rewrite !lookup_update_at_eq, Hc. cbn [fmap option_fmap option_map].
    by rewrite Hd; cbn [chunk_done negb]; rewrite Hd.
  - intros k' Hk'. by rewrite !lookup_update_at_ne.
  - rewrite lookup_update_at_eq, Hj. cbn [fmap option_fmap option_map]. eexists. split; [reflexivity|].
    by case_bool_decide.
  - intros jid Hne. by rewrite lookup_update_at_ne.
  - done.
Qed.

(** C17: A chunk that fails to convert with attempts left is retried.  The handler
    returns normally; the task is published once, with the next attempt, to the
    retry queue of this attempt and nowhere else.  The chunk's row, unless another
    delivery recorded it as done in the meantime, goes back to pending with no owner,
    this attempt's number and the error cut to 2000 characters; a row that is done
    stays as it is.  No other chunk row changes; the job is running, with the counter
    it had; no other job and no document row changes. *)
Theorem handle_retries task w j e w2 :
  db_ready host w → mq_ready host cfg w → task_text task →
  db_jobs (w_db w) !! t_job_id task = Some j → terminal (j_status j) = false →
  run (convert_and_store task) (started task w) = (Exc e, w2) →
  1 <= t_attempt task < MAX_ATTEMPTS cfg → RETRY_DELAYS cfg ≠ [] →
  ∃ w', run (handle host cfg api_key task) w = (Val tt, w') ∧
    let k := (t_job_id task, t_chunk_index task) in
    (∀ c, db_chunks (w_db w) !! k = Some c → c_status c ≠ CDone →
       db_chunks (w_db w') !! k = Some (Chunk (c_id c) (c_start_page c) (c_end_page c) CPending
         (t_attempt task) (c_available_at c) None (c_lease_expires_at c) (c_s3_key c)
         (Some (slice_to (error_text e) 2000)) (w_clock w))) ∧
    (∀ c, db_chunks (w_db w) !! k = Some c → c_status c = CDone → db_chunks (w_db w') !! k = Some c) ∧
    (∀ k', k' ≠ k → db_chunks (w_db w') !! k' = db_chunks (w_db w) !! k') ∧
    (∃ j', db_jobs (w_db w') !! t_job_id task = Some j' ∧
       j_status j' = (if bool_decide (j_status j = JQueued) then JRunning else j_status j) ∧
       j_total_chunks j' = j_total_chunks j ∧ j_remaining_chunks j' = j_remaining_chunks j ∧
       j_error j' = j_error j) ∧
    (∀ jid, jid ≠ t_job_id task → db_jobs (w_db w') !! jid = db_jobs (w_db w) !! jid) ∧
    db_documents (w_db w') = db_documents (w_db w) ∧
    from_bytes <$> mq_messages (retry_queue_name cfg (t_attempt task)) (w_mq w') =
      (from_bytes <$> mq_messages (retry_queue_name cfg (t_attempt task)) (w_mq w)) ++
      [Parsed (next_attempt task)] ∧
    (∀ q, q ≠ retry_queue_name cfg (t_attempt task) → mq_messages q (w_mq w') = mq_messages q (w_mq w)).
Proof.
  intros Hw Hm Htext Hj Ht Hrun [Hatt Hmax] Hne.
  destruct (converted task w _ w2 Hw Hrun) as (Hw2 & Hdb & Hcl & Hmq & Hm2).
  specialize (Hm2 Hm) as (Hf & Ho & Htop). assert (task_text (next_attempt task)) as Htext' by done.
  assert (∀ q, mq_bound (RETRY_EXCHANGE cfg) (retry_queue_name cfg (t_attempt task)) q (w_mq w2) = true ↔
    q = retry_queue_name cfg (t_attempt task)) as Hb.
  { intros q. destruct Htop as (_ & Ht2 & _). rewrite Ht2. split; [by intros [-> _]|]. intros ->.
    split; [done|]. exists (Z.min (t_attempt task) (len (RETRY_DELAYS cfg))). split; [|done].
    assert (len (RETRY_DELAYS cfg) ≠ 0) by (by rewrite len_zero_iff).
    pose proof (len_nonneg (RETRY_DELAYS cfg)). lia. }
  eexists. split.
  { rewrite (run_handle_active task w j) by done. rewrite run_bind, run_attempt, Hrun. cbv beta iota.
    cbn [finish_delivery]. unfold handle_failure. rewrite (proj2 (Z.leb_gt _ _)) by lia.
    rewrite run_bind, run_reschedule_chunk by done. cbv beta iota. unfold publish_retry.
    rewrite run_bind, run_reraise, to_bytes_ok by done. by apply run_publish_ready. }
  cbn [w_db w_mq set_mq set_db]. rewrite <-Hmq, Hcl, Hdb.
  destruct (rescheduled_rows task (error_text e) w j Hj Ht) as (? & ? & ? & ? & ? & ?). cbv zeta.
  split_and!; [done..| |].
  - rewrite messages_published, (proj2 (Hb _)) by done. rewrite fmap_app. simpl. by rewrite from_to_bytes.
  - intros q Hq. rewrite messages_published.
    destruct (mq_bound _ _ q (w_mq w2)) eqn:Hbq; [by apply Hb in Hbq|]. apply app_nil_r.
Qed.

(** The text of an exception is text. *)
Definition exn_text (e : exn) : Prop := Forall codepoint (exn_name e) ∧ Forall codepoint (exn_str e).

Lemma failed_body_ok task e :
  task_text task → exn_text e →
  encode (dumps (asdict task ++ [(u "error", SStr (slice_to (error_text e) 2000))])) =
  inr (dumps (asdict task ++ [(u "error", SStr (slice_to (error_text e) 2000))])).
Proof.
  intros Ht [He1 He2]. apply encode_dumps, Forall_app. split.
  - eapply Forall_impl; [by apply asdict_ok|]. apply member_ok_text.
  - constructor; [|constructor]. split; simpl; [by repeat constructor|].
    apply Forall_take. unfold error_text. apply Forall_app. split; [done|].
    apply Forall_app. split; [by repeat constructor|done].
Qed.

(** C18: A chunk that exhausts its attempts fails its job, and only then: the
    task, with the error, is parked on the failed queue, the job becomes [failed]
    with the chunk's index and a message that names the chunk, the attempt and
    the error, the chunk becomes [failed], and nothing is retried. *)
Theorem handle_poison task w j e w2 :
  db_ready host w → mq_ready host cfg w → task_text task → exn_text e →
  db_jobs (w_db w) !! t_job_id task = Some j → terminal (j_status j) = false →
  run (convert_and_store task) (started task w) = (Exc e, w2) → MAX_ATTEMPTS cfg <= t_attempt task →
  ∃ w' j', run (handle host cfg api_key task) w = (Val tt, w') ∧
    db_jobs (w_db w') !! t_job_id task = Some j' ∧ j_status j' = JFailed ∧
    j_error_chunk j' = Some (t_chunk_index task) ∧
    j_error j' = Some (slice_to (u "chunk " ++ str_of_Z (t_chunk_index task) ++ u " failed after " ++
                     str_of_Z (t_attempt task) ++ u " attempts: " ++ exn_str e) 2000) ∧
    (∀ c, db_chunks (w_db w') !! (t_job_id task, t_chunk_index task) = Some c → c_status c = CFailed) ∧
    (∀ q, mq_messages q (w_mq w') = mq_messages q (w_mq w) ++
       (if bool_decide (q = FAILED_QUEUE cfg)
        then [dumps (asdict task ++ [(u "error", SStr (slice_to (error_text e) 2000))])] else [])).
Proof.
  intros Hw Hm Htext Hetext Hj Ht Hrun Hmax.
  destruct (converted task w _ w2 Hw Hrun) as (Hw2 & Hdb & Hcl & Hmq & Hm2).
  specialize (Hm2 Hm) as (Hf & Ho & Htop).
  destruct (started_job task w j Hj) as (j1 & Hj1 & Ht1 & _). rewrite Ht in Ht1.
  eexists _, _. split.
  { rewrite (run_handle_active task w j) by done. rewrite run_bind, run_attempt, Hrun. cbv beta iota.
    cbn [finish_delivery]. unfold handle_failure. rewrite (proj2 (Z.leb_le _ _)) by lia.
    rewrite run_bind. unfold publish_failed. fold (error_text e).
    rewrite run_bind, run_reraise, (failed_body_ok task e) by done. cbv beta iota.
    rewrite run_publish_ready by done. cbv beta iota.
    rewrite run_bind, run_fail_chunk by exact Hw2. cbv beta iota.
    apply run_fail_job. apply db_ready_set_db. exact Hw2. }
  cbn [w_db w_mq set_mq set_db db_jobs fail_job_sql fail_chunk_sql set_jobs set_chunks db_chunks].
  rewrite Hdb, <-Hmq. split_and!.
  - rewrite lookup_update_at_eq, Hj1. cbn. rewrite Ht1. reflexivity.
  - done.
  - done.
  - done.
  - intros c. rewrite lookup_update_at_eq. cbn. intros (c0 & _ & ->)%fmap_Some. done.
  - intros q. rewrite messages_published. destruct Htop as (_ & _ & Ht3 & _).
    rewrite Ht3. f_equal. rewrite (bool_decide_ext _ (q = FAILED_QUEUE cfg)) by naive_solver. done.
Qed.

(** ** Conversions that succeed *)
Definition llm_ok (use_llm : bool) : Prop := use_llm = true → get_llm_client api_key = inr tt.

(** The pages [start, end) of the file [d] convert to [text]. *)
Definition converts (use_llm : bool) (d : bytes) (range : Z * Z) (text : pystr) : Prop :=
  ∃ cd, (if range.2 =? -1 then inr d else extract_range d range.1 range.2) = inr cd ∧
    ∀ path, md_convert (if use_llm then Some (OPENAI_MODEL cfg) else None) path cd = inr text.

Lemma run_convert_file path use_llm f text w :
  llm_ok use_llm → w_files w !! (host, path) = Some f →
  (∀ p, md_convert (if use_llm then Some (OPENAI_MODEL cfg) else None) p (f_data f) = inr text) →
  run (convert_file host cfg api_key path use_llm) w = (Val text, w).
Proof.
  intros Hl Hf Hc. unfold convert_file. rewrite run_bind, run_reraise.
  assert ((if use_llm then get_llm_client api_key else inr ()) = inr tt) as ->.
  { destruct use_llm; [by apply Hl|done]. }
  rewrite run_bind. unfold read_file. rewrite run_io, Hf. rewrite run_reraise. by rewrite Hc.
Qed.

Lemma run_convert_range h d range use_llm text w :
  s3_ready w → s3_get (source_key h) (w_s3 w) = Some d → cache_only host cfg h d w →
  len d <= SOURCE_CACHE_MAX_BYTES cfg → llm_ok use_llm → converts use_llm d range text →
  ∃ t, run (convert_range host cfg api_key h range.1 range.2 use_llm) w =
    (Val text, set_files (<[(host, cache_path cfg h) := File d t]> (w_files w)) w).
Proof.
  intros Hs Hd Hc Hmax Hl (cd & Hcd & Hmd).
  destruct (run_fetch_source host cfg h d w Hs Hd Hc Hmax) as [t Hfetch]. exists t.
  unfold convert_range. rewrite run_bind, Hfetch. cbv beta iota. set (w1 := set_files _ w).
  assert (w_files w1 !! (host, cache_path cfg h) = Some (File d t)) as Hf by apply lookup_insert_eq.
  clearbody w1. destruct (range.2 =? -1) eqn:Hwhole.
  { simplify_eq. by eapply run_convert_file. }
  rewrite run_bind. unfold mkstemp. rewrite run_act. cbn [fst snd].
  set (chunk := temp_name (used_paths host w1) temp_dir (u ".pdf")).
  assert (w_files w1 !! (host, chunk) = None) as Hchunk by exact (temp_name_unused host w1 _ _).
  assert (chunk ≠ cache_path cfg h) as Hne by (intros Heq; rewrite Heq in Hchunk; congruence).
  unfold finally. rewrite run_bind, run_attempt, run_bind. unfold extract_pages. rewrite Hwhole.
  rewrite run_bind. unfold read_file. rewrite run_io. cbn [w_files set_files].
  rewrite lookup_insert_ne by congruence. rewrite Hf. cbv beta iota.
  rewrite run_bind, run_reraise. cbn [f_data]. rewrite Hcd. cbv beta iota.
  rewrite run_bind. unfold write_file. rewrite run_act. cbn [fst snd run mret prog_mret].
  rewrite (run_convert_file chunk use_llm (File cd (w_clock w1)) text);
    [|done|apply lookup_insert_eq|done].
  cbv beta iota. rewrite run_bind. unfold remove_if_exists, path_exists, remove_file.
  rewrite run_bind, run_act. cbn [fst snd w_files set_files]. rewrite insert_insert_eq.
  rewrite bool_decide_true by (rewrite lookup_insert_eq; by eexists).
  rewrite run_io. cbn [w_files set_files]. rewrite lookup_insert_eq. cbn [run reraise].
  rewrite delete_insert_id by done. by destruct w1.
Qed.
End handler.

(** ** Witnesses: a file that does not convert *)
Definition bad_task (attempt : Z) : ChunkTask :=
  Build_ChunkTask (u "j") 0 (u "h:f") (u "h") 0 (-1) 1 false attempt.

Definition bad_db : database :=
  match create_job_sql 5 (u "j") (u "h:f") (u "h") (u "http://x") [(0, -1)] false empty_db with
  | inr (_, db) => db
  | inl _ => empty_db
  end.

Definition bad_world : world map_store map_broker :=
  World 9 bad_db (MapStore true {[u "src/h" := u "!"]}) (topology_broker default_config) ∅
    {[u "w"]} {[u "w"]} {[u "w"]} ∅ [] [] [].

Lemma bad_world_ready : db_ready (u "w") bad_world ∧ mq_ready (u "w") default_config bad_world.
Proof.
  split; split_and!; try reflexivity; try (by apply elem_of_singleton). apply topology_broker_ok.
Qed.

Lemma bad_task_text attempt : task_text (bad_task attempt).
Proof. split_and!; apply u_scalar. Qed.

Definition bad_row : job := Job (u "h:f") (u "h") (u "http://x") JQueued 1 1 0 None None 5 5.

Lemma handle_drops_witness :
  run (handle (u "w") default_config None sample_task) (set_db empty_db [] bad_world) =
  (Val tt, set_db empty_db [] bad_world).
Proof.
  apply handle_drops.
  - apply db_ready_set_db, bad_world_ready.
  - intros j. cbn. rewrite lookup_empty. discriminate.
Defined.

Lemma handle_retries_witness :
  ∃ w', run (handle (u "w") default_config None (bad_task 1)) bad_world = (Val tt, w') ∧
    (∃ c', db_chunks (w_db w') !! (u "j", 0) = Some c' ∧ c_status c' = CPending) ∧
    from_bytes <$> mq_messages (u "markitdown.chunks.retry.1") (w_mq w') = [Parsed (bad_task 2)].
Proof.
  destruct (handle_retries (u "w") default_config None (bad_task 1) bad_world bad_row
    (ValueError (u "bad page"))
    (run (convert_and_store (u "w") default_config None (bad_task 1)) (started (u "w") (bad_task 1) bad_world)).2)
    as (w' & Hrun & Hrow & _ & _ & _ & _ & _ & Hq & _).
  - apply bad_world_ready.
  - apply bad_world_ready.
  - apply bad_task_text.
  - vm_compute. reflexivity.
  - reflexivity.
  - apply pair_fst_eq. vm_compute. reflexivity.
  - cbn. lia.
  - discriminate.
  - exists w'. split; [exact Hrun|]. split.
    + eexists. split; [eapply Hrow; [vm_compute; reflexivity|discriminate]|reflexivity].
    + etransitivity; [exact Hq|]. vm_compute. reflexivity.
Defined.

Lemma handle_poison_witness :
  ∃ w' j', run (handle (u "w") default_config None (bad_task 3)) bad_world = (Val tt, w') ∧
    db_jobs (w_db w') !! u "j" = Some j' ∧ j_status j' = JFailed ∧
    j_error j' = Some (u "chunk 0 failed after 3 attempts: bad page").
Proof.
  destruct (handle_poison (u "w") default_config None (bad_task 3) bad_world bad_row
    (ValueError (u "bad page"))
    (run (convert_and_store (u "w") default_config None (bad_task 3)) (started (u "w") (bad_task 3) bad_world)).2)
    as (w' & j' & Hrun & Hj & Hs & _ & He & _).
  - apply bad_world_ready.
  - apply bad_world_ready.
  - apply bad_task_text.
  - split; repeat constructor; discriminate.
  - vm_compute. reflexivity.
  - reflexivity.
  - apply pair_fst_eq. vm_compute. reflexivity.
  - cbn. lia.
  - exists w', j'. split; [exact Hrun|]. split; [exact Hj|]. split; [exact Hs|].
    rewrite He. vm_compute. reflexivity.
Defined.
