(* ===== verification/Drain.v ===== *)
(** * Draining the queue

    From the database rows and the stored source of one job to its finished
    document: whatever workers receive the job's chunks, in whatever order and
    with whatever duplicates, once every chunk has been handled the job is done
    and the stored document is the pagination of the chunks' texts joined in page
    order.  This is the refinement of the chunked pipeline to its specification,
    "convert the ranges, join, paginate". *)
From S2P Require Import Prelude PyStr Effects Utf8 Json Database Config World Db Jobstore Counter.
From S2P Require Import Files Chunker Storage Taskqueue Converter Pagination Worker Cache Handler.

(** ** The chunk indices of a job *)
Lemma elem_of_chunk_indices db jid i :
  i ∈ chunk_indices_sql jid db ↔ is_Some (db_chunks db !! (jid, i)).
Proof.
  unfold chunk_indices_sql. rewrite merge_sort_Permutation, list_elem_of_fmap. split.
  - intros ([[j' i'] c] & -> & Hin%elem_of_map_to_list). simpl in *.
    apply map_lookup_filter_Some in Hin as [Hc Hj]. simpl in Hj. subst. by exists c.
  - intros [c Hc]. exists ((jid, i), c). split; [done|]. apply elem_of_map_to_list.
    by apply map_lookup_filter_Some.
Qed.

Lemma chunk_indices_dom db jid n :
  (∀ i, is_Some (db_chunks db !! (jid, i)) ↔ 0 <= i < n) → chunk_indices_sql jid db = seqZ 0 n.
Proof.
  intros Hdom.
  assert (NoDup (chunk_indices_sql jid db)) as Hnd.
  { unfold chunk_indices_sql. rewrite merge_sort_Permutation. apply (NoDup_snd_keys _ jid).
    intros k c Hk. by apply map_lookup_filter_Some in Hk as [_ ?]. }
  apply (StronglySorted_unique Z.le).
  - unfold chunk_indices_sql. apply StronglySorted_merge_sort; apply _.
  - apply Sorted_StronglySorted; [apply _|]. unfold seqZ. generalize (Z.to_nat n) as m.
    intros m. generalize 0%nat as k. induction m as [|m IH]; intros k; simpl; constructor; [apply IH|].
    destruct m; simpl; constructor. lia.
  - apply NoDup_Permutation; [done|apply NoDup_seqZ|]. intros i.
    rewrite elem_of_chunk_indices, Hdom, elem_of_seqZ. lia.
Qed.

Lemma chunk_indices_seq db jid j :
  db_inv db → db_jobs db !! jid = Some j → chunk_indices_sql jid db = seqZ 0 (j_total_chunks j).
Proof. intros [Hjobs _] Hj. apply chunk_indices_dom. by apply (Hjobs jid j Hj). Qed.

(** ** Reading the parts back *)
Section parts.
Context {S B : Type} `{ObjectStoreLaws S} `{Codecs}.

Lemma run_get_parts D start texts (w : world S B) :
  s3_ready w →
  (∀ k text, texts !! k = Some text →
     ∃ b, encode text = inr b ∧ s3_get (part_key D (start + Z.of_nat k)) (w_s3 w) = Some b) →
  run (get_parts D (seqZ start (len texts))) w = (Val texts, w).
Proof.
  intros Hw. revert start. induction texts as [|text texts IH]; intros start Hp; [done|].
  destruct (Hp 0%nat text) as (b & Hb & Hget); [done|]. rewrite Z.add_0_r in Hget.
  rewrite len_cons, seqZ_cons by (pose proof (len_nonneg texts); lia). cbn [get_parts].
  rewrite run_bind. unfold get_part. rewrite (run_get_text _ _ text b) by done. cbv beta iota.
  rewrite run_bind. replace (Z.pred (len texts + 1)) with (len texts) by lia. rewrite IH; [done|].
  intros k text' Hk. destruct (Hp (Datatypes.S k) text' Hk) as (b' & Hb' & Hget'). exists b'.
  split; [done|]. rewrite <-Hget'. do 2 f_equal. lia.
Qed.
End parts.

(** ** The job *)
Section drain.
Context {S B : Type} `{ObjectStoreLaws S} `{BrokerLaws B} `{TempLaws} `{Codecs}.
Context (cfg : config) (api_key : option pystr).
#[local] Abbreviation world := (world S B).
Implicit Types (w : world).

(** The job's id, document key, source hash and bytes, the planned ranges and
    the texts they convert to; the hosts of the worker fleet. *)
Context (J D h : pystr) (d : bytes) (use_llm : bool) (ranges : list (Z * Z)) (texts : list pystr).
Context (hosts : list pystr).

(** The task of chunk [i]. *)
Definition chunk_task (i : nat) (attempt : Z) : ChunkTask :=
  let r := default (0, 0) (ranges !! i) in
  Build_ChunkTask J (Z.of_nat i) D h r.1 r.2 (len ranges) use_llm attempt.

(** What the pipeline is to compute. *)
Definition job_markdown : pystr := join_parts texts.
Definition job_pages : list pystr :=
  default [] (paginate (length job_markdown) job_markdown (PAGE_SIZE cfg)).

(** The conversion of every range succeeds, on every worker. *)
Definition job_converts : Prop :=
  length texts = length ranges ∧ Forall encodable texts ∧ encodable D ∧ 1 <= PAGE_SIZE cfg ∧
  len d <= SOURCE_CACHE_MAX_BYTES cfg ∧ llm_ok api_key use_llm ∧
  ∀ i r text, ranges !! i = Some r → texts !! i = Some text → converts cfg use_llm d r text.

(** The services work, the source is stored, and the workers' caches hold no
    other document. *)
Definition fleet_ready w : Prop :=
  s3_ready w ∧ s3_get (source_key h) (w_s3 w) = Some d ∧
  ∀ host, host ∈ hosts → db_ready host w ∧ cache_only host cfg h d w.

(** The parts of the chunks recorded as done are stored. *)
Definition parts_stored w : Prop :=
  ∀ i c, db_chunks (w_db w) !! (J, Z.of_nat i) = Some c → c_status c = CDone →
    ∃ text b, texts !! i = Some text ∧ encode text = inr b ∧
      s3_get (part_key D (Z.of_nat i)) (w_s3 w) = Some b.

Definition job_row (j : job) : Prop :=
  j_doc_key j = D ∧ j_file_hash j = h ∧ j_total_chunks j = len ranges.

(** The document is in the bucket and in the database. *)
Definition finished w : Prop :=
  document_stored cfg D job_pages (len job_markdown) (w_s3 w) ∧
  ∃ row, db_documents (w_db w) !! D = Some row ∧ d_file_hash row = h ∧
    d_total_pages row = len job_pages ∧ d_total_chunks row = len ranges ∧
    d_total_length row = len job_markdown ∧ d_page_size row = PAGE_SIZE cfg.

(** In progress: the chunks in [seen] are done, some chunk is not. *)
Definition in_progress (seen : list nat) w : Prop :=
  ∃ j, db_jobs (w_db w) !! J = Some j ∧ job_row j ∧ terminal (j_status j) = false ∧
    parts_stored w ∧ 0 < not_done (w_db w) J ∧
    ∀ i c, i ∈ seen → db_chunks (w_db w) !! (J, Z.of_nat i) = Some c → c_status c = CDone.

Definition completed w : Prop :=
  (∃ j, db_jobs (w_db w) !! J = Some j ∧ job_row j ∧ j_status j = JDone) ∧ finished w.

Definition drain_inv (seen : list nat) w : Prop :=
  fleet_ready w ∧ db_inv (w_db w) ∧ (in_progress seen w ∨ completed w).

Lemma source_part_ne h' D' i : source_key h' ≠ part_key D' i.
Proof. discriminate. Qed.
Lemma source_manifest_ne h' D' : source_key h' ≠ manifest_key D'.
Proof. discriminate. Qed.
Lemma source_page_ne h' D' i : source_key h' ≠ page_key D' i.
Proof. discriminate. Qed.

(** ** The readiness of the fleet is kept *)
Lemma fleet_ready_set_db db w : fleet_ready w → fleet_ready (set_db db [] w).
Proof.
  intros (Hs & Hd & Hh). split_and!; [done|done|]. intros host Hin. destruct (Hh host Hin) as [Hr Hc].
  split; [by apply db_ready_set_db|done].
Qed.

Lemma fleet_ready_set_s3 s w :
  fleet_ready w → s3_bucket s = true → s3_get (source_key h) s = Some d → fleet_ready (set_s3 s [] w).
Proof. intros (Hs & Hd & Hh) Hb Hg. split_and!; [by split|done|]. intros host Hin. by destruct (Hh host Hin). Qed.

Lemma fleet_ready_set_files host t w :
  fleet_ready w → fleet_ready (set_files (<[(host, cache_path cfg h) := File d t]> (w_files w)) w).
Proof.
  intros (Hs & Hd & Hh). split_and!; [done|done|]. intros host' Hin. destruct (Hh host' Hin) as [Hr Hc].
  split; [done|]. destruct (decide (host = host')) as [->|Hne]; [by apply cache_only_insert|].
  destruct Hc as [Hc1 Hc2]. split; simpl.
  - intros p f. rewrite lookup_insert_ne by congruence. apply Hc1.
  - intros f. rewrite lookup_insert_ne by congruence. apply Hc2.
Qed.

(** ** One conversion *)
Definition after_store host (i : nat) (b : bytes) (t : Z) w : world :=
  set_s3 (s3_put (part_key D (Z.of_nat i)) b (w_s3 w)) []
    (set_files (<[(host, cache_path cfg h) := File d t]> (w_files w)) w).

Lemma run_convert_and_store host i attempt w :
  job_converts → fleet_ready w → host ∈ hosts → (i < length ranges)%nat →
  ∃ text b t, texts !! i = Some text ∧ encode text = inr b ∧
    run (convert_and_store host cfg api_key (chunk_task i attempt)) w =
      (Val (part_key D (Z.of_nat i)), after_store host i b t w) ∧
    fleet_ready (after_store host i b t w).
Proof.
  intros (Hlen & Henc & HencD & Hps & Hmax & Hllm & Hconv) Hw Hin Hi.
  destruct (lookup_lt_is_Some_2 ranges i Hi) as [r Hr].
  destruct (lookup_lt_is_Some_2 texts i) as [text Ht]; [lia|].
  destruct (encode_ok text) as [b Hb]; [by eapply Forall_lookup_1 in Henc|].
  pose proof Hw as (Hs & Hd & Hh). destruct (Hh host Hin) as [Hr' Hc].
  destruct (run_convert_range host cfg api_key h d r use_llm text w Hs Hd Hc Hmax Hllm) as [t Hrun].
  { by eapply Hconv. }
  exists text, b, t. split_and!; [done|done| |].
  - assert (chunk_task i attempt =
      Build_ChunkTask J (Z.of_nat i) D h r.1 r.2 (len ranges) use_llm attempt) as ->
      by (unfold chunk_task; by rewrite Hr).
    unfold convert_and_store.
    cbn [t_file_hash t_start_page t_end_page t_use_llm t_doc_key t_chunk_index].
    rewrite run_bind, Hrun. cbv beta iota.
    unfold put_part. rewrite run_bind, run_reraise, Hb. cbv beta iota.
    rewrite run_bind, run_put_bytes; [done|]. exact Hs.
  - apply fleet_ready_set_s3.
    + by apply fleet_ready_set_files.
    + rewrite s3_bucket_put. apply Hs.
    + rewrite s3_get_put_ne; [done|]. apply not_eq_sym, source_part_ne.
Qed.

(** ** Assembly *)
Definition after_assembly w : world :=
  set_db (finish_job_sql (w_clock w) J
            (record_document_sql cfg (w_clock w) D h (len job_pages) (len ranges) (len job_markdown)
               (PAGE_SIZE cfg) (w_db w))) []
    (set_s3 (stored_document cfg D job_pages (len job_markdown) (w_s3 w)) [] w).

Lemma job_markdown_encodable : Forall encodable texts → encodable job_markdown.
Proof.
  intros Ht. unfold job_markdown, join_parts. apply Forall_join; [by repeat constructor|].
  rewrite Forall_forall in *. intros p [_ Hp]%list_elem_of_filter. by apply Ht.
Qed.

Lemma job_pages_ok :
  job_converts → paginate (length job_markdown) job_markdown (PAGE_SIZE cfg) = Some job_pages ∧
  Forall encodable job_pages.
Proof.
  intros (_ & Henc & _ & Hps & _). unfold job_pages.
  destruct (paginate_total job_markdown (PAGE_SIZE cfg) Hps) as [pages Hp]. rewrite Hp. split; [done|].
  eapply woven_Forall; [by eapply paginate_woven|by apply job_markdown_encodable].
Qed.

Lemma run_assemble host j w :
  job_converts → s3_ready w → db_ready host w → db_inv (w_db w) →
  db_jobs (w_db w) !! J = Some j → job_row j →
  (∀ i text, texts !! i = Some text →
     ∃ b, encode text = inr b ∧ s3_get (part_key D (Z.of_nat i)) (w_s3 w) = Some b) →
  run (assemble host cfg J (Some j)) w = (Val tt, after_assembly w).
Proof.
  intros Hjc Hs Hr Hinv Hj (HD & Hh & Hn) Hparts. pose proof Hjc as (Hlen & Henc & HencD & _).
  destruct (job_pages_ok Hjc) as [Hp Hpenc].
  cbn [assemble]. rewrite HD, Hh, Hn. rewrite run_bind. unfold chunk_indices. rewrite run_query by done.
  cbv beta iota. rewrite (set_db_same w) by apply Hr.
  rewrite (chunk_indices_seq _ _ j) by done. rewrite Hn.
  replace (len ranges) with (len texts) at 1 by (unfold len; lia).
  rewrite run_bind, run_get_parts by done. cbv beta iota.
  rewrite run_bind. unfold paginate_or_spin. fold job_markdown. rewrite Hp. cbn [run mret prog_mret].
  rewrite run_bind, run_put_document by done. cbv beta iota.
  rewrite run_bind. unfold record_document.
  rewrite (run_timed_execute host (λ ts, record_document_sql cfg ts D h (len job_pages) (len ranges)
    (len job_markdown) (PAGE_SIZE cfg))) by exact Hr.
  cbv beta iota. rewrite run_finish_job; [done|]. apply db_ready_set_db. exact Hr.
Qed.

(** ** One delivery *)
Lemma started_done host task w k :
  (∃ c, db_chunks (w_db w) !! k = Some c ∧ c_status c = CDone) ↔
  (∃ c, db_chunks (w_db (started host task w)) !! k = Some c ∧ c_status c = CDone).
Proof.
  destruct (started_chunk host task w k) as [Heq|(-> & c & c' & Hc & Hnd & Hc' & Hr)].
  - destruct (db_chunks (w_db w) !! k), (db_chunks (w_db (started host task w)) !! k);
      simplify_eq/=; naive_solver congruence.
  - rewrite Hc, Hc'. naive_solver congruence.
Qed.

Lemma started_inv host task w : db_inv (w_db w) → db_inv (w_db (started host task w)).
Proof. intros Hinv. by apply start_job_inv, start_chunk_inv. Qed.

(** Storing the part of chunk [i] keeps the parts that were stored. *)
Lemma part_after_store host i b t w i' text :
  texts !! i = Some text → encode text = inr b →
  (∃ text' b', texts !! i' = Some text' ∧ encode text' = inr b' ∧
     s3_get (part_key D (Z.of_nat i')) (w_s3 w) = Some b') ∨ i' = i →
  ∃ text' b', texts !! i' = Some text' ∧ encode text' = inr b' ∧
    s3_get (part_key D (Z.of_nat i')) (w_s3 (after_store host i b t w)) = Some b'.
Proof.
  intros Ht Hb Hor. destruct (decide (i' = i)) as [->|Hne].
  { exists text, b. split_and!; [done|done|]. apply s3_get_put. }
  destruct Hor as [(text' & b' & Ht' & Hb' & Hg)|]; [|done]. exists text', b'.
  split_and!; [done|done|]. simpl. rewrite s3_get_put_ne; [done|].
  intros [_ Heq]%part_key_inj; lia.
Qed.

(** The end of the delivery that completes the last chunk. *)
Lemma run_last host w j :
  job_converts → fleet_ready w → host ∈ hosts → db_inv (w_db w) →
  db_jobs (w_db w) !! J = Some j → job_row j →
  (∀ i c, db_chunks (w_db w) !! (J, i) = Some c → c_status c = CDone) → parts_stored w →
  run (r ← attempt (job ← get_job host J; assemble host cfg J job);
       match r with
       | inr _ => mret tt
       | inl exc => fail_job host J (u "assembly failed: " ++ exn_str exc) None
       end) w = (Val tt, after_assembly w) ∧
  fleet_ready (after_assembly w) ∧ db_inv (w_db (after_assembly w)) ∧ completed (after_assembly w).
Proof.
  intros Hjc Hw Hin Hinv Hj Hrow Hall Hparts.
  pose proof Hw as (Hs & Hd & Hh). destruct (Hh host Hin) as [Hr _].
  pose proof Hjc as (Hlen & _). split_and!.
  - rewrite run_bind, run_attempt, run_bind, run_get_job by done. cbv beta iota.
    rewrite set_db_same by apply Hr. rewrite Hj.
    rewrite (run_assemble host j w); try done.
    intros k text Hk. destruct Hinv as [Hjobs _]. destruct (Hjobs J j Hj) as [Hdom _].
    destruct (proj2 (Hdom (Z.of_nat k))) as [c Hc].
    { rewrite (proj2 (proj2 Hrow)). apply lookup_lt_Some in Hk. unfold len. lia. }
    destruct (Hparts k c Hc (Hall _ _ Hc)) as (text' & b & Ht' & Hb & Hg). simplify_eq. eauto.
  - apply fleet_ready_set_db, fleet_ready_set_s3; [done| |].
    + unfold stored_document. rewrite s3_bucket_put, bucket_stored_pages. apply Hs.
    + rewrite stored_document_other; [done|apply source_manifest_ne|intros; apply source_page_ne].
  - by apply finish_job_inv, record_document_inv.
  - split.
    + eexists. split_and!.
      * cbn. rewrite lookup_update_at_eq, Hj. reflexivity.
      * exact Hrow.
      * done.
    + split.
      * apply stored_document_spec. by apply job_pages_ok.
      * eexists. split; [cbn; apply lookup_insert_eq|]. done.
Qed.

(** Starting a chunk and storing its part keep the job in progress. *)
Lemma stored_in_progress host i att text b t seen w :
  db_inv (w_db w) → in_progress seen w → texts !! i = Some text → encode text = inr b →
  in_progress seen (after_store host i b t (started host (chunk_task i att) w)).
Proof.
  intros Hinv (j & Hj & Hrow & Hact & Hparts & Hpos & Hseen) Ht Hb. set (task := chunk_task i att).
  destruct (started_job host task w j Hj) as (j1 & Hj1 & Ht1 & Hrem1 & Hn1 & HD1 & Hh1).
  pose proof (started_inv host task w Hinv) as Hinv1.
  exists j1. split_and!; [exact Hj1| |congruence| | |].
  - destruct Hrow as (? & ? & ?). split_and!; congruence.
  - intros i' c Hc Hcd. eapply part_after_store; [done|done|left]. cbn [w_s3 started set_db].
    destruct (proj2 (started_done host task w (J, Z.of_nat i'))) as (c0 & Hc0 & Hd0); [by exists c|].
    by apply (Hparts i' c0).
  - destruct Hinv as [Hjobs _], Hinv1 as [Hjobs1 _].
    change (w_db (after_store host i b t (started host task w))) with (w_db (started host task w)).
    rewrite <-(proj2 (Hjobs1 J j1 Hj1)) by congruence. by rewrite Hrem1, (proj2 (Hjobs J j Hj) Hact).
  - intros i' c Hi' Hc. destruct Hinv as [Hjobs _], Hinv1 as [Hjobs1 _].
    assert (is_Some (db_chunks (w_db w) !! (J, Z.of_nat i'))) as [c0 Hc0].
    { apply (proj1 (Hjobs J j Hj)). rewrite <-Hn1. apply (proj1 (Hjobs1 J j1 Hj1)). by exists c. }
    destruct (proj1 (started_done host task w (J, Z.of_nat i'))) as (c1 & Hc1 & Hd1);
      [exists c0; split; [done|by eapply Hseen]|].
    cbn [w_db after_store set_s3 set_files] in Hc. congruence.
Qed.

(** Chunk [i], not recorded so far, is recorded, and was not the last. *)
Definition recorded (i : nat) (c : chunk) (j : job) w : world :=
  set_db (set_jobs <[J := decremented (w_clock w) j]>
    (set_chunks <[(J, Z.of_nat i) := done_row (w_clock w) (part_key D (Z.of_nat i)) c]> (w_db w))) [] w.

Lemma recorded_parts i c j text b w :
  parts_stored w → texts !! i = Some text → encode text = inr b →
  s3_get (part_key D (Z.of_nat i)) (w_s3 w) = Some b → parts_stored (recorded i c j w).
Proof.
  intros Hparts Ht Hb Hg i' c' Hc' Hcd. cbn in Hc'. destruct (decide (i' = i)) as [->|Hne]; [by eauto|].
  rewrite lookup_insert_ne in Hc' by (intros [= ?]; lia). by apply (Hparts i' c').
Qed.

Lemma recorded_seen i c j seen w :
  (∀ i c, i ∈ seen → db_chunks (w_db w) !! (J, Z.of_nat i) = Some c → c_status c = CDone) →
  ∀ i' c', i' ∈ i :: seen → db_chunks (w_db (recorded i c j w)) !! (J, Z.of_nat i') = Some c' →
    c_status c' = CDone.
Proof.
  intros Hseen i' c' Hi' Hc'. cbn in Hc'.
  destruct (decide (i' = i)) as [->|Hne]; [by rewrite lookup_insert_eq in Hc'; simplify_eq|].
  rewrite lookup_insert_ne in Hc' by (intros [= ?]; lia). apply elem_of_cons in Hi' as [?|Hi']; [done|].
  by apply (Hseen i').
Qed.

(** Nothing was sent or received, and no worker was asked to stop. *)
Definition broker_same w w' : Prop :=
  w_mq w' = w_mq w ∧ w_mq_faults w' = w_mq_faults w ∧ w_stop w' = w_stop w.

(** The end of a delivery whose part is stored. *)
Lemma finish_step host i att text b seen w :
  job_converts → fleet_ready w → host ∈ hosts → db_inv (w_db w) → in_progress seen w →
  texts !! i = Some text → encode text = inr b →
  s3_get (part_key D (Z.of_nat i)) (w_s3 w) = Some b →
  ∃ w', run (finish_delivery host cfg (chunk_task i att) (inr (part_key D (Z.of_nat i)))) w = (Val tt, w') ∧
    drain_inv (i :: seen) w' ∧ broker_same w w'.
Proof.
  intros Hjc Hw Hin Hinv (j & Hj & Hrow & Hact & Hparts & Hpos & Hseen) Ht Hb Hg.
  cbn [finish_delivery t_job_id t_chunk_index chunk_task].
  rewrite run_bind, run_complete_chunk by (apply Hw, Hin). cbv beta iota.
  destruct (complete_chunk_cases (w_clock w) J (Z.of_nat i) (part_key D (Z.of_nat i)) (w_db w))
    as [[-> Hdone]|[(c & Hc & Hnd & Hterm & _)|(c & j' & Hc & Hnd & Hj' & Hact' & Heq)]].
  - (* redelivery of a recorded chunk *)
    cbn [fst snd]. eexists. split; [reflexivity|]. split; [|done].
    split_and!; [by apply fleet_ready_set_db|done|left]. exists j. split_and!; [done..|]. intros i' c [->|Hi']%elem_of_cons Hc; [by eapply Hdone|].
    by apply (Hseen i').
  - by rewrite (Hterm j Hj) in Hact.
  - (* a chunk recorded for the first time *)
    assert (j' = j) as -> by congruence.
    pose proof (complete_chunk_inv (w_clock w) J (Z.of_nat i) (part_key D (Z.of_nat i)) _ Hinv)
      as Hinv3. rewrite Heq in *. cbn [fst snd] in *. fold (recorded i c j w).
    assert (db_jobs (w_db (recorded i c j w)) !! J = Some (decremented (w_clock w) j)) as Hj3
      by apply lookup_insert_eq.
    assert (j_remaining_chunks j - 1 = not_done (w_db (recorded i c j w)) J) as Hcnt
      by (destruct Hinv3 as [Hjobs3 _]; by apply (Hjobs3 J _ Hj3)).
    pose proof (recorded_parts i c j text b w Hparts Ht Hb Hg) as Hparts3.
    assert (fleet_ready (recorded i c j w)) as Hw3 by (by apply fleet_ready_set_db).
    destruct (Z.eqb_spec (j_remaining_chunks j - 1) 0) as [Hz|Hnz].
    + destruct (run_last host (recorded i c j w) (decremented (w_clock w) j)) as (Hlast & Hw4 & Hinv4 & Hcomp);
        try done.
      { apply not_done_zero_iff. lia. }
      eexists. split; [exact Hlast|]. split; [|done]. split_and!; [done|done|by right].
    + exists (recorded i c j w). split; [done|]. split; [|done]. split_and!; [done|done|left].
      exists (decremented (w_clock w) j). split_and!; [done|done|done|done| |by apply recorded_seen].
      pose proof (not_done_nonneg (w_db (recorded i c j w)) J). lia.
Qed.

Lemma handle_step host i att seen w :
  job_converts → drain_inv seen w → host ∈ hosts → (i < length ranges)%nat →
  ∃ w', run (handle host cfg api_key (chunk_task i att)) w = (Val tt, w') ∧ drain_inv (i :: seen) w' ∧
    broker_same w w'.
Proof.
  intros Hjc (Hw & Hinv & Hst) Hin Hi. pose proof Hw as (Hs & Hd & Hh). destruct (Hh host Hin) as [Hr _].
  destruct Hst as [Hprog|Hcomp].
  - set (task := chunk_task i att).
    destruct (run_convert_and_store host i att (started host task w) Hjc)
      as (text & b & t & Ht & Hb & Hrun & Hw2); [by apply fleet_ready_set_db|done|done|].
    pose proof Hprog as (j & Hj & _ & Hact & _). rewrite (run_handle_active host cfg api_key task w j) by done.
    fold task in Hrun. rewrite run_bind, run_attempt, Hrun. cbv beta iota.
    edestruct (finish_step host i att text b seen) as (w' & Hfin & Hinv' & Hb');
      [done|exact Hw2|done|..|by exists w']; [| |done|done|apply s3_get_put].
    + by apply started_inv.
    + by apply stored_in_progress with (text := text).
  - exists w. pose proof Hcomp as [(j & Hj & _ & Hst) _]. split.
    + apply run_handle_dropped; [done|]. intros j' Hj'. cbn in Hj'. simplify_eq. by rewrite Hst.
    + split; [|done]. split_and!; [done|done|by right].
Qed.

(** ** Sequences of deliveries *)

(** A delivery: which worker, which chunk, which attempt. *)
Definition delivery : Type := pystr * nat * Z.

Fixpoint deliver_all (ds : list delivery) : prog world unit :=
  match ds with
  | [] => mret tt
  | (host, i, att) :: ds => _ ← handle host cfg api_key (chunk_task i att); deliver_all ds
  end.

Definition valid_delivery (dl : delivery) : Prop := dl.1.1 ∈ hosts ∧ (dl.1.2 < length ranges)%nat.

Lemma deliver_all_inv ds seen w :
  job_converts → drain_inv seen w → Forall valid_delivery ds →
  ∃ w', run (deliver_all ds) w = (Val tt, w') ∧ drain_inv (reverse (ds.*1.*2) ++ seen) w'.
Proof.
  intros Hjc. revert seen w. induction ds as [|[[host i] att] ds IH]; intros seen w Hw Hds; [by exists w|].
  apply Forall_cons in Hds as [[Hin Hi] Hds]. cbn in Hin, Hi.
  destruct (handle_step host i att seen w) as (w1 & Hrun & Hw1 & _); try done.
  destruct (IH (i :: seen) w1) as (w' & Hrun' & Hw'); try done.
  exists w'. cbn [deliver_all]. rewrite run_bind, Hrun, Hrun'. split; [done|].
  rewrite !fmap_cons, reverse_cons, <-(assoc_L (++)). done.
Qed.

Lemma drain_inv_covered seen w :
  drain_inv seen w → (∀ i, (i < length ranges)%nat → i ∈ seen) → completed w.
Proof.
  intros (_ & [Hjobs _] & [(j & Hj & Hrow & Hact & _ & Hpos & Hseen)|]) Hcov; [|done]. exfalso.
  destruct (Hjobs J j Hj) as [Hdom _]. assert (not_done (w_db w) J = 0); [|lia].
  apply not_done_zero_iff. intros i c Hc.
  assert (0 <= i < j_total_chunks j) as Hi by (apply Hdom; by exists c).
  rewrite (proj2 (proj2 Hrow)) in Hi. unfold len in Hi.
  apply (Hseen (Z.to_nat i)); [apply Hcov; lia|]. by rewrite Z2Nat.id by lia.
Qed.

Lemma created_in_progress ts url db w :
  ranges ≠ [] → db_inv db → create_job_sql ts J D h url ranges use_llm db = inr (tt, w_db w) →
  fleet_ready w → drain_inv [] w.
Proof.
  intros Hne Hdb Hcreate Hw. pose proof (create_job_inv _ _ _ _ _ _ _ _ _ Hcreate Hdb) as Hinv.
  split_and!; [done|done|left]. unfold create_job_sql, sql_insert in Hcreate.
  destruct (db_jobs db !! J) eqn:Hnone; [done|]. simpl in Hcreate.
  destruct (insert_chunks _ _ _ _ _) as [|db1] eqn:Hins; [done|]. injection Hcreate as Hdb1. subst db1.
  apply insert_chunks_spec in Hins as (Hjs & _ & _ & _ & Hrows & _). simpl in Hjs, Hrows.
  eexists. split; [rewrite Hjs; apply lookup_insert_eq|]. split_and!; [done|done| | |set_solver].
  - intros i c. rewrite Hrows. case_decide.
    + intros (r & _ & ->)%fmap_Some. done.
    + intros Hc _. destruct Hdb as [_ Hch]. destruct (Hch _ _ _ Hc) as [[j Hj] _]. congruence.
  - destruct Hinv as [Hjobs _].
    rewrite <-(proj2 (Hjobs J _ ltac:(rewrite Hjs; apply lookup_insert_eq))) by done. cbn.
    assert (len ranges ≠ 0) by (by rewrite len_zero_iff). pose proof (len_nonneg ranges). lia.
Qed.

Lemma drain_completes (ds : list delivery) (ts : Z) (url : pystr) (db : database) w :
  job_converts → ranges ≠ [] → db_inv db →
  create_job_sql ts J D h url ranges use_llm db = inr (tt, w_db w) → fleet_ready w →
  Forall valid_delivery ds → (∀ i, (i < length ranges)%nat → i ∈ ds.*1.*2) →
  ∃ w', run (deliver_all ds) w = (Val tt, w') ∧ completed w'.
Proof.
  intros Hjc Hne Hdb Hcreate Hw Hds Hcov.
  destruct (deliver_all_inv ds [] w) as (w' & Hrun & Hinv); [done|by eapply created_in_progress|done|].
  exists w'. split; [done|]. eapply drain_inv_covered; [done|]. intros i Hi.
  rewrite app_nil_r. apply elem_of_reverse. by apply Hcov.
Qed.

(** C5: The pipeline computes the document.  Take a job as [create_job] wrote it,
    its source in the bucket, and let any workers of the fleet handle any sequence
    of deliveries of its chunks: in any order, with any duplicates, on any worker,
    as long as every chunk is delivered at least once.  Then every delivery is
    handled without an error, the job is [done], the document row is recorded, and
    the stored manifest and pages are those of the pagination of the converted
    chunks joined in page order. *)
Theorem drain_refines (ds : list delivery) (ts : Z) (url : pystr) (db : database) w :
  job_converts → ranges ≠ [] → db_inv db →
  create_job_sql ts J D h url ranges use_llm db = inr (tt, w_db w) → fleet_ready w →
  Forall valid_delivery ds → (∀ i, (i < length ranges)%nat → i ∈ ds.*1.*2) →
  ∃ w', run (deliver_all ds) w = (Val tt, w') ∧ completed w'.
Proof. apply drain_completes. Qed.

(** ** Workers that read the queue *)
Section fleet.
Context (liveness_file : pystr) (ill_typed : list (pystr * json) → prog world unit).

(** The workers of [schedule], one after the other, each take one turn of the
    consume loop: the next delivery of the work queue, handled and acknowledged. *)
Fixpoint fleet_turns (schedule : list pystr) : prog world unit :=
  match schedule with
  | [] => mret tt
  | host :: rest =>
      _ ← consume_step host cfg (on_task host cfg api_key liveness_file) ill_typed;
      fleet_turns rest
  end.

(** The liveness file is no file of the source cache. *)
Definition liveness_apart : Prop :=
  in_dir (SOURCE_CACHE_DIR cfg) liveness_file = false ∧ liveness_file ≠ cache_path cfg h.

Lemma run_touch host w :
  run (touch_liveness host liveness_file) w =
  (Val tt, set_files (<[(host, liveness_file) := File (str_of_Z (w_clock w)) (w_clock w)]> (w_files w)) w).
Proof. done. Qed.

Lemma drain_inv_touch host data t seen w :
  liveness_apart → drain_inv seen w →
  drain_inv seen (set_files (<[(host, liveness_file) := File data t]> (w_files w)) w).
Proof.
  intros [Hdir Hne] ((Hs & Hd & Hh) & Hinv & Hst). split; [|by split].
  split_and!; [done|done|]. intros host' Hin. destruct (Hh host' Hin) as [Hr [Hc1 Hc2]].
  split; [done|]. split; cbn [w_files set_files].
  - intros p f. rewrite lookup_insert_Some. intros [[[= _ <-] _]|[_ Hf]]; [by rewrite Hdir|by eapply Hc1].
  - intros f. rewrite lookup_insert_ne by (intros [= _ ?]; done). apply Hc2.
Qed.

(** A turn with a message: the message is consumed and its chunk handled. *)
Lemma turn_step host i att body rest seen w :
  job_converts → liveness_apart → drain_inv seen w → host ∈ hosts → host ∉ w_stop w → w_mq_faults w = [] →
  mq_messages (RABBITMQ_QUEUE cfg) (w_mq w) = body :: rest →
  from_bytes body = Parsed (chunk_task i att) → (i < length ranges)%nat →
  ∃ w', run (consume_step host cfg (on_task host cfg api_key liveness_file) ill_typed) w = (Val true, w') ∧
    drain_inv (i :: seen) w' ∧ mq_messages (RABBITMQ_QUEUE cfg) (w_mq w') = rest ∧
    w_mq_faults w' = [] ∧ w_stop w' = w_stop w.
Proof.
  intros Hjc Hlive Hinv Hin Hstop Hf Hm Hbody Hi.
  destruct (run_deliver cfg body rest w Hf Hm) as (tag & b & Hrun & _ & Hq & _).
  set (w1 := set_mq b [] w) in *.
  assert (drain_inv seen w1) as Hinv1 by exact Hinv.
  pose proof (drain_inv_touch host (str_of_Z (w_clock w1)) (w_clock w1) seen w1 Hlive Hinv1) as Hinv2.
  destruct (handle_step host i att seen _ Hjc Hinv2 Hin Hi) as (w3 & Hhandle & Hinv3 & Hmq & Hmf & Hst).
  exists (set_mq (mq_ack tag (w_mq w3)) [] w3). split.
  - unfold consume_step. rewrite run_bind, Hrun. cbv beta iota.
    rewrite run_bind, run_should_stop by done. cbv beta iota. rewrite Hbody. unfold finally.
    rewrite run_bind, run_bind, run_attempt. unfold on_task. rewrite run_bind, run_touch. cbv beta iota.
    rewrite run_bind, run_attempt, Hhandle. cbn [run mret prog_mret].
    rewrite run_bind, run_ack by (rewrite Hmf; done). done.
  - split_and!; [exact Hinv3| |done|exact Hst]. cbn [w_mq set_mq].
    rewrite mq_messages_ack, Hmq. exact Hq.
Qed.

(** A turn on an empty queue: nothing happens. *)
Lemma turn_idle host w :
  host ∉ w_stop w → w_mq_faults w = [] → mq_messages (RABBITMQ_QUEUE cfg) (w_mq w) = [] →
  run (consume_step host cfg (on_task host cfg api_key liveness_file) ill_typed) w = (Val true, w).
Proof.
  intros Hstop Hf Hm. unfold consume_step. rewrite run_bind, run_mq_call by done.
  pose proof (mq_deliver_spec (RABBITMQ_QUEUE cfg) (w_mq w)) as Hd. rewrite Hm in Hd. rewrite Hd.
  cbv beta iota. assert (set_mq (w_mq w) [] w = w) as -> by (destruct w; simpl in *; by subst).
  by rewrite run_bind, run_should_stop.
Qed.

(** Enough turns: every message on the queue has been handled. *)
Lemma fleet_turns_inv schedule tasks seen w :
  job_converts → liveness_apart → drain_inv seen w → w_mq_faults w = [] →
  Forall (λ host, host ∈ hosts ∧ host ∉ w_stop w) schedule →
  from_bytes <$> mq_messages (RABBITMQ_QUEUE cfg) (w_mq w) = (λ t, Parsed (chunk_task t.1 t.2)) <$> tasks →
  Forall (λ t, (t.1 < length ranges)%nat) tasks → (length tasks <= length schedule)%nat →
  ∃ w', run (fleet_turns schedule) w = (Val tt, w') ∧ drain_inv (reverse tasks.*1 ++ seen) w' ∧
    mq_messages (RABBITMQ_QUEUE cfg) (w_mq w') = [].
Proof.
  intros Hjc Hlive. revert tasks seen w.
  induction schedule as [|host schedule IH]; intros tasks seen w Hinv Hf Hsch Hq Htasks Hlen.
  { destruct tasks; [|simpl in Hlen; lia]. apply fmap_nil_inv in Hq. by exists w. }
  apply Forall_cons in Hsch as [[Hin Hstop] Hsch]. cbn [fleet_turns].
  destruct (mq_messages (RABBITMQ_QUEUE cfg) (w_mq w)) as [|body rest] eqn:Hm; simpl in Hq.
  - symmetry in Hq. apply fmap_nil_inv in Hq as ->.
    rewrite run_bind, turn_idle by done. cbv beta iota.
    apply (IH [] seen w); [done|done|done|by rewrite Hm|done|simpl; lia].
  - destruct tasks as [|[i att] tasks]; [done|]. injection Hq as Hbody Hq.
    apply Forall_cons in Htasks as [Hi Htasks].
    destruct (turn_step host i att body rest seen w) as (w1 & Hrun & Hinv1 & Hm1 & Hf1 & Hst1); try done.
    destruct (IH tasks (i :: seen) w1) as (w' & Hrun' & Hinv' & Hm');
      [done|done|by rewrite Hst1|by rewrite Hm1|done|simpl in Hlen; lia|].
    exists w'. rewrite run_bind, Hrun. cbv beta iota. split; [done|].
    rewrite fmap_cons, reverse_cons, <-(assoc_L (++)). done.
Qed.
End fleet.

(** ** When the assembler dies *)

(** The last chunk was recorded, and the worker that was to assemble the document
    died before it could. *)
Definition orphaned w : Prop :=
  fleet_ready w ∧ db_inv (w_db w) ∧ s3_get (manifest_key D) (w_s3 w) = None ∧
  ∃ j, db_jobs (w_db w) !! J = Some j ∧ job_row j ∧ terminal (j_status j) = false ∧
    ∀ i c, db_chunks (w_db w) !! (J, i) = Some c → c_status c = CDone.

Lemma handle_orphaned host i att w :
  job_converts → orphaned w → host ∈ hosts → (i < length ranges)%nat →
  ∃ w', run (handle host cfg api_key (chunk_task i att)) w = (Val tt, w') ∧ orphaned w'.
Proof.
  intros Hjc (Hw & Hinv & Hm & j & Hj & Hrow & Hact & Hall) Hin Hi.
  pose proof Hw as (Hs & Hd & Hh). destruct (Hh host Hin) as [Hr _].
  set (task := chunk_task i att).
  destruct (run_convert_and_store host i att (started host task w) Hjc) as (text & b & t & Ht & Hb & Hrun & Hw2);
    [by apply fleet_ready_set_db|done|done|]. fold task in Hrun.
  set (w2 := after_store host i b t (started host task w)) in *.
  destruct (started_job host task w j Hj) as (j1 & Hj1 & Ht1 & _ & Hn1 & HD1 & Hh1). rewrite Hact in Ht1.
  pose proof (started_inv host task w Hinv) as Hinv1.
  assert (∀ i' c, db_chunks (w_db w2) !! (J, i') = Some c → c_status c = CDone) as Hall2.
  { intros i' c Hc. destruct (started_chunk host task w (J, i')) as [Heq|(_ & c0 & c1 & Hc0 & Hnd & _)].
    - change (w_db (started host task w)) with (w_db w2) in Heq. rewrite Hc in Heq.
      destruct (db_chunks (w_db w) !! (J, i')) as [c0|] eqn:Hc0; simplify_eq/=.
      assert (c_status c0 = CDone) by (by eapply Hall). congruence.
    - exfalso. by eapply Hnd, Hall. }
  exists (set_db (w_db w2) [] w2). split.
  - rewrite (run_handle_active host cfg api_key task w j) by done.
    rewrite run_bind, run_attempt, Hrun. cbv beta iota. cbn [finish_delivery].
    rewrite run_bind, run_complete_chunk by (apply Hw2, Hin).
    change (t_job_id task) with J. change (t_chunk_index task) with (Z.of_nat i).
    rewrite complete_chunk_stale by (intros c; apply Hall2). reflexivity.
  - split_and!; [by apply fleet_ready_set_db|exact Hinv1| |].
    + cbn. rewrite s3_get_put_ne; [done|]. discriminate.
    + exists j1. split_and!; [exact Hj1| |done|exact Hall2].
      destruct Hrow as (? & ? & ?). split_and!; congruence.
Qed.

(** C25: A worker that dies between recording the last chunk and finishing the
    assembly orphans the job: redeliveries find every chunk already recorded, so
    however many there are, on however many workers, no delivery assembles the
    document, and the job stays active for ever. *)
Theorem orphaned_for_ever (ds : list delivery) w :
  job_converts → orphaned w → Forall valid_delivery ds →
  ∃ w', run (deliver_all ds) w = (Val tt, w') ∧ orphaned w'.
Proof.
  intros Hjc. revert w. induction ds as [|[[host i] att] ds IH]; intros w Hw Hds; [by exists w|].
  apply Forall_cons in Hds as [[Hin Hi] Hds]. cbn in Hin, Hi.
  destruct (handle_orphaned host i att w) as (w1 & Hrun & Hw1); try done.
  destruct (IH w1) as (w' & Hrun' & Hw'); try done.
  exists w'. cbn [deliver_all]. by rewrite run_bind, Hrun, Hrun'.
Qed.
End drain.

(** ** Witnesses: a three-page document in two chunks, two workers *)
Definition demo_ranges : list (Z * Z) := [(0, 2); (2, 3)].
Definition demo_texts : list pystr := [u "[%ab]"; u "[%c]"].
Definition demo_hosts : list pystr := [u "w1"; u "w2"].

Definition demo_db : database :=
  match create_job_sql 5 (u "j") (u "h:f") (u "h") (u "http://x") demo_ranges false empty_db with
  | inr (_, db) => db
  | inl _ => empty_db
  end.

Definition demo_world (db : database) : world map_store map_broker :=
  World 9 db (MapStore true {[u "src/h" := u "%abc"]}) empty_broker ∅
    {[u "w1"; u "w2"]} {[u "w1"; u "w2"]} ∅ ∅ [] [] [].

Lemma demo_converts :
  job_converts default_config None (u "h:f") (u "%abc") false demo_ranges demo_texts.
Proof.
  assert (Forall encodable demo_texts) as Henc
    by (do 2 (apply Forall_cons_2; [apply encodable_u|]); constructor).
  split_and!; [reflexivity|exact Henc|apply encodable_u|by vm_compute|by vm_compute|discriminate|].
  intros [|[|i]] r text Hr Ht; simplify_eq/=; eexists; (split; [reflexivity|]); intros path; reflexivity.
Qed.

Lemma demo_fleet db :
  fleet_ready default_config (u "h") (u "%abc") demo_hosts (demo_world db).
Proof.
  split_and!; [split; reflexivity|reflexivity|]. intros host Hin. split.
  - unfold demo_hosts in Hin. rewrite !elem_of_cons, elem_of_nil in Hin.
    split_and!; [reflexivity|..]; cbn; set_solver.
  - split; intros *; cbn; rewrite lookup_empty; discriminate.
Qed.

Definition demo_deliveries : list delivery := [(u "w2", 1%nat, 1); (u "w1", 0%nat, 1); (u "w2", 1%nat, 2)].

Lemma demo_valid : Forall (valid_delivery demo_ranges demo_hosts) demo_deliveries.
Proof. repeat constructor; cbn; try lia; unfold demo_hosts; set_solver. Qed.

Lemma drain_refines_witness :
  ∃ w', run (deliver_all default_config None (u "j") (u "h:f") (u "h") false demo_ranges demo_deliveries)
          (demo_world demo_db) = (Val tt, w') ∧
    completed default_config (u "j") (u "h:f") (u "h") demo_ranges demo_texts w'.
Proof.
  apply (drain_refines default_config None (u "j") (u "h:f") (u "h") (u "%abc") false demo_ranges demo_texts
    demo_hosts demo_deliveries 5 (u "http://x") empty_db (demo_world demo_db)).
  - exact demo_converts.
  - discriminate.
  - exact db_inv_empty.
  - vm_compute. reflexivity.
  - apply demo_fleet.
  - exact demo_valid.
  - intros [|[|i]] Hi; cbn in *; [| |lia].
    + apply list_elem_of_further, list_elem_of_here.
    + apply list_elem_of_here.
Defined.

(** The specification, evaluated. *)
Example demo_pages : job_pages default_config demo_texts = [u "[%ab]" ++ nl2 ++ u "[%c]"].
Proof. vm_compute. reflexivity. Qed.

Definition orphan_db : database :=
  (complete_chunk_sql 8 (u "j") 1 (u "k1") (complete_chunk_sql 7 (u "j") 0 (u "k0") demo_db).2).2.

Lemma orphan_orphaned :
  orphaned default_config (u "j") (u "h:f") (u "h") (u "%abc") demo_ranges demo_hosts (demo_world orphan_db).
Proof.
  split_and!; [apply demo_fleet| |reflexivity|].
  - do 2 apply complete_chunk_inv.
    apply (create_job_inv 5 (u "j") (u "h:f") (u "h") (u "http://x") demo_ranges false empty_db);
      [vm_compute; reflexivity|apply db_inv_empty].
  - eexists. split; [vm_compute; reflexivity|]. split_and!;
      [split_and!; reflexivity|reflexivity|].
    apply not_done_zero_iff. vm_compute. reflexivity.
Qed.

Lemma orphaned_for_ever_witness :
  ∃ w', run (deliver_all default_config None (u "j") (u "h:f") (u "h") false demo_ranges demo_deliveries)
          (demo_world orphan_db) = (Val tt, w') ∧
    orphaned default_config (u "j") (u "h:f") (u "h") (u "%abc") demo_ranges demo_hosts w'.
Proof.
  apply (orphaned_for_ever default_config None (u "j") (u "h:f") (u "h") (u "%abc") false demo_ranges demo_texts
    demo_hosts demo_deliveries (demo_world orphan_db)).
  - exact demo_converts.
  - exact orphan_orphaned.
  - exact demo_valid.
Defined.
