(* ===== verification/Api.v ===== *)
(** * The HTTP API (api/index.py)

    The producer [submit], the polling of a job, and the endpoints.  An endpoint
    is a program whose result is a [reply]; an exception that no handler
    translates is raised.  Waiting ([asyncio.sleep] between two polls) is a
    parameter: it is where the rest of the system runs. *)
From S2P Require Import Prelude PyStr Effects Utf8 Json Database Config World Db Jobstore Files.
From S2P Require Import Chunker Storage Taskqueue Converter Pagination.

(** ** Requests and replies *)
Record ConvertRequest := { rq_file : option pystr; rq_use_llm : option bool }.

Record PageResponse := { ps_id : pystr; ps_content : pystr; ps_pagination : pagination }.

Record JobStatus := {
  js_job_id : pystr;
  js_status : job_status;
  js_doc_key : pystr;
  js_progress : progress;
  js_error : option pystr;
  js_created_at : Z;
  js_updated_at : Z;
}.

Inductive reply :=
| PageReply (p : PageResponse)                                        (** 200 *)
| JobAccepted (job_id doc_key : pystr) (total_chunks : Z)   (** 202, status "queued" *)
| JobReply (s : JobStatus)                                            (** 200 *)
| Readiness (status : Z) (database storage queue : bool)
| HTTPException (status : Z) (detail : pystr).

(** GET /: the liveness probe, which checks nothing. *)
Definition root : pystr := u "ok".

(** GET /openapi.yaml: [render] is FastAPI's document, dumped as YAML; the process
    keeps the text it served first. *)
Definition openapi_yaml (render : exn + pystr) (cached : option pystr) : exn + pystr * option pystr :=
  match cached with
  | Some text => inr (text, cached)
  | None => text ← render; mret (text, Some text)
  end.

(** What [submit] returns. *)
Inductive submission :=
| Cached (payload : PageResponse)
| Queued (job_id doc_key : pystr) (total_chunks : Z).

Definition verify_api_key (cfg : config) (x_api_key : option pystr) : option reply :=
  match ADMIN_API_KEY cfg with
  | None | Some [] => Some (HTTPException 500 (u "API key not configured on server"))
  | Some key => if bool_decide (x_api_key = Some key) then None
                else Some (HTTPException 401 (u "Invalid API key"))
  end.

(** [manifest[k]], used as an integer; a boolean is one in Python.  (A float would
    also be accepted; no manifest that [put_document] writes has one.) *)
Definition manifest_int (k : string) (m : json) : exn + Z :=
  match m with
  | JObj l => match dict_get (u k) l with
              | Some (JInt n) => inr n
              | Some (JBool b) => inr (if b then 1 else 0)
              | Some _ => inl (type_error "not an integer")
              | None => inl (OtherError (u "KeyError") (u k))
              end
  | _ => inl (type_error "indices must be integers")
  end.

Definition manifest_pagination (doc_key : pystr) (page : Z) (m : json) : exn + pagination :=
  total_pages ← manifest_int "total_pages" m;
  total_length ← manifest_int "total_length" m;
  page_size ← manifest_int "page_size" m;
  mret (build_pagination doc_key page total_pages total_length page_size).

(** One task per range, numbered from [index]. *)
Fixpoint submit_tasks (job_id doc_key file_hash : pystr) (total : Z) (use_llm : bool) (index : Z)
    (ranges : list (Z * Z)) : list ChunkTask :=
  match ranges with
  | [] => []
  | (start, end_) :: rest =>
      Build_ChunkTask job_id index doc_key file_hash start end_ total use_llm 1
      :: submit_tasks job_id doc_key file_hash total use_llm (index + 1) rest
  end.

Section api.
Context {S B : Type} `{ObjectStore S} `{Broker B} `{Externals} `{Codecs}.
Context (host : pystr) (cfg : config).
#[local] Abbreviation world := (world S B).

(** The id [uuid4] draws for the next job, and what happens while the API
    sleeps between two polls. *)
Context (new_job_id : pystr) (sleep : prog world unit).

(** [lifespan]: what the API process does before it serves requests. *)
Definition lifespan : prog world unit := migrate host.

Definition first_page_payload (doc_key : pystr) (m : json) : prog world (option PageResponse) :=
  content ← get_page doc_key 1;
  match content with
  | None => mret None
  | Some text =>
      pg ← lift (manifest_pagination doc_key 1 m);
      mret (Some (Build_PageResponse doc_key text pg))
  end.

(** The cache lookup of [submit]. *)
Definition cached_payload (doc_key : pystr) : prog world (option PageResponse) :=
  cached ← find_cached_document host doc_key;
  match cached with
  | None => mret None
  | Some _ =>
      m ← get_manifest doc_key;
      match m with
      | None => mret None
      | Some m => first_page_payload doc_key m
      end
  end.

Definition submit (url : pystr) (use_llm : bool) : prog world submission :=
  path ← download host cfg url;
  r ← finally
    (file_hash ← hash_file host path;
     doc_key ← lift (make_doc_key cfg file_hash use_llm);
     hit ← cached_payload doc_key;
     match hit with
     | Some payload => mret (inl payload)
     | None =>
         pages ← page_count host path;
         ranges ← lift (plan_chunks pages (PAGES_PER_CHUNK cfg) (MIN_PAGES_FOR_PARALLEL cfg));
         _ ← put_source host file_hash path;
         mret (inr (file_hash, doc_key, ranges))
     end)
    (remove_if_exists host path);
  match r with
  | inl payload => mret (Cached payload)
  | inr (file_hash, doc_key, ranges) =>
      let job_id := new_job_id in
      _ ← create_job host job_id doc_key file_hash url ranges use_llm;
      _ ← publish host cfg (submit_tasks job_id doc_key file_hash (len ranges) use_llm 0 ranges);
      mret (Queued job_id doc_key (len ranges))
  end.

Definition job_payload (job_id : pystr) (job : job) : prog world JobStatus :=
  p ← job_progress host job_id;
  mret (Build_JobStatus job_id (j_status job) (j_doc_key job) p (j_error job) (j_created_at job)
          (j_updated_at job)).

(** [fuel] bounds the number of polls. *)
Fixpoint wait_for_job (fuel : nat) (job_id : pystr) : prog world job :=
  match fuel with
  | O => Spin
  | Datatypes.S fuel =>
      job ← get_job host job_id;
      match job with
      | Some j => if terminal (j_status j) then mret j else _ ← sleep; wait_for_job fuel job_id
      | None => _ ← sleep; wait_for_job fuel job_id
      end
  end.

(** [_submit_request]: the submission, or the HTTP error it is translated to. *)
Definition submit_request (request : option ConvertRequest) : prog world (reply + submission) :=
  match request with
  | Some (Build_ConvertRequest (Some (c :: file)) use_llm) =>
      let use_llm := default (CONVERT_USE_LLM cfg) use_llm in
      r ← attempt (submit (c :: file) use_llm);
      match r with
      | inr s => mret (inr s)
      | inl exc => mret (inl (HTTPException 400 (u "Error processing URL: " ++ exn_str exc)))
      end
  | _ => mret (inl (HTTPException 422 (u "`file` (a URL) is required")))
  end.

Definition missing_document : reply := HTTPException 500 (u "Converted document is missing").

Definition completed_job_payload (job : job) : prog world reply :=
  match j_status job with
  | JFailed =>
      mret (HTTPException 400 (u "Conversion failed: " ++ default (u "None") (j_error job)))
  | _ =>
      m ← get_manifest (j_doc_key job);
      match m with
      | None => mret missing_document
      | Some m =>
          payload ← first_page_payload (j_doc_key job) m;
          mret (match payload with None => missing_document | Some p => PageReply p end)
      end
  end.

(** An endpoint with the dependency [verify_api_key]: POST /convert, POST
    /async/convert, GET /jobs/{job_id} and GET /convert/{doc_key}/pages/{page}.  The
    probes and the OpenAPI document have none. *)
Definition guarded (x_api_key : option pystr) (endpoint : prog world reply) : prog world reply :=
  match verify_api_key cfg x_api_key with
  | Some refusal => mret refusal
  | None => endpoint
  end.

Definition convert_endpoint (fuel : nat) (request : option ConvertRequest) : prog world reply :=
  result ← submit_request request;
  match result with
  | inl error => mret error
  | inr (Cached payload) => mret (PageReply payload)
  | inr (Queued job_id _ _) =>
      job ← wait_for_job fuel job_id;
      completed_job_payload job
  end.

Definition async_convert_endpoint (request : option ConvertRequest) : prog world reply :=
  result ← submit_request request;
  mret (match result with
        | inl error => error
        | inr (Cached payload) => PageReply payload
        | inr (Queued job_id doc_key total) => JobAccepted job_id doc_key total
        end).

Definition get_job_endpoint (job_id : pystr) : prog world reply :=
  job ← get_job host job_id;
  match job with
  | None => mret (HTTPException 404 (u "Job not found"))
  | Some j => s ← job_payload job_id j; mret (JobReply s)
  end.

Definition page_not_found : reply :=
  HTTPException 404 (u "Document or page not found (it may have expired).").

Definition get_page_endpoint (doc_id : pystr) (page : Z) : prog world reply :=
  m ← get_manifest doc_id;
  match m with
  | None => mret page_not_found
  | Some m =>
      if page <? 1 then mret page_not_found
      else
        total_pages ← lift (manifest_int "total_pages" m);
        if total_pages <? page then mret page_not_found
        else
          content ← get_page doc_id page;
          match content with
          | None => mret page_not_found
          | Some text =>
              pg ← lift (manifest_pagination doc_id page m);
              mret (PageReply (Build_PageResponse doc_id text pg))
          end
  end.

Definition readyz : prog world reply :=
  database ← Db.health host;
  storage ← Storage.health;
  queue ← Taskqueue.health host cfg;
  mret (Readiness (if database && storage && queue then 200 else 503) database storage queue).
End api.
