(* ===== verification/Quiet.v ===== *)
(** * Programs that do not matter to an invariant

    Most actions of the service cannot break an invariant: they read, they keep
    books (connections, clocks, stop flags), or they run statements that the
    invariant does not look at.  An invariant says which worlds it does not tell
    apart and which statements are quiet ([Harmless]); every program that only
    takes such actions is then harmless, once for all invariants. *)
From S2P Require Import Prelude PyStr Effects Rely Utf8 Json Database Config World Db Jobstore Files.
From S2P Require Import Chunker Storage Taskqueue Converter Pagination Worker Api.

(** [H w w']: the action that leads from [w] to [w'] is harmless. *)
Class Harmless {S B} `{ObjectStore S} (H : world S B → world S B → Prop) := {
  quiet : database → database → Prop;
  harmless_local : ∀ w w',
    w_db w' = w_db w → w_s3 w' = w_s3 w → w_mq w' = w_mq w → w_files w' = w_files w → H w w';
  harmless_db : ∀ w db fs, quiet (w_db w) db → H w (set_db db fs w);
  harmless_create : ∀ w fs, H w (set_s3 (s3_create_bucket (w_s3 w)) fs w);
  quiet_refl : ∀ db, quiet db db;
  quiet_start_chunk : ∀ ts J i owner attempt db, quiet db (start_chunk_sql ts J i owner attempt db);
  quiet_start_job : ∀ ts J db, quiet db (start_job_sql ts J db);
  quiet_fail_chunk : ∀ ts J i e db, quiet db (fail_chunk_sql ts J i e db);
  quiet_reschedule : ∀ ts J i e db, quiet db (reschedule_chunk_sql ts J i e db);
  quiet_complete : ∀ ts J i key db, quiet db (complete_chunk_sql ts J i key db).2;
  quiet_fail_job : ∀ ts J e i db, quiet db (fail_job_sql ts J e i db);
}.

Create HintDb harmless discriminated.
#[export] Hint Constants Opaque : harmless.

(** Take a program apart; the parts that are left are goals. *)
Ltac harmless_step :=
  match goal with
  | |- guarantee _ (mbind _ _) => apply guarantee_bind; [|intros ?]
  | |- guarantee _ (attempt _) => apply guarantee_attempt
  | |- guarantee _ (finally _ _) => apply guarantee_finally
  | |- guarantee _ (for_each _ _) => apply guarantee_for_each; intros ?
  | |- guarantee _ (reraise _) => apply guarantee_reraise
  | |- guarantee _ (mret _) => done
  | |- guarantee _ (Raise _) => done
  | |- guarantee _ Spin => done
  | |- guarantee _ (match ?x with _ => _ end) => destruct x
  | |- guarantee _ _ => solve [eauto with harmless typeclass_instances]
  end.
Ltac harmless_prog := repeat harmless_step.

Section quiet.
Context {S B : Type} `{ObjectStore S} `{Broker B} `{Externals} `{Codecs}.
Context (host : pystr) (cfg : config).
#[local] Abbreviation world := (world S B).
Context (HL : world → world → Prop) `{!Harmless HL}.

Lemma harmless_act {R} (f : world → R * world) :
  (∀ w, w_db (f w).2 = w_db w) → (∀ w, w_s3 (f w).2 = w_s3 w) → (∀ w, w_mq (f w).2 = w_mq w) →
  (∀ w, w_files (f w).2 = w_files w) → guarantee HL (act f).
Proof. intros. apply guarantee_act. intros w. by apply harmless_local. Qed.

Lemma harmless_db_call {R} (f : database → exn + R * database) :
  (∀ db r db', f db = inr (r, db') → quiet db db') → guarantee HL (db_call f).
Proof.
  intros Hf. apply guarantee_db_call; intros; apply harmless_db; [apply quiet_refl|by eapply Hf].
Qed.

Lemma harmless_s3_read {R} (f : S → exn + R * S) :
  (∀ s r s', f s = inr (r, s') → s' = s) → guarantee HL (s3_call f).
Proof.
  intros Hf. apply guarantee_s3_call; intros; apply harmless_local; try done. simpl. by eapply Hf.
Qed.

Lemma harmless_db_read {R} (g : database → R) : guarantee HL (db_call (λ db, inr (g db, db))).
Proof. apply harmless_db_call. intros db r db' [= _ <-]. apply quiet_refl. Qed.
#[local] Hint Resolve harmless_db_read : harmless.

(** ** db.py *)
Lemma harmless_clock : guarantee HL clock.
Proof. by apply harmless_act. Qed.
Lemma harmless_get_connection : guarantee HL (get_connection host).
Proof. unfold get_connection. harmless_prog; by apply harmless_act. Qed.
#[local] Hint Resolve harmless_clock harmless_get_connection : harmless.
Lemma harmless_migrate : guarantee HL (migrate host).
Proof. unfold migrate. harmless_prog; by apply harmless_act. Qed.
#[local] Hint Resolve harmless_migrate : harmless.
Lemma harmless_ensure_ready : guarantee HL (ensure_ready host).
Proof. unfold ensure_ready. harmless_prog; by apply harmless_act. Qed.
Lemma harmless_close_connection : guarantee HL (close_connection host).
Proof. by apply harmless_act. Qed.
#[local] Hint Resolve harmless_ensure_ready harmless_close_connection : harmless.

Lemma harmless_run_sql {R} (f : database → exn + R * database) :
  (∀ db r db', f db = inr (r, db') → quiet db db') → guarantee HL (run_sql host f).
Proof. intros Hf. unfold run_sql. harmless_prog; by apply harmless_db_call. Qed.

Lemma harmless_query {R} (f : database → list R) : guarantee HL (query host f).
Proof. apply harmless_run_sql. intros db r db' [= _ <-]. apply quiet_refl. Qed.
#[local] Hint Resolve harmless_query : harmless.

Lemma harmless_execute f : (∀ db, quiet db (f db)) → guarantee HL (execute host f).
Proof. intros Hf. apply harmless_run_sql. by intros db r db' [= _ <-]. Qed.

Lemma harmless_transaction {R} (f : database → exn + R * database) :
  (∀ db r db', f db = inr (r, db') → quiet db db') → guarantee HL (transaction host f).
Proof.
  intros Hf. unfold transaction. harmless_prog; [|by apply harmless_db_call].
  apply harmless_db_call. intros db [] db' Hr. assert (db' = db) as -> by (destruct (f db); congruence).
  apply quiet_refl.
Qed.

Lemma harmless_db_health : guarantee HL (Db.health host).
Proof. unfold Db.health. harmless_prog. Qed.

(** ** jobstore.py *)
Lemma harmless_get_job J : guarantee HL (get_job host J).
Proof. unfold get_job, query_one. harmless_prog. Qed.
Lemma harmless_find_cached D : guarantee HL (find_cached_document host D).
Proof. unfold find_cached_document, query_one. harmless_prog. Qed.
Lemma harmless_chunk_indices J : guarantee HL (chunk_indices host J).
Proof. unfold chunk_indices. harmless_prog. Qed.
#[local] Hint Resolve harmless_get_job : harmless.
Lemma harmless_job_progress J : guarantee HL (job_progress host J).
Proof. unfold job_progress. harmless_prog. Qed.
Lemma harmless_fail_job J e i : guarantee HL (fail_job host J e i).
Proof. unfold fail_job. harmless_prog. apply harmless_execute. intros db. apply quiet_fail_job. Qed.
Lemma harmless_start_chunk J i owner attempt : guarantee HL (start_chunk host J i owner attempt).
Proof.
  unfold start_chunk. harmless_prog; apply harmless_execute; intros db;
    [apply quiet_start_chunk|apply quiet_start_job].
Qed.
Lemma harmless_fail_chunk J i e : guarantee HL (fail_chunk host J i e).
Proof. unfold fail_chunk. harmless_prog. apply harmless_execute. intros db. apply quiet_fail_chunk. Qed.
Lemma harmless_reschedule_chunk J i e : guarantee HL (reschedule_chunk host J i e).
Proof. unfold reschedule_chunk. harmless_prog. apply harmless_execute. intros db. apply quiet_reschedule. Qed.
Lemma harmless_complete_chunk J i key : guarantee HL (complete_chunk host J i key).
Proof.
  unfold complete_chunk. harmless_prog. apply harmless_transaction. intros db r db' [= Hc].
  pose proof (quiet_complete a J i key db) as Hq. by rewrite Hc in Hq.
Qed.

(** ** Files that are only read *)
Lemma harmless_read_file path : guarantee HL (read_file host path).
Proof. apply guarantee_io. intros w. by apply harmless_local. Qed.
Lemma harmless_path_exists path : guarantee HL (path_exists host path).
Proof. by apply harmless_act. Qed.
#[local] Hint Resolve harmless_read_file : harmless.
Lemma harmless_page_count path : guarantee HL (page_count host path).
Proof. unfold page_count. harmless_prog. Qed.
Lemma harmless_convert_file api_key path use_llm : guarantee HL (convert_file host cfg api_key path use_llm).
Proof. unfold convert_file. harmless_prog. Qed.
Lemma harmless_hash_file path : guarantee HL (hash_file host path).
Proof. unfold hash_file. harmless_prog. Qed.

(** ** storage.py, reading *)
Lemma harmless_get_object k : guarantee HL (get_object k).
Proof.
  apply harmless_s3_read. intros s r s'. destruct (s3_bucket s), (s3_get k s); naive_solver.
Qed.
Lemma harmless_head_bucket : guarantee HL head_bucket.
Proof. apply harmless_s3_read. intros s r s'. destruct (s3_bucket s); naive_solver. Qed.
Lemma harmless_create_bucket : guarantee HL create_bucket.
Proof.
  apply guarantee_s3_call; [intros; by apply harmless_local|]. intros w fs r s.
  destruct (s3_bucket (w_s3 w)); [done|]. intros [= _ <-]. apply harmless_create.
Qed.
#[local] Hint Resolve harmless_get_object harmless_head_bucket harmless_create_bucket : harmless.
Lemma harmless_get_bytes k : guarantee HL (get_bytes k).
Proof. unfold get_bytes. harmless_prog. Qed.
Lemma harmless_decode_opt d : guarantee HL (decode_opt d).
Proof. unfold decode_opt. harmless_prog. Qed.
#[local] Hint Resolve harmless_get_bytes harmless_decode_opt : harmless.
Lemma harmless_ensure_bucket : guarantee HL ensure_bucket.
Proof. unfold ensure_bucket. harmless_prog. Qed.
Lemma harmless_exists k : guarantee HL (exists_ k).
Proof.
  unfold exists_. harmless_prog. apply harmless_s3_read. intros s r s'.
  destruct (_ && _); naive_solver.
Qed.
Lemma harmless_get_part D i : guarantee HL (get_part D i).
Proof. unfold get_part. harmless_prog. Qed.
Lemma harmless_get_page D i : guarantee HL (get_page D i).
Proof. unfold get_page. harmless_prog. Qed.
Lemma harmless_get_manifest D : guarantee HL (get_manifest D).
Proof. unfold get_manifest. harmless_prog. Qed.
Lemma harmless_storage_health : guarantee HL Storage.health.
Proof. unfold Storage.health. harmless_prog. Qed.
#[local] Hint Resolve harmless_get_part : harmless.
Lemma harmless_get_parts D indices : guarantee HL (get_parts D indices).
Proof. induction indices as [|i rest IH]; cbn [get_parts]; harmless_prog. Qed.
Lemma harmless_paginate md : guarantee HL (paginate_or_spin cfg md).
Proof. unfold paginate_or_spin. harmless_prog. Qed.

(** ** Bookkeeping of the connection to the broker *)
Lemma harmless_close : guarantee HL (close host).
Proof. by apply harmless_act. Qed.
Lemma harmless_should_stop : guarantee HL (should_stop host).
Proof. by apply harmless_act. Qed.

(** Polling a job. *)
Lemma harmless_wait fuel sleep job_id :
  guarantee HL sleep → guarantee HL (wait_for_job host sleep fuel job_id).
Proof. intros Hs. induction fuel as [|fuel IH]; cbn [wait_for_job]; harmless_prog. Qed.
End quiet.

#[export] Hint Resolve harmless_db_read harmless_clock harmless_get_connection harmless_migrate
  harmless_ensure_ready harmless_close_connection harmless_query harmless_db_health harmless_get_job
  harmless_find_cached harmless_chunk_indices harmless_job_progress harmless_fail_job
  harmless_start_chunk harmless_fail_chunk harmless_reschedule_chunk harmless_complete_chunk
  harmless_read_file harmless_path_exists harmless_page_count harmless_convert_file harmless_hash_file
  harmless_get_object harmless_head_bucket harmless_create_bucket harmless_get_bytes
  harmless_decode_opt harmless_ensure_bucket harmless_exists harmless_get_part harmless_get_page
  harmless_get_manifest harmless_storage_health harmless_get_parts harmless_paginate harmless_close
  harmless_should_stop harmless_wait : harmless.

(** ** Statements and calls that establish something *)
Section rules.
Context {S B : Type} `{ObjectStore S} `{Broker B} (host : pystr).
#[local] Abbreviation world := (world S B).
Context (I : world → Prop) (G R : world → world → Prop) `{!Harmless (harmless I G)}.

Lemma same_ok w w' :
  w_db w' = w_db w → w_s3 w' = w_s3 w → w_mq w' = w_mq w → w_files w' = w_files w →
  I w → I w' ∧ G w w'.
Proof. intros Hd Hs Hm Hf. exact (harmless_local w w' Hd Hs Hm Hf). Qed.

(** A transaction or statement that takes effect keeps the invariant and leads to
    [Q]. *)
Definition establishes {X} (P : world → Prop) (f : database → exn + X * database) (Q : X → world → Prop) : Prop :=
  ∀ w r db fs, I w → P w → f (w_db w) = inr (r, db) →
    I (set_db db fs w) ∧ G w (set_db db fs w) ∧ Q r (set_db db fs w).

Lemma safe_db_call {X} (P : world → Prop) (f : database → exn + X * database) Q :
  (∀ r, stable R (Q r)) → establishes P f Q → safe I G R P (db_call f) Q.
Proof.
  intros HQ Hf. apply safe_io; [done|]. intros w HI HP.
  destruct (pop_fault (w_db_faults w)) as [flt fs]. unfold serve.
  destruct (same_ok w (set_db (w_db w) fs w) eq_refl eq_refl eq_refl eq_refl HI).
  destruct flt, (f (w_db w)) as [e'|[r db]] eqn:E; simpl; try (split_and!; [done|done|done]).
  - destruct (Hf w r db fs HI HP E) as (? & ? & ?). split_and!; [done|done|]. by intros x [= <-].
  - destruct (Hf w r db fs HI HP E) as (? & ? & ?). by split_and!.
Qed.

Lemma safe_run_sql {X} (P : world → Prop) (f : database → exn + X * database) Q :
  framed G R P → (∀ r, stable R (Q r)) → establishes P f Q → safe I G R P (run_sql host f) Q.
Proof.
  intros HP HQ Hf. unfold run_sql.
  apply safe_then; [done|apply harmless_ensure_ready, _|]. intros _.
  apply safe_then; [done|apply harmless_get_connection, _|]. intros _.
  eapply safe_attempt_then; [done|by apply safe_db_call|..].
  - intros e. destruct (is_stale_connection e); [|done].
    apply safe_then; [done|apply harmless_close_connection, _|]. intros _.
    apply safe_then; [done|apply harmless_get_connection, _|]. intros _. by apply safe_db_call.
  - by intros r w _ [_ ?].
Qed.

Lemma safe_transaction {X} (P : world → Prop) (f : database → exn + X * database) Q :
  framed G R P → (∀ r, stable R (Q r)) → establishes P f Q → safe I G R P (transaction host f) Q.
Proof.
  intros HP HQ Hf. unfold transaction.
  apply safe_then; [done|apply harmless_ensure_ready, _|]. intros _.
  apply safe_then; [done|apply harmless_query, _|]. intros _.
  apply safe_then; [done|apply harmless_get_connection, _|]. intros _.
  eapply safe_attempt_then; [done| | |].
  - apply safe_then; [done| |by intros []; apply safe_db_call]. apply (harmless_db_call _). intros db [] db' Hr.
    assert (db' = db) as -> by (destruct (f db); congruence). apply quiet_refl.
  - intros e. apply safe_then; [done| |done]. harmless_prog.
  - intros a w _ [_ Hq]. exact Hq.
Qed.

(** The row a lookup returned was there. *)
Lemma safe_query_one {K Row} `{Countable K} (k : K) (table : database → gmap K Row)
    (Q : option Row → world → Prop) :
  (∀ r, stable R (Q r)) → (∀ w, I w → Q (table (w_db w) !! k) w) →
  (∀ r w fs, Q r w → Q r (set_db (w_db w) fs w)) →
  safe I G R (λ _, True) (query_one host (λ db, sql_where (at_key k (λ _, true)) (table db))) Q.
Proof.
  intros HQ Hrow Hfs. unfold query_one. eapply safe_bind.
  - apply (safe_run_sql _ _ (λ rows, Q (head rows))); [apply framed_pure|done|].
    intros w r db fs HI _ [= <- <-].
    destruct (same_ok w (set_db (w_db w) fs w) eq_refl eq_refl eq_refl eq_refl HI).
    split_and!; [done|done|]. rewrite head_where_key. by apply Hfs, Hrow.
  - by intros rows w _.
Qed.

(** A job and the document it is for. *)
Definition job_has_key (J D : pystr) (w : world) : Prop :=
  ∃ j, db_jobs (w_db w) !! J = Some j ∧ j_doc_key j = D.

Definition job_read (J : pystr) (r : option job) (w : world) : Prop :=
  match r with Some j => job_has_key J (j_doc_key j) w | None => True end.

Lemma safe_get_job J :
  (∀ D, stable R (job_has_key J D)) → safe I G R (λ _, True) (get_job host J) (job_read J).
Proof.
  intros Hst. apply (safe_query_one J db_jobs (job_read J)); [|  |by intros [j|]].
  - intros [j|]; [apply Hst|done].
  - intros w _. destruct (db_jobs (w_db w) !! J) as [j|] eqn:Hj; [|done]. by exists j.
Qed.

Definition establishes_s3 {X} (P : world → Prop) (f : S → exn + X * S) (Q : X → world → Prop) : Prop :=
  ∀ w r s fs, I w → P w → f (w_s3 w) = inr (r, s) →
    I (set_s3 s fs w) ∧ G w (set_s3 s fs w) ∧ Q r (set_s3 s fs w).

Lemma safe_s3_call {X} (P : world → Prop) (f : S → exn + X * S) Q :
  (∀ r, stable R (Q r)) → establishes_s3 P f Q → safe I G R P (s3_call f) Q.
Proof.
  intros HQ Hf. apply safe_io; [done|]. intros w HI HP.
  destruct (pop_fault (w_s3_faults w)) as [flt fs]. unfold serve.
  destruct (same_ok w (set_s3 (w_s3 w) fs w) eq_refl eq_refl eq_refl eq_refl HI).
  destruct flt, (f (w_s3 w)) as [e'|[r s]] eqn:E; simpl; try (split_and!; [done|done|done]).
  - destruct (Hf w r s fs HI HP E) as (? & ? & ?). split_and!; [done|done|]. by intros x [= <-].
  - destruct (Hf w r s fs HI HP E) as (? & ? & ?). by split_and!.
Qed.

(** A write that returned took effect, and it is harmless for others if it takes
    effect. *)
Lemma safe_put_bytes (P : world → Prop) (k : pystr) (b : bytes) (Q : world → Prop) :
  stable R Q →
  (∀ w fs, I w → P w → I (set_s3 (s3_put k b (w_s3 w)) fs w) ∧
     G w (set_s3 (s3_put k b (w_s3 w)) fs w) ∧ Q (set_s3 (s3_put k b (w_s3 w)) fs w)) →
  safe I G R P (put_bytes k b) (λ _, Q).
Proof.
  intros HQ Hput. apply safe_s3_call; [done|]. intros w r s fs HI HP.
  destruct (s3_bucket (w_s3 w)); [|done]. intros [= _ <-]. by apply Hput.
Qed.

(** A read returns what was there. *)
Lemma safe_get_bytes (k : pystr) (φ : bytes → Prop) :
  (∀ w b, I w → s3_get k (w_s3 w) = Some b → φ b) →
  safe I G R (λ _, True) (get_bytes k) (λ r _, ∀ b, r = Some b → φ b).
Proof.
  intros Hφ. unfold get_bytes. eapply (safe_bind _ _ _ _ _ _ (λ r _, ∀ b, r = inr b → φ b)).
  - eapply safe_post; [|apply safe_attempt; apply (safe_s3_call _ _ (λ b _, φ b))].
    + intros [e|b] w _ Hb b' [=]. by subst.
    + by intros b w w'.
    + intros w b s fs HI _. destruct (s3_bucket (w_s3 w)); [|done].
      destruct (s3_get k (w_s3 w)) as [d|] eqn:Hd; [|done]. intros [= <- <-].
      destruct (same_ok w (set_s3 (w_s3 w) fs w) eq_refl eq_refl eq_refl eq_refl HI).
      split_and!; [done|done|by eapply Hφ].
  - intros [e|b]; [|by intros w _ Hb b' [= <-]; apply Hb].
    destruct e; try done. case_bool_decide; [|done]. by intros w _ _ b' [=].
Qed.
End rules.

(** ** The worker's loops, around a handler that is safe *)
Section loops.
Context {S B : Type} `{ObjectStore S} `{Broker B} `{Externals} `{Codecs}.
Context (host : pystr) (cfg : config) (api_key : option pystr) (liveness_file : pystr).
#[local] Abbreviation world := (world S B).
Context (I : world → Prop) (G R : world → world → Prop) `{!Harmless (harmless I G)}.
Context (ill_typed : list (pystr * json) → prog world unit).
#[local] Abbreviation safe_True p := (safe I G R (λ _, True) p (λ _ _, True)).

(** What is known of the messages on the work queue. *)
Context (φ : bytes → Prop).
Hypothesis deliver_safe :
  safe I G R (λ _, True) (mq_call (λ b, inr (mq_deliver (RABBITMQ_QUEUE cfg) b)))
    (λ m _, ∀ tag body, m = Some (tag, body) → φ body).
Hypothesis connect_safe : guarantee (harmless I G) (connect host cfg).
Hypothesis ack_safe : ∀ tag, guarantee (harmless I G) (basic_ack tag).
Hypothesis nop_safe : guarantee (harmless I G) (mq_call (λ b, inr (tt, b))).
Hypothesis dlx_safe : ∀ body,
  guarantee (harmless I G) (basic_publish (DLX_EXCHANGE cfg) (RABBITMQ_QUEUE cfg) body).
Hypothesis touch_safe : guarantee (harmless I G) (touch_liveness host liveness_file).
Hypothesis handle_safe : ∀ body task, φ body → from_bytes body = Parsed task →
  safe_True (handle host cfg api_key task).
Hypothesis ill_typed_safe : ∀ body l, φ body → from_bytes body = IllTyped l → safe_True (ill_typed l).

Lemma framed_True : framed G R (λ _, True).
Proof. apply framed_pure. Qed.
#[local] Hint Resolve framed_True : core.

Lemma safe_attempt_True {A} (p : prog world A) : safe_True p → safe_True (attempt p).
Proof. intros Hp. eapply safe_mono; [| |by apply safe_attempt]; done. Qed.

Lemma on_task_safe body task :
  φ body → from_bytes body = Parsed task → safe_True (on_task host cfg api_key liveness_file task).
Proof.
  intros Hb Ht. unfold on_task. apply safe_then; [done|done|]. intros _.
  eapply safe_bind; [by eapply safe_attempt_True, handle_safe|]. done.
Qed.

Lemma consume_step_safe :
  safe_True (consume_step host cfg (on_task host cfg api_key liveness_file) ill_typed).
Proof.
  unfold consume_step. eapply safe_bind; [apply deliver_safe|]. intros m. cbv beta.
  eapply (safe_pre _ _ _ (λ w, (∀ tag body, m = Some (tag, body) → φ body) ∧ True)); [done|].
  apply safe_pure. intros Hm.
  apply safe_then; [done|apply (harmless_should_stop host (harmless I G))|]. intros [|]; [done|].
  destruct m as [[tag body]|]; [|done]. specialize (Hm tag body eq_refl).
  destruct (from_bytes body) as [task|l|e] eqn:Hb.
  - eapply safe_bind; [by apply safe_finally; [..|eapply on_task_safe|apply ack_safe]|done].
  - eapply safe_bind; [by apply safe_finally; [..|eapply ill_typed_safe|apply ack_safe]|done].
  - apply safe_then; [done|apply dlx_safe|]. intros _. by apply safe_then; [|apply ack_safe|].
Qed.

Lemma consume_safe fuel :
  safe_True (consume host cfg fuel (on_task host cfg api_key liveness_file) ill_typed).
Proof.
  unfold consume. apply safe_then; [done|exact connect_safe|]. intros _.
  apply safe_then; [done|exact nop_safe|]. intros _.
  apply (safe_bind _ _ _ _ _ _ (λ _ _, True)).
  - induction fuel as [|fuel IH]; [done|]. cbn [consume_loop].
    eapply safe_bind; [apply consume_step_safe|]. by intros [|].
  - intros _. by apply safe_then; [|apply guarantee_attempt, nop_safe|].
Qed.

Lemma run_forever_safe fuel : safe_True (run_forever host cfg api_key liveness_file fuel ill_typed).
Proof.
  induction fuel as [|fuel IH]; [done|]. cbn [run_forever].
  apply safe_then; [done|harmless_prog|]. intros [|]; [apply safe_harmless; [done|harmless_prog]|].
  eapply safe_bind.
  { apply safe_attempt_True. apply safe_then; [done|done|]. intros _. apply consume_safe. }
  intros [e|[]]; cbv beta; [|done].
  apply safe_then; [done|harmless_prog|]. intros [|]; [apply safe_harmless; [done|harmless_prog]|].
  by apply safe_then; [|harmless_prog|].
Qed.

Lemma main_safe fuel : safe_True (main host cfg api_key liveness_file fuel ill_typed).
Proof.
  unfold main. apply safe_then; [done|harmless_prog|]. intros _.
  apply safe_then; [done|harmless_prog|]. intros _. apply run_forever_safe.
Qed.
End loops.
