(* ===== verification/Deployment.v ===== *)
(** * The processes of a deployment

    Workers and API processes, with the requests that the API serves.  A process is
    a host name, its settings and what it does; its program is the code's. *)
From S2P Require Import Prelude PyStr Effects Rely Utf8 Json Database Config World Db Jobstore Files.
From S2P Require Import Chunker Storage Taskqueue Converter Pagination Worker Api.

(** The endpoints that work on jobs and documents.  A new job is given the id
    [job_id]; [fuel] bounds the number of polls. *)
Inductive endpoint :=
| Convert (job_id : pystr) (fuel : nat) (request : option ConvertRequest)
| AsyncConvert (job_id : pystr) (request : option ConvertRequest)
| GetJob (job_id : pystr)
| GetPage (doc_id : pystr) (page : Z).

(** A worker runs [main]; an API process boots, serves a request, or answers the
    readiness probe.  [ill_typed] is what a worker does with a message whose members
    have the wrong types. *)
Inductive activity {S B : Type} :=
| Work (api_key : option pystr) (liveness_file : pystr) (fuel : nat)
    (ill_typed : list (pystr * json) → prog (world S B) unit)
| Boot
| Probe
| Serve (x_api_key : option pystr) (e : endpoint).
Arguments activity : clear implicits.
Arguments Work {S B} _ _ _ _.
Arguments Boot {S B}.
Arguments Probe {S B}.
Arguments Serve {S B} _ _.

Record process {S B : Type} := Process { p_host : pystr; p_cfg : config; p_does : activity S B }.
Arguments process : clear implicits.
Arguments Process {S B} _ _ _.

Section deployment.
Context {S B : Type} `{ObjectStore S} `{Broker B} `{Externals} `{Codecs}.
#[local] Abbreviation world := (world S B).

(** While [_wait_for_job] sleeps, the other processes run. *)
Definition answer (host : pystr) (cfg : config) (e : endpoint) : prog world reply :=
  match e with
  | Convert job_id fuel request => convert_endpoint host cfg job_id (mret tt) fuel request
  | AsyncConvert job_id request => async_convert_endpoint host cfg job_id request
  | GetJob job_id => get_job_endpoint host job_id
  | GetPage doc_id page => get_page_endpoint doc_id page
  end.

Definition program (p : process S B) : prog world (option reply) :=
  let host := p_host p in
  let cfg := p_cfg p in
  match p_does p with
  | Work api_key liveness_file fuel ill_typed =>
      _ ← main host cfg api_key liveness_file fuel ill_typed; mret None
  | Boot => _ ← lifespan host; mret None
  | Probe => r ← readyz host cfg; mret (Some r)
  | Serve x_api_key e => r ← guarded cfg x_api_key (answer host cfg e); mret (Some r)
  end.
End deployment.
