(* ===== verification/Service.v ===== *)
(** * What the API promises

    Theorems about the endpoints of Api.v: access control, reading pages,
    progress, submission with and without a cached document, and the blocking
    endpoint from the request, through the broker and the workers, to the first page
    of the converted document. *)
From S2P Require Import Prelude PyStr Effects Utf8 Json Database Config World Db Jobstore Counter Ledger.
From S2P Require Import Files Chunker Storage Taskqueue Converter Pagination Worker Cache Handler.
From S2P Require Import Spec Drain Api.

Section service.
Context {S B : Type} `{ObjectStoreLaws S} `{BrokerLaws B} `{TempLaws} `{Codecs}.
Context (host : pystr) (cfg : config) (new_job_id : pystr) (sleep : prog (world S B) unit).
#[local] Abbreviation world := (world S B).
Implicit Types (w : world).

(** ** Access control *)
Definition authorised (x_api_key : option pystr) : Prop :=
  ∃ key, ADMIN_API_KEY cfg = Some key ∧ key ≠ [] ∧ x_api_key = Some key.

(** C40: A request without the configured key reaches nothing: it is refused with
    401, or with 500 when the server has no key, before any service is called, and
    every other request runs its endpoint. *)
Theorem guarded_spec (x_api_key : option pystr) (endpoint : prog world reply) w :
  (authorised x_api_key ∧ run (guarded cfg x_api_key endpoint) w = run endpoint w) ∨
  (¬ authorised x_api_key ∧ ∃ status detail,
     run (guarded cfg x_api_key endpoint) w = (Val (HTTPException status detail), w) ∧
     status = (if truthy (ADMIN_API_KEY cfg) then 401 else 500)).
Proof.
  unfold guarded, verify_api_key, authorised.
  destruct (ADMIN_API_KEY cfg) as [[|c key]|]; [right| |right].
  - split; [naive_solver|by do 2 eexists].
  - case_bool_decide as Hk; [left|right].
    + split; [|done]. by exists (c :: key).
    + split; [naive_solver|by do 2 eexists].
  - split; [naive_solver|by do 2 eexists].
Qed.

(** ** Reading pages *)
Lemma manifest_int_stored d pages n :
  manifest_int "total_pages" (manifest_json cfg d pages n) = inr (len pages) ∧
  manifest_pagination d 1 (manifest_json cfg d pages n) =
    inr (build_pagination d 1 (len pages) n (PAGE_SIZE cfg)).
Proof. split; vm_compute; reflexivity. Qed.

Lemma manifest_pagination_stored d page pages n :
  manifest_pagination d page (manifest_json cfg d pages n) =
    inr (build_pagination d page (len pages) n (PAGE_SIZE cfg)).
Proof. vm_compute. reflexivity. Qed.

(** C37: The page endpoint serves exactly the document: for every integer [page], a
    stored document's page with its pagination when 1 <= page <= total_pages, and
    404 otherwise; the world is not changed. *)
Theorem get_page_endpoint_spec (d : pystr) (pages : list pystr) (total_length page : Z) w :
  s3_ready w → encodable d → document_stored cfg d pages total_length (w_s3 w) →
  run (get_page_endpoint d page) w =
  (Val (if bool_decide (1 <= page <= len pages)
        then PageReply (Build_PageResponse d (default [] (pages !! Z.to_nat (page - 1)))
               (build_pagination d page (len pages) total_length (PAGE_SIZE cfg)))
        else page_not_found), w).
Proof.
  intros Hs Hd Hdoc. unfold get_page_endpoint.
  rewrite run_bind, (run_get_manifest cfg d pages total_length) by done. cbv beta iota.
  destruct (Z.ltb_spec page 1) as [Hlt|Hge]; [by rewrite bool_decide_false by lia|].
  rewrite run_bind, run_reraise, (proj1 (manifest_int_stored d pages total_length)). cbv beta iota.
  destruct (Z.ltb_spec (len pages) page) as [Hgt|Hle]; [by rewrite bool_decide_false by lia|].
  rewrite bool_decide_true by lia.
  destruct (lookup_lt_is_Some_2 pages (Z.to_nat (page - 1))) as [p Hp]; [unfold len in Hle; lia|].
  replace page with (1 + Z.of_nat (Z.to_nat (page - 1))) at 1 by lia.
  rewrite run_bind, (run_get_page cfg d pages total_length w _ p) by done. cbv beta iota.
  rewrite run_bind, run_reraise, manifest_pagination_stored. cbv beta iota. by rewrite Hp.
Qed.

(** A document that is not stored (never converted, or expired) is 404 for
    every page. *)
Theorem get_page_endpoint_missing (d : pystr) (page : Z) w :
  s3_ready w → s3_get (manifest_key d) (w_s3 w) = None →
  run (get_page_endpoint d page) w = (Val page_not_found, w).
Proof.
  intros Hs Hnone. unfold get_page_endpoint, get_manifest.
  by rewrite run_bind, run_bind, run_get_bytes, Hnone.
Qed.

(** ** Progress *)
Lemma round_div_bounds a b : 0 < b → 0 <= a <= 100 * b → 0 <= round_div a b <= 100.
Proof.
  intros Hb Ha. unfold round_div.
  pose proof (Z.div_mod a b ltac:(lia)) as Hdm. pose proof (Z.mod_pos_bound a b Hb) as Hm.
  assert (0 <= a `div` b) by (apply Z.div_pos; lia).
  assert (a `div` b < 100 ∨ a `div` b = 100 ∧ a `mod` b = 0) as Hq by nia.
  repeat case_match; boolZ; lia.
Qed.

(** C38: The status endpoint tells the truth.  In every database reached by
    interleaved jobstore statements that never marked a recorded chunk of the job
    failed: for an active job, [total] is its number of chunks, [completed] the
    number of them recorded as done, and [percent] is between 0 and 100. *)
Theorem progress_truthful (ls : list label) (jid : pystr) (j : job) w :
  db_ready host w → db_trace ls empty_db (w_db w) → Reopened jid ∉ ls →
  db_jobs (w_db w) !! jid = Some j → terminal (j_status j) = false →
  ∃ p, run (get_job_endpoint host jid) w =
    (Val (JobReply (Build_JobStatus jid (j_status j) (j_doc_key j) p (j_error j) (j_created_at j)
                     (j_updated_at j))), w) ∧
    pr_total p = j_total_chunks j ∧
    pr_completed p = len (filter (λ i : Z, chunk_recorded (w_db w) jid i = true) (seqZ 0 (j_total_chunks j))) ∧
    0 <= pr_completed p <= pr_total p ∧ 0 <= pr_percent p <= 100.
Proof.
  intros Hw Htr Hno Hj Hact. pose proof (trace_exact _ _ _ _ Htr Hno Hj Hact) as Hcnt.
  destruct (trace_counts _ _ _ _ Htr Hj Hact) as [_ Hle]. apply trace_ledger in Htr as [Hs _].
  pose proof (not_done_nonneg (w_db w) jid). pose proof (not_done_recorded _ _ _ Hs Hj).
  eexists. split.
  { unfold get_job_endpoint. rewrite run_bind, run_get_job by done. cbv beta iota.
    rewrite set_db_same by apply Hw. rewrite Hj. unfold job_payload, job_progress.
    rewrite run_bind, run_bind, run_bind, run_get_job by done. cbv beta iota.
    rewrite set_db_same by apply Hw. rewrite Hj. reflexivity. }
  cbn [pr_total pr_completed pr_percent]. rewrite Hcnt. split_and!; [done|lia|lia|lia|..];
    (destruct (Z.eqb_spec (j_total_chunks j) 0); [lia|apply round_div_bounds; lia]).
Qed.

(** ** Submission *)
Lemma run_hash_file path f w :
  w_files w !! (host, path) = Some f → run (hash_file host path) w = (Val (sha256_hex (f_data f)), w).
Proof.
  intros Hf. unfold hash_file. rewrite run_bind. unfold read_file. rewrite run_io, Hf. cbv beta iota.
  by rewrite concat_blocks by (unfold CHUNK_SIZE; lia).
Qed.

Lemma run_first_page_payload d p pages total_length w :
  s3_ready w → document_stored cfg d (p :: pages) total_length (w_s3 w) →
  run (first_page_payload d (manifest_json cfg d (p :: pages) total_length)) w =
  (Val (Some (Build_PageResponse d p
     (build_pagination d 1 (len (p :: pages)) total_length (PAGE_SIZE cfg)))), w).
Proof.
  intros Hs Hdoc. unfold first_page_payload.
  rewrite run_bind, (run_get_page cfg d (p :: pages) total_length w 0 p) by done. cbv beta iota.
  by rewrite run_bind, run_reraise, manifest_pagination_stored.
Qed.

Lemma run_cached_hit d row p pages total_length w :
  db_ready host w → s3_ready w → encodable d → db_documents (w_db w) !! d = Some row →
  document_stored cfg d (p :: pages) total_length (w_s3 w) →
  run (cached_payload host d) w =
  (Val (Some (Build_PageResponse d p
     (build_pagination d 1 (len (p :: pages)) total_length (PAGE_SIZE cfg)))), w).
Proof.
  intros Hw Hs Hd Hrow Hdoc. unfold cached_payload.
  rewrite run_bind, run_find_cached_document by done. cbv beta iota.
  rewrite set_db_same by apply Hw. rewrite Hrow.
  rewrite run_bind, (run_get_manifest cfg d (p :: pages) total_length) by done. cbv beta iota.
  by apply run_first_page_payload.
Qed.

(** No document row, or a row that outlived its objects. *)
Lemma run_cached_miss d w :
  db_ready host w → s3_ready w →
  db_documents (w_db w) !! d = None ∨ s3_get (manifest_key d) (w_s3 w) = None →
  run (cached_payload host d) w = (Val None, w).
Proof.
  intros Hw Hs Hor. unfold cached_payload.
  rewrite run_bind, run_find_cached_document by done. cbv beta iota.
  rewrite set_db_same by apply Hw. destruct (db_documents (w_db w) !! d); [|done].
  destruct Hor as [?|Hnone]; [done|]. unfold get_manifest.
  by rewrite run_bind, run_bind, run_get_bytes, Hnone.
Qed.

Lemma run_remove_temp path f w :
  w_files w !! (host, path) = None →
  ∀ s, run (remove_if_exists host path) (set_s3 s [] (set_files (<[(host, path) := f]> (w_files w)) w)) =
  (Val tt, set_s3 s [] w).
Proof.
  intros Hnone s. unfold remove_if_exists, path_exists, remove_file. rewrite run_bind, run_act.
  cbn [fst snd w_files set_files set_s3]. rewrite bool_decide_true by (rewrite lookup_insert_eq; by eexists).
  rewrite run_io. cbn [w_files set_files set_s3]. rewrite lookup_insert_eq, delete_insert_id by done.
  by destruct w.
Qed.

(** C14: Re-submitting a document that was converted is served from the cache: if
    the bytes behind the URL hash to a stored document, [submit] returns its first
    page, creates no job, publishes nothing and leaves no file: the world is as it
    was. *)
Theorem submit_cached (url : pystr) (use_llm : bool) (bs : list bytes) (d : pystr) row p pages total_length w :
  db_ready host w → s3_ready w →
  http_get url = inr (200, inr <$> bs) → len (concat bs) <= MAX_DOWNLOAD_BYTES cfg →
  make_doc_key cfg (sha256_hex (concat bs)) use_llm = inr d → encodable d →
  db_documents (w_db w) !! d = Some row → document_stored cfg d (p :: pages) total_length (w_s3 w) →
  run (submit host cfg new_job_id url use_llm) w =
  (Val (Cached (Build_PageResponse d p
     (build_pagination d 1 (len (p :: pages)) total_length (PAGE_SIZE cfg)))), w).
Proof.
  intros Hw Hs Hget Hle Hkey Hd Hrow Hdoc. unfold submit.
  destruct (run_download host cfg url bs w Hget Hle) as (path & t & Hnone & Hdl).
  rewrite run_bind, Hdl. cbv beta iota. unfold finally. rewrite run_bind, run_bind, run_attempt.
  rewrite run_bind, (run_hash_file path (File (concat bs) t)) by apply lookup_insert_eq. cbv beta iota.
  cbn [f_data]. rewrite run_bind, run_reraise, Hkey. cbv beta iota.
  rewrite run_bind, (run_cached_hit d row p pages total_length) by done. cbn [run mret prog_mret].
  pose proof (run_remove_temp path (File (concat bs) t) w Hnone (w_s3 w)) as Hrm.
  rewrite (set_s3_id w) in Hrm by apply Hs. rewrite (set_s3_id (set_files _ w)) in Hrm by apply Hs.
  rewrite run_bind, Hrm. reflexivity.
Qed.

(** The tasks [submit] publishes are the chunks' tasks. *)
Lemma submit_tasks_spec J d h use_llm total ranges index all :
  (∀ i, ranges !! i = all !! (Z.to_nat index + i)%nat) → 0 <= index → total = len all →
  submit_tasks J d h total use_llm index ranges =
  (λ i, chunk_task J d h use_llm all i 1) <$> seq (Z.to_nat index) (length ranges).
Proof.
  revert index. induction ranges as [|[start end_] ranges IH]; intros index Hall Hi ->; [done|].
  cbn [submit_tasks length seq fmap list_fmap]. f_equal.
  - unfold chunk_task. rewrite <-(Nat.add_0_r (Z.to_nat index)), <-Hall. simpl.
    by rewrite Nat.add_0_r, Z2Nat.id.
  - rewrite (IH (index + 1)); [|intros i|lia|done].
    + by replace (Z.to_nat (index + 1)) with (Datatypes.S (Z.to_nat index)) by lia.
    + specialize (Hall (Datatypes.S i)). simpl in Hall. rewrite Hall. f_equal. lia.
Qed.

Lemma create_job_ok ts J d h url ranges use_llm db :
  db_inv db → db_jobs db !! J = None → ∃ db', create_job_sql ts J d h url ranges use_llm db = inr (tt, db').
Proof.
  intros [_ Hch] Hnone. unfold create_job_sql, sql_insert. rewrite Hnone. simpl.
  assert (∀ index db, 0 <= index → (∀ i, index <= i → db_chunks db !! (J, i) = None) →
    ∃ db', insert_chunks ts J index ranges db = inr db') as Hins.
  { clear. induction ranges as [|[start end_] ranges IH]; intros index db Hi Hfree; [by eexists|].
    cbn [insert_chunks]. unfold sql_insert. rewrite (Hfree index) by lia. simpl. apply IH; [lia|].
    intros i Hi'. simpl. rewrite lookup_insert_ne by (intros [= ?]; lia). apply Hfree. lia. }
  match goal with |- context [insert_chunks _ _ _ _ ?db0] => destruct (Hins 0 db0) as [db' ->] end;
    [lia| |by eexists].
  intros i _. simpl. destruct (db_chunks db !! (J, i)) eqn:E; [|done].
  destruct (Hch _ _ _ E) as [[? ?] _]. congruence.
Qed.

(** The source is in the bucket after [put_source], and no other object changed. *)
Lemma run_put_source h path f w :
  s3_ready w → w_files w !! (host, path) = Some f →
  (∀ d, s3_get (source_key h) (w_s3 w) = Some d → d = f_data f) →
  ∃ s, run (put_source host h path) w = (Val (source_key h), set_s3 s [] w) ∧
    s3_bucket s = true ∧ s3_get (source_key h) s = Some (f_data f) ∧
    ∀ k, k ≠ source_key h → s3_get k s = s3_get k (w_s3 w).
Proof.
  intros [Hf Hb] Hp Hsame. unfold put_source, exists_.
  rewrite run_bind, run_bind, run_attempt, run_s3_call by done. rewrite Hb. cbn [andb].
  case_bool_decide as Hex; cbv beta iota.
  - exists (w_s3 w). destruct Hex as [d Hd]. split_and!; [done|done| |done]. by rewrite Hd, (Hsame d Hd).
  - cbn [run mret prog_mret]. rewrite run_bind. unfold read_file. rewrite run_io, Hp. cbv beta iota.
    rewrite run_bind. unfold put_object. rewrite run_s3_call by done. rewrite Hb.
    eexists. split; [reflexivity|]. split_and!.
    + by rewrite s3_bucket_put.
    + apply s3_get_put.
    + intros k Hk. by apply s3_get_put_ne.
Qed.

#[local] Abbreviation planned := (planned cfg).

Lemma run_page_count path f w :
  w_files w !! (host, path) = Some f → run (page_count host path) w = (Val (pages_of (f_data f)), w).
Proof.
  intros Hf. unfold page_count, pages_of. rewrite run_bind, run_attempt, run_bind. unfold read_file.
  rewrite run_io, Hf. cbv beta iota. rewrite run_reraise. by destruct (pdf_pages (f_data f)).
Qed.

(** A new document: the URL serves [d], nothing is cached under its key, the
    drawn job id is new. *)
Definition new_document (url : pystr) (use_llm : bool) (d : bytes) (D : pystr) w : Prop :=
  (∃ bs, http_get url = inr (200, inr <$> bs) ∧ concat bs = d) ∧ len d <= MAX_DOWNLOAD_BYTES cfg ∧
  make_doc_key cfg (sha256_hex d) use_llm = inr D ∧ encodable D ∧ encodable (sha256_hex d) ∧
  encodable new_job_id ∧
  (db_documents (w_db w) !! D = None ∨ s3_get (manifest_key D) (w_s3 w) = None) ∧
  db_jobs (w_db w) !! new_job_id = None ∧
  (∀ d', s3_get (source_key (sha256_hex d)) (w_s3 w) = Some d' → d' = d).

Definition job_tasks (use_llm : bool) (d : bytes) (D : pystr) (ranges : list (Z * Z)) : list ChunkTask :=
  (λ i, chunk_task new_job_id D (sha256_hex d) use_llm ranges i 1) <$> seq 0 (length ranges).

Lemma job_tasks_text use_llm d D ranges :
  encodable D → encodable (sha256_hex d) → encodable new_job_id →
  Forall task_text (job_tasks use_llm d D ranges).
Proof. intros. apply Forall_fmap, Forall_forall. intros i _. by split_and!. Qed.

Lemma run_submit_queued url use_llm d D ranges w :
  db_ready host w → s3_ready w → mq_ready host cfg w → db_inv (w_db w) →
  new_document url use_llm d D w → planned d = inr ranges →
  ∃ s db', create_job_sql (w_clock w) new_job_id D (sha256_hex d) url ranges use_llm (w_db w) = inr (tt, db') ∧
    run (submit host cfg new_job_id url use_llm) w =
      (Val (Queued new_job_id D (len ranges)),
       set_mq (published (RABBITMQ_EXCHANGE cfg) (RABBITMQ_QUEUE cfg)
                 ((λ t, dumps (asdict t)) <$> job_tasks use_llm d D ranges) (w_mq w)) []
         (set_db db' [] (set_s3 s [] w))) ∧
    s3_bucket s = true ∧ s3_get (source_key (sha256_hex d)) s = Some d ∧
    (∀ k, k ≠ source_key (sha256_hex d) → s3_get k s = s3_get k (w_s3 w)).
Proof.
  intros Hw Hs (Hmf & Hmo & Htop) Hinv ((bs & Hget & Hbs) & Hle & Hkey & HD & Hh & HJ & Hmiss & Hfresh & Hsame)
    Hplan. subst d. set (d := concat bs) in *. set (h := sha256_hex d) in *.
  destruct (create_job_ok (w_clock w) new_job_id D h url ranges use_llm (w_db w) Hinv Hfresh) as [db' Hdb'].
  destruct (run_download host cfg url bs w Hget Hle) as (path & t & Hnone & Hdl). fold d in Hdl.
  set (w1 := set_files (<[(host, path) := File d t]> (w_files w)) w) in *.
  assert (w_files w1 !! (host, path) = Some (File d t)) as Hf by apply lookup_insert_eq.
  destruct (run_put_source h path (File d t) w1) as (s & Hput & Hb & Hsrc & Hoth); [exact Hs|done|exact Hsame|].
  exists s, db'. split; [done|]. split; [|by split_and!].
  unfold submit. rewrite run_bind, Hdl. cbv beta iota. unfold finally. rewrite run_bind, run_bind, run_attempt.
  rewrite run_bind, (run_hash_file path (File d t)) by done. cbv beta iota. cbn [f_data]. fold h.
  rewrite run_bind, run_reraise, Hkey. cbv beta iota.
  rewrite run_bind, (run_cached_miss D w1) by done. cbv beta iota.
  rewrite run_bind, (run_page_count path (File d t)) by done. cbv beta iota. cbn [f_data].
  rewrite run_bind, run_reraise. fold (planned d). rewrite Hplan. cbv beta iota.
  rewrite run_bind, Hput. cbn [run mret prog_mret].
  rewrite run_bind. unfold w1. rewrite run_remove_temp by done. cbn [run reraise].
  rewrite run_bind, run_create_job by exact Hw. cbn [w_clock w_db set_s3].
  rewrite Hdb'. cbv beta iota.
  rewrite (submit_tasks_spec _ _ _ _ _ _ 0 ranges) by (done || lia).
  change (seq (Z.to_nat 0) (length ranges)) with (seq 0 (length ranges)).
  rewrite run_bind. fold (job_tasks use_llm d D ranges).
  rewrite run_publish; [done|done|done|by apply job_tasks_text].
Qed.

(** C13: Submitting a new document queues it: one job row with a pending row per
    planned range, the source in the bucket under its hash, one message per chunk
    on the work queue in order, nothing else on any queue, no other object
    changed, no file left behind, and the database invariant kept. *)
Theorem submit_queues (url : pystr) (use_llm : bool) (d : bytes) (D : pystr) (ranges : list (Z * Z)) w :
  db_ready host w → s3_ready w → mq_ready host cfg w → db_inv (w_db w) →
  new_document url use_llm d D w → planned d = inr ranges →
  ∃ w', run (submit host cfg new_job_id url use_llm) w = (Val (Queued new_job_id D (len ranges)), w') ∧
    db_inv (w_db w') ∧
    (∃ j, db_jobs (w_db w') !! new_job_id = Some j ∧ j_status j = JQueued ∧ j_doc_key j = D ∧
       j_remaining_chunks j = len ranges ∧ not_done (w_db w') new_job_id = len ranges) ∧
    s3_get (source_key (sha256_hex d)) (w_s3 w') = Some d ∧
    (∀ k, k ≠ source_key (sha256_hex d) → s3_get k (w_s3 w') = s3_get k (w_s3 w)) ∧
    from_bytes <$> mq_messages (RABBITMQ_QUEUE cfg) (w_mq w') =
      (from_bytes <$> mq_messages (RABBITMQ_QUEUE cfg) (w_mq w)) ++
      (Parsed <$> job_tasks use_llm d D ranges) ∧
    (∀ q, q ≠ RABBITMQ_QUEUE cfg → mq_messages q (w_mq w') = mq_messages q (w_mq w)) ∧
    w_files w' = w_files w.
Proof.
  intros Hw Hs Hm Hinv Hnew Hplan.
  destruct (run_submit_queued url use_llm d D ranges w) as (s & db' & Hdb & Hrun & _ & Hsrc & Hoth); try done.
  pose proof (create_job_inv _ _ _ _ _ _ _ _ _ Hdb Hinv) as Hinv'.
  destruct Hnew as (_ & _ & _ & HD & Hh & HJ & _). destruct Hm as (_ & _ & Htop).
  eexists. split; [exact Hrun|]. cbn [w_db w_s3 w_mq w_files set_mq set_db set_s3].
  split; [done|]. split.
  { unfold create_job_sql, sql_insert in Hdb. destruct (db_jobs (w_db w) !! new_job_id) eqn:Hn; [done|].
    simpl in Hdb. destruct (insert_chunks _ _ _ _ _) as [|db1] eqn:Hins; [done|]. injection Hdb as <-.
    apply insert_chunks_spec in Hins as (Hjs & _). cbn [db_jobs set_jobs] in Hjs.
    match type of Hjs with _ = <[_ := ?row]> _ =>
      assert (db_jobs db1 !! new_job_id = Some row) as Hj by (rewrite Hjs; apply lookup_insert_eq)
    end.
    eexists. split; [exact Hj|]. destruct Hinv' as [Hjobs _].
    pose proof (proj2 (Hjobs new_job_id _ Hj) eq_refl) as Hcnt. by split_and!. }
  split_and!; [done|done| | |done].
  - rewrite messages_published, bound_work_queue, bool_decide_true by done.
    rewrite fmap_app, <-list_fmap_compose. f_equal. apply list_fmap_ext. intros i tk Hi.
    apply from_to_bytes. by eapply (Forall_lookup_1 _ _ _ _ (job_tasks_text use_llm d D ranges HD Hh HJ)).
  - intros q Hq. rewrite messages_published, bound_work_queue, bool_decide_false by done. apply app_nil_r.
Qed.
End service.

(** ** From the request to the document *)
Section end_to_end.
Context {S B : Type} `{ObjectStoreLaws S} `{BrokerLaws B} `{TempLaws} `{Codecs}.
Context (host : pystr) (cfg : config) (job_id : pystr).
#[local] Abbreviation world := (world S B).
Implicit Types (w : world).

(** The reply for a finished job. *)
Lemma run_completed_payload D h ranges texts j w :
  s3_ready w → encodable D → j_doc_key j = D → j_status j = JDone →
  finished cfg D h ranges texts w → job_pages cfg texts ≠ [] →
  run (completed_job_payload j) w =
  (Val (PageReply (Build_PageResponse D (default [] (head (job_pages cfg texts)))
     (build_pagination D 1 (len (job_pages cfg texts)) (len (job_markdown texts)) (PAGE_SIZE cfg)))), w).
Proof.
  intros Hs HD HjD Hst [Hdoc _] Hne. unfold completed_job_payload. rewrite Hst, HjD.
  rewrite run_bind, (run_get_manifest cfg D (job_pages cfg texts) (len (job_markdown texts))) by done.
  cbv beta iota. destruct (job_pages cfg texts) as [|p pages]; [done|].
  rewrite run_bind, run_first_page_payload by done. done.
Qed.

Lemma job_tasks_tagged use_llm d D ranges :
  job_tasks job_id use_llm d D ranges =
  (λ t, chunk_task job_id D (sha256_hex d) use_llm ranges t.1 t.2) <$> ((., 1) <$> seq 0 (length ranges)).
Proof. unfold job_tasks. by rewrite <-list_fmap_compose. Qed.

(** A job that was just created is not over. *)
Lemma created_active ts D h url ranges use_llm db db' j :
  create_job_sql ts job_id D h url ranges use_llm db = inr (tt, db') → db_jobs db' !! job_id = Some j →
  terminal (j_status j) = false.
Proof.
  unfold create_job_sql, sql_insert. destruct (db_jobs db !! job_id); [done|]. simpl.
  destruct (insert_chunks _ _ _ _ _) as [|db1] eqn:Hins; [done|]. intros [= <-].
  apply insert_chunks_spec in Hins as (-> & _). cbn. rewrite lookup_insert_eq. by intros [= <-].
Qed.

(** C9: The blocking endpoint end to end.  A POST of a URL whose document is new,
    with an empty work queue: the endpoint plans the chunks, stores the source,
    creates the job, publishes one message per chunk and waits.  While it sleeps,
    workers take turns at the queue in any order, each turn being one delivery by the
    broker, its handling and its acknowledgement, at least as many turns as there
    are chunks.  The reply is then the first page of the pagination of the converted
    chunks joined in page order, with the pagination of the whole document; the job
    is done, its document is stored, and the queue is empty. *)
Theorem convert_end_to_end (url : pystr) (use_llm : bool) (d : bytes) (D : pystr) (ranges : list (Z * Z))
    (texts : list pystr) (api_key : option pystr) (hosts schedule : list pystr) (liveness_file : pystr)
    (ill_typed : list (pystr * json) → prog world unit) w :
  db_ready host w → s3_ready w → mq_ready host cfg w → db_inv (w_db w) →
  mq_messages (RABBITMQ_QUEUE cfg) (w_mq w) = [] →
  new_document cfg job_id url use_llm d D w → url ≠ [] → planned cfg d = inr ranges → ranges ≠ [] →
  job_converts cfg api_key D d use_llm ranges texts →
  (∀ wk, wk ∈ hosts → db_ready wk w ∧ cache_only wk cfg (sha256_hex d) d w) → host ∈ hosts →
  liveness_apart cfg (sha256_hex d) liveness_file →
  Forall (λ wk, wk ∈ hosts ∧ wk ∉ w_stop w) schedule → (length ranges <= length schedule)%nat →
  ∃ w', run (convert_endpoint host cfg job_id (fleet_turns cfg api_key liveness_file ill_typed schedule) 2
               (Some (Build_ConvertRequest (Some url) (Some use_llm)))) w =
    (Val (PageReply (Build_PageResponse D (default [] (head (job_pages cfg texts)))
       (build_pagination D 1 (len (job_pages cfg texts)) (len (job_markdown texts)) (PAGE_SIZE cfg)))), w') ∧
    completed cfg job_id D (sha256_hex d) ranges texts w' ∧
    mq_messages (RABBITMQ_QUEUE cfg) (w_mq w') = [].
Proof.
  intros Hw Hs Hm Hinv Hempty Hnew Hurl Hplan Hne Hjc Hfleet Hhost Hlive Hsch Hlen.
  destruct (run_submit_queued host cfg job_id url use_llm d D ranges w)
    as (s & db' & Hdb & Hsub & Hb & Hsrc & _); try done.
  set (w1 := set_mq _ _ _) in Hsub.
  assert (fleet_ready cfg (sha256_hex d) d hosts w1) as Hw1.
  { split_and!; [by split|done|]. intros wk Hin. destruct (Hfleet wk Hin) as [(? & ? & ?) Hc].
    split; [by split_and!|exact Hc]. }
  pose proof (created_in_progress cfg job_id D (sha256_hex d) d use_llm ranges texts hosts (w_clock w) url
    (w_db w) w1 Hne Hinv Hdb Hw1) as Hdi.
  destruct (fleet_turns_inv cfg api_key job_id D (sha256_hex d) d use_llm ranges texts hosts liveness_file
    ill_typed schedule ((., 1) <$> seq 0 (length ranges)) [] w1) as (w2 & Hdrain & Hinv2 & Hq2); try done.
  { destruct Hnew as (_ & _ & _ & HD & Hh & HJ & _). destruct Hm as (_ & _ & Htop).
    unfold w1. cbn [w_mq set_mq]. rewrite messages_published, bound_work_queue, bool_decide_true, Hempty by done.
    rewrite app_nil_l, <-list_fmap_compose.
    transitivity (Parsed <$> job_tasks job_id use_llm d D ranges);
      [|by rewrite job_tasks_tagged, <-!list_fmap_compose].
    apply list_fmap_ext. intros i tk Hi. apply from_to_bytes.
    by eapply (Forall_lookup_1 _ _ _ _ (job_tasks_text job_id use_llm d D ranges HD Hh HJ)). }
  { apply Forall_fmap, Forall_seq. simpl. lia. }
  { by rewrite length_fmap, length_seq. }
  assert (completed cfg job_id D (sha256_hex d) ranges texts w2) as Hcomp.
  { eapply drain_inv_covered; [exact Hinv2|]. intros i Hi. rewrite app_nil_r. apply elem_of_reverse.
    rewrite <-list_fmap_compose. apply list_elem_of_fmap. exists i. split; [done|]. apply elem_of_seq. lia. }
  destruct Hinv2 as ((Hs2 & _ & Hh2) & _ & _). destruct (Hh2 host Hhost) as [Hr2 _].
  exists w2. split; [|done]. destruct Hcomp as [(j2 & Hj2 & Hrow2 & Hst2) Hfin].
  assert (∃ j1, db_jobs (w_db w1) !! job_id = Some j1) as [j1 Hj1]
    by (destruct Hdi as (_ & _ & [(j1 & Hj1 & _)|[(j1 & Hj1 & _) _]]); by exists j1).
  pose proof (created_active _ _ _ _ _ _ _ _ _ Hdb Hj1) as Hact1.
  destruct url as [|c url]; [done|].
  unfold convert_endpoint, submit_request. cbn [from_option id]. rewrite run_bind, run_bind, run_attempt, Hsub.
  cbn [run mret prog_mret]. rewrite run_bind. cbn [wait_for_job].
  assert (db_ready host w1) as Hr1 by (apply Hw1, Hhost).
  rewrite run_bind, run_get_job by done. cbv beta iota. rewrite set_db_same by apply Hr1.
  rewrite Hj1, Hact1, run_bind, Hdrain. cbv beta iota.
  rewrite run_bind, run_get_job by done. cbv beta iota. rewrite set_db_same by apply Hr2.
  rewrite Hj2, Hst2. cbn [terminal run mret prog_mret].
  pose proof (job_pages_ok cfg api_key D d use_llm ranges texts Hjc) as [Hp _].
  apply (run_completed_payload D (sha256_hex d) ranges texts); try done.
  - apply Hnew.
  - apply Hrow2.
  - by eapply paginate_nonempty.
Qed.
End end_to_end.

(** ** Witnesses: a three-page document, two workers, chunks of two pages *)
Definition e2e_config : config :=
  Config (Some (u "secret")) 7 (u "m") false 2 2 5000 1000 (u "x") (u "q") [5] 3 (u "/c") 1000.

Definition e2e_hosts : list pystr := [u "api"; u "w1"; u "w2"].

Definition e2e_world (db : database) (objects : gmap pystr bytes) : world map_store map_broker :=
  World 9 db (MapStore true objects) (topology_broker e2e_config) ∅
    (list_to_set e2e_hosts) (list_to_set e2e_hosts) {[u "api"]} ∅ [] [] [].

Lemma e2e_db_ready db objects host : host ∈ e2e_hosts → db_ready host (e2e_world db objects).
Proof. intros Hin. split_and!; [reflexivity|by apply elem_of_list_to_set..]. Qed.

Lemma e2e_mq_ready db objects : mq_ready (u "api") e2e_config (e2e_world db objects).
Proof. split_and!; [reflexivity|by apply elem_of_singleton|apply topology_broker_ok]. Qed.

Lemma e2e_s3_ready db objects : s3_ready (e2e_world db objects).
Proof. split; reflexivity. Qed.

Definition e2e_url : pystr := u "http://h/a.pdf".
Definition e2e_body : bytes := u "%abc".
Definition e2e_key : pystr :=
  match make_doc_key e2e_config (sha256_hex e2e_body) false with inr k => k | inl _ => [] end.

Lemma e2e_get : http_get e2e_url = inr (200, inr <$> [u "%a"; u "bc"]).
Proof. vm_compute. reflexivity. Qed.

Lemma e2e_key_ok : make_doc_key e2e_config (sha256_hex e2e_body) false = inr e2e_key ∧ encodable e2e_key.
Proof. split; [vm_compute; reflexivity|]. by apply (bool_decide_unpack _); vm_compute. Qed.

Lemma e2e_new : new_document e2e_config (u "j1") e2e_url false e2e_body e2e_key (e2e_world empty_db ∅).
Proof.
  split_and!.
  - exists [u "%a"; u "bc"]. split; [exact e2e_get|reflexivity].
  - by vm_compute.
  - apply e2e_key_ok.
  - apply e2e_key_ok.
  - by apply (bool_decide_unpack _); vm_compute.
  - apply encodable_u.
  - left. cbn. apply lookup_empty.
  - cbn. apply lookup_empty.
  - intros d'. cbn. rewrite lookup_empty. discriminate.
Qed.

Lemma get_page_endpoint_spec_witness :
  run (get_page_endpoint (u "d") 2)
    (set_s3 (stored_document e2e_config (u "d") [u "x"; u "y"] 4 (MapStore true ∅)) []
       (e2e_world empty_db ∅)) =
  (Val (PageReply (Build_PageResponse (u "d") (u "y") (build_pagination (u "d") 2 2 4 5000))),
   set_s3 (stored_document e2e_config (u "d") [u "x"; u "y"] 4 (MapStore true ∅)) [] (e2e_world empty_db ∅)).
Proof.
  apply (get_page_endpoint_spec e2e_config (u "d") [u "x"; u "y"] 4 2
    (set_s3 (stored_document e2e_config (u "d") [u "x"; u "y"] 4 (MapStore true ∅)) []
       (e2e_world empty_db ∅))).
  - split; reflexivity.
  - apply encodable_u.
  - apply stored_document_spec. do 2 (apply Forall_cons_2; [apply encodable_u|]). constructor.
Defined.

Lemma get_page_endpoint_missing_witness :
  run (get_page_endpoint (u "d") 1) (e2e_world empty_db ∅) = (Val page_not_found, e2e_world empty_db ∅).
Proof. apply get_page_endpoint_missing; [apply e2e_s3_ready|reflexivity]. Defined.

Lemma progress_truthful_witness :
  ∃ p, run (get_job_endpoint (u "api") (u "j")) (e2e_world one_left ∅) =
    (Val (JobReply (Build_JobStatus (u "j") JRunning (u "d:f") p None 100 101)), e2e_world one_left ∅) ∧
    pr_total p = 2 ∧ pr_completed p = 1.
Proof.
  destruct (progress_truthful (u "api") [Tau; Completed (u "j") 1] (u "j")
    (decremented 101 two_chunks_job) (e2e_world one_left ∅))
    as (p & Hrun & Htot & Hcomp & _).
  - apply e2e_db_ready, list_elem_of_here.
  - exact one_left_trace.
  - set_solver.
  - vm_compute. reflexivity.
  - reflexivity.
  - exists p. split; [exact Hrun|]. split; [exact Htot|]. rewrite Hcomp. vm_compute. reflexivity.
Defined.

Definition cached_db : database :=
  record_document_sql e2e_config 5 e2e_key (sha256_hex e2e_body) 1 1 4 5000 empty_db.

Definition cached_world : world map_store map_broker :=
  set_s3 (stored_document e2e_config e2e_key [u "text"] 4 (MapStore true ∅)) [] (e2e_world cached_db ∅).

Lemma submit_cached_witness :
  run (submit (u "api") e2e_config (u "j1") e2e_url false) cached_world =
  (Val (Cached (Build_PageResponse e2e_key (u "text") (build_pagination e2e_key 1 1 4 5000))), cached_world).
Proof.
  apply (submit_cached (u "api") e2e_config (u "j1") e2e_url false [u "%a"; u "bc"] e2e_key
    (Document (sha256_hex e2e_body) (default [] (last (split (u ":") e2e_key))) 1 1 4 5000 5 (5 + 7 * 86400))
    (u "text") [] 4).
  - apply db_ready_set_db with (db := cached_db) (w := cached_world),
      (e2e_db_ready cached_db ∅), list_elem_of_here.
  - split; reflexivity.
  - exact e2e_get.
  - by vm_compute.
  - apply e2e_key_ok.
  - apply e2e_key_ok.
  - unfold cached_world, cached_db. cbn [w_db set_s3 e2e_world record_document_sql set_documents db_documents].
    apply lookup_insert_eq.
  - apply stored_document_spec. constructor; [apply encodable_u|constructor].
Defined.

Lemma submit_queues_witness :
  ∃ w', run (submit (u "api") e2e_config (u "j1") e2e_url false) (e2e_world empty_db ∅) =
      (Val (Queued (u "j1") e2e_key 2), w') ∧
    s3_get (source_key (sha256_hex e2e_body)) (w_s3 w') = Some e2e_body.
Proof.
  destruct (submit_queues (u "api") e2e_config (u "j1") e2e_url false e2e_body e2e_key [(0, 2); (2, 3)]
    (e2e_world empty_db ∅)) as (w' & Hrun & _ & _ & Hsrc & _).
  - apply e2e_db_ready, list_elem_of_here.
  - apply e2e_s3_ready.
  - apply e2e_mq_ready.
  - exact db_inv_empty.
  - exact e2e_new.
  - vm_compute. reflexivity.
  - exists w'. split; [exact Hrun|exact Hsrc].
Defined.

Lemma e2e_converts :
  job_converts e2e_config None e2e_key e2e_body false [(0, 2); (2, 3)] [u "[%ab]"; u "[%c]"].
Proof.
  assert (Forall encodable [u "[%ab]"; u "[%c]"]) as Henc
    by (do 2 (apply Forall_cons_2; [apply encodable_u|]); constructor).
  split_and!; [reflexivity|exact Henc|apply e2e_key_ok|by vm_compute|by vm_compute|discriminate|].
  intros [|[|i]] r text Hr Ht; simplify_eq/=; eexists; (split; [reflexivity|]); intros path; reflexivity.
Qed.

Lemma convert_end_to_end_witness :
  ∃ w', run (convert_endpoint (u "api") e2e_config (u "j1")
               (fleet_turns e2e_config None (u "/tmp/alive") (λ _, mret tt) [u "w2"; u "w1"; u "w1"]) 2
               (Some (Build_ConvertRequest (Some e2e_url) (Some false)))) (e2e_world empty_db ∅) =
    (Val (PageReply (Build_PageResponse e2e_key (u "[%ab]" ++ nl2 ++ u "[%c]")
       (build_pagination e2e_key 1 1 11 5000))), w').
Proof.
  destruct (convert_end_to_end (u "api") e2e_config (u "j1") e2e_url false e2e_body e2e_key [(0, 2); (2, 3)]
    [u "[%ab]"; u "[%c]"] None e2e_hosts [u "w2"; u "w1"; u "w1"] (u "/tmp/alive") (λ _, mret tt)
    (e2e_world empty_db ∅)) as (w' & Hrun & _).
  - apply e2e_db_ready, list_elem_of_here.
  - apply e2e_s3_ready.
  - apply e2e_mq_ready.
  - exact db_inv_empty.
  - vm_compute. reflexivity.
  - exact e2e_new.
  - discriminate.
  - vm_compute. reflexivity.
  - discriminate.
  - exact e2e_converts.
  - intros wk Hin. split; [by apply e2e_db_ready|]. split; intros *; cbn; rewrite lookup_empty; discriminate.
  - apply list_elem_of_here.
  - split; [vm_compute; reflexivity|discriminate].
  - repeat constructor; unfold e2e_hosts; cbn; set_solver.
  - cbn. lia.
  - exists w'. exact Hrun.
Defined.
