(* ===== verification/Integrity.v ===== *)
(** * The integrity invariant

    What is in the bucket, in the caches, in the tables and on the queues is what
    the reference converter of Spec.v says it should be: sources and cached files
    have the hash in their name, every part is the text of its page range, every
    page is that page of its document, and every job and every task belongs to a
    document and to the ranges planned for it.  The invariant says nothing about
    what is missing, so objects and messages may disappear at any time. *)
From S2P Require Import Prelude PyStr Effects Rely Utf8 Json Database Config World Db Jobstore.
From S2P Require Import Counter Files Chunker Storage Taskqueue Converter Pagination Worker Spec.
From S2P Require Import Cache Handler Drain Api Quiet.

Section integrity.
Context {S B : Type} `{ObjectStoreLaws S} `{BrokerLaws B} `{TempLaws} `{!ShaLaws} `{Codecs}.
Context (cfg : config).
#[local] Abbreviation world := (world S B).
Implicit Types (w : world).
#[local] Abbreviation has_key := (has_key cfg).
#[local] Abbreviation planned := (planned cfg).

(** ** Objects *)
Definition source_ok (h : pystr) (d : bytes) : Prop := served d ∧ sha256_hex d = h.

Definition part_ok (D : pystr) (i : Z) (b : bytes) : Prop :=
  ∃ d l ranges r text, has_key D d l ∧ planned d = inr ranges ∧ ranges !! Z.to_nat i = Some r ∧
    chunk_text cfg l d r = inr text ∧ encode text = inr b.

Definition page_fine (D : pystr) (i : Z) (b : bytes) : Prop :=
  ∃ d l pages p, has_key D d l ∧ reference_pages cfg l d = inr pages ∧
    pages !! Z.to_nat (i - 1) = Some p ∧ encode p = inr b.

Definition manifest_ok (D : pystr) (b : bytes) : Prop :=
  ∃ d l md pages, has_key D d l ∧ reference_markdown cfg l d = inr md ∧
    reference_pages cfg l d = inr pages ∧
    encode (dumps (manifest_dict (Manifest D (len pages) (len md) (PAGE_SIZE cfg)))) = inr b.

(** What may be stored under a key. *)
Record object_fine (k : pystr) (b : bytes) : Prop := {
  of_source : ∀ h, k = source_key h → source_ok h b;
  of_part : ∀ D i, 0 <= i → k = part_key D i → part_ok D i b;
  of_page : ∀ D i, 1 <= i → k = page_key D i → page_fine D i b;
  of_manifest : ∀ D, k = manifest_key D → manifest_ok D b;
}.

(** What may be in a file: a name in the source cache promises its hash. *)
Definition file_fine (p : pystr) (d : bytes) : Prop :=
  ∀ h, hash_name h → p = cache_path cfg h → source_ok h d.

(** ** Jobs and tasks *)

(** The conversion of the document succeeds. *)
Definition converts_to (d : bytes) (l : bool) (md : pystr) (pages : list pystr) : Prop :=
  reference_markdown cfg l d = inr md ∧ reference_pages cfg l d = inr pages.

Definition job_fine (db : database) (J : pystr) (j : job) : Prop :=
  ∃ d l ranges, has_key (j_doc_key j) d l ∧ planned d = inr ranges ∧
    (∀ i, is_Some (db_chunks db !! (J, i)) ↔ 0 <= i < len ranges) ∧
    (j_status j = JDone → ∃ md pages, converts_to d l md pages).

Definition jobs_fine (db : database) : Prop :=
  (∀ J j, db_jobs db !! J = Some j → job_fine db J j) ∧
  (∀ J i, is_Some (db_chunks db !! (J, i)) → is_Some (db_jobs db !! J)).

Definition task_ok (t : ChunkTask) : Prop :=
  ∃ d ranges, has_key (t_doc_key t) d (t_use_llm t) ∧ t_file_hash t = sha256_hex d ∧
    encodable (t_job_id t) ∧ planned d = inr ranges ∧ 0 <= t_chunk_index t ∧
    ranges !! Z.to_nat (t_chunk_index t) = Some (t_start_page t, t_end_page t).

Definition body_ok (body : bytes) : Prop := ∃ t, from_bytes body = Parsed t ∧ task_ok t.

(** A message that is on its way to a worker: on any queue but the failed one, or
    delivered and not acknowledged. *)
Definition in_transit (b : B) (body : bytes) : Prop :=
  ∃ q, q ≠ FAILED_QUEUE cfg ∧ (body ∈ mq_messages q b ∨ ∃ tag, mq_unacked tag b = Some (q, body)).

(** Dead letters only go to the failed queue. *)
Definition dlx_sealed (b : B) : Prop :=
  ∀ key q, mq_bound (DLX_EXCHANGE cfg) key q b = true → q = FAILED_QUEUE cfg.

Definition broker_fine (b : B) : Prop :=
  (∀ body, in_transit b body → body_ok body) ∧ dlx_sealed b.

Record content_inv w : Prop := {
  ci_objects : ∀ k b, s3_get k (w_s3 w) = Some b → object_fine k b;
  ci_files : ∀ host p f, w_files w !! (host, p) = Some f → file_fine p (f_data f);
  ci_jobs : jobs_fine (w_db w);
  ci_broker : broker_fine (w_mq w);
}.

(** ** Rely and guarantee *)

(** Jobs stay, with their document key. *)
Definition jobs_kept (db db' : database) : Prop :=
  ∀ J j, db_jobs db !! J = Some j → ∃ j', db_jobs db' !! J = Some j' ∧ j_doc_key j' = j_doc_key j.

(** The other processes do not touch the files of this host ... *)
Definition rely (host : pystr) w w' : Prop :=
  jobs_kept (w_db w) (w_db w') ∧ ∀ p, w_files w' !! (host, p) = w_files w !! (host, p).

(** ... nor this one theirs ... *)
Definition guar (host : pystr) w w' : Prop :=
  jobs_kept (w_db w) (w_db w') ∧
  ∀ h p, h ≠ host → w_files w' !! (h, p) = w_files w !! (h, p).

(** ... and most actions touch no file. *)
Definition guar_quiet w w' : Prop := jobs_kept (w_db w) (w_db w') ∧ w_files w' = w_files w.

Lemma jobs_kept_refl db : jobs_kept db db.
Proof. by intros J j Hj; exists j. Qed.
#[local] Hint Resolve jobs_kept_refl : core.

Lemma guar_rely host host' w w' : host ≠ host' → guar host w w' → rely host' w w'.
Proof. intros Hne [Hj Hf]. split; [done|]. intros p. by apply Hf. Qed.

Lemma guar_quiet_guar host w w' : guar_quiet w w' → guar host w w'.
Proof. intros [Hj Hf]. split; [done|]. intros h p _. by rewrite Hf. Qed.

(** ** Changes that keep the invariant *)
Lemma content_files w fs :
  content_inv w → (∀ host p f, fs !! (host, p) = Some f → file_fine p (f_data f)) →
  content_inv (set_files fs w).
Proof. intros [Ho Hf Hj Hb] Hfs. by split. Qed.

Lemma content_s3 w s fs :
  content_inv w → (∀ k b, s3_get k s = Some b → s3_get k (w_s3 w) = Some b ∨ object_fine k b) →
  content_inv (set_s3 s fs w).
Proof. intros [Ho Hf Hj Hb] Hs. split; [|done..]. intros k b Hk. destruct (Hs k b Hk); auto. Qed.

Lemma content_put w k b fs :
  content_inv w → object_fine k b →
  content_inv (set_s3 (s3_put k b (w_s3 w)) fs w) ∧ guar_quiet w (set_s3 (s3_put k b (w_s3 w)) fs w).
Proof.
  intros HI Hk. split; [|by split]. apply content_s3; [done|]. intros k' b'.
  destruct (decide (k = k')) as [->|Hne].
  - rewrite s3_get_put. intros [= <-]. by right.
  - rewrite s3_get_put_ne by done. by left.
Qed.

Lemma content_mq w b fs : content_inv w → broker_fine b → content_inv (set_mq b fs w).
Proof. intros [Ho Hf Hj _] Hb. by split. Qed.

(** Statements that neither add nor remove rows of the two tables, keep the
    document keys, and finish no job. *)
Definition rows_kept (db db' : database) : Prop :=
  (∀ J, option_Forall2 (λ j j', j_doc_key j' = j_doc_key j ∧ (j_status j' = JDone → j_status j = JDone))
          (db_jobs db !! J) (db_jobs db' !! J)) ∧
  (∀ k, is_Some (db_chunks db' !! k) ↔ is_Some (db_chunks db !! k)).

Lemma rows_kept_refl db : rows_kept db db.
Proof. split; [|done]. intros J. destruct (db_jobs db !! J); by constructor. Qed.

Lemma rows_kept_jobs db db' : rows_kept db db' → jobs_kept db db'.
Proof.
  intros [Hj _] J j HJ. specialize (Hj J). rewrite HJ in Hj. inversion Hj as [? j' [Hk _] |]; subst.
  by exists j'.
Qed.

Lemma rows_kept_fine db db' : rows_kept db db' → jobs_fine db → jobs_fine db'.
Proof.
  intros [Hj Hc] [Hjobs Hch]. split.
  - intros J j HJ. specialize (Hj J). rewrite HJ in Hj. inversion Hj as [j0 ? [Hk' Hst] HJ0|]; subst.
    destruct (Hjobs J j0 (eq_sym HJ0)) as (d & l & ranges & Hk & Hp & Hdom & Hdone). exists d, l, ranges.
    rewrite Hk'. split_and!; [done|done|intros i; by rewrite Hc|]. intros Hs. by apply Hdone, Hst.
  - intros J i Hi. apply Hc, Hch in Hi as [j HJ]. specialize (Hj J). rewrite HJ in Hj.
    inversion Hj; subst. by eexists.
Qed.

Lemma content_db w db fs :
  content_inv w → jobs_fine db → content_inv (set_db db fs w).
Proof. intros [Ho Hf _ Hb] Hdb. by split. Qed.

(** ** Quiet statements *)
Lemma rows_kept_update_job db J q f :
  (∀ j, q j = true → j_doc_key (f j) = j_doc_key j ∧ (j_status (f j) = JDone → j_status j = JDone)) →
  rows_kept db (set_jobs (sql_update (at_key J q) f) db).
Proof.
  intros Hf. split; [|done]. intros J'. simpl. rewrite lookup_update_at.
  case_decide; [|by apply (rows_kept_refl db)].
  destruct (db_jobs db !! J') as [j|]; constructor. destruct (q j) eqn:Hq; [by apply Hf|done].
Qed.

Lemma rows_kept_update_chunk db k q f : rows_kept db (set_chunks (sql_update (at_key k q) f) db).
Proof.
  split; [apply (rows_kept_refl db)|]. intros k'. simpl. rewrite lookup_update_at. case_decide; [|done].
  by rewrite fmap_is_Some.
Qed.

Lemma rows_kept_complete ts J i key db : rows_kept db (complete_chunk_sql ts J i key db).2.
Proof.
  destruct (complete_chunk_cases ts J i key db)
    as [[-> _]|[(c & Hc & _ & _ & ->)|(c & j & Hc & _ & Hj & _ & ->)]]; simpl; [apply rows_kept_refl|split..].
  - apply (rows_kept_refl db).
  - intros k. simpl. by rewrite (lookup_insert_chunk_is_Some _ _ c).
  - intros J'. simpl. destruct (decide (J' = J)) as [->|Hne].
    + rewrite lookup_insert_eq, Hj. by constructor.
    + rewrite lookup_insert_ne by done. by apply (rows_kept_refl db).
  - intros k. simpl. by rewrite (lookup_insert_chunk_is_Some _ _ c).
Qed.

Lemma quiet_move G w db fs :
  (∀ w w', guar_quiet w w' → G w w') → rows_kept (w_db w) db →
  harmless content_inv G w (set_db db fs w).
Proof.
  intros HG Hdb HI. split.
  - apply content_db; [done|]. by eapply rows_kept_fine, (ci_jobs w HI).
  - apply HG. split; [by apply rows_kept_jobs|done].
Qed.

Section instances.
Context (G : world → world → Prop) (HG : ∀ w w', guar_quiet w w' → G w w').

#[local] Program Instance content_harmless : Harmless (harmless content_inv G) :=
  {| quiet := rows_kept |}.
Next Obligation.
  intros w w' Hd Hs Hm Hf [Ho Hfi Hj Hb]. split; [|apply HG; split; [by rewrite Hd|done]].
  split; by rewrite ?Hs, ?Hf, ?Hd, ?Hm.
Qed.
Next Obligation. intros. by apply quiet_move. Qed.
Next Obligation.
  intros w fs HI. split; [|by apply HG]. apply content_s3; [done|]. intros k b.
  rewrite s3_get_create. by left.
Qed.
Next Obligation. apply rows_kept_refl. Qed.
Next Obligation. intros. apply rows_kept_update_chunk. Qed.
Next Obligation. intros. by apply rows_kept_update_job. Qed.
Next Obligation. intros. apply rows_kept_update_chunk. Qed.
Next Obligation. intros. apply rows_kept_update_chunk. Qed.
Next Obligation. intros. apply rows_kept_complete. Qed.
Next Obligation. intros. by apply rows_kept_update_job. Qed.
End instances.

#[local] Instance quiet_harmless : Harmless (harmless content_inv guar_quiet).
Proof. by apply content_harmless. Defined.

#[local] Instance guar_harmless host : Harmless (harmless content_inv (guar host)).
Proof. apply content_harmless. apply guar_quiet_guar. Defined.
End integrity.

#[export] Existing Instances quiet_harmless guar_harmless.
