(* ===== verification/IntegrityRules.v ===== *)
(** * The integrity invariant: files, messages, objects

    Rules for the actions that the invariant looks at: files of one's own host,
    publication and delivery of tasks, objects written and read. *)
From S2P Require Import Prelude PyStr Effects Rely Utf8 Json Database Config World Db Jobstore.
From S2P Require Import Counter Files Chunker Storage Taskqueue Converter Pagination Worker Spec.
From S2P Require Import Cache Handler Drain Api Quiet Integrity.

Section rules.
Context {S B : Type} `{ObjectStoreLaws S} `{BrokerLaws B} `{TempLaws} `{!ShaLaws} `{Codecs}.
Context (cfg : config) (host : pystr).
#[local] Abbreviation world := (world S B).
Implicit Types (w : world).
#[local] Abbreviation inv := (content_inv cfg).
#[local] Abbreviation safe := (safe inv (guar host) (rely host)).
#[local] Abbreviation quietly p := (guarantee (harmless inv guar_quiet) p).

(** ** Assertions that survive *)
Lemma stable_job_key h J D : stable (rely h) (job_has_key J D : world → Prop).
Proof. intros w w' (j & HJ & <-) [Hj _]. destruct (Hj J j HJ) as (j' & HJ' & Hk). by exists j'. Qed.

Lemma framed_job_key J D : framed (guar host) (rely host) (job_has_key J D : world → Prop).
Proof.
  split; intros w w' (j & HJ & <-) [Hj _]; destruct (Hj J j HJ) as (j' & HJ' & Hk); by exists j'.
Qed.

(** A program that touches no file keeps what is known of one's own files. *)
Lemma safe_quiet {A} P (p : prog world A) :
  stable (rely host) P → stable guar_quiet P → quietly p → safe P p (λ _, P).
Proof.
  intros HR HQ. induction p as [a|e| |X g k IH]; intros Hp; [by intros w|done..|].
  destruct Hp as [Hg Hk]. intros w HI HPw. destruct (Hg w HI) as [HI' HG'].
  split_and!; [done|by apply guar_quiet_guar|]. exists P. split_and!; [done|by eapply HQ|]. by apply IH.
Qed.

Lemma safe_quiet_then {A C} P (p : prog world A) (f : A → prog world C) Q :
  stable (rely host) P → stable guar_quiet P → quietly p → (∀ a, safe P (f a) Q) → safe P (p ≫= f) Q.
Proof. intros HR HQ Hp Hf. by eapply safe_bind; [by apply safe_quiet|]. Qed.

(** ** One's own files *)
Definition own (p : pystr) (d : bytes) w : Prop := ∃ t, w_files w !! (host, p) = Some (File d t).

Lemma stable_own p d : stable (rely host) (own p d).
Proof. intros w w' [t Ht] [_ Hf]. exists t. by rewrite Hf. Qed.

Lemma quiet_own p d : stable guar_quiet (own p d).
Proof. intros w w' [t Ht] [_ Hf]. exists t. by rewrite Hf. Qed.

(** A path that is no name in the source cache. *)
Definition no_cache (p : pystr) : Prop := ∀ h, hash_name h → p ≠ cache_path cfg h.

Lemma no_cache_fine p d : no_cache p → file_fine cfg p d.
Proof. intros Hp h Hh ->. by destruct (Hp h Hh). Qed.

Lemma cache_path_prefix h :
  ∃ pre, cache_path cfg h = pre ++ h ∧ (pre = [] ∨ last pre = Some 47) ∨ startswith (u "/") h = true.
Proof.
  unfold cache_path, path_join. destruct (startswith (u "/") h); [by exists []; right|].
  destruct (last (SOURCE_CACHE_DIR cfg)) as [c|] eqn:Hl; [|exists []; auto].
  destruct (Z.eqb_spec c 47) as [->|Hne]; [eexists; left; split; [done|auto]|].
  exists (SOURCE_CACHE_DIR cfg ++ u "/"). left. split; [by rewrite <-(assoc_L (++))|right]. apply (last_snoc 47).
Qed.

(** A name that ends in something that is not part of a hash. *)
Lemma no_cache_suffix a s :
  47 ∉ s → Exists (λ c, is_hex c = false) s → no_cache (a ++ s).
Proof.
  intros Hs Hx h Hh Heq. apply Exists_exists in Hx as (c & Hc & Hxc).
  destruct (cache_path_prefix h) as (pre & [[Hp Hpre]|Hslash]); [|by rewrite hash_no_slash in Hslash].
  rewrite Hp in Heq. destruct Hh as [_ Hh]. rewrite Forall_forall in Hh.
  apply app_eq_inv in Heq as [(k & -> & ->)|(k & -> & ->)].
  - rewrite (Hh c) in Hxc; [done|]. apply elem_of_app. by right.
  - apply elem_of_app in Hc as [Hc|Hc]; [|by rewrite (Hh c) in Hxc].
    destruct Hpre as [[_ ->]%app_eq_nil|Hl]; [by apply elem_of_nil in Hc|].
    apply Hs, elem_of_app. left. destruct k as [|x k]; [by apply elem_of_nil in Hc|].
    rewrite last_app_cons in Hl. by apply last_Some_elem_of.
Qed.

Lemma no_cache_temp used dir suffix : 47 ∉ suffix → no_cache (temp_name used dir suffix).
Proof.
  intros Hs. destruct (temp_name_shape used dir suffix) as (r & Hr & ->).
  assert (∃ a, path_join dir (u "tmp" ++ r ++ suffix) = a ++ u "tmp" ++ r ++ suffix) as [a ->].
  { unfold path_join. destruct (startswith _ _); [by exists []|]. destruct (last dir) as [c|]; [|by exists []].
    destruct (c =? 47); [by exists dir|]. exists (dir ++ u "/"). by rewrite <-(assoc_L (++)). }
  apply no_cache_suffix; [|by constructor].
  rewrite !elem_of_app. intros [Ht|[?|?]]; [|done..]. vm_compute in Ht. set_solver.
Qed.

Lemma content_insert w p d t :
  inv w → file_fine cfg p d →
  inv (set_files (<[(host, p) := File d t]> (w_files w)) w) ∧
  guar host w (set_files (<[(host, p) := File d t]> (w_files w)) w).
Proof.
  intros HI Hd. split.
  - apply content_files; [done|]. intros host' p' f. rewrite lookup_insert_Some.
    intros [[[= <- <-] <-]|[_ Hf]]; [done|]. by eapply ci_files.
  - split; [apply jobs_kept_refl|]. intros h p' Hne. simpl. by rewrite lookup_insert_ne by congruence.
Qed.

Lemma content_delete w p :
  inv w → inv (set_files (delete (host, p) (w_files w)) w) ∧
  guar host w (set_files (delete (host, p) (w_files w)) w).
Proof.
  intros HI. split.
  - apply content_files; [done|]. intros host' p' f [_ Hf]%lookup_delete_Some. by eapply ci_files.
  - split; [apply jobs_kept_refl|]. intros h p' Hne. simpl. by rewrite lookup_delete_ne by congruence.
Qed.

#[local] Abbreviation harmless := (harmless inv (guar host)).

Lemma harmless_write p d : no_cache p → guarantee harmless (write_file host p d).
Proof. intros Hp. apply guarantee_act. intros w HI. apply content_insert; [done|by apply no_cache_fine]. Qed.

Lemma harmless_remove p : guarantee harmless (remove_file host p).
Proof.
  apply guarantee_io. intros w HI. destruct (w_files w !! (host, p)); [by apply content_delete|].
  split; [done|]. split; [apply jobs_kept_refl|done].
Qed.

Lemma harmless_remove_if p : guarantee harmless (remove_if_exists host p).
Proof. apply guarantee_bind; [by apply harmless_path_exists, _|]. intros [|]; [apply harmless_remove|done]. Qed.

Lemma own_utime p : guarantee harmless (utime host p).
Proof.
  apply guarantee_io. intros w HI. destruct (w_files w !! (host, p)) as [f|] eqn:Hf.
  - apply content_insert; [done|]. by eapply ci_files.
  - split; [done|]. split; [apply jobs_kept_refl|done].
Qed.

Lemma own_prune max_bytes : guarantee harmless (prune_source_cache host cfg max_bytes).
Proof.
  apply guarantee_prune; [|apply harmless_remove]. intros w HI. split; [done|].
  apply guar_quiet_guar. split; [apply jobs_kept_refl|done].
Qed.

(** The name [mkstemp] returns is one that [temp_name] picks. *)
Lemma safe_mkstemp dir suffix (φ : pystr → Prop) :
  (∀ used, φ (temp_name used dir suffix) ∧ no_cache (temp_name used dir suffix)) →
  safe (λ _, True) (mkstemp host dir suffix) (λ p w, φ p ∧ own p [] w).
Proof.
  intros Hφ. apply safe_act.
  - intros p. intros w w' [Hp Ho] HR. split; [done|]. by eapply stable_own.
  - intros w HI _. cbn [fst snd]. destruct (Hφ (used_paths host w)) as [Hp Hnc].
    destruct (content_insert w (temp_name (used_paths host w) dir suffix) [] (w_clock w) HI);
      [by apply no_cache_fine|]. split_and!; [done|done|done|]. eexists. apply lookup_insert_eq.
Qed.

Lemma safe_write p d : no_cache p → safe (λ _, True) (write_file host p d) (λ _, own p d).
Proof.
  intros Hp. apply safe_act; [intros _; apply stable_own|]. intros w HI _.
  destruct (content_insert w p d (w_clock w) HI); [by apply no_cache_fine|].
  split_and!; [done|done|]. eexists. apply lookup_insert_eq.
Qed.

Lemma safe_append p old d :
  no_cache p → safe (own p old) (append_file host p d) (λ _, own p (old ++ d)).
Proof.
  intros Hp. apply safe_act; [intros _; apply stable_own|]. intros w HI [t Ht]. cbn [fst snd].
  destruct (content_insert w p (old ++ d) (w_clock w) HI); [by apply no_cache_fine|].
  rewrite Ht. split_and!; [done|done|]. eexists. apply lookup_insert_eq.
Qed.

(** Reading a file of one's own, and reading a file under a name one knows. *)
Lemma safe_read_own p d :
  safe (own p d) (read_file host p) (λ r w, r = d ∧ own p d w).
Proof.
  apply safe_io.
  - intros r w w' [Hr Ho] HR. split; [done|]. by eapply stable_own.
  - intros w HI [t Ht]. cbn [fst snd]. rewrite Ht. split_and!; [done| |].
    + apply guar_quiet_guar. split; [apply jobs_kept_refl|done].
    + intros x [= <-]. split; [done|]. by exists t.
Qed.

Lemma safe_read_file p : safe (λ _, True) (read_file host p) (λ r _, file_fine cfg p r).
Proof.
  apply safe_io; [by intros r w w'|]. intros w HI _. cbn [fst snd]. split_and!; [done| |].
  - apply guar_quiet_guar. split; [apply jobs_kept_refl|done].
  - intros x. destruct (w_files w !! (host, p)) as [f|] eqn:Hf; intros [=]; subst. by eapply ci_files.
Qed.

Lemma safe_rename src dst d :
  file_fine cfg dst d → safe (own src d) (rename host src dst) (λ _ _, True).
Proof.
  intros Hd. apply safe_io; [done|]. intros w HI [t Ht]. rewrite Ht. cbn [fst snd].
  destruct (content_delete w src HI) as [HI1 HG1].
  destruct (content_insert (set_files (delete (host, src) (w_files w)) w) dst d t HI1 Hd) as [HI2 HG2].
  split_and!; [done| |done]. split; [apply jobs_kept_refl|]. intros h p Hne.
  destruct HG1 as [_ HG1], HG2 as [_ HG2]. rewrite <-(HG1 h p Hne). by apply HG2.
Qed.

(** ** Messages *)
Lemma transit_publish ex key body x (b : B) :
  in_transit cfg (mq_basic_publish ex key body b) x →
  in_transit cfg b x ∨ x = body ∧ ∃ q, q ≠ FAILED_QUEUE cfg ∧ mq_bound ex key q b = true.
Proof.
  intros (q & Hq & [Hx|[tag Htag]]).
  - rewrite mq_messages_publish, elem_of_app in Hx. destruct Hx as [Hx|Hx]; [left; exists q; auto|].
    destruct (mq_bound ex key q b) eqn:Hb; [|by apply elem_of_nil in Hx].
    apply list_elem_of_singleton in Hx as ->. right. by eauto.
  - rewrite mq_unacked_publish in Htag. left. exists q. eauto.
Qed.

(** What may be published: a task, or anything to the dead-letter exchange. *)
Definition publishable (ex : pystr) (body : bytes) : Prop := body_ok cfg body ∨ ex = DLX_EXCHANGE cfg.

Lemma broker_fine_publish ex key body (b : B) :
  publishable ex body → broker_fine cfg b → broker_fine cfg (mq_basic_publish ex key body b).
Proof.
  intros Hp [Ht Hdlx]. split.
  - intros x [Hx|(-> & q & Hq & Hb)]%transit_publish; [by apply Ht|].
    destruct Hp as [Hp| ->]; [done|]. by apply Hdlx in Hb.
  - intros key' q. rewrite mq_bound_publish. apply Hdlx.
Qed.

Lemma broker_fine_declare d (b b' : B) :
  d ∈ declarations cfg → declare_one d b = inr (tt, b') → broker_fine cfg b → broker_fine cfg b'.
Proof.
  intros Hd Hb [Ht Hdlx].
  assert ((∀ q, mq_messages q b' = mq_messages q b) ∧ (∀ tag, mq_unacked tag b' = mq_unacked tag b) ∧
          dlx_sealed cfg b') as (Hm & Hu & Hs).
  { destruct d as [x|q a|q ex key]; simpl in Hb.
    - injection Hb as <-. split_and!; [intros ?; apply mq_messages_exchange|intros ?; apply mq_unacked_exchange|].
      intros key' q'. rewrite mq_bound_exchange. apply Hdlx.
    - assert (b' = mq_queue_declare q a b) as ->
        by (destruct (mq_args q b) as [a'|]; [destruct (decide (a' = a))|]; congruence).
      split_and!; [intros ?; apply mq_messages_queue|intros ?; apply mq_unacked_queue|].
      intros key' q'. rewrite mq_bound_queue. apply Hdlx.
    - injection Hb as <-. split_and!; [intros ?; apply mq_messages_bind|intros ?; apply mq_unacked_bind|].
      intros key' q'. rewrite mq_bound_bind, orb_true_iff, bool_decide_eq_true. intros [Hnew|Hb]; [|by eapply Hdlx].
      destruct (exchanges_ne cfg) as (_ & H1' & H2'). apply elem_of_declared_bind in Hd.
      destruct Hd as [(Hx & _)|[(Hx & _)|(_ & _ & Hq)]]; congruence. }
  split; [|done]. intros x (q & Hq & Hx). apply Ht. exists q. split; [done|].
  destruct Hx as [Hx|[tag Hx]]; [left; by rewrite <-Hm|right; exists tag; by rewrite <-Hu].
Qed.

Lemma broker_fine_ack tag (b : B) : broker_fine cfg b → broker_fine cfg (mq_ack tag b).
Proof.
  intros [Ht Hdlx]. split.
  - intros x (q & Hq & [Hx|[tag' Hx]]); apply Ht; exists q; (split; [done|]).
    + left. by rewrite mq_messages_ack in Hx.
    + right. exists tag'. rewrite mq_unacked_ack in Hx. by case_decide.
  - intros key q. rewrite mq_bound_ack. apply Hdlx.
Qed.

(** A delivery hands out a message that was in transit. *)
Lemma broker_fine_deliver (b b' : B) m :
  mq_deliver (RABBITMQ_QUEUE cfg) b = (m, b') → broker_fine cfg b →
  broker_fine cfg b' ∧ ∀ tag body, m = Some (tag, body) → body_ok cfg body.
Proof.
  intros Hd [Ht Hdlx]. pose proof (mq_deliver_spec (RABBITMQ_QUEUE cfg) b) as Hspec.
  destruct (mq_messages (RABBITMQ_QUEUE cfg) b) as [|d rest] eqn:Hm.
  { rewrite Hspec in Hd. injection Hd as <- <-. by split. }
  destruct Hspec as (tag & b1 & Hd1 & _ & Htag & Hrest & Hoth & Hun & Hbd & _).
  rewrite Hd1 in Hd. injection Hd as <- <-.
  assert (in_transit cfg b d) as Hin.
  { exists (RABBITMQ_QUEUE cfg). split; [apply not_eq_sym, failed_queue_ne|]. left. rewrite Hm. apply list_elem_of_here. }
  split; [split|].
  - intros x (q & Hq & [Hx|[tag' Hx]]).
    + apply Ht. exists q. split; [done|left]. destruct (decide (q = RABBITMQ_QUEUE cfg)) as [->|Hne].
      * rewrite Hm. apply list_elem_of_further. by rewrite Hrest in Hx.
      * by rewrite Hoth in Hx.
    + destruct (decide (tag' = tag)) as [->|Hne].
      * rewrite Htag in Hx. injection Hx as <- <-. by apply Ht.
      * apply Ht. exists q. split; [done|right]. exists tag'. by rewrite <-Hun.
  - intros key q. rewrite Hbd. apply Hdlx.
  - intros tag' body [= _ <-]. by apply Ht.
Qed.

Lemma quiet_mq_call {R} (f : B → exn + R * B) :
  (∀ b r b', broker_fine cfg b → f b = inr (r, b') → broker_fine cfg b') → quietly (mq_call f).
Proof.
  intros Hf. apply guarantee_mq_call.
  - intros w fs HI. apply same_ok; [apply _|done..].
  - intros w fs r b Hb HI. split; [|by split; [apply jobs_kept_refl|]].
    apply content_mq; [done|]. eapply Hf; [|exact Hb]. apply (ci_broker _ _ HI).
Qed.

Lemma quiet_connect : quietly (connect host cfg).
Proof.
  unfold connect. apply guarantee_bind; [by apply harmless_act; [apply _|..]|]. intros [|]; [done|].
  apply guarantee_bind; [apply quiet_mq_call; naive_solver|]. intros _.
  apply guarantee_bind; [by apply harmless_act; [apply _|..]|]. intros _. unfold declare.
  assert (∀ ds, (∀ d, d ∈ ds → d ∈ declarations cfg) →
    quietly (for_each (λ d, mq_call (declare_one d)) ds)) as Hall; [|by apply Hall].
  induction ds as [|d ds IH]; intros Hds; [done|]. cbn [for_each].
  apply guarantee_bind; [|intros _; apply IH; intros d' Hd'; by apply Hds, list_elem_of_further].
  apply quiet_mq_call. intros b [] b' Hb Hd. eapply broker_fine_declare; [|exact Hd|exact Hb].
  apply Hds, list_elem_of_here.
Qed.

Lemma quiet_ack tag : quietly (basic_ack tag).
Proof. apply quiet_mq_call. intros b r b' Hb [= _ <-]. by apply broker_fine_ack. Qed.

Lemma quiet_nop : quietly (mq_call (λ b : B, inr (tt, b))).
Proof. apply quiet_mq_call. naive_solver. Qed.

Lemma quiet_basic_publish ex key body : publishable ex body → quietly (basic_publish ex key body).
Proof. intros Hp. apply quiet_mq_call. intros b r b' Hb [= _ <-]. by apply broker_fine_publish. Qed.

Lemma quiet_publish_with ex key bodies :
  Forall (publishable ex) bodies → quietly (publish_with_reconnect host cfg ex key bodies).
Proof.
  intros Hp.
  assert (quietly (publish_bodies host cfg ex key bodies)) as Hb.
  { apply guarantee_bind; [apply quiet_connect|]. intros _.
    induction Hp as [|body bodies Hbody _ IH]; [done|]. cbn [for_each].
    apply guarantee_bind; [by apply quiet_basic_publish|done]. }
  apply guarantee_bind; [by apply guarantee_attempt|]. intros [[]|]; try done.
  apply guarantee_bind; [|done]. by apply harmless_close, _.
Qed.

Lemma task_ok_text t : task_ok cfg t → task_text t.
Proof.
  intros (d & ranges & Hk & Hh & HJ & _). split_and!; [done|by eapply key_scalar|]. rewrite Hh. apply sha_scalar.
Qed.

Lemma task_body_ok t b : task_ok cfg t → to_bytes t = inr b → body_ok cfg b.
Proof.
  intros Ht Hb. pose proof (task_ok_text t Ht) as Htext. rewrite to_bytes_ok in Hb by done.
  injection Hb as <-. exists t. split; [by apply from_to_bytes|done].
Qed.

Lemma quiet_publish tasks : Forall (task_ok cfg) tasks → quietly (publish host cfg tasks).
Proof.
  intros Ht. unfold publish. destruct (all_bytes tasks) as [e|bodies] eqn:Hb; [done|].
  apply quiet_publish_with. revert bodies Hb. induction Ht as [|t tasks Ht _ IH]; intros bodies; simpl.
  { intros [= <-]. constructor. }
  destruct (to_bytes t) as [|b] eqn:Hbt; [done|]. simpl. destruct (all_bytes tasks) as [|bs]; [done|].
  intros [= <-]. constructor; [left; by eapply task_body_ok|by apply IH].
Qed.

Lemma quiet_publish_retry task : task_ok cfg task → quietly (publish_retry host cfg task).
Proof.
  intros Ht. unfold publish_retry. destruct (to_bytes (next_attempt task)) as [|b] eqn:Hb; [done|].
  apply quiet_publish_with. constructor; [left|constructor]. eapply task_body_ok; [|exact Hb]. exact Ht.
Qed.

Lemma quiet_publish_failed task e : quietly (publish_failed host cfg task e).
Proof.
  unfold publish_failed. destruct (encode _) as [|b]; [done|]. apply quiet_publish_with.
  constructor; [by right|constructor].
Qed.
End rules.
