(* ===== verification/IntegrityWorker.v ===== *)
(** * The integrity invariant: the worker

    A worker stores what the reference converter computes: the source it converts
    is the one its task names, the part it writes is the text of its range, the
    document it assembles is the document. *)
From S2P Require Import Prelude PyStr Effects Rely Utf8 Json Database Config World Db Jobstore.
From S2P Require Import Counter Files Chunker Storage Taskqueue Converter Pagination Worker Spec.
From S2P Require Import Cache Handler Drain Api Quiet Integrity IntegrityRules.

Section worker.
Context {S B : Type} `{ObjectStoreLaws S} `{BrokerLaws B} `{TempLaws} `{!ShaLaws} `{Codecs}.
Context (cfg : config) `{!ContentAddressed cfg} (host : pystr).
#[local] Abbreviation world := (world S B).
Implicit Types (w : world).
#[local] Abbreviation inv := (content_inv cfg).
#[local] Abbreviation safe := (safe inv (guar host) (rely host)).
#[local] Abbreviation quietly p := (guarantee (harmless inv guar_quiet) p).
#[local] Abbreviation harmlessly p := (guarantee (harmless inv (guar host)) p).
#[local] Abbreviation has_key := (has_key cfg).
#[local] Abbreviation planned := (planned cfg).

Lemma quiet_harmlessly {A} (p : prog world A) : quietly p → harmlessly p.
Proof.
  apply guarantee_mono. intros w w' Hq HI. destruct (Hq HI). split; [done|by apply guar_quiet_guar].
Qed.

Lemma framed_trivial : framed (guar host) (rely host) (λ _ : world, True).
Proof. apply framed_pure. Qed.
#[local] Hint Resolve framed_trivial : core.

(** ** Objects *)
Lemma object_fine_part D i b : 0 <= i → part_ok cfg D i b → object_fine cfg (part_key D i) b.
Proof.
  intros Hi Hb. split; try discriminate. by intros D' i' Hi' [-> ->]%part_key_inj.
Qed.

Lemma object_fine_source h d : source_ok h d → object_fine cfg (source_key h) d.
Proof. intros Hd. split; try discriminate. by intros h' <-%app_inv_head. Qed.

Lemma object_fine_page D i b : page_fine cfg D i b → object_fine cfg (page_key D i) b.
Proof.
  intros Hb. split; try discriminate.
  - by intros D' i' _ [-> ->]%page_key_inj.
  - by intros D' Heq%symmetry%manifest_page_ne.
Qed.

Lemma object_fine_manifest D b : manifest_ok cfg D b → object_fine cfg (manifest_key D) b.
Proof.
  intros Hb. split; try discriminate.
  - by intros D' i' _ Heq%manifest_page_ne.
  - by intros D' <-%manifest_key_inj.
Qed.

Lemma quiet_put k b : object_fine cfg k b → quietly (put_bytes k b).
Proof.
  intros Hk. apply guarantee_s3_call.
  - intros w fs HI. by apply (same_ok inv guar_quiet).
  - intros w fs r s. destruct (s3_bucket (w_s3 w)); [|done]. intros [= _ <-] HI. by apply content_put.
Qed.

Lemma quiet_put_part D i text :
  0 <= i → (∀ b, encode text = inr b → part_ok cfg D i b) → quietly (put_part D i text).
Proof.
  intros Hi Ht. unfold put_part. apply guarantee_lift. intros b Hb.
  apply guarantee_bind; [|done]. by apply quiet_put, object_fine_part, Ht.
Qed.

(** ** The source cache *)
Lemma source_ok_file h d : hash_name h → source_ok h d → file_fine cfg (cache_path cfg h) d.
Proof. intros Hh Hd h' Hh' Heq%cache_path_inj; [by subst|done..]. Qed.

Lemma safe_receive path acc parts :
  no_cache cfg path →
  safe (own host path acc) (receive_parts host path parts) (λ _, own host path (acc ++ concat parts)).
Proof.
  intros Hp. revert acc. induction parts as [|part parts IH]; intros acc; cbn [receive_parts].
  { intros w _ Ho. by rewrite app_nil_r. }
  apply (safe_quiet_then cfg host);
    [apply stable_own|apply quiet_own|apply (harmless_s3_read (harmless inv guar_quiet)); naive_solver|]. intros _.
  eapply safe_bind; [by apply safe_append|]. intros []. cbv beta.
  rewrite concat_cons, (assoc_L (++)). apply IH.
Qed.

Lemma safe_get_source h path :
  no_cache cfg path →
  safe (λ _, True) (get_source host h path) (λ _ w, ∃ d, source_ok h d ∧ own host path d w).
Proof.
  intros Hp. unfold get_source.
  apply (safe_bind_pure _ _ _ _ _ _ (source_ok h)).
  - apply (safe_s3_call inv (guar host) (rely host)); [by intros r w w'|].
    intros w d s fs HI _ Hd.
    assert (s = w_s3 w ∧ s3_get (source_key h) (w_s3 w) = Some d) as [-> Hget].
    { destruct (s3_bucket (w_s3 w)); [|done]. destruct (s3_get _ _); naive_solver. }
    destruct (same_ok inv (guar host) w (set_s3 (w_s3 w) fs w) eq_refl eq_refl eq_refl eq_refl HI).
    split_and!; [done|done|]. by apply (of_source _ _ _ (ci_objects _ _ HI _ _ Hget)).
  - intros d Hd. eapply safe_bind; [by apply safe_write|]. intros []. cbv beta.
    eapply safe_bind; [by apply safe_receive|]. intros [] w _ Ho. exists d. split; [done|].
    by rewrite concat_transfer in Ho.
Qed.

Lemma safe_fetch_source h :
  hash_name h → safe (λ _, True) (fetch_source host cfg h) (λ path _, path = cache_path cfg h).
Proof.
  intros Hh. unfold fetch_source. apply safe_then; [done|harmless_prog|]. intros [|].
  { apply safe_then; [done|apply own_utime|]. by intros _ w. }
  eapply safe_bind.
  { apply (safe_mkstemp cfg host _ _ (no_cache cfg)). intros used.
    split; apply no_cache_temp; apply not_elem_of_nil. }
  intros temp. cbv beta. apply safe_pure. intros Htemp.
  apply (safe_pre _ _ _ (λ _, True)); [done|].
  eapply safe_attempt_then; [done| |..].
  - eapply safe_bind; [by apply safe_get_source|]. intros p. apply safe_exists. intros d.
    apply safe_pure. intros Hd. by apply safe_rename, source_ok_file.
  - intros e. by apply safe_then; [|apply harmless_remove_if|].
  - intros []. apply (safe_pre _ _ _ (λ _, True)); [done|].
    apply safe_then; [done|apply own_prune|]. by intros _ w.
Qed.

(** ** One page range *)

(** The source under a hash that a document has is that document. *)
Lemma source_is D d l h d' : has_key D d l → h = sha256_hex d → source_ok h d' → d' = d.
Proof.
  intros [Hs Hk] -> [Hs' Hh]. destruct (key_identifies cfg D d' d l l) as [-> _]; [|done..].
  split; [done|]. by rewrite Hh.
Qed.

Lemma safe_read_source D d l :
  has_key D d l →
  safe (λ _, True) (read_file host (cache_path cfg (sha256_hex d))) (λ r _, r = d).
Proof.
  intros Hk. eapply safe_post; [|apply (safe_read_file cfg host)]. intros r w _ Hr.
  eapply source_is; [exact Hk|reflexivity|]. apply Hr; [|done].
  split; [apply sha256_hex_nonempty|apply sha256_hex_chars].
Qed.

Lemma safe_convert_file api_key path use_llm data P :
  safe P (read_file host path) (λ r _, r = data) →
  safe P (convert_file host cfg api_key path use_llm)
    (λ md _, md_convert (llm_model cfg use_llm) path data = inr md).
Proof.
  intros Hr. unfold convert_file. apply safe_lift. intros _ _.
  eapply safe_bind_pure; [exact Hr|]. intros r ->. unfold llm_model.
  destruct (md_convert _ _ _); [done|]. by intros w.
Qed.

Lemma endswith_app a s : endswith s (a ++ s) = true.
Proof. unfold endswith. apply bool_decide_true. by exists a. Qed.

Lemma temp_endswith used dir suffix : endswith suffix (temp_name used dir suffix) = true.
Proof.
  destruct (temp_name_shape used dir suffix) as (r & _ & ->). unfold path_join.
  destruct (startswith _ _); [|destruct (last dir) as [c|]; [destruct (c =? 47)|]];
    rewrite ?(assoc_L (++)); apply endswith_app.
Qed.

Lemma safe_convert_range api_key D d l start end_ :
  has_key D d l →
  safe (λ _, True) (convert_range host cfg api_key (sha256_hex d) start end_ l)
    (λ md _, chunk_text cfg l d (start, end_) = inr md).
Proof.
  intros Hk. unfold convert_range, chunk_text. cbn [fst snd].
  eapply safe_bind_pure.
  { apply safe_fetch_source. split; [apply sha256_hex_nonempty|apply sha256_hex_chars]. }
  intros path ->. destruct (Z.eqb_spec end_ (-1)) as [->|Hend].
  { by eapply safe_convert_file, safe_read_source. }
  eapply safe_bind.
  { apply (safe_mkstemp cfg host _ _ (λ p, no_cache cfg p ∧ endswith (u ".pdf") p = true)).
    intros used. assert (47 ∉ u ".pdf") by (intros Hin; vm_compute in Hin; set_solver).
    split_and!; [by apply no_cache_temp|apply temp_endswith|by apply no_cache_temp]. }
  intros chunk. cbv beta. apply safe_pure. intros [Hnc Hpdf]. apply (safe_pre _ _ _ (λ _, True)); [done|].
  apply safe_finally; [intros; apply framed_pure| |apply harmless_remove_if].
  eapply (safe_bind _ _ _ _ _ _ (λ _ w, ∃ out, extract_range d start end_ = inr out ∧ own host chunk out w)).
  - unfold extract_pages. rewrite (proj2 (Z.eqb_neq end_ (-1))) by done.
    eapply safe_bind_pure; [by eapply safe_read_source|]. intros ? ->.
    apply safe_lift. intros out Hout. eapply safe_bind; [by apply safe_write|].
    intros [] w _ Ho. by exists out.
  - intros _. apply safe_exists. intros out. apply safe_pure. intros ->. simpl.
    eapply safe_post; [|apply (safe_convert_file _ _ _ out)].
    + intros md w _ Hmd. by rewrite (md_by_extension cfg _ (u "chunk.pdf") chunk).
    + eapply safe_post; [|apply (safe_read_own cfg host)]. by intros r w _ [-> _].
Qed.

(** ** The assembly *)
Definition part_text (D : pystr) (i : Z) (text : pystr) : Prop :=
  ∃ d l ranges r, has_key D d l ∧ planned d = inr ranges ∧ ranges !! Z.to_nat i = Some r ∧
    chunk_text cfg l d r = inr text.

Lemma safe_get_part D i :
  0 <= i → safe (λ _, True) (get_part D i) (λ r _, ∀ text, r = Some text → part_text D i text).
Proof.
  intros Hi. unfold get_part. eapply safe_bind_pure.
  { apply (safe_get_bytes inv (guar host) (rely host) _ (part_ok cfg D i)). intros w b HI Hb.
    by apply (of_part _ _ _ (ci_objects _ _ HI _ _ Hb)). }
  intros [b|] Hb; [|by intros w _ _ text [=]]. destruct (Hb b eq_refl) as (d & l & ranges & r & text & Hp).
  apply safe_lift. intros text' Htext' w _ _ ? [= <-]. destruct Hp as (? & ? & ? & ? & He).
  apply utf8_inverse in He. rewrite He in Htext'. injection Htext' as <-. by exists d, l, ranges, r.
Qed.

Lemma safe_get_parts D indices :
  Forall (λ i, 0 <= i) indices →
  safe (λ _, True) (get_parts D indices) (λ parts _, Forall2 (part_text D) indices parts).
Proof.
  induction 1 as [|i indices Hi _ IH]; cbn [get_parts]; [by intros w|].
  eapply safe_bind_pure; [by apply safe_get_part|]. intros [part|] Hpart; [|done].
  eapply safe_bind_pure; [exact IH|]. intros parts Hparts w _ _. constructor; [by apply Hpart|done].
Qed.

(** The chunk rows of a job number the ranges of its document. *)
Lemma safe_chunk_indices J D :
  safe (job_has_key J D) (chunk_indices host J)
    (λ indices _, ∃ d l ranges, has_key D d l ∧ planned d = inr ranges ∧ indices = seqZ 0 (len ranges)).
Proof.
  apply (safe_run_sql host inv (guar host) (rely host)); [apply framed_job_key|by intros r w w'|].
  intros w r db fs HI (j & HJ & <-) [= <- <-].
  destruct (same_ok inv (guar host) w (set_db (w_db w) fs w) eq_refl eq_refl eq_refl eq_refl HI).
  split_and!; [done|done|]. destruct (proj1 (ci_jobs _ _ HI) J j HJ) as (d & l & ranges & Hk & Hp & Hdom & _).
  exists d, l, ranges. split_and!; [done|done|]. by apply chunk_indices_dom.
Qed.

(** All parts of a document make its text. *)
Lemma parts_are_texts D d l ranges parts :
  has_key D d l → planned d = inr ranges → Forall2 (part_text D) (seqZ 0 (len ranges)) parts →
  chunk_texts cfg l d ranges = inr parts.
Proof.
  intros Hk Hp Hparts. apply chunk_texts_intro. apply Forall2_same_length_lookup. split.
  - apply Forall2_length in Hparts. rewrite length_seqZ in Hparts. unfold len in Hparts. lia.
  - intros i r text Hr Ht. eapply Forall2_lookup_r in Hparts as (z & Hz & Hpt); [|exact Ht].
    apply lookup_seqZ in Hz as [-> Hlt]. destruct Hpt as (d' & l' & ranges' & r' & Hk' & Hp' & Hr' & Htext).
    destruct (key_identifies cfg D d d' l l' Hk Hk') as [<- <-]. rewrite Hp in Hp'. injection Hp' as <-.
    replace (Z.to_nat (0 + Z.of_nat i)) with i in Hr' by lia. rewrite Hr in Hr'. by injection Hr' as <-.
Qed.

Lemma quiet_put_pages D index pages :
  (∀ i p b, pages !! i = Some p → encode p = inr b → page_fine cfg D (index + Z.of_nat i) b) →
  quietly (put_pages D index pages).
Proof.
  revert index. induction pages as [|p pages IH]; intros index Hp; cbn [put_pages]; [done|].
  apply guarantee_lift. intros b Hb. apply guarantee_bind.
  - apply quiet_put, object_fine_page. rewrite <-(Z.add_0_r index). by apply (Hp 0%nat p).
  - intros _. apply IH. intros i p' b' Hi Hb'.
    replace (index + 1 + Z.of_nat i) with (index + Z.of_nat (Datatypes.S i)) by lia. by eapply Hp.
Qed.

Lemma quiet_put_document D d l md pages :
  has_key D d l → reference_markdown cfg l d = inr md → reference_pages cfg l d = inr pages →
  quietly (put_document cfg D pages (len md)).
Proof.
  intros Hk Hmd Hpages. apply guarantee_bind.
  - apply quiet_put_pages. intros i p b Hi Hb. exists d, l, pages, p. split_and!; [done|done| |done].
    by replace (Z.to_nat (1 + Z.of_nat i - 1)) with i by lia.
  - intros _. apply guarantee_lift. intros b Hb. apply guarantee_bind; [|done].
    apply quiet_put, object_fine_manifest. by exists d, l, md, pages.
Qed.

Lemma quiet_record_document D h tp tc tl ps : quietly (record_document host cfg D h tp tc tl ps).
Proof.
  unfold record_document.
  harmless_prog. apply (harmless_execute host (harmless inv guar_quiet)). intros db. apply (rows_kept_refl db).
Qed.

(** A job may be marked done when its document converts. *)
Lemma finish_content J D d l md pages :
  has_key D d l → converts_to cfg d l md pages →
  safe (job_has_key J D) (finish_job host J) (λ _ _, True).
Proof.
  intros Hk Hconv. unfold finish_job. apply safe_then; [apply framed_job_key|harmless_prog|]. intros ts.
  apply (safe_run_sql host inv (guar host) (rely host)); [apply framed_job_key|done|].
  intros w [] db fs HI (j & HJ & HD) [= <-].
  assert (jobs_kept (w_db w) (finish_job_sql ts J (w_db w))) as Hkept.
  { intros J' j' HJ'. simpl. rewrite lookup_update_at, HJ'. case_decide; by eexists. }
  split_and!; [|by split|done]. apply content_db; [done|]. destruct (ci_jobs _ _ HI) as [Hjobs Hch]. split.
  - intros J' j'. simpl. rewrite lookup_update_at. case_decide as HJ'; [subst J'|apply Hjobs].
    rewrite HJ. intros [= <-]. destruct (Hjobs J j HJ) as (d' & l' & ranges & Hk' & Hp & Hdom & _).
    exists d', l', ranges. split_and!; [done|done|done|]. intros _. exists md, pages. rewrite HD in Hk'.
    by destruct (key_identifies cfg D d d' l l' Hk Hk') as [<- <-].
  - intros J' i Hi. destruct (Hch J' i Hi) as [j' HJ']. destruct (Hkept J' j' HJ') as (j'' & Hj'' & _).
    by exists j''.
Qed.

(** A step whose result is all that is learnt, next to a fact that stays. *)
Lemma safe_keep {A C} P F (p : prog world A) (f : A → prog world C) (φ : A → Prop) Q :
  framed (guar host) (rely host) F → (∀ w, F w → P w) → safe P p (λ a _, φ a) →
  (∀ a, φ a → safe F (f a) Q) → safe F (p ≫= f) Q.
Proof.
  intros HF HP Hp Hf. eapply safe_bind.
  - eapply (safe_mono _ _ _ (λ w, P w ∧ F w)); [by intros w _ HFw; split; [apply HP|]|
      by intros a w _ Hq; exact Hq|]. by apply safe_frame.
  - intros a. cbv beta. by apply safe_pure, Hf.
Qed.

Lemma assemble_content J r : safe (job_read J r) (assemble host cfg J r) (λ _ _, True).
Proof.
  destruct r as [j|]; [|done]. cbn [assemble job_read]. set (D := j_doc_key j).
  assert (framed (guar host) (rely host) (job_has_key J D : world → Prop)) as Hframe by apply framed_job_key.
  eapply (safe_keep (job_has_key J D)); [done|done|apply safe_chunk_indices|].
  intros ? (d & l & ranges & Hk & Hp & ->).
  eapply (safe_keep (λ _, True)); [done|done| |].
  { apply safe_get_parts. apply Forall_forall. intros i Hi%elem_of_seqZ. lia. }
  intros parts Hparts%(parts_are_texts D d l ranges); [|done..]. unfold paginate_or_spin.
  destruct (paginate _ _ _) as [pages|] eqn:Hpages; [|done].
  destruct (reference_intro cfg l d ranges parts pages Hp Hparts Hpages) as [Hmd Hrp].
  apply (safe_keep (λ _, True) _ (mret pages) _ (λ p, p = pages)); [done|done|by intros w|]. intros ? ->.
  apply safe_then; [done|by eapply quiet_harmlessly, quiet_put_document|]. intros _.
  apply safe_then; [done|apply quiet_harmlessly, quiet_record_document|]. intros _.
  by eapply finish_content.
Qed.

(** ** One delivery *)
Lemma quiet_handle_failure task e : task_ok cfg task → quietly (handle_failure host cfg task e).
Proof.
  intros Ht. unfold handle_failure. destruct (_ <=? _).
  - apply guarantee_bind; [apply quiet_publish_failed|]. intros _. harmless_prog.
  - apply guarantee_bind; [harmless_prog|]. intros _. by apply quiet_publish_retry.
Qed.

Lemma handle_content api_key task :
  task_ok cfg task → safe (λ _, True) (handle host cfg api_key task) (λ _ _, True).
Proof.
  intros Ht. pose proof Ht as (d & ranges & Hk & Hh & _ & Hp & Hi & Hr).
  unfold handle. apply safe_then; [done|harmless_prog|]. intros job.
  destruct (negb (active job)); [done|].
  apply safe_then; [done|harmless_prog|]. intros _.
  eapply (safe_attempt_then _ _ _ _ _ _ (λ _ _, True)); [done| |..].
  - rewrite Hh. eapply safe_bind_pure; [by eapply safe_convert_range|]. intros text Htext.
    apply safe_harmless; [done|]. apply quiet_harmlessly, quiet_put_part; [done|].
    intros b Hb. by exists d, (t_use_llm task), ranges, (t_start_page task, t_end_page task), text.
  - intros e. apply safe_harmless; [done|]. by apply quiet_harmlessly, quiet_handle_failure.
  - intros key. apply (safe_pre _ _ _ (λ _, True)); [done|].
    apply safe_then; [done|harmless_prog|]. intros remaining. destruct (remaining =? 0); [|done].
    eapply (safe_attempt_then _ _ _ _ _ _ (λ _ _, True)); [done| |..].
    + eapply safe_bind; [|intros r; apply assemble_content].
      apply (safe_get_job host inv (guar host) (rely host)). intros D. apply stable_job_key.
    + intros e. apply safe_harmless; [done|harmless_prog].
    + done.
Qed.

(** ** The process *)
Lemma safe_deliver :
  safe (λ _, True) (mq_call (λ b, inr (mq_deliver (RABBITMQ_QUEUE cfg) b)))
    (λ m _, ∀ tag body, m = Some (tag, body) → body_ok cfg body).
Proof.
  apply safe_io; [by intros m w w'|]. intros w HI _. destruct (pop_fault (w_mq_faults w)) as [flt fs].
  destruct (same_ok inv (guar host) w (set_mq (w_mq w) fs w) eq_refl eq_refl eq_refl eq_refl HI).
  destruct (mq_deliver (RABBITMQ_QUEUE cfg) (w_mq w)) as [m b] eqn:Hd.
  destruct (broker_fine_deliver cfg _ _ _ Hd (ci_broker _ _ HI)) as [Hb Hm].
  assert (inv (set_mq b fs w) ∧ guar host w (set_mq b fs w)) as [? ?].
  { split; [by apply content_mq|]. apply guar_quiet_guar. by split; [apply jobs_kept_refl|]. }
  destruct flt; cbn [serve]; rewrite ?Hd; cbn [fst snd]; split_and!; try done. by intros x [= <-].
Qed.

Lemma own_touch liveness_file :
  no_cache cfg liveness_file → harmlessly (touch_liveness host liveness_file).
Proof.
  intros Hl. apply guarantee_ignore_os_error, guarantee_bind; [harmless_prog|]. intros now. by apply harmless_write.
Qed.

Lemma main_content api_key liveness_file fuel ill_typed :
  no_cache cfg liveness_file →
  safe (λ _, True) (main host cfg api_key liveness_file fuel ill_typed) (λ _ _, True).
Proof.
  intros Hl. apply (main_safe _ _ _ _ inv (guar host) (rely host) _ (body_ok cfg)).
  - apply safe_deliver.
  - apply quiet_harmlessly, quiet_connect.
  - intros tag. apply quiet_harmlessly, quiet_ack.
  - apply quiet_harmlessly, quiet_nop.
  - intros body. apply quiet_harmlessly, quiet_basic_publish. by right.
  - by apply own_touch.
  - intros body task (t & Hb & Ht) Hb'. rewrite Hb in Hb'. injection Hb' as <-. by apply handle_content.
  - intros body l (t & Hb & Ht) Hb'. by rewrite Hb in Hb'.
Qed.
End worker.
