(* ===== verification/IntegrityApi.v ===== *)
(** * The integrity invariant: the API

    A submission names the document behind its URL, its source is stored under its
    hash, its job and its tasks are the planned ones; and every page that an
    endpoint returns is that page of the reference document, with the pagination
    that belongs to it. *)
From S2P Require Import Prelude PyStr Effects Rely Utf8 Json Database Config World Db Jobstore.
From S2P Require Import Counter Files Chunker Storage Taskqueue Converter Pagination Worker Spec.
From S2P Require Import Cache Handler Drain Api Quiet Deployment Service Integrity IntegrityRules IntegrityWorker.

Section api.
Context {S B : Type} `{ObjectStoreLaws S} `{BrokerLaws B} `{TempLaws} `{!ShaLaws} `{Codecs}.
Context (cfg : config) `{!ContentAddressed cfg} (host : pystr).
#[local] Abbreviation world := (world S B).
Implicit Types (w : world).
#[local] Abbreviation inv := (content_inv cfg).
#[local] Abbreviation safe := (safe inv (guar host) (rely host)).
(** Programs that touch no file are safe whatever the others do to files. *)
#[local] Abbreviation reads R := (Rely.safe inv guar_quiet R (λ _, True)).
#[local] Abbreviation quietly p := (guarantee (harmless inv guar_quiet) p).
#[local] Abbreviation harmlessly p := (guarantee (harmless inv (guar host)) p).
#[local] Abbreviation has_key := (has_key cfg).
#[local] Abbreviation planned := (planned cfg).
#[local] Hint Resolve framed_trivial : core.

(** ** Downloads *)
Lemma safe_write_blocks url path written blocks d :
  no_cache cfg path →
  safe (own host path d) (write_blocks host cfg url path written blocks)
    (λ _ w, ∃ bs, blocks = inr <$> bs ∧ own host path (d ++ concat bs) w).
Proof.
  intros Hp. revert written d. induction blocks as [|[e|chunk] rest IH]; intros written d; cbn [write_blocks].
  - intros w _ Ho. exists []. by rewrite app_nil_r.
  - done.
  - assert (∀ written', safe (own host path (d ++ chunk)) (write_blocks host cfg url path written' rest)
      (λ _ w, ∃ bs, inr chunk :: rest = inr <$> bs ∧ own host path (d ++ concat bs) w)) as Hrest.
    { intros written'. eapply safe_post; [|apply IH]. intros [] w _ (bs & -> & Ho).
      exists (chunk :: bs). split; [done|]. simpl. by rewrite (assoc_L (++)). }
    destruct chunk as [|c chunk]; [by rewrite app_nil_r in Hrest|].
    destruct (_ <? _); [done|]. eapply safe_bind; [by apply safe_append|]. intros []. apply Hrest.
Qed.

Lemma split_go_no_char c k s : Forall (λ f, c ∉ f) (split_go [c] k s).
Proof.
  revert k. induction s as [|x s IH]; intros k; simpl; [constructor; [apply not_elem_of_nil|constructor]|].
  destruct k as [|k]; [|apply IH]. unfold startswith. case_bool_decide as Hs.
  - constructor; [apply not_elem_of_nil|apply IH].
  - specialize (IH 0%nat). destruct (split_go [c] 0 s) as [|f fs] eqn:E; [by apply split_go_nonempty in E|].
    simpl.
    apply Forall_cons in IH as [Hf Hfs]. constructor; [|done].
    rewrite elem_of_cons. intros [<-|?]; [|done]. by apply Hs; exists s.
Qed.

Lemma basename_no_slash p : 47 ∉ basename p.
Proof.
  unfold basename, split. change (u "/") with [47]. pose proof (split_go_no_char 47 0 p) as Hs.
  destruct (last (split_go [47] 0 p)) as [f|] eqn:Hl; [|apply not_elem_of_nil]. simpl.
  rewrite Forall_forall in Hs. by apply Hs, last_Some_elem_of.
Qed.

Definition fetched (url path : pystr) w : Prop :=
  ∃ d, serves url d ∧ own host path d w.

Lemma safe_download url :
  safe (λ _, True) (download host cfg url) (λ path w, no_cache cfg path ∧ fetched url path w).
Proof.
  unfold download. apply safe_lift. intros [status blocks] Hget. cbn [fst snd].
  destruct (Z.eqb_spec status 200) as [->|]; [|done]. cbn [negb].
  set (filename := match basename _ with [] => _ | f => f end).
  assert (47 ∉ u "_" ++ filename) as Hslash.
  { rewrite elem_of_app. intros [Hin|Hin]; [vm_compute in Hin; set_solver|].
    unfold filename in Hin. pose proof (basename_no_slash (url_path url)) as Hb.
    destruct (basename _); [vm_compute in Hin; set_solver|done]. }
  eapply safe_bind.
  { apply (safe_mkstemp cfg host _ _ (no_cache cfg)). intros used. split; by apply no_cache_temp. }
  intros temp. cbv beta. apply safe_pure. intros Htemp.
  apply (safe_pre _ _ _ (λ _, True)); [done|]. eapply safe_attempt_then; [done| |..].
  - eapply safe_bind; [by apply safe_write|]. intros []. by apply safe_write_blocks.
  - intros e. by apply safe_then; [|apply harmless_remove_if|].
  - intros [] w _ (_ & bs & -> & Ho). split; [done|]. exists (concat bs). split; [by exists bs|done].
Qed.

(** ** Reading a file of one's own *)
Lemma safe_hash_own path d :
  safe (own host path d) (hash_file host path) (λ h w, h = sha256_hex d ∧ own host path d w).
Proof.
  unfold hash_file. eapply safe_bind; [apply (safe_read_own cfg host)|]. intros r. apply safe_pure.
  intros -> w _ Ho. by rewrite concat_blocks by (unfold CHUNK_SIZE; lia).
Qed.

Lemma safe_page_count path d :
  safe (own host path d) (page_count host path) (λ n w, n = pages_of d ∧ own host path d w).
Proof.
  intros w HI [t Ht]. simpl. rewrite Ht. simpl. split_and!; [done|split; [apply jobs_kept_refl|done]|].
  exists (own host path d). split_and!; [apply stable_own|by exists t|].
  unfold pages_of. by destruct (pdf_pages d); intros w' _ Ho.
Qed.

Lemma safe_put_source path d :
  served d → safe (own host path d) (put_source host (sha256_hex d) path) (λ _ _, True).
Proof.
  intros Hd. unfold put_source. eapply safe_quiet_then; [apply stable_own|apply quiet_own|harmless_prog|].
  intros [|]; [done|]. eapply safe_bind; [apply (safe_read_own cfg host)|]. intros r. apply safe_pure.
  intros ->. apply (safe_pre _ _ _ (λ _, True)); [done|]. apply safe_harmless; [done|].
  apply guarantee_bind; [|done]. by apply quiet_harmlessly, quiet_put, object_fine_source.
Qed.

(** ** Documents that are read *)

(** Page [i] of the document [d], as the API presents it. *)
Definition page_of (l : bool) (d : bytes) (i : Z) (p : PageResponse) : Prop :=
  ∃ D md pages text, make_doc_key cfg (sha256_hex d) l = inr D ∧ reference_markdown cfg l d = inr md ∧
    reference_pages cfg l d = inr pages ∧ 1 <= i ∧ pages !! Z.to_nat (i - 1) = Some text ∧
    p = Build_PageResponse D text (build_pagination D i (len pages) (len md) (PAGE_SIZE cfg)).

(** The manifest of the document with key [D]. *)
Definition manifest_of (D : pystr) (m : json) : Prop :=
  ∃ d l md pages, has_key D d l ∧ reference_markdown cfg l d = inr md ∧
    reference_pages cfg l d = inr pages ∧ m = manifest_json cfg D pages (len md).

Lemma reads_get_manifest D (R : world → world → Prop) :
  reads R (get_manifest D) (λ r _, ∀ m, r = Some m → manifest_of D m).
Proof.
  unfold get_manifest. eapply safe_bind_pure.
  { apply (safe_get_bytes inv guar_quiet R _ (manifest_ok cfg D)). intros w b HI Hb.
    by apply (of_manifest _ _ _ (ci_objects _ _ HI _ _ Hb)). }
  intros [b|] Hb; [|by intros w _ _ m [=]]. destruct (Hb b eq_refl) as (d & l & md & pages & Hk & Hmd & Hp & He).
  assert (Forall member_ok (manifest_dict (Manifest D (len pages) (len md) (PAGE_SIZE cfg)))) as Hok.
  { apply manifest_dict_ok. by eapply key_scalar. }
  rewrite encode_dumps in He by (eapply Forall_impl; [exact Hok|apply member_ok_text]).
  injection He as <-. rewrite loads_dumps by done. intros w _ _ m [= <-]. by exists d, l, md, pages.
Qed.

Lemma reads_get_page D i (R : world → world → Prop) :
  1 <= i →
  reads R (get_page D i) (λ r _, ∀ text, r = Some text →
    ∃ d l pages, has_key D d l ∧ reference_pages cfg l d = inr pages ∧ pages !! Z.to_nat (i - 1) = Some text).
Proof.
  intros Hi. unfold get_page. eapply safe_bind_pure.
  { apply (safe_get_bytes inv guar_quiet R _ (page_fine cfg D i)). intros w b HI Hb.
    by apply (of_page _ _ _ (ci_objects _ _ HI _ _ Hb)). }
  intros [b|] Hb; [|by intros w _ _ m [=]]. destruct (Hb b eq_refl) as (d & l & pages & p & Hk & Hp & Hl & He).
  apply safe_lift. intros text Htext w _ _ ? [= <-]. apply utf8_inverse in He. rewrite He in Htext.
  injection Htext as <-. by exists d, l, pages.
Qed.

(** A page and a manifest of the same key are of the same document. *)
Lemma page_of_parts D i m d l pages text pg :
  1 <= i → manifest_of D m → has_key D d l → reference_pages cfg l d = inr pages →
  pages !! Z.to_nat (i - 1) = Some text → manifest_pagination D i m = inr pg →
  page_of l d i (Build_PageResponse D text pg).
Proof.
  intros Hi (d' & l' & md & pages' & Hk' & Hmd & Hp' & ->) Hk Hp Ht Hpg.
  destruct (key_identifies cfg D d d' l l' Hk Hk') as [<- <-]. rewrite Hp in Hp'. injection Hp' as <-.
  rewrite manifest_pagination_stored in Hpg. injection Hpg as <-.
  exists D, md, pages, text. split_and!; [apply Hk|done..].
Qed.

Definition presents (D : pystr) (i : Z) (p : PageResponse) : Prop := ∃ d l, has_key D d l ∧ page_of l d i p.

Lemma reads_first_page_payload D m (R : world → world → Prop) :
  manifest_of D m →
  reads R (first_page_payload D m) (λ r _, ∀ p, r = Some p → presents D 1 p).
Proof.
  intros Hm. unfold first_page_payload. eapply safe_bind_pure; [by apply reads_get_page|].
  intros [text|] Ht; [|by intros w _ _ p [=]]. destruct (Ht text eq_refl) as (d & l & pages & Hk & Hp & Hl).
  apply safe_lift. intros pg Hpg w _ _ p [= <-]. exists d, l. split; [done|]. by eapply page_of_parts.
Qed.

Lemma reads_cached_payload D (R : world → world → Prop) :
  reads R (cached_payload host D) (λ r _, ∀ p, r = Some p → presents D 1 p).
Proof.
  unfold cached_payload. apply safe_then; [apply framed_pure|harmless_prog|]. intros [row|]; [|by intros w _ _ p [=]].
  eapply safe_bind_pure; [apply reads_get_manifest|]. intros [m|] Hm; [|by intros w _ _ p [=]].
  by apply reads_first_page_payload, Hm.
Qed.

Lemma reads_safe {A} (p : prog world A) Q :
  reads (rely host) p Q → safe (λ _, True) p Q.
Proof. apply safe_weaken. apply guar_quiet_guar. Qed.

(** What one knows of one's own files survives reading. *)
Lemma reads_own {A} path d (p : prog world A) Q :
  reads (rely host) p Q → safe (own host path d) p (λ a w, Q a w ∧ own host path d w).
Proof.
  intros Hp. apply (safe_weaken _ guar_quiet); [apply guar_quiet_guar|].
  apply (safe_pre _ _ _ (λ w, True ∧ own host path d w)); [done|].
  apply safe_frame; [|done]. split; [apply quiet_own|apply stable_own].
Qed.

(** ** New jobs *)
Lemma create_job_fine ts J D h url ranges d l db r db' :
  create_job_sql ts J D h url ranges l db = inr (r, db') → has_key D d l → planned d = inr ranges →
  jobs_fine cfg db →
  jobs_fine cfg db' ∧ jobs_kept db db' ∧ ∃ j, db_jobs db' !! J = Some j ∧ j_doc_key j = D.
Proof.
  unfold create_job_sql, sql_insert. destruct (db_jobs db !! J) eqn:HJ; [done|]. simpl.
  destruct (insert_chunks _ _ _ _ _) as [|db1] eqn:Hins; [done|]. intros [= _ <-] Hk Hp [Hjobs Hchunks].
  apply insert_chunks_spec in Hins as (Hjs & _ & Hoth & _ & Hrows & _). simpl in *.
  assert (∀ i, is_Some (db_chunks db1 !! (J, i)) ↔ 0 <= i < len ranges) as HdomJ.
  { intros i. rewrite Hrows, Z.add_0_l, Z.sub_0_r. destruct (decide (0 <= i < len ranges)).
    - rewrite fmap_is_Some. split; [done|intros _]. apply lookup_lt_is_Some. unfold len in *. lia.
    - split; [|done]. intros Hs%Hchunks. rewrite HJ in Hs. by destruct Hs. }
  split_and!; [split| |].
  - intros J' j'. rewrite Hjs, lookup_insert_Some. intros [[<- <-]|[Hne Hj']]; [by exists d, l, ranges|].
    destruct (Hjobs J' j' Hj') as (d' & l' & ranges' & Hk' & Hp' & Hdom & Hdone). exists d', l', ranges'.
    split_and!; [done|done| |done]. intros i. by rewrite Hoth.
  - intros J' i Hi. rewrite Hjs. destruct (decide (J' = J)) as [->|Hne]; [by rewrite lookup_insert_eq|].
    rewrite lookup_insert_ne by done. rewrite Hoth in Hi by done. by eapply Hchunks.
  - intros J' j' Hj'. exists j'. rewrite Hjs, lookup_insert_ne by congruence. done.
  - rewrite Hjs, lookup_insert_eq. by eexists.
Qed.

Lemma safe_create_job J D h url ranges d l :
  has_key D d l → planned d = inr ranges →
  safe (λ _, True) (create_job host J D h url ranges l) (λ _, job_has_key J D).
Proof.
  intros Hk Hp. unfold create_job. apply safe_then; [done|harmless_prog|]. intros ts.
  apply (safe_transaction host inv (guar host) (rely host)); [done|intros _; apply stable_job_key|].
  intros w r db fs HI _ Hdb.
  destruct (create_job_fine _ _ _ _ _ _ _ _ _ _ _ Hdb Hk Hp (ci_jobs _ _ HI)) as (Hfine & Hkept & Hj).
  split_and!; [by apply content_db|by split|done].
Qed.

Lemma submit_tasks_ok J D d l ranges total index rest :
  has_key D d l → planned d = inr ranges → encodable J → 0 <= index →
  (∀ i r, rest !! i = Some r → ranges !! (Z.to_nat index + i)%nat = Some r) →
  Forall (task_ok cfg) (submit_tasks J D (sha256_hex d) total l index rest).
Proof.
  intros Hk Hp HJ. revert index. induction rest as [|[s e] rest IH]; intros index Hi Hr; cbn [submit_tasks];
    constructor.
  - exists d, ranges. split_and!; [done|done|done|done|done|]. cbn.
    rewrite <-(Nat.add_0_r (Z.to_nat index)). by apply Hr.
  - apply IH; [lia|]. intros i r Hir. replace (Z.to_nat (index + 1) + i)%nat
      with (Z.to_nat index + Datatypes.S i)%nat by lia. by apply Hr.
Qed.

(** ** Submissions *)

(** What a submission of [url] returns. *)
Definition submitted (url : pystr) (l : bool) (J : pystr) (s : submission) w : Prop :=
  ∃ d, serves url d ∧
  match s with
  | Cached p => page_of l d 1 p
  | Queued J' D n => J' = J ∧ has_key D d l ∧ job_has_key J D w ∧ ∃ ranges, planned d = inr ranges ∧ n = len ranges
  end.

(** What the part under [try] of [submit] returns. *)
Definition prepared (url : pystr) (l : bool) (r : PageResponse + pystr * pystr * list (Z * Z)) : Prop :=
  ∃ d, serves url d ∧
  match r with
  | inl p => page_of l d 1 p
  | inr (h, D, ranges) => h = sha256_hex d ∧ has_key D d l ∧ planned d = inr ranges
  end.

Lemma presents_page D d l i p : has_key D d l → presents D i p → page_of l d i p.
Proof. intros Hk (d' & l' & Hk' & Hp). by destruct (key_identifies cfg D d d' l l' Hk Hk') as [<- <-]. Qed.

Lemma safe_prepare url path d l :
  serves url d →
  safe (own host path d)
    (file_hash ← hash_file host path;
     doc_key ← lift (make_doc_key cfg file_hash l);
     hit ← cached_payload host doc_key;
     match hit with
     | Some payload => mret (inl payload)
     | None =>
         pages ← page_count host path;
         ranges ← lift (plan_chunks pages (PAGES_PER_CHUNK cfg) (MIN_PAGES_FOR_PARALLEL cfg));
         _ ← put_source host file_hash path;
         mret (inr (file_hash, doc_key, ranges))
     end)
    (λ r _, prepared url l r).
Proof.
  intros Hd. assert (served d) as Hserved by by exists url.
  eapply safe_bind; [apply safe_hash_own|]. intros h. apply safe_pure. intros ->.
  apply safe_lift. intros D HD. assert (has_key D d l) as Hk by done.
  eapply safe_bind; [apply reads_own, reads_cached_payload|]. intros hit. cbv beta.
  apply safe_pure. intros Hhit. destruct hit as [p|].
  { intros w _ _. exists d. split; [done|]. by eapply presents_page, Hhit. }
  eapply safe_bind; [apply safe_page_count|]. intros n. apply safe_pure. intros ->.
  apply safe_lift. intros ranges Hr. eapply safe_bind; [by apply safe_put_source|].
  intros _ w _ _. by exists d.
Qed.

Lemma safe_submit J url l :
  encodable J → safe (λ _, True) (submit host cfg J url l) (submitted url l J).
Proof.
  intros HJ. unfold submit. eapply safe_bind; [apply safe_download|]. intros path. cbv beta.
  apply safe_pure. intros Hpath. eapply safe_bind_pure.
  { apply safe_finally; [|apply safe_exists|apply harmless_remove_if].
    - intros r. apply (framed_pure _ _ (prepared url l r)).
    - intros d. apply safe_pure. intros Hd. by apply safe_prepare. }
  intros [p|[[h D] ranges]] (d & Hd & Hr); [by intros w _ _; exists d|].
  destruct Hr as (-> & Hk & Hp). eapply safe_bind; [by eapply safe_create_job|]. intros [].
  apply safe_then; [apply framed_job_key| |].
  - apply quiet_harmlessly, quiet_publish. by eapply submit_tasks_ok.
  - intros _ w _ Hj. exists d. split_and!; [done|done|done|done|by exists ranges].
Qed.

(** ** Endpoints *)

(** The URL and the mode a request asks for. *)
Definition asks (request : option ConvertRequest) (url : pystr) (l : bool) : Prop :=
  ∃ use_llm, request = Some (Build_ConvertRequest (Some url) use_llm) ∧
    l = default (CONVERT_USE_LLM cfg) use_llm.

Lemma safe_submit_request J request :
  encodable J →
  safe (λ _, True) (submit_request host cfg J request) (λ r w, match r with
    | inl refusal => ∃ status detail, refusal = HTTPException status detail
    | inr s => ∃ url l, asks request url l ∧ submitted url l J s w
    end).
Proof.
  intros HJ. unfold submit_request.
  destruct request as [[[[|c file]|] use_llm]|]; [by intros w _ _; do 2 eexists| |by intros w _ _; do 2 eexists..].
  eapply safe_bind; [by apply safe_attempt, safe_submit|]. intros [e|s]; cbv beta iota.
  - intros w _ _. by do 2 eexists.
  - intros w _ Hs. exists (c :: file), (default (CONVERT_USE_LLM cfg) use_llm).
    split; [by exists use_llm|done].
Qed.

Lemma safe_wait fuel J D :
  safe (job_has_key J D) (wait_for_job host (mret tt) fuel J) (λ j _, j_doc_key j = D).
Proof.
  induction fuel as [|fuel IH]; cbn [wait_for_job]; [done|].
  eapply safe_bind.
  { apply (safe_pre _ _ _ (λ w, True ∧ job_has_key J D w)); [done|].
    apply safe_frame; [apply framed_job_key|].
    apply (safe_get_job host inv (guar host) (rely host)). intros D'. apply stable_job_key. }
  intros [j|]; cbv beta; [|by eapply safe_pre; [|exact IH]; intros w _ [_ ?]].
  destruct (terminal (j_status j)); [|by eapply safe_pre; [|exact IH]; intros w _ [_ ?]].
  intros w _ [(j1 & HJ1 & Hj1) (j2 & HJ2 & <-)]. rewrite HJ1 in HJ2. injection HJ2 as <-. done.
Qed.

Lemma reads_completed j (R : world → world → Prop) :
  reads R (completed_job_payload j) (λ r _, match r with
    | PageReply p => presents (j_doc_key j) 1 p
    | HTTPException _ _ => True
    | _ => False
    end).
Proof.
  unfold completed_job_payload. destruct (j_status j); [..|by intros w];
    (eapply safe_bind_pure; [apply reads_get_manifest|]; intros [m|] Hm; [|by intros w];
     eapply safe_bind_pure; [by apply reads_first_page_payload, Hm|]; intros [p|] Hp w _ _; [by apply Hp|done]).
Qed.

(** What an endpoint promises of its reply. *)
Definition promise (e : endpoint) (r : reply) : Prop :=
  match e, r with
  | _, HTTPException _ _ => True
  | (Convert _ _ request | AsyncConvert _ request), PageReply p =>
      ∃ url l d, asks request url l ∧ serves url d ∧ page_of l d 1 p
  | AsyncConvert J request, JobAccepted J' D n =>
      J' = J ∧ ∃ url l d ranges, asks request url l ∧ serves url d ∧
        make_doc_key cfg (sha256_hex d) l = inr D ∧ planned d = inr ranges ∧ n = len ranges
  | GetPage D i, PageReply p => presents D i p
  | GetJob J, JobReply s => js_job_id s = J ∧ ∃ d l, has_key (js_doc_key s) d l
  | _, _ => False
  end.

Lemma safe_convert J fuel request :
  encodable J →
  safe (λ _, True) (convert_endpoint host cfg J (mret tt) fuel request) (λ r _, promise (Convert J fuel request) r).
Proof.
  intros HJ. unfold convert_endpoint. eapply safe_bind; [by apply safe_submit_request|].
  intros [refusal|[p|J' D n]]; cbv beta iota.
  - intros w _ (status & detail & ->). done.
  - intros w _ (url & l & Ha & d & Hd & Hp). by exists url, l, d.
  - apply safe_exists. intros url. apply safe_exists. intros l. apply safe_pure. intros Ha.
    apply safe_exists. intros d. apply safe_pure. intros Hd. apply safe_pure. intros ->.
    apply safe_pure. intros Hk. eapply safe_bind_pure.
    { eapply safe_pre; [|apply safe_wait]. by intros w _ [? _]. }
    intros j Hj. eapply safe_post; [|apply reads_safe, reads_completed].
    intros [p| | | |] w _ Hp; try done. exists url, l, d. split_and!; [done|done|].
    eapply presents_page; [exact Hk|]. by rewrite <-Hj.
Qed.

Lemma safe_async_convert J request :
  encodable J →
  safe (λ _, True) (async_convert_endpoint host cfg J request) (λ r _, promise (AsyncConvert J request) r).
Proof.
  intros HJ. unfold async_convert_endpoint. eapply safe_bind; [by apply safe_submit_request|].
  intros [refusal|[p|J' D n]] w _; cbv beta iota.
  - by intros (status & detail & ->).
  - intros (url & l & Ha & d & Hd & Hp). by exists url, l, d.
  - intros (url & l & Ha & d & Hd & -> & [_ Hk] & _ & ranges & Hr & Hn).
    split; [done|]. by exists url, l, d, ranges.
Qed.

Lemma reads_page_endpoint D i (R : world → world → Prop) :
  reads R (get_page_endpoint D i) (λ r _, promise (GetPage D i) r).
Proof.
  unfold get_page_endpoint. eapply safe_bind_pure; [apply reads_get_manifest|].
  intros [m|] Hm; [|by intros w]. destruct (Z.ltb_spec i 1); [by intros w|].
  apply safe_lift. intros n _. destruct (n <? i); [by intros w|].
  eapply safe_bind_pure; [by apply reads_get_page|]. intros [text|] Ht; [|by intros w].
  destruct (Ht text eq_refl) as (d & l & pages & Hk & Hp & Hl). apply safe_lift. intros pg Hpg w _ _.
  exists d, l. split; [done|]. eapply page_of_parts; [lia|by apply Hm|done..].
Qed.

Lemma reads_job_endpoint J (R : world → world → Prop) :
  reads R (get_job_endpoint host J) (λ r _, promise (GetJob J) r).
Proof.
  unfold get_job_endpoint. eapply safe_bind_pure.
  { apply (safe_query_one host inv guar_quiet R J db_jobs
      (λ r _, ∀ j, r = Some j → ∃ d l, has_key (j_doc_key j) d l)); [by intros r w w' Hr _| |by intros r w fs Hr].
    intros w HI j Hj. destruct (proj1 (ci_jobs _ _ HI) J j Hj) as (d & l & _ & Hk & _). by exists d, l. }
  intros [j|] Hj; [|by intros w]. apply (safe_bind_pure _ _ _ _ _ _
    (λ s, js_job_id s = J ∧ js_doc_key s = j_doc_key j)).
  - unfold job_payload. apply safe_then; [apply framed_pure|harmless_prog|]. by intros pr w _ _.
  - intros s [Hs HD] w _ _. split; [done|]. rewrite HD. by apply Hj.
Qed.

Lemma safe_answer e :
  match e with Convert J _ _ | AsyncConvert J _ => encodable J | _ => True end →
  safe (λ _, True) (answer host cfg e) (λ r _, promise e r).
Proof.
  destruct e as [J fuel request|J request|J|D i]; cbn [answer]; intros HJ.
  - by apply safe_convert.
  - by apply safe_async_convert.
  - apply reads_safe, reads_job_endpoint.
  - apply reads_safe, reads_page_endpoint.
Qed.

Lemma quiet_readyz : quietly (readyz host cfg).
Proof.
  unfold readyz. apply guarantee_bind; [harmless_prog|]. intros database.
  apply guarantee_bind; [harmless_prog|]. intros storage.
  apply guarantee_bind; [|done]. unfold Taskqueue.health. apply guarantee_bind; [|done].
  apply guarantee_attempt, quiet_connect.
Qed.
End api.
