(* ===== verification/Walk.v ===== *)
(** * Every program of the service, action by action

    For an invariant that does not look at files and messages, and at objects only
    as far as manifests are concerned, everything up to the assembly of a document
    is harmless.  One walk through the programs serves all such invariants. *)
From S2P Require Import Prelude PyStr Effects Rely Quiet Utf8 Json Database Config World Db Jobstore.
From S2P Require Import Files Chunker Storage Taskqueue Converter Pagination Worker Api Deployment.

(** An object that is not a manifest. *)
Definition no_manifest (k : pystr) : Prop := ∀ D, manifest_key D ≠ k.

Lemma source_no_manifest h : no_manifest (source_key h).
Proof. intros D. discriminate. Qed.
Lemma part_no_manifest D i : no_manifest (part_key D i).
Proof. intros D'. discriminate. Qed.
Lemma page_no_manifest D i : no_manifest (page_key D i).
Proof. intros D'. apply manifest_page_ne. Qed.

(** Such an invariant. *)
Class Everyday {S B} `{ObjectStore S} (harmless : world S B → world S B → Prop)
    `{!Harmless harmless} : Prop := {
  harmless_same : ∀ w w', w_db w' = w_db w → w_s3 w' = w_s3 w → harmless w w';
  harmless_put : ∀ w k b fs, no_manifest k → harmless w (set_s3 (s3_put k b (w_s3 w)) fs w);
  quiet_create : ∀ ts J D h url ranges use_llm db db',
    create_job_sql ts J D h url ranges use_llm db = inr (tt, db') → quiet db db';
}.

Section walk.
Context {S B : Type} `{ObjectStore S} `{Broker B} `{Externals} `{Codecs}.
Context (cfg : config) (api_key : option pystr) (liveness_file : pystr).
#[local] Abbreviation world := (world S B).
Context (harmless : world → world → Prop) `{!Harmless harmless} `{!Everyday harmless}.

(** Files and messages do not matter at all. *)
Lemma harmless_files {R} (f : world → (exn + R) * world) :
  (∀ w, w_db (f w).2 = w_db w ∧ w_s3 (f w).2 = w_s3 w) → guarantee harmless (io f).
Proof. intros Hf. apply guarantee_io. intros w. by apply harmless_same; apply Hf. Qed.

Lemma harmless_touch {R} (f : world → R * world) :
  (∀ w, w_db (f w).2 = w_db w) → (∀ w, w_s3 (f w).2 = w_s3 w) → guarantee harmless (act f).
Proof. intros Hd Hs. apply guarantee_act. intros w. by apply harmless_same. Qed.

Lemma harmless_mq_call {R} (f : B → exn + R * B) : guarantee harmless (mq_call f).
Proof. by apply guarantee_mq_call; intros; apply harmless_same. Qed.
#[local] Hint Resolve harmless_mq_call : harmless.

Section host.
Context (host : pystr).

Lemma harmless_create_job J D h url ranges use_llm :
  guarantee harmless (create_job host J D h url ranges use_llm).
Proof.
  unfold create_job. harmless_prog. apply (harmless_transaction host harmless).
  intros db [] db'. apply quiet_create.
Qed.
#[local] Hint Resolve harmless_create_job : harmless.

(** *** Files *)
Lemma harmless_write_file path d : guarantee harmless (write_file host path d).
Proof. by apply harmless_touch. Qed.
Lemma harmless_append_file path d : guarantee harmless (append_file host path d).
Proof. by apply harmless_touch. Qed.
Lemma harmless_remove_file path : guarantee harmless (remove_file host path).
Proof. apply harmless_files. intros w. by destruct (w_files w !! (host, path)). Qed.
Lemma harmless_utime path : guarantee harmless (utime host path).
Proof. apply harmless_files. intros w. by destruct (w_files w !! (host, path)). Qed.
Lemma harmless_rename src dst : guarantee harmless (rename host src dst).
Proof. apply harmless_files. intros w. by destruct (w_files w !! (host, src)). Qed.
Lemma harmless_mkstemp dir suffix : guarantee harmless (mkstemp host dir suffix).
Proof. by apply harmless_touch. Qed.
#[local] Hint Resolve harmless_write_file harmless_append_file harmless_remove_file harmless_utime
  harmless_rename harmless_mkstemp : harmless.
Lemma harmless_remove_if_exists path : guarantee harmless (remove_if_exists host path).
Proof. unfold remove_if_exists. harmless_prog. Qed.
Lemma harmless_extract_pages src start end_ out :
  guarantee harmless (extract_pages host src start end_ out).
Proof. unfold extract_pages. harmless_prog. Qed.
Lemma harmless_write_blocks url path written blocks :
  guarantee harmless (write_blocks host cfg url path written blocks).
Proof.
  revert written. induction blocks as [|[e|[|c d]] rest IH]; intros written; cbn [write_blocks];
    harmless_prog; apply IH.
Qed.
#[local] Hint Resolve harmless_remove_if_exists harmless_extract_pages harmless_write_blocks : harmless.
Lemma harmless_download url : guarantee harmless (download host cfg url).
Proof. unfold download. harmless_prog. Qed.
#[local] Hint Resolve harmless_download : harmless.

(** *** storage.py *)
Lemma harmless_put_object k b : no_manifest k → guarantee harmless (put_object k b).
Proof.
  intros Hk. apply guarantee_s3_call; [intros; by apply harmless_same|]. intros w fs r s.
  destruct (s3_bucket (w_s3 w)); [|done]. intros [= _ <-]. by apply harmless_put.
Qed.
Lemma harmless_get_source h path : guarantee harmless (get_source host h path).
Proof.
  apply guarantee_get_source; [intros; by apply harmless_same|intros; harmless_prog..].
Qed.
Lemma harmless_put_part D i md : guarantee harmless (put_part D i md).
Proof. unfold put_part. harmless_prog. apply harmless_put_object, part_no_manifest. Qed.
Lemma harmless_put_source h path : guarantee harmless (put_source host h path).
Proof. unfold put_source. harmless_prog. apply harmless_put_object, source_no_manifest. Qed.
#[local] Hint Resolve harmless_get_source harmless_put_part harmless_put_source : harmless.

(** *** taskqueue.py *)
Lemma harmless_connect : guarantee harmless (connect host cfg).
Proof. unfold connect, declare. harmless_prog; by apply harmless_touch. Qed.
#[local] Hint Resolve harmless_connect : harmless.
Lemma harmless_publish_bodies ex key bodies : guarantee harmless (publish_bodies host cfg ex key bodies).
Proof. unfold publish_bodies, channel, basic_publish. harmless_prog. Qed.
#[local] Hint Resolve harmless_publish_bodies : harmless.
Lemma harmless_publish_with ex key bodies :
  guarantee harmless (publish_with_reconnect host cfg ex key bodies).
Proof. unfold publish_with_reconnect. harmless_prog. Qed.
#[local] Hint Resolve harmless_publish_with : harmless.
Lemma harmless_publish tasks : guarantee harmless (publish host cfg tasks).
Proof. unfold publish. harmless_prog. Qed.
Lemma harmless_publish_retry task : guarantee harmless (publish_retry host cfg task).
Proof. unfold publish_retry. harmless_prog. Qed.
Lemma harmless_publish_failed task e : guarantee harmless (publish_failed host cfg task e).
Proof. unfold publish_failed. harmless_prog. Qed.
#[local] Hint Resolve harmless_publish harmless_publish_retry harmless_publish_failed : harmless.

(** *** worker.py, before the assembly *)
Lemma harmless_touch_liveness : guarantee harmless (touch_liveness host liveness_file).
Proof. apply guarantee_ignore_os_error. harmless_prog. Qed.
#[local] Hint Resolve harmless_touch_liveness : harmless.
Lemma harmless_prune max_bytes : guarantee harmless (prune_source_cache host cfg max_bytes).
Proof. apply guarantee_prune; [intros w; by apply harmless_same|]. intros path. harmless_prog. Qed.
#[local] Hint Resolve harmless_prune : harmless.
Lemma harmless_fetch_source h : guarantee harmless (fetch_source host cfg h).
Proof. unfold fetch_source. harmless_prog. Qed.
#[local] Hint Resolve harmless_fetch_source : harmless.
Lemma harmless_convert_range h start end_ use_llm :
  guarantee harmless (convert_range host cfg api_key h start end_ use_llm).
Proof. unfold convert_range. harmless_prog. Qed.
Lemma harmless_handle_failure task e : guarantee harmless (handle_failure host cfg task e).
Proof. unfold handle_failure. harmless_prog. Qed.
#[local] Hint Resolve harmless_convert_range harmless_handle_failure : harmless.

(** *** The API *)
Lemma harmless_submit job_id url use_llm : guarantee harmless (submit host cfg job_id url use_llm).
Proof. unfold submit, cached_payload, first_page_payload. harmless_prog. Qed.
#[local] Hint Resolve harmless_submit : harmless.
Lemma harmless_submit_request job_id request : guarantee harmless (submit_request host cfg job_id request).
Proof. unfold submit_request. harmless_prog. Qed.
#[local] Hint Resolve harmless_submit_request : harmless.

Lemma harmless_answer e : guarantee harmless (answer host cfg e).
Proof.
  destruct e as [job_id fuel request|job_id request|job_id|doc_id page]; cbn [answer].
  - unfold convert_endpoint, completed_job_payload, first_page_payload.
    apply guarantee_bind; [apply harmless_submit_request|]. intros [refusal|[payload|J D n]]; [done|done|].
    apply guarantee_bind; [by apply (harmless_wait host harmless)|]. intros j. harmless_prog.
  - unfold async_convert_endpoint. harmless_prog.
  - unfold get_job_endpoint, job_payload. harmless_prog.
  - unfold get_page_endpoint. harmless_prog.
Qed.

Lemma harmless_readyz : guarantee harmless (readyz host cfg).
Proof. unfold readyz, Db.health, Taskqueue.health. harmless_prog. Qed.
End host.
End walk.

#[export] Hint Resolve harmless_mq_call harmless_create_job harmless_remove_if_exists harmless_download
  harmless_put_part harmless_put_source harmless_connect harmless_publish harmless_convert_range
  harmless_handle_failure harmless_touch_liveness harmless_submit_request harmless_answer
  harmless_readyz : harmless.
