(* ===== verification/System.v ===== *)
(** * The whole system: any interleaving, any fault, any crash

    Any number of worker and API processes run at the same time; each takes one
    action at a time, any call may fail before or after it took effect, any
    process may die between two actions, messages may be lost, duplicated and
    redelivered at will, and the objects that the bucket's lifecycle rule covers may
    expire at any time.  The theorem: a job is never [done] before its document was
    complete in the bucket, and what has not expired of it is still there. *)
From S2P Require Import Prelude PyStr Effects Rely Quiet Walk Utf8 Json Database Config World Db.
From S2P Require Import Jobstore Counter Files Chunker Storage Taskqueue Converter Pagination Worker Cache.
From S2P Require Import Handler Drain Api Deployment Service.

Section system.
Context {S B : Type} `{ObjectStoreLaws S} `{BrokerLaws B} `{TempLaws} `{Codecs}.
Context (cfg : config) (api_key : option pystr) (liveness_file : pystr).
(** The keys of the objects that may expire. *)
Context (X : pystr → Prop).
#[local] Abbreviation world := (world S B).
Implicit Types (w : world).

(** ** The invariant and the rely *)

(** A manifest that is in the bucket is one [put_document] wrote, and every page
    it announces is in the bucket, unless it expired. *)
Definition manifest_complete (D : pystr) (s : S) : Prop :=
  ∀ b, s3_get (manifest_key D) s = Some b →
    ∃ n total_length page_size,
      encode (dumps (manifest_dict (Manifest D n total_length page_size))) = inr b ∧
      ∀ i, 1 <= i <= n → ¬ X (page_key D i) → is_Some (s3_get (page_key D i) s).

(** So are the manifest and the pages of a document row. *)
Definition row_complete (D : pystr) w : Prop :=
  ∀ row, db_documents (w_db w) !! D = Some row →
    (¬ X (manifest_key D) → is_Some (s3_get (manifest_key D) (w_s3 w))) ∧
    ∀ i, 1 <= i <= d_total_pages row → ¬ X (page_key D i) → is_Some (s3_get (page_key D i) (w_s3 w)).

(** A done job has a document row. *)
Definition done_jobs_stored w : Prop :=
  ∀ J j, db_jobs (w_db w) !! J = Some j → j_status j = JDone →
    is_Some (db_documents (w_db w) !! j_doc_key j).

Definition sys_inv w : Prop :=
  (∀ D, manifest_complete D (w_s3 w)) ∧ (∀ D, row_complete D w) ∧ done_jobs_stored w.

(** What every action of every process respects: objects that do not expire,
    document rows and jobs do not disappear, and a job keeps its document key. *)
Definition sys_rely w w' : Prop :=
  (∀ k, ¬ X k → is_Some (s3_get k (w_s3 w)) → is_Some (s3_get k (w_s3 w'))) ∧
  (∀ J j, db_jobs (w_db w) !! J = Some j →
     ∃ j', db_jobs (w_db w') !! J = Some j' ∧ j_doc_key j' = j_doc_key j) ∧
  (∀ D, is_Some (db_documents (w_db w) !! D) → is_Some (db_documents (w_db w') !! D)).

#[local] Abbreviation stable := (stable sys_rely).
#[local] Abbreviation framed := (framed sys_rely sys_rely).
#[local] Abbreviation safe := (safe sys_inv sys_rely sys_rely).
#[local] Abbreviation harmless := (harmless sys_inv sys_rely).

Lemma stable_framed P : stable P → framed P.
Proof. by split. Qed.
#[local] Hint Resolve stable_framed : core.

Lemma sys_rely_refl w : sys_rely w w.
Proof. split_and!; eauto. Qed.

Lemma stable_object k : stable (λ w, ¬ X k → is_Some (s3_get k (w_s3 w))).
Proof. intros w w' Hk HR HX. by apply HR, Hk. Qed.

Lemma stable_document D : stable (λ w, is_Some (db_documents (w_db w) !! D)).
Proof. intros w w' HD HR. by apply HR. Qed.

Lemma stable_job_has_key J D : stable (job_has_key J D).
Proof.
  intros w w' (j & Hj & <-) HR. destruct HR as (_ & HR & _). destruct (HR J j Hj) as (j' & Hj' & Hk).
  by exists j'.
Qed.

(** ** Harmless actions *)

(** Neither the tables nor the bucket change. *)
Lemma tables_and_bucket_same w w' : w_db w' = w_db w → w_s3 w' = w_s3 w → harmless w w'.
Proof.
  intros Hd Hs HI. unfold sys_inv, row_complete, done_jobs_stored, sys_rely. rewrite Hd, Hs.
  split; [exact HI|]. apply sys_rely_refl.
Qed.

(** A statement that makes no job [done] and leaves the documents alone. *)
Definition db_quiet (db db' : database) : Prop :=
  (∀ J j', db_jobs db' !! J = Some j' → j_status j' = JDone →
     ∃ j, db_jobs db !! J = Some j ∧ j_status j = JDone ∧ j_doc_key j = j_doc_key j') ∧
  (∀ J j, db_jobs db !! J = Some j → ∃ j', db_jobs db' !! J = Some j' ∧ j_doc_key j' = j_doc_key j) ∧
  db_documents db' = db_documents db.

Lemma db_quiet_refl db : db_quiet db db.
Proof. split_and!; eauto. Qed.

Lemma harmless_quiet w db' fs : db_quiet (w_db w) db' → harmless w (set_db db' fs w).
Proof.
  intros (Hdone & Hkeep & Hdocs) (Hm & Hr & Hj). split.
  - split_and!; [exact Hm|intros D row; cbn [w_db set_db]; rewrite Hdocs; apply Hr|].
    intros J j' Hj' Hst. destruct (Hdone J j' Hj' Hst) as (j & HJ & Hst' & <-).
    cbn [w_db set_db]. rewrite Hdocs. by apply (Hj J j).
  - split_and!; [done|done|]. intros D. cbn [w_db set_db]. by rewrite Hdocs.
Qed.

Lemma put_keeps k b k' (s : S) : is_Some (s3_get k' s) → is_Some (s3_get k' (s3_put k b s)).
Proof.
  intros Hk'. destruct (decide (k = k')) as [->|Hne]; [rewrite s3_get_put; by eexists|].
  by rewrite s3_get_put_ne.
Qed.

(** More objects do no harm, as long as the manifests are complete. *)
Lemma put_harmless w k b fs :
  (∀ D b', s3_get (manifest_key D) (s3_put k b (w_s3 w)) = Some b' →
     s3_get (manifest_key D) (w_s3 w) = Some b' ∨
     ∃ n tl psz, encode (dumps (manifest_dict (Manifest D n tl psz))) = inr b' ∧
       ∀ i, 1 <= i <= n → ¬ X (page_key D i) → is_Some (s3_get (page_key D i) (w_s3 w))) →
  harmless w (set_s3 (s3_put k b (w_s3 w)) fs w).
Proof.
  intros Hk (Hm & Hr & Hj). pose proof (λ k', put_keeps k b k' (w_s3 w)) as Hkeep. split; [split_and!|].
  - intros D b' Hb. destruct (Hk D b' Hb) as [Hb'|Hnew]; [destruct (Hm D b' Hb') as (n & tl & ps & He & Hp)|
      destruct Hnew as (n & tl & ps & He & Hp)]; exists n, tl, ps; (split; [done|]); intros i Hi HX;
      by apply Hkeep, Hp.
  - intros D row Hrow. destruct (Hr D row Hrow) as [Hman Hp]. split; [intros HX; by apply Hkeep, Hman|].
    intros i Hi HX. by apply Hkeep, Hp.
  - exact Hj.
  - split_and!; [intros k' _; apply Hkeep|by eauto|done].
Qed.

Lemma put_object_harmless w k b fs : no_manifest k → harmless w (set_s3 (s3_put k b (w_s3 w)) fs w).
Proof.
  intros Hk. apply put_harmless. intros D b'. rewrite s3_get_put_ne by (apply not_eq_sym, Hk). by left.
Qed.

(** ** Statements of jobstore.py *)
Lemma quiet_jobs db J q f :
  (∀ j, q j = true → j_doc_key (f j) = j_doc_key j ∧ (j_status (f j) = JDone → j_status j = JDone)) →
  db_quiet db (set_jobs (sql_update (at_key J q) f) db).
Proof.
  intros Hf. split_and!; [| |done].
  - intros J' j'. simpl. rewrite lookup_update_at. case_decide as HJ; [|by eauto].
    intros (j & Hj & ->)%fmap_Some Hst. exists j. split; [done|]. destruct (q j) eqn:Hq; [|done].
    destruct (Hf j Hq) as [Hk Hd]. split; [by apply Hd|done].
  - intros J' j Hj. simpl. rewrite lookup_update_at, Hj. case_decide; [|by eauto].
    eexists. split; [done|]. destruct (q j) eqn:Hq; [|done]. by apply Hf.
Qed.

Lemma quiet_chunks db f : db_quiet db (set_chunks f db).
Proof. split_and!; eauto. Qed.

Lemma quiet_trans db1 db2 db3 : db_quiet db1 db2 → db_quiet db2 db3 → db_quiet db1 db3.
Proof.
  intros (H1a & H1b & H1c) (H2a & H2b & H2c). split_and!; [| |congruence].
  - intros J j3 Hj3 Hst3. destruct (H2a J j3 Hj3 Hst3) as (j2 & Hj2 & Hst2 & Hk2).
    destruct (H1a J j2 Hj2 Hst2) as (j1 & Hj1 & Hst1 & Hk1). exists j1. split_and!; [done|done|congruence].
  - intros J j1 Hj1. destruct (H1b J j1 Hj1) as (j2 & Hj2 & Hk2). destruct (H2b J j2 Hj2) as (j3 & Hj3 & Hk3).
    exists j3. split; [done|congruence].
Qed.

Lemma quiet_completed ts J i key db : db_quiet db (complete_chunk_sql ts J i key db).2.
Proof.
  destruct (complete_chunk_cases ts J i key db)
    as [[-> _]|[(c & _ & _ & _ & ->)|(c & j & _ & _ & Hj & Ht & ->)]]; cbn [snd].
  - apply db_quiet_refl.
  - apply quiet_chunks.
  - split_and!; [| |done].
    + intros J' j'. simpl. rewrite lookup_insert_Some. intros [[<- <-]|[_ Hj']]; [done|by eauto].
    + intros J' j'. simpl. destruct (decide (J = J')) as [<-|Hne].
      * rewrite Hj, lookup_insert_eq. intros [= <-]. by eexists.
      * rewrite lookup_insert_ne by done. by eauto.
Qed.

Lemma quiet_created ts J D h url ranges use_llm db db' :
  create_job_sql ts J D h url ranges use_llm db = inr (tt, db') → db_quiet db db'.
Proof.
  unfold create_job_sql, sql_insert. destruct (db_jobs db !! J) eqn:Hnone; [done|]. simpl.
  destruct (insert_chunks _ _ _ _ _) as [|db1] eqn:Hins; [done|]. intros [= <-].
  apply insert_chunks_spec in Hins as (Hjs & Hds & _). simpl in Hjs, Hds. split_and!.
  - intros J' j'. rewrite Hjs, lookup_insert_Some. intros [[<- <-]|[_ Hj']] Hst; [done|]. by exists j'.
  - intros J' j Hj. rewrite Hjs, lookup_insert_ne by congruence. by exists j.
  - done.
Qed.

(** ** Programs that only take harmless actions *)
#[local] Program Instance sys_harmless : Harmless harmless := {| quiet := db_quiet |}.
Next Obligation. intros. by apply tables_and_bucket_same. Qed.
Next Obligation. intros. by apply harmless_quiet. Qed.
Next Obligation.
  intros w fs HI. unfold sys_inv, manifest_complete, row_complete, done_jobs_stored, sys_rely in *.
  cbn [w_db w_s3 set_s3]. setoid_rewrite s3_get_create. split; [exact HI|]. split_and!; eauto.
Qed.
Next Obligation. apply db_quiet_refl. Qed.
Next Obligation. intros. apply quiet_chunks. Qed.
Next Obligation. intros. by apply quiet_jobs. Qed.
Next Obligation. intros. apply quiet_chunks. Qed.
Next Obligation. intros. apply quiet_chunks. Qed.
Next Obligation. intros. apply quiet_completed. Qed.
Next Obligation. intros. by apply quiet_jobs. Qed.

#[local] Instance sys_everyday : Everyday harmless.
Proof.
  split; [apply tables_and_bucket_same|apply put_object_harmless|apply quiet_created].
Qed.

Section host.
Context (host : pystr).

(** ** The assembly *)

Definition pages_stored D n w : Prop :=
  ∀ i, 1 <= i < n → ¬ X (page_key D i) → is_Some (s3_get (page_key D i) (w_s3 w)).

Lemma stable_pages_stored D n : stable (pages_stored D n).
Proof. intros w w' Hp HR i Hi HX. by apply HR, Hp. Qed.

(** A write that returned is visible, until the object expires. *)
Lemma safe_put_page D i b :
  safe (λ _, True) (put_bytes (page_key D i) b)
    (λ _ w, ¬ X (page_key D i) → is_Some (s3_get (page_key D i) (w_s3 w))).
Proof.
  apply (safe_put_bytes sys_inv sys_rely sys_rely); [apply stable_object|]. intros w fs HI _.
  destruct (put_object_harmless w (page_key D i) b fs (page_no_manifest D i) HI).
  split_and!; [done|done|]. intros _. simpl. rewrite s3_get_put. by eexists.
Qed.

Lemma safe_put_pages D index pages :
  1 <= index →
  safe (pages_stored D index) (put_pages D index pages) (λ _, pages_stored D (index + len pages)).
Proof.
  revert index. induction pages as [|p pages IH]; intros index Hi; cbn [put_pages].
  { intros w _. by rewrite Z.add_0_r. }
  apply safe_then; [apply stable_framed, stable_pages_stored|apply guarantee_reraise|]. intros b.
  eapply safe_bind.
  { eapply (safe_mono _ _ _ (λ w, True ∧ pages_stored D index w)); [by split|by intros a w _ Hq; exact Hq|].
    apply safe_frame; [apply stable_framed, stable_pages_stored|]. apply safe_put_page. }
  intros []. cbv beta. eapply safe_mono; [..|apply IH; lia].
  - intros w _ [Hnew Hold] i Hi' HX. destruct (decide (i = index)) as [->|]; [by apply Hnew|].
    apply Hold; [lia|done].
  - intros [] w _ Hp i Hi'. apply Hp. unfold len in *. simpl in *. lia.
Qed.

Definition manifest_stored D w : Prop :=
  ¬ X (manifest_key D) → is_Some (s3_get (manifest_key D) (w_s3 w)).

(** The manifest and [n] pages. *)
Definition document_there D n w : Prop := pages_stored D (n + 1) w ∧ manifest_stored D w.

Lemma stable_document_there D n : stable (document_there D n).
Proof.
  intros w w' [Hp Hm] HR. split; [by eapply stable_pages_stored|]. exact (stable_object (manifest_key D) w w' Hm HR).
Qed.

Lemma safe_put_manifest D n total_length page_size b :
  encode (dumps (manifest_dict (Manifest D n total_length page_size))) = inr b →
  safe (pages_stored D (n + 1)) (put_bytes (manifest_key D) b) (λ _, document_there D n).
Proof.
  intros Hb. apply (safe_put_bytes sys_inv sys_rely sys_rely); [intros; apply stable_document_there|].
  intros w fs HI HP.
  destruct (put_harmless w (manifest_key D) b fs) as [HI' HG']; [|done|].
  - intros D' b'. destruct (decide (D' = D)) as [->|Hne].
    + rewrite s3_get_put. intros [= <-]. right. exists n, total_length, page_size. split; [done|].
      intros i Hi. apply HP. lia.
    + rewrite s3_get_put_ne by (by intros ?%manifest_key_inj). by left.
  - split_and!; [done|done|]. split.
    + intros i Hi HX. cbn [w_s3 set_s3]. by apply put_keeps, HP.
    + intros _. simpl. rewrite s3_get_put. by eexists.
Qed.

Lemma safe_put_document D pages total_length :
  safe (λ _, True) (put_document cfg D pages total_length) (λ _, document_there D (len pages)).
Proof.
  unfold put_document. eapply safe_bind.
  { eapply safe_mono; [..|apply (safe_put_pages D 1 pages); lia].
    - intros w _ _ i Hi. lia.
    - by intros a w _ Hp. }
  intros []. cbv beta. apply (safe_bind _ _ _ _ _ _ (λ b w, pages_stored D (1 + len pages) w ∧
    encode (dumps (manifest_dict (Manifest D (len pages) total_length (PAGE_SIZE cfg)))) = inr b)).
  { destruct (encode _) as [|b]; [done|]. by intros w _ Hp. }
  intros b. apply (safe_bind _ _ _ _ _ _ (λ _, document_there D (len pages))); [|by intros [] w _ Hm].
  destruct (encode _) as [e|b'] eqn:Hb; [by intros w _ [_ [=]]|].
  apply (safe_mono _ _ _ (λ w, pages_stored D (len pages + 1) w ∧ b' = b)
    _ _ (λ _, document_there D (len pages))); [|done|].
  - intros w _ [Hp [= ->]]. split; [|done]. by rewrite Z.add_comm.
  - destruct (decide (b' = b)) as [->|Hne]; [|by intros w _ [_ ?]].
    eapply safe_mono; [| |by apply (safe_put_manifest D (len pages) total_length (PAGE_SIZE cfg) b)];
      [by intros w _ [? _]|done].
Qed.

(** The row is written when the document is there. *)
Lemma safe_record_document D h tp tc tl ps :
  safe (document_there D tp) (record_document host cfg D h tp tc tl ps)
    (λ _ w, is_Some (db_documents (w_db w) !! D)).
Proof.
  unfold record_document. apply safe_then; [apply stable_framed, stable_document_there|harmless_prog|].
  intros created.
  apply (safe_run_sql host sys_inv sys_rely sys_rely);
    [apply stable_framed, stable_document_there|intros; apply stable_document|].
  intros w [] db fs (Hm & Hr & Hj) [Hp Hman] [= <-]. split_and!; [split_and!| |].
  - exact Hm.
  - intros D' row. cbn. rewrite lookup_insert_Some. intros [[<- <-]|[_ Hrow]]; [|by apply Hr].
    cbn. split; [done|]. intros i Hi HX. apply Hp; [lia|done].
  - intros J j HJ Hst. cbn. rewrite lookup_insert_is_Some'. right. by eapply Hj.
  - split_and!; [done|by eauto|]. intros D'. cbn. rewrite !lookup_insert_is_Some'. by right.
  - cbn. rewrite lookup_insert_eq. by eexists.
Qed.

(** What has to hold when a job is marked [done]. *)
Definition ready_to_finish J D w : Prop := job_has_key J D w ∧ is_Some (db_documents (w_db w) !! D).

Lemma safe_finish_job J D : safe (ready_to_finish J D) (finish_job host J) (λ _ _, True).
Proof.
  assert (framed (ready_to_finish J D)) as Hst.
  { apply framed_and; apply stable_framed; [apply stable_job_has_key|apply stable_document]. }
  unfold finish_job. apply safe_then; [done|harmless_prog|]. intros ts.
  apply (safe_run_sql host sys_inv sys_rely sys_rely); [done|done|].
  intros w [] db fs (Hm & Hr & Hj) ((j & HJ & HD) & Hdoc) [= <-].
  split_and!; [split_and!; [done|done|]| |done].
  - intros J' j'. simpl. rewrite lookup_update_at. case_decide as HJ'; [subst J'|by apply Hj].
    rewrite HJ. intros [= <-] _. simpl. by rewrite HD.
  - split_and!; [done| |done]. intros J' j' HJ'. simpl. rewrite lookup_update_at, HJ'.
    case_decide; [|by eauto]. by eexists.
Qed.

Lemma safe_assemble J r : safe (job_read J r) (assemble host cfg J r) (λ _ _, True).
Proof.
  destruct r as [j|]; [|done]. cbn [assemble job_read]. set (D := j_doc_key j).
  apply safe_then; [apply stable_framed, stable_job_has_key|harmless_prog|]. intros indices.
  apply safe_then; [apply stable_framed, stable_job_has_key|harmless_prog|]. intros parts.
  apply safe_then; [apply stable_framed, stable_job_has_key|unfold paginate_or_spin; harmless_prog|]. intros pages.
  eapply safe_bind.
  { eapply (safe_mono _ _ _ (λ w, True ∧ job_has_key J D w)); [by split|by intros a w _ Hq; exact Hq|].
    apply safe_frame; [apply stable_framed, stable_job_has_key|]. apply safe_put_document. }
  intros m. cbv beta. eapply safe_bind.
  { eapply (safe_mono _ _ _ (λ w, document_there D (len pages) w ∧ job_has_key J D w));
      [by intros w _ [? ?]|by intros a w _ Hq; exact Hq|].
    apply safe_frame; [apply stable_framed, stable_job_has_key|]. apply safe_record_document. }
  intros []. cbv beta. eapply safe_mono; [| |apply (safe_finish_job J D)]; [|done].
  by intros w _ [? ?].
Qed.

(** ** The processes *)
Lemma safe_handle task : safe (λ _, True) (handle host cfg api_key task) (λ _ _, True).
Proof.
  unfold handle. apply safe_then; [done|harmless_prog|]. intros job.
  destruct (negb (active job)); [done|].
  apply safe_then; [done|harmless_prog|]. intros _.
  apply safe_then; [done|harmless_prog|]. intros [e|key].
  { apply safe_harmless; [done|harmless_prog]. }
  apply safe_then; [done|harmless_prog|]. intros remaining.
  destruct (remaining =? 0); [|done]. eapply safe_bind.
  { apply safe_attempt. eapply safe_bind.
    - apply (safe_get_job host sys_inv sys_rely sys_rely). intros D. apply stable_job_has_key.
    - intros r. apply safe_assemble. }
  intros [e|[]]; [|done]. apply (safe_mono _ _ _ (λ _, True) _ _ (λ _ _, True)); [done|done|].
  apply safe_harmless; [done|harmless_prog].
Qed.

#[local] Abbreviation safe_True p := (safe (λ _, True) p (λ _ _, True)).

Lemma safe_main fuel ill_typed :
  (∀ l, safe_True (ill_typed l)) → safe_True (main host cfg api_key liveness_file fuel ill_typed).
Proof.
  intros Hi. apply (main_safe _ _ _ _ _ _ _ _ (λ _, True)); intros; try done.
  - eapply safe_post; [|apply (safe_harmless _ _ _ (λ _, True)); [done|apply (harmless_mq_call harmless)]]. done.
  - harmless_prog.
  - apply (harmless_mq_call harmless).
  - apply (harmless_mq_call harmless).
  - apply (harmless_mq_call harmless).
  - harmless_prog.
  - apply safe_handle.
Qed.

End host.
End system.

#[local] Existing Instances sys_harmless sys_everyday.

(** ** The system *)
Section all.
Context {S B : Type} `{ObjectStoreLaws S} `{BrokerLaws B} `{TempLaws} `{Codecs}.
#[local] Abbreviation world := (world S B).
Implicit Types (w : world).

(** The keys of the objects that the bucket's lifecycle rule removes, at some time
    or other. *)
Context (X : pystr → Prop).

(** What a worker does with an ill-typed message is only assumed to keep the
    invariant. *)
Definition service_process (p : process S B) : Prop :=
  ∀ api_key liveness_file fuel ill_typed, p_does p = Work api_key liveness_file fuel ill_typed →
    ∀ l, safe (sys_inv X) (sys_rely X) (sys_rely X) (λ _, True) (ill_typed l) (λ _ _, True).

(** Clocks, files, messages, signals and the faults to come change at will; the
    tables are only changed by the processes; objects of [X] may disappear. *)
Definition outside w w' : Prop :=
  w_db w' = w_db w ∧ (∀ k, ¬ X k → s3_get k (w_s3 w') = s3_get k (w_s3 w)) ∧
  (∀ k b, s3_get k (w_s3 w') = Some b → s3_get k (w_s3 w) = Some b).

(** Any processes may run at the same time. *)
Definition system_step :=
  sys_step (λ _ _ : process S B, True) (λ p q, service_process p ∧ q = program p) outside.

Lemma program_safe p :
  service_process p → safe (sys_inv X) (sys_rely X) (sys_rely X) (λ _, True) (program p) (λ _ _, True).
Proof.
  intros Hp. destruct p as [host cfg [api_key liveness_file fuel ill_typed| | |key e]]; cbn [program p_host p_cfg p_does].
  - eapply safe_bind; [|by intros ? w]. eapply safe_main. by eapply Hp.
  - apply safe_harmless; [done|]. unfold lifespan. harmless_prog.
  - apply safe_harmless; [done|]. harmless_prog.
  - apply safe_harmless; [done|]. apply guarantee_bind; [|done]. unfold guarded.
    destruct (verify_api_key cfg key); [done|]. harmless_prog.
Qed.

(** Objects of [X] that disappear are not missed. *)
Lemma outside_ok w w' : outside w w' → sys_inv X w → sys_inv X w' ∧ sys_rely X w w'.
Proof.
  intros (Hd & Hkeep & Hsub) (Hm & Hr & Hj). split; [split_and!|split_and!].
  - intros D b Hb. destruct (Hm D b (Hsub _ _ Hb)) as (n & tl & ps & He & Hp). exists n, tl, ps.
    split; [done|]. intros i Hi HX. rewrite Hkeep by done. by apply Hp.
  - intros D row. rewrite Hd. intros Hrow. destruct (Hr D row Hrow) as [Hman Hp]. split.
    + intros HX. rewrite Hkeep by done. by apply Hman.
    + intros i Hi HX. rewrite Hkeep by done. by apply Hp.
  - unfold done_jobs_stored. by rewrite Hd.
  - intros k HX. by rewrite Hkeep.
  - rewrite Hd. eauto.
  - by rewrite Hd.
Qed.

(** The invariant holds in every reachable state. *)
Lemma system_step_inv w0 s : sys_inv X w0 → rtc system_step (w0, []) s → sys_inv X s.1.
Proof.
  intros H0'. eapply (system_invariant (sys_inv X) (λ _, sys_rely X) (λ _, sys_rely X) (λ _ _ _, True)).
  - intros p q [Hp ->]. by apply program_safe.
  - done.
  - intros w1 w2 Ho HI. by destruct (outside_ok w1 w2 Ho HI).
  - done.
Qed.

(** C4: A finished job had its whole document, and what did not expire is there.
    Let [X] be the keys of the objects that expire at some time or other.  Let any
    number of workers and API processes run, with any settings, in any interleaving
    of their actions, any calls failing before or after they took effect, any process
    dying anywhere, messages lost, duplicated or redelivered, and objects of [X]
    expiring at any time.  Start without finished jobs, document rows and
    manifests, or with complete ones.  Then, whenever a job's row says [done]:
    the documents table has its document; its manifest, unless it expired, and the
    pages that the row counts, unless they expired, are in the bucket; and a manifest
    that is in the bucket is one that [put_document] wrote, and the pages it
    announces, unless they expired, are in the bucket. *)
Theorem done_jobs_have_documents w0 w ps J j :
  (∀ J j, db_jobs (w_db w0) !! J = Some j → j_status j ≠ JDone) →
  (∀ D, manifest_complete X D (w_s3 w0)) → (∀ D, row_complete X D w0) →
  rtc system_step (w0, []) (w, ps) →
  db_jobs (w_db w) !! J = Some j → j_status j = JDone →
  let D := j_doc_key j in
  (∃ row, db_documents (w_db w) !! D = Some row ∧
     (¬ X (manifest_key D) → is_Some (s3_get (manifest_key D) (w_s3 w))) ∧
     ∀ i, 1 <= i <= d_total_pages row → ¬ X (page_key D i) → is_Some (s3_get (page_key D i) (w_s3 w))) ∧
  (∀ b, s3_get (manifest_key D) (w_s3 w) = Some b →
     ∃ n total_length page_size,
       encode (dumps (manifest_dict (Manifest D n total_length page_size))) = inr b ∧
       ∀ i, 1 <= i <= n → ¬ X (page_key D i) → is_Some (s3_get (page_key D i) (w_s3 w))).
Proof.
  intros Hjobs Hman Hrows Hsteps HJ Hst. destruct (system_step_inv w0 (w, ps)) as (Hm & Hr & Hj); [|done|].
  { split_and!; [done|done|]. intros J' j' HJ' Hst'. by destruct (Hjobs J' j' HJ'). }
  destruct (Hj J j HJ Hst) as [row Hrow]. cbn [fst] in *. split; [|by apply Hm].
  exists row. split; [done|]. by apply Hr.
Qed.
End all.

(** ** Witness: one request, one worker, from an empty deployment *)
Definition demo_request : process map_store map_broker :=
  Process (u "api") e2e_config (Serve (Some (u "secret"))
    (AsyncConvert (u "j1") (Some (Build_ConvertRequest (Some e2e_url) (Some false))))).

Definition demo_worker : process map_store map_broker :=
  Process (u "w1") e2e_config (Work None (u "/tmp/alive") 3 (λ _, mret tt)).

Definition demo_after : world map_store map_broker :=
  (run (program demo_worker) (run (program demo_request) (e2e_world empty_db ∅)).2).2.

Definition demo_job : job :=
  Job e2e_key (sha256_hex e2e_body) e2e_url JDone 2 0 0 None None 9 9.

(** The request, and then the worker. *)
Lemma demo_steps apart may_start env :
  may_start demo_request (program demo_request) → may_start demo_worker (program demo_worker) →
  apart demo_request demo_worker → apart demo_worker demo_request →
  ∃ p1 p2, rtc (sys_step apart may_start env) (e2e_world empty_db ∅, [])
    (demo_after, [(demo_worker, p2); (demo_request, p1)]).
Proof.
  intros Hr Hw Ha Ha'.
  destruct (run_steps apart may_start env demo_request (program demo_request) []
    (e2e_world empty_db ∅)) as (p1 & H1 & _); [exact Hr|constructor|].
  destruct (run_steps apart may_start env demo_worker (program demo_worker) [(demo_request, p1)]
    (run (program demo_request) (e2e_world empty_db ∅)).2) as (p2 & H2 & _); [exact Hw|by constructor|].
  exists p1, p2. etransitivity; [exact H1|exact H2].
Qed.

(** Only pages of the document [e2e_key] expire. *)
Definition demo_expiring (k : pystr) : Prop := ∃ i, k = page_key e2e_key i.

Lemma done_jobs_have_documents_witness :
  is_Some (db_documents (w_db demo_after) !! e2e_key) ∧
  is_Some (s3_get (manifest_key e2e_key) (w_s3 demo_after)).
Proof.
  destruct (demo_steps (λ _ _, True) (λ p q, service_process demo_expiring p ∧ q = program p)
    (outside demo_expiring)) as (p1 & p2 & Hsteps).
  { by split. }
  { split; [|done]. intros ? ? ? ? [= _ _ _ <-] l w _ _. exact I. }
  { done. }
  { done. }
  destruct (done_jobs_have_documents demo_expiring (e2e_world empty_db ∅) demo_after
    [(demo_worker, p2); (demo_request, p1)] (u "j1") demo_job)
    as [(row & Hrow & Hman & _) _].
  - intros J j. cbn. rewrite lookup_empty. discriminate.
  - intros D b. cbn. rewrite lookup_empty. discriminate.
  - intros D row. cbn. rewrite lookup_empty. discriminate.
  - exact Hsteps.
  - vm_compute. reflexivity.
  - reflexivity.
  - split; [by exists row|]. apply Hman. intros [i Hi]. by apply manifest_page_ne in Hi.
Defined.
