(* ===== verification/Machine.v ===== *)
(** * The tables as a state machine

    Whatever the processes do, the tables only change by the statements of
    jobstore.py.  So the deployment refines the abstract ledger of Ledger.v, and
    what the statements do to a row, and what they never undo, is true of the
    deployment: rows keep their identity, a job's status moves forward, and every
    row is well formed. *)
From S2P Require Import Prelude PyStr Effects Rely Quiet Walk Utf8 Json Database Config World Db.
From S2P Require Import Jobstore Counter Ledger Files Chunker Storage Taskqueue Converter Pagination Worker.
From S2P Require Import Api Deployment Service System.

(** ** Statements *)
Inductive statement : database → database → Prop :=
| st_create ts J D h url ranges use_llm db db' :
    create_job_sql ts J D h url ranges use_llm db = inr (tt, db') → statement db db'
| st_start_chunk ts J i owner attempt db : statement db (start_chunk_sql ts J i owner attempt db)
| st_start_job ts J db : statement db (start_job_sql ts J db)
| st_fail_chunk ts J i e db : statement db (fail_chunk_sql ts J i e db)
| st_reschedule ts J i e db : statement db (reschedule_chunk_sql ts J i e db)
| st_complete ts J i key db : statement db (complete_chunk_sql ts J i key db).2
| st_fail_job ts J e i db : statement db (fail_job_sql ts J e i db)
| st_finish ts J db : statement db (finish_job_sql ts J db)
| st_record cfg ts D h tp tc tl ps db : statement db (record_document_sql cfg ts D h tp tc tl ps db).


(** ** Rows *)

(** What a statement does to a job ... *)
Inductive job_moves (j : job) : job → Prop :=
| jm_stay : job_moves j j
| jm_start ts : j_status j = JQueued → job_moves j
    (Job (j_doc_key j) (j_file_hash j) (j_url j) JRunning (j_total_chunks j) (j_remaining_chunks j)
       (j_use_llm j) (j_error j) (j_error_chunk j) (j_created_at j) ts)
| jm_count ts : terminal (j_status j) = false → job_moves j (decremented ts j)
| jm_fail ts e i : terminal (j_status j) = false → job_moves j
    (Job (j_doc_key j) (j_file_hash j) (j_url j) JFailed (j_total_chunks j) (j_remaining_chunks j)
       (j_use_llm j) (Some (slice_to e 2000)) i (j_created_at j) ts)
| jm_finish ts : job_moves j
    (Job (j_doc_key j) (j_file_hash j) (j_url j) JDone (j_total_chunks j) (j_remaining_chunks j)
       (j_use_llm j) (j_error j) (j_error_chunk j) (j_created_at j) ts).

(** ... and to a chunk. *)
Inductive chunk_moves (c : chunk) : chunk → Prop :=
| cm_stay : chunk_moves c c
| cm_start ts owner attempt : c_status c ≠ CDone → chunk_moves c
    (Chunk (c_id c) (c_start_page c) (c_end_page c) CRunning attempt (c_available_at c) (Some owner)
       (c_lease_expires_at c) (c_s3_key c) (c_last_error c) ts)
| cm_done ts key : c_status c ≠ CDone → chunk_moves c (done_row ts key c)
| cm_fail ts e : chunk_moves c
    (Chunk (c_id c) (c_start_page c) (c_end_page c) CFailed (c_attempts c) (c_available_at c) None
       (c_lease_expires_at c) (c_s3_key c) (Some (slice_to e 2000)) ts)
| cm_reschedule ts e : c_status c ≠ CDone → chunk_moves c
    (Chunk (c_id c) (c_start_page c) (c_end_page c) CPending (c_attempts c) (c_available_at c) None
       (c_lease_expires_at c) (c_s3_key c) (Some (slice_to e 2000)) ts).

(** Rows that correspond one to one. *)
Definition rows_move {K Row} `{Countable K} (R : Row → Row → Prop) (m m' : gmap K Row) : Prop :=
  ∀ k, option_Forall2 R (m !! k) (m' !! k).

Lemma rows_move_refl {K Row} `{Countable K} (R : Row → Row → Prop) (m : gmap K Row) :
  (∀ r, R r r) → rows_move R m m.
Proof. intros HR k. destruct (m !! k); by constructor. Qed.

Lemma rows_move_update {K Row} `{Countable K} (R : Row → Row → Prop) (m : gmap K Row) k q f :
  (∀ r, R r r) → (∀ r, q r = true → R r (f r)) → rows_move R m (sql_update (at_key k q) f m).
Proof.
  intros Hrefl Hf k'. rewrite lookup_update_at. case_decide; [|by apply rows_move_refl].
  destruct (m !! k') as [r|]; [|by constructor]. constructor. destruct (q r) eqn:Hq; [by apply Hf|done].
Qed.

Lemma rows_move_insert {K Row} `{Countable K} (R : Row → Row → Prop) (m : gmap K Row) k r r' :
  (∀ r, R r r) → m !! k = Some r → R r r' → rows_move R m (<[k := r']> m).
Proof.
  intros Hrefl Hk Hr k'. destruct (decide (k' = k)) as [->|Hne].
  - rewrite Hk, lookup_insert_eq. by constructor.
  - rewrite lookup_insert_ne by done. by apply rows_move_refl.
Qed.

Lemma rows_move_Some {K Row} `{Countable K} (R : Row → Row → Prop) (m m' : gmap K Row) k r' :
  rows_move R m m' → m' !! k = Some r' → ∃ r, m !! k = Some r ∧ R r r'.
Proof. intros Hm Hk. specialize (Hm k). rewrite Hk in Hm. inversion Hm as [r ? Hr|]; subst. by exists r. Qed.

Lemma rows_move_Some_1 {K Row} `{Countable K} (R : Row → Row → Prop) (m m' : gmap K Row) k r :
  rows_move R m m' → m !! k = Some r → ∃ r', m' !! k = Some r' ∧ R r r'.
Proof. intros Hm Hk. specialize (Hm k). rewrite Hk in Hm. inversion Hm as [? r' Hr|]; subst. by exists r'. Qed.

(** A statement moves rows, or it creates a job with its chunks. *)
Record moves (db db' : database) : Prop := {
  mv_jobs : rows_move job_moves (db_jobs db) (db_jobs db');
  mv_chunks : rows_move chunk_moves (db_chunks db) (db_chunks db');
  mv_seq : db_seq db' = db_seq db;
  mv_documents : ∀ D, is_Some (db_documents db !! D) → is_Some (db_documents db' !! D);
}.

Lemma not_done_status c : negb (chunk_done (c_status c)) = true → c_status c ≠ CDone.
Proof. by destruct (c_status c). Qed.
#[local] Hint Constructors job_moves chunk_moves : core.
#[local] Hint Resolve not_done_status : core.

Lemma moves_refl db : moves db db.
Proof. split; [by apply rows_move_refl..|done|done]. Qed.

Lemma moves_chunks db k q f :
  (∀ c, q c = true → chunk_moves c (f c)) → moves db (set_chunks (sql_update (at_key k q) f) db).
Proof. intros Hf. split; [by apply rows_move_refl|by apply rows_move_update|done|done]. Qed.

Lemma moves_jobs db J q f :
  (∀ j, q j = true → job_moves j (f j)) → moves db (set_jobs (sql_update (at_key J q) f) db).
Proof. intros Hf. split; [by apply rows_move_update|by apply rows_move_refl|done|done]. Qed.

Lemma statement_moves db db' :
  statement db db' → moves db db' ∨
  ∃ ts J D h url ranges use_llm, create_job_sql ts J D h url ranges use_llm db = inr (tt, db').
Proof.
  intros [ts J D h url ranges l db1 db2 Hc|ts J i owner att db1|ts J db1|ts J i e db1|ts J i e db1
         |ts J i key db1|ts J e i db1|ts J db1|cfg ts D h tp tc tl ps db1]; [right; by eauto 10|left..].
  - apply moves_chunks; auto.
  - apply moves_jobs. intros j Hq%bool_decide_eq_true. auto.
  - apply moves_chunks; auto.
  - apply moves_chunks; auto.
  - destruct (complete_chunk_cases ts J i key db1)
      as [[-> _]|[(c & Hc & Hnd & _ & ->)|(c & j & Hc & Hnd & Hj & Ht & ->)]]; [apply moves_refl|split..];
      try done; first [by apply rows_move_refl|by eapply rows_move_insert; eauto].
  - apply moves_jobs. intros j Hq%negb_true_iff. auto.
  - apply moves_jobs. auto.
  - split; [by apply rows_move_refl..|done|]. intros D'. simpl. rewrite lookup_insert_is_Some'. auto.
Qed.

(** ** What statements never undo *)

(** A job's status only moves forward in this order. *)
Definition rank (s : job_status) : Z :=
  match s with JQueued => 0 | JRunning | JAssembling => 1 | JFailed => 2 | JDone => 3 end.

Definition job_later (j j' : job) : Prop :=
  (j_doc_key j' = j_doc_key j ∧ j_file_hash j' = j_file_hash j ∧ j_url j' = j_url j ∧
   j_total_chunks j' = j_total_chunks j ∧ j_use_llm j' = j_use_llm j ∧ j_created_at j' = j_created_at j) ∧
  rank (j_status j) <= rank (j_status j') ∧ j_remaining_chunks j' <= j_remaining_chunks j.

Definition chunk_later (c c' : chunk) : Prop :=
  c_id c' = c_id c ∧ c_start_page c' = c_start_page c ∧ c_end_page c' = c_end_page c.

Record later (db db' : database) : Prop := {
  lt_jobs : ∀ J j, db_jobs db !! J = Some j → ∃ j', db_jobs db' !! J = Some j' ∧ job_later j j';
  lt_chunks : ∀ k c, db_chunks db !! k = Some c → ∃ c', db_chunks db' !! k = Some c' ∧ chunk_later c c';
  lt_documents : ∀ D, is_Some (db_documents db !! D) → is_Some (db_documents db' !! D);
}.

Lemma job_moves_later j j' : job_moves j j' → job_later j j'.
Proof.
  intros [|ts Hst|ts Ht|ts e i Ht|ts]; unfold job_later; simpl; (split_and!; try done; try lia);
    by destruct (j_status j).
Qed.

Lemma chunk_moves_later c c' : chunk_moves c c' → chunk_later c c'.
Proof. by intros []. Qed.

#[export] Instance later_preorder : PreOrder later.
Proof.
  split.
  - intros db. split; [intros J j Hj; exists j|intros k c Hc; exists c|done]; (split; [done|]).
    + unfold job_later. split_and!; done || lia.
    + done.
  - intros db1 db2 db3 [Hj1 Hc1 Hd1] [Hj2 Hc2 Hd2]. split; [| |auto].
    + intros J j HJ. destruct (Hj1 J j HJ) as (j2 & HJ2 & (? & ? & ? & ? & ? & ?) & ? & ?).
      destruct (Hj2 J j2 HJ2) as (j3 & HJ3 & (? & ? & ? & ? & ? & ?) & ? & ?). exists j3. split; [done|].
      unfold job_later. split_and!; congruence || lia.
    + intros k c Hc. destruct (Hc1 k c Hc) as (c2 & Hc2' & ? & ? & ?).
      destruct (Hc2 k c2 Hc2') as (c3 & Hc3 & ? & ? & ?). exists c3. split; [done|].
      unfold chunk_later. split_and!; congruence.
Qed.

(** The rows that were there before a job was created. *)
Lemma created_rows ts J D h url ranges use_llm db db' :
  create_job_sql ts J D h url ranges use_llm db = inr (tt, db') →
  (∀ i, db_chunks db !! (J, i) = None) →
  db_jobs db !! J = None ∧ db_documents db' = db_documents db ∧ db_seq db' = db_seq db + len ranges ∧
  db_jobs db' = <[J := Job D h url JQueued (len ranges) (len ranges) (if use_llm then 1 else 0) None None ts ts]>
    (db_jobs db) ∧
  (∀ J' i, J' ≠ J → db_chunks db' !! (J', i) = db_chunks db !! (J', i)) ∧
  (∀ i, db_chunks db' !! (J, i) = if decide (0 <= i < len ranges) then
     (λ r, Chunk (db_seq db + 1 + i) r.1 r.2 CPending 0 ts None None None None ts) <$> ranges !! Z.to_nat i
   else None).
Proof.
  unfold create_job_sql, sql_insert. destruct (db_jobs db !! J) eqn:HJ; [done|]. simpl.
  destruct (insert_chunks _ _ _ _ _) as [|db1] eqn:Hins; [done|]. intros [= <-] Hnone.
  assert (∀ index rs d d', insert_chunks ts J index rs d = inr d' → db_seq d' = db_seq d + len rs) as Hseq.
  { clear. intros index rs. revert index. induction rs as [|[s e] rs IH]; intros index d d'; simpl.
    - intros [= <-]. rewrite len_nil. lia.
    - unfold sql_insert. destruct (db_chunks d !! (J, index)); [done|]. simpl. intros Hd%IH.
      rewrite len_cons. simpl in Hd. lia. }
  apply Hseq in Hins as Hs. apply insert_chunks_spec in Hins as (Hjs & Hds & Hoth & _ & Hrows & _). simpl in *.
  split_and!; try done. intros i. rewrite Hrows, Hnone, Z.add_0_l, Z.sub_0_r. done.
Qed.

Lemma statement_later db db' :
  (∀ J i, is_Some (db_chunks db !! (J, i)) → is_Some (db_jobs db !! J)) → statement db db' → later db db'.
Proof.
  intros Hfk [[Hj Hc _ Hd]|(ts & J & D & h & url & ranges & l & Hc)]%statement_moves.
  - split; [| |done].
    + intros J j HJ. destruct (rows_move_Some_1 _ _ _ _ _ Hj HJ) as (j' & HJ' & Hm).
      exists j'. split; [done|by apply job_moves_later].
    + intros k c Hk. destruct (rows_move_Some_1 _ _ _ _ _ Hc Hk) as (c' & Hk' & Hm).
      exists c'. split; [done|by apply chunk_moves_later].
  - assert (db_jobs db !! J = None) as HJ.
    { revert Hc. unfold create_job_sql, sql_insert. by destruct (db_jobs db !! J). }
    assert (∀ i, db_chunks db !! (J, i) = None) as Hnone.
    { intros i. apply eq_None_not_Some. intros Hs%Hfk. rewrite HJ in Hs. by destruct Hs. }
    destruct (created_rows _ _ _ _ _ _ _ _ _ Hc Hnone) as (_ & Hd & _ & Hjs & Hoth & Hrows).
    split; [| |by rewrite Hd].
    + intros J' j HJ'. exists j. rewrite Hjs, lookup_insert_ne by congruence.
      split; [done|apply job_moves_later, jm_stay].
    + intros [J' i] c Hk. exists c. destruct (decide (J' = J)) as [->|Hne]; [by rewrite Hnone in Hk|].
      rewrite Hoth by done. split; [done|apply chunk_moves_later, cm_stay].
Qed.

(** ** Well-formed rows *)
Definition job_typed (j : job) : Prop :=
  j_status j ≠ JAssembling ∧ (j_use_llm j = 0 ∨ j_use_llm j = 1) ∧ j_remaining_chunks j <= j_total_chunks j ∧
  (j_status j = JQueued → j_remaining_chunks j = j_total_chunks j) ∧
  (terminal (j_status j) = false → j_error j = None ∧ j_error_chunk j = None) ∧
  (j_status j = JFailed → is_Some (j_error j)) ∧
  (∀ e, j_error j = Some e → len e <= 2000).

Definition chunk_typed (c : chunk) : Prop :=
  (is_Some (c_lease_owner c) ↔ c_status c = CRunning) ∧ c_lease_expires_at c = None ∧
  (c_status c = CDone → is_Some (c_s3_key c) ∧ c_last_error c = None) ∧
  (∀ e, c_last_error c = Some e → len e <= 2000).

Record tables_typed (db : database) : Prop := {
  tt_jobs : ∀ J j, db_jobs db !! J = Some j → job_typed j;
  tt_chunks : ∀ k c, db_chunks db !! k = Some c → chunk_typed c;
  (** every job has the chunks 0 .. total_chunks - 1, and every chunk has a job *)
  tt_rows : ∀ J j i, db_jobs db !! J = Some j → is_Some (db_chunks db !! (J, i)) ↔ 0 <= i < j_total_chunks j;
  tt_foreign : ∀ J i, is_Some (db_chunks db !! (J, i)) → is_Some (db_jobs db !! J);
  (** row ids are unique *)
  tt_range : ∀ k c, db_chunks db !! k = Some c → c_id c <= db_seq db;
  tt_ids : ∀ k k' c c', db_chunks db !! k = Some c → db_chunks db !! k' = Some c' → c_id c = c_id c' → k = k';
}.

Lemma job_moves_typed j j' : job_moves j j' → job_typed j → job_typed j'.
Proof.
  intros Hm (Hs & Hl & Hr & Hq & He & Hf & Hlen). destruct Hm as [|ts Hst|ts Ht|ts e i Ht|ts];
    unfold job_typed; simpl; split_and!; try done; try lia; auto.
  - intros _. apply He. by rewrite Hst.
  - intros e' [= <-]. by apply len_slice_to_le.
Qed.

Lemma chunk_moves_typed c c' : chunk_moves c c' → chunk_typed c → chunk_typed c'.
Proof.
  intros Hm (Ho & Hx & Hd & Hlen). destruct Hm; unfold chunk_typed, done_row; simpl; split_and!; try done;
    solve [by eexists|by split; [intros []|]|by intros e' [= <-]; apply len_slice_to_le].
Qed.

Lemma moves_typed db db' : moves db db' → tables_typed db → tables_typed db'.
Proof.
  intros [Hj Hc Hs _] [Tj Tc Tr Tf Tg Ti].
  assert (∀ k c', db_chunks db' !! k = Some c' → ∃ c, db_chunks db !! k = Some c ∧ chunk_moves c c') as Hback
    by (intros k c'; by apply rows_move_Some).
  assert (∀ k, is_Some (db_chunks db' !! k) ↔ is_Some (db_chunks db !! k)) as Hdom.
  { intros k. split; intros [c Hk].
    - destruct (Hback k c Hk) as (c0 & -> & _). by eexists.
    - destruct (rows_move_Some_1 _ _ _ _ _ Hc Hk) as (c' & -> & _). by eexists. }
  split.
  - intros J j' (j & HJ & Hm)%(rows_move_Some _ _ _ _ _ Hj). by eapply job_moves_typed, Tj.
  - intros k c' (c & Hk & Hm)%Hback. by eapply chunk_moves_typed, Tc.
  - intros J j' i (j & HJ & Hm)%(rows_move_Some _ _ _ _ _ Hj).
    rewrite Hdom, (Tr J j i HJ). destruct (job_moves_later _ _ Hm) as [(_ & _ & _ & -> & _) _]. done.
  - intros J i. rewrite Hdom. intros [j HJ]%Tf.
    destruct (rows_move_Some_1 _ _ _ _ _ Hj HJ) as (j' & -> & _). by eexists.
  - intros k c' (c & Hk & Hm)%Hback. rewrite Hs. destruct (chunk_moves_later _ _ Hm) as [-> _]. by eapply Tg.
  - intros k k' c1 c2 (c1' & Hk & Hm)%Hback (c2' & Hk' & Hm')%Hback.
    destruct (chunk_moves_later _ _ Hm) as [-> _], (chunk_moves_later _ _ Hm') as [-> _]. by eapply Ti.
Qed.

Lemma created_typed ts J D h url ranges use_llm db db' :
  create_job_sql ts J D h url ranges use_llm db = inr (tt, db') → tables_typed db → tables_typed db'.
Proof.
  intros Hc [Tj Tc Tr Tf Tg Ti].
  assert (∀ i, db_chunks db !! (J, i) = None) as Hnone.
  { intros i. apply eq_None_not_Some. intros Hs%Tf. revert Hc. unfold create_job_sql, sql_insert.
    by destruct Hs as [? ->]. }
  destruct (created_rows _ _ _ _ _ _ _ _ _ Hc Hnone) as (HJ & _ & Hseq & Hjs & Hoth & Hrows).
  pose proof (len_nonneg ranges) as Hpos.
  (* a chunk is an old one, or one of the new rows *)
  assert (∀ k c, db_chunks db' !! k = Some c → (k.1 ≠ J ∧ db_chunks db !! k = Some c) ∨
    ∃ i r, k = (J, i) ∧ 0 <= i < len ranges ∧
      c = Chunk (db_seq db + 1 + i) r.1 r.2 CPending 0 ts None None None None ts) as Hk.
  { intros [J' i] c Hk. destruct (decide (J' = J)) as [->|Hne]; [|left; by rewrite <-Hoth].
    rewrite Hrows in Hk. destruct (decide _); [|done]. apply fmap_Some in Hk as (r & _ & ->).
    right. by exists i, r. }
  split.
  - intros J' j'. rewrite Hjs, lookup_insert_Some. intros [[<- <-]|[_ HJ']]; [|by eapply Tj].
    unfold job_typed. simpl. split_and!; try done; by destruct use_llm; auto.
  - intros k c [[_ Hold]|(i & r & -> & _ & ->)]%Hk; [by eapply Tc|].
    unfold chunk_typed. simpl. split_and!; done.
  - intros J' j' i. rewrite Hjs, lookup_insert_Some. intros [[<- <-]|[Hne HJ']]; simpl.
    + rewrite Hrows. destruct (decide (0 <= i < len ranges)); [|by split; [intros []|]].
      rewrite fmap_is_Some, lookup_lt_is_Some. unfold len in *. split; [done|lia].
    + rewrite Hoth by done. by apply Tr.
  - intros J' i Hs. rewrite Hjs. destruct (decide (J' = J)) as [->|Hne]; [rewrite lookup_insert_eq; by eexists|].
    rewrite lookup_insert_ne by done. rewrite Hoth in Hs by done. by eapply Tf.
  - intros k c [[_ Hold]|(i & r & -> & Hi & ->)]%Hk; [apply Tg in Hold|simpl]; lia.
  - intros k k' c c' [[_ H1]|(i & r & -> & Hi & ->)]%Hk [[_ H2]|(i' & r' & -> & Hi' & ->)]%Hk Heq.
    + by eapply Ti.
    + apply Tg in H1. simpl in Heq. lia.
    + apply Tg in H2. simpl in Heq. lia.
    + simpl in Heq. f_equal. lia.
Qed.

Lemma statement_typed db db' : statement db db' → tables_typed db → tables_typed db'.
Proof.
  intros [Hm|(ts & J & D & h & url & ranges & l & Hc)]%statement_moves; [by apply moves_typed|].
  by eapply created_typed.
Qed.

Lemma statements_later db db' : rtc statement db db' → tables_typed db → later db db' ∧ tables_typed db'.
Proof.
  induction 1 as [|db1 db2 db3 Hs _ IH]; intros Ht; [done|].
  destruct (IH (statement_typed _ _ Hs Ht)) as [Hl Ht']. split; [|done].
  etransitivity; [|exact Hl]. apply statement_later; [by apply Ht|done].
Qed.

(** ** The processes *)
Section machine.
Context {S B : Type} `{ObjectStore S} `{Broker B} `{Externals} `{Codecs}.
#[local] Abbreviation world := (world S B).
Implicit Types (w : world).

Definition by_statements w w' : Prop := rtc statement (w_db w) (w_db w').

Lemma by_statements_same w w' : w_db w' = w_db w → by_statements w w'.
Proof. intros Hd. unfold by_statements. by rewrite Hd. Qed.

#[local] Program Instance statements_harmless : Harmless by_statements := {| quiet := rtc statement |}.
Next Obligation. intros. by apply by_statements_same. Qed.
Next Obligation. done. Qed.
Next Obligation. intros. by apply by_statements_same. Qed.
Next Obligation. done. Qed.
Next Obligation. intros. apply rtc_once, st_start_chunk. Qed.
Next Obligation. intros. apply rtc_once, st_start_job. Qed.
Next Obligation. intros. apply rtc_once, st_fail_chunk. Qed.
Next Obligation. intros. apply rtc_once, st_reschedule. Qed.
Next Obligation. intros. apply rtc_once, st_complete. Qed.
Next Obligation. intros. apply rtc_once, st_fail_job. Qed.

#[local] Instance statements_everyday : Everyday by_statements.
Proof.
  split; intros; [by apply by_statements_same..|]. by eapply rtc_once, st_create.
Qed.

Section host.
Context (host : pystr) (cfg : config) (api_key : option pystr) (liveness_file : pystr).
#[local] Abbreviation walks p := (guarantee by_statements p).

Lemma walk_put_bytes k b : walks (put_bytes k b).
Proof. apply guarantee_s3_call; intros; by apply by_statements_same. Qed.
#[local] Hint Resolve walk_put_bytes : harmless.

Lemma walk_put_pages D index pages : walks (put_pages D index pages).
Proof. revert index. induction pages as [|p pages IH]; intros index; cbn [put_pages]; harmless_prog. Qed.
#[local] Hint Resolve walk_put_pages : harmless.

Lemma walk_record D h tp tc tl ps : walks (record_document host cfg D h tp tc tl ps).
Proof.
  unfold record_document. harmless_prog. apply (harmless_execute host by_statements). intros db.
  apply rtc_once, st_record.
Qed.
Lemma walk_finish J : walks (finish_job host J).
Proof.
  unfold finish_job. harmless_prog. apply (harmless_execute host by_statements). intros db.
  apply rtc_once, st_finish.
Qed.
#[local] Hint Resolve walk_record walk_finish : harmless.

Lemma walk_handle task : walks (handle host cfg api_key task).
Proof. unfold handle, assemble, put_document. harmless_prog. Qed.
#[local] Hint Resolve walk_handle : harmless.

Section loops.
Context (ill_typed : list (pystr * json) → prog world unit) (Hill : ∀ l, walks (ill_typed l)).
#[local] Abbreviation callback := (on_task host cfg api_key liveness_file).

Lemma walk_consume_step : walks (consume_step host cfg callback ill_typed).
Proof. unfold consume_step, basic_ack, basic_publish, on_task. harmless_prog; apply Hill. Qed.

Lemma walk_consume_loop fuel : walks (consume_loop host cfg fuel callback ill_typed).
Proof.
  induction fuel as [|fuel IH]; cbn [consume_loop]; [done|].
  apply guarantee_bind; [apply walk_consume_step|]. by intros [|].
Qed.

Lemma walk_run_forever fuel : walks (run_forever host cfg api_key liveness_file fuel ill_typed).
Proof.
  induction fuel as [|fuel IH]; cbn [run_forever]; [done|]. unfold consume, channel.
  harmless_prog; try apply walk_consume_loop; exact IH.
Qed.
End loops.
End host.

(** The processes of the deployment; what a worker does with an ill-typed message
    is only assumed to change the tables by statements. *)
Definition machine_process (p : process S B) (q : prog world (option reply)) : Prop :=
  q = program p ∧
  ∀ api_key liveness_file fuel ill_typed, p_does p = Work api_key liveness_file fuel ill_typed →
    ∀ l, guarantee by_statements (ill_typed l).

Lemma walk_program p q : machine_process p q → guarantee by_statements q.
Proof.
  intros [-> Hill]. destruct p as [host cfg [api_key liveness_file fuel ill_typed| | |key e]];
    cbn [program p_host p_cfg p_does].
  - unfold main. harmless_prog. apply walk_run_forever. by eapply Hill.
  - unfold lifespan. harmless_prog.
  - harmless_prog.
  - unfold guarded. harmless_prog.
Qed.

(** Everything but the tables may change from outside. *)
Definition machine_step :=
  sys_step (λ _ _ : process S B, True) machine_process (λ w w', w_db w' = w_db w).

Lemma machine_step_statements s s' :
  machine_step s s' → Forall (λ q, guarantee by_statements q.2) s.2 →
  by_statements s.1 s'.1 ∧ Forall (λ q, guarantee by_statements q.2) s'.2.
Proof.
  intros [w ps t p Hp _|w w' ps1 t p p' ps2 Hstep|w ps1 p ps2|w w' ps He] Hps; simpl in *.
  - split; [by apply by_statements_same|]. constructor; [by eapply walk_program|done].
  - apply Forall_app in Hps as [H1' [Hp H2']%Forall_cons].
    destruct (guarantee_pstep _ _ _ _ _ Hp Hstep) as [Hw Hp']. split; [done|].
    apply Forall_app. split; [done|]. by constructor.
  - apply Forall_app in Hps as [H1' [Hp H2']%Forall_cons].
    split; [by apply by_statements_same|by apply Forall_app].
  - split; [by apply by_statements_same|done].
Qed.

Lemma machine_statements s s' :
  rtc machine_step s s' → Forall (λ q, guarantee by_statements q.2) s.2 →
  by_statements s.1 s'.1 ∧ Forall (λ q, guarantee by_statements q.2) s'.2.
Proof.
  induction 1 as [s|s1 s2 s3 Hstep _ IH]; intros Hps; [by split; [apply by_statements_same|]|].
  destruct (machine_step_statements _ _ Hstep Hps) as [H12 Hps2]. destruct (IH Hps2) as [H23 Hps3].
  split; [|done]. unfold by_statements in *. by etransitivity.
Qed.



Lemma machine_typed w0 s :
  tables_typed (w_db w0) → rtc machine_step (w0, []) s →
  tables_typed (w_db s.1) ∧ Forall (λ q, guarantee by_statements q.2) s.2.
Proof.
  intros H0' Hs. destruct (machine_statements _ _ Hs) as [Hst Hps]; [constructor|].
  split; [|done]. by eapply statements_later.
Qed.

(** C7: Every row is well formed.  In every reachable state of a deployment that
    starts with well-formed (for instance empty) tables: a job has exactly the
    chunks 0 .. total_chunks - 1 and a chunk has a job, row ids are unique, a chunk
    has an owner exactly while it runs, a recorded chunk names its object, no lease
    is ever set, no job is ever [assembling], an error text is kept for a failed job
    and has at most 2000 characters, an active job has none, and a queued job has
    all its chunks left. *)
Theorem tables_well_typed w0 w ps :
  tables_typed (w_db w0) → rtc machine_step (w0, []) (w, ps) → tables_typed (w_db w).
Proof. intros H0' Hs. by destruct (machine_typed w0 (w, ps) H0' Hs). Qed.

(** C8: Rows only move forward.  Between any two reachable states no job, chunk or
    document disappears; a job keeps its document, source, URL, mode and number of
    chunks, its status moves only forward in queued, running, failed, done, and its
    counter never goes up; a chunk keeps its row id and its page range. *)
Theorem rows_move_forward w0 s1 s2 :
  tables_typed (w_db w0) → rtc machine_step (w0, []) s1 → rtc machine_step s1 s2 →
  later (w_db s1.1) (w_db s2.1).
Proof.
  intros H0' H01 H12. destruct (machine_typed w0 s1 H0' H01) as [Ht Hps].
  destruct (machine_statements _ _ H12 Hps) as [Hst _]. by apply statements_later.
Qed.
End machine.

(** ** Witnesses: a request, and then a worker *)
Definition demo_submitted : world map_store map_broker :=
  (run (program demo_request) (e2e_world empty_db ∅)).2.

Lemma demo_machine :
  ∃ p1 p2, rtc machine_step (e2e_world empty_db ∅, []) (demo_submitted, [(demo_request, p1)]) ∧
    rtc machine_step (demo_submitted, [(demo_request, p1)])
      (demo_after, [(demo_worker, p2); (demo_request, p1)]).
Proof.
  destruct (run_steps (λ _ _, True) machine_process (λ w w', w_db w' = w_db w) demo_request
    (program demo_request) [] (e2e_world empty_db ∅)) as (p1 & H1 & _); [by split|constructor|].
  destruct (run_steps (λ _ _, True) machine_process (λ w w', w_db w' = w_db w) demo_worker
    (program demo_worker) [(demo_request, p1)] demo_submitted) as (p2 & H2 & _); [|by constructor|].
  { split; [done|]. intros ? ? ? ? [= _ _ _ <-] l. exact I. }
  exists p1, p2. split; [exact H1|exact H2].
Qed.

Lemma empty_typed : tables_typed empty_db.
Proof. split; intros *; simpl; rewrite ?lookup_empty; (discriminate || by intros []). Qed.


Lemma tables_well_typed_witness : tables_typed (w_db demo_after).
Proof.
  destruct demo_machine as (p1 & p2 & H1 & H2).
  eapply (tables_well_typed (e2e_world empty_db ∅)); [exact empty_typed|].
  etransitivity; [exact H1|exact H2].
Defined.

Lemma rows_move_forward_witness : later (w_db demo_submitted) (w_db demo_after).
Proof.
  destruct demo_machine as (p1 & p2 & H1 & H2).
  exact (rows_move_forward (e2e_world empty_db ∅) _ _ empty_typed H1 H2).
Defined.
