(* ===== verification/EndToEnd.v ===== *)
(** * The deployment against the reference converter

    Workers and API processes with the same settings, which do not share files, take
    their actions in any interleaving; calls fail before or after they took effect,
    processes die anywhere, messages are lost, delayed and redelivered, objects
    expire.  What is stored and what is returned is what the reference converter of
    Spec.v computes. *)
From S2P Require Import Prelude PyStr Effects Rely Utf8 Json Database Config World Db Jobstore.
From S2P Require Import Counter Files Chunker Storage Taskqueue Converter Pagination Worker Spec.
From S2P Require Import Cache Handler Drain Api Quiet Deployment Service Integrity IntegrityRules.
From S2P Require Import IntegrityWorker IntegrityApi System.

Section endtoend.
Context {S B : Type} `{ObjectStoreLaws S} `{BrokerLaws B} `{TempLaws} `{!ShaLaws} `{Codecs}.
Context (cfg : config) `{!ContentAddressed cfg}.
#[local] Abbreviation world := (world S B).
Implicit Types (w : world).

(** Job ids are text ([uuid4]), and the liveness file is not in the source cache. *)
Definition activity_ok (a : activity S B) : Prop :=
  match a with
  | Work _ liveness_file _ _ => no_cache cfg liveness_file
  | Serve _ (Convert J _ _ | AsyncConvert J _) => encodable J
  | _ => True
  end.

Definition member (p : process S B) (q : prog world (option reply)) : Prop :=
  p_cfg p = cfg ∧ activity_ok (p_does p) ∧ q = program p.

(** Activities that touch no file. *)
Definition file_free (a : activity S B) : bool :=
  match a with
  | Boot | Probe | Serve _ (GetJob _ | GetPage _ _) => true
  | Work _ _ _ _ | Serve _ (Convert _ _ _ | AsyncConvert _ _) => false
  end.

(** Processes that run at the same time do not share files. *)
Definition hosts_apart (p q : process S B) : Prop :=
  p_host p ≠ p_host q ∨ file_free (p_does p) = true ∨ file_free (p_does q) = true.

(** The environment: tables and files are left alone, objects may disappear,
    messages may be lost, moved between queues (a delay that ends) and redelivered;
    clocks, signals, connections and the faults to come change at will. *)
Definition decay w w' : Prop :=
  w_db w' = w_db w ∧ w_files w' = w_files w ∧
  (∀ k b, s3_get k (w_s3 w') = Some b → s3_get k (w_s3 w) = Some b) ∧
  (∀ body, in_transit cfg (w_mq w') body → in_transit cfg (w_mq w) body) ∧
  (∀ key q, mq_bound (DLX_EXCHANGE cfg) key q (w_mq w') = true →
     mq_bound (DLX_EXCHANGE cfg) key q (w_mq w) = true).

Definition deployment_step := sys_step hosts_apart member decay.

(** Nothing has been submitted yet. *)
Record pristine w : Prop := {
  no_objects : ∀ k, s3_get k (w_s3 w) = None;
  no_cached : ∀ host h, hash_name h → w_files w !! (host, cache_path cfg h) = None;
  no_jobs : db_jobs (w_db w) = ∅;
  no_chunks : db_chunks (w_db w) = ∅;
  no_messages : ∀ body, ¬ in_transit cfg (w_mq w) body;
  dead_letters : dlx_sealed cfg (w_mq w);
}.

Lemma pristine_inv w : pristine w → content_inv cfg w.
Proof.
  intros [Ho Hf Hj Hc Hm Hb]. split.
  - intros k b. by rewrite Ho.
  - intros host p f Hp h Hh ->. by rewrite Hf in Hp.
  - split; [intros J j; by rewrite Hj|]. intros J i. rewrite Hc, lookup_empty. by intros [? [=]].
  - split; [by intros body ?%Hm|done].
Qed.

(** What a process guarantees, and what it relies on. *)
Definition gives (p : process S B) : world → world → Prop :=
  if file_free (p_does p) then guar_quiet else guar (p_host p).
Definition takes (p : process S B) : world → world → Prop :=
  if file_free (p_does p) then (λ w w', jobs_kept (w_db w) (w_db w')) else rely (p_host p).

Lemma apart_takes p q w w' : hosts_apart p q → gives p w w' → takes q w w'.
Proof.
  unfold hosts_apart, gives, takes. intros Hap Hg.
  destruct (file_free (p_does q)); [by destruct (file_free (p_does p)), Hg|].
  destruct (file_free (p_does p)).
  - destruct Hg as [Hj Hf]. split; [done|]. intros path. by rewrite Hf.
  - destruct Hap as [Hne|[|]]; [|done..]. by eapply guar_rely.
Qed.

Lemma decay_ok w w' : decay w w' → content_inv cfg w → content_inv cfg w' ∧ ∀ p, takes p w w'.
Proof.
  intros (Hd & Hf & Hs & Hm & Hb) [Io If Ij [Ib Idlx]]. split; [split|].
  - intros k b Hk. by apply Io, Hs.
  - intros host p f. rewrite Hf. apply If.
  - by rewrite Hd.
  - split; [by intros body ?%Hm%Ib|]. intros key q ?%Hb. by eapply Idlx.
  - intros p. assert (jobs_kept (w_db w) (w_db w')) by (rewrite Hd; apply jobs_kept_refl).
    unfold takes. destruct (file_free (p_does p)); [done|]. split; [done|]. intros path. by rewrite Hf.
Qed.

(** What a process promises of its result. *)
Definition keeps_promise (p : process S B) (r : option reply) : Prop :=
  match p_does p, r with Serve _ e, Some r => promise cfg e r | _, _ => True end.

Lemma quiet_safe {A} R (p : prog world A) (Q : A → world → Prop) :
  (∀ a w, Q a w) → guarantee (harmless (content_inv cfg) guar_quiet) p →
  safe (content_inv cfg) guar_quiet R (λ _, True) p Q.
Proof.
  intros HQ Hp. apply (safe_post _ _ _ _ _ (λ _ _, True)); [done|]. by apply safe_harmless; [apply framed_pure|].
Qed.

Lemma guarded_safe G R host key e :
  safe (content_inv cfg) G R (λ _, True) (answer host cfg e) (λ r _, promise cfg e r) →
  safe (content_inv cfg) G R (λ _, True) (r ← guarded cfg key (answer host cfg e); mret (Some r))
    (λ r _, keeps_promise (Process host cfg (Serve key e)) r).
Proof.
  intros He. eapply safe_bind_pure; [|by intros r Hr w _ _; exact Hr]. unfold guarded, verify_api_key.
  destruct (ADMIN_API_KEY cfg) as [[|c k]|]; [by intros w; destruct e| |by intros w; destruct e].
  case_bool_decide; [done|by intros w; destruct e].
Qed.

Lemma member_safe p q :
  member p q → safe (content_inv cfg) (gives p) (takes p) (λ _, True) q (λ r _, keeps_promise p r).
Proof.
  intros (Hcfg & Hok & ->). destruct p as [host cfg' does]. simpl in *. subst cfg'.
  destruct does as [api_key liveness_file fuel ill_typed| | |key [J fuel request|J request|J|D i]];
    unfold gives, takes; cbn [program p_host p_cfg p_does file_free].
  - eapply safe_bind; [by apply main_content|]. by intros [] w.
  - apply quiet_safe; [done|]. unfold lifespan. harmless_prog.
  - apply quiet_safe; [done|]. apply guarantee_bind; [apply quiet_readyz|done].
  - apply guarded_safe. by apply (safe_answer cfg host (Convert J fuel request)).
  - apply guarded_safe. by apply (safe_answer cfg host (AsyncConvert J request)).
  - apply guarded_safe. apply (reads_job_endpoint cfg host).
  - apply guarded_safe. apply (reads_page_endpoint cfg).
Qed.

Lemma deployment_inv w0 s :
  pristine w0 → rtc deployment_step (w0, []) s →
  content_inv cfg s.1 ∧ ∀ p r, (p, Ret r) ∈ s.2 → keeps_promise p r.
Proof.
  intros Hinit Hsteps.
  eapply (system_invariant (content_inv cfg) gives takes
    (λ p r _, keeps_promise p r)) in Hsteps; [done|apply member_safe| | |by apply pristine_inv].
  - intros p q Hne w w'. by apply apart_takes.
  - intros w w' Hd HI. by destruct (decay_ok w w' Hd HI).
Qed.

(** C3: What is stored is right.  In every reachable state of a deployment, every
    page in the bucket is that page of the reference conversion of a document on
    the web with that document key, every manifest announces the pages, the length
    and the page size of that conversion, every part is the text of its page range,
    and every source and every cached file has the content its name promises. *)
Theorem stored_content_correct w0 w ps :
  pristine w0 → rtc deployment_step (w0, []) (w, ps) →
  (∀ D i b, 1 <= i → s3_get (page_key D i) (w_s3 w) = Some b → page_fine cfg D i b) ∧
  (∀ D b, s3_get (manifest_key D) (w_s3 w) = Some b → manifest_ok cfg D b) ∧
  (∀ D i b, 0 <= i → s3_get (part_key D i) (w_s3 w) = Some b → part_ok cfg D i b) ∧
  (∀ h b, s3_get (source_key h) (w_s3 w) = Some b → source_ok h b) ∧
  (∀ host h f, hash_name h → w_files w !! (host, cache_path cfg h) = Some f → source_ok h (f_data f)).
Proof.
  intros Hinit Hsteps. destruct (deployment_inv w0 (w, ps) Hinit Hsteps) as [[Ho Hf _ _] _]. split_and!.
  - intros D i b Hi Hb. by apply (of_page _ _ _ (Ho _ _ Hb)).
  - intros D b Hb. by apply (of_manifest _ _ _ (Ho _ _ Hb)).
  - intros D i b Hi Hb. by apply (of_part _ _ _ (Ho _ _ Hb)).
  - intros h b Hb. by apply (of_source _ _ _ (Ho _ _ Hb)).
  - intros host h f Hh Hp. by eapply Hf.
Qed.

(** C2: What is returned is right.  Whenever a request of such a deployment has been
    answered: a page in the reply of POST /convert or POST /async/convert is the
    first page of the reference conversion of the document behind the requested
    URL, in the requested mode, with its pagination; an accepted job is for that
    document and announces the planned number of chunks; a page in the reply of
    GET /convert/{doc_key}/pages/{page} is that page of the reference conversion of the
    document with that key. *)
Theorem replies_correct w0 w ps host key e r :
  pristine w0 → rtc deployment_step (w0, []) (w, ps) →
  (Process host cfg (Serve key e), Ret (Some r)) ∈ ps → promise cfg e r.
Proof.
  intros Hinit Hsteps Hin. destruct (deployment_inv w0 (w, ps) Hinit Hsteps) as [_ Hret].
  apply (Hret _ _ Hin).
Qed.

(** ** Finished jobs *)





End endtoend.

(** ** Witnesses: a request, a worker, and a reader, from an empty deployment *)
Lemma e2e_serves url d : serves url d → url = e2e_url ∧ d = e2e_body.
Proof.
  intros (bs & Hget & ->). cbn [http_get toy_externals] in Hget.
  case_bool_decide as Hu; [|discriminate]. split; [done|].
  injection Hget as Hbs. destruct bs as [|b1 [|b2 [|b3 bs]]]; try discriminate.
  injection Hbs as <- <-. reflexivity.
Qed.

#[local] Instance e2e_addressed : ContentAddressed e2e_config.
Proof.
  split; [|done]. intros D d d' l l' [[url Hd] Hk] [[url' Hd'] Hk'].
  apply e2e_serves in Hd as [_ ->], Hd' as [_ ->]. split; [done|]. rewrite <-Hk' in Hk.
  destruct l, l'; try done; vm_compute in Hk; discriminate.
Qed.

Lemma e2e_pristine : pristine e2e_config (e2e_world empty_db ∅).
Proof.
  split; cbn [e2e_world w_s3 w_files w_db w_mq].
  - intros k. apply lookup_empty.
  - intros host h _. apply lookup_empty.
  - reflexivity.
  - reflexivity.
  - intros body (q & _ & [Hb|[tag Hb]]).
    + unfold topology_broker in Hb. rewrite messages_declared in Hb. by apply elem_of_nil in Hb.
    + unfold topology_broker in Hb. rewrite unacked_declared in Hb. discriminate.
  - destruct (topology_broker_ok e2e_config) as (_ & _ & Hdlx & _). intros key q.
    rewrite Hdlx. intros [_ ?]%bool_decide_eq_true. done.
Qed.

Definition demo_reader : process map_store map_broker :=
  Process (u "api2") e2e_config (Serve (Some (u "secret")) (GetPage e2e_key 1)).

Definition demo_page : reply :=
  PageReply (Build_PageResponse e2e_key (u "[%ab]" ++ nl2 ++ u "[%c]")
    (build_pagination e2e_key 1 1 (len (u "[%ab]" ++ nl2 ++ u "[%c]")) (PAGE_SIZE e2e_config))).

Lemma e2e_alive : no_cache e2e_config (u "/tmp/alive").
Proof.
  change (u "/tmp/alive") with (u "/tmp/" ++ u "alive"). apply no_cache_suffix.
  - apply (bool_decide_eq_true_1 (47 ∉ u "alive")). reflexivity.
  - apply Exists_exists. exists 108. split; [|reflexivity].
    apply list_elem_of_further, list_elem_of_here.
Qed.

Lemma demo_members :
  member e2e_config demo_request (program demo_request) ∧
  member e2e_config demo_worker (program demo_worker) ∧
  member e2e_config demo_reader (program demo_reader).
Proof.
  split_and!; (split_and!; [reflexivity| |reflexivity]).
  - apply u_scalar.
  - apply e2e_alive.
  - exact I.
Qed.

Lemma demo_read :
  (run (program demo_reader) demo_after).1 = Val (Some demo_page).
Proof. vm_compute. reflexivity. Qed.

Lemma demo_read_steps :
  ∃ p1 p2, rtc (deployment_step e2e_config) (e2e_world empty_db ∅, [])
    ((run (program demo_reader) demo_after).2,
     [(demo_reader, Ret (Some demo_page)); (demo_worker, p2); (demo_request, p1)]).
Proof.
  destruct demo_members as (Hr & Hw & Hg).
  destruct (demo_steps hosts_apart (member e2e_config) (decay e2e_config)) as (p1 & p2 & H12);
    [exact Hr|exact Hw|by left|by left|].
  destruct (run_steps hosts_apart (member e2e_config) (decay e2e_config) demo_reader (program demo_reader)
    [(demo_worker, p2); (demo_request, p1)] demo_after) as (p3 & H3 & Hret); [exact Hg| |].
  { repeat constructor; by left. }
  rewrite (Hret (Some demo_page) demo_read) in H3.
  exists p1, p2. etransitivity; [exact H12|exact H3].
Qed.

Lemma stored_content_correct_witness :
  ∃ b, s3_get (page_key e2e_key 1) (w_s3 demo_after) = Some b ∧ page_fine e2e_config e2e_key 1 b.
Proof.
  destruct demo_members as (Hr & Hw & _).
  destruct (demo_steps hosts_apart (member e2e_config) (decay e2e_config)) as (p1 & p2 & Hsteps);
    [exact Hr|exact Hw|by left|by left|].
  destruct (stored_content_correct e2e_config _ _ _ e2e_pristine Hsteps) as [Hpage _].
  exists (u "[%ab]" ++ nl2 ++ u "[%c]").
  split; [vm_compute; reflexivity|]. apply Hpage; [lia|vm_compute; reflexivity].
Defined.

Lemma replies_correct_witness : promise e2e_config (GetPage e2e_key 1) demo_page.
Proof.
  destruct demo_read_steps as (p1 & p2 & Hsteps).
  apply (replies_correct e2e_config _ _ _ (u "api2") (Some (u "secret")) (GetPage e2e_key 1) demo_page
    e2e_pristine Hsteps). apply list_elem_of_here.
Defined.



(** ** Settings that differ *)

(** A worker of an earlier release, with smaller pages. *)
Definition other_config : config :=
  Config (ADMIN_API_KEY e2e_config) (DOC_TTL_DAYS e2e_config) (OPENAI_MODEL e2e_config)
    (CONVERT_USE_LLM e2e_config) (PAGES_PER_CHUNK e2e_config) (MIN_PAGES_FOR_PARALLEL e2e_config) 3
    (MAX_DOWNLOAD_BYTES e2e_config) (RABBITMQ_EXCHANGE e2e_config) (RABBITMQ_QUEUE e2e_config)
    (RETRY_DELAYS e2e_config) (MAX_ATTEMPTS e2e_config) (SOURCE_CACHE_DIR e2e_config)
    (SOURCE_CACHE_MAX_BYTES e2e_config).

Definition other_worker : process map_store map_broker :=
  Process (u "w1") other_config (Work None (u "/tmp/alive") 3 (λ _, mret tt)).

(** C35: The settings have to agree.  The document key is computed by the API from
    its own settings, and travels in the task; the worker cuts pages by its own.  A
    deployment in which a worker still has another PAGE_SIZE, and nothing expires,
    reaches a state in which the job is [done] and a page is stored under the key of
    the API's settings that is no page of the conversion with these settings. *)
Theorem mixed_settings_corrupt :
  ∃ w ps j b, rtc (system_step (λ _, False)) (e2e_world empty_db ∅, []) (w, ps) ∧
    db_jobs (w_db w) !! u "j1" = Some j ∧ j_status j = JDone ∧ j_doc_key j = e2e_key ∧
    s3_get (page_key e2e_key 1) (w_s3 w) = Some b ∧ ¬ page_fine e2e_config e2e_key 1 b.
Proof.
  destruct (run_steps (λ _ _, True) (λ p q, service_process (λ _, False) p ∧ q = program p) (outside (λ _, False)) demo_request
    (program demo_request) [] (e2e_world empty_db ∅)) as (p1 & H1 & _); [by split|constructor|].
  destruct (run_steps (λ _ _, True) (λ p q, service_process (λ _, False) p ∧ q = program p) (outside (λ _, False)) other_worker
    (program other_worker) [(demo_request, p1)] (run (program demo_request) (e2e_world empty_db ∅)).2)
    as (p2 & H2 & _); [|by constructor|].
  { split; [|done]. intros ? ? ? ? [= _ _ _ <-] l w _ _. exact I. }
  do 2 eexists. exists demo_job, (u "[%a"). split; [etransitivity; [exact H1|exact H2]|].
  split_and!; [vm_compute; reflexivity|reflexivity|reflexivity|vm_compute; reflexivity|].
  intros (d & l & pages & p & Hk & Hp & Hl & He).
  assert (has_key e2e_config e2e_key e2e_body false) as Hk'.
  { split; [|apply e2e_key_ok]. exists e2e_url, [u "%a"; u "bc"]. split; [exact e2e_get|reflexivity]. }
  destruct (key_identifies e2e_config _ _ _ _ _ Hk Hk') as [-> ->]. clear Hk Hk'.
  vm_compute in Hp. injection Hp as <-. injection Hl as <-. vm_compute in He. discriminate.
Qed.
